(* ===== verification/_CoqProject ===== *)
-Q . S2P
Prelude.v
Heap.v
BinaryHeap.v
StableSort.v
PriorityQueue.v
IndexedPriorityQueue.v
IpqRefinement.v
Time.v
Path.v
ChannelQueue.v
ChannelQueueFacts.v
ChannelQueueTheorems.v
Channel.v
TaskState.v
TaskFacts.v
TaskTheorems.v
Bit.v
PoolManager.v
Injector.v
MtExecutor.v
MtExecutorFacts.v
MtExecutorSteps.v
MtExecutorTheorems.v
TaskSet.v
TaskSetFacts.v
TaskSetTheorems.v
Broadcaster.v
BroadcasterFacts.v
Senders.v
SendersFacts.v
Ports.v
StExecutor.v
StExecutorFacts.v
StExecutorDrop.v
SeqFuture.v
CachedRwLock.v
SharedCell.v
SharedCellFacts.v
EventSlot.v
EventSlotFacts.v
Slot.v
SyncCell.v
Errors.v
QueueItems.v
KeyRegistry.v
Endpoints.v
Effects.v
Scheduler.v
SchedulerFacts.v
Simulation.v
StepFacts.v
InjectorFacts.v
StepInvariant.v
SimulationTheorems.v
Assembly.v
DemoCodec.v
SaveRestore.v
Protocol.v
Cbor.v
SchedulerService.v
SimInit.v
ControllerService.v
MonitorService.v
BenchService.v
BuildService.v
Grpc.v
Handlers.v
Sources.v
Models.v
EventQueue.v
MtShutdown.v
StSimulation.v
ScopedLocal.v
EventInjectors.v
MtDrop.v
Recycling.v
ModelLoop.v
Observable.v
