(* ===== verification/Prelude.v ===== *)
(** * NeXosim: a verification development

    NeXosim is a discrete-event simulator.  User models exchange messages
    through bounded mailboxes and are run as asynchronous tasks by an executor;
    a simulation kernel owns the simulation time and two priority queues, one of
    future events and queries (the scheduler queue) and one of items to process
    at the next step (the injector queue).  A step advances time to the next
    scheduled item or clock tick, hands the due items to the executor, one task
    per origin, synchronizes with a clock and runs the executor until no task can
    make progress.  All paths below are relative to [src/nexosim/src].

    ** Files, and the code they model

    Shared: [Prelude] (results, outcomes, ordered keys, vectors, list lemmas),
    [Effects] (the state-and-error monad of the kernel and its triples), [Heap]
    and [StableSort] (theory of array heaps and of stable order).

    Data structures:
    - [BinaryHeap], [PriorityQueue]: [util/priority_queue.rs], on a model of the
      standard library's [BinaryHeap].  The class [StablePQ] is the contract both
      queues offer; the kernel is verified against it.
    - [IndexedPriorityQueue], [IpqRefinement]: [util/indexed_priority_queue.rs]
      (heap, slab, free list, epochs) and its refinement to a sorted list.
    - [KeyRegistry]: [server/key_registry.rs], refined to a finite map.
    - [Path]: [path.rs].
    - [Time]: [time.rs], [time/ticker.rs], the [synchronize] methods of
      [time/clock.rs].  [MonotonicTime] comes from the [tai_time] crate: it is the
      class [MonoTime], with an instance [Nano].

    Concurrent components, whose operations are broken down into single memory
    accesses interleaved by an arbitrary schedule:
    - [ChannelQueue], [ChannelQueueFacts], [ChannelQueueTheorems]:
      [channel/queue.rs], the mailbox queue.
    - [Channel]: [channel.rs], sending and receiving on top of that queue (whose
      [push] and [pop] are atomic there), with the two signals and the message
      count.
    - [TaskState], [TaskFacts], [TaskTheorems]: [executor/task.rs] and
      [executor/task/*.rs], the life of a task.
    - [Bit], [PoolManager], [Injector], [MtExecutor], [MtExecutorFacts],
      [MtExecutorSteps], [MtExecutorTheorems]: [executor/mt_executor.rs],
      [executor/mt_executor/*.rs], [util/bit.rs] and [util/rng.rs], the
      work-stealing executor: its main thread and workers are step machines over
      the injector, the word of active workers and the parkers.
    - [MtShutdown]: the same executor when tasks panic, when a run times out and
      when it is dropped: the abort signal, the registered panic and the joining of the
      workers, each of which may end by a panic; the tasks are left to the schedule there.
    - [MtDrop]: the tasks of the same executor when its threads end (normally or by a
      panic) and when it is dropped: the list of active tasks and the drop handler,
      over the tasks of [StExecutor].
    - [StExecutor], [StExecutorFacts], [StExecutorDrop]:
      [executor/st_executor.rs], over the effect of polling and dropping a future
      on the rest of the program.
    - [ScopedLocal]: [macros/scoped_thread_local.rs], the keys through which the
      tasks of a thread find their executor.
    - [TaskSet], [TaskSetFacts], [TaskSetTheorems]: [util/task_set.rs].
    - [Broadcaster], [BroadcasterFacts], [Senders], [SendersFacts]:
      [ports/source/*.rs] and [ports/output/*.rs], the senders of ports and the
      futures that broadcast to them and collect the replies.
    - [Ports]: [ports/output.rs], output and requestor ports with their clones
      and their serialization; the calls of the cached lock are atomic there.
    - [Recycling]: the boxes and vectors that [ports/output/*.rs] reuse from one
      broadcast to the next.
    - [ModelLoop]: the task of a model ([add_model] and [ModelFuture] of
      [simulation.rs], [recv] of [channel.rs]) and the adapters of its methods,
      [ports/input/model_fn.rs].
    - [Sources]: [ports/source.rs], event and query sources and the channel of the
      replies to a query.
    - [SeqFuture], [CachedRwLock]: [util/seq_futures.rs],
      [util/cached_rw_lock.rs].
    - [SharedCell], [SharedCellFacts], [EventSlot], [EventSlotFacts]:
      [util/shared_cell.rs] and [ports/sink/event_slot.rs] on top of it.
    - [EventQueue]: [ports/sink/event_queue.rs] and the state of sinks of
      [ports/sink.rs].
    - [Slot]: [util/slot.rs], the reply slot of queries.
    - [SyncCell]: [util/sync_cell.rs] and [time/monotonic_time.rs], the seqlock of
      the simulation time; [MonotonicTime] is there the class [TimeParts], with an
      instance [PartsTime].

    The simulation kernel:
    - [Errors]: the error types and [ModelId] of [simulation.rs], [executor.rs].
    - [QueueItems]: [simulation/queue_items.rs]: cancellation keys with their
      shared flags, source registries, events, queries and their futures.
    - [Scheduler], [SchedulerFacts]: [simulation/scheduler.rs],
      [simulation/injector.rs] and the scheduling methods of [model/context.rs].
      [Shared] is the state behind the [Arc]s; [ApiCall] lists the calls that may
      happen while the executor runs or the clock blocks.
    - [EventInjectors]: the event injectors of [simulation/injector.rs], with their
      conversions and clones.
    - [Simulation], [StepFacts], [InjectorFacts], [StepInvariant],
      [SimulationTheorems]: [simulation.rs].  The record [Simulation] has the
      fields of the struct; executor, models, clock and ticker are the class
      [Host], whose laws ([HostLaws] in [StepInvariant]) are that the calls made
      meanwhile respect the static types of the API and that a tick is later
      than the current time.
    - [StSimulation]: the instance of [Host] in which the executor is [StExecutor]
      ([executor.rs]), over the code of the models (the class [Program]).
    - [Endpoints]: [endpoints.rs], [endpoints/*.rs] and the binding methods of
      [simulation/sim_init.rs]; its identifiers are those of [QueueItems].
    - [Assembly]: [add_model] of [simulation.rs] and [simulation/sim_init.rs].
    - [SaveRestore], [DemoCodec]: [save] and [restore] of [simulation.rs], over
      an abstract encoder ([Bincode], with a concrete instance).
    - [Models]: [serialize_model] and [deserialize_model] of [model.rs], with the
      keys and the ports of the model, and [process_replier_fn] of [simulation.rs].
    - [SimInit]: the builder of [simulation/sim_init.rs], [init] and [restore].
    - [Observable]: the observable states of the companion crate
      ([nexosim-util/src/observable.rs]), over an interface of output ports.

    The server, which lets remote clients control a simulation:
    - [Protocol]: the conversions of times and durations and the error codes of
      [server/services.rs] and of the generated protocol code; [MonotonicTime] is
      there the class [ProtoTime], with an instance [NanoParts].
    - [Cbor]: the entries of the registries of [endpoints/*.rs] that decode the
      arguments and encode the replies, over an abstract encoder ([Ciborium]).
    - [SchedulerService], [ControllerService], [MonitorService], [BenchService],
      [BuildService]: the five services of [server/services/*.rs].  A request to the
      scheduler is served while other threads change the state it shares with the
      simulation, and a reader of a sink waits while other requests are served.
    - [Handlers]: [GrpcSimulationService] of [server/services.rs], composed of these
      services, and the handler of every request.
    - [Grpc]: the life cycle of the services with the critical sections of the
      requests interleaved; the specification that [Handlers] refines.

    ** What the theorems show

    - Kernel: a step spawns exactly the live items due at the next time, one
      task per origin and in queue order, reschedules the periodic ones and
      leaves only future items; time increases strictly, never beyond its bound;
      [step_until] terminates exactly at its target and leaves only later items, save
      for those that other threads schedule in the window of [step_until_window_race]; [run]
      ends with an empty queue;
      halting, termination and the reporting of executor failures; scheduling
      calls preserve the invariant and reject deadlines that are not in the
      future; cancellation is permanent and affects one key only.
    - Kernel and single-threaded executor composed: when [step_until] returns normally
      no message is in flight, every wake-up was served and each spawned future has its task.
    - Scoped keys refine lexical scoping and never dereference a dangling pointer,
      even if a panic unwinds; injected events keep the order of their origin.
    - Priority queues: stability, refinement, panic freedom.
    - Mailbox queue: no panic, first-in first-out delivery without loss or
      duplication, the meaning of every result, progress of undisturbed calls.
    - Tasks: memory safety, no lost wake-up, reclamation, the phase diagram.
    - Channels: no lost wake-up of a sender or of the receiver, even if sends are
      cancelled, order of the messages, exactness of the message count when nothing can move.
    - Executors: a run ends with every task served and nothing queued, and its
      result counts the messages left; no deadlock and no failed assertion of the
      work-stealing one; its runs succeed only if no task panicked, a panic is
      never missed, and its drop joins all workers or panics on the first that has panicked;
      the single-threaded one ends if its tasks do; the drop of both drops every future
      once, unless a worker of the work-stealing one has panicked when it ended.
    - Models: a model is initialized first, then executes its messages one by one in
      the order in which they were popped, each until it is complete; with
      synchronous methods, as a fold; a panic is attributed to the model that was polled.
    - Recycled storage: every future is dropped once, and no broadcast to several
      recipients allocates once one has reached all senders.
    - Task sets: a woken task is in exactly one place, and the parent is notified.
    - Broadcasts: replies of all recipients in order of connection; broadcasts of
      outputs and of sources are equivalent as long as no reply channel is still held by
      an abandoned query, and a panic otherwise; the replies to a query are what its
      reader gets, and it is told when none will come; the clones of a port share its
      connections, and its serialization gives back clones in order.
    - Slots, seqlock, shared cells, cached locks, event slots: exclusive access,
      atomicity or coherence of reads, no missed event.
    - Event queues: events come out in the order of each writer, those of disabled
      periods apart.
    - Endpoints: what was bound is found, under its path and type only; binding a
      sink is atomic, and renting one and putting it back changes nothing.
    - [find_bit_equiv]: the branch-free selection of a bit agrees with a list.
    - Save and restore: round trip of the queue as a multiset with the sharing of
      cancellation keys, and its order when no two items have the same key; round
      trip of a model, which keeps the ports of the instance it replaces, whose automatic
      keys are cancelled.
    - Initialization: [init] returns a simulation that satisfies the invariant of
      the kernel, [restore] one at the saved time.
    - Server: the conversions at the limits of the machine integers; the key given to
      a client cancels its event and no other, whatever other clients request; a request to
      step ends at the time it returns; a request to process an event or a query processes the
      future of the source bound under its path with the decoded argument; no sink is lost or
      exchanged while the simulation lasts; rejected requests leave the shared state
      alone; the handlers, up to the first one that panics, refine the life cycle, whose locks cannot deadlock, and
      requests that do not overlap keep the services consistent.
    - Theorems that establish departures from the intended behaviour:
      [restore_reorders_events], [save_models_on_error],
      [step_until_window_race], [submodel_misattribution],
      [st_nested_panic_count], [lone_writer_fails], [rejected_key_leaks],
      [huge_duration_panics], [stale_sink_replaces_new_one],
      [stale_return_panics], [tear_down_races_init], [tear_down_waits_for_run],
      [worker_end_panics], [storage_lost], [cancelled_query_panics].

    ** Bounds and fuel

    - Loops that remove an item per iteration take the length of the queue as
      fuel ([peek_next_key_loop], [merge_loop], [spawn_loop], [injector_loop],
      [remove_expired_loop], the sifts); the theorems show that it suffices.
    - [step_until] takes a fuel; one more than the number of nanoseconds to the
      target suffices, since every step moves time by at least one.  [run] is
      bounded likewise by [MonotonicTime::MAX].  The requests of the controller
      service that loop take this fuel.
    - The insertion counters of the queues are 64-bit: the theorems on sequences
      of operations bound the number of insertions by [u64::MAX].
    - The positions of the mailbox queue are 64-bit words: the theorems hold for
      capacities up to [2 ^ 61] and fewer than [2 ^ 60] memory accesses, after which
      sequence counts could wrap.
    - A task panics ([Critical]) when its reference or wake counter comes near
      overflow; this outcome is part of the model.
    - The work-stealing executor has at most 64 workers and fewer than [2 ^ 63]
      messages in flight; a task set has fewer than [2 ^ 32 - 1] tasks.
    - The run of the single-threaded executor takes a fuel; the number of pending
      wake-ups plus a bound on those to come suffices.  Its wake counters, and
      the epochs of cached locks, do not overflow.
    - Third-party crates are seen through their documented behaviour: the queues
      of [st3], the wakers of [diatomic_waker] and [async_event], the keys of
      [slab], the channels of [multishot] and of [futures_channel] (the classes
      [Oneshot] and [Unbounded]), the boxes of [recycle_box].
    - In [MtShutdown] a worker ends within [n + 9] of its own steps once it was asked
      to, plus two for each activation made by the task it runs ([rank]): a task that
      never returns blocks the drop, as in the code.
    - A seqlock schedule has fewer than [2 ^ 63] steps.
    - In [Channel] the count of messages in flight is an integer without bound, where the
      code has a wrapping [isize] per thread ([MtExecutor] and [StExecutor] keep it at its width).
    - A call of the kernel is atomic with respect to other threads, apart from the points
      where they are let in: while the executor runs, while the clock blocks, and in the
      window before [step_until] sets the time.
    - In [MtExecutor] a worker may move tasks of its local queue to the injector at any time:
      the capacity of the local queue, which decides when it does, is left to the schedule.
    - In [StSimulation] the abort signal is never raised.
    - Memory is sequentially consistent: the orderings of the atomics (acquire,
      release, relaxed) are not modelled.

    ** What is not modelled

    Failed allocations; the kernel is
    composed with the model of the single-threaded executor only, and with the models of the
    bench through [Program]; the
    transport of the server ([server/run.rs]) and the code generated for it, apart
    from messages and error codes; poisoned locks, other than that a panic ends an
    execution; procedural macros, tracing and the [Display] implementations. *)

From stdpp Require Export base tactics decidable orders option list numbers
  relations sorting gmap.
From Stdlib Require Export ZArith Lia.

(** ** Fallible and panicking computations

    A Rust call has three kinds of outcome: it returns [Ok], it returns
    [Err], or it unwinds with a panic (failed [assert!], arithmetic overflow
    checks, [unwrap] on [None], out-of-range indexing). *)

Declare Scope nexosim_scope.
Create HintDb nexo_heap.
Delimit Scope nexosim_scope with nexo.

Inductive Result (A E : Type) : Type :=
  | Ok (a : A)
  | Err (e : E).
Arguments Ok {A E} a.
Arguments Err {A E} e.

#[export] Instance Ok_inj {A E} : Inj eq eq (@Ok A E).
Proof. by intros a b [= ->]. Qed.

Inductive Outcome (E A : Type) : Type :=
  | Val (a : A)
  | Fail (e : E)
  | Panic.
Arguments Val {E A} a.
Arguments Fail {E A} e.
Arguments Panic {E A}.

#[export] Instance outcome_ret E : MRet (Outcome E) := fun A a => Val a.
#[export] Instance outcome_bind E : MBind (Outcome E) := fun A B f m =>
  match m with
  | Val a => f a
  | Fail e => Fail e
  | Panic => Panic
  end.

(** [opt.ok_or(e)?] and [opt.unwrap()]. *)
Definition ok_or {E A} (e : E) (o : option A) : Outcome E A :=
  match o with Some a => Val a | None => Fail e end.
Definition unwrap {E A} (o : option A) : Outcome E A :=
  match o with Some a => Val a | None => Panic end.

(** Lifting a [Result] returned by a callee through the [?] operator. *)
Definition of_result {E A} (r : Result A E) : Outcome E A :=
  match r with Ok a => Val a | Err e => Fail e end.

(** ** Machine integers

    A [w]-bit unsigned integer is a [Z] in [0, 2^w). *)

Local Open Scope Z_scope.

Definition u32_max : Z := 2 ^ 32 - 1.
Definition u64_max : Z := 2 ^ 64 - 1.
Definition usize_max : Z := u64_max.
Definition wrap (w x : Z) : Z := x mod 2 ^ w.
Definition wrap64 (x : Z) : Z := wrap 64 x.

(** Reinterpretation of a 64-bit pattern as a signed [isize]. *)
Definition as_isize (x : Z) : Z := if x <? 2 ^ 63 then x else x - 2 ^ 64.

Lemma wrap_range w x : 0 <= w -> 0 <= wrap w x < 2 ^ w.
Proof. intros; apply Z.mod_pos_bound; lia. Qed.

Lemma wrap_small w x : 0 <= x < 2 ^ w -> wrap w x = x.
Proof. intros; apply Z.mod_small; lia. Qed.
Lemma as_isize_wrap x : - 2 ^ 63 <= x < 2 ^ 63 -> as_isize (wrap64 x) = x.
Proof.
  intros Hx. unfold as_isize, wrap64, wrap. destruct (Z.ltb_spec x 0) as [Hn|Hn].
  - rewrite <- (Z_mod_plus_full x 1), Z.mod_small by lia. destruct (Z.ltb_spec (x + 1 * 2 ^ 64) (2 ^ 63)); lia.
  - rewrite Z.mod_small by lia. destruct (Z.ltb_spec x (2 ^ 63)); lia.
Qed.

Local Close Scope Z_scope.

(** ** Ordered keys

    The Rust code is generic over [K: Ord]; [OrdKey] is that interface: a
    boolean comparison that is a total order. *)

Class OrdKey (K : Type) := {
  kleb : K -> K -> bool;
  kleb_total : forall x y, kleb x y = true \/ kleb y x = true;
  kleb_trans : forall x y z, kleb x y = true -> kleb y z = true -> kleb x z = true;
  kleb_antisym : forall x y, kleb x y = true -> kleb y x = true -> x = y }.

#[export] Hint Mode OrdKey ! : typeclass_instances.

(** The derived strict comparison and the equality test of [Ord]. *)
Definition kltb {K} `{OrdKey K} (x y : K) : bool := negb (kleb y x).
Definition keqb {K} `{OrdKey K} (x y : K) : bool := kleb x y && kleb y x.

Section OrdKeyFacts.
Context {K : Type} `{OrdKey K}.
Implicit Types x y z : K.

Lemma kleb_refl x : kleb x x = true.
Proof. by destruct (kleb_total x x). Qed.

Lemma kltb_spec x y : kltb x y = true <-> kleb y x = false.
Proof. unfold kltb; destruct (kleb y x); naive_solver. Qed.

Lemma kleb_false x y : kleb x y = false -> kleb y x = true.
Proof. intros Hf; destruct (kleb_total x y); [congruence | done]. Qed.

Lemma kltb_le x y : kltb x y = true -> kleb x y = true.
Proof. rewrite kltb_spec; apply kleb_false. Qed.

Lemma keqb_spec x y : keqb x y = true <-> x = y.
Proof.
  unfold keqb; rewrite andb_true_iff; split.
  - intros []; by apply kleb_antisym.
  - intros ->; split; apply kleb_refl.
Qed.

Lemma kltb_irrefl x : kltb x x = false.
Proof. unfold kltb; by rewrite kleb_refl. Qed.

Lemma kltb_trans x y z : kltb x y = true -> kltb y z = true -> kltb x z = true.
Proof.
  rewrite !kltb_spec; intros Hyx Hzy.
  destruct (kleb z x) eqn:Hzx; [|done].
  apply kleb_false in Hyx. pose proof (kleb_trans _ _ _ Hzx Hyx); congruence.
Qed.

Lemma kleb_kltb_trans x y z : kleb x y = true -> kltb y z = true -> kltb x z = true.
Proof.
  rewrite !kltb_spec; intros Hxy Hzy.
  destruct (kleb z x) eqn:Hzx; [|done].
  pose proof (kleb_trans _ _ _ Hzx Hxy); congruence.
Qed.

#[export] Instance ordkey_eq_dec : EqDecision K.
Proof.
  intros x y; destruct (keqb x y) eqn:E.
  - left; by apply keqb_spec.
  - right; intros ->; destruct (keqb_spec y y) as [_ Hy]; rewrite Hy in E; done.
Defined.
End OrdKeyFacts.

#[export] Program Instance Z_ordkey : OrdKey Z := {| kleb := Z.leb |}.
Solve Obligations with (intros; lia).

#[export] Program Instance nat_ordkey : OrdKey nat := {| kleb := Nat.leb |}.
Solve Obligations with (intros; rewrite ?Nat.leb_le in *; lia).

(** [#[derive(PartialOrd, Ord)]] on a pair: lexicographic order. *)
Definition pair_leb {A B} `{OrdKey A} `{OrdKey B} (p q : A * B) : bool :=
  kltb p.1 q.1 || (keqb p.1 q.1 && kleb p.2 q.2).

Lemma pair_leb_spec {A B} `{OrdKey A} `{OrdKey B} (p q : A * B) :
  pair_leb p q = true <-> kltb p.1 q.1 = true \/ (p.1 = q.1 /\ kleb p.2 q.2 = true).
Proof. unfold pair_leb; rewrite orb_true_iff, andb_true_iff, keqb_spec; done. Qed.

#[export] Program Instance pair_ordkey {A B} `{OrdKey A} `{OrdKey B} : OrdKey (A * B) :=
  {| kleb := pair_leb |}.
Next Obligation.
  intros A B ?? [a b] [a' b']; rewrite !pair_leb_spec, !kltb_spec; cbn.
  destruct (kleb a' a) eqn:E1; [|by left; left].
  destruct (kleb a a') eqn:E2; [|by right; left].
  pose proof (kleb_antisym _ _ E1 E2); subst.
  destruct (kleb_total b b'); auto.
Qed.
Next Obligation.
  intros A B ?? [a b] [a' b'] [a'' b'']; rewrite !pair_leb_spec; cbn.
  intros [H1 | [-> H1]] [H2 | [-> H2]]; [left|left; done|left; done|right].
  - by eapply kltb_trans.
  - split; [done | by eapply kleb_trans].
Qed.
Next Obligation.
  intros A B ?? [a b] [a' b']; rewrite !pair_leb_spec; cbn.
  intros [H1 | [<- H1]] [H2 | [E H2]].
  - pose proof (kltb_trans _ _ _ H1 H2) as Hc; by rewrite kltb_irrefl in Hc.
  - subst; by rewrite kltb_irrefl in H1.
  - by rewrite kltb_irrefl in H2.
  - f_equal; by apply kleb_antisym.
Qed.

(** ** Bounds-checked vectors

    [v[i] = x] panics when [i] is out of range. *)
Definition vec_set {A} (l : list A) (i : nat) (x : A) : option (list A) :=
  if decide (i < length l) then Some (<[i := x]> l) else None.

Lemma vec_set_Some {A} (l : list A) i x :
  i < length l -> vec_set l i x = Some (<[i := x]> l).
Proof. intros; unfold vec_set; by rewrite decide_True. Qed.

(** ** Lists *)

(** Moving an element between two positions of a vector, the vacated position
    being overwritten: the vector is only permuted. *)
Lemma hole_move_Permutation {A} (l : list A) i j x y :
  i <> j -> i < length l -> l !! j = Some y ->
  <[j := x]> (<[i := y]> l) ≡ₚ <[i := x]> l.
Proof.
  intros Hij Hi Hj.
  assert (<[i := y]> l = <[i := y]> (<[i := x]> l)) as ->
    by (by rewrite list_insert_insert_eq).
  apply Permutation_insert_swap.
  - by rewrite list_lookup_insert_eq.
  - by rewrite list_lookup_insert_ne.
Qed.

Lemma Forall_suffix {A} (P : A -> Prop) (l l' : list A) :
  l' `suffix_of` l -> Forall P l -> Forall P l'.
Proof. intros [k ->]. by intros [_ ?]%Forall_app. Qed.

Lemma filter_Forall {A} (P : A -> Prop) `{forall x, Decision (P x)} (l : list A) :
  Forall P l -> filter P l = l.
Proof. induction 1 as [|x l Hx _ IH]; [done|]. by rewrite filter_cons_True, IH. Qed.

Lemma StronglySorted_filter {A} (R : A -> A -> Prop) (P : A -> Prop)
    `{forall x, Decision (P x)} (l : list A) :
  StronglySorted R l -> StronglySorted R (filter P l).
Proof.
  induction 1 as [|y l Hs IH Hall]; [constructor|].
  rewrite filter_cons. case_decide; [|done]. constructor; [done|].
  apply Forall_forall; intros z [_ Hz]%list_elem_of_filter.
  rewrite Forall_forall in Hall. auto.
Qed.

(** [Vec::pop]. *)
Definition vec_pop {A} (l : list A) : option (A * list A) :=
  match last l with
  | Some x => Some (x, take (pred (length l)) l)
  | None => None
  end.

Lemma vec_pop_snoc {A} (l : list A) x : vec_pop (l ++ [x]) = Some (x, l).
Proof.
  unfold vec_pop. rewrite last_snoc, length_app; cbn.
  replace (pred (length l + 1)) with (length l) by lia. by rewrite take_app_length.
Qed.

Lemma vec_pop_Some {A} (l : list A) x l' : vec_pop l = Some (x, l') -> l = l' ++ [x].
Proof.
  destruct l as [|y l _] using rev_ind; [done|].
  rewrite vec_pop_snoc; intros; by simplify_eq.
Qed.

Lemma vec_pop_None {A} (l : list A) : vec_pop l = None <-> l = [].
Proof.
  split; [|by intros ->]. destruct l as [|y l _] using rev_ind; [done|].
  by rewrite vec_pop_snoc.
Qed.

(** Replacing the element at [i] by the element popped from the back. *)
Lemma swap_remove_Permutation {A} (l : list A) i x y :
  l !! i = Some x -> l ++ [y] ≡ₚ x :: <[i := y]> l.
Proof.
  intros (l1 & l2 & -> & ->)%list_elem_of_split_length.
  rewrite insert_app_r_alt, Nat.sub_diag by done; cbn. solve_Permutation.
Qed.

(** Replacing an element of a list changes its own share of a concatenation. *)
Lemma join_insert {A B} (f : A -> list B) (l : list A) k x : l !! k = Some x ->
  exists rest, mjoin (f <$> l) ≡ₚ f x ++ rest /\ forall y, mjoin (f <$> <[k := y]> l) ≡ₚ f y ++ rest.
Proof.
  revert k. induction l as [|z l IH]; intros k Hk; [done|]. destruct k as [|k].
  - cbn in Hk. simplify_eq. exists (mjoin (f <$> l)). done.
  - destruct (IH k Hk) as (rest & H1 & H2). exists (f z ++ rest).
    change (mjoin (f <$> z :: l)) with (f z ++ mjoin (f <$> l)). split.
    + rewrite H1. apply Permutation_app_swap_app.
    + intros y. change (mjoin (f <$> <[S k := y]> (z :: l))) with (f z ++ mjoin (f <$> <[k := y]> l)).
      rewrite H2. apply Permutation_app_swap_app.
Qed.

(** Other elements stay when one is replaced. *)
Lemma elem_insert_ne {A} (l : list A) i x y z : l !! i = Some x -> z <> x -> z ∈ l -> z ∈ <[i := y]> l.
Proof.
  intros Hi Hne Hz. apply list_elem_of_lookup in Hz as [j Hj]. apply (list_elem_of_lookup_2 _ j).
  rewrite list_lookup_insert_ne; [done|]. intros ->. simplify_eq.
Qed.

(** ** Sums over lists *)
Section Sums.
Local Open Scope Z_scope.
Context {A : Type}.

Fixpoint zsum (f : A -> Z) (l : list A) : Z :=
  match l with [] => 0 | x :: l => f x + zsum f l end.

Lemma zsum_insert f l i x y : l !! i = Some x -> zsum f (<[i := y]> l) = zsum f l - f x + f y.
Proof.
  revert i. induction l as [|z l IH]; intros i Hi; [done|]. destruct i as [|i].
  - cbn in *. simplify_eq. lia.
  - change (<[S i := y]> (z :: l)) with (z :: <[i := y]> l). cbn [zsum]. rewrite (IH i Hi). lia.
Qed.

Lemma zsum_nonneg f l : (forall x, 0 <= f x) -> 0 <= zsum f l.
Proof. intros Hf. induction l as [|x l IH]; cbn; [done|]. specialize (Hf x). lia. Qed.

Lemma zsum_bound f l b : (forall x, f x <= b) -> zsum f l <= b * Z.of_nat (length l).
Proof. intros Hf. induction l as [|x l IH]; cbn [zsum length]; [lia|]. specialize (Hf x). lia. Qed.

Lemma zsum_elem f l i x : (forall x, 0 <= f x) -> l !! i = Some x -> f x <= zsum f l.
Proof.
  intros Hf. revert i. induction l as [|z l IH]; intros i Hi; [done|]. cbn. pose proof (Hf z).
  destruct i as [|i]; cbn in Hi; [simplify_eq; pose proof (zsum_nonneg f l Hf); lia|].
  specialize (IH i Hi). lia.
Qed.

Lemma zsum_zero f l : (forall x, x ∈ l -> f x = 0) -> zsum f l = 0.
Proof.
  induction l as [|x l IH]; intros Hz; cbn; [done|]. rewrite Hz by (by left).
  rewrite IH; [done|]. intros y Hy. apply Hz. by right.
Qed.

Lemma zsum_app f l l' : zsum f (l ++ l') = zsum f l + zsum f l'.
Proof. induction l as [|x l IH]; cbn; lia. Qed.
End Sums.
