(* ===== verification/Heap.v ===== *)
(** * Array-based binary heaps

    The theory shared by the two heaps of the repository: the hand-written
    cross-indexed heap of [util/indexed_priority_queue.rs] and the standard
    library's [BinaryHeap] under [util/priority_queue.rs].  Both sift an item
    by moving a hole through the array, so the theory is about an array with a
    hole: [hole_inv] says that the order holds everywhere except around the
    hole, [hole_inv_up]/[hole_inv_down] that moving the hole keeps it so, and
    [hole_fill] that filling the hole with an item that fits restores the heap
    order. *)

From S2P Require Import Prelude.

Definition parent (j : nat) : nat := (j - 1) / 2.
#[global] Arguments parent : simpl never.

Lemma parent_left i : parent (2 * i + 1) = i.
Proof. unfold parent; replace (2 * i + 1 - 1) with (i * 2) by lia; by rewrite Nat.div_mul. Qed.

Lemma parent_right i : parent (2 * i + 2) = i.
Proof.
  unfold parent; replace (2 * i + 2 - 1) with (1 + i * 2) by lia.
  rewrite Nat.div_add by lia. done.
Qed.

Lemma parent_lt j : j <> 0 -> parent j < j.
Proof. intros; unfold parent; apply Nat.Div0.div_lt_upper_bound; lia. Qed.

Lemma parent_children i j : j <> 0 -> parent j = i -> j = 2 * i + 1 \/ j = 2 * i + 2.
Proof.
  unfold parent; intros Hj Hp.
  pose proof (Nat.div_mod_eq (j - 1) 2). pose proof (Nat.mod_upper_bound (j - 1) 2). lia.
Qed.

Lemma parent_le_len {A} (l : list A) j : j < length l -> parent j < length l.
Proof. intros; destruct (decide (j = 0)) as [->|]; [done|]. pose proof (parent_lt j); lia. Qed.

#[export] Hint Resolve parent_lt parent_le_len : nexo_heap.

Class TotalPre {A} (leb : A -> A -> bool) := {
  tp_total : forall x y, leb x y = true \/ leb y x = true;
  tp_trans : forall x y z, leb x y = true -> leb y z = true -> leb x z = true }.

Section Heap.
Context {A : Type} (leb : A -> A -> bool) `{!TotalPre leb}.

Lemma tp_false x y : leb x y = false -> leb y x = true.
Proof. intros; destruct (tp_total x y); congruence. Qed.

Lemma tp_refl x : leb x x = true.
Proof. by destruct (tp_total x x). Qed.

(** The item at [p] does not exceed the item at [c]. *)
Definition ord_at (l : list A) (p c : nat) : Prop :=
  forall x y, l !! p = Some x -> l !! c = Some y -> leb x y = true.

Definition heap_ok (l : list A) : Prop := forall j, j <> 0 -> ord_at l (parent j) j.

Definition hole_inv (l : list A) (i : nat) : Prop :=
  (forall j, j <> 0 -> j <> i -> parent j <> i -> ord_at l (parent j) j) /\
  (i <> 0 -> forall j, j <> 0 -> parent j = i -> ord_at l (parent i) j).

(** [x] may sit at [i] as far as the children (resp. the parent) of [i] are
    concerned. *)
Definition fits_below (l : list A) (i : nat) (x : A) : Prop :=
  forall j y, j <> 0 -> parent j = i -> l !! j = Some y -> leb x y = true.
Definition fits_above (l : list A) (i : nat) (x : A) : Prop :=
  i <> 0 -> forall y, l !! parent i = Some y -> leb y x = true.

Lemma heap_ok_hole l i : heap_ok l -> hole_inv l i.
Proof.
  intros Hl; split; [intros j ? _ _; by apply Hl|].
  intros Hi j Hj Hp x z Hx Hz.
  destruct (l !! i) as [y|] eqn:Hy.
  - apply tp_trans with y; [by apply (Hl i) | apply (Hl j); [done|by rewrite Hp|done]].
  - apply lookup_ge_None in Hy. apply lookup_lt_Some in Hz.
    pose proof (parent_lt j Hj); lia.
Qed.

Lemma heap_ok_fits_above l i x : heap_ok l -> l !! i = Some x -> fits_above l i x.
Proof. intros Hl Hx Hi y Hy; by apply (Hl i Hi). Qed.

Lemma heap_ok_fits_below l i x : heap_ok l -> l !! i = Some x -> fits_below l i x.
Proof. intros Hl Hx j y Hj <- Hy; by apply (Hl j Hj). Qed.

(** The content of the hole is irrelevant to the hole invariant. *)
Lemma hole_inv_insert l i x : hole_inv (<[i := x]> l) i <-> hole_inv l i.
Proof.
  split; intros [H1 H2]; (split; [intros j Hj Hji Hpi a b|intros Hi j Hj Hp a b]).
  - specialize (H1 j Hj Hji Hpi a b). rewrite !list_lookup_insert_ne in H1; auto.
  - pose proof (parent_lt i Hi); pose proof (parent_lt j Hj).
    specialize (H2 Hi j Hj Hp a b). rewrite !list_lookup_insert_ne in H2 by lia; auto.
  - rewrite !list_lookup_insert_ne by auto; by apply H1.
  - pose proof (parent_lt i Hi); pose proof (parent_lt j Hj).
    rewrite !list_lookup_insert_ne by lia; by apply H2.
Qed.

Lemma fits_below_insert l i z x : fits_below (<[i := z]> l) i x <-> fits_below l i x.
Proof.
  unfold fits_below; split; intros H j y Hj Hp; pose proof (parent_lt j Hj);
    specialize (H j y Hj Hp); rewrite list_lookup_insert_ne in * by lia; done.
Qed.

Lemma fits_above_insert l i z x : fits_above (<[i := z]> l) i x <-> fits_above l i x.
Proof.
  unfold fits_above; split; intros H Hi y; pose proof (parent_lt i Hi);
    specialize (H Hi y); rewrite list_lookup_insert_ne in * by lia; done.
Qed.

(** Filling the hole with an item that fits yields a heap. *)
Lemma hole_fill l i x :
  hole_inv l i -> fits_below l i x -> fits_above l i x -> heap_ok (<[i := x]> l).
Proof.
  intros [H1 H2] Hb Ha j Hj a b La Lb. pose proof (parent_lt j Hj).
  destruct (decide (i < length l)) as [Hi|Hi]; cycle 1.
  { rewrite list_insert_ge in La, Lb by lia.
    pose proof (lookup_lt_Some _ _ _ La). pose proof (lookup_lt_Some _ _ _ Lb).
    apply (H1 j); auto; lia. }
  destruct (decide (j = i)) as [->|Hji].
  - rewrite list_lookup_insert_eq in Lb by done; simplify_eq.
    rewrite list_lookup_insert_ne in La by lia. by apply Ha.
  - rewrite list_lookup_insert_ne in Lb by done.
    destruct (decide (parent j = i)) as [Hp|Hp].
    + rewrite Hp, list_lookup_insert_eq in La by done; simplify_eq. by apply (Hb j).
    + rewrite list_lookup_insert_ne in La by done. by apply (H1 j).
Qed.

(** Moving the hole from [i] to its parent. *)
Lemma hole_inv_up l i y :
  hole_inv l i -> i <> 0 -> l !! parent i = Some y ->
  hole_inv (<[i := y]> l) (parent i).
Proof.
  intros [H1 H2] Hi Hy. pose proof (parent_lt i Hi).
  split.
  - intros j Hj Hjp Hpp a b. pose proof (parent_lt j Hj).
    destruct (decide (j = i)) as [->|]; [lia|].
    rewrite (list_lookup_insert_ne _ i j) by done.
    destruct (decide (parent j = i)) as [Hp|Hp].
    + rewrite Hp. intros La Lb. pose proof (lookup_lt_Some _ _ _ Lb).
      rewrite list_lookup_insert_eq in La by lia; simplify_eq. by apply (H2 Hi j).
    + rewrite list_lookup_insert_ne by done. by apply H1.
  - intros Hpi j Hj Hp a b. pose proof (parent_lt j Hj). pose proof (parent_lt _ Hpi).
    rewrite (list_lookup_insert_ne _ i (parent (parent i))) by lia. intros La Lb.
    assert (leb a y = true) as Hay by (apply (H1 (parent i)); auto; lia).
    destruct (decide (j = i)) as [->|].
    + destruct (decide (i < length l)).
      * rewrite list_lookup_insert_eq in Lb by done; by simplify_eq.
      * rewrite list_insert_ge in Lb by lia. apply lookup_lt_Some in Lb; lia.
    + rewrite list_lookup_insert_ne in Lb by done.
      apply tp_trans with y; [done|]. apply (H1 j); [done|done|lia|by rewrite Hp|done].
Qed.

Lemma fits_below_up l i x y :
  hole_inv l i -> i <> 0 -> l !! parent i = Some y -> leb x y = true ->
  fits_below (<[i := y]> l) (parent i) x.
Proof.
  intros [H1 H2] Hi Hy Hxy j z Hj Hp Hz. pose proof (parent_lt i Hi).
  destruct (decide (j = i)) as [->|].
  - pose proof (lookup_lt_Some _ _ _ Hz) as Hl; rewrite length_insert in Hl.
    rewrite list_lookup_insert_eq in Hz by done; by simplify_eq.
  - rewrite list_lookup_insert_ne in Hz by done. pose proof (parent_lt j Hj).
    apply tp_trans with y; [done|]. apply (H1 j); [done|done|lia|by rewrite Hp|done].
Qed.

(** Moving the hole from [i] to its smallest child [c]. *)
Lemma hole_inv_down l i c y :
  hole_inv l i -> c <> 0 -> parent c = i -> l !! c = Some y ->
  (forall j z, j <> 0 -> parent j = i -> l !! j = Some z -> leb y z = true) ->
  hole_inv (<[i := y]> l) c.
Proof.
  intros [H1 H2] Hc Hpc Hy Hmin. pose proof (parent_lt c Hc).
  pose proof (lookup_lt_Some _ _ _ Hy).
  split.
  - intros j Hj Hjc Hpj a b. pose proof (parent_lt j Hj).
    destruct (decide (j = i)) as [->|Hji].
    + rewrite list_lookup_insert_eq by lia. rewrite list_lookup_insert_ne by lia.
      intros La Lb; simplify_eq. by apply (H2 Hj c).
    + rewrite (list_lookup_insert_ne _ i j) by done.
      destruct (decide (parent j = i)) as [Hp|Hp].
      * rewrite Hp, list_lookup_insert_eq by lia. intros La Lb; simplify_eq.
        by apply (Hmin j).
      * rewrite list_lookup_insert_ne by done. by apply H1.
  - intros _ j Hj Hp a b. pose proof (parent_lt j Hj).
    rewrite Hpc, list_lookup_insert_eq by lia. rewrite list_lookup_insert_ne by lia.
    intros La Lb; simplify_eq. apply (H1 j); [done|lia|lia|done|done].
Qed.

(** After a move to a smallest child, an item that exceeds that child fits
    below its new parent. *)
Lemma fits_above_down l i c x y :
  c <> 0 -> parent c = i -> l !! c = Some y -> leb y x = true ->
  fits_above (<[i := y]> l) c x.
Proof.
  intros Hc Hp Hy Hyx _ z Hz. pose proof (parent_lt c Hc).
  pose proof (lookup_lt_Some _ _ _ Hy).
  rewrite Hp, list_lookup_insert_eq in Hz by lia. by simplify_eq.
Qed.

(** The root of a heap is a smallest element. *)
Lemma heap_root_min l r : heap_ok l -> l !! 0 = Some r -> forall j y, l !! j = Some y -> leb r y = true.
Proof.
  intros Hl Hr j; induction (lt_wf j) as [j _ IH]; intros y Hy.
  destruct (decide (j = 0)) as [->|Hj]; [simplify_eq; apply tp_refl|].
  pose proof (parent_lt j Hj).
  destruct (lookup_lt_is_Some_2 l (parent j)) as [z Hz].
  { apply parent_le_len. by eapply lookup_lt_Some. }
  apply tp_trans with z; [by eapply IH | by apply (Hl j)].
Qed.

Lemma heap_ok_nil : heap_ok [].
Proof. intros j _ x y Hx; by rewrite lookup_nil in Hx. Qed.

(** Dropping the last element keeps the order. *)
Lemma heap_ok_app_l l k : heap_ok (l ++ k) -> heap_ok l.
Proof.
  intros Hl j Hj x y Hx Hy.
  apply (Hl j Hj); by apply lookup_app_l_Some.
Qed.

(** Appending leaves a hole at the end. *)
Lemma hole_inv_snoc l x : heap_ok l -> hole_inv (l ++ [x]) (length l).
Proof.
  intros Hl; split.
  - intros j Hj Hjl _ a b La Lb. pose proof (parent_lt j Hj).
    pose proof (lookup_lt_Some _ _ _ Lb) as Hlt; rewrite length_app in Hlt; cbn in Hlt.
    rewrite lookup_app_l in La, Lb by lia. by apply (Hl j).
  - intros _ j Hj Hp a b _ Lb. pose proof (parent_lt j Hj).
    pose proof (lookup_lt_Some _ _ _ Lb) as Hlt; rewrite length_app in Hlt; cbn in Hlt; lia.
Qed.

Lemma fits_below_leaf l i x : length l <= 2 * i + 1 -> fits_below l i x.
Proof.
  intros Hlen j y Hj Hp Hy. apply lookup_lt_Some in Hy.
  destruct (parent_children _ _ Hj Hp); lia.
Qed.
End Heap.
