(* ===== verification/BinaryHeap.v ===== *)
(** * [std::collections::BinaryHeap]

    [util/priority_queue.rs] keeps its items in the standard library's
    [BinaryHeap].  The order in which [BinaryHeap::iter] yields items is
    observable (the simulation's queue is saved in that order), so the array
    operations are modelled as the library performs them: [push] appends and
    sifts up; [pop] replaces the root by the last item, sifts it down to the
    bottom along the greater children and then up again. *)

From S2P Require Import Prelude Heap.

Module BinaryHeap.
Section Defs.
Context {T : Type} (ble : T -> T -> bool).   (** Rust's [<=] on the items *)

(** [sift_up(start, pos)]: the hole at [pos] holds [elt]. *)
Fixpoint sift_up_loop (fuel : nat) (data : list T) (elt : T) (start pos : nat) : list T :=
  match fuel with
  | O => <[pos := elt]> data
  | S fuel =>
      if decide (start < pos) then
        let p := parent pos in
        let y := default elt (data !! p) in
        if ble elt y then <[pos := elt]> data
        else sift_up_loop fuel (<[pos := y]> data) elt start p
      else <[pos := elt]> data
  end.

Definition sift_up (start pos : nat) (data : list T) : list T :=
  match data !! pos with
  | Some elt => sift_up_loop pos data elt start pos
  | None => data
  end.

Definition push (item : T) (data : list T) : list T :=
  sift_up 0 (length data) (data ++ [item]).

(** The descent of [sift_down_to_bottom]: at each level the hole moves to the
    greater child; [child] is always [2 * pos + 1]. *)
Fixpoint descend (fuel : nat) (data : list T) (elt : T) (pos : nat) : list T * nat :=
  match fuel with
  | O => (data, pos)
  | S fuel =>
      let child := 2 * pos + 1 in
      if decide (child <= length data - 2) then
        let l := default elt (data !! child) in
        let r := default elt (data !! S child) in
        let child := if ble l r then S child else child in
        descend fuel (<[pos := default elt (data !! child)]> data) elt child
      else if decide (child = length data - 1) then
        (<[pos := default elt (data !! child)]> data, child)
      else (data, pos)
  end.

Definition sift_down_to_bottom (pos : nat) (data : list T) : list T :=
  match data !! pos with
  | Some elt =>
      let '(data, p) := descend (length data) data elt pos in
      sift_up pos p (<[p := elt]> data)
  | None => data
  end.

Definition pop (data : list T) : option (T * list T) :=
  match vec_pop data with
  | None => None
  | Some (item, []) => Some (item, [])
  | Some (item, root :: rest) => Some (root, sift_down_to_bottom 0 (item :: rest))
  end.

Definition peek (data : list T) : option T := data !! 0.
End Defs.

Section Facts.
Context {T : Type} (ble : T -> T -> bool) `{!TotalPre (fun x y => ble y x)}.
Let leb x y := ble y x.

Lemma sift_up_loop_ok fuel data elt pos :
  pos <= fuel -> pos < length data -> hole_inv leb data pos -> fits_below leb data pos elt ->
  heap_ok leb (sift_up_loop ble fuel data elt 0 pos) /\
  sift_up_loop ble fuel data elt 0 pos ≡ₚ <[pos := elt]> data.
Proof.
  revert data pos; induction fuel as [|fuel IH]; intros data pos Hf Hlen Hinv Hb; cbn -[parent].
  { split; [|done]. apply hole_fill; auto. intros ?; lia. }
  destruct (decide (0 < pos)) as [Hpos|Hpos]; cycle 1.
  { split; [|done]. apply hole_fill; auto. intros ?; lia. }
  assert (pos <> 0) as Hp0 by lia. pose proof (parent_lt pos Hp0).
  destruct (lookup_lt_is_Some_2 data (parent pos)) as [y Hy]; [lia|].
  rewrite Hy; cbn -[parent]. destruct (ble elt y) eqn:E.
  { split; [|done]. apply hole_fill; auto. intros _ z Hz; by simplify_eq. }
  apply (tp_false leb y elt) in E.
  destruct (IH (<[pos := y]> data) (parent pos)) as [H1 H2].
  - lia.
  - rewrite length_insert; lia.
  - by apply hole_inv_up.
  - by apply fits_below_up.
  - split; [done|]. rewrite H2. apply hole_move_Permutation; [lia|done|done].
Qed.

Lemma sift_up_ok data elt pos :
  data !! pos = Some elt -> hole_inv leb data pos -> fits_below leb data pos elt ->
  heap_ok leb (sift_up ble 0 pos data) /\ sift_up ble 0 pos data ≡ₚ data.
Proof.
  intros He Hinv Hb. unfold sift_up; rewrite He.
  destruct (sift_up_loop_ok pos data elt pos) as [H1 H2]; auto.
  { by eapply lookup_lt_Some. }
  split; [done|]. by rewrite H2, list_insert_id.
Qed.

Lemma push_ok item data :
  heap_ok leb data ->
  heap_ok leb (push ble item data) /\ push ble item data ≡ₚ item :: data.
Proof.
  intros Hd. unfold push.
  assert ((data ++ [item]) !! length data = Some item) as He
    by (rewrite lookup_app_r, Nat.sub_diag; done).
  destruct (sift_up_ok (data ++ [item]) item (length data) He) as [H1 H2].
  - by apply hole_inv_snoc.
  - apply fits_below_leaf. rewrite length_app; cbn; lia.
  - split; [done|]. by rewrite H2, Permutation_app_comm.
Qed.

(** One level of the descent: the chosen child is a smallest one in [leb]. *)
Lemma greater_child data elt pos :
  2 * pos + 1 <= length data - 2 -> 2 <= length data ->
  let child := 2 * pos + 1 in
  let c := if ble (default elt (data !! child)) (default elt (data !! S child))
           then S child else child in
  exists y, data !! c = Some y /\ c <> 0 /\ parent c = pos /\
    (forall j z, j <> 0 -> parent j = pos -> data !! j = Some z -> leb y z = true).
Proof.
  intros Hc Hl child.
  destruct (lookup_lt_is_Some_2 data child) as [l Hlk]; [unfold child; lia|].
  destruct (lookup_lt_is_Some_2 data (S child)) as [r Hr]; [unfold child; lia|].
  rewrite Hlk, Hr; cbn [default id]. unfold leb.
  assert (forall j, j <> 0 -> parent j = pos -> j = child \/ j = S child) as Hch.
  { intros j Hj Hp. destruct (parent_children _ _ Hj Hp); unfold child; lia. }
  destruct (ble l r) eqn:E.
  - exists r; split_and!; [done|lia| |].
    + replace (S child) with (2 * pos + 2) by (unfold child; lia); apply parent_right.
    + intros j z Hj Hp Hz; destruct (Hch j Hj Hp) as [-> | ->]; simplify_eq; [done|].
      by apply (tp_refl (fun x y => ble y x)).
  - exists l; split_and!; [done|unfold child; lia|apply parent_left|].
    intros j z Hj Hp Hz; destruct (Hch j Hj Hp) as [-> | ->]; simplify_eq.
    + by apply (tp_refl (fun x y => ble y x)).
    + by apply (tp_false (fun x y => ble y x)).
Qed.

Lemma descend_ok fuel data elt pos :
  length data <= pos + fuel -> pos < length data -> hole_inv leb data pos ->
  let '(data', p) := descend ble fuel data elt pos in
  p < length data' /\ hole_inv leb data' p /\ fits_below leb data' p elt /\
  <[p := elt]> data' ≡ₚ <[pos := elt]> data.
Proof.
  revert data pos; induction fuel as [|fuel IH]; intros data pos Hf Hlen Hinv; [lia|].
  cbn -[Nat.mul Nat.sub]. destruct (decide (2 * pos + 1 <= length data - 2)) as [Hc|Hc].
  - destruct (greater_child data elt pos Hc) as (y & Hy & Hc0 & Hp & Hmin); [lia|].
    set (c := if ble _ _ then _ else _) in *. rewrite Hy; cbn.
    pose proof (parent_lt c Hc0).
    pose proof (IH (<[pos := y]> data) c) as IH'.
    rewrite length_insert in IH'. apply lookup_lt_Some in Hy as Hcl.
    specialize (IH' ltac:(lia) Hcl ltac:(by apply hole_inv_down)).
    destruct (descend ble fuel _ elt c) as [data' p].
    destruct IH' as (? & ? & ? & HP). split_and!; auto.
    rewrite HP. apply hole_move_Permutation; [lia|done|done].
  - destruct (decide (2 * pos + 1 = length data - 1)) as [He|He].
    + destruct (lookup_lt_is_Some_2 data (2 * pos + 1)) as [y Hy]; [lia|].
      rewrite Hy; cbn [default id]. rewrite length_insert. split_and!; [lia| | |].
      * apply hole_inv_down; [done|lia|apply parent_left|done|].
        intros j z Hj Hpj Hz. pose proof (lookup_lt_Some _ _ _ Hz).
        destruct (parent_children _ _ Hj Hpj) as [-> | ->]; [simplify_eq|lia].
        by apply (tp_refl (fun x y => ble y x)).
      * apply fits_below_leaf. rewrite length_insert; lia.
      * apply hole_move_Permutation; [lia|done|done].
    + split_and!; auto. apply fits_below_leaf; lia.
Qed.

Lemma sift_down_to_bottom_ok elt data :
  hole_inv leb data 0 -> data !! 0 = Some elt ->
  heap_ok leb (sift_down_to_bottom ble 0 data) /\ sift_down_to_bottom ble 0 data ≡ₚ data.
Proof.
  intros Hinv He. unfold sift_down_to_bottom; rewrite He.
  pose proof (descend_ok (length data) data elt 0) as Hd.
  destruct (descend ble (length data) data elt 0) as [data' p].
  destruct Hd as (Hp & Hinv' & Hb & HP); [lia|by eapply lookup_lt_Some|done|].
  destruct (sift_up_ok (<[p := elt]> data') elt p) as [H1 H2].
  - by rewrite list_lookup_insert_eq.
  - by apply hole_inv_insert.
  - by apply fits_below_insert.
  - split; [done|]. by rewrite H2, HP, list_insert_id.
Qed.

Lemma pop_None data : pop ble data = None <-> data = [].
Proof.
  unfold pop. rewrite <- vec_pop_None.
  destruct (vec_pop data) as [[x [|y l]]|]; naive_solver.
Qed.

(** [pop] removes a greatest item for [Ord], the root of the array. *)
Lemma pop_Some data r data' :
  heap_ok leb data -> pop ble data = Some (r, data') ->
  peek data = Some r /\ heap_ok leb data' /\ data ≡ₚ r :: data' /\
  (forall y, y ∈ data -> leb r y = true).
Proof.
  intros Hd Hp.
  assert (peek data = Some r /\ heap_ok leb data' /\ data ≡ₚ r :: data') as (H1 & H2 & H3).
  { unfold pop in Hp. destruct (vec_pop data) as [[x l]|] eqn:E; [|done].
    apply vec_pop_Some in E; subst data. destruct l as [|root rest]; simplify_eq.
    { split_and!; [done|apply heap_ok_nil|done]. }
    destruct (sift_down_to_bottom_ok x (x :: rest)) as [Hh HP]; [|done|].
    - apply heap_ok_app_l in Hd.
      pose proof (heap_ok_hole leb (r :: rest) 0 Hd) as Hi.
      by apply (hole_inv_insert leb (r :: rest) 0 x) in Hi.
    - split_and!; [done|done|]. rewrite HP. cbn. f_equiv. by rewrite Permutation_app_comm. }
  split_and!; auto. intros y [j Hj]%list_elem_of_lookup.
  by eapply (heap_root_min leb data r).
Qed.

Lemma pop_peek data : heap_ok leb data -> fst <$> pop ble data = peek data.
Proof.
  intros Hd. destruct (pop ble data) as [[r d]|] eqn:E; cbn.
  - symmetry. by eapply pop_Some in E as (? & _).
  - apply pop_None in E; by subst.
Qed.
End Facts.
End BinaryHeap.
