(* ===== verification/StableSort.v ===== *)
(** * Sorting by unique keys

    Items of both priority queues carry a user key complemented by an insertion
    epoch.  Listing a set of items by increasing (key, epoch) is deterministic
    when the epochs are distinct; this file relates that listing to the
    insertion of a new item (whose epoch is the largest), to the removal of the
    first item and to the removal of an arbitrary item. *)

From S2P Require Import Prelude.

Section StableSort.
Context {X K : Type} `{OrdKey K} (uk : X -> K * Z).

Definition sle (a b : X) : Prop := kleb (uk a) (uk b) = true.

#[export] Instance sle_dec : RelDecision sle := fun a b => decide (_ = _).
#[export] Instance sle_total : Total sle.
Proof. intros a b; apply kleb_total. Qed.
#[export] Instance sle_trans : Transitive sle.
Proof. intros a b c; apply kleb_trans. Qed.

Definition sepoch (x : X) : Z := (uk x).2.
Definition ssort (l : list X) : list X := merge_sort sle l.

Lemma ssort_Permutation l : ssort l ≡ₚ l.
Proof. apply merge_sort_Permutation. Qed.

Lemma ssort_sorted l : StronglySorted sle (ssort l).
Proof. apply StronglySorted_merge_sort; apply _. Qed.

(** Sorting by unique keys is deterministic. *)
Lemma ssorted_unique (l1 l2 : list X) :
  NoDup (sepoch <$> l1) -> StronglySorted sle l1 -> StronglySorted sle l2 -> l1 ≡ₚ l2 -> l1 = l2.
Proof.
  intros Hnd H1 H2 HP. apply (StronglySorted_unique_strong sle); [|done..].
  intros x1 x2 Hx1 Hx2 Hle Hge.
  pose proof (kleb_antisym _ _ Hle Hge) as Hu.
  assert (sepoch x1 = sepoch x2) as He by (unfold sepoch; by rewrite Hu).
  rewrite <- HP in Hx2.
  apply list_elem_of_lookup in Hx1 as [i Hi], Hx2 as [j Hj].
  assert (i = j) as ->; [|congruence].
  apply (NoDup_lookup _ _ _ (sepoch x1) Hnd); rewrite list_lookup_fmap;
    [rewrite Hi|rewrite Hj, He]; done.
Qed.

(** Any sorted permutation of the items is their listing. *)
Lemma ssort_eq l l' :
  NoDup (sepoch <$> l) -> StronglySorted sle l' -> l' ≡ₚ l -> ssort l = l'.
Proof.
  intros Hnd Hs HP. apply ssorted_unique; [|apply ssort_sorted|done|].
  - eapply NoDup_Permutation_proper; [|exact Hnd].
    apply fmap_Permutation, ssort_Permutation.
  - by rewrite ssort_Permutation.
Qed.

(** Insertion after all the items whose key does not exceed that of [x]. *)
Fixpoint sinsert (x : X) (l : list X) : list X :=
  match l with
  | [] => [x]
  | y :: l' => if kleb (uk y).1 (uk x).1 then y :: sinsert x l' else x :: l
  end.

Lemma sinsert_Permutation x l : sinsert x l ≡ₚ x :: l.
Proof.
  induction l as [|y l IH]; cbn; [done|]. destruct (kleb _ _); [|done].
  rewrite IH; apply Permutation_swap.
Qed.

Lemma sinsert_sorted x l :
  (forall y, y ∈ l -> (sepoch y < sepoch x)%Z) ->
  StronglySorted sle l -> StronglySorted sle (sinsert x l).
Proof.
  intros Hlt Hs. induction Hs as [|y l Hs IH Hall]; cbn; [by repeat constructor|].
  assert (sepoch y < sepoch x)%Z as Hy by (apply Hlt; by left).
  destruct (kleb (uk y).1 (uk x).1) eqn:E.
  - constructor; [apply IH; intros; apply Hlt; by right|].
    rewrite sinsert_Permutation. constructor; [|done].
    apply pair_leb_spec; cbn. destruct (kleb (uk x).1 (uk y).1) eqn:E2.
    + right; split; [by apply kleb_antisym|unfold sepoch in Hy; lia].
    + left; by apply kltb_spec.
  - assert (sle x y) as Hxy by (apply pair_leb_spec; left; by apply kltb_spec).
    constructor; [by constructor|]. constructor; [done|].
    eapply Forall_impl; [exact Hall|]. intros z Hz; by eapply sle_trans.
Qed.

Lemma ssort_insert x l l' :
  NoDup (sepoch <$> l') -> l' ≡ₚ x :: l -> (forall y, y ∈ l -> (sepoch y < sepoch x)%Z) ->
  ssort l' = sinsert x (ssort l).
Proof.
  intros Hnd HP Hlt. apply ssort_eq; [done| |].
  - apply sinsert_sorted; [|apply ssort_sorted].
    intros y Hy; rewrite ssort_Permutation in Hy; auto.
  - by rewrite sinsert_Permutation, ssort_Permutation.
Qed.

Lemma ssort_min x l l' :
  NoDup (sepoch <$> l) -> l ≡ₚ x :: l' -> (forall y, y ∈ l -> sle x y) ->
  ssort l = x :: ssort l'.
Proof.
  intros Hnd HP Hmin. apply ssort_eq; [done| |by rewrite ssort_Permutation].
  constructor; [apply ssort_sorted|]. apply Forall_forall; intros y Hy.
  apply Hmin. rewrite ssort_Permutation in Hy. rewrite HP. by right.
Qed.

Lemma ssort_remove x l l' :
  NoDup (sepoch <$> l) -> l ≡ₚ x :: l' ->
  ssort l' = filter (fun y => sepoch y <> sepoch x) (ssort l).
Proof.
  intros Hnd HP. rewrite HP in Hnd. apply NoDup_cons in Hnd as [Hx Hnd].
  apply ssort_eq; [done|apply StronglySorted_filter, ssort_sorted|].
  rewrite ssort_Permutation, HP, filter_cons_False by naive_solver.
  assert (forall y, y ∈ l' -> sepoch y <> sepoch x) as Hne.
  { intros y Hy He. apply Hx. rewrite <- He. by apply list_elem_of_fmap_2. }
  clear -Hne. induction l' as [|y l' IH]; [done|].
  rewrite filter_cons_True by (apply Hne; by left). f_equiv. apply IH.
  intros; apply Hne; by right.
Qed.

(** Any projection that keeps the user key is sorted by it. *)
Lemma ssort_fmap_sorted {V} (f : X -> K * V) l :
  (forall x, (f x).1 = (uk x).1) ->
  StronglySorted (fun p p' : K * V => kleb p.1 p'.1 = true) (f <$> ssort l).
Proof.
  intros Hf. induction (ssort_sorted l) as [|x l' Hs IH Hall]; cbn; constructor; [done|].
  apply Forall_fmap. eapply Forall_impl; [exact Hall|]. intros y Hy. cbn. rewrite !Hf.
  apply pair_leb_spec in Hy as [Hy|[Hy _]]; [by apply kltb_le|].
  rewrite Hy; apply kleb_refl.
Qed.
End StableSort.
