(* ===== verification/PriorityQueue.v ===== *)
(** * Stable priority queues: [util/priority_queue.rs]

    [StableQueue] is the contract both priority queues of the repository
    promise to their clients: pulling yields the key-value pairs by increasing
    key and, among equal keys, in insertion order.  [StablePQ] states it as an
    interface; [PriorityQueue] models [util/priority_queue.rs] and discharges
    it. *)

From S2P Require Import Prelude Heap BinaryHeap StableSort.

(** ** The contract: a list sorted by key, stable under insertion *)
Module StableQueue.
Section Defs.
Context {K V : Type} `{OrdKey K}.

Fixpoint insert (k : K) (v : V) (l : list (K * V)) : list (K * V) :=
  match l with
  | [] => [(k, v)]
  | (k', v') :: l' => if kleb k' k then (k', v') :: insert k v l' else (k, v) :: l
  end.

(** The pairs with key [k], in queue order. *)
Definition with_key (k : K) (l : list (K * V)) : list V :=
  snd <$> filter (fun p => p.1 = k) l.

Lemma insert_Permutation k v l : insert k v l ≡ₚ (k, v) :: l.
Proof.
  induction l as [|[k' v'] l IH]; cbn; [done|].
  destruct (kleb k' k); [|done]. rewrite IH. apply Permutation_swap.
Qed.

Lemma insert_sorted k v l :
  Sorted (fun p q => kleb p.1 q.1 = true) l ->
  Sorted (fun p q => kleb p.1 q.1 = true) (insert k v l).
Proof.
  induction l as [|[k' v'] l IH]; intros Hs; cbn; [by repeat constructor|].
  destruct (kleb k' k) eqn:E.
  - apply Sorted_inv in Hs as [Hs Hh]. constructor; [by apply IH|].
    destruct l as [|[k'' v''] l]; cbn; [by constructor|].
    destruct (kleb k'' k); constructor; [|done]. by inversion Hh.
  - constructor; [done|]. constructor; cbn. by apply kleb_false.
Qed.

(** First in, first out among equal keys. *)
Lemma insert_with_key_eq k v l :
  Sorted (fun p q => kleb p.1 q.1 = true) l ->
  with_key k (insert k v l) = with_key k l ++ [v].
Proof.
  intros Hs. apply Sorted_StronglySorted in Hs; [|intros ???; apply kleb_trans].
  unfold with_key. induction Hs as [|[k' v'] l Hs IH Hall]; cbn [insert].
  { rewrite filter_cons_True by done. done. }
  destruct (kleb k' k) eqn:E.
  - rewrite !filter_cons. case_decide; [|done]. by rewrite !fmap_cons, IH.
  - assert (filter (fun p : K * V => p.1 = k) ((k', v') :: l) = []) as Hnil.
    { apply elem_of_nil_inv. intros [k'' v''] [Hk Hin]%list_elem_of_filter. cbn in Hk; subst.
      apply elem_of_cons in Hin as [?|Hin]; simplify_eq; [by rewrite kleb_refl in E|].
      rewrite Forall_forall in Hall. specialize (Hall _ Hin). cbn in Hall. congruence. }
    rewrite filter_cons_True by done. rewrite Hnil. done.
Qed.

Lemma insert_with_key_ne k k' v l : k <> k' -> with_key k' (insert k v l) = with_key k' l.
Proof.
  intros Hne. unfold with_key. induction l as [|[k'' v''] l IH]; cbn [insert].
  { by rewrite filter_cons_False. }
  destruct (kleb k'' k); [|by rewrite (filter_cons_False _ (k, v))].
  rewrite !filter_cons. case_decide; [by rewrite !fmap_cons, IH | done].
Qed.
End Defs.
End StableQueue.

(** ** The interface *)
Class StablePQ (K V Q : Type) `{OrdKey K} := {
  pq_ok : Q -> Prop;
  pq_view : Q -> list (K * V);
  pq_epoch : Q -> Z;
  pq_new : Q;
  pq_insert : K -> V -> Q -> option Q;
  pq_pull : Q -> option ((K * V) * Q);
  pq_peek : Q -> option (K * V);
  pq_new_ok : pq_ok pq_new /\ pq_view pq_new = [] /\ pq_epoch pq_new = 0%Z;
  pq_insert_panic : forall k v q, pq_ok q -> (pq_insert k v q = None <-> pq_epoch q = u64_max);
  pq_insert_ok : forall k v q q', pq_ok q -> pq_insert k v q = Some q' ->
    pq_ok q' /\ pq_view q' = StableQueue.insert k v (pq_view q) /\
    pq_epoch q' = (pq_epoch q + 1)%Z;
  pq_pull_ok : forall q, pq_ok q ->
    match pq_view q with
    | [] => pq_pull q = None
    | kv :: l => exists q', pq_pull q = Some (kv, q') /\ pq_ok q' /\ pq_view q' = l /\
                            pq_epoch q' = pq_epoch q
    end;
  pq_peek_ok : forall q, pq_ok q -> pq_peek q = head (pq_view q);
  pq_sorted : forall q, pq_ok q ->
    StronglySorted (fun p p' => kleb p.1 p'.1 = true) (pq_view q) }.

(** ** The implementation over [BinaryHeap] *)
Module PriorityQueue.

Record Item (K V : Type) : Type := mkItem { key : K; value : V; epoch : Z }.
Arguments mkItem {K V} key value epoch.
Arguments key {K V} _.
Arguments value {K V} _.
Arguments epoch {K V} _.

Record PriorityQueue (K V : Type) : Type := mkQueue { heap : list (Item K V); next_epoch : Z }.
Arguments mkQueue {K V} heap next_epoch.
Arguments heap {K V} _.
Arguments next_epoch {K V} _.

Section Defs.
Context {K V : Type} `{OrdKey K}.

(** [K::cmp]. *)
Definition kcmp (x y : K) : comparison :=
  if keqb x y then Eq else if kleb x y then Lt else Gt.

(** [self.key.cmp(&other.key).then_with(|| self.epoch.cmp(&other.epoch)).reverse()]. *)
Definition cmp (a b : Item K V) : comparison :=
  CompOpp (match kcmp (key a) (key b) with
           | Eq => Z.compare (epoch a) (epoch b)
           | c => c
           end).

Definition partial_cmp (a b : Item K V) : option comparison := Some (cmp a b).

Definition eq (a b : Item K V) : bool := keqb (key a) (key b) && Z.eqb (epoch a) (epoch b).

(** The provided method [PartialOrd::le]. *)
Definition le (a b : Item K V) : bool :=
  match partial_cmp a b with Some Lt | Some Eq => true | _ => false end.

Definition new : PriorityQueue K V := mkQueue [] 0.

(** [None] is the panic of [assert_ne!(epoch, u64::MAX)]. *)
Definition insert (k : K) (v : V) (q : PriorityQueue K V) : option (PriorityQueue K V) :=
  let e := next_epoch q in
  if Z.eqb e u64_max then None
  else Some (mkQueue (BinaryHeap.push le (mkItem k v e) (heap q)) (e + 1)).

Definition pull (q : PriorityQueue K V) : option ((K * V) * PriorityQueue K V) :=
  match BinaryHeap.pop le (heap q) with
  | None => None
  | Some (it, h) => Some ((key it, value it), mkQueue h (next_epoch q))
  end.

Definition kv (it : Item K V) : K * V := (key it, value it).

Definition peek (q : PriorityQueue K V) : option (K * V) :=
  kv <$> BinaryHeap.peek (heap q).

(** [iter] follows the order of the heap's array. *)
Definition iter (q : PriorityQueue K V) : list (K * V) := kv <$> heap q.

Definition clear (q : PriorityQueue K V) : PriorityQueue K V := mkQueue [] 0.

(** *** Invariant and abstraction *)
Definition ukey (it : Item K V) : K * Z := (key it, epoch it).

Record wf (q : PriorityQueue K V) : Prop := {
  wf_heap : heap_ok (fun x y => le y x) (heap q);
  wf_nodup : NoDup (epoch <$> heap q);
  wf_epochs : forall it, it ∈ heap q -> (0 <= epoch it < next_epoch q)%Z;
  wf_next : (0 <= next_epoch q <= u64_max)%Z }.

Definition items (q : PriorityQueue K V) : list (Item K V) := ssort ukey (heap q).
Definition view (q : PriorityQueue K V) : list (K * V) := kv <$> items q.
End Defs.

Section Facts.
Context {K V : Type} `{OrdKey K}.
Implicit Types (it : Item K V) (q : PriorityQueue K V).

Lemma le_spec (a b : Item K V) : le a b = kleb (ukey b) (ukey a).
Proof.
  unfold le, partial_cmp, cmp, kcmp. cbn. unfold pair_leb, keqb, kltb; cbn.
  destruct (kleb (key a) (key b)) eqn:E1, (kleb (key b) (key a)) eqn:E2; cbn;
    rewrite ?orb_false_r; try done.
  destruct (Z.compare_spec (epoch a) (epoch b)); cbn; symmetry; lia.
Qed.

#[export] Instance le_total_pre : TotalPre (fun x y : Item K V => le y x).
Proof.
  split; intros *; rewrite !le_spec.
  - apply kleb_total.
  - apply kleb_trans.
Qed.

Lemma sinsert_kv (x : Item K V) l :
  kv <$> sinsert ukey x l = StableQueue.insert (key x) (value x) (kv <$> l).
Proof. induction l as [|y l IH]; cbn; [done|]. destruct (kleb _ _); cbn; by rewrite ?IH. Qed.

Lemma items_Permutation q : items q ≡ₚ heap q.
Proof. apply ssort_Permutation. Qed.

Lemma new_wf : wf (@new K V).
Proof. split; cbn; [apply heap_ok_nil|constructor|by intros ? ?%elem_of_nil|by cbv]. Qed.

Lemma insert_wf k v q q' :
  wf q -> insert k v q = Some q' ->
  wf q' /\ view q' = StableQueue.insert k v (view q) /\ next_epoch q' = (next_epoch q + 1)%Z.
Proof.
  intros Hwf. unfold insert. destruct (Z.eqb_spec (next_epoch q) u64_max); [done|].
  intros Hq; simplify_eq.
  set (x := mkItem k v (next_epoch q)).
  destruct (BinaryHeap.push_ok le x (heap q) (wf_heap q Hwf)) as [Hh HP].
  assert (wf (mkQueue (BinaryHeap.push le x (heap q)) (next_epoch q + 1))) as Hwf'.
  { pose proof (wf_next q Hwf). split; cbn; [done| | |lia].
    - rewrite HP; cbn. constructor; [|apply (wf_nodup q Hwf)].
      intros (it & He & Hin)%list_elem_of_fmap. pose proof (wf_epochs q Hwf it Hin). lia.
    - intros it. rewrite HP, elem_of_cons; intros [->|Hin]; cbn; [lia|].
      pose proof (wf_epochs q Hwf it Hin). lia. }
  split_and!; [done| |done].
  unfold view, items. rewrite (ssort_insert ukey x (heap q)); [|apply (wf_nodup _ Hwf')|done|].
  - apply sinsert_kv.
  - intros y Hy. by apply (wf_epochs q Hwf).
Qed.

Lemma pull_wf q :
  wf q ->
  match view q with
  | [] => pull q = None
  | kv :: l => exists q', pull q = Some (kv, q') /\ wf q' /\ view q' = l /\
                          next_epoch q' = next_epoch q
  end.
Proof.
  intros Hwf. unfold pull. destruct (BinaryHeap.pop le (heap q)) as [[it h]|] eqn:Hp; cycle 1.
  { apply BinaryHeap.pop_None in Hp. unfold view.
    assert (items q = []) as -> by (apply Permutation_nil_r; by rewrite items_Permutation, Hp).
    done. }
  apply BinaryHeap.pop_Some in Hp as (_ & Hh & HP & Hmin);
    [|apply _|by apply wf_heap].
  assert (wf (mkQueue h (next_epoch q))) as Hwf'.
  { split; cbn; [done| | |by apply wf_next].
    - pose proof (wf_nodup q Hwf) as Hnd. rewrite HP in Hnd. by inversion Hnd.
    - intros y Hy. apply (wf_epochs q Hwf). rewrite HP. by right. }
  assert (items q = it :: items (mkQueue h (next_epoch q))) as Hi.
  { apply ssort_min; [apply (wf_nodup q Hwf)|done|].
    intros y Hy. unfold sle. rewrite <- le_spec. by apply Hmin. }
  unfold view at 1. rewrite Hi. cbn. eexists; split_and!; [done|done|done|done].
Qed.

Lemma peek_wf q : wf q -> peek q = head (view q).
Proof.
  intros Hwf. unfold peek. rewrite <- (BinaryHeap.pop_peek le) by apply (wf_heap q Hwf).
  pose proof (pull_wf q Hwf) as Hp. unfold pull in Hp.
  destruct (BinaryHeap.pop le (heap q)) as [[it h]|]; destruct (view q) as [|p l]; cbn; try done.
  - destruct Hp as (q' & ? & _); by simplify_eq.
  - by destruct Hp as (q' & ? & _).
Qed.

Lemma insert_panics k v q : insert k v q = None <-> next_epoch q = u64_max.
Proof. unfold insert; destruct (Z.eqb_spec (next_epoch q) u64_max); naive_solver. Qed.

(** [iter] visits every element once, in an order that need not be the queue
    order. *)
Lemma iter_view q : iter q ≡ₚ view q.
Proof. unfold iter, view. apply fmap_Permutation. by rewrite items_Permutation. Qed.

Lemma view_sorted q : StronglySorted (fun p p' => kleb p.1 p'.1 = true) (view q).
Proof.
  apply (ssort_fmap_sorted ukey kv). done.
Qed.
End Facts.

#[global] Program Instance stable_pq {K V} `{OrdKey K} : StablePQ K V (PriorityQueue K V) := {|
  pq_ok := wf; pq_view := view; pq_epoch := next_epoch; pq_new := new;
  pq_insert := insert; pq_pull := pull; pq_peek := peek |}.
Next Obligation. intros; split_and!; [apply new_wf|done|done]. Qed.
Next Obligation. intros; apply insert_panics. Qed.
Next Obligation. intros; by apply insert_wf. Qed.
Next Obligation. intros; by apply pull_wf. Qed.
Next Obligation. intros; by apply peek_wf. Qed.
Next Obligation. intros; apply view_sorted. Qed.

End PriorityQueue.

(** ** Filling and draining a queue *)
Section Drain.
Context {K V Q : Type} `{OrdKey K} `{!StablePQ K V Q}.

Fixpoint insert_all (l : list (K * V)) (q : Q) : option Q :=
  match l with
  | [] => Some q
  | (k, v) :: l => q ← pq_insert k v q; insert_all l q
  end.

(** Pull until the queue is empty, at most [n] times. *)
Fixpoint drain (n : nat) (q : Q) : list (K * V) :=
  match n with
  | O => []
  | S n => match pq_pull q with Some (kv, q) => kv :: drain n q | None => [] end
  end.

Lemma drain_view n q : pq_ok q -> length (pq_view q) <= n -> drain n q = pq_view q.
Proof.
  revert q; induction n as [|n IH]; intros q Hok Hn; cbn.
  { by destruct (pq_view q); [|cbn in Hn; lia]. }
  pose proof (pq_pull_ok q Hok) as Hp. destruct (pq_view q) as [|kv l]; [by rewrite Hp|].
  destruct Hp as (q' & -> & Hok' & Hv & _). cbn in Hn. rewrite IH; [by rewrite Hv|done|rewrite Hv; lia].
Qed.

Lemma insert_all_ok l q :
  pq_ok q -> (pq_epoch q + Z.of_nat (length l) <= u64_max)%Z ->
  exists q', insert_all l q = Some q' /\ pq_ok q' /\
    pq_view q' = fold_left (fun acc kv => StableQueue.insert kv.1 kv.2 acc) l (pq_view q).
Proof.
  revert q; induction l as [|[k v] l IH]; intros q Hok Hb; cbn; [by exists q|]. cbn in Hb.
  destruct (pq_insert k v q) as [q1|] eqn:E; [|apply pq_insert_panic in E; [lia|done]].
  destruct (pq_insert_ok k v q q1 Hok E) as (Hok1 & Hv1 & He1). cbn.
  destruct (IH q1 Hok1) as (q' & -> & Hok' & Hv'); [lia|]. exists q'. by rewrite Hv', Hv1.
Qed.

Lemma insert_fold_with_key (k : K) (l acc : list (K * V)) :
  Sorted (fun p q => kleb p.1 q.1 = true) acc ->
  StableQueue.with_key k (fold_left (fun acc kv => StableQueue.insert kv.1 kv.2 acc) l acc) =
  StableQueue.with_key k acc ++ StableQueue.with_key k l.
Proof.
  revert acc; induction l as [|[k' v] l IH]; intros acc Hs; [by rewrite app_nil_r|].
  cbn [fold_left]. rewrite IH by (by apply StableQueue.insert_sorted).
  assert (StableQueue.with_key k ((k', v) :: l) =
    if decide (k' = k) then v :: StableQueue.with_key k l else StableQueue.with_key k l) as ->.
  { unfold StableQueue.with_key. rewrite filter_cons. cbn. by destruct (decide (k' = k)). }
  destruct (decide (k' = k)) as [->|].
  - rewrite StableQueue.insert_with_key_eq by done. by rewrite <- app_assoc.
  - by rewrite StableQueue.insert_with_key_ne.
Qed.

Lemma insert_fold_Permutation (l acc : list (K * V)) :
  fold_left (fun acc kv => StableQueue.insert kv.1 kv.2 acc) l acc ≡ₚ l ++ acc.
Proof.
  revert acc; induction l as [|[k v] l IH]; intros acc; cbn; [done|].
  rewrite IH, StableQueue.insert_Permutation. by rewrite <- Permutation_middle.
Qed.
End Drain.

(** C32: a priority queue sorts stably: inserting any list of pairs in an empty
    queue never panics, and pulling them all yields a permutation sorted by key
    in which the values of every key come in insertion order. *)
Theorem priority_queue_stable {K V} `{OrdKey K} (l : list (K * V)) :
  (Z.of_nat (length l) <= u64_max)%Z ->
  exists q, insert_all l (@PriorityQueue.new K V) = Some q /\
    let out := drain (length l) q in
    out ≡ₚ l /\ StronglySorted (fun p p' => kleb p.1 p'.1 = true) out /\
    forall k, StableQueue.with_key k out = StableQueue.with_key k l.
Proof.
  intros Hl. destruct (pq_new_ok (StablePQ := PriorityQueue.stable_pq (K := K) (V := V))) as (Hok & _ & _).
  destruct (insert_all_ok l PriorityQueue.new Hok) as (q & -> & Hq & Hview); [exact Hl|].
  change (pq_view PriorityQueue.new) with (@nil (K * V)) in Hview. exists q. split; [done|].
  assert (pq_view q ≡ₚ l) as HP by (rewrite Hview, insert_fold_Permutation; by rewrite app_nil_r).
  rewrite drain_view by (done || (rewrite HP; done)). split_and!; [done|by apply pq_sorted|].
  intros k. rewrite Hview, insert_fold_with_key by constructor. done.
Qed.

Lemma priority_queue_stable_witness :
  exists q, insert_all [(2, 10); (1, 11); (2, 12); (1, 13)]%Z PriorityQueue.new = Some q /\
    drain 4 q = [(1, 11); (1, 13); (2, 10); (2, 12)]%Z /\
    drain 4 q ≡ₚ [(2, 10); (1, 11); (2, 12); (1, 13)]%Z.
Proof.
  destruct (priority_queue_stable [(2, 10); (1, 11); (2, 12); (1, 13)]%Z) as (q & H1 & H2 & _).
  - vm_compute. discriminate.
  - exists q. split; [exact H1|]. split; [|exact H2].
    vm_compute in H1. injection H1 as <-. vm_compute. reflexivity.
Defined.
