(* ===== verification/IndexedPriorityQueue.v ===== *)
(** * The cross-indexed priority queue: [util/indexed_priority_queue.rs]

    A binary heap of [Item]s whose nodes live in a slab: each heap item points
    to its slab node and each occupied slab node points back to its heap item;
    vacant nodes are linked in a free list.  Every indexing expression, every
    [unwrap_*] and the epoch assertion may panic: the operations live in the
    option monad, [None] being a panic, and the theorems show that none is
    reachable. *)

From S2P Require Import Prelude Heap StableSort PriorityQueue.

Module Ipq.

Record UniqueKey (K : Type) : Type := mkUKey { ukey : K; epoch : Z }.
Arguments mkUKey {K} ukey epoch.
Arguments ukey {K} _.
Arguments epoch {K} _.

Record Item (K : Type) : Type := mkItem { key : UniqueKey K; slab_idx : nat }.
Arguments mkItem {K} key slab_idx.
Arguments key {K} _.
Arguments slab_idx {K} _.

Inductive Node (V : Type) : Type :=
  | FreeNode (next : option nat)
  | HeapNode (value : V) (heap_idx : nat).
Arguments FreeNode {V} next.
Arguments HeapNode {V} value heap_idx.

Record InsertKey : Type := mkInsertKey { ik_slab_idx : nat; ik_epoch : Z }.

Record Queue (K V : Type) : Type := mkQueue {
  heap : list (Item K);
  slab : list (Node V);
  first_free_node : option nat;
  next_epoch : Z }.
Arguments mkQueue {K V} heap slab first_free_node next_epoch.
Arguments heap {K V} _.
Arguments slab {K V} _.
Arguments first_free_node {K V} _.
Arguments next_epoch {K V} _.

Section Defs.
Context {K V : Type} `{OrdKey K}.

(** Derived lexicographic [Ord] of [UniqueKey]. *)
Definition uk_pair (u : UniqueKey K) : K * Z := (ukey u, epoch u).
Definition uk_leb (a b : UniqueKey K) : bool := kleb (uk_pair a) (uk_pair b).
Definition uk_ltb (a b : UniqueKey K) : bool := kltb (uk_pair a) (uk_pair b).

Definition unwrap_next_free_node (n : Node V) : option (option nat) :=
  match n with FreeNode next => Some next | _ => None end.
Definition unwrap_heap_node (n : Node V) : option (V * nat) :=
  match n with HeapNode v h => Some (v, h) | _ => None end.
Definition unwrap_value (n : Node V) : option V := fst <$> unwrap_heap_node n.
Definition unwrap_value_ref (n : Node V) : option V := unwrap_value n.

(** [*self.slab[i].unwrap_heap_index_mut() = h]. *)
Definition set_heap_index (sl : list (Node V)) (i h : nat) : option (list (Node V)) :=
  n ← sl !! i; vh ← unwrap_heap_node n; vec_set sl i (HeapNode vh.1 h).

Definition new : Queue K V := mkQueue [] [] None 0.

(** The capacity only sizes the allocations. *)
Definition with_capacity (capacity : nat) : Queue K V := mkQueue [] [] None 0.

Definition len (q : Queue K V) : nat := length (heap q).

(** The last two statements of [sift_up] and [sift_down]. *)
Definition place (item : Item K) (i : nat) (hp : list (Item K)) (sl : list (Node V)) :
    option (list (Item K) * list (Node V)) :=
  hp ← vec_set hp i item;
  sl ← set_heap_index sl (slab_idx item) i;
  Some (hp, sl).

Fixpoint sift_up_loop (fuel : nat) (item : Item K) (child : nat)
    (hp : list (Item K)) (sl : list (Node V)) : option (list (Item K) * list (Node V)) :=
  match fuel with
  | O => None
  | S fuel =>
      if decide (child = 0) then place item child hp sl else
      let par := parent child in
      it ← hp !! par;
      if uk_leb (key it) (key item) then place item child hp sl else
      hp ← vec_set hp child it;
      it ← hp !! par;
      sl ← set_heap_index sl (slab_idx it) child;
      it ← hp !! par;
      if uk_leb (key it) (key item) then place item child hp sl else
      sift_up_loop fuel item par hp sl
  end.

Definition sift_up (item : Item K) (i : nat) (hp : list (Item K)) (sl : list (Node V)) :=
  sift_up_loop (S i) item i hp sl.

Fixpoint sift_down_loop (fuel : nat) (item : Item K) (par child : nat)
    (hp : list (Item K)) (sl : list (Node V)) : option (list (Item K) * list (Node V)) :=
  match fuel with
  | O => None
  | S fuel =>
      if decide (child < length hp) then
        child ← match hp !! S child with
                | Some other =>
                    it ← hp !! child;
                    Some (if uk_ltb (key other) (key it) then S child else child)
                | None => Some child
                end;
        it ← hp !! child;
        if uk_leb (key item) (key it) then place item par hp sl else
        hp ← vec_set hp par it;
        it ← hp !! child;
        sl ← set_heap_index sl (slab_idx it) par;
        sift_down_loop fuel item child (2 * child + 1) hp sl
      else place item par hp sl
  end.

Definition sift_down (item : Item K) (i : nat) (hp : list (Item K)) (sl : list (Node V)) :=
  sift_down_loop (S (length hp)) item i (2 * i + 1) hp sl.

Definition insert (k : K) (v : V) (q : Queue K V) : option (InsertKey * Queue K V) :=
  let e := next_epoch q in
  if Z.eqb e u64_max then None else
  let unique_key := mkUKey k e in
  '(idx, free, sl) ← match first_free_node q with
    | Some idx =>
        n ← slab q !! idx;
        free ← unwrap_next_free_node n;
        sl ← vec_set (slab q) idx (HeapNode v 0);
        Some (idx, free, sl)
    | None => Some (length (slab q), None, slab q ++ [HeapNode v 0])
    end;
  let heap_idx := length (heap q) in
  let hp := heap q ++ [mkItem unique_key 0] in
  '(hp, sl) ← sift_up (mkItem unique_key idx) heap_idx hp sl;
  Some (mkInsertKey idx e, mkQueue hp sl free (e + 1)).

Definition pull (q : Queue K V) : option (option (K * V) * Queue K V) :=
  match heap q !! 0 with
  | None => Some (None, q)
  | Some item =>
      let top := slab_idx item in
      let k := ukey (key item) in
      n ← slab q !! top;
      sl ← vec_set (slab q) top (FreeNode (first_free_node q));
      v ← unwrap_value n;
      '(last_item, hp) ← vec_pop (heap q);
      '(hp, sl) ← if decide (slab_idx last_item <> top)
                  then sift_down last_item 0 hp sl else Some (hp, sl);
      Some (Some (k, v), mkQueue hp sl (Some top) (next_epoch q))
  end.

Definition peek (q : Queue K V) : option (option (K * V)) :=
  match heap q !! 0 with
  | None => Some None
  | Some item =>
      n ← slab q !! slab_idx item;
      v ← unwrap_value_ref n;
      Some (Some (ukey (key item), v))
  end.

Definition peek_key (q : Queue K V) : option K := (fun it => ukey (key it)) <$> heap q !! 0.

Definition extract (ik : InsertKey) (q : Queue K V) : option (option (K * V) * Queue K V) :=
  let i := ik_slab_idx ik in
  match slab q !! i with
  | None | Some (FreeNode _) => Some (None, q)
  | Some (HeapNode _ h) =>
      it ← heap q !! h;
      if decide (epoch (key it) <> ik_epoch ik) then Some (None, q) else
      n ← slab q !! i;
      sl ← vec_set (slab q) i (FreeNode (first_free_node q));
      '(v, h) ← unwrap_heap_node n;
      it ← heap q !! h;
      let k := ukey (key it) in
      '(last_item, hp) ← vec_pop (heap q);
      '(hp, sl) ← match hp !! h with
        | Some item =>
            if uk_ltb (key last_item) (key item)
            then sift_up last_item h hp sl
            else sift_down last_item h hp sl
        | None => Some (hp, sl)
        end;
      Some (Some (k, v), mkQueue hp sl (Some i) (next_epoch q))
  end.

Definition from_raw_parts (i : nat) (e : Z) : InsertKey := mkInsertKey i e.
Definition into_raw_parts (ik : InsertKey) : nat * Z := (ik_slab_idx ik, ik_epoch ik).
End Defs.

(** ** Invariant *)
Section Inv.
Context {K V : Type} `{OrdKey K}.
Implicit Types (hp : list (Item K)) (sl : list (Node V)) (item it : Item K).

Definition item_leb (a b : Item K) : bool := uk_leb (key a) (key b).
#[export] Instance item_leb_pre : TotalPre item_leb.
Proof. split; intros *; [apply kleb_total|apply kleb_trans]. Qed.

Definition heap_idx_of sl (s : nat) : option nat := n ← sl !! s; snd <$> unwrap_heap_node n.
Definition value_of sl (s : nat) : option V := n ← sl !! s; unwrap_value n.

(** Every heap item's node points back to it. *)
Definition cross hp sl : Prop :=
  forall j it, hp !! j = Some it -> heap_idx_of sl (slab_idx it) = Some j.

(** The same for an array with a hole at [i], to be filled with [item]. *)
Record cross_hole hp sl item (i : nat) : Prop := {
  ch_lt : i < length hp;
  ch_nodup : NoDup (slab_idx <$> <[i := item]> hp);
  ch_cross : forall j it, j <> i -> hp !! j = Some it -> heap_idx_of sl (slab_idx it) = Some j;
  ch_item : is_Some (value_of sl (slab_idx item)) }.

(** Two slabs that differ only in their back-pointing indices. *)
Definition same_shape sl sl' : Prop :=
  length sl = length sl' /\ (forall s, value_of sl s = value_of sl' s) /\
  (forall s nx, sl !! s = Some (FreeNode nx) <-> sl' !! s = Some (FreeNode nx)).

Lemma same_shape_refl sl : same_shape sl sl.
Proof. by split_and!. Qed.

Lemma same_shape_trans sl1 sl2 sl3 :
  same_shape sl1 sl2 -> same_shape sl2 sl3 -> same_shape sl1 sl3.
Proof.
  intros (L1 & V1 & F1) (L2 & V2 & F2); split_and!; [congruence| |].
  - intros s; by rewrite V1.
  - intros s nx; by rewrite F1.
Qed.

Lemma heap_idx_value sl s : is_Some (heap_idx_of sl s) <-> is_Some (value_of sl s).
Proof.
  unfold heap_idx_of, value_of, unwrap_value. destruct (sl !! s) as [[|v h]|]; cbn;
    split; intros []; naive_solver.
Qed.

Lemma set_heap_index_ok sl s h :
  is_Some (value_of sl s) ->
  exists sl', set_heap_index sl s h = Some sl' /\ same_shape sl sl' /\
    heap_idx_of sl' s = Some h /\ (forall s', s' <> s -> heap_idx_of sl' s' = heap_idx_of sl s').
Proof.
  unfold set_heap_index, value_of, same_shape, heap_idx_of, value_of, unwrap_value.
  destruct (sl !! s) as [[nx|v h0]|] eqn:Hs; cbn; intros [v' Hv]; simplify_eq.
  pose proof (lookup_lt_Some _ _ _ Hs) as Hlt.
  rewrite vec_set_Some by done. eexists; split_and!; [done|by rewrite length_insert| | | |].
  - intros s'. destruct (decide (s' = s)) as [->|].
    + by rewrite Hs, list_lookup_insert_eq.
    + by rewrite list_lookup_insert_ne.
  - intros s' nx. destruct (decide (s' = s)) as [->|].
    + by rewrite Hs, list_lookup_insert_eq.
    + by rewrite list_lookup_insert_ne.
  - by rewrite list_lookup_insert_eq.
  - intros s' Hne. by rewrite list_lookup_insert_ne.
Qed.

Lemma slab_idx_inj hp i item j k a b :
  NoDup (slab_idx <$> <[i := item]> hp) -> j <> i -> k <> i ->
  hp !! j = Some a -> hp !! k = Some b -> slab_idx a = slab_idx b -> j = k.
Proof.
  intros Hnd Hj Hk Ha Hb He. apply (NoDup_lookup _ _ _ (slab_idx a) Hnd);
    rewrite list_lookup_fmap, list_lookup_insert_ne by done; [by rewrite Ha|by rewrite Hb, He].
Qed.

(** One move of the hole from [i] to [j]. *)
Lemma cross_hole_move hp sl item i j it :
  cross_hole hp sl item i -> j <> i -> hp !! j = Some it ->
  exists sl', set_heap_index sl (slab_idx it) i = Some sl' /\ same_shape sl sl' /\
    cross_hole (<[i := it]> hp) sl' item j.
Proof.
  intros [Hlt Hnd Hc Hi] Hji Hj.
  destruct (set_heap_index_ok sl (slab_idx it) i) as (sl' & Hs & Hsh & Hnew & Hold).
  { apply heap_idx_value. rewrite (Hc j) by done. eauto. }
  exists sl'; split_and!; [done|done|]. split.
  - rewrite length_insert. by eapply lookup_lt_Some.
  - rewrite hole_move_Permutation; [done|done|done|done].
  - intros k it' Hk Hl. destruct (decide (k = i)) as [->|Hki].
    + rewrite list_lookup_insert_eq in Hl by done. by simplify_eq.
    + rewrite list_lookup_insert_ne in Hl by done. rewrite Hold; [by apply Hc|].
      intros He. apply Hk. by eapply (slab_idx_inj hp i item).
  - destruct Hsh as (_ & <- & _). done.
Qed.

Lemma place_ok hp sl item i :
  cross_hole hp sl item i ->
  exists sl', place item i hp sl = Some (<[i := item]> hp, sl') /\ same_shape sl sl' /\
    cross (<[i := item]> hp) sl'.
Proof.
  intros [Hlt Hnd Hc Hi].
  destruct (set_heap_index_ok sl (slab_idx item) i Hi) as (sl' & Hs & Hsh & Hnew & Hold).
  exists sl'. unfold place. rewrite vec_set_Some by done. cbn. rewrite Hs; cbn.
  split_and!; [done|done|]. intros j it Hj.
  destruct (decide (j = i)) as [->|Hji].
  - rewrite list_lookup_insert_eq in Hj by done. by simplify_eq.
  - pose proof Hj as Hj'. rewrite list_lookup_insert_ne in Hj' by done.
    rewrite Hold; [by apply Hc|]. intros He. apply Hji.
    apply (NoDup_lookup _ _ _ (slab_idx it) Hnd); rewrite list_lookup_fmap;
      [by rewrite Hj|by rewrite list_lookup_insert_eq, He].
Qed.

(** What both sifts deliver. *)
Definition sifted hp sl item i (r : option (list (Item K) * list (Node V))) : Prop :=
  exists hp' sl', r = Some (hp', sl') /\ heap_ok item_leb hp' /\
    hp' ≡ₚ <[i := item]> hp /\ cross hp' sl' /\ same_shape sl sl'.

Lemma sifted_place hp sl item i :
  cross_hole hp sl item i -> hole_inv item_leb hp i ->
  fits_below item_leb hp i item -> fits_above item_leb hp i item ->
  sifted hp sl item i (place item i hp sl).
Proof.
  intros Hc Hi Hb Ha. destruct (place_ok _ _ _ _ Hc) as (sl' & Hp & Hsh & Hcr).
  exists (<[i := item]> hp), sl'; split_and!; auto. by apply hole_fill.
Qed.

Lemma sifted_move hp sl sl' item i j it r :
  cross_hole hp sl item i -> j <> i -> hp !! j = Some it -> same_shape sl sl' ->
  sifted (<[i := it]> hp) sl' item j r -> sifted hp sl item i r.
Proof.
  intros Hc Hji Hj Hsh (hp' & sl'' & -> & Hh & HP & Hcr & Hsh').
  exists hp', sl''; split_and!; auto.
  - rewrite HP. apply hole_move_Permutation; [done|apply Hc|done].
  - by eapply same_shape_trans.
Qed.

Lemma ipq_sift_up_loop_ok fuel item i hp sl :
  i < fuel -> cross_hole hp sl item i -> hole_inv item_leb hp i ->
  fits_below item_leb hp i item -> sifted hp sl item i (sift_up_loop fuel item i hp sl).
Proof.
  revert i hp sl; induction fuel as [|fuel IH]; intros i hp sl Hf Hc Hi Hb; [lia|].
  cbn [sift_up_loop]. destruct (decide (i = 0)) as [->|Hi0].
  { apply sifted_place; auto. intros ?; lia. }
  pose proof (parent_lt i Hi0) as Hp. pose proof (ch_lt _ _ _ _ Hc).
  destruct (lookup_lt_is_Some_2 hp (parent i)) as [it Hit]; [lia|].
  rewrite Hit; cbn [mbind option_bind]. destruct (uk_leb (key it) (key item)) eqn:E.
  { apply sifted_place; auto. intros _ y Hy; by simplify_eq. }
  rewrite vec_set_Some by done; cbn [mbind option_bind].
  rewrite !list_lookup_insert_ne by lia. rewrite !Hit; cbn [mbind option_bind].
  destruct (cross_hole_move _ _ _ _ (parent i) it Hc) as (sl' & Hs & Hsh & Hc'); [lia|done|].
  rewrite Hs; cbn [mbind option_bind]. rewrite E.
  apply (sifted_move hp sl sl' item i (parent i) it); [done|lia|done|done|].
  apply IH; [lia|done|by apply (hole_inv_up item_leb)|].
  apply (fits_below_up item_leb); auto. by apply (tp_false item_leb it item).
Qed.

(** The candidate child of [sift_down] is a smallest child. *)
Lemma smallest_child hp i c it :
  match hp !! S (2 * i + 1) with
  | Some other => it ← hp !! (2 * i + 1);
                  Some (if uk_ltb (key other) (key it) then S (2 * i + 1) else 2 * i + 1)
  | None => Some (2 * i + 1)
  end = Some c -> hp !! c = Some it ->
  c <> 0 /\ parent c = i /\
  (forall j z, j <> 0 -> parent j = i -> hp !! j = Some z -> item_leb it z = true).
Proof.
  intros Hc Hit.
  assert (forall j, j <> 0 -> parent j = i -> j = 2 * i + 1 \/ j = S (2 * i + 1)) as Hch.
  { intros j Hj Hp. destruct (parent_children _ _ Hj Hp); lia. }
  assert (parent (S (2 * i + 1)) = i) as Hr
    by (replace (S (2 * i + 1)) with (2 * i + 2) by lia; apply parent_right).
  assert (parent (2 * i + 1) = i) as Hl' by apply parent_left.
  assert (2 * i + 1 <> 0) as Hne by lia. revert Hc Hch Hr Hl' Hne.
  generalize (2 * i + 1); intros c1 Hc Hch Hr Hl' Hne.
  destruct (hp !! S c1) as [other|] eqn:Ho; cycle 1.
  { simplify_eq. split_and!; [done|done|]. intros j z Hj Hp Hz.
    destruct (Hch j Hj Hp) as [-> | ->]; simplify_eq. by apply (tp_refl item_leb). }
  destruct (hp !! c1) as [l|] eqn:Hl; cbn in Hc; [|done].
  destruct (uk_ltb (key other) (key l)) eqn:E; simplify_eq.
  - split_and!; [lia|done|]. intros j z Hj Hp Hz.
    destruct (Hch j Hj Hp) as [-> | ->]; simplify_eq;
      [by apply (kltb_le _ _ E)|by apply (tp_refl item_leb)].
  - split_and!; [done|done|]. intros j z Hj Hp Hz.
    destruct (Hch j Hj Hp) as [-> | ->]; simplify_eq; [by apply (tp_refl item_leb)|].
    unfold uk_ltb, kltb in E. by apply negb_false_iff in E.
Qed.

Lemma sift_down_loop_ok fuel item i hp sl :
  length hp < i + fuel -> cross_hole hp sl item i -> hole_inv item_leb hp i ->
  fits_above item_leb hp i item ->
  sifted hp sl item i (sift_down_loop fuel item i (2 * i + 1) hp sl).
Proof.
  revert i hp sl; induction fuel as [|fuel IH]; intros i hp sl Hf Hc Hi Ha.
  { pose proof (ch_lt _ _ _ _ Hc); lia. }
  cbn [sift_down_loop]. destruct (decide (2 * i + 1 < length hp)) as [Hlt|Hge]; cycle 1.
  { apply sifted_place; auto. apply fits_below_leaf; lia. }
  destruct (lookup_lt_is_Some_2 hp (2 * i + 1)) as [l Hl]; [lia|].
  assert (exists c it, match hp !! S (2 * i + 1) with
    | Some other => it ← hp !! (2 * i + 1);
                    Some (if uk_ltb (key other) (key it) then S (2 * i + 1) else 2 * i + 1)
    | None => Some (2 * i + 1)
    end = Some c /\ hp !! c = Some it) as (c & it & Hsel & Hit).
  { destruct (hp !! S (2 * i + 1)) eqn:Ho; [|by eexists _, _].
    rewrite Hl; cbn [mbind option_bind]. destruct (uk_ltb _ _); by eexists _, _. }
  rewrite Hsel; cbn [mbind option_bind]. rewrite Hit; cbn [mbind option_bind].
  destruct (smallest_child _ _ _ _ Hsel Hit) as (Hc0 & Hpc & Hmin).
  pose proof (parent_lt c Hc0) as Hlt'.
  destruct (uk_leb (key item) (key it)) eqn:E.
  { apply sifted_place; auto. intros j z Hj Hp Hz.
    apply (tp_trans (leb := item_leb)) with it; [done|by eapply Hmin]. }
  rewrite vec_set_Some by apply Hc; cbn [mbind option_bind].
  rewrite !list_lookup_insert_ne by lia. rewrite !Hit; cbn [mbind option_bind].
  destruct (cross_hole_move _ _ _ _ c it Hc) as (sl' & Hs & Hsh & Hc'); [lia|done|].
  rewrite Hs; cbn [mbind option_bind].
  apply (sifted_move hp sl sl' item i c it); [done|lia|done|done|].
  apply IH; [rewrite length_insert; lia|done|by eapply (hole_inv_down item_leb)|].
  apply (fits_above_down item_leb); auto. by apply (tp_false item_leb item it).
Qed.
End Inv.

(** ** Operations preserve the invariant *)
Section Wf.
Context {K V : Type} `{OrdKey K}.
Implicit Types (hp : list (Item K)) (sl : list (Node V)) (item it : Item K) (q : Queue K V).

(** The free list: [fl] are the nodes reachable from [o]. *)
Fixpoint free_chain sl (o : option nat) (fl : list nat) : Prop :=
  match fl with
  | [] => o = None
  | s :: fl => o = Some s /\ exists nx, sl !! s = Some (FreeNode nx) /\ free_chain sl nx fl
  end.

(** The free list is acyclic and holds every vacant node. *)
Definition free_ok sl (o : option nat) : Prop :=
  exists fl, free_chain sl o fl /\ NoDup fl /\
    (forall s nx, sl !! s = Some (FreeNode nx) -> s ∈ fl).

Record wf q : Prop := {
  wf_heap : heap_ok item_leb (heap q);
  wf_cross : cross (heap q) (slab q);
  wf_occ : forall s, is_Some (value_of (slab q) s) -> s ∈ slab_idx <$> heap q;
  wf_free : free_ok (slab q) (first_free_node q);
  wf_nodup : NoDup ((fun it => epoch (key it)) <$> heap q);
  wf_epochs : forall it, it ∈ heap q -> (0 <= epoch (key it) < next_epoch q)%Z;
  wf_next : (0 <= next_epoch q <= u64_max)%Z }.

Lemma free_chain_ext sl sl' o fl :
  (forall s nx, s ∈ fl -> sl !! s = Some (FreeNode nx) -> sl' !! s = Some (FreeNode nx)) ->
  free_chain sl o fl -> free_chain sl' o fl.
Proof.
  revert o; induction fl as [|s fl IH]; intros o Hext; cbn; [done|].
  intros (-> & nx & Hs & Hc); split; [done|]. exists nx; split.
  - apply Hext; [by left|done].
  - apply IH; [|done]. intros s' nx' Hin; apply Hext; by right.
Qed.

Lemma free_ok_same_shape sl sl' o : same_shape sl sl' -> free_ok sl o -> free_ok sl' o.
Proof.
  intros (_ & _ & Hf) (fl & Hc & Hnd & Hall). exists fl; split_and!; [|done|].
  - eapply free_chain_ext; [|done]. intros s nx _; apply Hf.
  - intros s nx Hs. eapply Hall. by apply Hf.
Qed.

Lemma free_ok_dealloc sl o s v h :
  sl !! s = Some (HeapNode v h) -> free_ok sl o -> free_ok (<[s := FreeNode o]> sl) (Some s).
Proof.
  intros Hs (fl & Hc & Hnd & Hall). pose proof (lookup_lt_Some _ _ _ Hs).
  assert (s ∉ fl) as Hn.
  { intros Hin. clear Hnd Hall. revert o Hc. induction fl as [|s' fl IH]; intros o Hc.
    - by apply elem_of_nil in Hin.
    - destruct Hc as (-> & nx & Hs' & Hc). apply elem_of_cons in Hin as [->|Hin];
        [congruence|by eapply IH]. }
  exists (s :: fl); split_and!.
  - cbn; split; [done|]. exists o; split; [by rewrite list_lookup_insert_eq|].
    eapply free_chain_ext; [|done]. intros s' nx Hin.
    rewrite list_lookup_insert_ne; [done|]. intros ->; done.
  - by constructor.
  - intros s' nx. destruct (decide (s' = s)) as [->|]; [by left|].
    rewrite list_lookup_insert_ne by done. intros; right; by eapply Hall.
Qed.

Lemma cross_nodup hp sl : cross hp sl -> NoDup (slab_idx <$> hp).
Proof.
  intros Hc. apply NoDup_alt. intros i j s.
  rewrite !list_lookup_fmap, !fmap_Some.
  intros (a & Ha & ->) (b & Hb & He). apply Hc in Ha, Hb. congruence.
Qed.

(** Slots outside the heap are vacant, slots of heap items hold a value. *)
Lemma wf_value q it : wf q -> it ∈ heap q -> is_Some (value_of (slab q) (slab_idx it)).
Proof.
  intros Hwf [j Hj]%list_elem_of_lookup. apply heap_idx_value.
  rewrite (wf_cross q Hwf j) by done. eauto.
Qed.

(** A sifted array over a slab with the right content is a well-formed queue. *)
Lemma wf_sifted hp sl item i r free n :
  sifted hp sl item i r ->
  (forall s, is_Some (value_of sl s) -> s ∈ slab_idx <$> <[i := item]> hp) ->
  free_ok sl free ->
  NoDup ((fun it => epoch (key it)) <$> <[i := item]> hp) ->
  (forall it, it ∈ <[i := item]> hp -> (0 <= epoch (key it) < n)%Z) -> (0 <= n <= u64_max)%Z ->
  exists hp' sl', r = Some (hp', sl') /\ hp' ≡ₚ <[i := item]> hp /\ same_shape sl sl' /\
    wf (mkQueue hp' sl' free n).
Proof.
  intros (hp' & sl' & -> & Hh & HP & Hc & Hsh) Hocc Hfree Hnd Hep Hn.
  exists hp', sl'; split_and!; auto. split; cbn; auto.
  - intros s. destruct Hsh as (_ & <- & _). intros Hs. rewrite HP. auto.
  - by eapply free_ok_same_shape.
  - by rewrite HP.
  - intros it. rewrite HP. auto.
Qed.

Definition entries hp sl : list (Item K * option V) :=
  (fun it => (it, value_of sl (slab_idx it))) <$> hp.
Definition entries_of q : list (Item K * option V) := entries (heap q) (slab q).

Lemma entries_ext hp hp' sl sl' :
  hp ≡ₚ hp' -> (forall it, it ∈ hp -> value_of sl (slab_idx it) = value_of sl' (slab_idx it)) ->
  entries hp sl ≡ₚ entries hp' sl'.
Proof.
  intros HP Hv. unfold entries. rewrite <- HP.
  apply reflexive_eq, list_fmap_ext. intros i it Hi. rewrite Hv; [done|].
  by eapply list_elem_of_lookup_2.
Qed.

Lemma ipq_new_wf : wf (@new K V).
Proof.
  split; cbn.
  - apply heap_ok_nil.
  - intros j it Hj; by rewrite lookup_nil in Hj.
  - unfold value_of; cbn. by intros s [].
  - exists []; split_and!; [done|constructor|]. intros j nx Hj; by rewrite lookup_nil in Hj.
  - constructor.
  - by intros ? ?%elem_of_nil.
  - by cbv.
Qed.

Lemma wf_idx_value q s : wf q -> s ∈ slab_idx <$> heap q <-> is_Some (value_of (slab q) s).
Proof.
  intros Hwf; split; [|by apply wf_occ].
  intros (it & -> & Hin)%list_elem_of_fmap. by apply wf_value.
Qed.

(** The allocation of a slab node by [insert]. *)
Lemma alloc_ok q (v : V) :
  wf q ->
  exists idx free sl,
    match first_free_node q with
    | Some idx => n ← slab q !! idx; free ← unwrap_next_free_node n;
                  sl ← vec_set (slab q) idx (HeapNode v 0); Some (idx, free, sl)
    | None => Some (length (slab q), None, slab q ++ [HeapNode v 0])
    end = Some (idx, free, sl) /\
    value_of (slab q) idx = None /\ value_of sl idx = Some v /\
    (forall s, s <> idx -> sl !! s = slab q !! s) /\ free_ok sl free.
Proof.
  intros Hwf. destruct (wf_free q Hwf) as (fl & Hc & Hnd & Hall).
  unfold value_of. destruct fl as [|s fl]; cbn in Hc.
  - rewrite Hc. eexists _, _, _; split_and!; [done| | | |].
    + by rewrite lookup_ge_None_2.
    + rewrite lookup_app_r, Nat.sub_diag by done. done.
    + intros s Hs. destruct (decide (s < length (slab q))).
      * by rewrite lookup_app_l.
      * rewrite !lookup_ge_None_2; [done|lia|rewrite length_app; cbn; lia].
    + exists []; split_and!; [done|constructor|]. intros s nx Hs.
      apply lookup_app_Some in Hs as [Hs|[_ Hs]]; [by apply Hall in Hs|].
      apply list_lookup_singleton_Some in Hs as [_ ?]; done.
  - destruct Hc as (-> & nx & Hs & Hc). rewrite Hs; cbn [mbind option_bind unwrap_next_free_node].
    pose proof (lookup_lt_Some _ _ _ Hs). rewrite vec_set_Some by done; cbn [mbind option_bind].
    apply NoDup_cons in Hnd as [Hn Hnd].
    eexists _, _, _; split_and!; [done|by rewrite Hs|by rewrite list_lookup_insert_eq| |].
    + intros s' Hne. by rewrite list_lookup_insert_ne.
    + exists fl; split_and!; [|done|].
      * eapply free_chain_ext; [|done]. intros s' nx' Hin.
        rewrite list_lookup_insert_ne; [done|]. by intros ->.
      * intros s' nx'. destruct (decide (s' = s)) as [->|].
        { by rewrite list_lookup_insert_eq. }
        rewrite list_lookup_insert_ne by done. intros Hs'.
        apply Hall in Hs'. apply elem_of_cons in Hs' as [?|?]; done.
Qed.

(** The array after an item is appended, as a hole to be filled. *)
Lemma cross_hole_snoc q sl item it0 :
  wf q -> is_Some (value_of sl (slab_idx item)) ->
  (forall s, s ∈ slab_idx <$> heap q -> s <> slab_idx item) ->
  (forall s, s <> slab_idx item -> sl !! s = slab q !! s) ->
  cross_hole (heap q ++ [it0]) sl item (length (heap q)).
Proof.
  intros Hwf Hv Hfresh Hsl. split; [rewrite length_app; cbn; lia| | |done].
  - rewrite insert_app_r_alt, Nat.sub_diag, fmap_app by done. cbn. apply NoDup_app; split_and!.
    + eapply cross_nodup, wf_cross, Hwf.
    + intros s Hs ?%list_elem_of_singleton. by eapply Hfresh.
    + apply NoDup_singleton.
  - intros j it Hj Hl. apply lookup_app_Some in Hl as [Hl|[Hl Hl']].
    + unfold heap_idx_of. rewrite Hsl; [by apply (wf_cross q Hwf)|].
      apply Hfresh. apply list_elem_of_fmap_2. by eapply list_elem_of_lookup_2.
    + apply list_lookup_singleton_Some in Hl' as [? _]. lia.
Qed.

Lemma insert_ok q k v :
  wf q -> next_epoch q <> u64_max ->
  exists ik q', insert k v q = Some (ik, q') /\ wf q' /\
    ik_epoch ik = next_epoch q /\ next_epoch q' = (next_epoch q + 1)%Z /\
    entries_of q' ≡ₚ (mkItem (mkUKey k (next_epoch q)) (ik_slab_idx ik), Some v) :: entries_of q.
Proof.
  intros Hwf Hne. unfold insert. rewrite (proj2 (Z.eqb_neq _ _) Hne).
  destruct (alloc_ok q v Hwf) as (idx & free & sl & -> & Hidx & Hv & Hsl & Hfree).
  cbn [mbind option_bind]. set (item := mkItem (mkUKey k (next_epoch q)) idx).
  set (hp := heap q ++ [_]).
  assert (<[length (heap q) := item]> hp = heap q ++ [item]) as Hvl.
  { unfold hp. by rewrite insert_app_r_alt, Nat.sub_diag by done. }
  assert (forall s, s ∈ slab_idx <$> heap q -> s <> idx) as Hfresh.
  { intros s Hs ->. apply (wf_idx_value q _ Hwf) in Hs as []. congruence. }
  assert (forall s, s <> idx -> value_of sl s = value_of (slab q) s) as Hval.
  { intros s Hs. unfold value_of. by rewrite Hsl. }
  assert (cross_hole hp sl item (length (heap q))) as Hch by (apply cross_hole_snoc; eauto).
  destruct (wf_sifted hp sl item (length (heap q)) (sift_up item (length (heap q)) hp sl)
              free (next_epoch q + 1)) as (hp' & sl' & -> & HP & Hsh & Hwf').
  - apply ipq_sift_up_loop_ok; [lia|done|by apply hole_inv_snoc, Hwf; apply _|].
    apply fits_below_leaf. unfold hp; rewrite length_app; cbn; lia.
  - intros s Hs. rewrite Hvl, fmap_app, elem_of_app. destruct (decide (s = idx)) as [->|].
    + right; by left.
    + left. rewrite Hval in Hs by done. by apply (wf_occ q Hwf).
  - done.
  - rewrite Hvl, fmap_app. cbn. apply NoDup_app; split_and!.
    + apply Hwf.
    + intros e (it & -> & Hin)%list_elem_of_fmap ?%list_elem_of_singleton.
      apply (wf_epochs q Hwf) in Hin. lia.
    + apply NoDup_singleton.
  - intros it. rewrite Hvl, elem_of_app, list_elem_of_singleton.
    pose proof (wf_next q Hwf).
    intros [Hin| ->]; [apply (wf_epochs q Hwf) in Hin|cbn]; lia.
  - pose proof (wf_next q Hwf). lia.
  - cbn [mbind option_bind]. eexists _, _; split_and!; [done|done|done|done|].
    unfold entries_of; cbn [heap slab ik_slab_idx].
    rewrite (entries_ext hp' (item :: heap q) sl' sl).
    + cbn. rewrite Hv. f_equiv. apply entries_ext; [done|]. intros it Hin. apply Hval, Hfresh.
      by apply list_elem_of_fmap_2.
    + by rewrite HP, Hvl, Permutation_app_comm.
    + intros it _. by destruct Hsh as (_ & <- & _).
Qed.

(** *** Removal of the item at heap position [h] *)

(** The slab after the node of [it] is freed. *)
Definition freed q it : list (Node V) := <[slab_idx it := FreeNode (first_free_node q)]> (slab q).

Lemma wf_node q h it :
  wf q -> heap q !! h = Some it ->
  exists v, slab q !! slab_idx it = Some (HeapNode v h).
Proof.
  intros Hwf Hh. pose proof (wf_cross q Hwf h it Hh) as Hc. unfold heap_idx_of in Hc.
  destruct (slab q !! slab_idx it) as [[nx|v h']|]; cbn in Hc; simplify_eq; eauto.
Qed.

Lemma freed_lookup_ne q it s : s <> slab_idx it -> freed q it !! s = slab q !! s.
Proof. intros. unfold freed. by rewrite list_lookup_insert_ne. Qed.

Lemma freed_value q it h : wf q -> heap q !! h = Some it -> value_of (freed q it) (slab_idx it) = None.
Proof.
  intros Hwf Hh. destruct (wf_node _ _ _ Hwf Hh) as [v Hs]. unfold freed, value_of.
  rewrite list_lookup_insert_eq by (by eapply lookup_lt_Some). done.
Qed.

Section Remove.
Context q (Hwf : wf q) h it v (Hh : heap q !! h = Some it)
  (Hs : slab q !! slab_idx it = Some (HeapNode v h)) vl (HP : heap q ≡ₚ it :: vl).

Lemma remove_slab_ne it' : it' ∈ vl -> slab_idx it' <> slab_idx it.
Proof.
  pose proof (cross_nodup _ _ (wf_cross q Hwf)) as Hnd. rewrite HP in Hnd.
  apply NoDup_cons in Hnd as [Hnd _]. intros Hin He. apply Hnd. rewrite <- He.
  by apply list_elem_of_fmap_2.
Qed.

Lemma remove_occ s : is_Some (value_of (freed q it) s) -> s ∈ slab_idx <$> vl.
Proof.
  intros Hv. destruct (decide (s = slab_idx it)) as [->|Hne].
  { rewrite (freed_value _ _ _ Hwf Hh) in Hv. by destruct Hv. }
  unfold value_of in Hv. rewrite freed_lookup_ne in Hv by done.
  apply (wf_occ q Hwf) in Hv. rewrite HP in Hv. apply elem_of_cons in Hv as [?|?]; done.
Qed.

Lemma remove_free : free_ok (freed q it) (Some (slab_idx it)).
Proof. eapply free_ok_dealloc; [done|apply Hwf]. Qed.

Lemma remove_nodup : NoDup ((fun it => epoch (key it)) <$> vl).
Proof. pose proof (wf_nodup q Hwf) as Hnd. rewrite HP in Hnd. by apply NoDup_cons in Hnd as []. Qed.

Lemma remove_epochs it' : it' ∈ vl -> (0 <= epoch (key it') < next_epoch q)%Z.
Proof. intros. apply (wf_epochs q Hwf). rewrite HP. by right. Qed.

Lemma remove_entries : entries_of q ≡ₚ (it, Some v) :: entries vl (freed q it).
Proof.
  unfold entries_of. rewrite (entries_ext _ (it :: vl) _ (slab q)) by done.
  cbn. unfold value_of at 1. rewrite Hs; cbn. f_equiv. apply entries_ext; [done|].
  intros it' Hin. unfold value_of. rewrite freed_lookup_ne; [done|]. by apply remove_slab_ne.
Qed.
End Remove.

(** What a removal delivers. *)
Definition removed q it (v : V) (hp' : list (Item K)) (sl' : list (Node V)) : Prop :=
  let q' := mkQueue hp' sl' (Some (slab_idx it)) (next_epoch q) in
  wf q' /\ entries_of q ≡ₚ (it, Some v) :: entries_of q'.

(** The removed item is the last one: nothing is sifted. *)
Lemma remove_last q it v hp :
  wf q -> heap q = hp ++ [it] -> slab q !! slab_idx it = Some (HeapNode v (length hp)) ->
  removed q it v hp (freed q it).
Proof.
  intros Hwf Hhp Hs.
  assert (heap q !! length hp = Some it) as Hh
    by (rewrite Hhp, lookup_app_r, Nat.sub_diag; done).
  assert (heap q ≡ₚ it :: hp) as HP by (by rewrite Hhp, Permutation_app_comm).
  split; [|by eapply remove_entries]. split; cbn.
  - eapply heap_ok_app_l. rewrite <- Hhp. apply Hwf.
  - intros j it' Hj. unfold heap_idx_of. rewrite freed_lookup_ne.
    + apply (wf_cross q Hwf). rewrite Hhp. by apply lookup_app_l_Some.
    + eapply remove_slab_ne; eauto. by eapply list_elem_of_lookup_2.
  - by eapply remove_occ.
  - by eapply remove_free.
  - by eapply remove_nodup.
  - by eapply remove_epochs.
  - apply Hwf.
Qed.

(** Otherwise the last item is sifted from the vacant position. *)
Lemma remove_sifted q it v hp last_item h r :
  wf q -> heap q = hp ++ [last_item] -> hp !! h = Some it ->
  slab q !! slab_idx it = Some (HeapNode v h) ->
  (cross_hole hp (freed q it) last_item h -> sifted hp (freed q it) last_item h r) ->
  exists hp' sl', r = Some (hp', sl') /\ removed q it v hp' sl'.
Proof.
  intros Hwf Hhp Hl Hs Hr. pose proof (lookup_lt_Some _ _ _ Hl) as Hlt.
  assert (heap q !! h = Some it) as Hh by (rewrite Hhp; by apply lookup_app_l_Some).
  assert (heap q ≡ₚ it :: <[h := last_item]> hp) as HP by (rewrite Hhp; by apply swap_remove_Permutation).
  destruct (wf_sifted hp (freed q it) last_item h r (Some (slab_idx it)) (next_epoch q))
    as (hp' & sl' & -> & HP' & Hsh & Hwf').
  - apply Hr. split; [done| | |].
    + pose proof (cross_nodup _ _ (wf_cross q Hwf)) as Hnd. rewrite HP in Hnd.
      by apply NoDup_cons in Hnd as [].
    + intros j it' Hj Hl'. unfold heap_idx_of. rewrite freed_lookup_ne.
      * apply (wf_cross q Hwf). rewrite Hhp. by apply lookup_app_l_Some.
      * eapply remove_slab_ne; eauto.
        eapply (list_elem_of_lookup_2 _ j). by rewrite list_lookup_insert_ne.
    + assert (last_item ∈ <[h := last_item]> hp) as Hin
        by (eapply (list_elem_of_lookup_2 _ h); by rewrite list_lookup_insert_eq).
      unfold value_of. rewrite freed_lookup_ne by (by eapply remove_slab_ne).
      apply (wf_value q _ Hwf). rewrite HP. by right.
  - by eapply remove_occ.
  - by eapply remove_free.
  - by eapply remove_nodup.
  - by eapply remove_epochs.
  - apply Hwf.
  - exists hp', sl'; split; [done|]. split; [done|].
    rewrite (remove_entries q Hwf h it v Hs _ HP). f_equiv.
    apply entries_ext; [by symmetry|]. intros it' _. by destruct Hsh as (_ & <- & _).
Qed.

Lemma pull_ok q :
  wf q ->
  match heap q with
  | [] => pull q = Some (None, q)
  | it :: _ => exists v q', pull q = Some (Some (ukey (key it), v), q') /\ wf q' /\
      next_epoch q' = next_epoch q /\ entries_of q ≡ₚ (it, Some v) :: entries_of q'
  end.
Proof.
  intros Hwf. unfold pull. destruct (heap q) as [|it rest] eqn:Hq; [done|]. cbn [lookup list_lookup].
  assert (heap q !! 0 = Some it) as Hh by (by rewrite Hq).
  destruct (wf_node _ _ _ Hwf Hh) as [v Hs]. rewrite Hs; cbn [mbind option_bind].
  rewrite vec_set_Some by (by eapply lookup_lt_Some); cbn [mbind option_bind].
  fold (freed q it). destruct (vec_pop (it :: rest)) as [[last_item hp]|] eqn:Hp; cycle 1.
  { by apply vec_pop_None in Hp. }
  apply vec_pop_Some in Hp. rewrite <- Hq in Hp. cbn [mbind option_bind].
  destruct (decide (slab_idx last_item <> slab_idx it)) as [Hne|Heq].
  - assert (hp !! 0 = Some it) as Hl.
    { destruct hp as [|a hp]; [|rewrite Hp in Hh; by simplify_eq].
      rewrite Hp in Hh; cbn in Hh; simplify_eq. }
    destruct (remove_sifted q it v hp last_item 0 (sift_down last_item 0 hp (freed q it)))
      as (hp' & sl' & -> & Hwf' & He); auto.
    { intros Hc. apply (sift_down_loop_ok _ _ 0); [lia|done| |by intros ?].
      apply heap_ok_hole; [apply _|]. eapply heap_ok_app_l. rewrite <- Hp. apply Hwf. }
    cbn [mbind option_bind]. eexists _, _; split_and!; done.
  - assert (last_item = it /\ hp = []) as [-> ->].
    { assert (heap q !! length hp = Some last_item) as Hll
        by (rewrite Hp, lookup_app_r, Nat.sub_diag; done).
      pose proof (wf_cross q Hwf _ _ Hh) as C1. pose proof (wf_cross q Hwf _ _ Hll) as C2.
      apply dec_stable in Heq. rewrite Heq, C1 in C2. simplify_eq.
      destruct hp; [|done]. rewrite Hp in Hh; cbn in Hh; by simplify_eq. }
    destruct (remove_last q it v [] Hwf Hp Hs) as [Hwf' He].
    cbn [mbind option_bind]. eexists _, _; split_and!; done.
Qed.

(** The node designated by an insertion key, if it is still occupied by the
    insertion that issued the key. *)
Definition designates (ik : InsertKey) (it : Item K) : Prop :=
  slab_idx it = ik_slab_idx ik /\ epoch (key it) = ik_epoch ik.

(** An occupied node belongs to the item at the heap position it holds. *)
Lemma node_item q i v h :
  wf q -> slab q !! i = Some (HeapNode v h) -> exists it, heap q !! h = Some it /\ slab_idx it = i.
Proof.
  intros Hwf Hs. assert (i ∈ slab_idx <$> heap q) as Hin.
  { apply (wf_occ q Hwf). unfold value_of. rewrite Hs. by eexists. }
  apply list_elem_of_fmap in Hin as (it & -> & [j Hj]%list_elem_of_lookup).
  exists it. destruct (wf_node q j it Hwf Hj) as [v' Hv]. by simplify_eq.
Qed.

Lemma designated_node q ik it :
  wf q -> it ∈ heap q -> designates ik it ->
  exists v h, slab q !! ik_slab_idx ik = Some (HeapNode v h) /\ heap q !! h = Some it.
Proof.
  intros Hwf [j Hj]%list_elem_of_lookup [<- _]. destruct (wf_node q j it Hwf Hj) as [v Hv]. eauto.
Qed.

(** The item [last_item] fills the hole left at [h] by [it]. *)
Lemma refill_ok q it v h hp last_item :
  wf q -> heap q = hp ++ [last_item] -> hp !! h = Some it ->
  slab q !! slab_idx it = Some (HeapNode v h) ->
  exists hp' sl', (if uk_ltb (key last_item) (key it) then sift_up last_item h hp (freed q it)
                   else sift_down last_item h hp (freed q it)) = Some (hp', sl') /\
    removed q it v hp' sl'.
Proof.
  intros Hwf Hp Hl Hs. eapply remove_sifted; [done..|]. intros Hc.
  assert (heap_ok item_leb hp) as Hok by (eapply heap_ok_app_l; rewrite <- Hp; apply Hwf).
  destruct (uk_ltb (key last_item) (key it)) eqn:E.
  - apply ipq_sift_up_loop_ok; [lia|done|apply heap_ok_hole; [apply _|done]|].
    intros j z Hj Hp' Hz. apply (tp_trans (leb := item_leb)) with it.
    + by apply (kltb_le _ _ E).
    + by eapply (heap_ok_fits_below item_leb hp h).
  - apply sift_down_loop_ok; [lia|done|apply heap_ok_hole; [apply _|done]|].
    intros Hh0 y Hy. apply (tp_trans (leb := item_leb)) with it.
    + by eapply (heap_ok_fits_above item_leb hp h).
    + unfold uk_ltb, kltb in E. by apply negb_false_iff in E.
Qed.

Lemma extract_ok q ik :
  wf q ->
  (exists it v q', it ∈ heap q /\ designates ik it /\
     extract ik q = Some (Some (ukey (key it), v), q') /\ wf q' /\
     next_epoch q' = next_epoch q /\ entries_of q ≡ₚ (it, Some v) :: entries_of q') \/
  ((forall it, it ∈ heap q -> ~ designates ik it) /\ extract ik q = Some (None, q)).
Proof.
  intros Hwf. unfold extract. pose proof (fun it => designated_node q ik it Hwf) as Hd.
  destruct (slab q !! ik_slab_idx ik) as [[nx|v h]|] eqn:Hs; [right; naive_solver| |right; naive_solver].
  destruct (node_item q _ v h Hwf Hs) as (it & Hh & Hi).
  rewrite Hh; cbn [mbind option_bind]. case_decide as Hep.
  { right; split; [|done]. intros it' Hin Hdes. destruct (Hd it' Hin Hdes) as (? & ? & ? & ?).
    destruct Hdes. simplify_eq. }
  rewrite vec_set_Some by (by eapply lookup_lt_Some); cbn [mbind option_bind unwrap_heap_node].
  rewrite Hh; cbn [mbind option_bind].
  rewrite <- Hi. fold (freed q it). rewrite <- Hi in Hs. left. exists it, v.
  assert (it ∈ heap q) as Hin by (by eapply list_elem_of_lookup_2).
  assert (designates ik it) as Hdes by (split; [done|destruct (decide (epoch (key it) = ik_epoch ik)); tauto]).
  destruct (vec_pop (heap q)) as [[last_item hp]|] eqn:Hp; cycle 1.
  { apply vec_pop_None in Hp. by rewrite Hp in Hh. }
  apply vec_pop_Some in Hp. cbn [mbind option_bind]. destruct (hp !! h) as [item|] eqn:Hl.
  - assert (item = it) as ->
      by (rewrite Hp, lookup_app_l in Hh by (by eapply lookup_lt_Some); congruence).
    destruct (refill_ok q it v h hp last_item) as (hp' & sl' & -> & Hwf' & He); auto.
    cbn [mbind option_bind]. eexists; split_and!; done.
  - assert (last_item = it) as ->.
    { rewrite Hp in Hh. apply lookup_app_Some in Hh as [Hh|[_ Hh]]; [congruence|].
      by apply list_lookup_singleton_Some in Hh as [? ->]. }
    destruct (remove_last q it v hp Hwf Hp) as [Hwf' He].
    { apply lookup_ge_None in Hl as Hge. apply lookup_lt_Some in Hh as Hlt.
      rewrite Hp, length_app in Hlt. cbn in Hlt. by replace (length hp) with h by lia. }
    cbn [mbind option_bind]. eexists; split_and!; done.
Qed.

Lemma peek_ok q :
  wf q ->
  match heap q with
  | [] => peek q = Some None
  | it :: _ => exists v, peek q = Some (Some (ukey (key it), v)) /\
                         value_of (slab q) (slab_idx it) = Some v
  end.
Proof.
  intros Hwf. unfold peek. destruct (heap q) as [|it rest] eqn:Hq; [done|]. cbn [lookup list_lookup].
  destruct (wf_node q 0 it Hwf) as [v Hs]; [by rewrite Hq|].
  rewrite Hs; cbn. exists v; split; [done|]. unfold value_of. by rewrite Hs.
Qed.
End Wf.
End Ipq.
