(* ===== verification/IpqRefinement.v ===== *)
(** * The cross-indexed queue refines its abstract specification

    The specification is a list of (key, epoch, value) entries sorted by
    (key, epoch): insertion is stable, extraction by insertion number removes
    the entry of that insertion if it is still queued.  The theorems cover
    arbitrary sequences of operations, starting from an empty queue. *)

From S2P Require Import Prelude Heap StableSort PriorityQueue IndexedPriorityQueue.

Module IpqRefinement.
Import Ipq.

Section Abs.
Context {K V : Type} `{OrdKey K}.
Implicit Types (q : Queue K V) (it : Item K).

(** An entry: a unique key and a value. *)
Definition entry_of (e : Item K * option V) : option ((K * Z) * V) :=
  v ← e.2; Some (uk_pair (key e.1), v).

(** The queued entries, by increasing (key, epoch). *)
Definition abs q : list ((K * Z) * V) := ssort fst (omap entry_of (entries_of q)).

Lemma omap_entries_all hp (sl : list (Node V)) :
  (forall it, it ∈ hp -> is_Some (value_of sl (slab_idx it))) ->
  sepoch (@fst (K * Z) V) <$> omap entry_of (entries hp sl) =
  (fun it => epoch (key it)) <$> hp.
Proof.
  induction hp as [|it hp IH]; intros Hall; cbn; [done|].
  destruct (Hall it) as [v Hv]; [by left|]. rewrite Hv; cbn.
  f_equal. apply IH. intros; apply Hall; by right.
Qed.

Lemma abs_epochs q :
  wf q -> sepoch fst <$> omap entry_of (entries_of q) = (fun it => epoch (key it)) <$> heap q.
Proof. intros Hwf. apply omap_entries_all. intros; by apply wf_value. Qed.

Lemma abs_nodup q : wf q -> NoDup (sepoch fst <$> omap entry_of (entries_of q)).
Proof. intros Hwf. rewrite abs_epochs by done. apply Hwf. Qed.

Lemma abs_elem q e : e ∈ abs q <-> e ∈ omap entry_of (entries_of q).
Proof. unfold abs. by rewrite ssort_Permutation. Qed.

Lemma abs_elem_heap q e :
  e ∈ abs q -> exists it, it ∈ heap q /\ uk_pair (key it) = e.1 /\
                          value_of (slab q) (slab_idx it) = Some e.2.
Proof.
  rewrite abs_elem. intros ([it o] & Hin & He)%list_elem_of_omap.
  apply list_elem_of_fmap in Hin as (it' & ? & Hin); simplify_eq.
  cbn in He. destruct (value_of _ _) as [v|] eqn:Hv; cbn in He; simplify_eq.
  by exists it'.
Qed.

Lemma abs_insert q q' ik k v :
  wf q -> wf q' ->
  entries_of q' ≡ₚ (mkItem (mkUKey k (next_epoch q)) (ik_slab_idx ik), Some v) :: entries_of q ->
  abs q' = sinsert fst ((k, next_epoch q), v) (abs q).
Proof.
  intros Hwf Hwf' HP. apply (ssort_insert fst); [by apply abs_nodup| |].
  - rewrite HP. cbn. done.
  - intros e He. rewrite <- abs_elem in He.
    apply abs_elem_heap in He as (it & Hin & He & _). unfold sepoch. rewrite <- He. cbn.
    by apply (wf_epochs q Hwf).
Qed.

Lemma abs_remove q q' it v :
  wf q -> entries_of q ≡ₚ (it, Some v) :: entries_of q' ->
  abs q' = filter (fun e => e.1.2 <> epoch (key it)) (abs q) /\
  (uk_pair (key it), v) ∈ abs q.
Proof.
  intros Hwf HP. split.
  - apply (ssort_remove fst (uk_pair (key it), v)); [by apply abs_nodup|].
    by rewrite HP.
  - rewrite abs_elem, HP. cbn. by left.
Qed.

Lemma abs_pull q q' it v rest :
  wf q -> heap q = it :: rest -> entries_of q ≡ₚ (it, Some v) :: entries_of q' ->
  abs q = (uk_pair (key it), v) :: abs q'.
Proof.
  intros Hwf Hq HP. apply (ssort_min fst); [by apply abs_nodup|by rewrite HP|].
  intros e He. rewrite <- abs_elem in He.
  apply abs_elem_heap in He as (it' & [j Hj]%list_elem_of_lookup & He & _).
  unfold sle; rewrite <- He.
  apply (heap_root_min item_leb (heap q) it (wf_heap q Hwf)) with j; [by rewrite Hq|done].
Qed.

Lemma abs_nil q : heap q = [] -> abs q = [].
Proof. intros Hq. unfold abs, entries_of. by rewrite Hq. Qed.

Lemma abs_head q :
  wf q -> head (abs q) = match heap q with
                         | [] => None
                         | it :: _ => v ← value_of (slab q) (slab_idx it);
                                      Some (uk_pair (key it), v)
                         end.
Proof.
  intros Hwf. pose proof (pull_ok q Hwf) as Hp. destruct (heap q) as [|it rest] eqn:Hq.
  - by rewrite abs_nil.
  - destruct Hp as (v & q' & _ & _ & _ & HP). rewrite (abs_pull q q' it v rest) by done; cbn.
    assert ((it, Some v) ∈ entries_of q) as Hin by (rewrite HP; by left).
    apply list_elem_of_fmap in Hin as (it' & ? & _); simplify_eq.
    by replace (value_of (slab q) (slab_idx it')) with (Some v).
Qed.
End Abs.

(** ** The priority-queue contract *)
Section Contract.
Context {K V : Type} `{OrdKey K}.

Definition view (q : Queue K V) : list (K * V) := (fun e => (e.1.1, e.2)) <$> abs q.

Lemma view_insert (x : (K * Z) * V) (l : list ((K * Z) * V)) :
  (fun e : (K * Z) * V => (e.1.1, e.2)) <$> sinsert fst x l =
  StableQueue.insert x.1.1 x.2 ((fun e => (e.1.1, e.2)) <$> l).
Proof. induction l as [|y l IH]; cbn; [done|]. destruct (kleb _ _); cbn; by rewrite ?IH. Qed.

(** The interface's operations; a panic and an empty queue are told apart by
    [Ipq.pull] and [Ipq.peek], which are shown not to panic. *)
Definition insert_q (k : K) (v : V) (q : Queue K V) : option (Queue K V) := snd <$> insert k v q.
Definition pull_q (q : Queue K V) : option ((K * V) * Queue K V) :=
  '(o, q') ← pull q; kv ← o; Some (kv, q').
Definition peek_q (q : Queue K V) : option (K * V) := mjoin (peek q).

Lemma insert_q_panic k v q : wf q -> insert_q k v q = None <-> next_epoch q = u64_max.
Proof.
  intros Hwf. unfold insert_q. destruct (decide (next_epoch q = u64_max)) as [He|He].
  - unfold insert. rewrite (proj2 (Z.eqb_eq _ _) He). done.
  - destruct (insert_ok q k v Hwf He) as (ik & q' & -> & _). cbn. done.
Qed.

Lemma insert_q_ok k v q q' :
  wf q -> insert_q k v q = Some q' ->
  wf q' /\ view q' = StableQueue.insert k v (view q) /\ next_epoch q' = (next_epoch q + 1)%Z.
Proof.
  intros Hwf Hi. destruct (decide (next_epoch q = u64_max)) as [He|He].
  { apply insert_q_panic with (k := k) (v := v) in He; [congruence|done]. }
  unfold insert_q in Hi.
  destruct (insert_ok q k v Hwf He) as (ik & q'' & Hq & Hwf' & Hik & Hn & HP).
  rewrite Hq in Hi; cbn in Hi; simplify_eq. split_and!; [done| |done].
  unfold view. rewrite (abs_insert q q' ik k v) by done. apply (view_insert (_, _, _)).
Qed.

Lemma pull_q_ok q :
  wf q ->
  match view q with
  | [] => pull_q q = None
  | kv :: l => exists q', pull_q q = Some (kv, q') /\ wf q' /\ view q' = l /\
                          next_epoch q' = next_epoch q
  end.
Proof.
  intros Hwf. pose proof (pull_ok q Hwf) as Hp. unfold view, pull_q.
  destruct (heap q) as [|it rest] eqn:Hq.
  - rewrite abs_nil by done. cbn. by rewrite Hp.
  - destruct Hp as (v & q' & Hp & Hwf' & Hn & HP).
    rewrite (abs_pull q q' it v rest) by done. cbn. rewrite Hp; cbn. by exists q'.
Qed.

Lemma peek_q_ok q : wf q -> peek_q q = head (view q).
Proof.
  intros Hwf. unfold view, peek_q.
  assert (forall l : list ((K * Z) * V),
    head ((fun e => (e.1.1, e.2)) <$> l) = (fun e => (e.1.1, e.2)) <$> head l) as ->
    by (by intros []).
  rewrite abs_head by done.
  pose proof (peek_ok q Hwf) as Hp. destruct (heap q) as [|it rest]; [by rewrite Hp|].
  destruct Hp as (v & -> & ->). done.
Qed.

Lemma view_q_sorted q : wf q -> StronglySorted (fun p p' => kleb p.1 p'.1 = true) (view q).
Proof. intros _. by apply (ssort_fmap_sorted fst). Qed.

#[export] Instance ipq_stable_pq : StablePQ K V (Queue K V) := {|
  pq_new_ok := conj ipq_new_wf (conj eq_refl eq_refl);
  pq_insert_panic := insert_q_panic; pq_insert_ok := insert_q_ok;
  pq_pull_ok := pull_q_ok; pq_peek_ok := peek_q_ok;
  pq_sorted := view_q_sorted |}.
End Contract.

(** ** Sequences of operations *)
Section Traces.
Context {K V : Type} `{OrdKey K}.

Inductive op : Type :=
  | OpInsert (k : K) (v : V)
  | OpPull
  | OpPeek
  | OpPeekKey
  | OpExtract (n : nat).   (** the key returned by the [n]-th insertion *)

Inductive out : Type :=
  | OutUnit
  | OutKV (o : option (K * V))
  | OutKey (o : option K).

(** One operation of the implementation; the client remembers the insertion
    keys it was given. *)
Definition impl_step (o : op) (st : Queue K V * list InsertKey) :
    option (out * (Queue K V * list InsertKey)) :=
  let '(q, keys) := st in
  match o with
  | OpInsert k v => '(ik, q) ← insert k v q; Some (OutUnit, (q, keys ++ [ik]))
  | OpPull => '(r, q) ← pull q; Some (OutKV r, (q, keys))
  | OpPeek => r ← peek q; Some (OutKV r, (q, keys))
  | OpPeekKey => Some (OutKey (peek_key q), (q, keys))
  | OpExtract n => match keys !! n with
                   | Some ik => '(r, q) ← extract ik q; Some (OutKV r, (q, keys))
                   | None => Some (OutKV None, (q, keys))
                   end
  end.

Fixpoint impl_run (ops : list op) (st : Queue K V * list InsertKey) : option (list out) :=
  match ops with
  | [] => Some []
  | o :: ops => '(r, st) ← impl_step o st; rs ← impl_run ops st; Some (r :: rs)
  end.

(** The specification: a sorted list of entries and the number of insertions. *)
Definition entry_kv (e : (K * Z) * V) : K * V := (e.1.1, e.2).

Definition spec_step (o : op) (st : list ((K * Z) * V) * nat) : out * (list ((K * Z) * V) * nat) :=
  let '(l, n) := st in
  match o with
  | OpInsert k v => (OutUnit, (sinsert fst ((k, Z.of_nat n), v) l, S n))
  | OpPull => (OutKV (entry_kv <$> head l), (tail l, n))
  | OpPeek => (OutKV (entry_kv <$> head l), (l, n))
  | OpPeekKey => (OutKey ((fun e => e.1.1) <$> head l), (l, n))
  | OpExtract i =>
      (OutKV (entry_kv <$> head (filter (fun e => e.1.2 = Z.of_nat i) l)),
       (filter (fun e => e.1.2 <> Z.of_nat i) l, n))
  end.

Fixpoint spec_run (ops : list op) (st : list ((K * Z) * V) * nat) : list out :=
  match ops with
  | [] => []
  | o :: ops => let '(r, st) := spec_step o st in r :: spec_run ops st
  end.

Definition is_insert (o : op) : bool := match o with OpInsert _ _ => true | _ => false end.
Definition inserts (ops : list op) : nat := length (filter (fun o => is_insert o = true) ops).

Record rel (st : Queue K V * list InsertKey) (sp : list ((K * Z) * V) * nat) : Prop := {
  rel_wf : wf st.1;
  rel_abs : abs st.1 = sp.1;
  rel_epoch : next_epoch st.1 = Z.of_nat sp.2;
  rel_len : length st.2 = sp.2;
  rel_keys : forall n ik, st.2 !! n = Some ik ->
    ik_epoch ik = Z.of_nat n /\
    forall it, it ∈ heap st.1 -> epoch (key it) = Z.of_nat n -> slab_idx it = ik_slab_idx ik }.

Lemma heap_Permutation (q q' : Queue K V) it v :
  entries_of q' ≡ₚ (it, v) :: entries_of q -> heap q' ≡ₚ it :: heap q.
Proof.
  intros HP. apply (fmap_Permutation fst) in HP. unfold entries_of, entries in HP. cbn in HP.
  rewrite <- !list_fmap_compose in HP. unfold compose in HP; cbn in HP.
  by rewrite !list_fmap_id in HP.
Qed.

(** Removing entries keeps the remembered keys meaningful. *)
Lemma rel_remove q q' keys l n it v l' :
  rel (q, keys) (l, n) -> wf q' -> next_epoch q' = next_epoch q ->
  entries_of q ≡ₚ (it, Some v) :: entries_of q' -> abs q' = l' -> rel (q', keys) (l', n).
Proof.
  intros [Hwf Habs Hep Hlen Hk] Hwf' Hn HP Hl'. split; cbn in *; try done; [congruence|].
  intros i ik Hi. destruct (Hk i ik Hi) as [He Hs]. split; [done|]. intros it' Hin.
  apply Hs. rewrite (heap_Permutation _ _ _ _ HP). by right.
Qed.

Lemma extract_head l n e :
  NoDup (sepoch fst <$> l) -> e ∈ l -> e.1.2 = Z.of_nat n ->
  head (filter (fun e : (K * Z) * V => e.1.2 = Z.of_nat n) l) = Some e.
Proof.
  intros Hnd Hin He. induction l as [|e' l IH]; [by apply elem_of_nil in Hin|].
  apply NoDup_cons in Hnd as [Hn Hnd]. rewrite filter_cons. case_decide as Hd.
  - apply elem_of_cons in Hin as [->|Hin]; [done|]. exfalso; apply Hn.
    unfold sepoch. rewrite Hd, <- He. apply list_elem_of_fmap. by exists e.
  - apply elem_of_cons in Hin as [->|Hin]; [done|]. by apply IH.
Qed.

Definition simulated o st sp : Prop :=
  exists st', impl_step o st = Some ((spec_step o sp).1, st') /\ rel st' (spec_step o sp).2.

Lemma step_insert k v st sp :
  rel st sp -> (Z.of_nat sp.2 < u64_max)%Z -> simulated (OpInsert k v) st sp.
Proof.
  intros Hr Hb. destruct st as [q keys], sp as [l n]. destruct Hr as [Hwf Habs Hep Hlen Hk]. cbn in *.
  destruct (insert_ok q k v Hwf) as (ik & q' & Hi & Hwf' & Hik & Hn & HP); [lia|].
  unfold simulated. cbn. rewrite Hi. cbn.
  eexists; split; [done|]. split; cbn; [done| |lia|rewrite length_app; cbn; lia|].
  - rewrite (abs_insert q q' ik k v) by done. by rewrite Habs, Hep.
  - pose proof (heap_Permutation _ _ _ _ HP) as HPh.
    intros j ik' Hj. apply lookup_app_Some in Hj as [Hj|[Hge Hj]].
    + destruct (Hk j ik' Hj) as [He Hs]. split; [done|]. intros it.
      apply lookup_lt_Some in Hj. rewrite HPh, elem_of_cons. intros [->|Hin]; [cbn; lia|auto].
    + apply list_lookup_singleton_Some in Hj as [? <-]. split; [lia|]. intros it.
      rewrite HPh, elem_of_cons. intros [->|Hin]; [done|].
      apply (wf_epochs q Hwf) in Hin. lia.
Qed.

Lemma step_pull st sp : rel st sp -> simulated OpPull st sp.
Proof.
  intros Hr. destruct st as [q keys], sp as [l n]. pose proof Hr as [Hwf Habs Hep Hlen Hk]. cbn in *.
  pose proof (pull_ok q Hwf) as Hpull. unfold simulated; cbn. destruct (heap q) as [|it rest] eqn:Hq.
  - rewrite Hpull; cbn. rewrite abs_nil in Habs by done. subst l. by eexists.
  - destruct Hpull as (v & q' & -> & Hwf' & Hn & HP). cbn.
    pose proof (abs_pull q q' it v rest Hwf Hq HP) as Hp.
    rewrite <- Habs, Hp. cbn. eexists; split; [done|]. by eapply rel_remove.
Qed.

Lemma step_peeks st sp : rel st sp -> simulated OpPeek st sp /\ simulated OpPeekKey st sp.
Proof.
  intros Hr. destruct st as [q keys], sp as [l n]. pose proof Hr as [Hwf Habs _ _ _]. cbn in *.
  pose proof (peek_ok q Hwf) as Hpeek. pose proof (abs_head q Hwf) as Hhead. rewrite Habs in Hhead.
  unfold simulated, impl_step, spec_step, peek_key. cbn. rewrite Hhead.
  destruct (heap q) as [|it rest]; cbn.
  - rewrite Hpeek; cbn. split; by eexists.
  - destruct Hpeek as (v & -> & ->). cbn. split; by eexists.
Qed.

Lemma filter_epoch_absent i (l : list ((K * Z) * V)) :
  filter (fun e : (K * Z) * V => e.1.2 = Z.of_nat i) l = [] ->
  filter (fun e : (K * Z) * V => e.1.2 <> Z.of_nat i) l = l.
Proof.
  induction l as [|e l IH]; [done|]. rewrite !filter_cons.
  destruct (decide (e.1.2 = Z.of_nat i)); case_decide; try done. intros Hf. f_equal; auto.
Qed.

(** Extraction of an entry that is not in the queue. *)
Lemma simulated_absent i q keys l n :
  rel (q, keys) (l, n) -> impl_step (OpExtract i) (q, keys) = Some (OutKV None, (q, keys)) ->
  (forall it, it ∈ heap q -> epoch (key it) <> Z.of_nat i) ->
  simulated (OpExtract i) (q, keys) (l, n).
Proof.
  intros Hr Hi Hno.
  assert (filter (fun e : (K * Z) * V => e.1.2 = Z.of_nat i) l = []) as Hnil.
  { apply elem_of_nil_inv. intros e [He Hin]%list_elem_of_filter.
    change l with (l, n).1 in Hin. rewrite <- (rel_abs _ _ Hr) in Hin. apply abs_elem_heap in Hin as (it & Hin & Hu & _).
    apply (Hno it Hin). rewrite <- He, <- Hu. done. }
  unfold simulated, spec_step. rewrite Hi, Hnil, filter_epoch_absent by done. by eexists.
Qed.

Lemma step_extract i st sp : rel st sp -> simulated (OpExtract i) st sp.
Proof.
  intros Hr. destruct st as [q keys], sp as [l n]. pose proof Hr as [Hwf Habs Hep Hlen Hk]. cbn in *.
  destruct (keys !! i) as [ik|] eqn:Hi.
  - destruct (Hk i ik Hi) as [Hik Hs].
    destruct (extract_ok q ik Hwf) as [(it & v & q' & Hin & [Hsl He] & Hx & Hwf' & Hn & HP)|[Hno Hx]].
    + destruct (abs_remove q q' it v Hwf HP) as [Hf Hel].
      unfold simulated, impl_step, spec_step. rewrite Hi, Hx. cbn.
      rewrite (extract_head l i (uk_pair (key it), v)).
      * cbn. eexists; split; [done|]. eapply rel_remove; eauto. by rewrite Hf, Habs, He, Hik.
      * rewrite <- Habs. unfold abs. rewrite ssort_Permutation. by apply abs_nodup.
      * by rewrite <- Habs.
      * cbn. congruence.
    + apply simulated_absent; [done|cbn; by rewrite Hi, Hx|].
      intros it Hin He. apply (Hno it Hin). split; [by apply Hs|congruence].
  - apply simulated_absent; [done|cbn; by rewrite Hi|].
    intros it Hin. apply (wf_epochs q Hwf) in Hin. apply lookup_ge_None in Hi. lia.
Qed.

Lemma step_rel o st sp :
  rel st sp -> (Z.of_nat sp.2 + Z.of_nat (if is_insert o then 1 else 0) <= u64_max)%Z ->
  simulated o st sp.
Proof.
  intros Hr Hb. destruct o; cbn in Hb; [apply step_insert; [done|lia]|by apply step_pull|
    by apply step_peeks|by apply step_peeks|by apply step_extract].
Qed.

Lemma inserts_cons o ops : inserts (o :: ops) = (if is_insert o then 1 else 0) + inserts ops.
Proof. unfold inserts. rewrite filter_cons. destruct o; done. Qed.

Lemma spec_step_count o sp : (spec_step o sp).2.2 = sp.2 + (if is_insert o then 1 else 0).
Proof. destruct sp, o; cbn; lia. Qed.

Lemma run_rel ops st sp :
  rel st sp -> (Z.of_nat sp.2 + Z.of_nat (inserts ops) <= u64_max)%Z ->
  impl_run ops st = Some (spec_run ops sp).
Proof.
  revert st sp; induction ops as [|o ops IH]; intros st sp Hr Hb; cbn; [done|].
  rewrite inserts_cons in Hb. destruct (step_rel o st sp Hr) as (st' & -> & Hr'); [lia|].
  pose proof (spec_step_count o sp) as Hc.
  destruct (spec_step o sp) as [r sp']; cbn in *. rewrite (IH st' sp' Hr'); [done|lia].
Qed.

Lemma rel_new : rel (new, []) ([], 0).
Proof. split; cbn; [apply ipq_new_wf|done|done|done|]. intros n ik Hn. by rewrite lookup_nil in Hn. Qed.

(** C31: the indexed priority queue implements its specification: for every
    sequence of insertions, pulls, peeks and extractions (with any insertion
    key handed out so far, including keys of items that already left the
    queue) with at most [u64::MAX] insertions, no operation panics and every
    result is the one of a list sorted by key and insertion order. *)
Theorem ipq_refines_spec (ops : list op) :
  (Z.of_nat (inserts ops) <= u64_max)%Z ->
  impl_run ops (new, []) = Some (spec_run ops ([], 0)).
Proof. intros Hb. apply run_rel; [apply rel_new|]. cbn. lia. Qed.
End Traces.

(** The scenario of the unit test [indexed_priority_queue_extract_valid],
    followed by an extraction with a stale key. *)
Definition extract_ops : list (op (K := Z) (V := Z)) :=
  [OpInsert 8 1; OpInsert 1 2; OpInsert 2 3; OpInsert 9 4; OpPull; OpExtract 3; OpInsert 5 5;
   OpPeek; OpPeekKey; OpExtract 3; OpExtract 1; OpPull; OpPull; OpPull; OpPull]%Z.

Lemma ipq_refines_spec_witness :
  impl_run extract_ops (new, []) = Some (spec_run extract_ops ([], 0)) /\
  spec_run extract_ops ([], 0) =
    [OutUnit; OutUnit; OutUnit; OutUnit; OutKV (Some (1, 2)); OutKV (Some (9, 4)); OutUnit;
     OutKV (Some (2, 3)); OutKey (Some 2); OutKV None; OutKV None; OutKV (Some (2, 3));
     OutKV (Some (5, 5)); OutKV (Some (8, 1)); OutKV None]%Z.
Proof.
  split; [|vm_compute; reflexivity]. apply (ipq_refines_spec extract_ops). vm_compute. discriminate.
Defined.

(** The only panic of the queue is the exhaustion of the 64-bit insertion
    counter: in a well-formed queue pulling, peeking and extracting never panic
    and insertion panics exactly when the counter is [u64::MAX]. *)
Theorem ipq_panics_only_on_exhaustion {K V} `{OrdKey K} (q : Queue K V) k v ik :
  wf q -> (insert k v q = None <-> next_epoch q = u64_max) /\
          pull q <> None /\ peek q <> None /\ extract ik q <> None.
Proof.
  intros Hwf. split_and!.
  - pose proof (insert_q_panic k v q Hwf) as Hp. unfold insert_q in Hp.
    destruct (insert k v q); cbn in Hp; naive_solver.
  - pose proof (pull_ok q Hwf) as Hp. destruct (heap q); [by rewrite Hp|].
    by destruct Hp as (? & ? & -> & _).
  - pose proof (peek_ok q Hwf) as Hp. destruct (heap q); [by rewrite Hp|]. by destruct Hp as (? & -> & _).
  - destruct (extract_ok q ik Hwf) as [(? & ? & ? & _ & _ & -> & _)|[_ ->]]; done.
Qed.

Lemma ipq_panics_only_on_exhaustion_witness :
  insert 3%Z 4%Z (@new Z Z) <> None /\ extract (mkInsertKey 7 0) (@new Z Z) <> None.
Proof.
  destruct (ipq_panics_only_on_exhaustion (@new Z Z) 3%Z 4%Z (mkInsertKey 7 0) ipq_new_wf) as (H1 & _ & _ & H2).
  split; [|exact H2]. rewrite H1. vm_compute. discriminate.
Defined.
End IpqRefinement.
