(* ===== verification/Time.v ===== *)
(** * Simulation time, deadlines, tickers and clocks: [time.rs], [time/*.rs]

    [MonotonicTime] is re-exported from the [tai_time] crate, which is not part
    of the repository: it is an interface ([MonoTime]) with the documented
    behaviour the code relies on (a timestamp is a number of nanoseconds within
    a bounded range, ordered accordingly; adding a duration panics when the
    result is out of range).  [Nano] is an instance of the interface, used to
    evaluate the definitions.

    A [std::time::Duration] is its number of nanoseconds. *)

From S2P Require Import Prelude.
From stdpp Require Import proof_irrel.
Local Open Scope Z_scope.

Definition nanos_per_sec : Z := 1000000000.

(** [Duration::MAX]. *)
Definition duration_max : Z := u64_max * nanos_per_sec + (nanos_per_sec - 1).

Class MonoTime (T : Type) := {
  mt_ord :: OrdKey T;
  mt_nanos : T -> Z;
  mt_max : T;
  mt_add : T -> Z -> option T;                 (** [time + duration], [None]: panic *)
  mt_duration_since : T -> T -> option Z;      (** [None]: panic *)
  mt_nanos_inj : forall a b, mt_nanos a = mt_nanos b -> a = b;
  mt_leb_nanos : forall a b, kleb a b = (mt_nanos a <=? mt_nanos b);
  mt_max_spec : forall a, mt_nanos a <= mt_nanos mt_max;
  mt_add_spec : forall a d b, 0 <= d -> mt_add a d = Some b -> mt_nanos b = mt_nanos a + d;
  mt_add_total : forall a d, 0 <= d -> mt_nanos a + d <= mt_nanos mt_max -> is_Some (mt_add a d);
  mt_since_spec : forall a b, mt_nanos b <= mt_nanos a ->
    mt_duration_since a b = Some (mt_nanos a - mt_nanos b);
  mt_since_range : forall a b, mt_nanos a - mt_nanos b <= duration_max }.


Section MonoTimeFacts.
Context {T : Type} `{MonoTime T}.
Implicit Types a b : T.

Lemma mt_le a b : kleb a b = true <-> mt_nanos a <= mt_nanos b.
Proof. rewrite mt_leb_nanos; lia. Qed.

Lemma mt_lt a b : kltb a b = true <-> mt_nanos a < mt_nanos b.
Proof. rewrite kltb_spec, mt_leb_nanos; lia. Qed.

Lemma mt_le_false a b : kleb a b = false <-> mt_nanos b < mt_nanos a.
Proof. rewrite mt_leb_nanos; lia. Qed.

Lemma mt_add_later a d b : 0 < d -> mt_add a d = Some b -> kltb a b = true.
Proof. intros Hd Hb. apply mt_lt. apply mt_add_spec in Hb; lia. Qed.

(** Adding beyond the largest timestamp panics. *)
Lemma mt_add_overflow a d : 0 <= d -> mt_nanos mt_max < mt_nanos a + d -> mt_add a d = None.
Proof.
  intros Hd Ho. destruct (mt_add a d) as [b|] eqn:E; [|done].
  apply mt_add_spec in E; [|done]. pose proof (mt_max_spec b). lia.
Qed.
End MonoTimeFacts.

(** ** Deadlines *)
Module Deadline.
Section Defs.
Context {T : Type} `{MonoTime T}.

(** The two implementors of the [Deadline] trait. *)
Inductive deadline : Type :=
  | Relative (d : Z)
  | Absolute (t : T).

Definition into_time (dl : deadline) (now : T) : option T :=
  match dl with
  | Relative d => mt_add now d
  | Absolute t => Some t
  end.
End Defs.
Arguments deadline T : clear implicits.
End Deadline.

(** ** Tickers *)
Module Ticker.

Record PeriodicTicker (T : Type) : Type := mkTicker { period : Z; reference : option T }.
Arguments mkTicker {T} period reference.
Arguments period {T} _.
Arguments reference {T} _.

(** [u64::try_from(nanos / NANOS_PER_SEC).unwrap()] then [Duration::new]. *)
Definition duration_from_nanos_u128 (nanos : Z) : option Z :=
  let secs := nanos / nanos_per_sec in
  let subsec_nanos := nanos mod nanos_per_sec in
  if secs <=? u64_max then Some (secs * nanos_per_sec + subsec_nanos) else None.

Lemma duration_from_nanos_ok n :
  0 <= n <= duration_max -> duration_from_nanos_u128 n = Some n.
Proof.
  intros Hn. unfold duration_from_nanos_u128.
  pose proof (Z.div_mod n nanos_per_sec ltac:(done)) as Hd.
  assert (n / nanos_per_sec <= u64_max) as Hs.
  { assert (n / nanos_per_sec < u64_max + 1); [|lia].
    apply Z.div_lt_upper_bound; [done|]. unfold duration_max in Hn; lia. }
  destruct (Z.leb_spec (n / nanos_per_sec) u64_max); [|lia]. f_equal; lia.
Qed.

Section Defs.
Context {T : Type} `{MonoTime T}.

(** [None] is the panic on a null period. *)
Definition new (p : Z) : option (PeriodicTicker T) :=
  if p =? 0 then None else Some (mkTicker p None).

Definition anchored_at (p : Z) (r : T) : option (PeriodicTicker T) :=
  if p =? 0 then None else Some (mkTicker p (Some r)).

Definition next_tick (tk : PeriodicTicker T) (time : T) : option (T * PeriodicTicker T) :=
  let reference := default time (reference tk) in
  tick ←
    (if kleb reference time then
       elapsed ← mt_duration_since time reference;
       if elapsed <? period tk then mt_add reference (period tk)
       else
         let period_ns := period tk in
         let remainder_ns := elapsed mod period_ns in
         let time_to_next_ns := period_ns - remainder_ns in
         d ← duration_from_nanos_u128 time_to_next_ns;
         mt_add time d
     else
       let period_ns := period tk in
       gap ← mt_duration_since reference time;
       let dist_to_next_ns := gap mod period_ns in
       if dist_to_next_ns =? 0 then mt_add time (period tk)
       else
         d ← duration_from_nanos_u128 dist_to_next_ns;
         mt_add time d);
  Some (tick, mkTicker (period tk) (Some tick)).

Definition wf (tk : PeriodicTicker T) : Prop := 0 < period tk <= duration_max.

(** The lattice of ticks: times that differ from [r] by a multiple of [p]. *)
Definition on_lattice (p : Z) (r t : T) : Prop := (mt_nanos t - mt_nanos r) mod p = 0.

(** [t] is the first lattice point strictly after [time]. *)
Definition is_next_tick (p : Z) (r time t : T) : Prop :=
  on_lattice p r t /\ mt_nanos time < mt_nanos t <= mt_nanos time + p.
End Defs.

Section Facts.
Context {T : Type} `{MonoTime T}.

(** The lattice point strictly after [time], in nanoseconds. *)
Definition next_nanos (p r time : Z) : Z := time + p - (time - r) mod p.

Lemma next_nanos_spec p r time :
  0 < p -> (next_nanos p r time - r) mod p = 0 /\ time < next_nanos p r time <= time + p.
Proof.
  intros Hp. unfold next_nanos. pose proof (Z.mod_pos_bound (time - r) p Hp). split; [|lia].
  replace (time + p - (time - r) mod p - r) with ((time - r) / p * p + 1 * p).
  - by rewrite <- Z.mul_add_distr_r, Z_mod_mult.
  - pose proof (Z.div_mod (time - r) p). lia.
Qed.

Lemma next_nanos_fast p r time : 0 <= time - r < p -> next_nanos p r time = r + p.
Proof. intros. unfold next_nanos. rewrite Z.mod_small by lia. lia. Qed.

Lemma next_nanos_past p r time :
  0 < p -> next_nanos p r time =
  time + (if (r - time) mod p =? 0 then p else (r - time) mod p).
Proof.
  intros Hp. unfold next_nanos. replace (time - r) with (- (r - time)) by lia.
  destruct (Z.eqb_spec ((r - time) mod p) 0) as [E|E].
  - rewrite Z.mod_opp_l_z by lia. lia.
  - rewrite Z.mod_opp_l_nz by lia. lia.
Qed.

Lemma next_tick_nanos tk time t tk' :
  wf tk -> next_tick tk time = Some (t, tk') ->
  mt_nanos t = next_nanos (period tk) (mt_nanos (default time (reference tk))) (mt_nanos time) /\
  tk' = mkTicker (period tk) (Some t).
Proof.
  intros [Hp Hmax]. unfold next_tick. set (r := default time (reference tk)).
  destruct (kleb r time) eqn:E.
  - apply mt_le in E. rewrite mt_since_spec by done. cbn.
    destruct (Z.ltb_spec (mt_nanos time - mt_nanos r) (period tk)).
    + destruct (mt_add r (period tk)) as [x|] eqn:Ha; cbn; [|done]. intros; simplify_eq.
      split; [|done]. rewrite next_nanos_fast by lia. apply mt_add_spec in Ha; lia.
    + pose proof (Z.mod_pos_bound (mt_nanos time - mt_nanos r) (period tk) Hp).
      rewrite duration_from_nanos_ok by lia. cbn.
      destruct (mt_add time _) as [x|] eqn:Ha; cbn; [|done]. intros; simplify_eq.
      split; [|done]. apply mt_add_spec in Ha; [|lia]. unfold next_nanos. lia.
  - apply mt_le_false in E. rewrite mt_since_spec by lia. cbn.
    pose proof (Z.mod_pos_bound (mt_nanos r - mt_nanos time) (period tk) Hp).
    rewrite next_nanos_past by done.
    destruct (Z.eqb_spec ((mt_nanos r - mt_nanos time) mod period tk) 0).
    + destruct (mt_add time _) as [x|] eqn:Ha; cbn; [|done]. intros; simplify_eq.
      split; [|done]. apply mt_add_spec in Ha; lia.
    + rewrite duration_from_nanos_ok by lia. cbn.
      destruct (mt_add time _) as [x|] eqn:Ha; cbn; [|done]. intros; simplify_eq.
      split; [|done]. apply mt_add_spec in Ha; lia.
Qed.

(** The only panic is the overflow of the timestamp. *)
Lemma next_tick_total tk time :
  wf tk -> mt_nanos time + period tk <= mt_nanos mt_max -> is_Some (next_tick tk time).
Proof.
  intros [Hp Hmax] Hle. unfold next_tick. set (r := default time (reference tk)).
  destruct (kleb r time) eqn:E.
  - apply mt_le in E. rewrite mt_since_spec by done. cbn.
    destruct (Z.ltb_spec (mt_nanos time - mt_nanos r) (period tk)).
    + destruct (mt_add_total r (period tk)) as [x ->]; [lia|lia|]. cbn; eauto.
    + pose proof (Z.mod_pos_bound (mt_nanos time - mt_nanos r) (period tk) Hp).
      rewrite duration_from_nanos_ok by lia. cbn.
      match goal with |- context [mt_add time ?d] =>
        destruct (mt_add_total time d) as [x ->]; [lia|lia|cbn; eauto] end.
  - apply mt_le_false in E. rewrite mt_since_spec by lia. cbn.
    pose proof (Z.mod_pos_bound (mt_nanos r - mt_nanos time) (period tk) Hp).
    destruct (Z.eqb_spec ((mt_nanos r - mt_nanos time) mod period tk) 0).
    + destruct (mt_add_total time (period tk)) as [x ->]; [lia|lia|]. cbn; eauto.
    + rewrite duration_from_nanos_ok by lia. cbn.
      match goal with |- context [mt_add time ?d] =>
        destruct (mt_add_total time d) as [x ->]; [lia|lia|cbn; eauto] end.
Qed.
End Facts.
End Ticker.

(** ** Clocks *)
Module Clock.

Inductive SyncStatus : Type :=
  | Synchronized
  | OutOfSync (lag : Z).

Section Defs.
Context {T : Type} `{MonoTime T}.

(** [NoClock::synchronize]. *)
Definition no_clock_synchronize (deadline : T) : SyncStatus := Synchronized.

(** [tai_time::MonotonicClock]: a clock is created from a simulation time and
    a wall-clock instant and then maps instants to simulation times. *)
Context {MonotonicClock : Type} (init_from_instant : T -> Z -> MonotonicClock)
  (clock_now : MonotonicClock -> Z -> T).

(** The duration slept (if any) and the status, when the call is made at the
    wall-clock instant [instant]. *)
Definition system_clock_synchronize (clock : MonotonicClock) (instant : Z) (deadline : T) :
    option (Z * SyncStatus) :=
  let now := clock_now clock instant in
  if kleb now deadline then
    d ← mt_duration_since deadline now; Some (d, Synchronized)
  else
    lag ← mt_duration_since now deadline; Some (0, OutOfSync lag).

(** [AutoSystemClock]: the first call defines the reference. *)
Definition auto_synchronize (inner : option MonotonicClock) (instant : Z) (deadline : T) :
    option (option MonotonicClock * (Z * SyncStatus)) :=
  match inner with
  | None => Some (Some (init_from_instant deadline instant), (0, Synchronized))
  | Some clock =>
      r ← system_clock_synchronize clock instant deadline; Some (Some clock, r)
  end.
End Defs.
End Clock.

(** ** A concrete timeline *)
Module Nano.

(** The range of a TAI timestamp with an [i64] number of seconds. *)
Definition nano_min : Z := - 2 ^ 63 * nanos_per_sec.
Definition nano_max : Z := (2 ^ 63 - 1) * nanos_per_sec + (nanos_per_sec - 1).
Definition in_range (z : Z) : bool := (nano_min <=? z) && (z <=? nano_max).
Record time : Type := mkTime { ns : Z; ns_ok : in_range ns = true }.

Definition of_Z (z : Z) : option time :=
  match in_range z as b return in_range z = b -> option time with
  | true => fun Hz => Some (mkTime z Hz)
  | false => fun _ => None
  end eq_refl.

Lemma of_Z_Some z t : of_Z z = Some t -> ns t = z.
Proof.
  unfold of_Z. generalize (eq_refl (in_range z)).
  generalize (in_range z) at 2 3. intros [] E; intros; by simplify_eq.
Qed.

Lemma of_Z_range z : in_range z = true -> is_Some (of_Z z).
Proof.
  intros Hz. unfold of_Z. generalize (eq_refl (in_range z)).
  generalize (in_range z) at 2 3. intros [] E; [eauto|congruence].
Qed.

Lemma in_range_spec z : in_range z = true <-> nano_min <= z <= nano_max.
Proof. unfold in_range; lia. Qed.

Lemma range_of (t : time) : nano_min <= ns t <= nano_max.
Proof. destruct t as [z Hz]; unfold in_range in Hz; cbn; lia. Qed.

Lemma time_eq (a b : time) : ns a = ns b -> a = b.
Proof.
  destruct a as [x Hx], b as [y Hy]; cbn. intros ->. f_equal. apply proof_irrel.
Qed.

#[local] Program Instance time_ordkey : OrdKey time := {| kleb a b := ns a <=? ns b |}.
Next Obligation. intros; cbn; lia. Qed.
Next Obligation. intros *; cbn; lia. Qed.
Next Obligation. intros; cbn in *; apply time_eq; lia. Qed.

Definition max : time := mkTime nano_max eq_refl.

#[global] Program Instance mono_time : MonoTime time := {|
  mt_nanos t := ns t;
  mt_max := max;
  mt_add t d := of_Z (ns t + d);
  mt_duration_since a b := if ns b <=? ns a then Some (ns a - ns b) else None |}.
Next Obligation. intros; by apply time_eq. Qed.
Next Obligation. done. Qed.
Next Obligation. intros a; pose proof (range_of a); cbn; lia. Qed.
Next Obligation. intros a d b _ Hb; by apply of_Z_Some. Qed.
Next Obligation.
  intros a d Hd Hle. apply of_Z_range.
  assert (ns a + d <= nano_max) by exact Hle.
  pose proof (range_of a). apply in_range_spec. lia.
Qed.
Next Obligation. intros a b Hle. apply Z.leb_le in Hle. cbv beta in *. by rewrite Hle. Qed.
Next Obligation.
  intros a b. pose proof (range_of a). pose proof (range_of b).
  unfold duration_max, nano_max, nano_min, u64_max, nanos_per_sec in *. lia.
Qed.

(** Timestamps of small examples. *)
Definition at_ns (z : Z) : time := default max (of_Z z).
End Nano.

(** ** The ticks of a periodic ticker *)
Section TickerClaims.
Context {T : Type} `{MonoTime T}.

(** A periodic ticker returns the first point of its tick lattice strictly
    after the given time, whatever the position of the time with respect to
    its reference (which moves with every call), never further than one
    period away; it keeps its lattice, and it panics only if one more period
    would exceed the largest timestamp. *)
Theorem next_tick_is_next (tk : Ticker.PeriodicTicker T) (time : T) :
  Ticker.wf tk -> mt_nanos time + Ticker.period tk <= mt_nanos mt_max ->
  exists t tk', Ticker.next_tick tk time = Some (t, tk') /\ Ticker.wf tk' /\
    Ticker.is_next_tick (Ticker.period tk) (default time (Ticker.reference tk)) time t /\
    Ticker.period tk' = Ticker.period tk /\
    (forall x, Ticker.on_lattice (Ticker.period tk) (default time (Ticker.reference tk)) x <->
               Ticker.on_lattice (Ticker.period tk) (default time (Ticker.reference tk')) x).
Proof.
  intros Hwf Hmax. destruct (Ticker.next_tick_total tk time Hwf Hmax) as [[t tk'] E].
  destruct (Ticker.next_tick_nanos tk time t tk' Hwf E) as [Ht ->].
  set (r := default time (Ticker.reference tk)) in *. cbn.
  destruct (Ticker.next_nanos_spec (Ticker.period tk) (mt_nanos r) (mt_nanos time)) as [Hl Hb];
    [apply Hwf|]. rewrite <- Ht in Hl, Hb.
  exists t, (Ticker.mkTicker (Ticker.period tk) (Some t)). split_and!; try done.
  intros x. unfold Ticker.on_lattice. cbn. destruct Hwf as [Hp _]. change (id t) with t.
  split; intros Hx.
  - replace (mt_nanos x - mt_nanos t) with ((mt_nanos x - mt_nanos r) - (mt_nanos t - mt_nanos r)) by lia.
    by rewrite Zminus_mod, Hx, Hl.
  - replace (mt_nanos x - mt_nanos r) with ((mt_nanos x - mt_nanos t) + (mt_nanos t - mt_nanos r)) by lia.
    by rewrite Zplus_mod, Hx, Hl.
Qed.
End TickerClaims.

Lemma next_tick_is_next_witness :
  exists t tk', Ticker.next_tick (Ticker.mkTicker 5 (Some (Nano.at_ns 12))) (Nano.at_ns 3) = Some (t, tk') /\
    mt_nanos t = 7 /\
    Ticker.is_next_tick 5 (Nano.at_ns 12) (Nano.at_ns 3) t.
Proof.
  destruct (next_tick_is_next (Ticker.mkTicker 5 (Some (Nano.at_ns 12))) (Nano.at_ns 3))
    as (t & tk' & E & _ & Ht & _).
  - vm_compute. split; congruence.
  - vm_compute. discriminate.
  - exists t, tk'. split; [exact E|]. split; [|exact Ht].
    vm_compute in E. injection E as <- <-. reflexivity.
Defined.
