(* ===== verification/Path.v ===== *)
(** * Paths of models and endpoints: [path.rs]

    A path is a vector of segments.  The index arguments are [usize] values;
    [None] as the result of [index] is the panic of the slice access.  The
    naming convention of the documentation (no empty segment, no separator in
    a segment) is [well_named]; it is what makes the displayed form
    unambiguous. *)

From S2P Require Import Prelude.
From stdpp Require Import strings.
Local Open Scope Z_scope.

Module Path.

Definition Path : Type := list string.

Definition join (self other : Path) : Path := self ++ other.
Definition join_segment (self : Path) (segment : string) : Path := self ++ [segment].
Definition len (self : Path) : Z := Z.of_nat (length self).
Definition is_empty (self : Path) : bool := match self with [] => true | _ => false end.
Definition get (self : Path) (index : Z) : option string := self !! Z.to_nat index.
Definition index (self : Path) (i : Z) : option string :=
  if i <? len self then self !! Z.to_nat i else None.

(** [std::ops::Bound]. *)
Inductive Bound : Type :=
  | Included (i : Z)
  | Excluded (i : Z)
  | Unbounded.

Definition checked_add_1 (x : Z) : option Z := if x =? usize_max then None else Some (x + 1).

(** [slice.get(start..end)]. *)
Definition slice_get (l : Path) (start stop : Z) : option Path :=
  if (start <=? stop) && (stop <=? len l)
  then Some (take (Z.to_nat (stop - start)) (drop (Z.to_nat start) l)) else None.

Definition subpath (self : Path) (start_bound end_bound : Bound) : option Path :=
  let len := len self in
  start ← match start_bound with
          | Included start => Some start
          | Excluded start => checked_add_1 start
          | Unbounded => Some 0
          end;
  stop ← match end_bound with
         | Included stop => checked_add_1 stop
         | Excluded stop => Some stop
         | Unbounded => Some len
         end;
  if (stop <? start) || (len <? stop) then None else slice_get self start stop.

Definition separator : Ascii.ascii := Ascii.ascii_of_nat 47.

(** [Display]: a separator before every segment but the first. *)
Fixpoint fmt_from (i : nat) (segments : Path) : string :=
  match segments with
  | [] => ""
  | s :: rest => (if (0 <? i)%nat then String separator EmptyString else "") +:+ s
                 +:+ fmt_from (S i) rest
  end.
Definition to_string (self : Path) : string := fmt_from 0 self.

(** *** The range semantics *)

Definition bound_ok (b : Bound) : Prop :=
  match b with Included i | Excluded i => 0 <= i <= usize_max | Unbounded => True end.
Definition start_of (b : Bound) : Z :=
  match b with Included i => i | Excluded i => i + 1 | Unbounded => 0 end.
Definition end_of (l : Path) (b : Bound) : Z :=
  match b with Included i => i + 1 | Excluded i => i | Unbounded => len l end.

(** *** Display *)

Fixpoint no_sep (s : string) : bool :=
  match s with
  | EmptyString => true
  | String c s' => negb (bool_decide (c = separator)) && no_sep s'
  end.
Definition segment_ok (s : string) : bool := negb (bool_decide (s = EmptyString)) && no_sep s.
Definition well_named (p : Path) : bool := forallb segment_ok p.

(** Reading a displayed path back. *)
Fixpoint split_on (s : string) : string * list string :=
  match s with
  | EmptyString => (EmptyString, [])
  | String c s' =>
      let '(w, ws) := split_on s' in
      if bool_decide (c = separator) then (EmptyString, w :: ws) else (String c w, ws)
  end.
Definition parse (s : string) : Path :=
  match s with
  | EmptyString => []
  | _ => let '(w, ws) := split_on s in w :: ws
  end.

Lemma split_on_segment s t :
  no_sep s = true ->
  split_on (s +:+ t) = (s +:+ (split_on t).1, (split_on t).2).
Proof.
  induction s as [|c s IH].
  { change ("" +:+ t) with t. change ("" +:+ (split_on t).1) with (split_on t).1.
    by destruct (split_on t). }
  cbn [no_sep]. rewrite andb_true_iff. intros [Hc Hs].
  apply negb_true_iff, bool_decide_eq_false in Hc.
  change (String c s +:+ t) with (String c (s +:+ t)). cbn [split_on].
  by rewrite (IH Hs), bool_decide_false by done.
Qed.

Lemma string_app_nil_r s : s +:+ "" = s.
Proof.
  induction s as [|c s IH]; [done|].
  change (String c s +:+ "") with (String c (s +:+ "")). by rewrite IH.
Qed.

Lemma well_named_cons s p : well_named (s :: p) = true <-> segment_ok s = true /\ well_named p = true.
Proof. cbn. apply andb_true_iff. Qed.

Lemma segment_ok_spec s : segment_ok s = true <-> s <> EmptyString /\ no_sep s = true.
Proof. unfold segment_ok. rewrite andb_true_iff, negb_true_iff, bool_decide_eq_false. done. Qed.

Lemma split_on_fmt i p :
  (0 < i)%nat -> well_named p = true -> split_on (fmt_from i p) = (EmptyString, p).
Proof.
  revert i; induction p as [|s p IH]; intros i Hi; [done|].
  intros [[_ Hs]%segment_ok_spec Hp]%well_named_cons. cbn [fmt_from].
  destruct (Nat.ltb_spec 0 i); [|lia].
  change (split_on (String separator (s +:+ fmt_from (S i) p)) = (EmptyString, s :: p)).
  cbn [split_on]. rewrite split_on_segment by done. rewrite IH by (done || lia).
  rewrite bool_decide_true by done. cbn. by rewrite string_app_nil_r.
Qed.

Lemma parse_to_string p : well_named p = true -> parse (to_string p) = p.
Proof.
  destruct p as [|s p]; [done|]. intros [[Hne Hs]%segment_ok_spec Hp]%well_named_cons.
  change (to_string (s :: p)) with (s +:+ fmt_from 1 p).
  assert (parse (s +:+ fmt_from 1 p)
          = (split_on (s +:+ fmt_from 1 p)).1 :: (split_on (s +:+ fmt_from 1 p)).2) as ->.
  { unfold parse. destruct (s +:+ fmt_from 1 p) eqn:E; [destruct s; done|].
    by destruct (split_on _). }
  rewrite split_on_segment by done. rewrite split_on_fmt by (done || lia).
  cbn. by rewrite string_app_nil_r.
Qed.

(** Paths that follow the naming convention of the documentation display
    injectively: two different well-named paths never print the same. *)
Theorem to_string_inj p q :
  well_named p = true -> well_named q = true -> to_string p = to_string q -> p = q.
Proof.
  intros Hp Hq E. rewrite <- (parse_to_string p Hp), <- (parse_to_string q Hq). by rewrite E.
Qed.

Example to_string_inj_witness :
  to_string ["root"; "foo"] = "root/foo"%string /\ ["root"; "foo"]%string = ["root"; "foo"]%string.
Proof. split; [reflexivity|]. apply to_string_inj; reflexivity. Defined.

(** Without the convention the printed form is ambiguous. *)
Example to_string_ambiguous :
  to_string ["a/b"] = to_string ["a"; "b"] /\ to_string [""] = to_string [].
Proof. split; reflexivity. Qed.

Lemma checked_add_1_spec i :
  0 <= i <= usize_max ->
  checked_add_1 i = if i + 1 <=? usize_max then Some (i + 1) else None.
Proof.
  intros Hi. unfold checked_add_1.
  destruct (Z.eqb_spec i usize_max), (Z.leb_spec (i + 1) usize_max); try done; lia.
Qed.

Lemma slice_get_ok l a b :
  0 <= a <= b -> b <= len l ->
  slice_get l a b = Some (take (Z.to_nat (b - a)) (drop (Z.to_nat a) l)).
Proof.
  intros Ha Hb. unfold slice_get.
  destruct (Z.leb_spec a b), (Z.leb_spec b (len l)); try lia. done.
Qed.

(** [subpath] with any kind of range bounds returns exactly the segments
    whose indices lie in the range, and [None] exactly when the range is
    inverted or exceeds the path; overflowing bounds never wrap around. *)
Theorem subpath_spec (p : Path) (b1 b2 : Bound) :
  len p <= usize_max -> bound_ok b1 -> bound_ok b2 ->
  subpath p b1 b2 =
    if (start_of b1 <=? end_of p b2) && (end_of p b2 <=? len p)
    then Some (take (Z.to_nat (end_of p b2 - start_of b1)) (drop (Z.to_nat (start_of b1)) p))
    else None.
Proof.
  intros Hlen H1 H2. assert (0 <= len p) by (unfold len; lia).
  assert (0 <= start_of b1) by (destruct b1; cbn in *; lia).
  assert (forall (a b : Z), 0 <= a ->
    (if (b <? a) || (len p <? b) then None else slice_get p a b) =
    (if (a <=? b) && (b <=? len p)
     then Some (take (Z.to_nat (b - a)) (drop (Z.to_nat a) p)) else None)) as Hgo.
  { intros a b Ha. destruct (Z.ltb_spec b a), (Z.leb_spec a b); try lia; [done|].
    destruct (Z.ltb_spec (len p) b), (Z.leb_spec b (len p)); try lia; [done|]. cbn.
    by apply slice_get_ok. }
  unfold subpath.
  destruct b1 as [i|i|]; destruct b2 as [j|j|]; cbn [start_of end_of bound_ok] in *;
    rewrite ?checked_add_1_spec by done;
    repeat match goal with |- context [?x + 1 <=? usize_max] =>
      destruct (Z.leb_spec (x + 1) usize_max) end; cbn; rewrite ?Hgo by lia; try done;
    symmetry; match goal with |- (if ?c then _ else _) = None => destruct c eqn:E end; try done; lia.
Qed.

Example subpath_spec_witness :
  subpath ["root"; "foo"; "bar"]%string (Included 1) (Excluded 3) = Some ["foo"; "bar"]%string.
Proof. rewrite subpath_spec; [reflexivity|by cbv|by cbv|by cbv]. Defined.

(** [join] is associative and [subpath] recovers its two halves. *)
Lemma subpath_join (p q : Path) :
  len (join p q) <= usize_max ->
  subpath (join p q) Unbounded (Excluded (len p)) = Some p /\
  subpath (join p q) (Included (len p)) Unbounded = Some q.
Proof.
  intros Hlen. unfold len, join in *. rewrite length_app in Hlen. unfold subpath, slice_get, len.
  rewrite length_app. cbn.
  repeat match goal with
    | |- context [?a <? ?b] => destruct (Z.ltb_spec a b); try lia
    | |- context [?a <=? ?b] => destruct (Z.leb_spec a b); try lia end. cbn.
  rewrite !Nat2Z.id, drop_app_length. split; f_equal.
  - replace (Z.to_nat (Z.of_nat (length p) - 0)) with (length p) by lia. apply take_app_length.
  - apply take_ge. lia.
Qed.

(** ** Iterators

    [PathIter] and [PathIntoIter], which borrow or own the segments that are left. *)
Definition PathIter : Type := list string.
Definition iter (self : Path) : PathIter := self.
Definition next (it : PathIter) : option string * PathIter :=
  match it with [] => (None, []) | s :: it => (Some s, it) end.
Definition next_back (it : PathIter) : option string * PathIter := (last it, take (pred (length it)) it).
Definition size_hint (it : PathIter) : nat * option nat := (length it, Some (length it)).

(** ** Conversions: from one segment, or from a sequence of them *)
Definition from_str (s : string) : Path := [s].
Fixpoint from_iter (n : nat) (it : PathIter) : Path :=
  match n with
  | O => []
  | S n => match next it with (Some s, it) => s :: from_iter n it | (None, _) => [] end
  end.

Definition from_segments (segments : list string) : Path := from_iter (length segments) segments.

(** The calls of [next] ([true]) and [next_back] ([false]) on an iterator, and what they return. *)
Fixpoint consume (ends : list bool) (it : PathIter) : list (option string) * PathIter :=
  match ends with
  | [] => ([], it)
  | b :: ends =>
      let '(o, it) := if b : bool then next it else next_back it in
      let '(l, it) := consume ends it in (o :: l, it)
  end.

(** The segments that were returned by one of both ends. *)
Definition side (b : bool) (ends : list bool) (l : list (option string)) : list string :=
  omap (fun p => if Bool.eqb p.1 b then p.2 else None) (zip ends l).

Lemma next_back_snoc it s : next_back (it ++ [s]) = (Some s, it).
Proof. unfold next_back. rewrite last_snoc, length_app. cbn. rewrite Nat.add_1_r. cbn. by rewrite take_app_length. Qed.

Lemma side_cons b b' ends o l :
  side b (b' :: ends) (o :: l) = (if Bool.eqb b' b then option_list o else []) ++ side b ends l.
Proof. unfold side. cbn. destruct (Bool.eqb b' b), o; done. Qed.

(** From both ends, and in whatever order, the segments are returned once each, and the iterator is fused. *)
Lemma consume_spec ends : forall it,
  side true ends (consume ends it).1 ++ (consume ends it).2 ++ reverse (side false ends (consume ends it).1) = it.
Proof.
  induction ends as [|b ends IH]; intros it; cbn [consume]; [by rewrite app_nil_r|].
  assert (let '(o, it') := if b then next it else next_back it in
    it = (if b then option_list o else []) ++ it' ++ (if b then [] else option_list o)) as Hit.
  { destruct b; [by destruct it; cbn; rewrite ?app_nil_r|]. destruct it as [|s it _] using rev_ind; [done|]. by rewrite next_back_snoc. }
  destruct (if b then next it else next_back it) as [o it']. specialize (IH it'). destruct (consume ends it') as [l it2]. cbn [fst snd] in *.
  rewrite !side_cons, Hit, <- IH. destruct b; cbn [Bool.eqb].
  - by rewrite app_nil_r, <- app_assoc.
  - rewrite reverse_app, <- !app_assoc. by destruct o.
Qed.

Lemma from_segments_iter p : from_segments (iter p) = p.
Proof. unfold from_segments. induction p as [|s p IH]; [done|]. cbn. by f_equal. Qed.

End Path.
