(* ===== verification/ChannelQueue.v ===== *)
(** * The mailbox queue: [channel/queue.rs]

    The bounded multi-producer single-consumer queue on which every mailbox is
    built.  [push] and [pop] are broken down into their accesses to the shared
    memory: each constructor of [Producer] and [Consumer] is a point of the
    code between two such accesses, and [step] performs one access of one
    thread.  The consumer drops a borrowed message before it calls [pop] again,
    as [Receiver::recv] of [channel.rs] does.  A schedule is a list of actions; a spurious failure of
    [compare_exchange_weak] is part of the schedule.  Memory is sequentially
    consistent; [None] is a panic (including the debug assertions and the
    overflow checks of a debug build). *)

From S2P Require Import Prelude.
From stdpp Require Import base list option numbers.
Local Open Scope Z_scope.

Module ChannelQueue.

(** ** Data *)
Inductive MessageBox (M : Type) : Type :=
  | Populated (m : M)
  | Vacated
  | NoBox.
#[global] Arguments Populated {_} _.
#[global] Arguments Vacated {_}.
#[global] Arguments NoBox {_}.

Record Slot (M : Type) : Type := mkSlot { stamp : Z; message : MessageBox M }.
#[global] Arguments mkSlot {_} _ _.
#[global] Arguments stamp {_} _.
#[global] Arguments message {_} _.

Record Queue (M : Type) : Type := mkQueue {
  enqueue_pos : Z;
  dequeue_pos : Z;
  buffer : list (Slot M);
  right_mask : Z;
  closed_channel_mask : Z }.
#[global] Arguments mkQueue {_} _ _ _ _ _.
#[global] Arguments enqueue_pos {_} _.
#[global] Arguments dequeue_pos {_} _.
#[global] Arguments buffer {_} _.
#[global] Arguments right_mask {_} _.
#[global] Arguments closed_channel_mask {_} _.

Inductive PushError : Type := PushFull | PushClosed.
Inductive PopError : Type := PopEmpty | PopClosed.

(** The program points of [push], with its local variables. *)
Inductive Producer (M : Type) : Type :=
  | PIdle (last : option (Result unit PushError))
  | PLoad (msg : M)                              (** load of [enqueue_pos] *)
  | PCheck (msg : M) (pos : Z)                   (** head of the loop: closed?, load of the stamp *)
  | PCas (msg : M) (pos stamp : Z)               (** [compare_exchange_weak] *)
  | PWrite (msg : M) (pos stamp : Z)             (** write of the message *)
  | PStore (pos stamp : Z).                      (** store of the stamp *)
#[global] Arguments PIdle {_} _.
#[global] Arguments PLoad {_} _.
#[global] Arguments PCheck {_} _ _.
#[global] Arguments PCas {_} _ _ _.
#[global] Arguments PWrite {_} _ _ _.
#[global] Arguments PStore {_} _ _.

Record MessageBorrow : Type := mkBorrow { b_index : nat; b_stamp : Z }.

(** The program points of [pop] and of the drop of the borrowed message. *)
Inductive Consumer : Type :=
  | CIdle (last : option (Result unit PopError)) (** loads of [dequeue_pos] and of the stamp *)
  | CAdvance (pos stamp : Z)                     (** store of [dequeue_pos] *)
  | CTake (index : nat) (stamp : Z)              (** extraction of the message *)
  | CClosed (pos : Z)                            (** load of [enqueue_pos] *)
  | CBorrow (b : MessageBorrow)                  (** drop: the box goes back to the slot *)
  | CRelease (b : MessageBorrow).                (** drop: store of the stamp *)

(** The queue with its threads.  [pushed] and [popped] record the messages for
    which a position was reserved and the messages taken out, in order. *)
Record Sys (M : Type) : Type := mkSys {
  queue : Queue M;
  producers : list (Producer M);
  consumer : Consumer;
  pushed : list M;
  popped : list M }.
#[global] Arguments mkSys {_} _ _ _ _ _.
#[global] Arguments queue {_} _.
#[global] Arguments producers {_} _.
#[global] Arguments consumer {_} _.
#[global] Arguments pushed {_} _.
#[global] Arguments popped {_} _.

Inductive Action (M : Type) : Type :=
  | AStart (i : nat) (m : M)          (** thread [i] calls [push] *)
  | AProducer (i : nat) (spurious : bool)
  | AConsumer
  | AClose.
#[global] Arguments AStart {_} _ _.
#[global] Arguments AProducer {_} _ _.
#[global] Arguments AConsumer {_}.
#[global] Arguments AClose {_}.

Section Defs.
Context {M : Type}.
Implicit Types (q : Queue M) (s : Sys M).

Definition next_power_of_two (n : Z) : Z := 2 ^ Z.log2_up n.

Definition new (capacity : Z) : option (Queue M) :=
  if (1 <=? capacity) && (capacity <=? 2 ^ 63) then
    let buffer := (fun i => mkSlot i Vacated) <$> seqZ 0 capacity in
    let closed_channel_mask := next_power_of_two capacity in
    let right_mask := wrap64 (wrap64 (Z.shiftl closed_channel_mask 1) - 1) in
    Some (mkQueue 0 0 buffer right_mask closed_channel_mask)
  else None.

(** [!mask] on 64 bits. *)
Definition not64 (x : Z) : Z := u64_max - x.

Definition checked_add (x y : Z) : option Z := if x + y <=? u64_max then Some (x + y) else None.

Definition next_queue_pos q (queue_pos : Z) : option Z :=
  if Z.land queue_pos (closed_channel_mask q) =? 0 then
    new_queue_pos ← checked_add queue_pos 1;
    let new_index := Z.land new_queue_pos (right_mask q) in
    if new_index <? Z.of_nat (length (buffer q)) then Some new_queue_pos
    else
      sequence_increment ← checked_add (right_mask q) 1;
      let sequence_count := Z.land queue_pos (not64 (right_mask q)) in
      Some (wrap64 (sequence_count + sequence_increment))
  else None.

Definition slot_index q (pos : Z) : nat := Z.to_nat (Z.land pos (right_mask q)).

Definition set_enqueue q (p : Z) : Queue M :=
  mkQueue p (dequeue_pos q) (buffer q) (right_mask q) (closed_channel_mask q).
Definition set_dequeue q (p : Z) : Queue M :=
  mkQueue (enqueue_pos q) p (buffer q) (right_mask q) (closed_channel_mask q).
Definition set_slot q (i : nat) (sl : Slot M) : Queue M :=
  mkQueue (enqueue_pos q) (dequeue_pos q) (<[i := sl]> (buffer q)) (right_mask q) (closed_channel_mask q).

Definition is_closed q : bool := negb (Z.land (enqueue_pos q) (closed_channel_mask q) =? 0).

Definition close q : Queue M := set_enqueue q (Z.lor (enqueue_pos q) (closed_channel_mask q)).

Definition len q : option Z :=
  let enqueue_idx := Z.land (enqueue_pos q) (Z.shiftr (right_mask q) 1) in
  let dequeue_idx := Z.land (dequeue_pos q) (Z.shiftr (right_mask q) 1) in
  let carry_flag := negb (Z.land (enqueue_pos q) (not64 (right_mask q)) =?
                          Z.land (dequeue_pos q) (not64 (right_mask q))) in
  x ← checked_add enqueue_idx (Z.b2z carry_flag * Z.of_nat (length (buffer q)));
  if dequeue_idx <=? x then Some (x - dequeue_idx) else None.

(** One access of [push]; the queue, the next program point and the message for
    which a position was reserved, if any. *)
Definition push_step (spurious : bool) q (p : Producer M) :
    option (Queue M * Producer M * option M) :=
  match p with
  | PIdle r => Some (q, PIdle r, None)
  | PLoad msg => Some (q, PCheck msg (enqueue_pos q), None)
  | PCheck msg pos =>
      if Z.land pos (closed_channel_mask q) =? 0 then
        slot ← buffer q !! slot_index q pos;
        match as_isize (wrap64 (stamp slot - pos)) ?= 0 with
        | Eq => Some (q, PCas msg pos (stamp slot), None)
        | Lt => Some (q, PIdle (Some (Err PushFull)), None)
        | Gt => Some (q, PLoad msg, None)
        end
      else Some (q, PIdle (Some (Err PushClosed)), None)
  | PCas msg pos st =>
      next ← next_queue_pos q pos;
      if negb spurious && (enqueue_pos q =? pos)
      then Some (set_enqueue q next, PWrite msg pos st, Some msg)
      else Some (q, PCheck msg (enqueue_pos q), None)
  | PWrite msg pos st =>
      slot ← buffer q !! slot_index q pos;
      match message slot with
      | Vacated => Some (set_slot q (slot_index q pos) (mkSlot (stamp slot) (Populated msg)),
                         PStore pos st, None)
      | _ => None
      end
  | PStore pos st =>
      slot ← buffer q !! slot_index q pos;
      Some (set_slot q (slot_index q pos) (mkSlot (wrap64 (st + 1)) (message slot)),
            PIdle (Some (Ok tt)), None)
  end.

(** [MessageBorrow::drop], in two accesses. *)
Definition drop_vacate q (b : MessageBorrow) : option (Queue M) :=
  slot ← buffer q !! b_index b;
  Some (set_slot q (b_index b) (mkSlot (stamp slot) Vacated)).

Definition drop_release q (b : MessageBorrow) : option (Queue M) :=
  slot ← buffer q !! b_index b;
  Some (set_slot q (b_index b) (mkSlot (b_stamp b) (message slot))).

(** One access of the consumer; the message taken out of the queue, if any. *)
Definition pop_step q (c : Consumer) : option (Queue M * Consumer * option M) :=
  match c with
  | CIdle _ =>
      let pos := dequeue_pos q in
      slot ← buffer q !! slot_index q pos;
      if decide (pos = stamp slot) then Some (q, CClosed pos, None)
      else
        expected ← checked_add pos 1;
        if decide (stamp slot = expected) then Some (q, CAdvance pos (stamp slot), None) else None
  | CAdvance pos st =>
      next ← next_queue_pos q pos;
      Some (set_dequeue q next, CTake (slot_index q pos) st, None)
  | CTake index st =>
      slot ← buffer q !! index;
      match message slot with
      | Populated msg =>
          Some (set_slot q index (mkSlot (stamp slot) NoBox),
                CBorrow (mkBorrow index (wrap64 (st + right_mask q))), Some msg)
      | _ => None
      end
  | CClosed pos =>
      if enqueue_pos q =? Z.lor pos (closed_channel_mask q)
      then Some (q, CIdle (Some (Err PopClosed)), None)
      else Some (q, CIdle (Some (Err PopEmpty)), None)
  | CBorrow b => q ← drop_vacate q b; Some (q, CRelease b, None)
  | CRelease b => q ← drop_release q b; Some (q, CIdle (Some (Ok tt)), None)
  end.

(** The whole system; an action of a thread that cannot perform it does
    nothing. *)
Definition step (a : Action M) s : option (Sys M) :=
  match a with
  | AStart i m =>
      match producers s !! i with
      | Some (PIdle _) =>
          Some (mkSys (queue s) (<[i := PLoad m]> (producers s)) (consumer s) (pushed s) (popped s))
      | _ => Some s
      end
  | AProducer i spurious =>
      match producers s !! i with
      | Some p =>
          '(q, p, m) ← push_step spurious (queue s) p;
          Some (mkSys q (<[i := p]> (producers s)) (consumer s) (pushed s ++ option_list m) (popped s))
      | None => Some s
      end
  | AConsumer =>
      '(q, c, m) ← pop_step (queue s) (consumer s);
      Some (mkSys q (producers s) c (pushed s) (popped s ++ option_list m))
  | AClose =>
      Some (mkSys (close (queue s)) (producers s) (consumer s) (pushed s) (popped s))
  end.

Fixpoint run (sched : list (Action M)) s : option (Sys M) :=
  match sched with
  | [] => Some s
  | a :: sched => s ← step a s; run sched s
  end.

(** A new queue used by [n] producers. *)
Definition init (capacity : Z) (n : nat) : option (Sys M) :=
  q ← new capacity; Some (mkSys q (replicate n (PIdle None)) (CIdle None) [] []).
End Defs.

(** Two producers compete for the two slots of a queue. *)
Example smoke :
  match init (M := Z) 2 2 with
  | Some s =>
      let push i m := AStart i m :: replicate 5 (AProducer i false) in
      match run (push 0%nat 10 ++ push 1%nat 11 ++ replicate 5 AConsumer ++ push 1%nat 14
                 ++ push 0%nat 12 ++ AClose :: push 1%nat 15 ++ replicate 12 AConsumer) s with
      | Some s => (pushed s, popped s, producers s, consumer s)
      | None => ([], [], [], CIdle None)
      end
  | None => ([], [], [], CIdle None)
  end = ([10; 11; 14], [10; 11; 14], [PIdle (Some (Err PushFull)); PIdle (Some (Err PushClosed))],
         CIdle (Some (Err PopClosed))).
Proof. vm_compute. reflexivity. Qed.

(** A borrow that is leaked (never dropped) does more than keep producers from
    reusing its slot: the next [pop] that comes around to it panics. *)
Example leaked_borrow_panics :
  match init (M := Z) 1 1 with
  | Some s =>
      match run (AStart 0%nat 10 :: replicate 5 (AProducer 0%nat false) ++ replicate 3 AConsumer) s with
      | Some s => (popped s, pop_step (queue s) (CIdle None))
      | None => ([], None)
      end
  | None => ([], None)
  end = ([10], None).
Proof. vm_compute. reflexivity. Qed.
End ChannelQueue.
