(* ===== verification/ChannelQueueFacts.v ===== *)
(** * The mailbox queue: invariant

    A ticket is the number of a message in the order in which positions are
    reserved.  [enc] is the position (sequence count and buffer index) of a
    ticket; the arithmetic of the positions is that of the tickets as long as
    no more than [max_tickets] (at least [2 ^ 61]) messages are pushed, after which the
    sequence counts wrap around.  The invariant gives the state of every slot
    in terms of the number [e] of reserved tickets, the number [d] of consumed
    ones and the program points of the threads. *)

From S2P Require Import Prelude ChannelQueue.
From stdpp Require Import base list option numbers.
Local Open Scope Z_scope.

Module ChannelQueueFacts.
Import ChannelQueue.

(** ** Positions *)

(** The capacity of a queue and the exponent of its closed-channel mask. *)
Class Geometry (cap : nat) (k : Z) : Prop := {
  g_cap : (0 < cap)%nat;
  g_k : 0 <= k <= 62;
  g_pow : Z.of_nat cap <= 2 ^ k }.

Lemma mod_cap cap p : (0 < cap)%nat -> (p `mod` cap < cap)%nat.
Proof. intros. apply Nat.mod_upper_bound. lia. Qed.

Lemma same_slot cap p q :
  (0 < cap)%nat -> (p `mod` cap)%nat = (q `mod` cap)%nat -> (p < q)%nat -> (p + cap <= q)%nat.
Proof.
  intros Hcap Hm Hlt. pose proof (Nat.div_mod_eq p cap). pose proof (Nat.div_mod_eq q cap).
  assert (p `div` cap < q `div` cap)%nat by nia. nia.
Qed.

Section Positions.
Context (cap : nat) (k : Z) `{G : !Geometry cap k}.

Definition enc (p : nat) : Z :=
  Z.of_nat (p `div` cap)%nat * 2 ^ (k + 1) + Z.of_nat (p `mod` cap)%nat.

Definition max_tickets : Z := Z.of_nat cap * 2 ^ (62 - k).

Let Hcap := g_cap (cap := cap) (k := k).
Let Hk := g_k (cap := cap) (k := k).
Let Hpow := g_pow (cap := cap) (k := k).

Lemma pow_succ_k : 2 ^ (k + 1) = 2 * 2 ^ k.
Proof. clear Hcap Hpow. rewrite Z.pow_add_r by lia. change (2 ^ 1) with 2. lia. Qed.

Lemma pow_k_pos : 1 <= 2 ^ k.
Proof. pose proof (Z.pow_pos_nonneg 2 k). lia. Qed.

Lemma enc_S p : enc p + 1 <= enc (S p).
Proof.
  unfold enc. pose proof pow_succ_k. pose proof pow_k_pos. pose proof (mod_cap cap p Hcap).
  pose proof (Nat.div_mod_eq p cap). pose proof (Nat.div_mod_eq (S p) cap). pose proof (mod_cap cap (S p) Hcap).
  set (a := (p `div` cap)%nat) in *. set (b := (S p `div` cap)%nat) in *.
  set (x := (p `mod` cap)%nat) in *. set (y := (S p `mod` cap)%nat) in *.
  assert ((b = a /\ y = S x) \/ (b = S a /\ y = 0 /\ S x = cap))%nat as [[-> ->]|(-> & -> & _)]
    by (destruct (decide (S x = cap));
        [right; destruct (Nat.div_mod_unique cap b (S a) y 0)|left; apply (Nat.div_mod_unique cap)]; lia).
  - lia.
  - nia.
Qed.

Lemma enc_mono p q : (p < q)%nat -> enc p + 1 <= enc q.
Proof.
  induction 1 as [|q _ IH]; [apply enc_S|]. pose proof (enc_S q). lia.
Qed.

Lemma enc_le p q : (p <= q)%nat -> enc p <= enc q.
Proof. intros [H| ->]%Nat.le_lteq; [apply enc_mono in H|]; lia. Qed.

Lemma enc_inj p q : enc p = enc q -> p = q.
Proof.
  intros He. destruct (Nat.lt_trichotomy p q) as [H|[H|H]]; [|done|]; apply enc_mono in H; lia.
Qed.

(** The next ticket of the same slot. *)
Lemma enc_lap p : enc (p + cap) = enc p + 2 ^ (k + 1).
Proof.
  unfold enc. replace (p + cap)%nat with (p + 1 * cap)%nat by lia.
  rewrite Nat.div_add, Nat.Div0.mod_add by lia. lia.
Qed.

Lemma enc_0 : enc 0 = 0.
Proof. unfold enc. by rewrite Nat.Div0.div_0_l, Nat.Div0.mod_0_l. Qed.

Lemma enc_same_slot p q :
  (p `mod` cap = q `mod` cap)%nat -> (p < q)%nat -> enc p + 2 <= enc q.
Proof.
  intros Hm Hlt. pose proof (enc_le _ _ (same_slot cap p q Hcap Hm Hlt)) as He. rewrite enc_lap in He.
  pose proof pow_k_pos. pose proof pow_succ_k. lia.
Qed.

(** Positions of tickets below the bound, with the closed flag, fit in 63
    bits. *)
Lemma enc_bound p : Z.of_nat p < max_tickets -> 0 <= enc p /\ enc p + 2 ^ k < 2 ^ 63.
Proof.
  unfold max_tickets, enc. intros Hp. pose proof pow_k_pos. pose proof pow_succ_k.
  pose proof (mod_cap cap p Hcap). pose proof (Nat.div_mod_eq p cap) as Hd.
  assert (2 ^ (62 - k) * 2 ^ (k + 1) = 2 ^ 63) as Hp63
    by (rewrite <- Z.pow_add_r by lia; f_equal; lia).
  assert (Z.of_nat (p `div` cap)%nat < 2 ^ (62 - k)) by nia.
  split; [nia|]. nia.
Qed.

Lemma enc_index p : Z.land (enc p) (2 ^ (k + 1) - 1) = Z.of_nat (p `mod` cap)%nat.
Proof.
  pose proof (mod_cap cap p Hcap). pose proof pow_succ_k. pose proof pow_k_pos.
  replace (2 ^ (k + 1) - 1) with (Z.ones (k + 1)) by (rewrite Z.ones_equiv; lia).
  rewrite Z.land_ones by lia. unfold enc. rewrite Z.add_comm, Z.mod_add by lia.
  apply Z.mod_small. lia.
Qed.

Lemma enc_flag p : Z.testbit (enc p) k = false.
Proof.
  pose proof (mod_cap cap p Hcap). pose proof pow_succ_k. pose proof pow_k_pos.
  destruct (Z.testbit (enc p) k) eqn:E; [|done]. apply Z.testbit_true in E; [|lia]. exfalso.
  unfold enc in E. rewrite pow_succ_k, Z.mul_assoc, Z.add_comm, Z.div_add in E by lia.
  rewrite Z.div_small in E by lia. rewrite Z.add_0_l, Z.mul_comm in E.
  rewrite Z.mul_comm, Z.mod_mul in E by lia. lia.
Qed.

Lemma land_pow2 x : Z.land x (2 ^ k) = if Z.testbit x k then 2 ^ k else 0.
Proof.
  apply Z.bits_inj'. intros n Hn. rewrite Z.land_spec, Z.pow2_bits_eqb by lia.
  destruct (Z.eqb_spec k n) as [->|Hne].
  - rewrite andb_true_r. destruct (Z.testbit x n); [by rewrite Z.pow2_bits_true|by rewrite Z.bits_0].
  - rewrite andb_false_r. destruct (Z.testbit x k); [by rewrite Z.pow2_bits_false|by rewrite Z.bits_0].
Qed.

Lemma enc_open p : Z.land (enc p) (2 ^ k) = 0.
Proof. by rewrite land_pow2, enc_flag. Qed.

Lemma enc_lor p : Z.lor (enc p) (2 ^ k) = enc p + 2 ^ k.
Proof. rewrite <- Z.lxor_lor, Z.add_nocarry_lxor by apply enc_open. done. Qed.

Lemma enc_lor_idem p : Z.lor (enc p + 2 ^ k) (2 ^ k) = enc p + 2 ^ k.
Proof. rewrite <- enc_lor, <- Z.lor_assoc, Z.lor_diag. done. Qed.

Lemma enc_closed p : Z.land (enc p + 2 ^ k) (2 ^ k) = 2 ^ k.
Proof.
  rewrite <- enc_lor, Z.land_lor_distr_l, Z.land_diag, enc_open. done.
Qed.

(** The position with the flag of a ticket is no position of a ticket. *)
Lemma enc_flag_ne p q : enc p + 2 ^ k <> enc q.
Proof.
  intros He. pose proof (enc_closed p) as Hc. rewrite He, enc_open in Hc. pose proof pow_k_pos. lia.
Qed.

(** Sequence count of a position. *)
Lemma land_not_right x : 0 <= x < 2 ^ 64 ->
  Z.land x (not64 (2 ^ (k + 1) - 1)) = x / 2 ^ (k + 1) * 2 ^ (k + 1).
Proof.
  intros Hx. pose proof pow_k_pos. pose proof pow_succ_k.
  assert (not64 (2 ^ (k + 1) - 1) = Z.ldiff (Z.ones 64) (Z.ones (k + 1))) as ->.
  { rewrite <- Z.sub_nocarry_ldiff.
    - unfold not64, u64_max. rewrite !Z.ones_equiv. lia.
    - apply Z.bits_inj'. intros n Hn. rewrite Z.ldiff_spec, Z.bits_0, !Z.testbit_ones_nonneg by lia.
      destruct (Z.ltb_spec n (k + 1)), (Z.ltb_spec n 64); try done; lia. }
  rewrite <- Z.shiftr_div_pow2, <- Z.shiftl_mul_pow2 by lia.
  rewrite <- Z.ldiff_ones_r by lia.
  apply Z.bits_inj'. intros n Hn. rewrite Z.land_spec, !Z.ldiff_spec.
  destruct (Z.lt_ge_cases n 64).
  - rewrite (Z.testbit_ones_nonneg 64 n) by lia. destruct (Z.ltb_spec n 64); [|lia]. done.
  - assert (Z.testbit x n = false) as ->; [|done].
    destruct (Z.eq_dec x 0) as [->|]; [apply Z.bits_0|].
    apply Z.bits_above_log2; [lia|]. apply Z.log2_lt_pow2; [lia|].
    pose proof (Z.pow_le_mono_r 2 64 n). lia.
Qed.
End Positions.

(** ** The invariant *)
Section Invariant.
Context {M : Type} (cap : nat) (k : Z) `{G : !Geometry cap k}.
Let Hcap := g_cap (cap := cap) (k := k).
Let Hk := g_k (cap := cap) (k := k).
Let Hpow := g_pow (cap := cap) (k := k).
Notation enc := (enc cap k).
Notation max_tickets := (max_tickets cap k).
Implicit Types (q : Queue M) (s : Sys M) (log : list M) (p d r : nat).

Record shape q : Prop := {
  sh_right : right_mask q = 2 ^ (k + 1) - 1;
  sh_closed : closed_channel_mask q = 2 ^ k;
  sh_length : length (buffer q) = cap }.

(** The slot of a ticket. *)
Definition at_ticket q p : option (Slot M) := buffer q !! (p `mod` cap)%nat.

(** A slot whose ticket is reserved is waiting for its message, holds it, or
    holds it and is stamped; a slot whose ticket is not is vacant. *)
Definition slot_ok log p (sl : Slot M) : Prop :=
  match log !! p with
  | Some m => sl = mkSlot (enc p) Vacated \/ sl = mkSlot (enc p) (Populated m) \/
              sl = mkSlot (enc p + 1) (Populated m)
  | None => sl = mkSlot (enc p) Vacated
  end.

(** [d]: consumed tickets; [r]: tickets whose slot was released. *)
Definition released (c : Consumer) d : nat :=
  match c with CTake _ _ | CBorrow _ | CRelease _ => pred d | _ => d end.
Definition taken (c : Consumer) d : nat :=
  match c with CTake _ _ => pred d | _ => d end.

Definition holding (pr : Producer M) : option Z :=
  match pr with PWrite _ pos _ | PStore pos _ => Some pos | _ => None end.

Definition prod_ok q log d r (pr : Producer M) : Prop :=
  match pr with
  | PIdle _ | PLoad _ => True
  | PCheck _ pos => (exists p, (p <= length log)%nat /\ pos = enc p) \/
      (pos = enc (length log) + 2 ^ k /\ enqueue_pos q = pos)
  | PCas _ pos st => exists p, (p <= length log)%nat /\ (p < r + cap)%nat /\ pos = enc p /\ st = enc p
  | PWrite msg pos st => exists p, (d <= p)%nat /\ pos = enc p /\ st = enc p /\
      log !! p = Some msg /\ at_ticket q p = Some (mkSlot (enc p) Vacated)
  | PStore pos st => exists p m, (d <= p)%nat /\ pos = enc p /\ st = enc p /\
      log !! p = Some m /\ at_ticket q p = Some (mkSlot (enc p) (Populated m))
  end.

Definition cons_ok q log d (c : Consumer) : Prop :=
  match c with
  | CIdle _ => True
  | CClosed pos => pos = enc d
  | CAdvance pos st => pos = enc d /\ st = enc d + 1 /\
      exists m, log !! d = Some m /\ at_ticket q d = Some (mkSlot (enc d + 1) (Populated m))
  | CTake index st => exists d0 m, d = S d0 /\ index = (d0 `mod` cap)%nat /\ st = enc d0 + 1 /\
      log !! d0 = Some m /\ at_ticket q d0 = Some (mkSlot (enc d0 + 1) (Populated m))
  | CBorrow b => exists d0, d = S d0 /\ b = mkBorrow (d0 `mod` cap)%nat (enc (d0 + cap)) /\
      at_ticket q d0 = Some (mkSlot (enc d0 + 1) NoBox)
  | CRelease b => exists d0, d = S d0 /\ b = mkBorrow (d0 `mod` cap)%nat (enc (d0 + cap)) /\
      at_ticket q d0 = Some (mkSlot (enc d0 + 1) Vacated)
  end.

Record inv d s : Prop := {
  iv_shape : shape (queue s);
  iv_enqueue : enqueue_pos (queue s) = enc (length (pushed s)) \/
               enqueue_pos (queue s) = enc (length (pushed s)) + 2 ^ k;
  iv_dequeue : dequeue_pos (queue s) = enc d;
  iv_order : (d <= length (pushed s) <= released (consumer s) d + cap)%nat;
  iv_popped : popped s = take (taken (consumer s) d) (pushed s);
  iv_slots : forall p, (d <= p < released (consumer s) d + cap)%nat ->
    exists sl, at_ticket (queue s) p = Some sl /\ slot_ok (pushed s) p sl;
  iv_prods : forall i pr, producers s !! i = Some pr ->
    prod_ok (queue s) (pushed s) d (released (consumer s) d) pr;
  iv_excl : forall i j pi pj pos, producers s !! i = Some pi -> producers s !! j = Some pj ->
    holding pi = Some pos -> holding pj = Some pos -> i = j;
  iv_holder : forall p sl, (d <= p < length (pushed s))%nat -> at_ticket (queue s) p = Some sl ->
    stamp sl = enc p -> exists i pr, producers s !! i = Some pr /\ holding pr = Some (enc p);
  iv_cons : cons_ok (queue s) (pushed s) d (consumer s) }.

Lemma set_slot_shape q i sl : shape q -> shape (set_slot q i sl).
Proof. intros []. split; [done|done|]. cbn. by rewrite length_insert. Qed.

Lemma at_set_eq q p sl : shape q -> at_ticket (set_slot q (p `mod` cap)%nat sl) p = Some sl.
Proof.
  intros [_ _ Hl]. unfold at_ticket. cbn. apply list_lookup_insert_eq. rewrite Hl. by apply mod_cap.
Qed.

(** Tickets of a window of [cap] tickets have different slots. *)
Lemma at_set_ne q p p' sl :
  p <> p' -> (p < p' + cap)%nat -> (p' < p + cap)%nat ->
  at_ticket (set_slot q (p `mod` cap)%nat sl) p' = at_ticket q p'.
Proof.
  intros Hne H1 H2. unfold at_ticket. cbn. apply list_lookup_insert_ne. intros Hm.
  destruct (Nat.lt_trichotomy p p') as [H|[H|H]]; [|done|];
    [pose proof (same_slot cap p p' Hcap Hm H)|pose proof (same_slot cap p' p Hcap (eq_sym Hm) H)]; lia.
Qed.

Lemma slot_index_enc q p : shape q -> slot_index q (enc p) = (p `mod` cap)%nat.
Proof. intros []. unfold slot_index. rewrite sh_right0, enc_index by done. lia. Qed.

Lemma next_pos q p :
  shape q -> Z.of_nat p < max_tickets -> next_queue_pos q (enc p) = Some (enc (S p)).
Proof.
  intros [Hr Hc Hl] Hp. destruct (enc_bound cap k p Hp) as [H0 H1].
  pose proof (pow_k_pos cap k). pose proof (pow_succ_k cap k). pose proof (mod_cap cap p Hcap).
  assert (2 ^ k <= 2 ^ 62) by (apply Z.pow_le_mono_r; lia).
  unfold next_queue_pos, checked_add, u64_max. rewrite Hc, enc_open, Hr, Hl by done. cbn [Z.eqb].
  destruct (Z.leb_spec (enc p + 1) (2 ^ 64 - 1)); [|lia]. cbn.
  assert (Z.land (enc p + 1) (2 ^ (k + 1) - 1) = Z.of_nat (p `mod` cap)%nat + 1) as ->.
  { replace (2 ^ (k + 1) - 1) with (Z.ones (k + 1)) by (rewrite Z.ones_equiv; lia).
    rewrite Z.land_ones by lia. unfold ChannelQueueFacts.enc.
    rewrite <- Z.add_assoc, Z.add_comm, Z.mod_add by lia. apply Z.mod_small. lia. }
  destruct (Z.ltb_spec (Z.of_nat (p `mod` cap)%nat + 1) (Z.of_nat cap)).
  - f_equal. unfold ChannelQueueFacts.enc. pose proof (Nat.div_mod_eq p cap).
    destruct (Nat.div_mod_unique cap (S p `div` cap) (p `div` cap) (S p `mod` cap) (S (p `mod` cap)))
      as [-> ->]; [by apply mod_cap|lia|pose proof (Nat.div_mod_eq (S p) cap); lia|lia].
  - destruct (Z.leb_spec (2 ^ (k + 1) - 1 + 1) (2 ^ 64 - 1)); [|lia]. cbn.
    rewrite (land_not_right cap k) by lia. f_equal. unfold ChannelQueueFacts.enc at 1.
    rewrite Z.div_add_l, Z.div_small by lia. pose proof (Nat.div_mod_eq p cap).
    destruct (Nat.div_mod_unique cap (S p `div` cap) (S (p `div` cap)) (S p `mod` cap) 0)
      as [E1 E2]; [by apply mod_cap|lia|pose proof (Nat.div_mod_eq (S p) cap); lia|].
    unfold ChannelQueueFacts.enc in *. rewrite E1, E2. unfold wrap64, wrap.
    rewrite Z.mod_small; nia.
Qed.

(** *** Producers *)
Lemma prod_ok_frame q q' log log' d d' r r' pr :
  (r <= r')%nat -> (length log <= length log')%nat ->
  (enqueue_pos q = enc (length log) + 2 ^ k ->
   enqueue_pos q' = enqueue_pos q /\ length log' = length log) ->
  (forall pos p m, holding pr = Some pos -> pos = enc p -> (d <= p)%nat -> log !! p = Some m ->
    (d' <= p)%nat /\ log' !! p = Some m /\ at_ticket q' p = at_ticket q p) ->
  prod_ok q log d r pr -> prod_ok q' log' d' r' pr.
Proof.
  intros Hr Hl Hc Hh. destruct pr as [| |msg pos|msg pos st|msg pos st|pos st]; cbn; [done|done|..].
  - intros [(p & ? & ?)|[-> He]]; [left; exists p; split; [lia|done]|right].
    destruct (Hc He) as [-> ->]. done.
  - intros (p & ? & ? & ?). exists p. split_and!; [lia|lia|tauto..].
  - intros (p & Hd & -> & -> & Hm & Hs). destruct (Hh _ p msg eq_refl eq_refl Hd Hm) as (? & ? & <-) in Hs |- *.
    by exists p.
  - intros (p & m & Hd & -> & -> & Hm & Hs).
    destruct (Hh _ p m eq_refl eq_refl Hd Hm) as (? & ? & <-) in Hs |- *. by exists p, m.
Qed.

(** A held ticket is reserved, not consumed, and not stamped. *)
Lemma holding_ticket q log d r pr pos :
  prod_ok q log d r pr -> holding pr = Some pos ->
  exists p m sl, pos = enc p /\ (d <= p < length log)%nat /\ log !! p = Some m /\
    at_ticket q p = Some sl /\ stamp sl = enc p.
Proof.
  destruct pr as [| | | |msg pos' st|pos' st]; cbn; try done.
  - intros (p & ? & -> & -> & Hm & Hs) [= <-]. eexists p, _, _. split_and!; try done. by eapply lookup_lt_Some.
  - intros (p & m & ? & -> & -> & Hm & Hs) [= <-]. eexists p, _, _. split_and!; try done.
    by eapply lookup_lt_Some.
Qed.

Lemma cons_ok_frame q q' log log' d c :
  (forall d0, d = S d0 -> released c d = d0 -> at_ticket q' d0 = at_ticket q d0) ->
  (forall pos st, c = CAdvance pos st -> at_ticket q' d = at_ticket q d) ->
  (forall p m, log !! p = Some m -> log' !! p = Some m) ->
  cons_ok q log d c -> cons_ok q' log' d c.
Proof.
  intros H1 H2 Hlog. destruct c as [|pos st|idx st|pos|b|b]; cbn; [done|..|done| |].
  - intros (-> & -> & m & Hm & Hat). split_and!; [done|done|]. exists m. split; [by apply Hlog|].
    by erewrite H2.
  - intros (d0 & m & -> & -> & -> & Hm & Hat). exists d0, m. split_and!; try done; [by apply Hlog|by rewrite H1].
  - intros (d0 & -> & -> & Hat). exists d0. split_and!; try done. by rewrite H1.
  - intros (d0 & -> & -> & Hat). exists d0. split_and!; try done. by rewrite H1.
Qed.

Lemma released_le c d : (released c d <= d <= S (released c d))%nat.
Proof. destruct c; cbn; lia. Qed.

(** Moving one producer keeps tickets exclusively held. *)
Lemma excl_insert (l : list (Producer M)) i pr pr' :
  (forall i j pi pj pos, l !! i = Some pi -> l !! j = Some pj ->
    holding pi = Some pos -> holding pj = Some pos -> i = j) ->
  l !! i = Some pr ->
  (forall pos, holding pr' = Some pos -> holding pr = Some pos \/
     forall j pj, l !! j = Some pj -> holding pj <> Some pos) ->
  forall a b pa pb pos, <[i := pr']> l !! a = Some pa -> <[i := pr']> l !! b = Some pb ->
    holding pa = Some pos -> holding pb = Some pos -> a = b.
Proof.
  intros Hex Hi Hh a b pa pb pos Ha Hb Hpa Hpb.
  apply list_lookup_insert_Some in Ha, Hb.
  destruct Ha as [(<- & <- & _)|[Hia Ha]], Hb as [(<- & <- & _)|[Hib Hb]]; [done|..].
  - destruct (Hh pos Hpa) as [Hp|Hn]; [by eapply Hex|by destruct (Hn b pb)].
  - destruct (Hh pos Hpb) as [Hp|Hn]; [by eapply Hex|by destruct (Hn a pa)].
  - by eapply Hex.
Qed.

(** A producer moves to another program point without changing the queue, or
    writes to the slot it holds. *)
Lemma inv_producer d s i pr pr' q' :
  inv d s -> producers s !! i = Some pr ->
  (q' = queue s \/
   exists p sl, holding pr = Some (enc p) /\ q' = set_slot (queue s) (p `mod` cap)%nat sl /\
     slot_ok (pushed s) p sl) ->
  prod_ok q' (pushed s) d (released (consumer s) d) pr' ->
  holding pr' = None \/ holding pr' = holding pr ->
  (forall p sl, holding pr = Some (enc p) -> holding pr' = None -> at_ticket q' p = Some sl ->
    stamp sl <> enc p) ->
  inv d (mkSys q' (<[i := pr']> (producers s)) (consumer s) (pushed s) (popped s)).
Proof.
  intros Hinv Hi Hq Hpr' Hh Hdone. pose proof Hinv as [Hsh He Hd Ho Hpop Hsl Hp Hex Hho Hc].
  pose proof (released_le (consumer s) d) as Hrd. set (r := released (consumer s) d) in *.
  assert (forall p, holding pr = Some (enc p) -> (d <= p < r + cap)%nat /\
      forall sl, at_ticket (queue s) p = Some sl -> stamp sl = enc p) as Hheld.
  { intros p Hhp. destruct (holding_ticket _ _ _ _ _ _ (Hp _ _ Hi) Hhp)
      as (p' & m & sl & <-%enc_inj & ? & _ & Hat & Hst); [|done]. split; [lia|].
    intros sl' Hat'. by simplify_eq. }
  assert (forall p, (r <= p < r + cap)%nat -> holding pr <> Some (enc p) ->
    at_ticket q' p = at_ticket (queue s) p) as Hframe.
  { intros p' Hp' Hne. destruct Hq as [->|(p & sl & Hhp & -> & _)]; [done|].
    destruct (Hheld p Hhp). apply at_set_ne; [congruence|lia|lia]. }
  assert (shape q' /\ enqueue_pos q' = enqueue_pos (queue s) /\ dequeue_pos q' = dequeue_pos (queue s))
    as (? & He' & Hd')
    by (destruct Hq as [->|(p & sl & _ & -> & _)]; [done|by split; [apply set_slot_shape|]]).
  split; cbn [queue producers consumer pushed popped]; rewrite ?He', ?Hd'; try done; fold r.
  - intros p' Hp'. destruct Hq as [->|(p & sl & Hhp & -> & Hok)]; [by apply Hsl|].
    destruct (decide (p = p')) as [->|Hne]; [exists sl; split; [by apply at_set_eq|done]|].
    destruct (Hheld p Hhp). rewrite at_set_ne by lia. by apply Hsl.
  - intros j prj Hj. apply list_lookup_insert_Some in Hj as [(<- & <- & _)|[Hne Hj]]; [done|].
    eapply (prod_ok_frame (queue s)); [done|done|done| |by eapply Hp].
    intros pos p m Hpos -> Hdp Hm. apply lookup_lt_Some in Hm as Hlt. split_and!; [done|done|].
    apply Hframe; [lia|]. intros Hpr. by eapply Hne, Hex.
  - eapply excl_insert; [done|done|]. intros pos Hpos. left. destruct Hh; congruence.
  - intros p' sl' Hp' Hat Hst. destruct (decide (holding pr = Some (enc p'))) as [Hhp|Hhp].
    + destruct Hh as [Hh|Hh]; [by destruct (Hdone p' sl')|].
      exists i, pr'. rewrite list_lookup_insert_eq by (by eapply lookup_lt_Some). by rewrite Hh.
    + rewrite Hframe in Hat by (done || lia). destruct (Hho p' sl' Hp' Hat Hst) as (j & prj & Hj & Hpj).
      exists j, prj. split; [|done]. rewrite list_lookup_insert_ne; [done|]. intros <-. congruence.
  - eapply (cons_ok_frame (queue s)); [..|done|done].
    + intros d0 -> Hr0. apply Hframe; [lia|]. intros [Hle _]%Hheld. lia.
    + intros pos st Hcs. rewrite Hcs in Hc. destruct Hc as (_ & _ & m & Hm & Hat).
      apply lookup_lt_Some in Hm. apply Hframe; [lia|]. intros [_ Hst]%Hheld. apply Hst in Hat. cbn in Hat. lia.
Qed.

(** The slot of any position holds some ticket of the current window, whose
    position is its stamp, or just before its stamp. *)
Lemma window_ticket r p : exists t, (r <= t < r + cap)%nat /\ (t `mod` cap = p `mod` cap)%nat.
Proof.
  exists (Z.to_nat (Z.of_nat r + (Z.of_nat p - Z.of_nat r) mod Z.of_nat cap)).
  pose proof (Z.mod_pos_bound (Z.of_nat p - Z.of_nat r) (Z.of_nat cap)).
  split; [lia|]. apply Nat2Z.inj. rewrite !Nat2Z.inj_mod, Z2Nat.id by lia.
  rewrite Z.add_mod_idemp_r by lia. f_equal. lia.
Qed.

Lemma slot_stamp d s t :
  inv d s -> (released (consumer s) d <= t < released (consumer s) d + cap)%nat ->
  exists sl, at_ticket (queue s) t = Some sl /\
    (stamp sl = enc t \/ stamp sl = enc t + 1 /\ (t < length (pushed s))%nat).
Proof.
  intros Hinv Ht. destruct (decide (d <= t)%nat) as [Hd|Hd].
  - destruct (iv_slots _ _ Hinv t) as (sl & Hat & Hok); [lia|]. exists sl. split; [done|].
    unfold slot_ok in Hok. destruct (pushed s !! t) eqn:Hl; [|left; by subst].
    apply lookup_lt_Some in Hl. destruct Hok as [->|[->| ->]]; cbn; auto.
  - pose proof (iv_cons _ _ Hinv) as Hc. pose proof (iv_order _ _ Hinv) as Ho. revert Hc Ht Ho.
    destruct (consumer s); cbn; try lia.
    + intros (d0 & m & -> & _ & _ & _ & Hat) ? ?. assert (t = d0) as -> by lia. eexists; split; [done|right].
      split; [done|lia].
    + intros (d0 & -> & _ & Hat) ? ?. assert (t = d0) as -> by lia. eexists; split; [done|right].
      split; [done|lia].
    + intros (d0 & -> & _ & Hat) ? ?. assert (t = d0) as -> by lia. eexists; split; [done|right].
      split; [done|lia].
Qed.

(** The comparison of [push] between the stamp of a slot and a position. *)
Lemma stamp_compare d s p :
  inv d s -> (p <= length (pushed s))%nat -> Z.of_nat (length (pushed s)) + Z.of_nat cap < max_tickets ->
  exists sl, buffer (queue s) !! slot_index (queue s) (enc p) = Some sl /\
    match as_isize (wrap64 (stamp sl - enc p)) ?= 0 with
    | Eq => stamp sl = enc p /\ (p < released (consumer s) d + cap)%nat
    | Lt => length (pushed s) = (released (consumer s) d + cap)%nat
    | Gt => True
    end.
Proof.
  intros Hinv Hp Hmax. pose proof (iv_order _ _ Hinv) as Ho.
  pose proof (released_le (consumer s) d) as Hrd.
  rewrite slot_index_enc by apply Hinv.
  destruct (window_ticket (released (consumer s) d) p) as (t & Ht & Hm).
  destruct (slot_stamp d s t Hinv Ht) as (sl & Hat & Hst). unfold at_ticket in Hat. rewrite Hm in Hat.
  exists sl. split; [done|].
  destruct (enc_bound cap k p) as [Hp0 Hp1]; [lia|]. destruct (enc_bound cap k t) as [Ht0 Ht1]; [lia|].
  pose proof (pow_k_pos cap k). rewrite as_isize_wrap by lia.
  destruct (Nat.lt_trichotomy t p) as [Hlt|[->|Hgt]].
  - pose proof (same_slot cap t p Hcap Hm Hlt). pose proof (enc_same_slot cap k t p Hm Hlt).
    destruct (Z.compare_spec (stamp sl - enc p) 0); [lia|lia|done].
  - destruct (Z.compare_spec (stamp sl - enc p) 0); [split; lia|lia|done].
  - pose proof (enc_same_slot cap k p t (eq_sym Hm) Hgt).
    destruct (Z.compare_spec (stamp sl - enc p) 0); [lia|lia|done].
Qed.

Lemma slot_ok_snoc log m p sl : slot_ok log p sl -> slot_ok (log ++ [m]) p sl.
Proof.
  unfold slot_ok. destruct (log !! p) eqn:E.
  - by rewrite (lookup_app_l_Some _ _ _ _ E).
  - intros ->. destruct ((log ++ [m]) !! p); auto.
Qed.

Lemma lookup_snoc_Some (log : list M) m p x : log !! p = Some x -> (log ++ [m]) !! p = Some x.
Proof. apply lookup_app_l_Some. Qed.

(** A successful [compare_exchange] reserves the next ticket. *)
Lemma inv_reserve d s i msg :
  inv d s -> (length (pushed s) < released (consumer s) d + cap)%nat ->
  producers s !! i = Some (PCas msg (enc (length (pushed s))) (enc (length (pushed s)))) ->
  enqueue_pos (queue s) = enc (length (pushed s)) ->
  inv d (mkSys (set_enqueue (queue s) (enc (S (length (pushed s)))))
    (<[i := PWrite msg (enc (length (pushed s))) (enc (length (pushed s)))]> (producers s))
    (consumer s) (pushed s ++ [msg]) (popped s)).
Proof.
  intros Hinv Hlt Hi Hen. pose proof Hinv as [Hsh He Hd Ho Hpop Hsl Hp Hex Hho Hc].
  set (e := length (pushed s)) in *.
  assert (length (pushed s ++ [msg]) = S e) as Hlen by (rewrite length_app; cbn; lia).
  destruct (Hsl e) as (sl & Hat & Hok); [lia|].
  unfold slot_ok in Hok. rewrite lookup_ge_None_2 in Hok by lia. subst sl.
  split; cbn [queue producers consumer pushed popped]; rewrite ?Hlen; try done.
  - by split; apply Hsh.
  - left; done.
  - lia.
  - rewrite Hpop, take_app_le; [done|]. fold e. destruct (consumer s); cbn; lia.
  - intros p Hp'. destruct (Hsl p Hp') as (sl & ? & ?). exists sl. split; [done|by apply slot_ok_snoc].
  - intros j prj Hj. apply list_lookup_insert_Some in Hj as [(<- & <- & _)|[Hne Hj]].
    + exists e. split_and!; try done; [lia|]. by rewrite list_lookup_middle.
    + eapply (prod_ok_frame (queue s) _ (pushed s) _ d _ (released (consumer s) d)); [done|rewrite Hlen; lia| | |by eapply Hp].
      * fold e. intros Hcl. rewrite Hen in Hcl. pose proof (pow_k_pos cap k). lia.
      * intros pos p m Hpos -> Hdp Hm. split_and!; [done|by apply lookup_snoc_Some|done].
  - eapply excl_insert; [done|done|]. intros pos [= <-]. right. intros j pj Hj Hpj.
    destruct (holding_ticket _ _ _ _ _ _ (Hp _ _ Hj) Hpj) as (p & m & sl & He' & Hlt' & _).
    apply enc_inj in He'; [|done]. lia.
  - intros p' sl' Hp' Hat' Hst. destruct (decide (p' = e)) as [->|Hne].
    + eexists i, _. by rewrite list_lookup_insert_eq by (by eapply lookup_lt_Some).
    + destruct (Hho p' sl') as (j & prj & Hj & Hpj); [fold e; lia|done|done|].
      exists j, prj. split; [|done]. rewrite list_lookup_insert_ne; [done|]. intros <-. by simplify_eq.
  - eapply (cons_ok_frame (queue s)); [done|done| |done]. intros p m. apply lookup_snoc_Some.
Qed.

(** What a producer learns from the outcome of its access. *)
Definition push_post d s (pr pr' : Producer M) : Prop :=
  match pr, pr' with
  | PCheck _ _, PIdle (Some (Err PushFull)) =>
      length (pushed s) = (released (consumer s) d + cap)%nat
  | PCheck _ _, PIdle (Some (Err PushClosed)) => is_closed (queue s) = true
  | PStore pos _, PIdle r => r = Some (Ok tt) /\ exists p, pos = enc p /\ (p < length (pushed s))%nat
  | _, _ => True
  end.

Lemma closed_iff d s :
  inv d s ->
  is_closed (queue s) = bool_decide (enqueue_pos (queue s) = enc (length (pushed s)) + 2 ^ k).
Proof.
  intros Hinv. unfold is_closed. rewrite (sh_closed _ (iv_shape _ _ Hinv)). pose proof (pow_k_pos cap k).
  destruct (iv_enqueue _ _ Hinv) as [-> | ->].
  - rewrite enc_open by done. rewrite bool_decide_false by lia. done.
  - rewrite enc_closed by done. rewrite bool_decide_true by done. destruct (Z.eqb_spec (2 ^ k) 0); [lia|done].
Qed.

Lemma load_ok d s msg :
  inv d s -> prod_ok (queue s) (pushed s) d (released (consumer s) d) (PCheck msg (enqueue_pos (queue s))).
Proof.
  intros Hinv. destruct (iv_enqueue _ _ Hinv) as [->|He]; [left; eauto|right; done].
Qed.

Lemma push_check d s msg pos :
  inv d s -> prod_ok (queue s) (pushed s) d (released (consumer s) d) (PCheck msg pos) ->
  Z.of_nat (length (pushed s)) + Z.of_nat cap < max_tickets ->
  exists pr', push_step false (queue s) (PCheck msg pos) = Some (queue s, pr', None) /\
    push_post d s (PCheck msg pos) pr' /\ holding pr' = None /\
    prod_ok (queue s) (pushed s) d (released (consumer s) d) pr'.
Proof.
  intros Hinv Hpr Hmax. pose proof (sh_closed _ (iv_shape _ _ Hinv)) as Hcm. cbn. rewrite Hcm.
  destruct Hpr as [(p & Hp & ->)|[-> He]].
  - rewrite enc_open by done. cbn [Z.eqb].
    destruct (stamp_compare d s p Hinv Hp Hmax) as (sl & -> & Hcmp). cbn.
    destruct (_ ?= 0); eexists; (split; [done|]); split_and!; try done.
    destruct Hcmp as [-> ?]. by exists p.
  - rewrite enc_closed by done. pose proof (pow_k_pos cap k). destruct (Z.eqb_spec (2 ^ k) 0); [lia|].
    eexists; split; [done|]. split_and!; [|done|done]. cbn.
    rewrite (closed_iff d) by done. by apply bool_decide_true.
Qed.

Lemma push_write d s msg pos st i :
  inv d s -> producers s !! i = Some (PWrite msg pos st) ->
  exists q', push_step false (queue s) (PWrite msg pos st) = Some (q', PStore pos st, None) /\
    inv d (mkSys q' (<[i := PStore pos st]> (producers s)) (consumer s) (pushed s) (popped s)).
Proof.
  intros Hinv Hi. destruct (iv_prods _ _ Hinv _ _ Hi) as (p & Hd & -> & -> & Hm & Hat).
  pose proof (iv_shape _ _ Hinv) as Hsh. cbn. rewrite slot_index_enc by done. unfold at_ticket in Hat.
  rewrite Hat. cbn. eexists. split; [done|]. eapply inv_producer; [done|done|..].
  - right. eexists p, _. split_and!; [done|done|]. unfold slot_ok. rewrite Hm. auto.
  - exists p, msg. split_and!; try done. by apply at_set_eq.
  - by right.
  - done.
Qed.

Lemma push_store d s pos st i :
  inv d s -> producers s !! i = Some (PStore pos st) ->
  Z.of_nat (length (pushed s)) + Z.of_nat cap < max_tickets ->
  exists q', push_step false (queue s) (PStore pos st) = Some (q', PIdle (Some (Ok tt)), None) /\
    push_post d s (PStore pos st) (PIdle (Some (Ok tt))) /\
    inv d (mkSys q' (<[i := PIdle (Some (Ok tt))]> (producers s)) (consumer s) (pushed s) (popped s)).
Proof.
  intros Hinv Hi Hmax. destruct (iv_prods _ _ Hinv _ _ Hi) as (p & m & Hd & -> & -> & Hm & Hat).
  pose proof (iv_shape _ _ Hinv) as Hsh. apply lookup_lt_Some in Hm as Hlt.
  cbn. rewrite slot_index_enc by done. unfold at_ticket in Hat. rewrite Hat. cbn.
  destruct (enc_bound cap k p) as [Hp0 Hp1]; [lia|]. pose proof (pow_k_pos cap k).
  unfold wrap64. rewrite wrap_small by lia.
  eexists. split; [done|]. split; [eauto|]. eapply inv_producer; [done|done| |done|by left|].
  - right. eexists p, _. split_and!; [done|done|]. unfold slot_ok. rewrite Hm. auto.
  - intros p' sl' [= <-%enc_inj] _; [|done]. rewrite at_set_eq by done. intros [= <-]. cbn. lia.
Qed.

Lemma push_step_inv spurious d s i pr :
  inv d s -> producers s !! i = Some pr ->
  Z.of_nat (length (pushed s)) + Z.of_nat cap < max_tickets ->
  exists q' pr' m, push_step spurious (queue s) pr = Some (q', pr', m) /\ push_post d s pr pr' /\
    inv d (mkSys q' (<[i := pr']> (producers s)) (consumer s) (pushed s ++ option_list m) (popped s)).
Proof.
  intros Hinv Hi Hmax. pose proof (iv_prods _ _ Hinv _ _ Hi) as Hpr.
  assert (forall pr', holding pr = None ->
    prod_ok (queue s) (pushed s) d (released (consumer s) d) pr' -> holding pr' = None ->
    inv d (mkSys (queue s) (<[i := pr']> (producers s)) (consumer s) (pushed s ++ option_list None) (popped s)))
    as Hmove by (intros pr' ? ? ?; cbn; rewrite app_nil_r; eapply inv_producer; eauto; congruence).
  destruct pr as [r|msg|msg pos|msg pos st|msg pos st|pos st].
  - eexists _, _, _. split; [done|]. split; [done|]. by apply Hmove.
  - eexists _, _, _. split; [done|]. split; [done|]. apply Hmove; [done|by apply load_ok|done].
  - destruct (push_check d s msg pos Hinv Hpr Hmax) as (pr' & E & Hpost & Hh & Hok).
    eexists _, pr', None. split; [exact E|]. split; [done|]. by apply Hmove.
  - destruct Hpr as (p & Hle & Hlt & -> & ->). cbn [push_step].
    rewrite (next_pos (queue s) p (iv_shape _ _ Hinv)) by lia. cbn.
    destruct (negb spurious && _) eqn:Ecas.
    + apply andb_true_iff in Ecas as [_ Hen%Z.eqb_eq].
      assert (p = length (pushed s)) as ->.
      { destruct (iv_enqueue _ _ Hinv) as [E|E]; rewrite Hen in E; [by apply (enc_inj cap k)|].
        by apply eq_sym, enc_flag_ne in E. }
      eexists _, _, _. split; [done|]. split; [done|]. by apply inv_reserve.
    + eexists _, _, _. split; [done|]. split; [done|]. apply Hmove; [done|by apply load_ok|done].
  - destruct (push_write d s msg pos st i Hinv Hi) as (q' & E & ?). eexists _, _, None.
    split; [exact E|]. split; [done|]. cbn. by rewrite app_nil_r.
  - destruct (push_store d s pos st i Hinv Hi Hmax) as (q' & E & ? & ?). eexists _, _, None.
    split; [exact E|]. split; [done|]. cbn. by rewrite app_nil_r.
Qed.

(** *** The consumer *)

(** The consumer moves without touching the queue. *)
Lemma inv_consumer d s c' :
  inv d s -> released c' d = released (consumer s) d -> taken c' d = taken (consumer s) d ->
  cons_ok (queue s) (pushed s) d c' ->
  inv d (mkSys (queue s) (producers s) c' (pushed s) (popped s)).
Proof.
  intros [] Hr Ht Hc. split; cbn [queue producers consumer pushed popped]; rewrite ?Hr, ?Ht; done.
Qed.

(** The consumer writes to the slot it holds. *)
Lemma inv_consumer_slot d0 s c' sl l :
  inv (S d0) s -> released (consumer s) (S d0) = d0 ->
  (released c' (S d0) = d0 \/ released c' (S d0) = S d0 /\ sl = mkSlot (enc (d0 + cap)) Vacated) ->
  popped s ++ l = take (taken c' (S d0)) (pushed s) ->
  cons_ok (set_slot (queue s) (d0 `mod` cap)%nat sl) (pushed s) (S d0) c' ->
  inv (S d0) (mkSys (set_slot (queue s) (d0 `mod` cap)%nat sl) (producers s) c' (pushed s) (popped s ++ l)).
Proof.
  intros [Hsh He Hd Ho Hpop Hsl Hp Hex Hho Hc] Hr Hr' Hl Hc'. rewrite Hr in *.
  assert (forall p, (S d0 <= p < d0 + cap)%nat ->
    at_ticket (set_slot (queue s) (d0 `mod` cap)%nat sl) p = at_ticket (queue s) p) as Hframe
    by (intros; apply at_set_ne; lia).
  split; cbn [queue producers consumer pushed popped]; try done.
  - by apply set_slot_shape.
  - lia.
  - intros p Hp'. destruct (decide (p = d0 + cap)%nat) as [->|Hne].
    + destruct Hr' as [Hr'|[_ ->]]; [lia|]. eexists. split.
      * unfold at_ticket. replace ((d0 + cap) `mod` cap)%nat with (d0 `mod` cap)%nat
          by (rewrite <- (Nat.Div0.mod_add d0 1 cap); f_equal; lia).
        cbn. apply list_lookup_insert_eq. rewrite (sh_length _ Hsh). by apply mod_cap.
      * unfold slot_ok. by rewrite lookup_ge_None_2 by lia.
    + rewrite Hframe by lia. apply Hsl. lia.
  - intros j prj Hj. eapply (prod_ok_frame (queue s) _ (pushed s) _ (S d0) _ d0);
      [lia|done|done| |by eapply Hp].
    intros pos p m Hpos -> Hdp Hm. apply lookup_lt_Some in Hm as Hlt. split_and!; [done|done|].
    apply Hframe. lia.
  - intros p sl' Hp'. destruct (decide (p < d0 + cap)%nat).
    + rewrite Hframe by lia. by apply Hho.
    + lia.
Qed.

Definition pop_post d s (c c' : Consumer) (m : option M) : Prop :=
  match c, c' with
  | CIdle _, CClosed _ =>
      d = length (pushed s) \/
      exists i pr, producers s !! i = Some pr /\ holding pr = Some (enc d)
  | CClosed _, CIdle (Some (Err PopClosed)) => is_closed (queue s) = true /\ d = length (pushed s)
  | CClosed _, CIdle (Some (Err PopEmpty)) => ~ (is_closed (queue s) = true /\ d = length (pushed s))
  | CTake _ _, CBorrow _ => m <> None
  | _, _ => True
  end.

(** [CIdle]: the stamp tells whether the message at the head is complete. *)
Lemma pop_idle d s last :
  inv d s -> consumer s = CIdle last ->
  Z.of_nat (length (pushed s)) + Z.of_nat cap < max_tickets ->
  exists c', pop_step (queue s) (CIdle last) = Some (queue s, c', None) /\
    pop_post d s (CIdle last) c' None /\
    inv d (mkSys (queue s) (producers s) c' (pushed s) (popped s)).
Proof.
  intros Hinv Hc Hmax. pose proof (iv_shape _ _ Hinv) as Hsh. pose proof (iv_order _ _ Hinv) as Ho.
  pose proof (pow_k_pos cap k). destruct (enc_bound cap k d) as [Hd0 Hd1]; [lia|].
  destruct (iv_slots _ _ Hinv d) as (sl & Hat & Hok); [rewrite Hc; cbn; lia|].
  cbn. rewrite (iv_dequeue _ _ Hinv), slot_index_enc by done. pose proof Hat as Hat'. unfold at_ticket in Hat'.
  rewrite Hat'. cbn. case_decide as Hst.
  - eexists. split; [done|]. split; [|by apply inv_consumer; rewrite ?Hc].
    destruct (decide (d = length (pushed s))) as [|Hne]; [by left|right].
    eapply iv_holder; [done| |done|done]. lia.
  - unfold checked_add, u64_max. destruct (Z.leb_spec (enc d + 1) (2 ^ 64 - 1)); [|lia]. cbn.
    unfold slot_ok in Hok. destruct (pushed s !! d) eqn:Hm; [|by subst sl].
    destruct Hok as [->|[->| ->]]; [done|done|]. cbn in *. rewrite decide_True by done.
    eexists. split; [done|]. split; [done|]. apply inv_consumer; rewrite ?Hc; cbn; eauto.
Qed.

(** [CAdvance]: the head message is consumed; no producer holds it. *)
Lemma pop_advance d s pos st :
  inv d s -> consumer s = CAdvance pos st ->
  Z.of_nat (length (pushed s)) + Z.of_nat cap < max_tickets ->
  exists q' c', pop_step (queue s) (CAdvance pos st) = Some (q', c', None) /\
    inv (S d) (mkSys q' (producers s) c' (pushed s) (popped s)).
Proof.
  intros Hinv Hc Hmax. pose proof Hinv as [Hsh He Hd Ho Hpop Hsl Hp Hex Hho Hco].
  rewrite Hc in *. destruct Hco as (-> & -> & m & Hm & Hat). apply lookup_lt_Some in Hm as Hlt.
  cbn [pop_step]. rewrite (next_pos (queue s) d Hsh) by lia. cbn. rewrite slot_index_enc by done.
  eexists _, _. split; [done|]. cbn in *.
  split; cbn [queue producers consumer pushed popped released taken pred]; try done.
  - by split; apply Hsh.
  - lia.
  - intros p Hp'. apply Hsl. lia.
  - intros j prj Hj. eapply (prod_ok_frame (queue s) _ (pushed s) _ d _ d); [done|done|done| |by eapply Hp].
    intros pos p x Hpos -> Hdp Hx. split_and!; [|done|done].
    destruct (decide (p = d)) as [->|]; [exfalso|lia].
    destruct (holding_ticket _ _ _ _ _ _ (Hp _ _ Hj) Hpos) as (p & y & sl & <-%enc_inj & _ & _ & Hat' & Hst);
      [|done]. rewrite Hat in Hat'. simplify_eq. cbn in Hst. lia.
  - intros p sl Hp'. apply Hho. lia.
  - exists d, m. done.
Qed.

Lemma pop_take d s idx st :
  inv d s -> consumer s = CTake idx st ->
  Z.of_nat (length (pushed s)) + Z.of_nat cap < max_tickets ->
  exists q' c' m, pop_step (queue s) (CTake idx st) = Some (q', c', Some m) /\
    inv d (mkSys q' (producers s) c' (pushed s) (popped s ++ [m])).
Proof.
  intros Hinv Hc Hmax. pose proof (iv_shape _ _ Hinv) as Hsh. pose proof (iv_cons _ _ Hinv) as Hco.
  pose proof (iv_order _ _ Hinv) as Ho. pose proof (pow_k_pos cap k). pose proof (pow_succ_k cap k).
  rewrite Hc in Hco, Ho. destruct Hco as (d0 & m & -> & -> & -> & Hm & Hat). cbn in Ho.
  pose proof Hat as Hat'. unfold at_ticket in Hat'. cbn. rewrite Hat'. cbn.
  destruct (enc_bound cap k (d0 + cap)) as [Hd0 Hd1]; [lia|].
  rewrite (sh_right _ Hsh). unfold wrap64.
  rewrite wrap_small by (rewrite enc_lap in * by done; destruct (enc_bound cap k d0); lia).
  eexists _, _, _. split; [done|]. apply inv_consumer_slot; [done|by rewrite Hc|by left|..].
  - rewrite (iv_popped _ _ Hinv), Hc. cbn. symmetry. by apply take_S_r.
  - exists d0. split_and!; [done| |by apply at_set_eq]. f_equal. rewrite enc_lap by done. lia.
Qed.

Lemma pop_drop d s c b :
  inv d s -> consumer s = c -> c = CBorrow b \/ c = CRelease b ->
  exists q' c', pop_step (queue s) c = Some (q', c', None) /\
    inv d (mkSys q' (producers s) c' (pushed s) (popped s)).
Proof.
  intros Hinv Hc Hb. pose proof (iv_shape _ _ Hinv) as Hsh. pose proof (iv_cons _ _ Hinv) as Hco.
  pose proof (iv_popped _ _ Hinv) as Hpop. rewrite <- (app_nil_r (popped s)).
  destruct Hb as [-> | ->]; rewrite Hc in Hco, Hpop; destruct Hco as (d0 & -> & -> & Hat);
    pose proof Hat as Hat'; unfold at_ticket in Hat'; cbn; unfold drop_vacate, drop_release; cbn;
    rewrite Hat'; cbn; eexists _, _; (split; [done|]); (apply inv_consumer_slot; [done|by rewrite Hc|..]).
  - by left.
  - by rewrite app_nil_r.
  - exists d0. split_and!; [done|done|by apply at_set_eq].
  - by right.
  - by rewrite app_nil_r.
  - done.
Qed.

Lemma pop_step_inv d s :
  inv d s -> Z.of_nat (length (pushed s)) + Z.of_nat cap < max_tickets ->
  exists q' c' m d', pop_step (queue s) (consumer s) = Some (q', c', m) /\
    pop_post d s (consumer s) c' m /\ (d <= d')%nat /\
    inv d' (mkSys q' (producers s) c' (pushed s) (popped s ++ option_list m)).
Proof.
  intros Hinv Hmax. pose proof (iv_cons _ _ Hinv) as Hco.
  destruct (consumer s) as [last|pos st|idx st|pos|b|b] eqn:Hc.
  - destruct (pop_idle d s last) as (c' & -> & ? & ?); [done..|]. eexists _, _, _, d.
    split; [done|]. split_and!; [done|done|]. cbn. by rewrite app_nil_r.
  - destruct (pop_advance d s pos st) as (q' & c' & -> & ?); [done..|]. eexists _, _, _, (S d).
    split; [done|]. split_and!; [done|lia|]. cbn. by rewrite app_nil_r.
  - destruct (pop_take d s idx st) as (q' & c' & m & -> & ?); [done..|]. eexists _, _, _, d.
    split; [done|]. split_and!; [by destruct c'|done|done].
  - cbn in Hco. subst pos. cbn. rewrite (sh_closed _ (iv_shape _ _ Hinv)), enc_lor by done.
    pose proof (closed_iff d s Hinv) as Hcl.
    destruct (Z.eqb_spec (enqueue_pos (queue s)) (enc d + 2 ^ k)) as [E|E];
      (eexists _, _, _, d; split; [done|]; split;
       [|split; [done|cbn; rewrite app_nil_r; apply inv_consumer; by rewrite ?Hc]]); cbn.
    + destruct (iv_enqueue _ _ Hinv) as [E'|E']; rewrite E in E'; [by apply enc_flag_ne in E'|].
      split; [|apply (enc_inj cap k); lia]. rewrite Hcl. apply bool_decide_true. by rewrite E, E'.
    + intros [Hcl' ->]. rewrite Hcl in Hcl'. by apply bool_decide_eq_true in Hcl'.
  - destruct (pop_drop d s (CBorrow b) b) as (q' & c' & -> & ?); [done|done|by left|]. eexists _, _, _, d.
    split; [done|]. split_and!; [by destruct c'|done|]. cbn. by rewrite app_nil_r.
  - destruct (pop_drop d s (CRelease b) b) as (q' & c' & -> & ?); [done|done|by right|]. eexists _, _, _, d.
    split; [done|]. split_and!; [by destruct c'|done|]. cbn. by rewrite app_nil_r.
Qed.

(** *** All steps *)
Lemma inv_close d s :
  inv d s ->
  inv d (mkSys (close (queue s)) (producers s) (consumer s) (pushed s) (popped s)).
Proof.
  intros [Hsh He Hd Ho Hpop Hsl Hp Hex Hho Hc]. unfold close. rewrite (sh_closed _ Hsh).
  split; cbn [queue producers consumer pushed popped]; try done.
  - by split; apply Hsh.
  - right. cbn. destruct He as [-> | ->]; [by rewrite enc_lor|by rewrite enc_lor_idem].
  - intros j prj Hj. eapply (prod_ok_frame (queue s)); [done|done| |done|by eapply Hp].
    cbn. intros ->. split; [|done]. by rewrite enc_lor_idem.
Qed.

Lemma inv_start d s i m last :
  inv d s -> producers s !! i = Some (PIdle last) ->
  inv d (mkSys (queue s) (<[i := PLoad m]> (producers s)) (consumer s) (pushed s) (popped s)).
Proof. intros Hinv Hi. eapply inv_producer; [done|done|by left|done|by left|done]. Qed.

Lemma step_inv a d s :
  inv d s -> Z.of_nat (length (pushed s)) + Z.of_nat cap < max_tickets ->
  exists s' d', step a s = Some s' /\ inv d' s' /\ (d <= d')%nat /\
    (length (pushed s) <= length (pushed s') <= S (length (pushed s)))%nat.
Proof.
  intros Hinv Hmax. destruct a as [i m|i spurious| |]; cbn [step].
  - destruct (producers s !! i) as [[last| | | | |]|] eqn:Hi;
      try (eexists s, d; split; [done|]; split_and!; [done|lia|lia|lia]).
    eexists _, d. split; [done|]. split; [by eapply inv_start|]. cbn. lia.
  - destruct (producers s !! i) as [pr|] eqn:Hi;
      [|eexists s, d; split; [done|]; split_and!; [done|lia|lia|lia]].
    destruct (push_step_inv spurious d s i pr Hinv Hi Hmax) as (q' & pr' & o & -> & _ & Hinv').
    eexists _, d. split; [done|]. split; [exact Hinv'|]. cbn. rewrite length_app. destruct o; cbn; lia.
  - destruct (pop_step_inv d s Hinv Hmax) as (q' & c' & o & d' & -> & _ & Hd & Hinv').
    eexists _, d'. split; [done|]. split; [exact Hinv'|]. cbn. lia.
  - eexists _, d. split; [done|]. split; [by apply inv_close|]. cbn. lia.
Qed.

Lemma run_inv sched d s :
  inv d s -> Z.of_nat (length (pushed s)) + Z.of_nat (length sched) + Z.of_nat cap < max_tickets ->
  exists s' d', run sched s = Some s' /\ inv d' s' /\ (d <= d')%nat /\
    (length (pushed s') <= length (pushed s) + length sched)%nat.
Proof.
  revert d s. induction sched as [|a sched IH]; intros d s Hinv Hmax; cbn [run length] in *.
  { exists s, d. split_and!; [done|done|lia|lia]. }
  destruct (step_inv a d s Hinv) as (s1 & d1 & -> & Hinv1 & ? & ?); [lia|]. cbn.
  destruct (IH d1 s1 Hinv1) as (s' & d' & -> & ? & ? & ?); [lia|].
  exists s', d'. split_and!; [done|done|lia|lia].
Qed.

(** What the number of messages says about the counters. *)
Definition held (c : Consumer) : nat := match c with CBorrow _ | CRelease _ => 1 | _ => 0 end.

(** Slots that are not available to producers. *)
Definition occupied s : nat := (length (pushed s) + held (consumer s) - length (popped s))%nat.

Lemma inv_counts d s :
  inv d s ->
  length (popped s) = taken (consumer s) d /\
  occupied s = (length (pushed s) - released (consumer s) d)%nat /\ (occupied s <= cap)%nat.
Proof.
  intros Hinv. pose proof (iv_order _ _ Hinv) as Ho. pose proof (iv_cons _ _ Hinv) as Hc.
  assert (taken (consumer s) d <= length (pushed s))%nat by (destruct (consumer s); cbn; lia).
  unfold occupied. rewrite (iv_popped _ _ Hinv), length_take, Nat.min_l by done.
  split; [done|]. destruct (consumer s); cbn in *; try lia.
  - destruct Hc as (d0 & -> & _). cbn. lia.
  - destruct Hc as (d0 & -> & _). cbn. lia.
Qed.
End Invariant.

End ChannelQueueFacts.
