(* ===== verification/ChannelQueueTheorems.v ===== *)
(** * The mailbox queue: theorems

    For every interleaving of any number of producers with the consumer, as long as
    the sequence counts do not wrap around ([2 ^ 60] accesses if the capacity is at most [2 ^ 61]): no panic, first-in first-out delivery without
    loss or duplication, the meaning of every result, and the behaviour of a
    [push] or a [pop] that is not disturbed, from any reachable state. *)

From S2P Require Import Prelude ChannelQueue ChannelQueueFacts.
From stdpp Require Import base list option numbers.
Import ChannelQueue ChannelQueueFacts.
Local Open Scope Z_scope.

(** Sequence counts do not wrap around before this many messages. *)
Definition max_messages (capacity : Z) : Z := capacity * 2 ^ (62 - Z.log2_up capacity).

(** A new queue with [n] producers, after a schedule. *)
Definition exec {M} (capacity : Z) (n : nat) (sched : list (Action M)) : option (Sys M) :=
  s ← init capacity n; run sched s.

(** No producer is between the reservation of a position and the stamp. *)
Definition quiet {M} (s : Sys M) : Prop :=
  forall i pr, producers s !! i = Some pr -> holding pr = None.

(** Producer [i] is in the middle of the [push] of [msg] at a position that it has reserved: the
    message or the stamp is still to be written. *)
Definition pushing_at {M} (s : Sys M) (i : nat) (pos : Z) (msg : M) : Prop :=
  (exists st, producers s !! i = Some (PWrite msg pos st)) \/
  (exists st sl, producers s !! i = Some (PStore pos st) /\
     buffer (queue s) !! slot_index (queue s) pos = Some sl /\ message sl = Populated msg).

Section Reach.
Context {M : Type} (capacity : Z) (n : nat).
Hypothesis Hcapacity : 1 <= capacity <= 2 ^ 62.
Notation cap := (Z.to_nat capacity).
Notation k := (Z.log2_up capacity).

Lemma capacity_geometry : Geometry cap k.
Proof.
  split.
  - lia.
  - split; [apply Z.log2_up_nonneg|]. rewrite <- (Z.log2_up_pow2 62) by done.
    apply Z.log2_up_le_mono. lia.
  - rewrite Z2Nat.id by lia. destruct (Z.eq_dec capacity 1) as [->|]; [done|].
    apply Z.log2_up_spec. lia.
Qed.

Lemma max_messages_large : 2 ^ 61 <= max_messages capacity.
Proof.
  pose proof capacity_geometry as [_ Hk _]. unfold max_messages.
  destruct (Z.eq_dec capacity 1) as [->|]; [done|].
  destruct (Z.log2_up_spec capacity) as [Hlo _]; [lia|].
  assert (0 < k) by (apply Z.log2_up_pos; lia).
  assert (2 ^ (Z.pred k) * 2 ^ (62 - k) = 2 ^ 61) as E by (rewrite <- Z.pow_add_r by lia; f_equal; lia).
  rewrite <- E. apply Z.mul_le_mono_nonneg_r; [|lia]. apply Z.pow_nonneg. lia.
Qed.

(** The schedules of the claims. *)
Lemma schedule_bound x : capacity <= 2 ^ 61 -> x < 2 ^ 60 -> x + capacity < max_messages capacity.
Proof.
  intros Hc Hx. unfold max_messages. pose proof capacity_geometry as [_ Hk Hp]. rewrite Z2Nat.id in Hp by lia.
  destruct (Z.eq_dec capacity 1) as [->|]; [change (x + 1 < 1 * 2 ^ 62); lia|].
  destruct (Z.log2_up_spec capacity) as [Hlo _]; [lia|].
  assert (0 < k <= 61) as Hk'.
  { split; [apply Z.log2_up_pos; lia|]. rewrite <- (Z.log2_up_pow2 61) by done. by apply Z.log2_up_le_mono. }
  assert (2 ^ Z.pred k * 2 ^ (61 - k) = 2 ^ 60) as E by (rewrite <- Z.pow_add_r by lia; f_equal; lia).
  assert (2 ^ (62 - k) = 2 * 2 ^ (61 - k)) as -> by (rewrite <- Z.pow_succ_r by lia; f_equal; lia).
  assert (1 <= 2 ^ (61 - k)) by (pose proof (Z.pow_pos_nonneg 2 (61 - k)); lia). nia.
Qed.

Lemma init_inv : exists s, init (M := M) capacity n = Some s /\ pushed s = [] /\ inv cap k 0 s.
Proof.
  pose proof capacity_geometry as G. pose proof (pow_k_pos cap k). pose proof (pow_succ_k cap k).
  pose proof (g_k (cap := cap) (k := k)) as Hk. pose proof (g_cap (cap := cap) (k := k)) as Hcap.
  assert (2 ^ k <= 2 ^ 62) by (apply Z.pow_le_mono_r; lia).
  unfold init, new, next_power_of_two.
  destruct (Z.leb_spec 1 capacity); [|lia]. destruct (Z.leb_spec capacity (2 ^ 63)); [|lia].
  cbn [andb mbind option_bind]. unfold wrap64. rewrite Z.shiftl_mul_pow2, (wrap_small 64 (2 ^ k * 2 ^ 1)) by lia.
  rewrite wrap_small by lia.
  eexists. split; [done|]. split; [done|]. split; cbn [queue producers consumer pushed popped].
  - split; [cbn; lia|done|]. cbn. by rewrite length_fmap, length_seqZ.
  - left. cbn. by rewrite enc_0.
  - cbn. by rewrite enc_0.
  - cbn. lia.
  - done.
  - cbn. intros p Hp. eexists. unfold at_ticket, slot_ok, enc. cbn.
    rewrite Nat.mod_small, Nat.div_small by lia. rewrite list_lookup_fmap, lookup_seqZ_lt by lia. done.
  - intros i pr [-> _]%lookup_replicate. done.
  - intros i j pi pj pos [-> _]%lookup_replicate. done.
  - cbn. lia.
  - done.
Qed.

Lemma exec_inv (sched : list (Action M)) :
  Z.of_nat (length sched) + capacity < max_messages capacity ->
  exists s d, exec capacity n sched = Some s /\ inv cap k d s /\
    (length (pushed s) <= length sched)%nat.
Proof.
  intros Hs. pose proof capacity_geometry as G. destruct init_inv as (s0 & H0 & Hp & Hinv).
  destruct (run_inv cap k sched 0 s0 Hinv) as (s & d & Hr & Hi & _ & Hl).
  { unfold max_tickets. rewrite Hp, Z2Nat.id by lia. unfold max_messages in Hs. cbn. lia. }
  exists s, d. unfold exec. rewrite H0. cbn. rewrite Hp in Hl. done.
Qed.
End Reach.

Section Claims.
Context {M : Type}.
Implicit Types (s : Sys M) (sched : list (Action M)).

(** A state reached by a schedule within the bound. *)
Lemma reached capacity n sched s extra :
  1 <= capacity <= 2 ^ 62 -> exec capacity n sched = Some s ->
  Z.of_nat (length sched) + extra + capacity < max_messages capacity -> 0 <= extra ->
  exists d, Geometry (Z.to_nat capacity) (Z.log2_up capacity) /\
    inv (Z.to_nat capacity) (Z.log2_up capacity) d s /\
    Z.of_nat (length (pushed s)) + extra + Z.of_nat (Z.to_nat capacity)
      < max_tickets (Z.to_nat capacity) (Z.log2_up capacity).
Proof.
  intros Hc He Hs Hx. destruct (exec_inv (M := M) capacity n Hc sched) as (s' & d & He' & Hi & Hl); [lia|].
  rewrite He in He'. simplify_eq. exists d. split; [by apply capacity_geometry|]. split; [done|].
  unfold max_tickets, max_messages in *. rewrite Z2Nat.id by lia. lia.
Qed.

(** C17: for every capacity up to [2 ^ 61], whatever the number of producers and the interleaving of
    their accesses with those of the consumer, for up to [2 ^ 60] accesses (the sequence counts wrap around
    later), no operation on the queue panics, the messages
    popped are, in the same order, the first of those for which a position was
    reserved (nothing is lost, duplicated or reordered), and no more messages
    than the capacity occupy the queue. *)
Theorem mpsc_fifo capacity n sched :
  1 <= capacity <= 2 ^ 61 -> Z.of_nat (length sched) < 2 ^ 60 ->
  exists s, exec capacity n sched = Some s /\ popped s `prefix_of` pushed s /\
    Z.of_nat (occupied s) <= capacity.
Proof.
  intros Hc' Hs'. assert (1 <= capacity <= 2 ^ 62) as Hc by lia.
  pose proof (schedule_bound capacity Hc _ (proj2 Hc') Hs') as Hs.
  destruct (exec_inv (M := M) capacity n Hc sched Hs) as (s & d & He & Hi & Hl).
  pose proof (capacity_geometry capacity Hc) as G. exists s. split; [done|]. split.
  - rewrite (iv_popped _ _ _ _ Hi). apply prefix_take.
  - destruct (inv_counts _ _ _ _ Hi) as (_ & _ & ?). lia.
Qed.

(** The comparison of [push] on the current enqueue position. *)
Lemma fresh_compare cap k `{!Geometry cap k} d s :
  inv cap k d s -> Z.of_nat (length (pushed s)) + Z.of_nat cap < max_tickets cap k ->
  exists sl, buffer (queue s) !! slot_index (queue s) (enc cap k (length (pushed s))) = Some sl /\
    (as_isize (wrap64 (stamp sl - enc cap k (length (pushed s)))) ?= 0) =
      (if decide (length (pushed s) < released (consumer s) d + cap)%nat then Eq else Lt) /\
    ((length (pushed s) < released (consumer s) d + cap)%nat -> stamp sl = enc cap k (length (pushed s))).
Proof.
  intros Hi Hmax. pose proof (iv_order _ _ _ _ Hi) as Ho. pose proof (iv_shape _ _ _ _ Hi) as Hsh.
  pose proof (g_cap (cap := cap) (k := k)) as Hcap. set (e := length (pushed s)) in *.
  rewrite (slot_index_enc cap k (queue s) e Hsh). case_decide as Hlt.
  - destruct (iv_slots _ _ _ _ Hi e) as (sl & Hat & Hok); [lia|]. exists sl. split; [exact Hat|].
    unfold slot_ok in Hok. rewrite lookup_ge_None_2 in Hok by (unfold e; lia). subst sl. cbn.
    by rewrite Z.sub_diag.
  - set (r := released (consumer s) d) in *. assert (e = r + cap)%nat as He by lia.
    destruct (slot_stamp cap k d s r Hi) as (sl & Hat & Hst); [fold r; lia|]. exists sl. split.
    { unfold at_ticket in Hat. rewrite He. rewrite <- Hat. f_equal.
      rewrite <- (Nat.Div0.mod_add r 1 cap). f_equal. lia. }
    split; [|lia]. pose proof (pow_k_pos cap k). pose proof (pow_succ_k cap k).
    destruct (enc_bound cap k r) as [? ?]; [lia|]. destruct (enc_bound cap k e) as [? ?]; [lia|].
    rewrite as_isize_wrap by lia. apply Z.compare_lt_iff. rewrite He, enc_lap by done. lia.
Qed.

(** The successful path of [push], from the reservation on. *)
Lemma push_commit cap k `{!Geometry cap k} d s i msg :
  inv cap k d s -> Z.of_nat (length (pushed s)) + 1 + Z.of_nat cap < max_tickets cap k ->
  (length (pushed s) < released (consumer s) d + cap)%nat ->
  enqueue_pos (queue s) = enc cap k (length (pushed s)) ->
  producers s !! i = Some (PCas msg (enc cap k (length (pushed s))) (enc cap k (length (pushed s)))) ->
  exists s', run (replicate 3 (AProducer i false)) s = Some s' /\
    producers s' !! i = Some (PIdle (Some (Ok tt))) /\ pushed s' = pushed s ++ [msg].
Proof.
  intros Hi Hmax Hlt Hen Hpr. pose proof (inv_reserve cap k d s i msg Hi Hlt Hpr Hen) as H1.
  set (e := length (pushed s)) in *.
  pose proof (lookup_lt_Some _ _ _ Hpr) as Hil.
  cbn [replicate run step]. rewrite Hpr. cbn [push_step].
  rewrite (next_pos cap k (queue s) e (iv_shape _ _ _ _ Hi)) by lia.
  cbn [negb andb mbind option_bind]. rewrite Hen, Z.eqb_refl. cbn [mbind option_bind option_list].
  set (s1 := mkSys _ _ _ _ _) in *. assert (producers s1 !! i = Some (PWrite msg (enc cap k e) (enc cap k e))) as Hp1
    by (by apply list_lookup_insert_eq).
  destruct (push_write cap k d s1 _ _ _ i H1 Hp1) as (q2 & E2 & H2).
  rewrite Hp1, E2. cbn [mbind option_bind option_list]. rewrite app_nil_r.
  set (s2 := mkSys q2 _ _ _ _) in *. assert (producers s2 !! i = Some (PStore (enc cap k e) (enc cap k e))) as Hp2
    by (apply list_lookup_insert_eq; cbn; by rewrite length_insert).
  destruct (push_store cap k d s2 _ _ i H2 Hp2) as (q3 & E3 & _ & H3).
  { cbn. rewrite length_app. cbn. lia. }
  rewrite Hp2, E3. cbn [mbind option_bind option_list]. eexists. split; [done|]. cbn. split.
  - apply list_lookup_insert_eq. by rewrite !length_insert.
  - by rewrite app_nil_r.
Qed.

Lemma run_app (l1 l2 : list (Action M)) s : run (l1 ++ l2) s = run l1 s ≫= run l2.
Proof. revert s. induction l1 as [|a l1 IH]; intros s; [done|]. cbn. destruct (step a s); cbn; [apply IH|done]. Qed.

Lemma run_idle i j s r :
  producers s !! i = Some (PIdle r) ->
  exists s', run (replicate j (AProducer i false)) s = Some s' /\
    producers s' !! i = Some (PIdle r) /\ pushed s' = pushed s.
Proof.
  revert s. induction j as [|j IH]; intros s Hi; [by exists s|]. cbn. rewrite Hi. cbn. rewrite app_nil_r.
  destruct (IH (mkSys (queue s) (<[i:=PIdle r]> (producers s)) (consumer s) (pushed s) (popped s)))
    as (s' & E & ? & ?); [cbn; by rewrite list_insert_id|]. by exists s'.
Qed.

(** From any reachable state, whatever the other producers and the consumer
    are in the middle of, a [push] that is not disturbed completes within five
    accesses to the shared memory: it fails with [Closed] on a closed queue,
    otherwise with [Full] if [capacity] slots are occupied, otherwise it
    appends the message. *)
Theorem push_alone capacity n sched s i last msg :
  1 <= capacity <= 2 ^ 62 -> exec capacity n sched = Some s ->
  Z.of_nat (length sched) + 1 + capacity < max_messages capacity ->
  producers s !! i = Some (PIdle last) ->
  exists s', run (AStart i msg :: replicate 5 (AProducer i false)) s = Some s' /\
    let res := if is_closed (queue s) then Err PushClosed
               else if Z.of_nat (occupied s) <? capacity then Ok tt else Err PushFull in
    producers s' !! i = Some (PIdle (Some res)) /\
    pushed s' = pushed s ++ match res with Ok _ => [msg] | Err _ => [] end.
Proof.
  intros Hc He Hs Hi. destruct (reached capacity n sched s 1 Hc He Hs) as (d & G & Hinv & Hmax); [lia|].
  set (cap := Z.to_nat capacity) in *. set (k := Z.log2_up capacity) in *.
  destruct (inv_counts cap k d s Hinv) as (_ & Hocc & _). pose proof (iv_order _ _ _ _ Hinv) as Ho.
  pose proof (lookup_lt_Some _ _ _ Hi) as Hil.
  assert (forall s1 r, producers s1 !! i = Some (PIdle (Some r)) -> pushed s1 = pushed s ->
    exists s', run (replicate 3 (AProducer i false)) s1 = Some s' /\
      producers s' !! i = Some (PIdle (Some r)) /\ pushed s' = pushed s) as Hidle.
  { intros s1 r Hs1 Hp1. destruct (run_idle i 3 s1 _ Hs1) as (s' & -> & ? & Hp'). exists s'. by rewrite Hp'. }
  change (AStart i msg :: replicate 5 (AProducer i false))
    with ([AStart i msg; AProducer i false; AProducer i false] ++ replicate 3 (AProducer i false)).
  rewrite run_app. cbn [run step]. rewrite Hi. cbn [mbind option_bind producers].
  rewrite list_lookup_insert_eq by done. cbn [push_step mbind option_bind queue producers consumer pushed popped].
  rewrite list_insert_insert_eq, list_lookup_insert_eq by done. cbn [option_list]. rewrite app_nil_r.
  rewrite (closed_iff cap k d s Hinv). cbn [push_step]. rewrite (sh_closed _ _ _ (iv_shape _ _ _ _ Hinv)).
  destruct (iv_enqueue _ _ _ _ Hinv) as [Hen|Hen]; rewrite Hen.
  - rewrite enc_open by done. cbn [Z.eqb]. rewrite bool_decide_false by (pose proof (pow_k_pos cap k); lia).
    destruct (fresh_compare cap k d s Hinv) as (sl & -> & Hcmp & Hst); [lia|].
    cbn [mbind option_bind]. rewrite Hcmp. case_decide as Hlt.
    + rewrite (proj2 (Z.ltb_lt _ _)) by lia. rewrite Hst by done.
      cbn [mbind option_bind option_list]. rewrite app_nil_r, list_insert_insert_eq.
      destruct (push_commit cap k d (mkSys (queue s) (<[i := PCas msg (enc cap k (length (pushed s)))
        (enc cap k (length (pushed s)))]> (producers s)) (consumer s) (pushed s) (popped s)) i msg)
        as (s' & E & ? & ?); cbn; [|lia|done|done|by apply list_lookup_insert_eq|by exists s'].
      apply (inv_producer cap k d s i (PIdle last)); [done|done|by left| |by left|done].
      exists (length (pushed s)). by split_and!.
    + rewrite (proj2 (Z.ltb_ge _ _)) by lia. cbn [mbind option_bind option_list]. rewrite !app_nil_r.
      apply Hidle; [|done]. cbn. by rewrite list_insert_insert_eq, list_lookup_insert_eq.
  - rewrite enc_closed, bool_decide_true by done. pose proof (pow_k_pos cap k).
    destruct (Z.eqb_spec (2 ^ k) 0); [lia|]. cbn [mbind option_bind option_list]. rewrite !app_nil_r.
    apply Hidle; [|done]. cbn. by rewrite list_insert_insert_eq, list_lookup_insert_eq.
Qed.

(** One step of the consumer, with the invariant. *)
Lemma consumer_step cap k `{!Geometry cap k} d s :
  inv cap k d s -> Z.of_nat (length (pushed s)) + Z.of_nat cap < max_tickets cap k ->
  exists q' c' m d', pop_step (queue s) (consumer s) = Some (q', c', m) /\
    step AConsumer s = Some (mkSys q' (producers s) c' (pushed s) (popped s ++ option_list m)) /\
    inv cap k d' (mkSys q' (producers s) c' (pushed s) (popped s ++ option_list m)).
Proof.
  intros Hi Hmax. destruct (pop_step_inv cap k d s Hi Hmax) as (q' & c' & m & d' & E & _ & _ & Hi').
  exists q', c', m, d'. split_and!; [done| |done]. cbn [step]. by rewrite E.
Qed.

(** A message at the head that is complete is delivered in five accesses, the
    last two of which release its slot. *)
Lemma pop_deliver cap k `{!Geometry cap k} d s pos st :
  inv cap k d s -> Z.of_nat (length (pushed s)) + Z.of_nat cap < max_tickets cap k ->
  consumer s = CAdvance pos st ->
  exists s' x, run (replicate 4 AConsumer) s = Some s' /\ consumer s' = CIdle (Some (Ok tt)) /\
    pushed s' = pushed s /\ popped s' = popped s ++ [x] /\ pushed s !! length (popped s) = Some x.
Proof.
  intros Hi Hmax Hc. destruct (inv_counts cap k d s Hi) as (Hpl & _ & _). rewrite Hc in Hpl. cbn in Hpl.
  assert (exists s', run (replicate 4 AConsumer) s = Some s' /\ consumer s' = CIdle (Some (Ok tt)) /\
    pushed s' = pushed s /\ (exists x, popped s' = popped s ++ [x]) /\
    exists d', inv cap k d' s') as (s' & E & ? & Hp & [x Hx] & d' & Hi').
  { cbn [replicate run].
    destruct (consumer_step cap k d s Hi Hmax) as (q1 & c1 & m1 & d1 & E1 & -> & H1).
    rewrite Hc in E1. cbn in E1. apply bind_Some in E1 as (nx & _ & E1). simplify_eq. cbn [mbind option_bind].
    destruct (consumer_step cap k _ _ H1 Hmax) as (q2 & c2 & m2 & d2 & E2 & -> & H2).
    cbn [queue consumer pop_step] in E2. apply bind_Some in E2 as (sl2 & _ & E2).
    destruct (message sl2); simplify_eq. cbn [mbind option_bind producers consumer pushed popped] in *.
    destruct (consumer_step cap k _ _ H2 Hmax) as (q3 & c3 & m3 & d3 & E3 & -> & H3).
    cbn [queue consumer pop_step] in E3. apply bind_Some in E3 as (q3' & _ & E3).
    simplify_eq. cbn [mbind option_bind producers consumer pushed popped] in *.
    destruct (consumer_step cap k _ _ H3 Hmax) as (q4 & c4 & m4 & d4 & E4 & -> & H4).
    cbn [queue consumer pop_step] in E4. apply bind_Some in E4 as (q4' & _ & E4).
    simplify_eq. cbn [mbind option_bind producers consumer pushed popped option_list] in *.
    eexists. split; [done|]. cbn [consumer pushed popped]. split_and!; [done|done| |by eexists].
    rewrite !app_nil_r. by eexists. }
  exists s', x. split_and!; try done.
  pose proof (iv_popped _ _ _ _ Hi') as Hpop. rewrite Hx, Hp in Hpop.
  assert ((popped s ++ [x]) !! length (popped s) = Some x) as Hl by (by rewrite list_lookup_middle).
  rewrite Hpop in Hl. by apply lookup_take_Some in Hl as [? _].
Qed.

(** From any reachable state in which no producer is in the middle of a
    [push], a [pop] that is not disturbed completes: if all messages have been
    popped it reports [Closed] on a closed queue and [Empty] otherwise, else it
    delivers the oldest message and releases its slot. *)
Theorem pop_alone capacity n sched s last :
  1 <= capacity <= 2 ^ 62 -> exec capacity n sched = Some s ->
  Z.of_nat (length sched) + capacity < max_messages capacity ->
  consumer s = CIdle last -> quiet s ->
  exists j s', (j <= 5)%nat /\ run (replicate j AConsumer) s = Some s' /\ pushed s' = pushed s /\
    match pushed s !! length (popped s) with
    | Some x => consumer s' = CIdle (Some (Ok tt)) /\ popped s' = popped s ++ [x]
    | None => popped s' = popped s /\
              consumer s' = CIdle (Some (Err (if is_closed (queue s) then PopClosed else PopEmpty)))
    end.
Proof.
  intros Hc He Hs Hco Hq. destruct (reached capacity n sched s 0 Hc He) as (d & G & Hinv & Hmax); [lia|done|].
  set (cap := Z.to_nat capacity) in *. set (k := Z.log2_up capacity) in *. rewrite Z.add_0_r in Hmax.
  destruct (inv_counts cap k d s Hinv) as (Hpl & _ & _). rewrite Hco in Hpl. cbn in Hpl.
  destruct (pop_idle cap k d s last Hinv Hco Hmax) as (c1 & E1 & Hpost & H1).
  assert (step AConsumer s = Some (mkSys (queue s) (producers s) c1 (pushed s) (popped s))) as Hstep
    by (cbn [step]; rewrite Hco, E1; cbn; by rewrite app_nil_r).
  destruct c1 as [|pos st|idx st|pos|b|b].
  all: try (exfalso; cbn in E1; apply bind_Some in E1 as (sl & _ & E1); case_decide; [done|];
    apply bind_Some in E1 as (z & _ & E1); case_decide; done).
  - destruct (pop_deliver cap k d _ pos st H1 Hmax eq_refl) as (s' & x & E & ? & ? & ? & Hx).
    exists 5%nat, s'. change (replicate 5 AConsumer) with (AConsumer (M := M) :: replicate 4 AConsumer).
    cbn [run]. rewrite Hstep. cbn [mbind option_bind]. cbn in Hx. rewrite Hx. done.
  - destruct Hpost as [Hd|(i & pr & Hi & Hpr)]; [|by rewrite (Hq i pr Hi) in Hpr].
    rewrite lookup_ge_None_2 by lia.
    destruct (pop_step_inv cap k d _ H1 Hmax) as (q2 & c2 & m2 & d2 & E2 & Hpost & _ & _).
    eexists 2%nat, _. split; [lia|]. cbn [replicate run]. rewrite Hstep. cbn [mbind option_bind step].
    rewrite E2. cbn [mbind option_bind]. split; [done|]. cbn [queue consumer pop_step] in E2, Hpost |- *.
    destruct (enqueue_pos (queue s) =? _); simplify_eq; cbn in Hpost |- *; rewrite app_nil_r; split_and!; try done.
    + by destruct Hpost as [-> _].
    + destruct (is_closed (queue s)); [|done]. by destruct Hpost.
Qed.

(** Only a successful reservation and [close] change the enqueue position. *)
Lemma push_step_enqueue spurious (q q' : Queue M) pr pr' m :
  push_step spurious q pr = Some (q', pr', m) ->
  (m = None /\ enqueue_pos q' = enqueue_pos q /\ closed_channel_mask q' = closed_channel_mask q) \/
  exists msg st, pr = PCas msg (enqueue_pos q) st.
Proof.
  destruct pr; cbn; intros H; repeat (case_match || case_decide || apply bind_Some in H as (? & _ & H));
    simplify_eq; auto.
  apply andb_true_iff in H0 as [_ ->%Z.eqb_eq]. right. eauto.
Qed.

Lemma pop_step_enqueue (q q' : Queue M) c c' m :
  pop_step q c = Some (q', c', m) ->
  enqueue_pos q' = enqueue_pos q /\ closed_channel_mask q' = closed_channel_mask q.
Proof.
  destruct c as [| | | |b|b]; cbn; unfold drop_vacate, drop_release; intros H.
  5,6: apply bind_Some in H as (? & (? & _ & Hq)%bind_Some & H); by simplify_eq.
  all: repeat (case_match || apply bind_Some in H as (? & _ & H)); by simplify_eq.
Qed.

(** No message enters a closed queue. *)
Lemma closed_stable cap k `{!Geometry cap k} d s a s' :
  inv cap k d s -> is_closed (queue s) = true -> step a s = Some s' ->
  is_closed (queue s') = true /\ pushed s' = pushed s.
Proof.
  intros Hi Hcl. pose proof (closed_iff cap k d s Hi) as Hiff. rewrite Hcl in Hiff.
  symmetry in Hiff. apply bool_decide_eq_true in Hiff as Hen.
  destruct a as [i m|i spurious| |]; cbn [step].
  - intros Hs. destruct (producers s !! i) as [[]|]; by simplify_eq.
  - destruct (producers s !! i) as [pr|] eqn:Hp; [|intros; by simplify_eq].
    intros ([[q' pr'] m] & E & Hs)%bind_Some. simplify_eq. cbn.
    destruct (push_step_enqueue _ _ _ _ _ _ E) as [(-> & He & Hm)|(msg & st & ->)].
    + cbn. rewrite app_nil_r. unfold is_closed in *. by rewrite He, Hm.
    + destruct (iv_prods _ _ _ _ Hi _ _ Hp) as (p & _ & _ & He & _). rewrite Hen in He.
      by apply enc_flag_ne in He.
  - intros ([[q' c'] m] & E & Hs)%bind_Some. simplify_eq. cbn.
    destruct (pop_step_enqueue _ _ _ _ _ E) as [He Hm]. unfold is_closed in *. by rewrite He, Hm.
  - intros Hs. simplify_eq. split; [|done]. rewrite (closed_iff cap k d) by (by apply inv_close).
    cbn. rewrite (sh_closed _ _ _ (iv_shape _ _ _ _ Hi)), Hen, enc_lor_idem by done.
    by apply bool_decide_true.
Qed.

(** The results of the producers are those of the comparison with the stamp. *)
Lemma push_result cap k `{!Geometry cap k} d s i spurious s' e :
  inv cap k d s -> Z.of_nat (length (pushed s)) + Z.of_nat cap < max_tickets cap k ->
  step (AProducer i spurious) s = Some s' ->
  forall j, producers s' !! j = Some (PIdle (Some (Err e))) -> producers s !! j <> producers s' !! j ->
  match e with
  | PushFull => occupied s = cap
  | PushClosed => is_closed (queue s) = true
  end.
Proof.
  intros Hi Hmax Hs j Hj Hne. cbn [step] in Hs.
  destruct (inv_counts cap k d s Hi) as (_ & Hocc & _). pose proof (g_cap (cap := cap) (k := k)).
  destruct (producers s !! i) as [pr|] eqn:Hp; [|by simplify_eq].
  destruct (push_step_inv cap k spurious d s i pr Hi Hp Hmax) as (q' & pr' & m & E & Hpost & _).
  rewrite E in Hs. cbn in Hs. simplify_eq. cbn [producers] in Hj, Hne.
  apply list_lookup_insert_Some in Hj as Hj'. destruct Hj' as [(<- & -> & _)|[Hij Hj']];
    [|by rewrite Hj' in Hne].
  destruct pr; cbn in E; repeat (case_match || apply bind_Some in E as (? & _ & E)); simplify_eq;
    cbn in Hpost.
  1,2: by rewrite Hj, Hp in Hne.
  - lia.
  - done.
Qed.

(** The holder of the position at the head of the queue. *)
Lemma holder_pushing cap k `{!Geometry cap k} d s last :
  inv cap k d s -> consumer s = CIdle last ->
  (exists i pr, producers s !! i = Some pr /\ holding pr = Some (enc cap k d)) ->
  exists i msg, pushed s !! length (popped s) = Some msg /\ pushing_at s i (dequeue_pos (queue s)) msg.
Proof.
  intros Hi Hc (i & pr & Hpr & Hh). pose proof (iv_prods _ _ _ _ Hi i pr Hpr) as Hok.
  destruct (inv_counts cap k d s Hi) as (-> & _ & _). rewrite Hc. cbn [taken]. rewrite (iv_dequeue _ _ _ _ Hi).
  destruct pr as [| | | |msg pos st|pos st]; cbn in Hh; simplify_eq; cbn in Hok.
  - destruct Hok as (p & _ & <-%(enc_inj cap k) & _ & Hm & _). exists i, msg. split; [done|left]. by exists st.
  - destruct Hok as (p & m & _ & <-%(enc_inj cap k) & _ & Hm & Hat). exists i, m. split; [done|right].
    exists st. eexists. split; [done|]. rewrite (slot_index_enc cap k) by apply Hi. split; [exact Hat|done].
Qed.

(** The results of the consumer. *)
Lemma pop_result cap k `{!Geometry cap k} d s s' :
  inv cap k d s -> Z.of_nat (length (pushed s)) + Z.of_nat cap < max_tickets cap k ->
  step AConsumer s = Some s' -> consumer s <> consumer s' ->
  (consumer s' = CIdle (Some (Err PopClosed)) -> is_closed (queue s) = true /\ popped s = pushed s) /\
  (forall pos, consumer s' = CClosed pos -> popped s = pushed s \/
     exists i msg, pushed s !! length (popped s) = Some msg /\ pushing_at s i (dequeue_pos (queue s)) msg).
Proof.
  intros Hi Hmax Hs Hne.
  destruct (pop_step_inv cap k d s Hi Hmax) as (q' & c' & m & d' & E & Hpost & _ & _).
  cbn [step] in Hs. rewrite E in Hs. cbn in Hs. simplify_eq. cbn [consumer] in Hne |- *.
  pose proof (iv_popped _ _ _ _ Hi) as Hpop.
  assert (taken (consumer s) d = length (pushed s) -> popped s = pushed s) as Hall
    by (rewrite Hpop; intros ->; by rewrite firstn_all).
  revert Hpost Hne E Hall.
  destruct (consumer s) as [| | |p|b|b] eqn:Hco; cbn; unfold drop_vacate, drop_release; intros Hpost Hne E Hall;
    repeat (case_match || apply bind_Some in E as (? & _ & E)); simplify_eq; split; try done;
    intros; simplify_eq; cbn in Hpost.
  - destruct Hpost as [Hd|Hh]; [left; auto|right]. by eapply holder_pushing.
  - destruct Hpost as [? ?]. auto.
Qed.

Lemma push_results cap k `{!Geometry cap k} d s a s' i e :
  inv cap k d s -> Z.of_nat (length (pushed s)) + Z.of_nat cap < max_tickets cap k ->
  step a s = Some s' -> producers s' !! i = Some (PIdle (Some (Err e))) ->
  producers s !! i <> producers s' !! i ->
  match e with PushFull => occupied s = cap | PushClosed => is_closed (queue s) = true end.
Proof.
  intros Hinv Hmax Hstep Hi Hne. destruct a as [j m|j spurious| |].
  - cbn in Hstep. destruct (producers s !! j) as [[]|] eqn:Hj; simplify_eq; try done.
    cbn in Hi, Hne. apply list_lookup_insert_Some in Hi as Hi'. destruct Hi' as [(_ & ? & _)|[_ Hi']]; [done|].
    by rewrite Hi, Hi' in Hne.
  - eapply push_result; eauto.
  - cbn in Hstep. apply bind_Some in Hstep as ([[? ?] ?] & _ & ?). by simplify_eq.
  - cbn in Hstep. by simplify_eq.
Qed.

Lemma consumer_changes (a : Action M) s s' : step a s = Some s' -> consumer s <> consumer s' -> a = AConsumer.
Proof.
  intros Hstep Hne. destruct a as [j m|j spurious| |]; [| |done|]; cbn in Hstep.
  - destruct (producers s !! j) as [[]|]; by simplify_eq.
  - destruct (producers s !! j); [|by simplify_eq]. apply bind_Some in Hstep as ([[? ?] ?] & _ & ?). by simplify_eq.
  - by simplify_eq.
Qed.

(** C18: the results returned under any interleaving of up to [2 ^ 60] accesses, for every capacity up to
    [2 ^ 61].  A producer reports [Full]
    only when [capacity] slots are occupied and [Closed] only when the queue is
    closed.  The consumer reports [Closed] only when the queue is closed and
    every message has been popped, and it finds no message only when there is
    none or when the producer of precisely the oldest message, the one at the position where
    the consumer looks for it, has not completed its [push].
    No message enters the queue once it is closed, and it stays closed. *)
Theorem mpsc_results capacity n sched s a :
  1 <= capacity <= 2 ^ 61 -> exec capacity n sched = Some s -> Z.of_nat (length sched) < 2 ^ 60 ->
  exists s', step a s = Some s' /\
    (forall i, producers s' !! i = Some (PIdle (Some (Err PushFull))) ->
       producers s !! i <> producers s' !! i -> Z.of_nat (occupied s) = capacity) /\
    (forall i, producers s' !! i = Some (PIdle (Some (Err PushClosed))) ->
       producers s !! i <> producers s' !! i -> is_closed (queue s) = true) /\
    (consumer s' = CIdle (Some (Err PopClosed)) -> consumer s <> consumer s' ->
       is_closed (queue s) = true /\ popped s = pushed s) /\
    (forall pos, consumer s' = CClosed pos -> consumer s <> consumer s' ->
       popped s = pushed s \/
       exists i msg, pushed s !! length (popped s) = Some msg /\ pushing_at s i (dequeue_pos (queue s)) msg) /\
    (is_closed (queue s) = true -> is_closed (queue s') = true /\ pushed s' = pushed s).
Proof.
  intros Hc' He Hs'. assert (1 <= capacity <= 2 ^ 62) as Hc by lia.
  pose proof (schedule_bound capacity Hc _ (proj2 Hc') Hs') as Hs.
  destruct (reached capacity n sched s 0 Hc He) as (d & G & Hinv & Hmax); [lia|done|].
  set (cap := Z.to_nat capacity) in *. set (k := Z.log2_up capacity) in *. rewrite Z.add_0_r in Hmax.
  destruct (step_inv cap k a d s Hinv Hmax) as (s' & d' & Hstep & _). exists s'. split; [done|]. split_and!.
  - intros i Hi Hne. pose proof (push_results cap k d s a s' i _ Hinv Hmax Hstep Hi Hne) as Hocc. cbn in Hocc. lia.
  - intros i Hi Hne. exact (push_results cap k d s a s' i _ Hinv Hmax Hstep Hi Hne).
  - intros Hi Hne. pose proof (consumer_changes a s s' Hstep Hne) as ->.
    by apply (pop_result cap k d s s').
  - intros pos Hi Hne. pose proof (consumer_changes a s s' Hstep Hne) as ->.
    by eapply (pop_result cap k d s s').
  - intros Hcl. by apply (closed_stable cap k d s a).
Qed.

(** Index and sequence count of an enqueue position, closed or not. *)
Lemma pos_parts cap k `{!Geometry cap k} p x :
  Z.of_nat p < max_tickets cap k -> x = enc cap k p \/ x = enc cap k p + 2 ^ k ->
  Z.land x (Z.shiftr (2 ^ (k + 1) - 1) 1) = Z.of_nat (p `mod` cap)%nat /\
  Z.land x (not64 (2 ^ (k + 1) - 1)) = Z.of_nat (p `div` cap)%nat * 2 ^ (k + 1).
Proof.
  intros Hp Hx. pose proof (pow_k_pos cap k). pose proof (pow_succ_k cap k).
  pose proof (g_k (cap := cap) (k := k)). pose proof (g_pow (cap := cap) (k := k)).
  pose proof (mod_cap cap p (g_cap (cap := cap) (k := k))).
  destruct (enc_bound cap k p Hp) as [? ?]. assert (2 ^ k <= 2 ^ 62) by (apply Z.pow_le_mono_r; lia).
  rewrite (land_not_right cap k) by lia.
  assert (Z.shiftr (2 ^ (k + 1) - 1) 1 = Z.ones k) as ->.
  { rewrite Z.shiftr_div_pow2, Z.ones_equiv by lia. change (2 ^ 1) with 2.
    symmetry. apply (Z.div_unique_pos _ _ _ 1); lia. }
  rewrite Z.land_ones by lia. unfold enc in Hx.
  set (a := Z.of_nat (p `div` cap)%nat) in *. set (b := Z.of_nat (p `mod` cap)%nat) in *.
  split.
  - symmetry. destruct Hx as [-> | ->].
    + apply (Z.mod_unique_pos _ _ (2 * a)); lia.
    + apply (Z.mod_unique_pos _ _ (2 * a + 1)); lia.
  - f_equal. symmetry. destruct Hx as [-> | ->].
    + apply (Z.div_unique_pos _ _ _ b); lia.
    + apply (Z.div_unique_pos _ _ _ (b + 2 ^ k)); lia.
Qed.

(** The length reported to the observers of a mailbox is the number of
    messages whose position was reserved and that were not consumed yet; it is
    at most the capacity. *)
Theorem len_spec capacity n sched s :
  1 <= capacity <= 2 ^ 62 -> exec capacity n sched = Some s ->
  Z.of_nat (length sched) + capacity < max_messages capacity ->
  (forall idx st, consumer s <> CTake idx st) ->
  len (queue s) = Some (Z.of_nat (length (pushed s)) - Z.of_nat (length (popped s))) /\
  0 <= Z.of_nat (length (pushed s)) - Z.of_nat (length (popped s)) <= capacity.
Proof.
  intros Hc He Hs Hct. destruct (reached capacity n sched s 0 Hc He) as (d & G & Hinv & Hmax); [lia|done|].
  set (cap := Z.to_nat capacity) in *. set (k := Z.log2_up capacity) in *. rewrite Z.add_0_r in Hmax.
  destruct (inv_counts cap k d s Hinv) as (-> & _ & _). pose proof (iv_order _ _ _ _ Hinv) as Ho.
  assert (taken (consumer s) d = d) as ->
    by (destruct (consumer s) as [| |idx st| | |]; try done; by destruct (Hct idx st)).
  assert (released (consumer s) d <= d)%nat by (destruct (consumer s); cbn; lia). set (e := length (pushed s)) in *.
  pose proof (iv_shape _ _ _ _ Hinv) as Hsh. split; [|lia].
  unfold len. rewrite (sh_right _ _ _ Hsh), (sh_length _ _ _ Hsh).
  destruct (pos_parts cap k e (enqueue_pos (queue s))) as [-> ->]; [lia|apply (iv_enqueue _ _ _ _ Hinv)|].
  destruct (pos_parts cap k d (dequeue_pos (queue s))) as [-> ->];
    [lia|left; apply (iv_dequeue _ _ _ _ Hinv)|].
  pose proof (pow_k_pos cap k). pose proof (pow_succ_k cap k). pose proof (g_cap (cap := cap) (k := k)).
  pose proof (Nat.div_mod_eq e cap). pose proof (Nat.div_mod_eq d cap).
  pose proof (mod_cap cap e ltac:(done)). pose proof (mod_cap cap d ltac:(done)).
  assert (2 ^ k <= 2 ^ 62) by (apply Z.pow_le_mono_r; [lia|apply (g_k (cap := cap))]).
  pose proof (g_pow (cap := cap) (k := k)).
  set (ae := (e `div` cap)%nat) in *. set (be := (e `mod` cap)%nat) in *.
  set (ad := (d `div` cap)%nat) in *. set (bd := (d `mod` cap)%nat) in *.
  assert (ae = ad \/ ae = S ad) as Hae by nia. unfold checked_add, u64_max.
  destruct (Z.eqb_spec (Z.of_nat ae * 2 ^ (k + 1)) (Z.of_nat ad * 2 ^ (k + 1))) as [E|E]; cbn [negb Z.b2z].
  - assert (ae = ad) by nia. rewrite Z.mul_0_l, Z.add_0_r.
    rewrite (proj2 (Z.leb_le _ _)) by lia. cbn. rewrite (proj2 (Z.leb_le _ _)) by nia. f_equal. nia.
  - assert (ae = S ad) by nia. rewrite Z.mul_1_l.
    rewrite (proj2 (Z.leb_le _ _)) by lia. cbn. rewrite (proj2 (Z.leb_le _ _)) by nia. f_equal. nia.
Qed.
End Claims.

(** ** A concrete interleaving

    Two producers race for a queue with two slots: the second one reserves its
    position first and is preempted, the first one completes. *)
Definition race : list (Action Z) :=
  [AStart 0%nat 10; AStart 1%nat 11; AProducer 0%nat false; AProducer 1%nat false; AProducer 0%nat false;
   AProducer 1%nat false; AProducer 1%nat false; AProducer 0%nat false; AProducer 0%nat false;
   AProducer 0%nat false; AProducer 0%nat false; AProducer 0%nat false].

Definition race_state : Sys Z :=
  match exec 2 2 race with Some s => s | None => mkSys (mkQueue 0 0 [] 0 0) [] (CIdle None) [] [] end.

Example race_state_ok :
  exec 2 2 race = Some race_state /\ pushed race_state = [11; 10] /\
  producers race_state = [PIdle (Some (Ok tt)); PWrite 11 0 0].
Proof. vm_compute. auto. Qed.

Lemma mpsc_fifo_witness :
  exists s, exec 2 2 race = Some s /\ popped s `prefix_of` pushed s /\ Z.of_nat (occupied s) <= 2.
Proof. apply (mpsc_fifo 2 2 race); [lia|vm_compute; reflexivity]. Defined.

Lemma push_alone_witness :
  exists s', run (AStart 0%nat 12 :: replicate 5 (AProducer 0%nat false)) race_state = Some s' /\
    producers s' !! 0%nat = Some (PIdle (Some (Err PushFull))) /\ pushed s' = pushed race_state.
Proof.
  destruct (push_alone 2 2 race race_state 0 (Some (Ok tt)) 12) as (s' & E & Hres & Hp);
    [lia|apply race_state_ok|vm_compute; reflexivity|vm_compute; reflexivity|].
  exists s'. split; [exact E|]. split; [exact Hres|]. rewrite Hp. apply app_nil_r.
Defined.

Definition settled_state : Sys Z :=
  match exec 2 2 (race ++ [AProducer 1%nat false; AProducer 1%nat false]) with
  | Some s => s | None => race_state end.

Lemma pop_alone_witness :
  exists j s', (j <= 5)%nat /\ run (replicate j AConsumer) settled_state = Some s' /\
    consumer s' = CIdle (Some (Ok tt)) /\ popped s' = [11].
Proof.
  destruct (pop_alone 2 2 (race ++ [AProducer 1%nat false; AProducer 1%nat false]) settled_state None)
    as (j & s' & Hj & E & _ & Hres);
    [lia|vm_compute; reflexivity|vm_compute; reflexivity|vm_compute; reflexivity| |].
  - intros i pr. do 2 (destruct i as [|i]; [vm_compute; intros [= <-]; reflexivity|]). vm_compute. intros [=].
  - vm_compute in Hres. exists j, s'. split; [exact Hj|]. split; [exact E|]. exact Hres.
Defined.

(** The consumer looks for a message that producer 1 is still writing. *)
Lemma mpsc_results_witness :
  exists s' i msg, step AConsumer race_state = Some s' /\ consumer s' = CClosed 0 /\
    pushed race_state !! length (popped race_state) = Some msg /\ pushing_at race_state i 0 msg.
Proof.
  destruct (mpsc_results 2 2 race race_state AConsumer) as (s' & E & _ & _ & _ & H & _);
    [lia|apply race_state_ok|vm_compute; reflexivity|].
  assert (consumer <$> step AConsumer race_state = Some (CClosed 0)) as Ec by (vm_compute; reflexivity).
  rewrite E in Ec. apply (inj Some) in Ec.
  destruct (H 0 Ec) as [Hp|(i & msg & Hm & Hi)].
  - rewrite Ec. vm_compute. discriminate.
  - vm_compute in Hp. discriminate Hp.
  - exists s', i, msg. split; [exact E|]. split; [exact Ec|]. split; [exact Hm|exact Hi].
Defined.

Lemma len_spec_witness : len (queue race_state) = Some 2.
Proof.
  destruct (len_spec 2 2 race race_state) as [E _];
    [lia|apply race_state_ok|vm_compute; reflexivity|vm_compute; intros ?? [=]|].
  rewrite E. vm_compute. reflexivity.
Defined.
