(* ===== verification/Channel.v ===== *)
(** * Mailboxes: [channel.rs]

    Sending and receiving on top of the mailbox queue ([ChannelQueue]), whose
    [push] and [pop] are seen here as atomic.  A sender that finds the queue full
    waits on an [Event] and the receiver that finds it empty on a
    [DiatomicWaker]; these are third-party primitives, of which the code relies
    on [wait_until] either succeeding or registering the waiter without missing a
    notification, on [notify_one] waking one waiter if there is any, on [notify]
    and [notify_all], and on a waiter that is dropped after it was notified passing the
    notification on to another one.  The future of a call of [send] can be dropped as long as
    it has not pushed its message.  The slot of a message is free again when the
    message is dropped, after its closure has been called. *)

From S2P Require Import Prelude.
Local Open Scope Z_scope.

Module Channel.

(** Program points of [Sender::send]. *)
Inductive SenderPc (M : Type) : Type :=
  | SStart (msg : M)                    (** about to check the queue *)
  | SParked (msg : M)                   (** waiting *)
  | SNotified (msg : M)                 (** notified, to be polled *)
  | SPushed                             (** [receiver_signal.notify()] *)
  | SSignalled                          (** update of [THREAD_MSG_COUNT] *)
  | SOk | SErr
  | SCancelled.                         (** the future was dropped *)
#[global] Arguments SStart {_} _.
#[global] Arguments SParked {_} _.
#[global] Arguments SNotified {_} _.
#[global] Arguments SPushed {_}.
#[global] Arguments SSignalled {_}.
#[global] Arguments SOk {_}.
#[global] Arguments SErr {_}.
#[global] Arguments SCancelled {_}.

(** Program points of the loop that calls [Receiver::recv]. *)
Inductive ReceiverPc (M : Type) : Type :=
  | RStart | RParked | RNotified
  | RGot (msg : M)                      (** update of [THREAD_MSG_COUNT] *)
  | RCall (msg : M)                     (** [call_once] *)
  | RDrop                               (** drop of the message *)
  | RSignal                             (** [sender_signal.notify_one()] *)
  | RAwait                              (** the future of the message *)
  | RErr                                (** [RecvError] *)
  | RGone.                              (** the receiver was dropped *)
#[global] Arguments RStart {_}.
#[global] Arguments RParked {_}.
#[global] Arguments RNotified {_}.
#[global] Arguments RGot {_} _.
#[global] Arguments RCall {_} _.
#[global] Arguments RDrop {_}.
#[global] Arguments RSignal {_}.
#[global] Arguments RAwait {_}.
#[global] Arguments RErr {_}.
#[global] Arguments RGone {_}.

(** Program points of [Sender::close], [Receiver::close] and the drop handler,
    after the queue has been closed. *)
Inductive ClosePc : Type := CNotify | CNotifyAll | CDone.

Record Chan (M : Type) : Type := mkChan {
  capacity : nat;
  queue : list M;
  closed : bool;
  senders : list (SenderPc M);
  receiver : ReceiverPc M;
  closers : list ClosePc;
  msg_count : Z;                        (** sum of [THREAD_MSG_COUNT] over the threads *)
  accepted : list M;                    (** history: messages pushed *)
  executed : list M }.                  (** history: messages called *)
#[global] Arguments mkChan {_} _ _ _ _ _ _ _ _ _.
#[global] Arguments capacity {_} _.
#[global] Arguments queue {_} _.
#[global] Arguments closed {_} _.
#[global] Arguments senders {_} _.
#[global] Arguments receiver {_} _.
#[global] Arguments closers {_} _.
#[global] Arguments msg_count {_} _.
#[global] Arguments accepted {_} _.
#[global] Arguments executed {_} _.

Inductive Action (M : Type) : Type :=
  | ASend (msg : M)                     (** new call of [send] *)
  | ASender (i : nat)                   (** poll, or next access, of a call of [send] *)
  | ACancel (i j : nat)                 (** drop of a call of [send]; [j]: the sender notified instead *)
  | AReceiver (j : nat)                 (** the same for the receiver; [j]: the sender notified *)
  | ACloseSender | ACloseReceiver | ADropReceiver
  | ACloser (i : nat).
#[global] Arguments ASend {_} _.
#[global] Arguments ASender {_} _.
#[global] Arguments ACancel {_} _ _.
#[global] Arguments AReceiver {_} _.
#[global] Arguments ACloseSender {_}.
#[global] Arguments ACloseReceiver {_}.
#[global] Arguments ADropReceiver {_}.
#[global] Arguments ACloser {_} _.

Section Defs.
Context {M : Type}.
Implicit Types c : Chan M.

Definition new (capacity : nat) : Chan M := mkChan capacity [] false [] RStart [] 0 [] [].

Definition set_senders (l : list (SenderPc M)) c : Chan M :=
  mkChan (capacity c) (queue c) (closed c) l (receiver c) (closers c) (msg_count c) (accepted c) (executed c).
Definition set_receiver (r : ReceiverPc M) c : Chan M :=
  mkChan (capacity c) (queue c) (closed c) (senders c) r (closers c) (msg_count c) (accepted c) (executed c).
Definition set_closers (l : list ClosePc) c : Chan M :=
  mkChan (capacity c) (queue c) (closed c) (senders c) (receiver c) l (msg_count c) (accepted c) (executed c).
Definition set_closed c : Chan M :=
  mkChan (capacity c) (queue c) true (senders c) (receiver c) (closers c) (msg_count c) (accepted c) (executed c).
Definition add_count (d : Z) c : Chan M :=
  mkChan (capacity c) (queue c) (closed c) (senders c) (receiver c) (closers c) (msg_count c + d) (accepted c) (executed c).
Definition push (m : M) c : Chan M :=
  mkChan (capacity c) (queue c ++ [m]) (closed c) (senders c) (receiver c) (closers c) (msg_count c) (accepted c ++ [m]) (executed c).
Definition pop (q : list M) c : Chan M :=
  mkChan (capacity c) q (closed c) (senders c) (receiver c) (closers c) (msg_count c) (accepted c) (executed c).
Definition call (m : M) c : Chan M :=
  mkChan (capacity c) (queue c) (closed c) (senders c) (receiver c) (closers c) (msg_count c) (accepted c) (executed c ++ [m]).

(** The slot of a message that was popped is occupied until it is dropped. *)
Definition borrowed (r : ReceiverPc M) : nat := match r with RGot _ | RCall _ | RDrop => 1 | _ => 0 end.
Definition full c : bool := (capacity c <=? length (queue c) + borrowed (receiver c))%nat.

(** ** Signals *)
Definition notify_receiver c : Chan M :=
  match receiver c with RParked => set_receiver RNotified c | _ => c end.

Definition wake (p : SenderPc M) : SenderPc M := match p with SParked m => SNotified m | p => p end.
Definition is_parked (p : SenderPc M) : bool := match p with SParked _ => true | _ => false end.
Definition notify_all c : Chan M := set_senders (wake <$> senders c) c.

(** One of the waiting senders, if there is any: the [j]-th one or else the
    first one found. *)
Definition pick (j : nat) (l : list (SenderPc M)) : option nat :=
  match l !! j with
  | Some (SParked _) => Some j
  | _ => fst <$> list_find (fun p => is_parked p = true) l
  end.
Definition notify_one (j : nat) c : Chan M :=
  match pick j (senders c) with Some i => set_senders (alter wake i (senders c)) c | None => c end.

(** ** Sending and receiving *)
Definition sender_step (i : nat) (p : SenderPc M) c : Chan M :=
  let goto p c := set_senders (<[i := p]> (senders c)) c in
  match p with
  | SStart m | SParked m | SNotified m =>
      if closed c then goto SErr c
      else if full c then goto (SParked m) c
      else goto SPushed (push m c)
  | SPushed => goto SSignalled (notify_receiver c)
  | SSignalled => goto SOk (add_count 1 c)
  | SOk | SErr | SCancelled => c
  end.

(** The future of [send] is dropped before its message is pushed. *)
Definition cancel_send (i j : nat) c : Chan M :=
  let c' := set_senders (<[i := SCancelled]> (senders c)) c in
  match senders c !! i with
  | Some (SStart _) | Some (SParked _) => c'
  | Some (SNotified _) => notify_one j c'
  | _ => c
  end.

Definition receiver_step (j : nat) c : Chan M :=
  match receiver c with
  | RStart | RParked | RNotified =>
      match queue c with
      | m :: q => set_receiver (RGot m) (pop q c)
      | [] => if closed c then set_receiver RErr c else set_receiver RParked c
      end
  | RGot m => set_receiver (RCall m) (add_count (-1) c)
  | RCall m => set_receiver RDrop (call m c)
  | RDrop => set_receiver RSignal c
  | RSignal => set_receiver RAwait (notify_one j c)
  | RAwait => set_receiver RStart c
  | RErr | RGone => c
  end.

(** The receiver can be closed between two calls of [recv]; it is dropped then or
    while a future waits. *)
Definition can_close (r : ReceiverPc M) : bool := match r with RStart | RErr => true | _ => false end.
Definition can_drop (r : ReceiverPc M) : bool :=
  match r with RStart | RParked | RNotified | RAwait | RErr => true | _ => false end.

Definition close_sender c : Chan M := set_closers (closers c ++ [CNotify]) (set_closed c).
Definition close_receiver c : Chan M :=
  if can_close (receiver c) && negb (closed c) then set_closers (closers c ++ [CNotifyAll]) (set_closed c) else c.
Definition drop_receiver c : Chan M :=
  if can_drop (receiver c) then set_closers (closers c ++ [CNotifyAll]) (set_receiver RGone (set_closed c)) else c.
(** The rest of these three, once the queue is closed. *)
Definition closer_step (i : nat) c : Chan M :=
  match closers c !! i with
  | Some CNotify => set_closers (<[i := CNotifyAll]> (closers c)) (notify_receiver c)
  | Some CNotifyAll => set_closers (<[i := CDone]> (closers c)) (notify_all c)
  | _ => c
  end.

Definition step (a : Action M) c : Chan M :=
  match a with
  | ASend m => set_senders (senders c ++ [SStart m]) c
  | ASender i => match senders c !! i with Some p => sender_step i p c | None => c end
  | ACancel i j => cancel_send i j c
  | AReceiver j => receiver_step j c
  | ACloseSender => close_sender c
  | ACloseReceiver => close_receiver c
  | ADropReceiver => drop_receiver c
  | ACloser i => closer_step i c
  end.

Fixpoint run (sched : list (Action M)) c : Chan M :=
  match sched with [] => c | a :: sched => run sched (step a c) end.
End Defs.

(** ** Invariant *)
Section Facts.
Context {M : Type}.
Implicit Types c : Chan M.

Definition notified (p : SenderPc M) : Z := match p with SNotified _ => 1 | _ => 0 end.
Definition uncounted (p : SenderPc M) : Z := match p with SPushed | SSignalled => 1 | _ => 0 end.
Definition signalling (r : ReceiverPc M) : Z := match r with RSignal => 1 | _ => 0 end.
Definition got (r : ReceiverPc M) : Z := match r with RGot _ => 1 | _ => 0 end.
Definition in_hand (r : ReceiverPc M) : list M := match r with RGot m | RCall m => [m] | _ => [] end.
Definition parked c : Prop := exists i m, senders c !! i = Some (SParked m).
Definition closing c : Prop := CNotify ∈ closers c \/ CNotifyAll ∈ closers c.
Definition free_slots c : Z := Z.of_nat (capacity c) - Z.of_nat (length (queue c) + borrowed (receiver c)).

Record inv c : Prop := {
  inv_capacity : 0 <= free_slots c;
  inv_closed : closed c = true -> closing c \/ ~ parked c;
  inv_free : closed c = false -> parked c -> free_slots c <= zsum notified (senders c) + signalling (receiver c);
  inv_receiver : receiver c = RParked -> (queue c = [] /\ closed c = false) \/ SPushed ∈ senders c \/ CNotify ∈ closers c;
  inv_count : msg_count c = Z.of_nat (length (queue c)) + got (receiver c) - zsum uncounted (senders c);
  inv_fifo : accepted c = executed c ++ in_hand (receiver c) ++ queue c }.

Lemma full_spec c : full c = false <-> 0 < free_slots c.
Proof. unfold full, free_slots. rewrite Nat.leb_gt. lia. Qed.

Lemma parked_insert c c' i p : parked c' -> senders c' = <[i := p]> (senders c) -> is_parked p = false -> parked c.
Proof.
  intros (j & m & Hj) Hs Hp. rewrite Hs in Hj. apply list_lookup_insert_Some in Hj as [(_ & -> & _)|[_ Hj]]; [done|].
  by exists j, m.
Qed.

(** The parts of a state after one sender has moved. *)
Ltac open_inv Hp := split; cbn [capacity queue closed senders receiver closers msg_count accepted executed
  set_senders set_receiver set_closers set_closed add_count push pop call]; rewrite ?(zsum_insert _ _ _ _ _ Hp);
  cbn [notified uncounted signalling got in_hand].

(** A sender checks the queue. *)
Lemma poll_inv c i p m : inv c -> senders c !! i = Some p -> uncounted p = 0 -> p <> SPushed ->
  p = SStart m \/ p = SParked m \/ p = SNotified m -> inv (sender_step i p c).
Proof.
  intros [Hcap Hcl Hfree Hrecv Hcnt Hfifo] Hp Hu Hnp Hor.
  assert (sender_step i p c = if closed c then set_senders (<[i := SErr]> (senders c)) c
    else if full c then set_senders (<[i := SParked m]> (senders c)) c
    else set_senders (<[i := SPushed]> (senders c)) (push m c)) as -> by (destruct Hor as [-> | [-> | ->]]; done).
  assert (0 <= notified p <= 1) as Hn by (destruct p; cbn; lia).
  destruct (closed c) eqn:Ec; [|destruct (full c) eqn:Ef].
  - open_inv Hp; rewrite ?Hu; [done| |congruence| |lia|done].
    + intros _. destruct (Hcl eq_refl) as [|Hnp']; [by left|right]. intros Hpk. apply Hnp'.
      exact (parked_insert c _ i SErr Hpk eq_refl eq_refl).
    + intros Hr. destruct (Hrecv Hr) as [[? ?]|[?|?]]; [done| |auto]. right. left. by eapply elem_insert_ne.
  - assert (free_slots c = 0) as H0.
    { apply not_false_iff_true in Ef. rewrite full_spec in Ef. lia. }
    assert (0 <= zsum notified (<[i := SParked m]> (senders c))) as Hz by (apply zsum_nonneg; intros []; cbn; lia).
    rewrite (zsum_insert _ _ _ _ _ Hp) in Hz. cbn [notified] in Hz.
    assert (0 <= signalling (receiver c)) by (destruct (receiver c); cbn; lia).
    open_inv Hp; rewrite ?Hu; [done|congruence| | |lia|done].
    + intros _ _. change (free_slots (set_senders (<[i := SParked m]> (senders c)) c)) with (free_slots c). lia.
    + intros Hr. destruct (Hrecv Hr) as [[? ?]|[?|?]]; [by left| |auto]. right. left. by eapply elem_insert_ne.
  - apply full_spec in Ef. open_inv Hp; rewrite ?Hu.
    + unfold free_slots in *. cbn. rewrite length_app. cbn. lia.
    + congruence.
    + intros _ Hpk. assert (parked c) as Hpk' by (exact (parked_insert c _ i SPushed Hpk eq_refl eq_refl)). specialize (Hfree eq_refl Hpk').
      unfold free_slots in *. cbn. rewrite length_app. cbn. lia.
    + intros Hr. right. left. apply (list_elem_of_lookup_2 _ i). apply list_lookup_insert_eq. by eapply lookup_lt_Some.
    + rewrite length_app. cbn. lia.
    + rewrite Hfifo, <- !app_assoc. done.
Qed.

(** The receiver is notified. *)
Lemma pushed_inv c i : inv c -> senders c !! i = Some SPushed -> inv (sender_step i SPushed c).
Proof.
  intros [Hcap Hcl Hfree Hrecv Hcnt Hfifo] Hp. cbn [sender_step]. unfold notify_receiver.
  assert (forall r, borrowed r = borrowed (receiver c) -> got r = got (receiver c) -> signalling r = signalling (receiver c) ->
    in_hand r = in_hand (receiver c) -> r <> RParked ->
    inv (set_senders (<[i := SSignalled]> (senders c)) (set_receiver r c))) as H.
  { intros r Hb Hg Hs Hh Hr. open_inv Hp; rewrite ?Hg, ?Hs, ?Hh; [| | |done| |done].
    - unfold free_slots in *. cbn. rewrite Hb. lia.
    - intros Hc. destruct (Hcl Hc) as [|Hnp']; [by left|right]. intros Hpk. apply Hnp'. exact (parked_insert c _ i SSignalled Hpk eq_refl eq_refl).
    - intros Hc Hpk. assert (parked c) as Hpk' by (exact (parked_insert c _ i SSignalled Hpk eq_refl eq_refl)). specialize (Hfree Hc Hpk').
      unfold free_slots in *. cbn. rewrite Hb. lia.
    - lia. }
  destruct (receiver c) eqn:Er; try (rewrite <- Er in H; specialize (H (receiver c) eq_refl eq_refl eq_refl eq_refl); rewrite Er in H; 
    destruct c; cbn in *; subst; by apply H).
  by apply H.
Qed.

Lemma signalled_inv c i : inv c -> senders c !! i = Some SSignalled -> inv (sender_step i SSignalled c).
Proof.
  intros [Hcap Hcl Hfree Hrecv Hcnt Hfifo] Hp. cbn [sender_step]. open_inv Hp; [done| | | |lia|done].
  - intros Hc. destruct (Hcl Hc) as [|Hnp']; [by left|right]. intros Hpk. apply Hnp'. exact (parked_insert c _ i SOk Hpk eq_refl eq_refl).
  - intros Hc Hpk. assert (parked c) as Hpk' by (exact (parked_insert c _ i SOk Hpk eq_refl eq_refl)). specialize (Hfree Hc Hpk').
    unfold free_slots in *. cbn. lia.
  - intros Hr. destruct (Hrecv Hr) as [?|[?|?]]; [by left| |auto]. right. left. by eapply elem_insert_ne.
Qed.

Lemma sender_inv c i p : inv c -> senders c !! i = Some p -> inv (sender_step i p c).
Proof.
  intros Hi Hp. destruct p as [m|m|m| | | | |]; [eapply (poll_inv c i _ m); auto; done..|by apply pushed_inv|by apply signalled_inv|done|done|done].
Qed.

(** ** The receiver *)
Lemma pick_parked j (l : list (SenderPc M)) : (exists i m, l !! i = Some (SParked m)) ->
  exists i m, pick j l = Some i /\ l !! i = Some (SParked m).
Proof.
  intros (i & m & Hi). unfold pick.
  assert (exists i m, fst <$> list_find (fun p => is_parked p = true) l = Some i /\ l !! i = Some (SParked m)) as Hf.
  { destruct (list_find_elem_of (fun p => is_parked p = true) l (SParked m)) as [[k p] Hk]; [by eapply list_elem_of_lookup_2|done|].
    rewrite Hk. apply list_find_Some in Hk as (Hk & Hp & _). destruct p as [|m'| | | | | |]; try done. by exists k, m'. }
  destruct (l !! j) as [[]|] eqn:Ej; try done. by exists j, msg.
Qed.

Lemma alter_wake (l : list (SenderPc M)) i m : l !! i = Some (SParked m) -> alter wake i l = <[i := SNotified m]> l.
Proof.
  intros Hi. apply list_eq. intros j. destruct (decide (i = j)) as [->|Hne].
  - rewrite list_lookup_alter_eq, Hi, list_lookup_insert_eq; [done|by eapply lookup_lt_Some].
  - by rewrite list_lookup_alter_ne, list_lookup_insert_ne.
Qed.

(** One of the senders that wait is notified, if there is any. *)
Lemma notify_one_cases j c : (~ parked c /\ notify_one j c = c) \/
  parked c /\ exists i m, senders c !! i = Some (SParked m) /\ notify_one j c = set_senders (<[i := SNotified m]> (senders c)) c.
Proof.
  destruct (decide (Exists (fun p => is_parked p = true) (senders c))) as [Hex|Hnex].
  - right. assert (parked c) as Hpk.
    { apply Exists_exists in Hex as (p & Hp & Hpp). apply list_elem_of_lookup in Hp as [k Hk].
      destruct p as [|m| | | | | |]; try done. by exists k, m. }
    split; [done|]. destruct (pick_parked j (senders c) Hpk) as (i & m & Hpick & Hi). exists i, m. split; [done|].
    unfold notify_one. by rewrite Hpick, (alter_wake _ i m Hi).
  - left. assert (~ parked c) as Hn.
    { intros (k & m & Hk). apply Hnex. apply Exists_exists. exists (SParked m). split; [by eapply list_elem_of_lookup_2|done]. }
    split; [done|]. unfold notify_one, pick.
    assert (list_find (fun p => is_parked p = true) (senders c) = None) as ->.
    { apply list_find_None. apply Forall_forall. intros p Hp Hpk. apply Hnex, Exists_exists. by exists p. }
    destruct (senders c !! j) as [[]|] eqn:Ej; try done. exfalso. apply Hn. by exists j, msg.
Qed.

Lemma signal_inv j c : inv c -> receiver c = RSignal -> inv (set_receiver RAwait (notify_one j c)).
Proof.
  intros [Hcap Hcl Hfree Hrecv Hcnt Hfifo] Hr. rewrite Hr in *. cbn in *.
  destruct (notify_one_cases j c) as [[Hn ->]|(Hpk & i & m & Hi & ->)].
  - split; cbn; try done. unfold free_slots in *. cbn. rewrite Hr in Hcap. cbn in Hcap. lia.
  - open_inv Hi; [| | |done|lia|done].
    + unfold free_slots in *. cbn. rewrite Hr in Hcap. cbn in Hcap. lia.
    + intros Hc. destruct (Hcl Hc) as [|Hn]; [by left|done].
    + intros Hc _. specialize (Hfree Hc Hpk). unfold free_slots in *. cbn. rewrite Hr in Hfree. cbn in Hfree. lia.
Qed.

(** A call of [send] is cancelled: a notification that it got is not lost. *)
Lemma cancel_inv i j c : inv c -> inv (cancel_send i j c).
Proof.
  intros Hi. unfold cancel_send. destruct (senders c !! i) as [p|] eqn:Hp; [|done].
  set (c' := set_senders (<[i := SCancelled]> (senders c)) c).
  assert (parked c' -> parked c) as Hpk by (intros H; exact (parked_insert c c' i SCancelled H eq_refl eq_refl)).
  assert (notified p = 0 -> uncounted p = 0 -> inv c') as Hplain.
  { intros Hn Hu. destruct Hi as [Hcap Hcl Hfree Hrecv Hcnt Hfifo]. assert (p <> SPushed) by (by intros ->).
    unfold c' in *. open_inv Hp; rewrite ?Hn, ?Hu; [done| | | |lia|done].
    - intros Hc. destruct (Hcl Hc) as [|Hn']; [by left|right]. auto.
    - intros Hc Hpk'. specialize (Hfree Hc (Hpk Hpk')). unfold free_slots in *. cbn. lia.
    - intros Hr. destruct (Hrecv Hr) as [?|[?|?]]; [by left| |auto]. right. left. by eapply elem_insert_ne. }
  destruct p as [m|m|m| | | | |]; try done; [by apply Hplain..|].
  destruct Hi as [Hcap Hcl Hfree Hrecv Hcnt Hfifo].
  assert (forall p', SPushed ∈ senders c -> p' <> SPushed -> SPushed ∈ <[i := p']> (senders c)) as Hin by (intros p' H Hne; by eapply elem_insert_ne).
  destruct (notify_one_cases j c') as [[Hn ->]|(Hpk' & k & m' & Hk & ->)].
  - unfold c'. open_inv Hp; [done|by right|done| |lia|done].
    intros Hr. destruct (Hrecv Hr) as [?|[?|?]]; [by left| |auto]. right. left. by apply Hin.
  - change (senders c') with (<[i := SCancelled]> (senders c)) in *.
    assert (forall f, zsum f (<[k := SNotified m']> (<[i := SCancelled]> (senders c))) =
      zsum f (senders c) - f (SNotified m) + f SCancelled - f (SParked m') + f (SNotified m')) as Hz.
    { intros f. rewrite (zsum_insert _ _ _ _ _ Hk), (zsum_insert _ _ _ _ _ Hp). lia. }
    unfold c' in *. split; cbn [capacity queue closed senders receiver closers msg_count accepted executed set_senders]; rewrite ?Hz;
      cbn [notified uncounted]; [done| | | |lia|done].
    + intros Hc. destruct (Hcl Hc) as [|Hn']; [by left|]. by apply Hpk in Hpk'.
    + intros Hc _. specialize (Hfree Hc (Hpk Hpk')). unfold free_slots in *. cbn. lia.
    + intros Hr. destruct (Hrecv Hr) as [?|[?|?]]; [by left| |auto]. right. left. eapply elem_insert_ne; [exact Hk|done|by apply Hin].
Qed.

Ltac reduce := cbn [capacity queue closed senders receiver closers msg_count accepted executed
  set_senders set_receiver set_closers set_closed add_count push pop call].

(** Moves of the receiver that leave the senders as they are. *)
Lemma receiver_move_inv c r q d e : inv c -> r <> RParked \/ q = [] /\ closed c = false ->
  (length q + borrowed r <= length (queue c) + borrowed (receiver c))%nat ->
  signalling r - signalling (receiver c) =
    Z.of_nat (length (queue c) + borrowed (receiver c)) - Z.of_nat (length q + borrowed r) ->
  d = Z.of_nat (length q) + got r - Z.of_nat (length (queue c)) - got (receiver c) ->
  executed c ++ in_hand (receiver c) ++ queue c = (executed c ++ e) ++ in_hand r ++ q ->
  inv (mkChan (capacity c) q (closed c) (senders c) r (closers c) (msg_count c + d) (accepted c) (executed c ++ e)).
Proof.
  intros [Hcap Hcl Hfree Hrecv Hcnt Hfifo] Hr Hb Hs Hd He. unfold free_slots in *.
  split; unfold free_slots; reduce; [lia|exact Hcl| | |lia|congruence].
  - intros Hc Hpk. specialize (Hfree Hc Hpk). lia.
  - intros ->. destruct Hr as [Hr|Hr]; [done|by left].
Qed.

(** Splits the state and applies the previous lemma. *)
Ltac move_to Hi r d e :=
  lazymatch goal with Er : receiver ?c = _ |- _ =>
    pose proof (fun q => receiver_move_inv c r q d e Hi) as Hm; destruct c as [? ? ? ? ? ? ? ? ex]; cbn in *; subst;
    rewrite ?Z.add_0_r, ?app_nil_r in Hm; apply Hm; cbn; first [lia | by left | by right | by rewrite <- ?app_assoc, ?app_nil_r]
  end.

Lemma poll_receiver_inv c : inv c -> receiver c = RStart \/ receiver c = RParked \/ receiver c = RNotified ->
  inv (match queue c with
       | m :: q => set_receiver (RGot m) (pop q c)
       | [] => if closed c then set_receiver RErr c else set_receiver RParked c
       end).
Proof.
  intros Hi Hr. destruct (queue c) as [|m q] eqn:Eq; [destruct (closed c) eqn:Ec|]; destruct Hr as [Er|[Er|Er]].
  1-3: move_to Hi (@RErr M) 0 (@nil M).
  1-3: move_to Hi (@RParked M) 0 (@nil M).
  all: move_to Hi (RGot m) 0 (@nil M).
Qed.

Lemma receiver_inv j c : inv c -> inv (receiver_step j c).
Proof.
  intros Hi. pose proof (poll_receiver_inv c Hi) as Hp. unfold receiver_step. destruct (receiver c) eqn:Er; try done; auto.
  - move_to Hi (RCall msg) (-1) (@nil M).
  - move_to Hi (@RDrop M) 0 [msg].
  - move_to Hi (@RSignal M) 0 (@nil M).
  - by apply signal_inv.
  - move_to Hi (@RStart M) 0 (@nil M).
Qed.

(** ** Closing *)
Lemma set_receiver_same c : set_receiver (receiver c) c = c.
Proof. by destruct c. Qed.

(** Notifying the receiver keeps the invariant and leaves it off its signal. *)
Lemma notify_receiver_inv c : inv c -> inv (notify_receiver c) /\ receiver (notify_receiver c) <> RParked.
Proof.
  intros Hi. unfold notify_receiver. destruct (receiver c) eqn:Er; rewrite ?Er; try done.
  split; [|done]. move_to Hi (@RNotified M) 0 (@nil M).
Qed.

Lemma notify_receiver_senders c : senders (notify_receiver c) = senders c /\ closers (notify_receiver c) = closers c.
Proof. unfold notify_receiver. by destruct (receiver c). Qed.

Lemma wake_lookup (l : list (SenderPc M)) i m : (wake <$> l) !! i <> Some (SParked m).
Proof. rewrite list_lookup_fmap. by destruct (l !! i) as [[]|]. Qed.

Lemma zsum_wake (f : SenderPc M -> Z) l : (forall p, f (wake p) = f p) -> zsum f (wake <$> l) = zsum f l.
Proof. intros H. induction l as [|p l IH]; cbn; [done|]. by rewrite H, IH. Qed.

(** The list of closers changes. *)
Lemma closers_inv c l : inv c -> (closing c -> closing (set_closers l c) \/ ~ parked c) ->
  (CNotify ∈ closers c -> CNotify ∈ l \/ receiver c <> RParked) -> inv (set_closers l c).
Proof.
  intros [Hcap Hcl Hfree Hrecv Hcnt Hfifo] Hl Hn. split; reduce; try done.
  - intros Hc. destruct (Hcl Hc) as [H|H]; [|by right]. by apply Hl.
  - intros Hr. destruct (Hrecv Hr) as [?|[?|Hin]]; [by left|by right; left|]. destruct (Hn Hin); [by right; right|done].
Qed.

Lemma notify_all_inv c : inv c -> inv (notify_all c) /\ ~ parked (notify_all c).
Proof.
  intros [Hcap Hcl Hfree Hrecv Hcnt Hfifo].
  assert (~ parked (notify_all c)) as Hn by (intros (i & m & Hi); exact (wake_lookup _ _ _ Hi)).
  split; [|done]. split; [done|by right|done| | |done]; unfold notify_all; reduce.
  - intros Hr. destruct (Hrecv Hr) as [?|[Hin|?]]; [by left| |by right; right]. right; left.
    apply list_elem_of_fmap. by exists SPushed.
  - rewrite zsum_wake; [done|by intros []].
Qed.

(** The queue is closed, with the calls that notify still to come. *)
Lemma set_closed_inv c pc : inv c -> pc = CNotify \/ pc = CNotifyAll /\ receiver c <> RParked ->
  inv (set_closers (closers c ++ [pc]) (set_closed c)).
Proof.
  intros [Hcap Hcl Hfree Hrecv Hcnt Hfifo] Hpc. split; reduce; try done.
  - intros _. left. unfold closing. cbn. destruct Hpc as [-> | [-> _]]; set_solver.
  - intros Hr. destruct Hpc as [-> | [_ H]]; [|done]. right; right. set_solver.
Qed.

Lemma drop_inv c : inv c -> can_drop (receiver c) = true -> inv (set_receiver RGone c).
Proof.
  intros Hi Hd. destruct (receiver c) eqn:Er; try done; move_to Hi (@RGone M) 0 (@nil M).
Qed.

Lemma closer_inv c i pc : inv c -> closers c !! i = Some pc -> inv (closer_step i c).
Proof.
  intros Hi Hpc. unfold closer_step. rewrite Hpc. assert (i < length (closers c))%nat as Hlt by (by eapply lookup_lt_Some). destruct pc; [| |done].
  - destruct (notify_receiver_inv c Hi) as [Hi' Hr]. destruct (notify_receiver_senders c) as [_ Hcl].
    apply closers_inv; [done| |by right]. intros _. left. right. cbn. rewrite ?Hcl.
    apply (list_elem_of_lookup_2 _ i), list_lookup_insert_eq. done.
  - destruct (notify_all_inv c Hi) as [Hi' Hn]. apply closers_inv; [done|by right|].
    intros Hin. left. cbn in *. by eapply elem_insert_ne.
Qed.

Lemma send_inv c m : inv c -> inv (set_senders (senders c ++ [SStart m]) c).
Proof.
  intros [Hcap Hcl Hfree Hrecv Hcnt Hfifo].
  assert (parked (set_senders (senders c ++ [SStart m]) c) -> parked c) as Hp.
  { intros (i & m' & Hi). cbn in Hi. apply lookup_app_Some in Hi as [Hi|[_ Hi]]; [by exists i, m'|].
    by destruct (i - length (senders c))%nat as [|[]]. }
  split; reduce; rewrite ?zsum_app; cbn [zsum notified uncounted]; [done| | | |lia|done].
  - intros Hc. destruct (Hcl Hc); [by left|right; auto].
  - intros Hc Hpk. specialize (Hfree Hc (Hp Hpk)). unfold free_slots in *. reduce. lia.
  - intros Hr. destruct (Hrecv Hr) as [?|[?|?]]; [by left| |by right; right]. right; left. set_solver.
Qed.

Lemma chan_step_inv a c : inv c -> inv (step a c).
Proof.
  intros Hi. destruct a as [m|i|i j'|j| | | |i]; cbn [step].
  - by apply send_inv.
  - destruct (senders c !! i) eqn:E; [by apply sender_inv|done].
  - by apply cancel_inv.
  - by apply receiver_inv.
  - apply set_closed_inv; auto.
  - unfold close_receiver. destruct (can_close (receiver c)) eqn:E; [|done]. cbn. destruct (closed c); [done|]. apply set_closed_inv; [done|right].
    split; [done|]. intros H. by rewrite H in E.
  - unfold drop_receiver. destruct (can_drop (receiver c)) eqn:E; [|done].
    change (inv (set_closers (closers (set_receiver RGone c) ++ [CNotifyAll]) (set_closed (set_receiver RGone c)))).
    apply set_closed_inv; [by apply drop_inv|by right].
  - destruct (closers c !! i) eqn:E; [by eapply closer_inv|]. unfold closer_step. by rewrite E.
Qed.

Lemma chan_run_inv sched c : inv c -> inv (run sched c).
Proof. revert c. induction sched as [|a sched IH]; intros c Hi; [done|]. by apply IH, chan_step_inv. Qed.

Lemma chan_new_inv capacity : inv (new capacity).
Proof. split; cbn; try done; [unfold free_slots; cbn; lia|]. intros _ (i & m & Hi). done. Qed.

Lemma step_capacity a c : capacity (step a c) = capacity c.
Proof.
  destruct a as [m|i|i j'|j| | | |i]; cbn [step];
    unfold sender_step, cancel_send, receiver_step, close_receiver, drop_receiver, closer_step, notify_receiver, notify_one;
    repeat (reduce; done || case_match).
Qed.

Lemma run_capacity sched c : capacity (run sched c) = capacity c.
Proof. revert c. induction sched as [|a sched IH]; intros c; [done|]. cbn. by rewrite IH, step_capacity. Qed.

(** ** Quiescent channels *)
Definition settled (p : SenderPc M) : bool := match p with SParked _ | SOk | SErr | SCancelled => true | _ => false end.
Definition idle (r : ReceiverPc M) : bool := match r with RParked | RAwait | RErr | RGone => true | _ => false end.

(** No call can move before something else happens: every sender has returned or
    waits, every call of [close] has returned, and the receiver waits for a
    message, for the future of a message, or is done. *)
Definition quiescent c : Prop :=
  Forall (fun p => settled p = true) (senders c) /\ Forall (fun pc => pc = CDone) (closers c) /\ idle (receiver c) = true.

Lemma zsum_settled (f : SenderPc M -> Z) l : (forall p, settled p = true -> f p = 0) ->
  Forall (fun p => settled p = true) l -> zsum f l = 0.
Proof. intros Hf. induction 1 as [|p l Hp _ IH]; [done|]. cbn [zsum]. rewrite (Hf p Hp). lia. Qed.

Lemma quiescent_facts c : inv c -> quiescent c ->
  (parked c -> closed c = false /\ full c = true) /\ (receiver c = RParked -> queue c = [] /\ closed c = false) /\
  msg_count c = Z.of_nat (length (queue c)).
Proof.
  intros [Hcap Hcl Hfree Hrecv Hcnt Hfifo] (Hs & Hc & Hr).
  assert (forall pc, pc <> CDone -> pc ∉ closers c) as Hnc.
  { intros pc Hne Hin. apply Hne. by eapply Forall_forall in Hc. }
  rewrite (zsum_settled uncounted) in Hcnt; [|by intros []|done]. split; [|split].
  - intros Hpk. assert (closed c = false) as Ec.
    { apply not_true_iff_false. intros Ec. destruct (Hcl Ec) as [[H|H]|H]; [by apply Hnc in H..|done]. }
    split; [done|]. specialize (Hfree Ec Hpk). rewrite (zsum_settled notified) in Hfree; [|by intros []|done].
    assert (signalling (receiver c) = 0) by (by destruct (receiver c)).
    apply not_false_iff_true. rewrite full_spec. lia.
  - intros E. destruct (Hrecv E) as [?|[H|H]]; [done| |by apply Hnc in H].
    eapply Forall_forall in Hs; [|exact H]. done.
  - destruct (receiver c); cbn in *; lia || done.
Qed.

(** C15: for every schedule of sends, of which some may be cancelled,
    receptions and closings: the queue never
    exceeds the capacity of the channel; the messages accepted are those
    executed, the one being executed and those queued, in this order; and in a
    quiescent channel the count of messages in flight is the length of the queue,
    a sender waits only if the channel is open and full, and the receiver waits
    only if the channel is open, every accepted message has been executed and
    (the capacity being positive) no sender waits. *)
Theorem channel_no_lost_wakeup capacity sched : let c : Chan M := run sched (new capacity) in
  (length (queue c) + borrowed (receiver c) <= capacity)%nat /\
  accepted c = executed c ++ in_hand (receiver c) ++ queue c /\
  (quiescent c -> msg_count c = Z.of_nat (length (queue c)) /\
    (parked c -> closed c = false /\ full c = true) /\
    (receiver c = RParked -> closed c = false /\ accepted c = executed c /\ ((0 < capacity)%nat -> ~ parked c))).
Proof.
  intros c. assert (inv c) as Hi by (apply chan_run_inv, chan_new_inv).
  assert (Channel.capacity c = capacity) as Ecap by (apply run_capacity). split; [|split].
  - pose proof (inv_capacity c Hi) as H. unfold free_slots in H. lia.
  - apply (inv_fifo c Hi).
  - intros Hq. destruct (quiescent_facts c Hi Hq) as (Hp & Hr & Hm). split; [done|split; [done|]].
    intros Er. destruct (Hr Er) as [Eq Ec]. split; [done|split].
    + rewrite (inv_fifo c Hi), Er, Eq. cbn. by rewrite app_nil_r.
    + intros Hpos Hpk. destruct (Hp Hpk) as [_ Hf]. unfold full in Hf. rewrite Er, Eq, Ecap in Hf.
      apply Nat.leb_le in Hf. cbn in Hf. lia.
Qed.

End Facts.

(** A channel of capacity one: a message is being executed, a second one is
    queued and the sender of the third one waits. *)
Definition demo_sched : list (Action nat) :=
  [AReceiver 0; ASend 7; ASender 0; ASender 0; AReceiver 0; ASender 0; AReceiver 0; AReceiver 0; AReceiver 0; AReceiver 0;
   ASend 8; ASend 9; ASender 2; ASender 2; ASender 2; ASender 1]%nat.

Lemma channel_no_lost_wakeup_witness : let c := run demo_sched (new 1) in
  quiescent c /\ parked c /\ closed c = false /\ full c = true /\ msg_count c = Z.of_nat (length (queue c)) /\ executed c = [7%nat].
Proof.
  intros c. assert (quiescent c) as Hq by (split; [|split]; vm_compute; repeat constructor).
  assert (parked c) as Hp by (exists 1%nat, 8%nat; vm_compute; reflexivity).
  pose proof (channel_no_lost_wakeup 1 demo_sched) as H. cbv zeta in H. fold c in H. destruct H as (_ & _ & H).
  destruct (H Hq) as (Hm & H' & _). destruct (H' Hp) as [H1 H2].
  repeat (split; [assumption|]). vm_compute. reflexivity.
Defined.

(** Two senders wait; the one that is notified is cancelled, and the other one is notified instead. *)
Example cancel_passes_on :
  let c := run (demo_sched ++ [ASend 10; ASender 3]%nat ++ replicate 6 (AReceiver 1)) (new 1) in
  senders c = [SOk; SNotified 8; SOk; SParked 10]%nat /\
  senders (step (ACancel 1 0) c) = [SOk; SCancelled; SOk; SNotified 10]%nat.
Proof. vm_compute. auto. Qed.

End Channel.
