(* ===== verification/TaskState.v ===== *)
(** * Tasks: [executor/task.rs], [task/runnable.rs], [task/promise.rs],
      [task/cancel_token.rs], [task/util.rs]

    A task is one allocation shared by a [Runnable], a [Promise], a
    [CancelToken] and any number of [Waker]s, which coordinate through one
    64-bit word.  The operations are broken down into their accesses to the
    word, to the core (the future or its output) and to the allocation; a
    schedule interleaves them in any order.  [Fault] is a memory error: an
    access to a task that was deallocated, a future or an output that is used
    or dropped while it is not there, a second [Runnable], or a violated
    assertion.  [Critical] is the panic that protects the counters from
    overflow.  Memory is sequentially consistent and the scheduling function
    captures no variable, as [wake_by_val] requires. *)

From S2P Require Import Prelude.
From stdpp Require Import base list option numbers.
Local Open Scope Z_scope.

Module TaskState.

Definition not64 (x : Z) : Z := u64_max - x.

Definition POLLING : Z := Z.shiftl 1 0.
Definition CLOSED : Z := Z.shiftl 1 1.
Definition REF_INC : Z := Z.shiftl 1 2.
Definition WAKE_INC : Z := Z.shiftl 1 33.
Definition REF_MASK : Z := Z.land (not64 (REF_INC - 1)) (WAKE_INC - 1).
Definition WAKE_MASK : Z := not64 (WAKE_INC - 1).
Definition REF_CRITICAL : Z := Z.land (REF_MASK / 2) REF_MASK.
Definition WAKE_CRITICAL : Z := Z.land (WAKE_MASK / 2) WAKE_MASK.

(** [runnable_exists] of [util.rs]. *)
Definition runnable_exists (state : Z) : bool :=
  negb (Z.land state POLLING =? 0) && negb (Z.land state (Z.lor WAKE_MASK CLOSED) =? 0).

(** ** Data *)
Inductive TaskCore : Type := CFuture | COutput | CEmpty.

(** Program points of the [Runnable]. *)
Inductive RunPc : Type :=
  | RNew                     (** created by [wake], about to be scheduled *)
  | RScheduled
  | RLoad                    (** first load of [run] *)
  | RPoll (wake_count : Z)   (** polling the future *)
  | RReset (wake_count : Z)  (** subtraction of the wake count *)
  | RPublish                 (** drop of the future, write of the output *)
  | RComplete                (** update to the [Completed] phase *)
  | RDropOutput
  | RClose                   (** clears [POLLING] *)
  | RCancel                  (** [cancel]: drop of the future *)
  | RGuard.                  (** drop guard: enters the [Closed] phase *)

Inductive PromisePc : Type := PromIdle | PromTake.
Inductive TokenPc : Type := TokIdle | TokDropFuture | TokRelease.

(** What is left to do for the last reference. *)
Inductive FinalPc : Type := FDropFuture | FDropOutput | FDealloc.

Record St : Type := mkSt {
  state : Z;
  core : TaskCore;
  freed : bool;
  runnable : option RunPc;
  promise : option PromisePc;
  token : option TokenPc;
  wakers : Z;
  finals : list FinalPc;
  woken : bool }.            (** woken since the last poll started *)

Inductive PollResult : Type := PPending | PReady | PPanic.
Inductive Stage : Type := Ready | Pending | Cancelled.

Inductive Action : Type :=
  | ASchedule                              (** the scheduling function is called *)
  | ARun                                   (** [Runnable::run] *)
  | ADropRunnable
  | ARunnable (r : PollResult) (panics : bool)  (** next access of the runnable *)
  | AClone | AWakeByRef | AWakeByVal | ADropWaker
  | APoll | ATake | ADropPromise
  | ACancel | AToken | ADropToken
  | AFinal.

Inductive Res : Type := Next (s : St) | Critical | Fault.

Definition set_state (w : Z) (s : St) : St :=
  mkSt w (core s) (freed s) (runnable s) (promise s) (token s) (wakers s) (finals s) (woken s).
Definition set_core (c : TaskCore) (s : St) : St :=
  mkSt (state s) c (freed s) (runnable s) (promise s) (token s) (wakers s) (finals s) (woken s).
Definition set_runnable (r : option RunPc) (s : St) : St :=
  mkSt (state s) (core s) (freed s) r (promise s) (token s) (wakers s) (finals s) (woken s).
Definition set_promise (p : option PromisePc) (s : St) : St :=
  mkSt (state s) (core s) (freed s) (runnable s) p (token s) (wakers s) (finals s) (woken s).
Definition set_token (t : option TokenPc) (s : St) : St :=
  mkSt (state s) (core s) (freed s) (runnable s) (promise s) t (wakers s) (finals s) (woken s).
Definition set_wakers (n : Z) (s : St) : St :=
  mkSt (state s) (core s) (freed s) (runnable s) (promise s) (token s) n (finals s) (woken s).
Definition add_final (f : FinalPc) (s : St) : St :=
  mkSt (state s) (core s) (freed s) (runnable s) (promise s) (token s) (wakers s) (f :: finals s) (woken s).
Definition set_woken (b : bool) (s : St) : St :=
  mkSt (state s) (core s) (freed s) (runnable s) (promise s) (token s) (wakers s) (finals s) b.

(** ** Drops of the last reference *)

(** [drop_waker], [promise::drop] and [cancel_token::drop] after the
    decrement, [state] being the value before it. *)
Definition drop_ref (state : Z) (s : St) : St :=
  if (Z.land state REF_MASK =? REF_INC) && negb (runnable_exists state) then
    if Z.land state POLLING =? POLLING then add_final FDropFuture s
    else if Z.land state CLOSED =? 0 then add_final FDropOutput s
    else add_final FDealloc s
  else s.

(** ** Wakers *)
Definition clone_waker (s : St) : Res :=
  let old := state s in
  let s := set_state (wrap64 (old + REF_INC)) s in
  let ref_count := Z.land old REF_MASK in
  if REF_CRITICAL <? ref_count then Critical else Next (set_wakers (wakers s + 1) s).

Definition wake (state_delta : Z) (s : St) : Res :=
  let old := state s in
  let s := set_woken true (set_state (wrap64 (old + state_delta)) s) in
  if WAKE_CRITICAL <? Z.land old WAKE_MASK then Critical
  else if Z.land old (Z.lor (Z.lor WAKE_MASK CLOSED) POLLING) =? POLLING
  then match runnable s with
       | None => Next (set_runnable (Some RNew) s)
       | Some _ => Fault
       end
  else Next s.

Definition wake_by_ref (s : St) : Res := wake WAKE_INC s.

Definition wake_by_val (s : St) : Res :=
  let old := state s in
  match wake (WAKE_INC - REF_INC) (set_wakers (wakers s - 1) s) with
  | Next s =>
      if Z.land old (Z.lor REF_MASK POLLING) =? REF_INC
      then Next (add_final (if Z.land old CLOSED =? 0 then FDropOutput else FDealloc) s)
      else Next s
  | r => r
  end.

Definition drop_waker (s : St) : Res :=
  let old := state s in
  Next (drop_ref old (set_wakers (wakers s - 1) (set_state (wrap64 (old - REF_INC)) s))).

(** ** Promise *)
Definition poll_stage (s : St) : Stage :=
  if Z.land (state s) (Z.lor POLLING CLOSED) =? 0 then Ready
  else if Z.land (state s) CLOSED =? CLOSED then Cancelled else Pending.

Definition poll (s : St) : Res :=
  match poll_stage s with
  | Ready => Next (set_promise (Some PromTake) (set_state (Z.lor (state s) CLOSED) s))
  | _ => Next s
  end.

Definition take_output (s : St) : Res :=
  match core s with
  | COutput => Next (set_promise (Some PromIdle) (set_core CEmpty s))
  | _ => Fault
  end.

Definition drop_promise (s : St) : Res :=
  let old := state s in
  Next (drop_ref old (set_promise None (set_state (wrap64 (old - REF_INC)) s))).

(** ** Cancellation token *)
Definition cancel (s : St) : Res :=
  let old := state s in
  if Z.land old POLLING =? 0 then
    let s := set_token None (set_state (old - REF_INC) s) in
    if Z.land old REF_MASK =? REF_INC
    then Next (add_final (if Z.land old CLOSED =? 0 then FDropOutput else FDealloc) s)
    else Next s
  else if runnable_exists old then
    Next (set_token None (set_state (Z.lor old CLOSED - REF_INC) s))
  else
    Next (set_token (Some TokDropFuture) (set_state (Z.land (Z.lor old CLOSED) (not64 POLLING)) s)).

Definition drop_token (s : St) : Res :=
  let old := state s in
  Next (drop_ref old (set_token None (set_state (wrap64 (old - REF_INC)) s))).

Definition token_step (s : St) : Res :=
  match token s with
  | Some TokDropFuture =>
      match core s with
      | CFuture => Next (set_token (Some TokRelease) (set_core CEmpty s))
      | _ => Fault
      end
  | Some TokRelease =>
      let old := state s in
      let s := set_token None (set_state (wrap64 (old - REF_INC)) s) in
      Next (if Z.land old REF_MASK =? REF_INC then add_final FDealloc s else s)
  | _ => Next s
  end.

(** ** Runnable *)

(** The head of the loop of [run]. *)
Definition run_loop (loaded wake_count : Z) (s : St) : St :=
  if Z.land loaded CLOSED =? CLOSED then set_runnable (Some RCancel) s
  else set_woken false (set_runnable (Some (RPoll wake_count)) s).

(** Deallocation by the runnable when no reference is left. *)
Definition run_dealloc (old : Z) (s : St) : St :=
  if Z.land old REF_MASK =? 0 then add_final FDealloc s else s.

(** The future is pending: the wake count is reset; if the task was woken in
    the meantime or cancelled the loop continues. *)
Definition run_reset (wake_count : Z) (s : St) : Res :=
  let old := state s in
  let s := set_state (wrap64 (old - wake_count)) s in
  if wake_count <? old then
    let wake_count := Z.land old WAKE_MASK - wake_count in
    if wake_count <? 0 then Fault
    else if (wake_count =? 0) && (Z.land old CLOSED =? 0) then
      let s := set_runnable None s in
      Next (if Z.land old REF_MASK =? 0 then add_final FDropFuture s else s)
    else Next (run_loop old wake_count s)
  else Fault.

(** [runnable::cancel]: drop of the future, then the drop guard. *)
Definition run_cancel (s : St) : Res :=
  match core s with
  | CFuture => Next (set_runnable (Some RGuard) (set_core CEmpty s))
  | _ => Fault
  end.

Definition run_guard (s : St) : Res :=
  let old := state s in
  Next (run_dealloc old (set_runnable None (set_state (Z.land (Z.lor old CLOSED) (not64 POLLING)) s))).

Definition run_step (result : PollResult) (panics : bool) (pc : RunPc) (s : St) : Res :=
  let old := state s in
  match pc with
  | RNew | RScheduled => Next s
  | RLoad =>
      if Z.land old POLLING =? POLLING then Next (run_loop old (Z.land old WAKE_MASK) s) else Fault
  | RPoll wake_count =>
      match core s with
      | CFuture =>
          Next (set_runnable (Some (match result with
            | PPending => RReset wake_count | PReady => RPublish | PPanic => RCancel end)) s)
      | _ => Fault
      end
  | RReset wake_count => run_reset wake_count s
  | RPublish =>
      match core s with
      | CFuture => Next (if panics then set_runnable (Some RGuard) (set_core CEmpty s)
                         else set_runnable (Some RComplete) (set_core COutput s))
      | _ => Fault
      end
  | RComplete =>
      if (Z.land old CLOSED =? CLOSED) || (Z.land old REF_MASK =? 0)
      then Next (set_runnable (Some RDropOutput) s)
      else Next (set_runnable None (set_state (Z.land old (not64 POLLING)) s))
  | RDropOutput =>
      match core s with
      | COutput => Next (set_runnable (Some (if panics then RGuard else RClose)) (set_core CEmpty s))
      | _ => Fault
      end
  | RClose =>
      Next (run_dealloc old (set_runnable None (set_state (Z.land old (not64 POLLING)) s)))
  | RCancel => run_cancel s
  | RGuard => run_guard s
  end.

(** ** Deallocation *)
Definition final_step (s : St) : Res :=
  match finals s with
  | [] => Next s
  | f :: fs =>
      let s' := mkSt (state s) CEmpty (freed s) (runnable s) (promise s) (token s) (wakers s) (FDealloc :: fs)
                  (woken s) in
      match f, core s with
      | FDropFuture, CFuture | FDropOutput, COutput => Next s'
      | FDealloc, _ => Next (mkSt (state s) (core s) true (runnable s) (promise s) (token s) (wakers s) fs (woken s))
      | _, _ => Fault
      end
  end.

(** ** The whole task

    A waker can be used when there is one; the waker passed to the future,
    which is not counted as a reference, can be cloned and woken by reference
    while the future is polled.  An action that is not possible does nothing;
    every possible one accesses the allocation. *)
Definition can_wake (s : St) : bool :=
  (0 <? wakers s) || match runnable s with Some (RPoll _) => true | _ => false end.

Definition on_live (s : St) (r : Res) : Res := if freed s then Fault else r.

Definition step (a : Action) (s : St) : Res :=
  match a with
  | ASchedule => match runnable s with
                 | Some RNew => on_live s (Next (set_runnable (Some RScheduled) s)) | _ => Next s end
  | ARun => match runnable s with
            | Some RScheduled => on_live s (Next (set_runnable (Some RLoad) s)) | _ => Next s end
  | ADropRunnable => match runnable s with
            | Some RScheduled => on_live s (Next (set_runnable (Some RCancel) s)) | _ => Next s end
  | ARunnable result panics =>
      match runnable s with Some pc => on_live s (run_step result panics pc s) | None => Next s end
  | AClone => if can_wake s then on_live s (clone_waker s) else Next s
  | AWakeByRef => if can_wake s then on_live s (wake_by_ref s) else Next s
  | AWakeByVal => if 0 <? wakers s then on_live s (wake_by_val s) else Next s
  | ADropWaker => if 0 <? wakers s then on_live s (drop_waker s) else Next s
  | APoll => match promise s with Some PromIdle => on_live s (poll s) | _ => Next s end
  | ATake => match promise s with Some PromTake => on_live s (take_output s) | _ => Next s end
  | ADropPromise => match promise s with Some PromIdle => on_live s (drop_promise s) | _ => Next s end
  | ACancel => match token s with Some TokIdle => on_live s (cancel s) | _ => Next s end
  | AToken => match token s with
              | Some TokDropFuture | Some TokRelease => on_live s (token_step s) | _ => Next s end
  | ADropToken => match token s with Some TokIdle => on_live s (drop_token s) | _ => Next s end
  | AFinal => match finals s with [] => Next s | _ => on_live s (final_step s) end
  end.

Fixpoint run (sched : list Action) (s : St) : Res :=
  match sched with
  | [] => Next s
  | a :: sched => match step a s with Next s => run sched s | r => r end
  end.

Definition spawn : St :=
  mkSt (Z.lor (Z.lor (2 * REF_INC) WAKE_INC) POLLING) CFuture false
    (Some RScheduled) (Some PromIdle) (Some TokIdle) 0 [] true.

Definition spawn_and_forget : St :=
  mkSt (Z.lor (Z.lor REF_INC WAKE_INC) POLLING) CFuture false
    (Some RScheduled) None (Some TokIdle) 0 [] true.

(** A task is polled, woken twice while it is polled, polled again to
    completion, its output taken and every handle dropped. *)
Example life :
  run [ARun; ARunnable PPending false; AClone; AWakeByRef; ARunnable PPending false;
       AWakeByVal; ARunnable PPending false; ARunnable PReady false; ARunnable PReady false;
       ARunnable PReady false; APoll; ATake; ADropToken; ADropPromise; AFinal] spawn =
  Next (mkSt (2 * WAKE_INC + CLOSED) CEmpty true None None None 0 [] false).
Proof. vm_compute. reflexivity. Qed.
End TaskState.
