(* ===== verification/TaskFacts.v ===== *)
(** * Tasks: invariant

    The word of a task is described by its four fields.  The invariant relates
    them to the handles that exist and to the program points of the threads:
    the reference count is the number of handles, a [Runnable] exists exactly
    when [runnable_exists] says so, and the content of the core follows from the
    phase, except while the one thread that owns the core is changing it. *)

From S2P Require Import Prelude TaskState.
From stdpp Require Import base list option numbers.
Local Open Scope Z_scope.

Module TaskFacts.
Import TaskState.

(** ** The fields of the word *)
Definition enc (wk rf : Z) (c p : bool) : Z := wk * 2 ^ 33 + rf * 4 + 2 * Z.b2z c + Z.b2z p.

Lemma land_field x m n : 0 <= m -> 0 <= n ->
  Z.land x (Z.shiftl (Z.ones n) m) = (x / 2 ^ m) mod 2 ^ n * 2 ^ m.
Proof.
  intros Hm Hn. rewrite <- Z.shiftl_mul_pow2, <- Z.land_ones, <- Z.shiftr_div_pow2 by done.
  apply Z.bits_inj'. intros i Hi. rewrite Z.land_spec, !Z.shiftl_spec, Z.land_spec by done.
  destruct (Z.lt_ge_cases i m).
  - rewrite (Z.testbit_neg_r (Z.ones n)) by lia. by rewrite !andb_false_r.
  - rewrite Z.shiftr_spec by lia. by replace (i - m + m) with i by lia.
Qed.

Lemma land_lor_disjoint x a b : Z.land a b = 0 -> Z.land x (Z.lor a b) = Z.land x a + Z.land x b.
Proof.
  intros Hab. rewrite Z.land_lor_distr_r. pose proof (Z.add_lor_land (Z.land x a) (Z.land x b)) as H.
  assert (Z.land (Z.land x a) (Z.land x b) = 0) as E; [|lia].
  apply Z.bits_inj'. intros i Hi. rewrite !Z.land_spec, Z.bits_0.
  assert (Z.testbit (Z.land a b) i = false) as Hb by (by rewrite Hab, Z.bits_0).
  rewrite Z.land_spec in Hb. destruct (Z.testbit x i), (Z.testbit a i), (Z.testbit b i); done.
Qed.

Section Fields.
Context (wk rf : Z) (c p : bool).
Hypothesis Hwk : 0 <= wk < 2 ^ 31.
Hypothesis Hrf : 0 <= rf < 2 ^ 31.
Notation w := (enc wk rf c p).

Lemma enc_range : 0 <= w < 2 ^ 64.
Proof. unfold enc. destruct c, p; cbn [Z.b2z]; lia. Qed.

Lemma land_polling : Z.land w POLLING = Z.b2z p.
Proof.
  change POLLING with (Z.shiftl (Z.ones 1) 0). rewrite land_field by lia. unfold enc.
  rewrite Z.div_1_r, Z.mul_1_r. symmetry.
  apply (Z.mod_unique_pos _ _ (wk * 2 ^ 32 + rf * 2 + Z.b2z c)); destruct p, c; cbn [Z.b2z]; lia.
Qed.

Lemma land_closed : Z.land w CLOSED = 2 * Z.b2z c.
Proof.
  change CLOSED with (Z.shiftl (Z.ones 1) 1). rewrite land_field by lia.
  assert (w / 2 ^ 1 = wk * 2 ^ 32 + rf * 2 + Z.b2z c) as ->
    by (unfold enc; symmetry; apply (Z.div_unique_pos _ _ _ (Z.b2z p)); destruct p; cbn [Z.b2z]; lia).
  rewrite Z.mul_comm. f_equal. symmetry.
  apply (Z.mod_unique_pos _ _ (wk * 2 ^ 31 + rf)); destruct c; cbn [Z.b2z]; lia.
Qed.

Lemma land_ref : Z.land w REF_MASK = rf * 4.
Proof.
  change REF_MASK with (Z.shiftl (Z.ones 31) 2). rewrite land_field by lia.
  assert (w / 2 ^ 2 = wk * 2 ^ 31 + rf) as ->
    by (unfold enc; symmetry; apply (Z.div_unique_pos _ _ _ (2 * Z.b2z c + Z.b2z p)); destruct p, c; cbn [Z.b2z]; lia).
  f_equal. symmetry. apply (Z.mod_unique_pos _ _ wk); lia.
Qed.

Lemma land_wake : Z.land w WAKE_MASK = wk * 2 ^ 33.
Proof.
  change WAKE_MASK with (Z.shiftl (Z.ones 31) 33). rewrite land_field by lia.
  assert (w / 2 ^ 33 = wk) as ->
    by (unfold enc; symmetry; apply (Z.div_unique_pos _ _ _ (rf * 4 + 2 * Z.b2z c + Z.b2z p));
        destruct p, c; cbn [Z.b2z]; lia).
  by rewrite Z.mod_small by lia.
Qed.

Lemma land_wake_closed : Z.land w (Z.lor WAKE_MASK CLOSED) = wk * 2 ^ 33 + 2 * Z.b2z c.
Proof. rewrite land_lor_disjoint, land_wake, land_closed by done. done. Qed.

Lemma land_wake_closed_polling :
  Z.land w (Z.lor (Z.lor WAKE_MASK CLOSED) POLLING) = wk * 2 ^ 33 + 2 * Z.b2z c + Z.b2z p.
Proof. rewrite land_lor_disjoint, land_wake_closed, land_polling by done. done. Qed.

Lemma land_ref_polling : Z.land w (Z.lor REF_MASK POLLING) = rf * 4 + Z.b2z p.
Proof. rewrite land_lor_disjoint, land_ref, land_polling by done. done. Qed.

Lemma land_polling_closed : Z.land w (Z.lor POLLING CLOSED) = Z.b2z p + 2 * Z.b2z c.
Proof. rewrite land_lor_disjoint, land_polling, land_closed by done. done. Qed.

Lemma lor_closed : Z.lor w CLOSED = enc wk rf true p.
Proof.
  pose proof (Z.add_lor_land w CLOSED) as H. rewrite land_closed in H.
  change CLOSED with 2 in *. unfold enc in *. destruct c; cbn [Z.b2z] in *; lia.
Qed.

Lemma clear_polling : Z.land w (not64 POLLING) = enc wk rf c false.
Proof.
  change (not64 POLLING) with (Z.shiftl (Z.ones 63) 1). rewrite land_field by lia.
  assert (w / 2 ^ 1 = wk * 2 ^ 32 + rf * 2 + Z.b2z c) as ->
    by (unfold enc; symmetry; apply (Z.div_unique_pos _ _ _ (Z.b2z p)); destruct p; cbn [Z.b2z]; lia).
  rewrite Z.mod_small by (destruct c; cbn [Z.b2z]; lia). unfold enc. cbn [Z.b2z]. lia.
Qed.

Lemma runnable_exists_enc : runnable_exists w = p && ((0 <? wk) || c).
Proof.
  unfold runnable_exists. rewrite land_polling, land_wake_closed.
  destruct p; [|done]. cbn [Z.b2z Z.eqb negb andb].
  destruct (Z.ltb_spec 0 wk), c; cbn [Z.b2z orb]; rewrite ?orb_true_r;
    destruct (Z.eqb_spec (wk * 2 ^ 33 + 2 * 1) 0); destruct (Z.eqb_spec (wk * 2 ^ 33 + 2 * 0) 0); try done; lia.
Qed.
End Fields.

Lemma enc_add_ref wk rf c p : 0 <= wk < 2 ^ 31 -> 0 <= rf < 2 ^ 31 - 1 ->
  wrap64 (enc wk rf c p + REF_INC) = enc wk (rf + 1) c p.
Proof.
  intros. change REF_INC with 4. unfold wrap64. rewrite wrap_small; unfold enc; destruct c, p; cbn [Z.b2z]; lia.
Qed.

Lemma enc_sub_ref wk rf c p : 0 <= wk < 2 ^ 31 -> 1 <= rf < 2 ^ 31 ->
  enc wk rf c p - REF_INC = enc wk (rf - 1) c p /\
  wrap64 (enc wk rf c p - REF_INC) = enc wk (rf - 1) c p.
Proof.
  intros. change REF_INC with 4. unfold wrap64.
  split; [|rewrite wrap_small]; unfold enc; destruct c, p; cbn [Z.b2z]; lia.
Qed.

Lemma enc_add_wake wk rf c p : 0 <= wk < 2 ^ 31 - 1 -> 0 <= rf < 2 ^ 31 ->
  wrap64 (enc wk rf c p + WAKE_INC) = enc (wk + 1) rf c p.
Proof.
  intros. change WAKE_INC with (2 ^ 33). unfold wrap64.
  rewrite wrap_small; unfold enc; destruct c, p; cbn [Z.b2z]; lia.
Qed.

Lemma enc_wake_by_val wk rf c p : 0 <= wk < 2 ^ 31 - 1 -> 1 <= rf < 2 ^ 31 ->
  wrap64 (enc wk rf c p + (WAKE_INC - REF_INC)) = enc (wk + 1) (rf - 1) c p.
Proof.
  intros. change (WAKE_INC - REF_INC) with (2 ^ 33 - 4). unfold wrap64.
  rewrite wrap_small; unfold enc; destruct c, p; cbn [Z.b2z]; lia.
Qed.

Lemma enc_reset wk wl rf c p : 0 <= wl <= wk -> wk < 2 ^ 31 -> 0 <= rf < 2 ^ 31 ->
  wrap64 (enc wk rf c p - wl * 2 ^ 33) = enc (wk - wl) rf c p.
Proof.
  intros. unfold wrap64. rewrite wrap_small; unfold enc; destruct c, p; cbn [Z.b2z]; lia.
Qed.

(** ** The invariant *)
Definition handles (s : St) : Z :=
  wakers s + (match promise s with Some _ => 1 | None => 0 end) +
  (match token s with Some _ => 1 | None => 0 end).

(** The state of the runnable. *)
Definition run_ok (wk rf : Z) (c : bool) (s : St) (r : RunPc) : Prop :=
  match r with
  | RNew | RScheduled | RLoad => core s = CFuture /\ 0 < wk
  | RPoll x | RReset x =>
      core s = CFuture /\ exists wl, x = wl * 2 ^ 33 /\ 0 <= wl <= wk /\ (woken s = true -> wl < wk)
  | RPublish | RCancel => core s = CFuture
  | RComplete => core s = COutput
  | RDropOutput => core s = COutput /\ (c = true \/ rf = 0)
  | RClose => core s = CEmpty /\ (c = true \/ rf = 0)
  | RGuard => core s = CEmpty
  end.

(** Without a runnable: idle, completed or closed. *)
Definition idle_ok (wk : Z) (c p : bool) (s : St) : Prop :=
  match p, c with
  | true, false => wk = 0 /\ core s = CFuture /\ woken s = false
  | true, true => False
  | false, false => core s = COutput
  | false, true =>
      match token s, promise s with
      | Some TokDropFuture, Some PromTake => False
      | Some TokDropFuture, _ => core s = CFuture
      | _, Some PromTake => core s = COutput
      | _, _ => core s = CEmpty
      end
  end.

(** Operations in progress on the core require the [Closed] phase. *)
Definition handles_ok (c p : bool) (s : St) : Prop :=
  (token s = None \/ token s = Some TokIdle \/ c = true /\ p = false) /\
  (promise s = None \/ promise s = Some PromIdle \/ c = true /\ p = false).

Definition final_core (f : FinalPc) : TaskCore :=
  match f with FDropFuture => CFuture | FDropOutput => COutput | FDealloc => CEmpty end.

Record inv_live (wk rf : Z) (c p : bool) (s : St) : Prop := {
  il_state : state s = enc wk rf c p;
  il_freed : freed s = false;
  il_wk : 0 <= wk <= 2 ^ 30;
  il_rf : 0 <= rf <= 2 ^ 30;
  il_wakers : 0 <= wakers s;
  il_handles : rf = handles s;
  il_handles_ok : handles_ok c p s;
  il_phase :
    match finals s with
    | [] => match runnable s with
            | Some r => p = true /\ (0 < wk \/ c = true) /\ run_ok wk rf c s r
            | None => 0 < rf /\ idle_ok wk c p s
            end
    | [f] => rf = 0 /\ runnable s = None /\ core s = final_core f
    | _ => False
    end }.

Record inv_freed (s : St) : Prop := {
  if_wakers : wakers s = 0;
  if_promise : promise s = None;
  if_token : token s = None;
  if_runnable : runnable s = None;
  if_finals : finals s = [];
  if_core : core s = CEmpty;
  if_freed : freed s = true }.

Definition inv (s : St) : Prop := (exists wk rf c p, inv_live wk rf c p s) \/ inv_freed s.

(** A result is safe when it is no fault and keeps the invariant. *)
Definition safe (r : Res) : Prop :=
  match r with Next s => inv s | Critical => True | Fault => False end.

Lemma rf_pos_no_final wk rf c p s : inv_live wk rf c p s -> 0 < rf -> finals s = [].
Proof.
  intros Hi Hrf. pose proof (il_phase _ _ _ _ _ Hi) as Hp.
  destruct (finals s) as [|f [|]]; [done| |done]. lia.
Qed.

Lemma run_no_final wk rf c p s r : inv_live wk rf c p s -> runnable s = Some r -> finals s = [].
Proof.
  intros Hi Hr. pose proof (il_phase _ _ _ _ _ Hi) as Hp.
  destruct (finals s) as [|f [|]]; [done| |done]. destruct Hp as (_ & ? & _). congruence.
Qed.

Ltac word_fields :=
  repeat first
    [ rewrite land_polling by lia | rewrite land_closed by lia | rewrite land_ref by lia
    | rewrite land_wake by lia | rewrite land_wake_closed_polling by lia
    | rewrite land_wake_closed by lia | rewrite land_ref_polling by lia
    | rewrite land_polling_closed by lia | rewrite lor_closed by lia
    | rewrite clear_polling by lia | rewrite runnable_exists_enc by lia ].

(** Whether a runnable exists can be read off the word. *)
Lemma runnable_word wk rf c p s :
  inv_live wk rf c p s -> finals s = [] ->
  (runnable s = None <-> p && ((0 <? wk) || c) = false).
Proof.
  intros Hi Hf. pose proof (il_phase _ _ _ _ _ Hi) as Hp. pose proof (il_wk _ _ _ _ _ Hi). rewrite Hf in Hp.
  destruct (runnable s) as [r|].
  - destruct Hp as (-> & Hor & _). split; [done|]. cbn. destruct (Z.ltb_spec 0 wk), c; try done.
    destruct Hor; [lia|done].
  - split; [|done]. intros _. destruct Hp as [_ Hp]. unfold idle_ok in Hp.
    destruct p; [|done]. destruct c; [done|]. destruct Hp as [-> _]. done.
Qed.

Lemma run_ok_ext wk wk' rf rf' (c c' : bool) s s' r :
  core s' = core s -> (woken s' = true -> woken s = true \/ wk < wk') -> wk <= wk' ->
  (rf = 0 -> rf' = 0) -> (c = true -> c' = true) ->
  run_ok wk rf c s r -> run_ok wk' rf' c' s' r.
Proof.
  intros Hco Hwo Hwk Hrf Hc. destruct r; cbn; rewrite ?Hco; try done.
  1,2,3: intros [? ?]; split; [done|lia].
  1,2: intros (? & wl & ? & ? & Hlt); split; [done|]; exists wl; split_and!; [done|lia|lia|];
    intros [?|?]%Hwo; [specialize (Hlt ltac:(done)); lia|lia].
  all: intros [? [?|?]]; split; auto.
Qed.

(** Removing a reference: [s'] is [s] without one of its handles. *)
Lemma drop_ref_safe wk rf c p s s' :
  inv_live wk rf c p s -> 0 < rf ->
  state s' = enc wk (rf - 1) c p -> core s' = core s -> freed s' = freed s -> runnable s' = runnable s ->
  finals s' = finals s -> woken s' = woken s -> 0 <= wakers s' -> handles s' = rf - 1 ->
  handles_ok c p s' -> (idle_ok wk c p s -> idle_ok wk c p s') ->
  inv (drop_ref (enc wk rf c p) s').
Proof.
  intros Hi Hrf Hst Hco Hfr Hru Hfi Hwo Hwa Hha Hok Hidle.
  pose proof Hi as [_ Hf Hwk Hrf' _ _ _ Hp]. pose proof (rf_pos_no_final _ _ _ _ _ Hi Hrf) as Hnil.
  pose proof (runnable_word _ _ _ _ _ Hi Hnil) as Hrw. rewrite Hnil in Hp.
  unfold drop_ref. word_fields. change REF_INC with 4. change POLLING with 1.
  destruct (Z.eqb_spec (rf * 4) 4) as [Hone|Hmore]; cbn [andb].
  - assert (rf = 1) as -> by lia.
    assert (wakers s' = 0 /\ promise s' = None /\ token s' = None) as (Hw0 & Hp0 & Ht0).
    { unfold handles in Hha. destruct (promise s'), (token s'); try lia. split_and!; [lia|done|done]. }
    destruct (p && ((0 <? wk) || c)) eqn:Ex; cbn [negb].
    + left. exists wk, 0, c, p. split; try (done || congruence || lia). rewrite Hfi, Hnil, Hru.
      destruct (runnable s) as [r|]; [|exfalso; destruct Hrw as [Hrw _]; specialize (Hrw eq_refl); congruence].
      destruct Hp as (-> & ? & Hr). split_and!; [done|done|].
      eapply run_ok_ext; [done| | | | |exact Hr]; [rewrite Hwo; auto|done|done|done].
    + rewrite (proj2 Hrw eq_refl) in Hp, Hru. destruct Hp as [_ Hp]. specialize (Hidle Hp).
      unfold idle_ok in Hidle. rewrite Ht0, Hp0 in Hidle.
      left. exists wk, 0, c, p. destruct p, c; cbn [Z.b2z] in *; try done;
        change (2 * 1 =? 0) with false; change (2 * 0 =? 0) with true;
        change (1 =? 1) with true; change (0 =? 1) with false; cbv iota;
        (split; cbn [add_final state core freed runnable promise token wakers finals woken];
         try (done || congruence || lia || (symmetry; exact Hha));
         rewrite Hfi, Hnil; split_and!; try (done || congruence); cbn; tauto).
  - left. exists wk, (rf - 1), c, p. split; try (done || congruence || lia). rewrite Hfi, Hnil, Hru.
    destruct (runnable s) as [r|].
    + destruct Hp as (-> & ? & Hr). split_and!; [done|done|].
      eapply run_ok_ext; [done| | | | |exact Hr]; [rewrite Hwo; auto|done|lia|done].
    + destruct Hp as [_ Hp]. split; [lia|auto].
Qed.
Ltac proj := cbn [set_state set_core set_runnable set_promise set_token set_wakers add_final set_woken
  state core freed runnable promise token wakers finals woken].
Ltac proj_in H := cbn [set_state set_core set_runnable set_promise set_token set_wakers add_final set_woken
  state core freed runnable promise token wakers finals woken] in H.

(** Proves the invariant of an explicit state, leaving the phase. *)
Ltac live wk rf c p :=
  left; exists wk, rf, c, p; split; proj;
  try (done || congruence || lia || (unfold handles in *; proj; congruence || lia)).

(** *** Wakers *)
Lemma can_wake_cases wk rf c p s :
  inv_live wk rf c p s -> can_wake s = true ->
  finals s = [] /\ (0 < rf \/ exists x, runnable s = Some (RPoll x)).
Proof.
  intros Hi Hw. unfold can_wake in Hw. apply orb_true_iff in Hw as [Hw%Z.ltb_lt|Hw].
  - assert (0 < rf). { rewrite (il_handles _ _ _ _ _ Hi). unfold handles. destruct (promise s), (token s); lia. }
    split; [by eapply rf_pos_no_final|by left].
  - destruct (runnable s) as [[]|] eqn:E; try done. split; [by eapply run_no_final|eauto].
Qed.

Lemma clone_safe wk rf c p s : inv_live wk rf c p s -> can_wake s = true -> safe (clone_waker s).
Proof.
  intros Hi Hw. destruct (can_wake_cases _ _ _ _ _ Hi Hw) as [Hnil Hcase].
  pose proof Hi as [Hst Hf Hwk Hrf Hwa Hha Hok Hp]. rewrite Hnil in Hp.
  unfold clone_waker. rewrite Hst, enc_add_ref by lia. word_fields.
  change REF_CRITICAL with (2 ^ 32 - 4). destruct (Z.ltb_spec (2 ^ 32 - 4) (rf * 4)); [done|].
  cbn [safe]. live wk (rf + 1) c p. rewrite Hnil. destruct (runnable s) as [r|].
  - destruct Hp as (-> & ? & Hr). split_and!; [done|done|].
    destruct Hcase as [Hpos|[x Hx]]; [|simplify_eq; done].
    eapply run_ok_ext; [done| | | | |exact Hr]; [auto|done|lia|done].
  - destruct Hp as [? Hp]. split; [lia|done].
Qed.

(** The effect of [wake] on the word and the runnable. *)
Lemma wake_effect wk rf rf' c p s s0 delta :
  inv_live wk rf c p s -> finals s = [] -> state s0 = state s -> runnable s0 = runnable s ->
  (wk < 2 ^ 31 - 1 -> wrap64 (enc wk rf c p + delta) = enc (wk + 1) rf' c p) ->
  wake delta s0 = Critical \/
  wk < 2 ^ 30 /\
  wake delta s0 = Next (set_runnable (if p && negb c && (wk =? 0) then Some RNew else runnable s)
    (set_woken true (set_state (enc (wk + 1) rf' c p) s0))).
Proof.
  intros Hi Hnil Hs0 Hr0 Hdelta. pose proof Hi as [Hst Hf Hwk Hrf Hwa Hha Hok Hp].
  pose proof (runnable_word _ _ _ _ _ Hi Hnil) as Hrw.
  unfold wake. rewrite Hs0, Hst, Hdelta by lia. word_fields.
  change WAKE_CRITICAL with (2 ^ 63 - 2 ^ 33). destruct (Z.ltb_spec (2 ^ 63 - 2 ^ 33) (wk * 2 ^ 33)); [by left|].
  right. split; [lia|]. change POLLING with 1.
  rewrite <- Hr0 in Hrw |- *.
  destruct (p && negb c && (wk =? 0)) eqn:E.
  - apply andb_true_iff in E as [[-> ->%negb_true_iff]%andb_true_iff ->%Z.eqb_eq].
    proj. by rewrite (proj2 Hrw eq_refl).
  - destruct (Z.eqb_spec (wk * 2 ^ 33 + 2 * Z.b2z c + Z.b2z p) 1) as [He|_]; [exfalso|by destruct s0].
    destruct p, c; cbn [Z.b2z negb andb] in *; try lia.
Qed.

(** After a wake-up the runnable, if any, is in a legal state again. *)
Lemma wake_phase wk rf rf' (c p : bool) s s1 :
  inv_live wk rf c p s -> finals s = [] -> (rf = 0 -> rf' = 0) -> core s1 = core s -> token s1 = token s ->
  promise s1 = promise s ->
  match (if p && negb c && (wk =? 0) then Some RNew else runnable s) with
  | Some r => p = true /\ (0 < wk + 1 \/ c = true) /\ run_ok (wk + 1) rf' c s1 r
  | None => p = false /\ 0 < rf /\ idle_ok (wk + 1) c p s1
  end.
Proof.
  intros Hi Hnil Hrf' Hco Hto Hpr. pose proof Hi as [_ _ Hwk _ _ _ _ Hp]. rewrite Hnil in Hp.
  destruct (p && negb c && (wk =? 0)) eqn:E.
  - apply andb_true_iff in E as [[-> ->%negb_true_iff]%andb_true_iff ->%Z.eqb_eq].
    split_and!; [done|lia|]. cbn. rewrite Hco. split; [|lia].
    pose proof (proj2 (runnable_word _ _ _ _ _ Hi Hnil) eq_refl) as Hr. rewrite Hr in Hp. by destruct Hp as (_ & _ & ? & _).
  - destruct (runnable s) as [r|].
    + destruct Hp as (-> & Hor & Hr). split_and!; [done|lia|].
      eapply run_ok_ext; [done| | |exact Hrf'|done|exact Hr]; [right; lia|lia].
    + destruct Hp as [Hpos Hp]. unfold idle_ok in *. destruct p.
      * destruct c; [done|]. destruct Hp as [-> _]. done.
      * destruct c; rewrite ?Hto, ?Hpr, ?Hco; done.
Qed.

Lemma wake_by_ref_safe wk rf c p s : inv_live wk rf c p s -> can_wake s = true -> safe (wake_by_ref s).
Proof.
  intros Hi Hw. destruct (can_wake_cases _ _ _ _ _ Hi Hw) as [Hnil _].
  pose proof Hi as [Hst Hf Hwk Hrf Hwa Hha Hok Hp]. unfold wake_by_ref.
  destruct (wake_effect wk rf rf c p s s WAKE_INC Hi Hnil eq_refl eq_refl) as [-> | [Hlt ->]];
    [intros; apply enc_add_wake; lia|done|].
  cbn [safe]. live (wk + 1) rf c p. rewrite Hnil.
  pose proof (wake_phase wk rf rf c p s (set_runnable (if p && negb c && (wk =? 0) then Some RNew else runnable s)
    (set_woken true (set_state (enc (wk + 1) rf c p) s))) Hi Hnil (fun H : rf = 0 => H) eq_refl eq_refl eq_refl) as Hph.
  destruct (if p && negb c && (wk =? 0) then Some RNew else runnable s); [done|tauto].
Qed.

Lemma wakers_pos wk rf c p s : inv_live wk rf c p s -> 0 < wakers s -> 0 < rf /\ finals s = [].
Proof.
  intros Hi Hw. assert (0 < rf). { rewrite (il_handles _ _ _ _ _ Hi). unfold handles. destruct (promise s), (token s); lia. }
  split; [done|by eapply rf_pos_no_final].
Qed.

Lemma wake_by_val_safe wk rf c p s : inv_live wk rf c p s -> 0 < wakers s -> safe (wake_by_val s).
Proof.
  intros Hi Hw. destruct (wakers_pos _ _ _ _ _ Hi Hw) as [Hpos Hnil].
  pose proof Hi as [Hst Hf Hwk Hrf Hwa Hha Hok Hp]. unfold wake_by_val.
  destruct (wake_effect wk rf (rf - 1) c p s (set_wakers (wakers s - 1) s) (WAKE_INC - REF_INC)
    Hi Hnil eq_refl eq_refl) as [-> | [Hlt ->]]; [intros; apply enc_wake_by_val; lia|done|].
  set (s1 := set_runnable _ _).
  pose proof (wake_phase wk rf (rf - 1) c p s s1 Hi Hnil ltac:(lia) eq_refl eq_refl eq_refl) as Hph.
  rewrite Hst. word_fields. change REF_INC with 4.
  destruct (Z.eqb_spec (rf * 4 + Z.b2z p) 4) as [He|He].
  - assert (rf = 1 /\ p = false) as [-> ->] by (destruct p; cbn [Z.b2z] in He; [lia|split; [lia|done]]).
    cbn [andb] in Hph. rewrite Hnil in Hp. destruct (runnable s) as [r|] eqn:Er; [by destruct Hp|].
    assert (promise s = None /\ token s = None) as [Hp0 Ht0]
      by (unfold handles in Hha; destruct (promise s), (token s); try lia; done).
    cbn [safe]. unfold s1. live (wk + 1) 0 c false. cbn [andb]. rewrite Hnil. split_and!; [done|done|].
    unfold idle_ok in Hp. rewrite Ht0, Hp0 in Hp. destruct c; cbn [Z.b2z]; by destruct Hp as [_ ->].
  - cbn [safe]. unfold s1. live (wk + 1) (rf - 1) c p. rewrite Hnil. fold s1.
    destruct (if p && negb c && (wk =? 0) then Some RNew else runnable s); [done|]. destruct Hph as (-> & ? & ?). cbn [Z.b2z] in He. split; [lia|done].
Qed.
Lemma drop_waker_safe wk rf c p s : inv_live wk rf c p s -> 0 < wakers s -> safe (drop_waker s).
Proof.
  intros Hi Hw. destruct (wakers_pos _ _ _ _ _ Hi Hw) as [Hpos Hnil].
  pose proof Hi as [Hst Hf Hwk Hrf Hwa Hha Hok Hp]. unfold drop_waker. rewrite Hst.
  destruct (enc_sub_ref wk rf c p) as [_ ->]; [lia|lia|]. cbn [safe].
  eapply drop_ref_safe; try done; proj; [lia|]. unfold handles in *. proj. lia.
Qed.

(** *** The promise *)
Lemma drop_promise_safe wk rf c p s :
  inv_live wk rf c p s -> promise s = Some PromIdle -> safe (drop_promise s).
Proof.
  intros Hi Hpr. pose proof Hi as [Hst Hf Hwk Hrf Hwa Hha Hok Hp].
  assert (0 < rf) as Hpos by (unfold handles in Hha; rewrite Hpr in Hha; destruct (token s); lia).
  unfold drop_promise. rewrite Hst. destruct (enc_sub_ref wk rf c p) as [_ ->]; [lia|lia|]. cbn [safe].
  eapply drop_ref_safe; try done; proj.
  - unfold handles in *. proj. rewrite Hpr in Hha. lia.
  - destruct Hok as [? _]. split; proj; [done|by left].
  - unfold idle_ok. proj. rewrite Hpr. by destruct p, c, (token s) as [[]|].
Qed.

Lemma promise_finals wk rf c p s pc : inv_live wk rf c p s -> promise s = Some pc -> 0 < rf /\ finals s = [].
Proof.
  intros Hi Hpr. assert (0 < rf).
  { rewrite (il_handles _ _ _ _ _ Hi). pose proof (il_wakers _ _ _ _ _ Hi). unfold handles. rewrite Hpr.
    destruct (token s); lia. }
  split; [done|by eapply rf_pos_no_final].
Qed.

Lemma poll_safe wk rf c p s : inv_live wk rf c p s -> promise s = Some PromIdle -> safe (poll s).
Proof.
  intros Hi Hpr. destruct (promise_finals _ _ _ _ _ _ Hi Hpr) as [Hpos Hnil].
  pose proof Hi as [Hst Hf Hwk Hrf Hwa Hha Hok Hp]. unfold poll, poll_stage. rewrite Hst. word_fields.
  assert (inv s) as Hinv by (left; eauto). change CLOSED with 2.
  destruct (Z.eqb_spec (Z.b2z p + 2 * Z.b2z c) 0) as [He|_]; [|by destruct (_ =? 2)].
  assert (p = false /\ c = false) as [-> ->] by (destruct p, c; cbn [Z.b2z] in He; done || lia).
  cbn [safe]. rewrite Hnil in Hp. destruct (runnable s) as [r|] eqn:Er; [by destruct Hp|].
  destruct Hp as [_ Hp]. live wk rf true false.
  - unfold handles in *. proj. rewrite Hpr in Hha. lia.
  - split; proj; right; [right|]; auto.
  - rewrite Hnil, Er. split; [done|]. unfold idle_ok in *. proj.
    destruct Hok as [[->|[->|[? _]]] _]; done.
Qed.

Lemma take_safe wk rf c p s : inv_live wk rf c p s -> promise s = Some PromTake -> safe (take_output s).
Proof.
  intros Hi Hpr. destruct (promise_finals _ _ _ _ _ _ Hi Hpr) as [Hpos Hnil].
  pose proof Hi as [Hst Hf Hwk Hrf Hwa Hha Hok Hp]. rewrite Hnil in Hp.
  pose proof Hok as [Htok [?|[?|[-> ->]]]]; [congruence..|].
  destruct (runnable s) as [r|] eqn:Er; [by destruct Hp|]. destruct Hp as [_ Hp].
  unfold idle_ok in Hp. rewrite Hpr in Hp.
  assert (core s = COutput /\ token s <> Some TokDropFuture) as [Hco Hto]
    by (destruct (token s) as [[]|]; done).
  unfold take_output. rewrite Hco. cbn [safe]. live wk rf true false.
  - unfold handles in *. proj. rewrite Hpr in Hha. lia.
  - split; proj; [done|auto].
  - rewrite Hnil, Er. split; [done|]. unfold idle_ok. proj. by destruct (token s) as [[]|].
Qed.

(** *** The cancellation token *)
Lemma token_finals wk rf c p s pc : inv_live wk rf c p s -> token s = Some pc -> 0 < rf /\ finals s = [].
Proof.
  intros Hi Hpr. assert (0 < rf).
  { rewrite (il_handles _ _ _ _ _ Hi). pose proof (il_wakers _ _ _ _ _ Hi). unfold handles. rewrite Hpr.
    destruct (promise s); lia. }
  split; [done|by eapply rf_pos_no_final].
Qed.

Lemma drop_token_safe wk rf c p s :
  inv_live wk rf c p s -> token s = Some TokIdle -> safe (drop_token s).
Proof.
  intros Hi Hto. destruct (token_finals _ _ _ _ _ _ Hi Hto) as [Hpos Hnil].
  pose proof Hi as [Hst Hf Hwk Hrf Hwa Hha Hok Hp].
  unfold drop_token. rewrite Hst. destruct (enc_sub_ref wk rf c p) as [_ ->]; [lia|lia|]. cbn [safe].
  eapply drop_ref_safe; try done; proj.
  - unfold handles in *. proj. rewrite Hto in Hha. lia.
  - destruct Hok as [_ ?]. split; proj; [by left|done].
  - unfold idle_ok. proj. rewrite Hto. by destruct p, c, (promise s) as [[]|].
Qed.

Lemma last_handle wk rf c p s s' :
  inv_live wk rf c p s -> rf = 1 -> handles s' = rf - 1 -> 0 <= wakers s' ->
  wakers s' = 0 /\ promise s' = None /\ token s' = None.
Proof.
  intros _ -> Hha Hw. unfold handles in Hha. destruct (promise s'), (token s'); try lia. split_and!; [lia|done|done].
Qed.

Lemma cancel_safe wk rf c p s : inv_live wk rf c p s -> token s = Some TokIdle -> safe (cancel s).
Proof.
  intros Hi Hto. destruct (token_finals _ _ _ _ _ _ Hi Hto) as [Hpos Hnil].
  pose proof Hi as [Hst Hf Hwk Hrf Hwa Hha Hok Hp]. rewrite Hnil in Hp.
  pose proof (runnable_word _ _ _ _ _ Hi Hnil) as Hrw.
  assert (handles (set_token None s) = rf - 1) as Hha'
    by (unfold handles in *; proj; rewrite Hto in Hha; lia).
  unfold cancel. rewrite Hst. word_fields. change REF_INC with 4.
  destruct p; cbn [Z.b2z andb] in *; [change (1 =? 0) with false|change (0 =? 0) with true]; cbv iota.
  - destruct ((0 <? wk) || c) eqn:Ex; cbv iota; cbn [safe].
    + change 4 with REF_INC. destruct (enc_sub_ref wk rf true true) as [-> _]; [lia|lia|].
      destruct (runnable s) as [r|] eqn:Er; [|discriminate (proj1 Hrw eq_refl)].
      destruct Hp as (_ & Hor & Hr). live wk (rf - 1) true true.
      * destruct Hok as [_ [?|[?|[_ ?]]]]; [..|done]; split; proj; auto.
      * rewrite Hnil, Er. split_and!; [done|auto|].
        apply (run_ok_ext wk wk rf (rf - 1) c true s); auto; lia.
    + rewrite (proj2 Hrw eq_refl) in Hp. destruct Hp as [_ Hp]. unfold idle_ok in Hp.
      destruct c; [done|]. destruct Hp as (-> & Hco & Hwo).
      destruct Hok as [_ Hpr]. live 0 rf true false.
      * unfold handles in *. proj. rewrite Hto in Hha. lia.
      * split; proj; [auto|]. destruct Hpr as [?|[?|[? _]]]; auto.
      * rewrite Hnil, (proj2 Hrw eq_refl). split; [done|]. unfold idle_ok. proj.
        by destruct Hpr as [->|[->|[? _]]].
  - change 4 with REF_INC. destruct (enc_sub_ref wk rf c false) as [-> _]; [lia|lia|]. change REF_INC with 4.
    destruct (runnable s) as [r|] eqn:Er; [by destruct Hp|]. destruct Hp as [_ Hp].
    destruct (Z.eqb_spec (rf * 4) 4) as [He|He]; cbn [safe].
    + destruct (last_handle wk rf c false s (set_token None s)) as (Hw0 & Hp0 & Ht0); [done|lia|done|done|].
      proj_in Hw0. proj_in Hp0. live wk (rf - 1) c false; [split; proj; auto|].
      rewrite Hnil. split_and!; [lia|done|]. unfold idle_ok in Hp. rewrite Hto, Hp0 in Hp. by destruct c; rewrite Hp.
    + live wk (rf - 1) c false; [destruct Hok as [_ ?]; split; proj; auto|].
      rewrite Hnil, Er. split; [lia|]. unfold idle_ok in *. proj. rewrite Hto in Hp. by destruct c, (promise s) as [[]|].
Qed.

Lemma token_step_safe wk rf c p s :
  inv_live wk rf c p s -> token s = Some TokDropFuture \/ token s = Some TokRelease -> safe (token_step s).
Proof.
  intros Hi Hto. assert (exists pc, token s = Some pc) as [pc Hpc] by (destruct Hto; eauto).
  destruct (token_finals _ _ _ _ _ _ Hi Hpc) as [Hpos Hnil].
  pose proof Hi as [Hst Hf Hwk Hrf Hwa Hha Hok Hp]. rewrite Hnil in Hp.
  pose proof Hok as [[?|[?|[-> ->]]] Hpr]; [destruct Hto; congruence..|].
  destruct (runnable s) as [r|] eqn:Er; [by destruct Hp|]. destruct Hp as [_ Hp]. unfold idle_ok in Hp.
  unfold token_step. destruct Hto as [Hto|Hto]; rewrite Hto in Hp |- *.
  - assert (core s = CFuture /\ promise s <> Some PromTake) as [-> Hne] by (by destruct (promise s) as [[]|]).
    cbn [safe]. live wk rf true false.
    + unfold handles in *. proj. rewrite Hto in Hha. lia.
    + split; proj; auto.
    + rewrite Hnil, Er. split; [done|]. unfold idle_ok. proj. by destruct (promise s) as [[]|].
  - rewrite Hst. word_fields. destruct (enc_sub_ref wk rf true false) as [_ ->]; [lia|lia|]. change REF_INC with 4.
    assert (handles (set_token None s) = rf - 1) as Hha'
      by (unfold handles in *; proj; rewrite Hto in Hha; lia).
    destruct (Z.eqb_spec (rf * 4) 4) as [He|He]; cbn [safe].
    + destruct (last_handle wk rf true false s (set_token None s)) as (Hw0 & Hp0 & Ht0); [done|lia|done|done|].
      proj_in Hw0. proj_in Hp0. live wk (rf - 1) true false; [split; proj; auto|].
      rewrite Hnil. split_and!; [lia|done|]. by rewrite Hp0 in Hp.
    + live wk (rf - 1) true false; [split; proj; auto|].
      rewrite Hnil, Er. split; [lia|]. unfold idle_ok. proj. done.
Qed.

(** *** The runnable *)

(** The runnable moves on without changing the word. *)
Lemma run_move wk rf c s r s' :
  inv_live wk rf c true s -> runnable s = Some r ->
  state s' = state s -> freed s' = freed s -> promise s' = promise s -> token s' = token s ->
  wakers s' = wakers s -> finals s' = finals s ->
  (exists r', runnable s' = Some r' /\ run_ok wk rf c s' r') -> inv s'.
Proof.
  intros Hi Hr Hst' Hf' Hpr' Hto' Hwa' Hfi' (r' & Hr' & Hok').
  pose proof (run_no_final _ _ _ _ _ _ Hi Hr) as Hnil.
  pose proof Hi as [Hst Hf Hwk Hrf Hwa Hha [Hok1 Hok2] Hp]. rewrite Hnil, Hr in Hp. destruct Hp as (_ & Hor & _).
  left. exists wk, rf, c, true. split; try congruence; try done.
  - unfold handles in *. by rewrite Hpr', Hto', Hwa'.
  - split; rewrite ?Hto', ?Hpr'; done.
  - rewrite Hfi', Hnil, Hr'. done.
Qed.

(** The runnable ends in the [Closed] phase, deallocating the task if there is
    no reference. *)
Lemma run_close wk rf c s r s' :
  inv_live wk rf c true s -> runnable s = Some r -> core s = CEmpty ->
  runnable s' = None -> core s' = core s -> freed s' = freed s -> promise s' = promise s -> token s' = token s ->
  wakers s' = wakers s -> finals s' = finals s ->
  (state s' = enc wk rf true false \/ state s' = enc wk rf c false /\ (c = true \/ rf = 0)) ->
  inv (run_dealloc (enc wk rf c true) s').
Proof.
  intros Hi Hr Hco Hr' Hco' Hf' Hpr' Hto' Hwa' Hfi' Hst'.
  pose proof (run_no_final _ _ _ _ _ _ Hi Hr) as Hnil.
  pose proof Hi as [Hst Hf Hwk Hrf Hwa Hha [Hok1 Hok2] Hp].
  assert (handles s' = rf) as Hha' by (unfold handles in *; by rewrite Hpr', Hto', Hwa').
  unfold run_dealloc. word_fields. destruct (Z.eqb_spec (rf * 4) 0) as [He|He].
  - assert (promise s' = None /\ token s' = None) as [Hp0 Ht0]
      by (unfold handles in Hha'; destruct (promise s'), (token s'); try lia; done).
    destruct Hst' as [Hst'|[Hst' _]]; [live wk rf true false|live wk rf c false];
      try (split; proj; auto); rewrite Hfi', Hnil; split_and!; [lia|done|cbn; congruence|lia|done|cbn; congruence].
  - assert (state s' = enc wk rf true false) as Hst1 by (destruct Hst' as [?|[? [->|?]]]; [done|done|lia]).
    left. exists wk, rf, true, false. split; try congruence; try done.
    + split; auto.
    + rewrite Hfi', Hnil, Hr'. split; [lia|]. unfold idle_ok. rewrite Hto', Hpr', Hco', Hco.
      destruct Hok1 as [->|[->|[_ ?]]], Hok2 as [->|[->|[_ ?]]]; done.
Qed.

Lemma run_loop_safe wk wl wk' rf c s loaded :
  state s = enc wk rf c true -> freed s = false -> 0 <= wk <= 2 ^ 30 -> 0 <= rf <= 2 ^ 30 -> 0 <= wakers s ->
  rf = handles s -> handles_ok c true s -> finals s = [] -> core s = CFuture ->
  0 <= wl <= wk -> (0 < wk \/ c = true) ->
  (exists c0, loaded = enc wk' rf c0 true /\ (c0 = true -> c = true)) -> 0 <= wk' <= 2 ^ 30 ->
  inv (run_loop loaded (wl * 2 ^ 33) s).
Proof.
  intros Hst Hf Hwk Hrf Hwa Hha Hok Hnil Hco Hwl Hor (c0 & -> & Hc0) Hwk'.
  unfold run_loop. word_fields. change CLOSED with 2. destruct c0; cbn [Z.b2z].
  - change (2 * 1 =? 2) with true. cbv iota. live wk rf c true. rewrite Hnil. auto.
  - change (2 * 0 =? 2) with false. cbv iota. live wk rf c true. rewrite Hnil.
    split_and!; [done|done|]. cbn. split; [done|]. exists wl. split_and!; [done|lia|lia|done].
Qed.

Lemma run_reset_safe wk rf c s x :
  inv_live wk rf c true s -> runnable s = Some (RReset x) -> safe (run_step PPending false (RReset x) s).
Proof.
  intros Hi Hr. pose proof (run_no_final _ _ _ _ _ _ Hi Hr) as Hnil.
  pose proof Hi as [Hst Hf Hwk Hrf Hwa Hha Hok Hp]. rewrite Hnil, Hr in Hp.
  destruct Hp as (_ & Hor & Hco & wl & -> & Hwl & Hwo).
  cbn [run_step]; unfold run_reset, run_cancel, run_guard. rewrite Hst, enc_reset by lia. word_fields.
  rewrite (proj2 (Z.ltb_lt _ _)) by (unfold enc; destruct c; cbn [Z.b2z]; lia).
  rewrite (proj2 (Z.ltb_ge _ _)) by lia.
  replace (wk * 2 ^ 33 - wl * 2 ^ 33) with ((wk - wl) * 2 ^ 33) by lia.
  destruct (((wk - wl) * 2 ^ 33 =? 0) && (2 * Z.b2z c =? 0)) eqn:E; cbn [safe].
  - apply andb_true_iff in E as [E1%Z.eqb_eq E2%Z.eqb_eq]. assert (wl = wk) as -> by lia.
    destruct c; [cbn [Z.b2z] in E2; lia|]. replace (wk - wk) with 0 by lia.
    assert (woken s = false) as Hw by (destruct (woken s); [specialize (Hwo eq_refl); lia|done]).
    destruct (Z.eqb_spec (rf * 4) 0) as [He|He].
    + live 0 rf false true. rewrite Hnil. split_and!; [lia|done|done].
    + live 0 rf false true. rewrite Hnil. split; [lia|]. done.
  - eapply (run_loop_safe (wk - wl) (wk - wl) wk rf c); proj; try done; [lia|lia| |by exists c].
    destruct c; [by right|left]. cbn [Z.b2z] in E. rewrite andb_true_r in E. apply Z.eqb_neq in E. lia.
Qed.

Lemma run_step_safe wk rf c p s r result panics :
  inv_live wk rf c p s -> runnable s = Some r -> safe (run_step result panics r s).
Proof.
  intros Hi Hr. pose proof (run_no_final _ _ _ _ _ _ Hi Hr) as Hnil.
  pose proof Hi as [Hst Hf Hwk Hrf Hwa Hha Hok Hp]. rewrite Hnil, Hr in Hp. destruct Hp as (-> & Hor & Hrun).
  destruct r as [| | |x|x| | | | | |]; cbn in Hrun.
  - left; eauto.
  - left; eauto.
  - cbn [run_step]; unfold run_reset, run_cancel, run_guard. rewrite Hst. word_fields. change POLLING with 1. cbn [Z.b2z]. change (1 =? 1) with true.
    cbn [safe]. eapply (run_loop_safe wk wk wk rf c); try tauto; [lia|by exists c].
  - destruct Hrun as [Hco Hwl]. cbn [run_step]; unfold run_reset, run_cancel, run_guard. rewrite Hco. cbn [safe].
    eapply (run_move wk rf c s); proj; try done. by destruct result; eexists.
  - by apply (run_reset_safe wk rf c).
  - cbn [run_step]; unfold run_reset, run_cancel, run_guard. rewrite Hrun. cbn [safe]. destruct panics; eapply (run_move wk rf c s); proj; try done; by eexists.
  - cbn [run_step]; unfold run_reset, run_cancel, run_guard. rewrite Hst. word_fields. change CLOSED with 2.
    destruct ((2 * Z.b2z c =? 2) || (rf * 4 =? 0)) eqn:E; cbn [safe].
    + eapply (run_move wk rf c s); proj; try done. eexists; split; [done|]. cbn. split; [done|].
      apply orb_true_iff in E as [E%Z.eqb_eq|E%Z.eqb_eq]; [left|right]; [destruct c; [done|cbn [Z.b2z] in E]|]; lia.
    + apply orb_false_iff in E as [E1%Z.eqb_neq E2%Z.eqb_neq]. destruct c; [cbn [Z.b2z] in E1; lia|].
      live wk rf false false.
      * destruct Hok as [[?|[?|[? _]]] [?|[?|[? _]]]]; try done; split; auto.
      * rewrite Hnil. split; [lia|done].
  - destruct Hrun as [Hco Hcl]. cbn [run_step]; unfold run_reset, run_cancel, run_guard. rewrite Hco. cbn [safe].
    eapply (run_move wk rf c s); proj; try done. destruct panics; by eexists.
  - destruct Hrun as [Hco Hcl]. cbn [run_step]; unfold run_reset, run_cancel, run_guard. rewrite Hst. word_fields. cbn [safe].
    eapply (run_close wk rf c s); proj; try done. by right.
  - cbn [run_step]; unfold run_reset, run_cancel, run_guard. rewrite Hrun. cbn [safe]. eapply (run_move wk rf c s); proj; try done. by eexists.
  - cbn [run_step]; unfold run_reset, run_cancel, run_guard. rewrite Hst. word_fields. cbn [safe].
    eapply (run_close wk rf c s); proj; try done. by left.
Qed.

Lemma final_step_safe wk rf c p s f fs :
  inv_live wk rf c p s -> finals s = f :: fs -> safe (final_step s).
Proof.
  intros Hi Hfs. pose proof Hi as [Hst Hf Hwk Hrf Hwa Hha Hok Hp]. unfold final_step. rewrite Hfs in Hp |- *.
  destruct fs; [|done]. destruct Hp as (-> & Hr & Hco). rewrite Hco.
  destruct f; cbn [final_core safe].
  - live wk 0 c p.
  - live wk 0 c p.
  - right. unfold handles in Hha. split; cbn; try done; destruct (promise s), (token s); try lia; done.
Qed.

Lemma step_safe a s : inv s -> safe (step a s).
Proof.
  intros [(wk & rf & c & p & Hi)|Hfreed].
  - pose proof Hi as [Hst Hf Hwk Hrf Hwa Hha Hok Hp]. assert (inv s) as Hinv by (left; eauto).
    assert (forall r r', runnable s = Some r -> (run_ok wk rf c s r -> run_ok wk rf c (set_runnable (Some r') s) r') ->
      inv (set_runnable (Some r') s)) as Hmove.
    { intros r r' Hr Himp. pose proof (run_no_final _ _ _ _ _ _ Hi Hr) as Hnil.
      rewrite Hnil, Hr in Hp. destruct Hp as (-> & _ & ?). eapply (run_move wk rf c s); proj; eauto. }
    destruct a; cbn [step]; unfold on_live; rewrite Hf.
    + destruct (runnable s) as [[]|] eqn:Hr; try done. by eapply Hmove.
    + destruct (runnable s) as [[]|] eqn:Hr; try done. by eapply Hmove.
    + destruct (runnable s) as [[]|] eqn:Hr; try done. eapply Hmove; [done|]. cbn. tauto.
    + destruct (runnable s) as [r'|] eqn:Hr; [|done]. by eapply run_step_safe.
    + destruct (can_wake s) eqn:Hw; [|done]. by eapply clone_safe.
    + destruct (can_wake s) eqn:Hw; [|done]. by eapply wake_by_ref_safe.
    + destruct (Z.ltb_spec 0 (wakers s)); [|done]. by eapply wake_by_val_safe.
    + destruct (Z.ltb_spec 0 (wakers s)); [|done]. by eapply drop_waker_safe.
    + destruct (promise s) as [[]|] eqn:Hpr; try done. by eapply poll_safe.
    + destruct (promise s) as [[]|] eqn:Hpr; try done. by eapply take_safe.
    + destruct (promise s) as [[]|] eqn:Hpr; try done. by eapply drop_promise_safe.
    + destruct (token s) as [[]|] eqn:Hto; try done. by eapply cancel_safe.
    + destruct (token s) as [[]|] eqn:Hto; try done; eapply token_step_safe; eauto.
    + destruct (token s) as [[]|] eqn:Hto; try done. by eapply drop_token_safe.
    + destruct (finals s) as [|f fs] eqn:Hfs; [done|]. by eapply final_step_safe.
  - assert (inv s) as Hinv by (by right). destruct Hfreed as [Hw Hpr Hto Hr Hfi _ _].
    destruct a; cbn [step]; unfold can_wake; rewrite ?Hw, ?Hpr, ?Hto, ?Hr, ?Hfi; done.
Qed.

Lemma run_safe sched s : inv s -> safe (run sched s).
Proof.
  revert s. induction sched as [|a sched IH]; intros s Hs; [done|]. cbn [run].
  pose proof (step_safe a s Hs) as Ha. destruct (step a s); [by apply IH|done|done].
Qed.

Lemma spawn_inv : inv spawn /\ inv spawn_and_forget.
Proof.
  split; left; [exists 1, 2, false, true|exists 1, 1, false, true]; split; try done;
    [split; cbn; auto|cbn; split_and!; try done; left; lia..|split; cbn; auto|cbn; split_and!; try done; left; lia].
Qed.
End TaskFacts.
