(* ===== verification/TaskTheorems.v ===== *)
(** * Tasks: theorems

    Memory safety, reclamation, wake-ups and phases of a task, for every
    interleaving of the accesses of its runnable, promise, cancellation token
    and wakers. *)

From S2P Require Import Prelude TaskState TaskFacts.
From stdpp Require Import base list option numbers.
Import TaskState TaskFacts.
Local Open Scope Z_scope.

(** The phases of the documentation of [Task]. *)
Inductive Phase : Type := Polling | Completed | WindDown | Closed.

Definition phase (s : St) : Phase :=
  match Z.land (state s) POLLING =? 0, Z.land (state s) CLOSED =? 0 with
  | false, true => Polling
  | true, true => Completed
  | false, false => WindDown
  | true, false => Closed
  end.

Definition may_become (a b : Phase) : bool :=
  match a, b with
  | Polling, _ => true
  | Completed, (Completed | Closed) => true
  | WindDown, (WindDown | Closed) => true
  | Closed, Closed => true
  | _, _ => false
  end.

Definition b2n (b : bool) : nat := if b then 1 else 0.

(** The number of threads that are about to access the core. *)
Definition core_users (s : St) : nat :=
  (b2n (match runnable s with Some (RPoll _ | RPublish | RDropOutput | RCancel) => true | _ => false end) +
   b2n (match promise s with Some PromTake => true | _ => false end) +
   b2n (match token s with Some TokDropFuture => true | _ => false end) +
   length (finals s))%nat.

Lemma task_reached sched s0 :
  s0 = spawn \/ s0 = spawn_and_forget -> safe (run sched s0).
Proof. intros H. apply run_safe. destruct spawn_inv. by destruct H as [-> | ->]. Qed.

Lemma core_users_le s : inv s -> (core_users s <= 1)%nat.
Proof.
  unfold core_users. intros [(wk & rf & c & p & Hi)|Hf].
  - pose proof Hi as [_ _ _ _ Hwa Hha [Hto Hpr] Hp].
    destruct (finals s) as [|f [|]] eqn:Hfi; [|..|done].
    + assert ((c = true /\ p = false) \/
        (token s = None \/ token s = Some TokIdle) /\ (promise s = None \/ promise s = Some PromIdle)) as [[-> ->]|[Ht Hq]]
        by tauto.
      * destruct (runnable s) as [r|]; [by destruct Hp|]. destruct Hp as [_ Hp]. cbn in Hp.
        destruct (token s) as [[]|], (promise s) as [[]|]; cbn; done || lia.
      * destruct Ht as [-> | ->], Hq as [-> | ->], (runnable s) as [[]|]; cbn; lia.
    + destruct Hp as (-> & -> & _). unfold handles in Hha.
      destruct (promise s), (token s); try lia. cbn. lia.
  - destruct Hf as [_ -> -> -> -> _ _]. cbn. lia.
Qed.

(** C5: no schedule of a task leads to a memory error: the task is never used
    after it was deallocated, its future and its output are used and dropped
    only while they exist and only once, there is at most one [Runnable], no
    assertion fails, and at any time at most one thread is about to access the
    future or the output, so that these accesses do not race. *)
Theorem task_memory_safe sched s0 :
  s0 = spawn \/ s0 = spawn_and_forget ->
  run sched s0 <> Fault /\ forall s, run sched s0 = Next s -> (core_users s <= 1)%nat.
Proof.
  intros H0. pose proof (task_reached sched s0 H0) as Hs. split; [by intros E; rewrite E in Hs|].
  intros s E. rewrite E in Hs. by apply core_users_le.
Qed.

(** C7: a task is reclaimed exactly when nothing refers to it: once the last
    handle is gone and there is no [Runnable], at most two more accesses of the
    thread that dropped it deallocate the task, the future and the output
    having been dropped; it is not deallocated before. *)
Theorem task_reclaimed sched s0 s :
  s0 = spawn \/ s0 = spawn_and_forget -> run sched s0 = Next s ->
  (handles s = 0 /\ runnable s = None ->
     exists n s', (n <= 2)%nat /\ run (replicate n AFinal) s = Next s' /\ freed s' = true /\ core s' = CEmpty) /\
  (freed s = true -> handles s = 0 /\ runnable s = None /\ core s = CEmpty).
Proof.
  intros H0 E. pose proof (task_reached sched s0 H0) as Hs. rewrite E in Hs.
  destruct Hs as [(wk & rf & c & p & Hi)|Hf].
  - pose proof Hi as [_ Hf _ _ _ Hha _ Hp]. split; [|congruence]. intros [Hh Hr].
    destruct (finals s) as [|f [|]] eqn:Hfi; [rewrite Hr in Hp; lia| |done]. destruct Hp as (_ & _ & Hco).
    clear E Hi Hha Hh Hr. destruct s as [st co fr ru pr to wa fi wo]; cbn in *; subst.
    destruct f; [eexists 2%nat, _|eexists 2%nat, _|eexists 1%nat, _]; (split; [lia|]); by cbn.
  - destruct Hf as [Hw Hpr Hto Hr Hfi Hco Hfr]. assert (handles s = 0) as Hh by (unfold handles; by rewrite Hw, Hpr, Hto).
    split; [|done]. intros _. exists 0%nat, s. split_and!; try done. lia.
Qed.

Lemma phase_enc wk rf c p s :
  inv_live wk rf c p s ->
  phase s = match p, c with true, false => Polling | false, false => Completed
            | true, true => WindDown | false, true => Closed end.
Proof.
  intros [Hst _ Hwk Hrf _ _ _ _]. unfold phase. rewrite Hst. word_fields. by destruct p, c.
Qed.

(** C6: no wake-up is lost: as long as the task has not completed and was not
    cancelled, a task that was woken since its future was last polled has a
    [Runnable]; and a [Runnable] that finishes polling with such a wake-up
    outstanding polls the future again instead of returning. *)
Theorem no_lost_wakeup sched s0 s :
  s0 = spawn \/ s0 = spawn_and_forget -> run sched s0 = Next s ->
  woken s = true -> freed s = false -> finals s = [] -> phase s = Polling ->
  runnable s <> None /\
  forall x, runnable s = Some (RReset x) ->
    exists y s', step (ARunnable PPending false) s = Next s' /\ runnable s' = Some (RPoll y) /\ woken s' = false.
Proof.
  intros H0 E Hw Hfr Hfi Hph. pose proof (task_reached sched s0 H0) as Hs. rewrite E in Hs.
  destruct Hs as [(wk & rf & c & p & Hi)|[]]; [|congruence].
  rewrite (phase_enc _ _ _ _ _ Hi) in Hph. destruct p, c; try done.
  pose proof Hi as [Hst _ Hwk Hrf _ _ _ Hp]. rewrite Hfi in Hp.
  destruct (runnable s) as [r|] eqn:Hr; [|destruct Hp as (_ & _ & _ & ?); congruence].
  split; [done|]. intros x [= ->]. destruct Hp as (_ & _ & _ & wl & -> & Hwl & Hlt). specialize (Hlt Hw).
  cbn [step]. rewrite Hr. unfold on_live. rewrite Hfr. cbn [run_step]; unfold run_reset, run_cancel, run_guard. rewrite Hst, enc_reset by lia. word_fields.
  rewrite (proj2 (Z.ltb_lt _ _)) by (unfold enc; cbn [Z.b2z]; lia). rewrite (proj2 (Z.ltb_ge _ _)) by lia.
  rewrite (proj2 (Z.eqb_neq _ _)) by lia. cbn [andb]. unfold run_loop. word_fields. cbn [Z.b2z].
  change (2 * 0 =? CLOSED) with false. cbv iota. by eexists _, _.
Qed.

Lemma drop_ref_state w s : state (drop_ref w s) = state s.
Proof. unfold drop_ref. by repeat case_match. Qed.

Lemma run_dealloc_state w s : state (run_dealloc w s) = state s.
Proof. unfold run_dealloc. by case_match. Qed.

Lemma run_loop_state w x s : state (run_loop w x s) = state s.
Proof. unfold run_loop. by case_match. Qed.

(** The flags of [s'] compared with those of [s]. *)
Definition flags_progress (c p : bool) (s' : St) : Prop :=
  exists wk rf c' p', state s' = enc wk rf c' p' /\ (c = true -> c' = true) /\ (p = false -> p' = false).

Lemma wake_flags wk rf c p s delta s' wk' rf' :
  state s = enc wk rf c p -> wrap64 (enc wk rf c p + delta) = enc wk' rf' c p ->
  wake delta s = Next s' -> flags_progress c p s'.
Proof.
  intros Hst Hd. unfold wake. rewrite Hst, Hd. intros H. repeat case_match; simplify_eq;
    exists wk', rf', c, p; done.
Qed.

Lemma run_flags wk rf c p s r result panics s' :
  inv_live wk rf c p s -> runnable s = Some r -> run_step result panics r s = Next s' -> flags_progress c p s'.
Proof.
  intros Hi Hr. pose proof (run_no_final _ _ _ _ _ _ Hi Hr) as Hnil.
  pose proof Hi as [Hst Hf Hwk Hrf _ _ _ Hp]. rewrite Hnil, Hr in Hp. destruct Hp as (-> & _ & Hrun).
  destruct r as [| | |x|x| | | | | |]; cbn [run_step]; unfold run_reset, run_cancel, run_guard; rewrite ?Hst.
  5: { destruct Hrun as (_ & wl & -> & Hwl & _). rewrite enc_reset by lia. intros H.
       unfold flags_progress. repeat case_match; simplify_eq; rewrite ?run_loop_state;
         exists (wk - wl), rf, c, true; done. }
  all: word_fields; intros H; unfold flags_progress; repeat case_match; simplify_eq;
    rewrite ?run_loop_state, ?run_dealloc_state; proj;
    (by exists wk, rf, c, true) || (by eexists _, _, _, _).
Qed.

Lemma step_flags wk rf c p s a s' :
  inv_live wk rf c p s -> step a s = Next s' -> flags_progress c p s'.
Proof.
  intros Hi Hs. pose proof Hi as [Hst Hf Hwk Hrf Hwa _ _ _].
  assert (flags_progress c p s) as Hsame by (exists wk, rf, c, p; done).
  assert (forall pc, token s = Some pc -> 0 < rf) as Htok by (intros pc Hpc; eapply (token_finals _ _ _ _ _ pc Hi Hpc)).
  assert (forall pc, promise s = Some pc -> 0 < rf) as Hprom
    by (intros pc Hpc; eapply (promise_finals _ _ _ _ _ pc Hi Hpc)).
  assert (0 < wakers s -> 0 < rf) as Hwak by (intros; by eapply (wakers_pos wk rf c p s)).
  assert (forall s1, 0 < rf -> state s1 = wrap64 (state s - REF_INC) -> flags_progress c p s1) as Hdec.
  { intros s1 Hpos Hs1. destruct (enc_sub_ref wk rf c p) as [_ E]; [lia|lia|].
    exists wk, (rf - 1), c, p. by rewrite Hs1, Hst, E. }
  destruct a; cbn [step] in Hs; unfold on_live in Hs; rewrite Hf in Hs.
  1-3: destruct (runnable s) as [[]|]; by simplify_eq.
  - destruct (runnable s) as [r'|] eqn:Hr; [|by simplify_eq]. by eapply run_flags.
  - destruct (can_wake s); [|by simplify_eq]. unfold clone_waker in Hs. rewrite Hst, enc_add_ref in Hs by lia.
    case_match; simplify_eq. by exists wk, (rf + 1), c, p.
  - destruct (can_wake s); [|by simplify_eq]. eapply wake_flags; [done|apply enc_add_wake; lia|exact Hs].
  - destruct (Z.ltb_spec 0 (wakers s)); [|by simplify_eq]. unfold wake_by_val in Hs.
    destruct (wake _ _) as [s1| |] eqn:Hwk1; [|done..].
    assert (flags_progress c p s1) as Hp1.
    { eapply wake_flags; [|apply (enc_wake_by_val wk rf); lia|exact Hwk1]. done. }
    case_match; by simplify_eq.
  - destruct (Z.ltb_spec 0 (wakers s)); [|by simplify_eq]. unfold drop_waker in Hs. simplify_eq.
    apply Hdec; [auto|]. by rewrite drop_ref_state.
  - destruct (promise s) as [[]|]; [|by simplify_eq..]. unfold poll in Hs. rewrite Hst, lor_closed in Hs by lia.
    case_match; simplify_eq; [|done..]. by exists wk, rf, true, p.
  - destruct (promise s) as [[]|]; [by simplify_eq| |by simplify_eq]. unfold take_output in Hs. case_match; by simplify_eq.
  - destruct (promise s) as [[]|] eqn:Hpr; [|by simplify_eq..]. unfold drop_promise in Hs. simplify_eq.
    apply Hdec; [eauto|]. by rewrite drop_ref_state.
  - destruct (token s) as [[]|] eqn:Hto; [|by simplify_eq..]. specialize (Htok _ eq_refl). unfold cancel in Hs.
    rewrite Hst, lor_closed, clear_polling in Hs by lia.
    destruct (enc_sub_ref wk rf c p) as [E1 _]; [lia|lia|]. destruct (enc_sub_ref wk rf true p) as [E2 _]; [lia|lia|].
    rewrite E1, E2 in Hs. repeat case_match; simplify_eq; unfold flags_progress; proj; by eexists _, _, _, _.
  - destruct (token s) as [[]|] eqn:Hto; [by simplify_eq| | |by simplify_eq]; unfold token_step in Hs; rewrite Hto in Hs.
    + case_match; by simplify_eq.
    + specialize (Htok _ eq_refl). simplify_eq. apply Hdec; [auto|]. by case_match.
  - destruct (token s) as [[]|] eqn:Hto; [|by simplify_eq..]. unfold drop_token in Hs. simplify_eq.
    apply Hdec; [eauto|]. by rewrite drop_ref_state.
  - destruct (finals s) as [|f fs] eqn:Hfi; [by simplify_eq|]. unfold final_step in Hs. rewrite Hfi in Hs.
    repeat case_match; by simplify_eq.
Qed.

(** The phases of a task follow the documented diagram.  In every reachable
    state a [Runnable] exists exactly in the scheduled part of the [Polling]
    phase and in the [Wind-down] phase, and every step goes from a phase to
    itself or along one of the transitions Polling to any phase, Wind-down to
    Closed, Completed to Closed. *)
Theorem phase_diagram sched s0 s a s' :
  s0 = spawn \/ s0 = spawn_and_forget -> run sched s0 = Next s ->
  freed s = false -> finals s = [] -> step a s = Next s' ->
  (runnable s <> None <-> phase s = WindDown \/ phase s = Polling /\ Z.land (state s) WAKE_MASK <> 0) /\
  (freed s' = false -> may_become (phase s) (phase s') = true).
Proof.
  intros H0 E Hfr Hfi Hstep. pose proof (task_reached sched s0 H0) as Hs. rewrite E in Hs.
  pose proof (step_safe a s Hs) as Hs'. rewrite Hstep in Hs'.
  destruct Hs as [(wk & rf & c & p & Hi)|[]]; [|congruence]. split.
  - rewrite (phase_enc _ _ _ _ _ Hi). pose proof (runnable_word _ _ _ _ _ Hi Hfi) as Hrw.
    pose proof Hi as [Hst _ Hwk Hrf _ _ _ _]. rewrite Hst. word_fields.
    destruct p, c; cbn [andb orb] in Hrw; rewrite ?orb_true_r, ?orb_false_r in Hrw; cbn in Hrw.
    + split; [auto|]. intros _ Hn. by apply Hrw in Hn.
    + destruct (Z.ltb_spec 0 wk).
      * split; [|intros _ Hn; by apply Hrw in Hn]. intros _. right. split; [done|lia].
      * split; [intros Hn; by destruct Hn; apply Hrw|]. intros [?|[_ ?]]; [done|lia].
    + split; [intros Hn; by destruct Hn; apply Hrw|]. intros [?|[? _]]; done.
    + split; [intros Hn; by destruct Hn; apply Hrw|]. intros [?|[? _]]; done.
  - intros Hfr'. destruct Hs' as [(wk' & rf' & c' & p' & Hi')|[]]; [|congruence].
    rewrite (phase_enc _ _ _ _ _ Hi), (phase_enc _ _ _ _ _ Hi').
    destruct (step_flags _ _ _ _ _ _ _ Hi Hstep) as (wk2 & rf2 & c2 & p2 & Hst2 & Hc & Hp).
    assert (c' = c2 /\ p' = p2) as [<- <-].
    { pose proof Hi' as [Hst' _ _ _ _ _ _ _]. rewrite Hst' in Hst2. unfold enc in Hst2.
      destruct c', p', c2, p2; cbn [Z.b2z] in Hst2; split; done || (exfalso; lia). }
    destruct p, c, p', c'; cbn; try done; try (by specialize (Hc eq_refl)); by specialize (Hp eq_refl).
Qed.

(** ** Concrete schedules *)

(** The future is woken while it is polled, and cancelled while the runnable
    is about to reset the wake count. *)
Definition busy : list Action :=
  [ARun; ARunnable PPending false; AClone; AWakeByRef; ARunnable PPending false].

Definition state_after (sched : list Action) : St :=
  match run sched spawn with Next s => s | _ => spawn end.

Lemma task_memory_safe_witness :
  run (busy ++ [ACancel; ARunnable PPending false; ARunnable PPending false; ARunnable PPending false;
                ADropPromise; ADropWaker; AFinal]) spawn <> Fault.
Proof.
  apply (task_memory_safe (busy ++ [ACancel; ARunnable PPending false; ARunnable PPending false;
    ARunnable PPending false; ADropPromise; ADropWaker; AFinal]) spawn). by left.
Defined.

Lemma task_reclaimed_witness :
  let s := state_after (busy ++ [ACancel; ARunnable PPending false; ARunnable PPending false;
                                 ARunnable PPending false; ADropPromise; ADropWaker]) in
  exists n s', (n <= 2)%nat /\ run (replicate n AFinal) s = Next s' /\ freed s' = true /\ core s' = CEmpty.
Proof.
  apply (task_reclaimed (busy ++ [ACancel; ARunnable PPending false; ARunnable PPending false;
    ARunnable PPending false; ADropPromise; ADropWaker]) spawn).
  - by left.
  - vm_compute. reflexivity.
  - vm_compute. done.
Defined.

Lemma no_lost_wakeup_witness :
  exists y s', step (ARunnable PPending false) (state_after busy) = Next s' /\
    runnable s' = Some (RPoll y) /\ woken s' = false.
Proof.
  apply (no_lost_wakeup busy spawn (state_after busy)) with (x := 2 ^ 33);
    [by left|vm_compute; reflexivity..].
Defined.

Lemma phase_diagram_witness :
  runnable (state_after busy) <> None /\
  (freed (state_after (busy ++ [ACancel])) = false ->
   may_become (phase (state_after busy)) (phase (state_after (busy ++ [ACancel]))) = true).
Proof.
  destruct (phase_diagram busy spawn (state_after busy) ACancel (state_after (busy ++ [ACancel]))) as [H1 H2];
    [by left|vm_compute; reflexivity..|].
  split; [|exact H2]. apply H1. right. split; [vm_compute; reflexivity|vm_compute; done].
Defined.
