(* ===== verification/Bit.v ===== *)
(** * Bit searches and random numbers: [util/bit.rs], [util/rng.rs]

    [find_bit] finds the set bit of a given rank with a tree of adders followed
    by a binary search, without branches.  It is shown equivalent to its
    specification, the enumeration of the set bits of the word.  The partial
    sums of the tree are numbers whose digits, in base [2 ^ (2 ^ p)], count the
    set bits of groups of [2 ^ p] adjacent bits. *)

From S2P Require Import Prelude.
Local Open Scope Z_scope.

Module Bit.

(** ** Definitions *)

(** [usize::BITS] is 64 and [P] its logarithm. *)
Definition BITS : Z := 64.
Definition P : nat := 6.

Definition group (p : nat) : Z := 2 ^ Z.of_nat p.

(** [sum_masks]: [!0 / (1 + (1 << (1 << p)))]. *)
Definition sum_mask (p : nat) : Z := u64_max / (1 + 2 ^ group p).

(** The partial sums [sum[0]], ..., [sum[P]]. *)
Fixpoint upper_sums (p n : nat) (s : Z) : list Z :=
  match n with
  | O => []
  | S n =>
      let s := Z.land (s + Z.shiftr s (group p)) (sum_mask p) in
      s :: upper_sums (S p) n s
  end.

Definition sums (value : Z) : list Z :=
  let s1 := value - Z.land (Z.shiftr value 1) (sum_mask 0) in
  let s2 := Z.land s1 (sum_mask 1) + Z.land (Z.shiftr s1 2) (sum_mask 1) in
  value :: s1 :: s2 :: upper_sums 2 (P - 2) s2.

(** [lower_sum as isize - rank as isize], [None] on overflow; the arithmetic
    shift of its result selects all bits or none. *)
Definition isize_sub (a b : Z) : option Z :=
  let d := as_isize a - as_isize b in
  if (- 2 ^ 63 <=? d) && (d <? 2 ^ 63) then Some d else None.

Definition search_step (sums : list Z) (p : nat) (st : Z * Z) : option (Z * Z) :=
  let '(rank, shift) := st in
  let sub_mask := 2 ^ group p - 1 in
  s ← sums !! p;
  let lower_sum := Z.land (Z.shiftr s shift) sub_mask in
  d ← isize_sub lower_sum rank;
  let cmp_mask := wrap64 (Z.shiftr d (BITS - 1)) in
  Some (rank - Z.land lower_sum cmp_mask, shift + Z.land (group p) cmp_mask).

Fixpoint search (sums : list Z) (p : nat) (st : Z * Z) : option (Z * Z) :=
  match p with
  | O => Some st
  | S p => st ← search_step sums p st; search sums p st
  end.

Definition find_bit (value : Z) (rank_fn : Z -> Z) : option Z :=
  let sums := sums value in
  total ← sums !! P;
  '(_, shift) ← search sums P (rank_fn total, 0);
  Some shift.

(** ** Specification *)

(** The positions of the set bits of a 64-bit word, by increasing position. *)
Definition set_bits (value : Z) : list Z := filter (fun i => Z.testbit value i = true) (seqZ 0 BITS).

Definition count_ones (value : Z) : Z := Z.of_nat (length (set_bits value)).

Example find_bit_examples :
  find_bit 44 (fun n => n) = Some 5 /\ find_bit 44 (fun _ => 1) = Some 2 /\
  find_bit u64_max (fun n => n) = Some 63 /\ find_bit (2 ^ 63) (fun n => n) = Some 63 /\
  find_bit 0 (fun n => n) = Some 0.
Proof. vm_compute. done. Qed.

(** ** Numbers by their digits in base [2 ^ w], least significant first *)

Fixpoint eval (w : Z) (l : list Z) : Z :=
  match l with [] => 0 | d :: l => d + 2 ^ w * eval w l end.

Definition digits (w : Z) (l : list Z) : Prop := Forall (fun d => 0 <= d < 2 ^ w) l.

(** Digits taken two by two. *)
Fixpoint flat (L : list (Z * Z)) : list Z :=
  match L with [] => [] | (a, b) :: L => a :: b :: flat L end.

Lemma eval_nonneg w l : digits w l -> 0 <= eval w l.
Proof. induction 1; cbn; [done|]. pose proof (Z.pow_nonneg 2 w). nia. Qed.

Lemma split_shift w d a : 0 <= w -> 0 <= d < 2 ^ w -> Z.shiftr (d + 2 ^ w * a) w = a.
Proof.
  intros Hw Hd. rewrite Z.shiftr_div_pow2 by done. rewrite Z.add_comm, Z.mul_comm.
  rewrite Z.div_add_l by lia. rewrite Z.div_small by done. lia.
Qed.

Lemma split_low w d a : 0 <= w -> 0 <= d < 2 ^ w -> Z.land (d + 2 ^ w * a) (2 ^ w - 1) = d.
Proof.
  intros Hw Hd. replace (2 ^ w - 1) with (Z.ones w) by (rewrite Z.ones_equiv; lia).
  rewrite Z.land_ones by done. rewrite Z.mul_comm, Z_mod_plus_full. by apply Z.mod_small.
Qed.

(** Bitwise conjunction works digit by digit. *)
Lemma land_split w d a m b :
  0 <= w -> 0 <= d < 2 ^ w -> 0 <= m < 2 ^ w ->
  Z.land (d + 2 ^ w * a) (m + 2 ^ w * b) = Z.land d m + 2 ^ w * Z.land a b.
Proof.
  intros Hw Hd Hm. pose proof (Z.pow_pos_nonneg 2 w ltac:(lia) Hw) as Hp.
  assert (0 <= Z.land d m < 2 ^ w) as Hdm.
  { split; [apply Z.land_nonneg; lia|]. destruct (Z.eq_dec (Z.land d m) 0) as [->|Hne]; [lia|].
    apply Z.log2_lt_cancel. rewrite Z.log2_pow2 by done.
    destruct (Z.eq_dec d 0) as [->|]; [by rewrite Z.land_0_l in Hne|].
    destruct (Z.eq_dec w 0) as [->|]; [cbn in *; lia|].
    pose proof (Z.log2_land d m ltac:(lia) ltac:(lia)).
    assert (Z.log2 d < w) by (apply Z.log2_lt_pow2; lia). lia. }
  apply Z.bits_inj'. intros n Hn. rewrite Z.land_spec.
  assert (forall x y, 0 <= x < 2 ^ w -> Z.testbit (x + 2 ^ w * y) n =
            if n <? w then Z.testbit x n else Z.testbit y (n - w)) as Hbit.
  { intros x y Hx. destruct (Z.ltb_spec n w).
    - rewrite <- (Z.mod_pow2_bits_low (x + 2 ^ w * y) w n) by lia.
      rewrite Z.mul_comm, Z_mod_plus_full, Z.mod_small by done. done.
    - replace n with (n - w + w) at 1 by lia. rewrite <- Z.shiftr_spec by lia.
      by rewrite split_shift. }
  rewrite !Hbit by done. destruct (n <? w); by rewrite Z.land_spec.
Qed.

Lemma eval_flat_even w L :
  0 <= w -> eval w (flat ((fun ab : Z * Z => (ab.1, 0)) <$> L)) = eval (2 * w) (fst <$> L).
Proof.
  intros Hw. induction L as [|[a b] L IH]; cbn; [done|]. rewrite IH.
  replace (2 * w) with (w + w) by lia. rewrite Z.pow_add_r by lia. lia.
Qed.

(** The mask of the digits of even rank. *)
Definition mask (w : Z) (n : nat) : Z := eval w (flat (replicate n (2 ^ w - 1, 0))).

Lemma land_mask w L :
  0 <= w -> digits w (flat L) ->
  Z.land (eval w (flat L)) (mask w (length L)) = eval (2 * w) (fst <$> L).
Proof.
  intros Hw Hd. rewrite <- eval_flat_even by done. unfold mask.
  induction L as [|[a b] L IH]; cbn in *; [done|].
  apply Forall_cons in Hd as [Ha [Hb Hd]%Forall_cons].
  pose proof (Z.pow_pos_nonneg 2 w ltac:(lia) Hw).
  rewrite (land_split w a) by lia. rewrite (land_split w b) by lia.
 rewrite IH by done. rewrite Z.land_0_r.
  f_equal. replace (2 ^ w - 1) with (Z.ones w) by (rewrite Z.ones_equiv; lia).
  rewrite Z.land_ones by done. by apply Z.mod_small.
Qed.

(** The digits shifted by one rank. *)
Fixpoint shift_pairs (L : list (Z * Z)) : list (Z * Z) :=
  match L with
  | [] => []
  | [(a, b)] => [(b, 0)]
  | (a, b) :: ((c, d) :: _) as L' => (b, c) :: shift_pairs L'
  end.

Lemma shift_pairs_fst L : fst <$> shift_pairs L = snd <$> L.
Proof.
  induction L as [|[a b] L IH]; [done|]. destruct L as [|[c d] L]; [done|].
  cbn [shift_pairs fmap list_fmap] in *. cbn in *. by rewrite IH.
Qed.

Lemma shift_pairs_length L : length (shift_pairs L) = length L.
Proof. rewrite <- (length_fmap fst), shift_pairs_fst. apply length_fmap. Qed.

Lemma shift_pairs_flat L : L <> [] -> flat (shift_pairs L) = tail (flat L) ++ [0].
Proof.
  induction L as [|[a b] L IH]; [done|]. intros _. destruct L as [|[c d] L]; [done|].
  change (shift_pairs ((a, b) :: (c, d) :: L)) with ((b, c) :: shift_pairs ((c, d) :: L)).
  cbn [flat tail app] in *. by rewrite IH.
Qed.

Lemma eval_snoc_0 w l : eval w (l ++ [0]) = eval w l.
Proof. induction l as [|d l IH]; cbn; [lia|]. by rewrite IH. Qed.

Lemma shiftr_pairs w L :
  0 <= w -> digits w (flat L) -> Z.shiftr (eval w (flat L)) w = eval w (flat (shift_pairs L)).
Proof.
  intros Hw Hd. destruct L as [|[a b] L]; [by rewrite Z.shiftr_0_l|].
  rewrite shift_pairs_flat, eval_snoc_0 by done. cbn. apply split_shift; [done|].
  by apply Forall_cons in Hd as [].
Qed.

Lemma shift_pairs_digits w L : 0 <= w -> digits w (flat L) -> digits w (flat (shift_pairs L)).
Proof.
  intros Hw Hd. destruct L as [|[a b] L]; [done|]. rewrite shift_pairs_flat by done.
  apply Forall_app. split.
  - cbn in *. by apply Forall_cons in Hd as [].
  - repeat constructor; [done|]. apply Z.pow_pos_nonneg; lia.
Qed.

(** Sums of adjacent digits. *)
Definition add_pairs (L : list (Z * Z)) : list Z := (fun ab => ab.1 + ab.2) <$> L.

Lemma eval_add_pairs w L : eval w (fst <$> L) + eval w (snd <$> L) = eval w (add_pairs L).
Proof. induction L as [|[a b] L IH]; cbn; [done|]. unfold add_pairs in IH. lia. Qed.

(** The first three levels of the tree. *)
Lemma level_one L :
  digits 1 (flat L) ->
  eval 1 (flat L) - Z.land (Z.shiftr (eval 1 (flat L)) 1) (mask 1 (length L)) = eval 2 (add_pairs L).
Proof.
  intros Hd. rewrite shiftr_pairs by done.
  rewrite <- shift_pairs_length, land_mask by (done || by apply shift_pairs_digits).
  rewrite shift_pairs_fst. change (2 * 1) with 2. clear Hd.
  induction L as [|[a b] L IH]; cbn -[Z.pow Z.mul] in *; [done|].
  unfold add_pairs in *. change (2 ^ 1) with 2 in *. change (2 ^ 2) with 4 in *. lia.
Qed.

Lemma level_sum w L :
  0 <= w -> digits w (flat L) ->
  Z.land (eval w (flat L)) (mask w (length L)) +
  Z.land (Z.shiftr (eval w (flat L)) w) (mask w (length L)) = eval (2 * w) (add_pairs L).
Proof.
  intros Hw Hd. rewrite shiftr_pairs, land_mask by done.
  rewrite <- shift_pairs_length, land_mask by (done || by apply shift_pairs_digits).
  rewrite shift_pairs_fst. apply eval_add_pairs.
Qed.

Definition zip_add (L L' : list (Z * Z)) : list (Z * Z) :=
  zip_with (fun ab cd => (ab.1 + cd.1, ab.2 + cd.2)) L L'.

Lemma eval_zip_add w L L' :
  length L = length L' -> eval w (flat L) + eval w (flat L') = eval w (flat (zip_add L L')).
Proof.
  revert L'. induction L as [|[a b] L IH]; intros [|[c d] L'] Hl; cbn in *; try lia.
  injection Hl as Hl. specialize (IH L' Hl). unfold zip_add in IH. lia.
Qed.

(** The upper levels, where sums of two digits do not overflow. *)
Lemma level_masked w L :
  0 <= w -> Forall (fun d => 0 <= d /\ 2 * d < 2 ^ w) (flat L) ->
  Z.land (eval w (flat L) + Z.shiftr (eval w (flat L)) w) (mask w (length L)) = eval (2 * w) (add_pairs L).
Proof.
  intros Hw Hd. assert (digits w (flat L)) as Hd' by (eapply Forall_impl; [exact Hd|]; cbn; lia).
  rewrite shiftr_pairs by done.
  rewrite eval_zip_add by (by rewrite shift_pairs_length).
  assert (length (zip_add L (shift_pairs L)) = length L) as Hl.
  { unfold zip_add. rewrite length_zip_with, shift_pairs_length. lia. }
  rewrite <- Hl, land_mask; [|done|].
  - f_equal. pose proof (shift_pairs_fst L) as Hf. pose proof (shift_pairs_length L) as Hl'.
    revert Hf Hl'. unfold zip_add, add_pairs. generalize (shift_pairs L). clear.
    induction L as [|[a b] L IH]; intros [|[c d] L'] Hf Hl; cbn in *; try done.
    injection Hf as -> Hf. injection Hl as Hl. f_equal. by apply IH.
  - assert (Forall (fun d => 0 <= d /\ 2 * d < 2 ^ w) (flat (shift_pairs L))) as Hs.
    { destruct L as [|[a b] L]; [constructor|]. rewrite shift_pairs_flat by done. apply Forall_app. split.
      - by apply Forall_cons in Hd as [].
      - repeat constructor; [done|]. pose proof (Z.pow_pos_nonneg 2 w). lia. }
    pose proof (shift_pairs_length L) as Hl'. revert Hs Hd Hl'. unfold zip_add. generalize (shift_pairs L).
    clear. induction L as [|[a b] L IH]; intros [|[c d] L'] Hs Hd Hl; cbn in *; try (by constructor).
    apply Forall_cons in Hs as [? [? Hs]%Forall_cons], Hd as [? [? Hd]%Forall_cons].
    injection Hl as Hl. constructor; [lia|]. constructor; [lia|]. by apply IH.
Qed.

(** ** The levels of the tree count the set bits of groups *)

(** The number of set bits among the [n] bits from position [lo]. *)
Fixpoint count (value : Z) (lo n : nat) : Z :=
  match n with O => 0 | S n => Z.b2z (Z.testbit value (Z.of_nat lo)) + count value (S lo) n end.

Lemma count_add v lo n k : count v lo (n + k) = count v lo n + count v (lo + n) k.
Proof.
  revert lo. induction n as [|n IH]; intros lo; cbn; [by rewrite Nat.add_0_r|].
  rewrite IH, Nat.add_succ_r. cbn. lia.
Qed.

Lemma count_range v lo n : 0 <= count v lo n <= Z.of_nat n.
Proof.
  revert lo. induction n as [|n IH]; intros lo; cbn -[Z.of_nat]; [lia|].
  specialize (IH (S lo)). destruct (Z.testbit _ _); cbn [Z.b2z]; lia.
Qed.

(** The counts of [n] groups of [g] bits, two by two and one by one. *)
Definition level (v : Z) (g n : nat) : list Z := (fun i => count v (i * g) g) <$> seq 0 n.
Definition level_pairs (v : Z) (g n : nat) : list (Z * Z) :=
  (fun i => (count v (2 * i * g) g, count v ((2 * i + 1) * g) g)) <$> seq 0 n.

Lemma flat_seq (f : nat -> Z) k n :
  flat ((fun i => (f (2 * i), f (2 * i + 1))%nat) <$> seq k n) = f <$> seq (2 * k) (2 * n).
Proof.
  revert k. induction n as [|n IH]; intros k; [done|].
  replace (2 * S n)%nat with (S (S (2 * n))) by lia. cbn [seq fmap list_fmap flat].
  replace (S (2 * k)) with (2 * k + 1)%nat by lia. do 2 f_equal.
  specialize (IH (S k)). by replace (2 * S k)%nat with (S (2 * k + 1)) in IH by lia.
Qed.

Lemma level_flat v g n : flat (level_pairs v g n) = level v g (2 * n).
Proof. apply (flat_seq (fun i => count v (i * g) g) 0). Qed.

Lemma level_add v g n : add_pairs (level_pairs v g n) = level v (2 * g) n.
Proof.
  unfold add_pairs, level_pairs, level. rewrite <- list_fmap_compose. apply list_fmap_ext.
  intros _ i _. unfold compose. cbn [fst snd].
  replace ((2 * i + 1) * g)%nat with (2 * i * g + g)%nat by lia.
  rewrite <- count_add. f_equal; lia.
Qed.

Lemma level_pairs_length v g n : length (level_pairs v g n) = n.
Proof. unfold level_pairs. by rewrite length_fmap, length_seq. Qed.

Lemma level_digits v g n w : Z.of_nat g < 2 ^ w -> digits w (level v g n).
Proof.
  intros Hg. apply Forall_fmap, Forall_forall. intros i _. cbn.
  pose proof (count_range v (i * g) g). lia.
Qed.

Lemma eval_bits v k n :
  eval 1 ((fun i => count v (i * 1) 1) <$> seq k n) = Z.shiftr v (Z.of_nat k) mod 2 ^ Z.of_nat n.
Proof.
  revert k. induction n as [|n IH]; intros k; [by rewrite Z.mod_1_r|].
  cbn [seq fmap list_fmap eval]. unfold fmap in IH. rewrite IH. clear IH.
  replace (count v (k * 1) 1) with (Z.b2z (Z.testbit v (Z.of_nat k)))
    by (cbn -[Z.of_nat]; rewrite Nat.mul_1_r; lia).
  rewrite !Nat2Z.inj_succ, Z.pow_succ_r by lia. rewrite Z.rem_mul_r by lia.
  rewrite <- Z.bit0_mod, Z.shiftr_spec, Z.add_0_l by lia.
  change (2 ^ 1) with 2. do 2 f_equal. rewrite <- Z.add_1_r, <- Z.shiftr_shiftr by lia.
  by rewrite (Z.shiftr_div_pow2 _ 1) by lia.
Qed.

Lemma eval_word v : 0 <= v < 2 ^ 64 -> eval 1 (level v 1 64) = v.
Proof. intros Hv. unfold level. rewrite eval_bits. cbn [Z.of_nat]. rewrite Z.shiftr_0_r. by apply Z.mod_small. Qed.

Lemma sum_mask_spec :
  sum_mask 0 = mask 1 32 /\ sum_mask 1 = mask 2 16 /\ sum_mask 2 = mask 4 8 /\
  sum_mask 3 = mask 8 4 /\ sum_mask 4 = mask 16 2 /\ sum_mask 5 = mask 32 1.
Proof. vm_compute. done. Qed.

(** One level of the tree, in terms of counts. *)
Lemma level_step v g n w :
  0 <= w -> Z.of_nat g < 2 ^ w -> 2 * Z.of_nat g < 2 ^ w ->
  Z.land (eval w (level v g (2 * n)) + Z.shiftr (eval w (level v g (2 * n))) w) (mask w n) =
  eval (2 * w) (level v (2 * g) n).
Proof.
  intros Hw Hg H2. rewrite <- level_flat, <- level_add.
  pose proof (level_masked w (level_pairs v g n) Hw) as Hm. rewrite level_pairs_length in Hm.
  apply Hm. rewrite level_flat. apply Forall_fmap, Forall_forall. intros i _. cbn. pose proof (count_range v (i * g) g). lia.
Qed.

(** The partial sums of the tree of adders. *)
Lemma sums_spec v : 0 <= v < 2 ^ 64 ->
  sums v = [eval 1 (level v 1 64); eval 2 (level v 2 32); eval 4 (level v 4 16); eval 8 (level v 8 8);
            eval 16 (level v 16 4); eval 32 (level v 32 2); eval 64 (level v 64 1)].
Proof.
  intros Hv. destruct sum_mask_spec as (M0 & M1 & M2 & M3 & M4 & M5).
  unfold sums. cbn [upper_sums P Nat.sub]. rewrite M0, M1, M2, M3, M4, M5.
  assert (v - Z.land (Z.shiftr v 1) (mask 1 32) = eval 2 (level v 2 32)) as ->.
  { pose proof (level_one (level_pairs v 1 32)) as H1. rewrite level_flat, level_add, level_pairs_length in H1.
    change (2 * 32)%nat with 64%nat in H1. rewrite eval_word in H1 by done. apply H1. by apply level_digits. }
  assert (Z.land (eval 2 (level v 2 32)) (mask 2 16) + Z.land (Z.shiftr (eval 2 (level v 2 32)) 2) (mask 2 16) =
          eval 4 (level v 4 16)) as ->.
  { pose proof (level_sum 2 (level_pairs v 2 16)) as H1. rewrite level_flat, level_add, level_pairs_length in H1.
    apply H1; [done|]. by apply level_digits. }
  rewrite <- (eval_word v) at 1 by done. do 3 f_equal.
  pose proof (level_step v 4 8 4 ltac:(done) ltac:(done) ltac:(done)) as E1.
  pose proof (level_step v 8 4 8 ltac:(done) ltac:(done) ltac:(done)) as E2.
  pose proof (level_step v 16 2 16 ltac:(done) ltac:(done) ltac:(done)) as E3.
  pose proof (level_step v 32 1 32 ltac:(done) ltac:(done) ltac:(done)) as E4.
  change (group 2) with 4. change (group 3) with 8. change (group 4) with 16. change (group 5) with 32.
  cbn [Nat.mul Nat.add] in E1, E2, E3, E4.
  change (2 * 4) with 8 in E1. change (2 * 8) with 16 in E2. change (2 * 16) with 32 in E3.
  rewrite E1, E2, E3, E4. done.
Qed.

(** ** The binary search *)

(** Extraction of a digit. *)
Lemma eval_digit w l i d :
  0 <= w -> digits w l -> l !! i = Some d ->
  Z.land (Z.shiftr (eval w l) (Z.of_nat i * w)) (2 ^ w - 1) = d.
Proof.
  intros Hw Hd. revert i. induction Hd as [|x l Hx Hd IH]; intros i Hi; [done|].
  destruct i as [|i]; cbn in Hi.
  - simplify_eq. rewrite Z.shiftr_0_r. cbn. by apply split_low.
  - rewrite Nat2Z.inj_succ. replace (Z.succ (Z.of_nat i) * w) with (w + Z.of_nat i * w) by lia.
    rewrite <- Z.shiftr_shiftr by nia. cbn [eval]. rewrite split_shift by done. by apply IH.
Qed.

(** The partial sums as one function of the level. *)
Lemma sums_lookup v p :
  0 <= v < 2 ^ 64 -> (p <= 6)%nat ->
  sums v !! p = Some (eval (group p) (level v (2 ^ p) (2 ^ (6 - p)))).
Proof. intros Hv Hp. rewrite sums_spec by done. do 7 (destruct p as [|p]; [done|]). lia. Qed.

Lemma group_count p : (p <= 6)%nat -> Z.of_nat (2 ^ p) < 2 ^ group p.
Proof. intros Hp. do 7 (destruct p as [|p]; [done|]). lia. Qed.

Lemma group_nat p : Z.of_nat (2 ^ p) = group p.
Proof. unfold group. by rewrite Nat2Z.inj_pow. Qed.

(** The lower half of the group of [2 ^ (p + 1)] bits at [k * 2 ^ (p + 1)]. *)
Lemma lower_sum_spec v p k :
  0 <= v < 2 ^ 64 -> (p < 6)%nat -> (k < 2 ^ (5 - p))%nat ->
  exists s, sums v !! p = Some s /\
    Z.land (Z.shiftr s (Z.of_nat (k * 2 ^ S p))) (2 ^ group p - 1) = count v (k * 2 ^ S p) (2 ^ p).
Proof.
  intros Hv Hp Hk. eexists. split; [apply sums_lookup; [done|lia]|].
  replace (Z.of_nat (k * 2 ^ S p)) with (Z.of_nat (2 * k) * group p).
  2:{ rewrite <- group_nat, <- Nat2Z.inj_mul, Nat.pow_succ_r'. f_equal. lia. }
  apply eval_digit; [unfold group; lia|apply level_digits, group_count; lia|].
  unfold level. rewrite list_lookup_fmap, lookup_seq_lt.
  - cbn [fmap option_fmap option_map Nat.add]. do 2 f_equal. rewrite Nat.pow_succ_r'. lia.
  - replace (6 - p)%nat with (S (5 - p)) by lia. rewrite Nat.pow_succ_r'. lia.
Qed.

Lemma search_step_spec v p k r :
  0 <= v < 2 ^ 64 -> (p < 6)%nat -> (k < 2 ^ (5 - p))%nat -> 0 <= r < 2 ^ 63 ->
  search_step (sums v) p (r, Z.of_nat (k * 2 ^ S p)) =
  let c := count v (k * 2 ^ S p) (2 ^ p) in
  Some (if c <? r then (r - c, Z.of_nat ((2 * k + 1) * 2 ^ p)) else (r, Z.of_nat (2 * k * 2 ^ p))).
Proof.
  intros Hv Hp Hk Hr. destruct (lower_sum_spec v p k Hv Hp Hk) as (s & Hs & Hl).
  unfold search_step. rewrite Hs. cbn [mbind option_bind]. rewrite Hl.
  set (c := count v _ _). assert (0 <= c <= 64) as Hc.
  { unfold c. pose proof (count_range v (k * 2 ^ S p) (2 ^ p)). 
    assert (2 ^ p <= 2 ^ 6)%nat by (apply Nat.pow_le_mono_r; lia). cbn [Nat.pow Nat.mul Nat.add] in *. lia. }
  unfold isize_sub, as_isize. destruct (Z.ltb_spec c (2 ^ 63)), (Z.ltb_spec r (2 ^ 63)); try lia.
  destruct (Z.leb_spec (- 2 ^ 63) (c - r)), (Z.ltb_spec (c - r) (2 ^ 63)); try lia. cbn [andb mbind option_bind].
  assert (0 <= group p < 2 ^ 64) as Hg by (do 6 (destruct p as [|p]; [vm_compute; split; congruence|]); lia).
  destruct (Z.ltb_spec c r) as [Hlt|Hge].
  - assert (wrap64 (Z.shiftr (c - r) (BITS - 1)) = Z.ones 64) as ->.
    { rewrite Z.shiftr_div_pow2 by done. replace ((c - r) / 2 ^ (BITS - 1)) with (-1); [done|].
      unfold BITS. apply Z.div_unique with (c - r + 2 ^ 63); lia. }
    rewrite !Z.land_ones by done. rewrite !Z.mod_small by lia. do 2 f_equal. rewrite <- group_nat, Nat.pow_succ_r'. lia.
  - assert (wrap64 (Z.shiftr (c - r) (BITS - 1)) = 0) as ->.
    { rewrite Z.shiftr_div_pow2 by done. unfold BITS. rewrite Z.div_small by lia. done. }
    rewrite !Z.land_0_r. do 2 f_equal; rewrite ?Nat.pow_succ_r'; lia.
Qed.

(** The search within the group of [2 ^ p] bits at [k * 2 ^ p]: the bit of rank
    [r] if there is one, the last bit of the group if there is none. *)
Lemma search_spec v p k r :
  0 <= v < 2 ^ 64 -> (p <= 6)%nat -> (k < 2 ^ (6 - p))%nat -> 0 < r < 2 ^ 63 ->
  exists r' pos, search (sums v) p (r, Z.of_nat (k * 2 ^ p)) = Some (r', Z.of_nat (k * 2 ^ p + pos)) /\
    (pos < 2 ^ p)%nat /\
    (r <= count v (k * 2 ^ p) (2 ^ p) ->
       count v (k * 2 ^ p) pos = r - 1 /\ Z.testbit v (Z.of_nat (k * 2 ^ p + pos)) = true) /\
    (count v (k * 2 ^ p) (2 ^ p) < r -> S pos = (2 ^ p)%nat).
Proof.
  intros Hv. revert k r. induction p as [|p IH]; intros k r Hp Hk Hr.
  { exists r, 0%nat. rewrite Nat.add_0_r. cbn. split_and!; [done|lia| |done].
    rewrite Nat.mul_1_r. destruct (Z.testbit v (Z.of_nat k)); cbn; intros; [|lia]. split; [lia|done]. }
  cbn [search]. rewrite search_step_spec by (done || lia). cbn [mbind option_bind]. cbv zeta.
  set (c := count v (k * 2 ^ S p) (2 ^ p)).
  replace (6 - p)%nat with (S (6 - S p)) in IH by lia. rewrite Nat.pow_succ_r' in IH.
  assert (count v (k * 2 ^ S p) (2 ^ S p) = c + count v ((2 * k + 1) * 2 ^ p) (2 ^ p)) as Hsplit.
  { unfold c. rewrite (Nat.pow_succ_r' 2 p). replace (2 * 2 ^ p)%nat with (2 ^ p + 2 ^ p)%nat at 2 by lia.
    rewrite count_add. do 2 f_equal; lia. }
  assert (c = count v (2 * k * 2 ^ p) (2 ^ p)) as Hc by (unfold c; rewrite Nat.pow_succ_r'; f_equal; lia).
  pose proof (count_range v (k * 2 ^ S p) (2 ^ p)) as Hcr. fold c in Hcr.
  pose proof (count_range v ((2 * k + 1) * 2 ^ p) (2 ^ p)) as Hcr'. rewrite Hsplit.
  destruct (Z.ltb_spec c r) as [Hlt|Hge].
  - destruct (IH (2 * k + 1)%nat (r - c)) as (r' & pos & Hs & Hpos & Hin & Hout); [lia|lia|lia|].
    exists r', (2 ^ p + pos)%nat. rewrite Hs.
    replace ((2 * k + 1) * 2 ^ p + pos)%nat with (k * 2 ^ S p + (2 ^ p + pos))%nat in *
      by (rewrite Nat.pow_succ_r'; lia).
    split_and!; [done|rewrite Nat.pow_succ_r'; lia| |].
    + intros Hle. destruct Hin as [Hcnt Hbit]; [lia|]. split; [|done].
      rewrite count_add. fold c.
      replace (k * 2 ^ S p + 2 ^ p)%nat with ((2 * k + 1) * 2 ^ p)%nat by (rewrite Nat.pow_succ_r'; lia). lia.
    + intros Hgt. specialize (Hout ltac:(lia)). rewrite Nat.pow_succ_r'. lia.
  - destruct (IH (2 * k)%nat r) as (r' & pos & Hs & Hpos & Hin & Hout); [lia|lia|lia|].
    exists r', pos. rewrite Hs.
    replace (2 * k * 2 ^ p)%nat with (k * 2 ^ S p)%nat in * by (rewrite Nat.pow_succ_r'; lia).
    split_and!; [done|rewrite Nat.pow_succ_r'; lia| |lia].
    intros _. apply Hin. fold c. lia.
Qed.

Lemma count_filter v lo n :
  count v lo n = Z.of_nat (length (filter (fun i => Z.testbit v i = true) (seqZ (Z.of_nat lo) (Z.of_nat n)))).
Proof.
  revert lo. induction n as [|n IH]; intros lo; [done|].
  rewrite seqZ_cons by lia. rewrite filter_cons. cbn [count]. rewrite IH.
  replace (Z.succ (Z.of_nat lo)) with (Z.of_nat (S lo)) by lia.
  replace (Z.pred (Z.of_nat (S n))) with (Z.of_nat n) by lia.
  destruct (Z.testbit v (Z.of_nat lo)) eqn:E; case_decide; try done. cbn [length Z.b2z]. lia.
Qed.

Lemma count_ones_count v : count_ones v = count v 0 64.
Proof. by rewrite count_filter. Qed.

Lemma set_bits_lookup v pos :
  (pos < 64)%nat -> Z.testbit v (Z.of_nat pos) = true ->
  set_bits v !! Z.to_nat (count v 0 pos) = Some (Z.of_nat pos).
Proof.
  intros Hp Hb. unfold set_bits, BITS. replace 64 with (Z.of_nat pos + (64 - Z.of_nat pos)) by lia.
  rewrite seqZ_app by lia. rewrite filter_app, (seqZ_cons _ (64 - _)) by lia.
  rewrite filter_cons_True by done. rewrite count_filter, Nat2Z.id. by apply list_lookup_middle.
Qed.

(** The reference: the bit of the given rank in the enumeration of set bits, the
    first bit for rank zero and the last one for a rank that is too large. *)
Definition nth_bit (value rank : Z) : Z :=
  if rank =? 0 then 0 else default (BITS - 1) (set_bits value !! Z.to_nat (rank - 1)).

Lemma search_zero sm p :
  (forall q, (q < p)%nat -> exists s, sm !! q = Some s /\ 0 <= Z.land s (2 ^ group q - 1) < 2 ^ 63) ->
  search sm p (0, 0) = Some (0, 0).
Proof.
  induction p as [|p IH]; intros Hs; [done|]. cbn [search]. destruct (Hs p) as (s & Hp & Hl); [lia|].
  unfold search_step. rewrite Hp. cbn [mbind option_bind]. rewrite Z.shiftr_0_r.
  unfold isize_sub, as_isize. destruct (Z.ltb_spec (Z.land s (2 ^ group p - 1)) (2 ^ 63)); [|lia].
  cbn [Z.ltb Z.compare]. change (0 <? 2 ^ 63) with true. cbv iota. rewrite Z.sub_0_r.
  destruct (Z.leb_spec (- 2 ^ 63) (Z.land s (2 ^ group p - 1))); [|lia].
  destruct (Z.ltb_spec (Z.land s (2 ^ group p - 1)) (2 ^ 63)); [|lia]. cbn [andb mbind option_bind].
  rewrite Z.shiftr_div_pow2 by done. unfold BITS. rewrite Z.div_small by lia.
  change (wrap64 0) with 0. rewrite !Z.land_0_r. apply IH. intros q Hq. apply Hs. lia.
Qed.

Lemma find_bit_reference (value : Z) (rank_fn : Z -> Z) :
  0 <= value < 2 ^ 64 -> 0 <= rank_fn (count_ones value) < 2 ^ 63 ->
  find_bit value rank_fn = Some (nth_bit value (rank_fn (count_ones value))).
Proof.
  intros Hv Hr. unfold find_bit, P. rewrite sums_lookup by (done || lia). cbn [mbind option_bind].
  replace (eval (group 6) (level value (2 ^ 6) (2 ^ (6 - 6)))) with (count_ones value).
  2:{ rewrite count_ones_count. cbn -[count Z.pow Z.mul]. lia. }
  set (r := rank_fn _) in *. unfold nth_bit. destruct (Z.eqb_spec r 0) as [->|Hr0].
  - rewrite search_zero; [done|]. intros q Hq.
    destruct (lower_sum_spec value q 0) as (s & Hs & Hl); [done|lia|apply Nat.neq_0_lt_0, Nat.pow_nonzero; lia|].
    exists s. split; [done|]. rewrite Z.shiftr_0_r in Hl. cbn [Nat.mul] in Hl. rewrite Hl.
    pose proof (count_range value 0 (2 ^ q)). assert (2 ^ q <= 2 ^ 6)%nat by (apply Nat.pow_le_mono_r; lia).
    change (2 ^ 6)%nat with 64%nat in *. lia.
  - destruct (search_spec value 6 0 r) as (r' & pos & Hs & Hpos & Hin & Hout); [done|lia|cbn; lia|lia|].
    cbn [Nat.mul Nat.add] in *. change (Z.of_nat 0) with 0 in Hs. rewrite Hs. cbn [mbind option_bind]. f_equal.
    change (2 ^ 6)%nat with 64%nat in *.
    destruct (Z.le_gt_cases r (count value 0 64)) as [Hle|Hgt].
    + destruct (Hin Hle) as [Hc Hb]. rewrite <- Hc, set_bits_lookup by done. done.
    + specialize (Hout Hgt). rewrite lookup_ge_None_2; [unfold BITS; cbn; lia|]. pose proof (count_ones_count value) as Hc.
      unfold count_ones in Hc. lia.
Qed.

(** The branchless search of [find_bit] is equivalent to the enumeration of
    the set bits of the word: for every 64-bit value and every rank function, it
    does not overflow, passes the number of set bits to the function and
    returns the position of the set bit of the rank asked for, 0 for rank zero
    and 63 for a rank beyond the number of set bits, as documented. *)
Theorem find_bit_equiv (value : Z) (rank_fn : Z -> Z) :
  0 <= value < 2 ^ 64 -> 0 <= rank_fn (count_ones value) < 2 ^ 63 ->
  find_bit value rank_fn = Some (nth_bit value (rank_fn (count_ones value))).
Proof. apply find_bit_reference. Qed.

Lemma find_bit_equiv_witness : find_bit 44 (fun n => n - 1) = Some 3.
Proof.
  rewrite (find_bit_equiv 44 (fun n => n - 1)); [reflexivity|lia|]. vm_compute. split; congruence.
Defined.
End Bit.
