(* ===== verification/PoolManager.v ===== *)
(** * Random numbers and the choice of a victim: [util/rng.rs] and
      [ShuffledStealers] of [executor/mt_executor/pool_manager.rs]

    A worker that looks for tasks visits all other active workers once,
    starting from one chosen at random.  The candidates are the set bits of a
    word, which is rotated so that the current candidate is its lowest bit. *)

From S2P Require Import Prelude Bit.
Local Open Scope Z_scope.

(** ** Random numbers *)
Module Rng.

(** [rand]: the result and the new seed. *)
Definition rand (seed : Z) : Z * Z :=
  let seed := wrap64 (seed + 0xA0761D6478BD642F) in
  let t := seed * Z.lxor seed 0xE7037ED1A0B428DB in
  (Z.lxor (wrap64 t) (wrap64 (Z.shiftr t 64)), seed).

Definition rand_bounded (upper_bound seed : Z) : Z * Z :=
  let '(r, seed) := rand seed in (wrap64 (Z.shiftr (r * upper_bound) 64), seed).

Lemma lxor_range n a b : 0 <= n -> 0 <= a < 2 ^ n -> 0 <= b < 2 ^ n -> 0 <= Z.lxor a b < 2 ^ n.
Proof.
  intros Hn Ha Hb. split; [apply Z.lxor_nonneg; lia|].
  destruct (Z.eq_dec (Z.lxor a b) 0) as [->|Hne]; [lia|].
  assert (0 <= Z.lxor a b) by (apply Z.lxor_nonneg; lia).
  apply Z.log2_lt_pow2; [lia|]. pose proof (Z.log2_lxor a b ltac:(lia) ltac:(lia)).
  destruct (Z.eq_dec n 0) as [->|]; [cbn in *; assert (a = 0) by lia; assert (b = 0) by lia; subst; done|].
  assert (forall x, 0 <= x < 2 ^ n -> Z.log2 x < n) as Hl.
  { intros x Hx. destruct (Z.eq_dec x 0) as [->|]; [cbn; lia|]. apply Z.log2_lt_pow2; lia. }
  pose proof (Hl a Ha). pose proof (Hl b Hb). lia.
Qed.

Lemma rand_range seed : 0 <= (rand seed).1 < 2 ^ 64.
Proof. apply lxor_range; [done|..]; by apply wrap_range. Qed.

(** The bounded generator respects its bound, whatever the seed. *)
Lemma rand_bounded_range b seed : 0 < b < 2 ^ 64 -> 0 <= (rand_bounded b seed).1 < b.
Proof.
  intros Hb. unfold rand_bounded. pose proof (rand_range seed) as Hr. destruct (rand seed) as [r s]. cbn in *.
  rewrite Z.shiftr_div_pow2 by done.
  assert (0 <= r * b / 2 ^ 64 < b) as Hd.
  { split; [apply Z.div_pos; lia|]. apply Z.div_lt_upper_bound; nia. }
  unfold wrap64. rewrite wrap_small; lia.
Qed.
End Rng.

(** ** Shuffled stealers *)
Module ShuffledStealers.
Import Bit.

(** [usize::trailing_zeros]. *)
Definition trailing_zeros (x : Z) : Z := default 64 (head (set_bits x)).

(** The stealers are given by their number; an item of the iterator by its
    index. *)
Record ShuffledStealers : Type := mkShuffled {
  stealers_len : Z; candidates : Z; next_candidate : Z }.

(** [None] is a panic; the state of the generator is threaded through. *)
Definition new (candidates : Z) (len : Z) (seed : Z) : option (ShuffledStealers * Z) :=
  if candidates =? 0 then Some (mkShuffled len 0 0, seed)
  else
    let seed' := (Rng.rand_bounded (count_ones candidates) seed).2 in
    next_candidate ← find_bit candidates (fun count => (Rng.rand_bounded count seed).1 + 1);
    let candidates :=
      if next_candidate =? 0 then candidates
      else
        let lower_bits := Z.land candidates (2 ^ next_candidate - 1) in
        Z.lor (Z.shiftr candidates next_candidate)
              (wrap64 (Z.shiftl lower_bits (len - next_candidate))) in
    Some (mkShuffled len candidates next_candidate, seed').

Definition next (s : ShuffledStealers) : option (option Z * ShuffledStealers) :=
  if candidates s =? 0 then Some (None, s)
  else
    let cands := Z.ldiff (candidates s) 1 in
    let current_candidate := next_candidate s in
    let s' :=
      if cands =? 0 then mkShuffled (stealers_len s) cands (next_candidate s)
      else
        let shift := trailing_zeros cands in
        let n := next_candidate s + shift in
        mkShuffled (stealers_len s) (Z.shiftr cands shift)
          (if stealers_len s <=? n then n - stealers_len s else n) in
    if current_candidate <? stealers_len s then Some (Some current_candidate, s') else None.

(** All the items of the iterator. *)
Fixpoint collect (fuel : nat) (s : ShuffledStealers) : option (list Z) :=
  match fuel with
  | O => None
  | S fuel =>
      '(o, s) ← next s;
      match o with
      | None => Some []
      | Some i => l ← collect fuel s; Some (i :: l)
      end
  end.

(** ** Set bits *)

Lemma elem_set_bits x i : i ∈ set_bits x <-> Z.testbit x i = true /\ 0 <= i < 64.
Proof. unfold set_bits, BITS. rewrite list_elem_of_filter, elem_of_seqZ. intuition lia. Qed.

Lemma testbit_range x n : 0 <= x < 2 ^ 64 -> 0 <= n -> Z.testbit x n = true -> n < 64.
Proof.
  intros Hx Hn E. destruct (Z.lt_ge_cases n 64); [done|].
  destruct (Z.eq_dec x 0) as [->|]; [by rewrite Z.bits_0 in E|].
  assert (Z.log2 x < 64) by (apply Z.log2_lt_pow2; lia). rewrite Z.bits_above_log2 in E; [done|lia|lia].
Qed.

Lemma elem_set_bits_word x i : 0 <= x < 2 ^ 64 -> i ∈ set_bits x <-> Z.testbit x i = true /\ 0 <= i.
Proof.
  intros Hx. rewrite elem_set_bits. split; [intuition|]. intros [Hb Hi]. pose proof (testbit_range x i Hx Hi Hb).
  intuition.
Qed.

Lemma set_bits_nil x : 0 <= x < 2 ^ 64 -> set_bits x = [] <-> x = 0.
Proof.
  intros Hx. split; [|by intros ->]. intros Hn. apply Z.bits_inj'. intros n Hn'. rewrite Z.bits_0.
  destruct (Z.testbit x n) eqn:E; [|done]. exfalso.
  assert (n ∈ set_bits x) as Hin by (apply elem_set_bits_word; done). rewrite Hn in Hin. by apply elem_of_nil in Hin.
Qed.

(** The enumeration is the only increasing one. *)
Lemma seqZ_sorted m n : StronglySorted Z.lt (seqZ m n).
Proof.
  destruct (Z.le_gt_cases n 0) as [Hn|Hn]; [rewrite seqZ_nil by done; constructor|].
  replace n with (Z.of_nat (Z.to_nat n)) by lia. clear Hn. generalize (Z.to_nat n) as k. clear n. intros k. revert m.
  induction k as [|k IH]; intros m; [constructor|]. rewrite seqZ_cons by lia.
  replace (Z.pred (Z.of_nat (S k))) with (Z.of_nat k) by lia. constructor; [apply IH|].
  apply Forall_forall. intros x Hx%elem_of_seqZ. lia.
Qed.

Lemma sorted_lt_eq (l l' : list Z) :
  StronglySorted Z.lt l -> StronglySorted Z.lt l' -> (forall i, i ∈ l <-> i ∈ l') -> l = l'.
Proof.
  assert (forall l, StronglySorted Z.lt l -> NoDup l /\ StronglySorted Z.le l) as Hs.
  { induction 1 as [|x k Hs [IH1 IH2] Hall]; [split; constructor|]. rewrite Forall_forall in Hall. split.
    - constructor; [|done]. intros Hin. apply Hall in Hin. lia.
    - constructor; [done|]. apply Forall_forall. intros y Hy. apply Hall in Hy. lia. }
  intros Hl Hl' He. destruct (Hs l Hl) as [Hn Hle], (Hs l' Hl') as [Hn' Hle'].
  apply (StronglySorted_unique Z.le); [done|done|]. by apply NoDup_Permutation.
Qed.

Lemma set_bits_sorted x : StronglySorted Z.lt (set_bits x).
Proof. apply StronglySorted_filter, seqZ_sorted. Qed.

Lemma fmap_add_sorted k (l : list Z) : StronglySorted Z.lt l -> StronglySorted Z.lt (Z.add k <$> l).
Proof.
  induction 1 as [|x l Hs IH Hall]; cbn; constructor; [done|]. apply Forall_fmap.
  eapply Forall_impl; [exact Hall|]. intros y Hy. cbn. lia.
Qed.

(** Shifting out zeros shifts the positions. *)
Lemma set_bits_shift x k :
  0 <= k -> 0 <= x < 2 ^ 64 -> (forall i, 0 <= i < k -> Z.testbit x i = false) ->
  set_bits x = Z.add k <$> set_bits (Z.shiftr x k).
Proof.
  intros Hk Hx Hz. apply sorted_lt_eq; [apply set_bits_sorted|apply fmap_add_sorted, set_bits_sorted|].
  intros i. rewrite elem_set_bits, list_elem_of_fmap. setoid_rewrite elem_set_bits. split.
  - intros [Hb Hi]. exists (i - k). destruct (Z.lt_ge_cases i k); [rewrite Hz in Hb by lia; done|].
    rewrite Z.shiftr_spec by lia. replace (i - k + k) with i by lia. split; [lia|]. split; [done|lia].
  - intros (j & -> & Hb & Hj). rewrite Z.shiftr_spec in Hb by lia. rewrite (Z.add_comm k j).
    split; [done|]. pose proof (testbit_range x (j + k) Hx ltac:(lia) Hb). lia.
Qed.

(** The lowest set bit of an odd word is cleared. *)
Lemma set_bits_clear x : 0 <= x < 2 ^ 64 -> Z.testbit x 0 = true -> set_bits x = 0 :: set_bits (Z.ldiff x 1).
Proof.
  intros Hx H0. assert (forall i, 0 < i -> Z.testbit 1 i = false) as H1.
  { intros i Hi. rewrite Z.bits_above_log2; [done|lia|cbn; lia]. }
  apply sorted_lt_eq; [apply set_bits_sorted| |].
  - constructor; [apply set_bits_sorted|]. apply Forall_forall. intros i. rewrite elem_set_bits, Z.ldiff_spec.
    intros [Hb Hi]. destruct (Z.eq_dec i 0) as [->|]; [|lia]. rewrite H0 in Hb. done.
  - intros i. rewrite elem_of_cons, !elem_set_bits, Z.ldiff_spec. destruct (Z.eq_dec i 0) as [->|Hne].
    + intuition lia.
    + split.
      * intros [Hb Hi]. right. rewrite Hb, H1 by lia. done.
      * intros [->|[Hb Hi]]; [done|]. apply andb_true_iff in Hb as [Hb _]. done.
Qed.

(** ** The iteration *)

Lemma bits_above x n i : 0 <= n -> 0 <= x < 2 ^ n -> n <= i -> Z.testbit x i = false.
Proof.
  intros Hn Hx Hi. destruct (Z.eq_dec x 0) as [->|]; [apply Z.bits_0|].
  rewrite Z.bits_above_log2; [done|lia|]. assert (Z.log2 x < n) by (apply Z.log2_lt_pow2; lia). lia.
Qed.

Lemma bits_word x n : 0 <= n -> 0 <= x -> (forall i, n <= i -> Z.testbit x i = false) -> 0 <= x < 2 ^ n.
Proof.
  intros Hn Hx Hb. split; [done|]. destruct (Z.lt_ge_cases x (2 ^ n)) as [|Hge]; [done|]. exfalso.
  pose proof (Z.pow_pos_nonneg 2 n ltac:(lia) Hn) as Hp.
  pose proof (Z.bit_log2 x ltac:(lia)) as Hl. rewrite Hb in Hl; [done|]. apply Z.log2_le_pow2; lia.
Qed.

Lemma ldiff_range x n y : 0 <= n -> 0 <= x < 2 ^ n -> 0 <= Z.ldiff x y < 2 ^ n.
Proof.
  intros Hn Hx. apply bits_word; [done|apply Z.ldiff_nonneg; lia|]. intros i Hi.
  by rewrite Z.ldiff_spec, (bits_above x n) by done.
Qed.

Lemma shiftr_range x k n : 0 <= k -> 0 <= x < 2 ^ n -> 0 <= Z.shiftr x k < 2 ^ n.
Proof.
  intros Hk Hx. rewrite Z.shiftr_div_pow2 by done. pose proof (Z.pow_pos_nonneg 2 k ltac:(lia) Hk).
  split; [apply Z.div_pos; lia|]. pose proof (Z.div_le_upper_bound x (2 ^ k) x ltac:(lia) ltac:(nia)). lia.
Qed.

Lemma pow2_le_64 n : 0 <= n <= 64 -> 2 ^ n <= 2 ^ 64.
Proof. intros. apply Z.pow_le_mono_r; lia. Qed.

(** The lowest set bit. *)
Lemma trailing_zeros_spec x :
  0 <= x < 2 ^ 64 -> x <> 0 ->
  exists l, set_bits x = trailing_zeros x :: l /\ 0 <= trailing_zeros x < 64 /\
    Z.testbit x (trailing_zeros x) = true /\ (forall i, 0 <= i < trailing_zeros x -> Z.testbit x i = false).
Proof.
  intros Hx Hne. unfold trailing_zeros. destruct (set_bits x) as [|k l] eqn:E.
  { by apply set_bits_nil in E. }
  exists l. cbn. assert (k ∈ set_bits x) as Hk by (rewrite E; by left). apply elem_set_bits in Hk as [Hb Hk].
  split_and!; [done|lia|lia|done|]. intros i Hi. destruct (Z.testbit x i) eqn:Ei; [|done]. exfalso.
  assert (i ∈ set_bits x) as Hin by (apply elem_set_bits; split; [done|lia]). rewrite E in Hin.
  apply elem_of_cons in Hin as [->|Hin]; [lia|]. pose proof (set_bits_sorted x) as Hs. rewrite E in Hs.
  apply StronglySorted_inv in Hs as [_ Hall]. rewrite Forall_forall in Hall. apply Hall in Hin. lia.
Qed.

Definition rotate (len nc : Z) (l : list Z) : list Z := (fun j => (nc + j) mod len) <$> l.

Lemma stealers_collect_spec fuel len cand nc :
  0 < len <= 64 -> 0 <= nc < len -> 0 <= cand < 2 ^ len -> cand = 0 \/ Z.testbit cand 0 = true ->
  (length (set_bits cand) < fuel)%nat ->
  collect fuel (mkShuffled len cand nc) = Some (rotate len nc (set_bits cand)).
Proof.
  intros Hlen. revert cand nc. induction fuel as [|fuel IH]; intros cand nc Hnc Hc Hodd Hf; [lia|].
  pose proof (pow2_le_64 len ltac:(lia)) as Hp. cbn [collect]. unfold next. cbn [candidates next_candidate stealers_len].
  destruct (Z.eqb_spec cand 0) as [->|Hne]; [done|]. destruct Hodd as [|Hodd]; [done|].
  destruct (Z.ltb_spec nc len) as [_|]; [|lia]. cbn [mbind option_bind].
  pose proof (set_bits_clear cand ltac:(lia) Hodd) as Hclr. rewrite Hclr in Hf |- *. cbn [length] in Hf.
  pose proof (ldiff_range cand len 1 ltac:(lia) Hc) as Hc'. set (c' := Z.ldiff cand 1) in *.
  unfold rotate. cbn [fmap list_fmap]. rewrite Z.add_0_r, (Z.mod_small nc) by lia.
  destruct (Z.eqb_spec c' 0) as [E|Hne'].
  - rewrite E. rewrite (IH 0 nc); [done|lia|split; [done|apply Z.pow_pos_nonneg; lia]|by left|rewrite E in Hf; cbn in *; lia].
  - destruct (trailing_zeros_spec c' ltac:(lia) Hne') as (l & Hl & Hk & Hb & Hz).
    set (k := trailing_zeros c') in *.
    assert (k < len) as Hkl.
    { destruct (Z.lt_ge_cases k len); [done|]. by rewrite (bits_above c' len) in Hb by lia. }
    pose proof (set_bits_shift c' k ltac:(lia) ltac:(lia) Hz) as Hs.
    assert ((if len <=? nc + k then nc + k - len else nc + k) = (nc + k) mod len) as ->.
    { destruct (Z.leb_spec len (nc + k)); [|by rewrite Z.mod_small by lia].
      replace (nc + k) with (nc + k - len + 1 * len) at 2 by lia. by rewrite Z_mod_plus_full, Z.mod_small by lia. }
    rewrite (IH (Z.shiftr c' k)).
    + cbn. do 2 f_equal. rewrite Hs. unfold rotate. rewrite <- list_fmap_compose. apply list_fmap_ext.
      intros _ j _. unfold compose. rewrite Zplus_mod_idemp_l. f_equal. lia.
    + apply Z.mod_pos_bound. lia.
    + apply shiftr_range; lia.
    + right. by rewrite Z.shiftr_spec, Z.add_0_l by lia.
    + rewrite Hs, length_fmap in Hf. lia.
Qed.

(** The bits of the rotated word. *)
Lemma rotated_bits c len s j :
  0 < len <= 64 -> 0 <= c < 2 ^ len -> 0 < s < len -> 0 <= j ->
  Z.testbit (Z.lor (Z.shiftr c s) (wrap64 (Z.shiftl (Z.land c (2 ^ s - 1)) (len - s)))) j =
  (j <? len) && Z.testbit c ((s + j) mod len).
Proof.
  intros Hlen Hc Hs Hj. pose proof (pow2_le_64 len ltac:(lia)) as Hp.
  replace (2 ^ s - 1) with (Z.ones s) by (rewrite Z.ones_equiv; lia).
  assert (0 <= Z.land c (Z.ones s) < 2 ^ s) as Hl by (rewrite Z.land_ones by lia; apply Z.mod_pos_bound; lia).
  unfold wrap64. rewrite wrap_small.
  2:{ rewrite Z.shiftl_mul_pow2 by lia. split; [nia|].
      assert (2 ^ len = 2 ^ s * 2 ^ (len - s)) as Hsplit by (rewrite <- Z.pow_add_r by lia; f_equal; lia).
      pose proof (Z.pow_pos_nonneg 2 (len - s)). nia. }
  rewrite Z.lor_spec, Z.shiftr_spec, Z.shiftl_spec, Z.land_spec by lia.
  pose proof (fun i => bits_above c len i ltac:(lia) Hc) as Hhigh.
  destruct (Z.ltb_spec j len) as [Hlt|Hge]; cbn [andb].
  - destruct (Z.lt_ge_cases (s + j) len).
    + rewrite (Z.mod_small (s + j)) by lia. rewrite (Z.testbit_neg_r c (j - (len - s))) by lia.
      rewrite orb_false_r. f_equal. lia.
    + rewrite (Hhigh (j + s)) by lia. cbn. rewrite Z.ones_spec_low by lia. rewrite andb_true_r.
      f_equal. apply Z.mod_unique with 1; lia.
  - rewrite (Hhigh (j + s)) by lia. rewrite Z.ones_spec_high by lia. by rewrite andb_false_r.
Qed.

Lemma rotate_Permutation len s c r :
  0 < len <= 64 -> 0 <= c < 2 ^ len -> 0 <= s < len ->
  (forall j, j ∈ set_bits r <-> 0 <= j < len /\ Z.testbit c ((s + j) mod len) = true) ->
  rotate len s (set_bits r) ≡ₚ set_bits c.
Proof.
  intros Hlen Hc Hs Hr. pose proof (pow2_le_64 len ltac:(lia)) as Hp. apply NoDup_Permutation.
  - unfold rotate. apply NoDup_fmap_2_strong.
    + intros i j Hi Hj He. apply Hr in Hi as [Hi _], Hj as [Hj _].
      destruct (Z.lt_ge_cases (s + i) len), (Z.lt_ge_cases (s + j) len);
        rewrite ?(Z.mod_small (s + i)), ?(Z.mod_small (s + j)) in He by lia; try lia.
      * rewrite <- (Z_mod_plus_full (s + j) (-1)), Z.mod_small in He by lia. lia.
      * rewrite <- (Z_mod_plus_full (s + i) (-1)), Z.mod_small in He by lia. lia.
      * rewrite <- (Z_mod_plus_full (s + i) (-1)), <- (Z_mod_plus_full (s + j) (-1)), !Z.mod_small in He by lia. lia.
    + unfold set_bits. apply NoDup_filter, NoDup_seqZ.
  - apply NoDup_filter, NoDup_seqZ.
  - intros i. unfold rotate. rewrite list_elem_of_fmap, elem_set_bits_word by lia. split.
    + intros (j & -> & Hj). apply Hr in Hj as [_ Hb]. split; [done|]. apply Z.mod_pos_bound. lia.
    + intros [Hb Hi]. assert (i < len) as Hil.
      { destruct (Z.lt_ge_cases i len); [done|]. by rewrite (bits_above c len) in Hb by lia. }
      exists ((i - s) mod len). pose proof (Z.mod_pos_bound (i - s) len ltac:(lia)) as Hm.
      assert ((s + (i - s) mod len) mod len = i) as E.
      { rewrite Zplus_mod_idemp_r. replace (s + (i - s)) with i by lia. apply Z.mod_small. lia. }
      split; [done|]. apply Hr. by rewrite E.
Qed.

(** The random rank is that of a set bit. *)
Lemma selected_bit c len seed :
  0 < len <= 64 -> 0 <= c < 2 ^ len -> c <> 0 ->
  exists s, find_bit c (fun count => (Rng.rand_bounded count seed).1 + 1) = Some s /\ s ∈ set_bits c /\ 0 <= s < len.
Proof.
  intros Hlen Hc Hne. pose proof (pow2_le_64 len ltac:(lia)) as Hp.
  assert (0 < count_ones c <= 64) as Hones.
  { rewrite count_ones_count. split; [|pose proof (count_range c 0 64); lia].
    rewrite <- count_ones_count. unfold count_ones. destruct (set_bits c) eqn:E; [|cbn; lia].
    by apply set_bits_nil in E; [|lia]. }
  pose proof (Rng.rand_bounded_range (count_ones c) seed ltac:(lia)) as Hr.
  assert (find_bit c (fun count => (Rng.rand_bounded count seed).1 + 1) =
          Some (nth_bit c ((Rng.rand_bounded (count_ones c) seed).1 + 1))) as ->.
  { apply find_bit_reference; lia. }
  eexists. split; [done|]. unfold nth_bit. destruct (Z.eqb_spec ((Rng.rand_bounded (count_ones c) seed).1 + 1) 0); [lia|].
  destruct (lookup_lt_is_Some_2 (set_bits c) (Z.to_nat ((Rng.rand_bounded (count_ones c) seed).1 + 1 - 1))) as [s Hs].
  { assert (count_ones c = Z.of_nat (length (set_bits c))) as E by done. lia. }
  rewrite Hs. cbn. apply list_elem_of_lookup_2 in Hs. split; [done|]. apply elem_set_bits in Hs as [Hb Hi].
  split; [lia|]. destruct (Z.lt_ge_cases s len); [done|]. by rewrite (bits_above c len) in Hb by lia.
Qed.

(** A worker in search of tasks visits every other candidate worker exactly
    once: for every number of workers up to 64, every set of candidates and
    every state of the random generator, building and exhausting the iterator
    neither panics nor loops, and its items are the candidates in cyclic order,
    from one of them. *)
Theorem stealers_visited_once (cand len seed : Z) :
  0 < len <= 64 -> 0 <= cand < 2 ^ len ->
  exists it seed' l, new cand len seed = Some (it, seed') /\ collect 65 it = Some l /\ l ≡ₚ set_bits cand /\
    exists s, l = rotate len s (set_bits (candidates it)) /\ (cand <> 0 -> head l = Some s /\ s ∈ set_bits cand).
Proof.
  intros Hlen Hc. pose proof (pow2_le_64 len ltac:(lia)) as Hp. unfold new.
  destruct (Z.eqb_spec cand 0) as [->|Hne].
  { eexists _, _, []. split_and!; [done|done|done|]. exists 0. done. }
  destruct (selected_bit cand len seed Hlen Hc Hne) as (s & -> & Hs & Hsl). cbn [mbind option_bind].
  set (r := if s =? 0 then _ else _).
  assert (forall j, 0 <= j -> Z.testbit r j = (j <? len) && Z.testbit cand ((s + j) mod len)) as Hr.
  { intros j Hj. unfold r. destruct (Z.eqb_spec s 0) as [->|]; [|apply rotated_bits; lia].
    destruct (Z.ltb_spec j len); cbn; [by rewrite Z.mod_small by lia|]. apply (bits_above cand len); lia. }
  assert (0 <= r < 2 ^ len) as Hrr.
  { apply bits_word; [lia| |].
    - unfold r. destruct (s =? 0); [lia|]. apply Z.lor_nonneg. split; [apply Z.shiftr_nonneg; lia|].
      by apply wrap_range.
    - intros j Hj. rewrite Hr by lia. by rewrite (proj2 (Z.ltb_ge j len)) by lia. }
  apply elem_set_bits in Hs as Hs'. destruct Hs' as [Hsb _].
  assert (Z.testbit r 0 = true) as Hr0.
  { rewrite Hr, Z.add_0_r, Z.mod_small by lia. rewrite Hsb, (proj2 (Z.ltb_lt 0 len)) by lia. done. }
  eexists _, _, _. split; [done|]. split.
  { apply stealers_collect_spec; [done|lia|done|by right|]. pose proof (count_ones_count r) as Hcr.
    pose proof (count_range r 0 64). unfold count_ones in Hcr. lia. }
  split.
  - apply rotate_Permutation; [done|done|done|]. intros j. rewrite elem_set_bits_word by lia. split.
    + intros [Hb Hj]. rewrite Hr in Hb by done. apply andb_true_iff in Hb as [Hb1 Hb2]. split; [lia|done].
    + intros [Hj Hb]. rewrite Hr, Hb, (proj2 (Z.ltb_lt j len)) by lia. split; [done|lia].
  - exists s. split; [done|]. intros _. split; [|done].
    rewrite (set_bits_clear r) by (done || lia). cbn. by rewrite Z.add_0_r, Z.mod_small by lia.
Qed.

Lemma stealers_visited_once_witness :
  exists it seed' l, new 44 6 12345 = Some (it, seed') /\ collect 65 it = Some l /\ l ≡ₚ [2; 3; 5].
Proof.
  destruct (stealers_visited_once 44 6 12345) as (it & seed' & l & H1 & H2 & H3 & _); [lia|lia|].
  exists it, seed', l. split; [exact H1|]. split; [exact H2|]. exact H3.
Defined.
End ShuffledStealers.
