(* ===== verification/Injector.v ===== *)
(** * The injector queue of the executor: [executor/mt_executor/injector.rs]

    Tasks are moved to and from the injector in buckets of bounded size.  Every
    operation holds the mutex of the queue; the flag [is_empty] is updated while
    it is held and read without it, so that [pop_bucket] is a load of the flag
    followed by a locked part ([pop_locked]).  The specification
    is a bag of tasks. *)

From S2P Require Import Prelude.

Module Injector.

Section Defs.
Context {T : Type} (CAPACITY : nat).

(** ** Buckets *)
Notation Bucket := (list T) (only parsing).

Definition bucket_new : Bucket := [].

Definition bucket_push (task : T) (b : Bucket) : Result Bucket T :=
  if decide (length b < CAPACITY) then Ok (b ++ [task]) else Err task.

Definition from_iter (l : list T) : Bucket := take CAPACITY l.

(** ** The queue *)
Record Injector : Type := mkInjector { inner : list Bucket; empty_flag : bool }.

(** [None] is the panic of the assertion on the capacity. *)
Definition new : option Injector := if decide (1 <= CAPACITY) then Some (mkInjector [] true) else None.

(** A new bucket with one task; the result of the push is ignored. *)
Definition singleton_bucket (task : T) : Bucket :=
  match bucket_push task bucket_new with Ok b => b | Err _ => bucket_new end.

Definition insert_task (task : T) (q : Injector) : Injector :=
  match inner q with
  | bucket :: rest =>
      match bucket_push task bucket with
      | Ok bucket => mkInjector (bucket :: rest) (empty_flag q)
      | Err task => mkInjector (singleton_bucket task :: rest ++ [bucket]) (empty_flag q)
      end
  | [] => mkInjector [singleton_bucket task] false
  end.

Definition push_bucket (b : Bucket) (q : Injector) : Injector :=
  let was_empty := match inner q with [] => true | _ => false end in
  mkInjector (inner q ++ [b]) (if was_empty then false else empty_flag q).

(** The part of [pop_bucket] that holds the mutex. *)
Definition pop_locked (q : Injector) : option Bucket * Injector :=
  match vec_pop (inner q) with
  | None => (None, mkInjector [] true)
  | Some (b, []) => (Some b, mkInjector [] true)
  | Some (b, rest) => (Some b, mkInjector rest (empty_flag q))
  end.

Definition pop_bucket (q : Injector) : option Bucket * Injector :=
  if empty_flag q then (None, q) else pop_locked q.

Definition is_empty (q : Injector) : bool := empty_flag q.

(** ** Invariant *)

(** The tasks of the queue. *)
Definition tasks (q : Injector) : list T := mjoin (inner q).

Record wf (q : Injector) : Prop := {
  wf_flag : empty_flag q = true <-> inner q = [];
  wf_buckets : Forall (fun b => 1 <= length b <= CAPACITY) (inner q) }.

Lemma injector_new_wf q : new = Some q -> wf q /\ tasks q = [].
Proof. unfold new. case_decide; [|done]. intros [= <-]. split; [|done]. split; [done|constructor]. Qed.

Lemma tasks_empty q : wf q -> tasks q = [] <-> empty_flag q = true.
Proof.
  intros [Hf Hb]. rewrite Hf. unfold tasks. split; [|by intros ->].
  destruct (inner q) as [|b bs]; [done|]. apply Forall_cons in Hb as [Hl _]. cbn.
  destruct b; cbn in Hl; [lia|done].
Qed.

Hypothesis Hcap : 1 <= CAPACITY.

Lemma singleton_bucket_eq task : singleton_bucket task = [task].
Proof. unfold singleton_bucket, bucket_push. cbn. case_decide; [done|lia]. Qed.

Lemma insert_task_ok task q : wf q -> wf (insert_task task q) /\ tasks (insert_task task q) ≡ₚ task :: tasks q.
Proof.
  intros [Hf Hb]. unfold insert_task, tasks, bucket_push.
  destruct (inner q) as [|b bs] eqn:E.
  - rewrite singleton_bucket_eq. split; [|done]. split; cbn; [done|]. constructor; [cbn; lia|done].
  - apply Forall_cons in Hb as [Hl Hb]. case_decide; cbn [inner].
    + split; [split; cbn; [rewrite Hf; done|]|].
      * constructor; [rewrite length_app; cbn; lia|done].
      * change (mjoin ((b ++ [task]) :: bs)) with ((b ++ [task]) ++ mjoin bs).
        rewrite <- app_assoc. cbn. symmetry. apply Permutation_middle.
    + rewrite singleton_bucket_eq. split; [split; cbn; [rewrite Hf; done|]|].
      * constructor; [cbn; lia|]. apply Forall_app. split; [done|]. by constructor; [lia|].
      * change (mjoin ([task] :: bs ++ [b])) with (task :: mjoin (bs ++ [b])).
        rewrite join_app. cbn. rewrite app_nil_r. f_equiv. apply Permutation_app_comm.
Qed.

Lemma push_bucket_ok b q :
  wf q -> 1 <= length b <= CAPACITY -> wf (push_bucket b q) /\ tasks (push_bucket b q) ≡ₚ b ++ tasks q.
Proof.
  intros [Hf Hb] Hl. unfold push_bucket, tasks. cbn [inner]. rewrite join_app. cbn. rewrite app_nil_r.
  split; [|apply Permutation_app_comm]. split; cbn.
  - split; [|by destruct (inner q)]. destruct (inner q) eqn:E; [done|]. intros H. by apply Hf in H.
  - apply Forall_app. split; [done|]. by constructor.
Qed.

Lemma pop_locked_ok q r q' :
  wf q -> pop_locked q = (r, q') ->
  wf q' /\ tasks q ≡ₚ default [] r ++ tasks q' /\ (r = None <-> tasks q = []) /\
  (forall b, r = Some b -> 1 <= length b <= CAPACITY).
Proof.
  intros Hwf. pose proof Hwf as [Hf Hb]. unfold pop_locked, tasks.
  destruct (vec_pop (inner q)) as [[b rest]|] eqn:Hp.
  - apply vec_pop_Some in Hp. rewrite Hp in *. apply Forall_app in Hb as [Hb Hl].
    apply Forall_cons in Hl as [Hl _]. rewrite join_app. cbn. rewrite app_nil_r.
    intros Heq. assert (r = Some b /\ inner q' = rest /\ wf q') as (-> & Hi & Hw).
    { destruct rest as [|b' rest]; simplify_eq; (split; [done|]; split; [done|]; split); cbn; try done.
      split; [|done]. intros H. by apply Hf in H. }
    rewrite Hi. split_and!; [done|apply Permutation_app_comm| |by intros ? [= <-]].
    split; [done|]. intros H. apply app_eq_nil in H as [_ ->]. cbn in Hl. lia.
  - apply vec_pop_None in Hp. rewrite Hp. intros [= <- <-]. split_and!; [|done|done|done].
    split; [done|constructor].
Qed.
End Defs.
End Injector.
