(* ===== verification/MtExecutor.v ===== *)
(** * The multi-threaded executor: [executor/mt_executor.rs] and
      [executor/mt_executor/pool_manager.rs]

    The main thread, which calls [Executor::new] and [Executor::run], and the
    worker threads are step machines that interleave their accesses to the
    shared state: the injector, the word of active workers, the count of
    searching workers, the tokens of the parkers and the message count.

    A task is an arbitrary value; while it runs, a task may schedule other tasks
    and send or receive messages, as often as it wishes, and then it ends.  The
    work-stealing queues of the [st3] crate are lists from which other workers
    take any part of the front, at any time; whether a queue is full or a drain
    fails is part of the schedule.  [None] is a panic of the executor (a failed
    assertion).  Panics of tasks and timeouts, after which the executor is not
    run again, are not part of the model.  Memory is sequentially consistent. *)

From S2P Require Import Prelude Bit PoolManager Injector.
Local Open Scope Z_scope.

Module MtExecutor.

Definition BUCKET_SIZE : nat := 128.

(** [usize::trailing_ones]. *)
Definition trailing_ones (x : Z) : Z :=
  default 64 (head (filter (fun i => Z.testbit x i = false) (seqZ 0 64))).

(** ** State *)

(** Program points of the activation of another worker ([activate_worker] and
    [activate_worker_relaxed]): the search for an idle worker, then
    [begin_worker_search] and [unpark] for the worker found. *)
Inductive Activation : Type :=
  | ActLoad
  | ActOr (active_workers : Z)
  | ActBegin (id : nat)
  | ActUnpark (id : nat).

(** Program points of [run_local_worker] and, while a task runs, of
    [schedule_task]. *)
Inductive WorkerPc (T : Type) : Type :=
  | WTop                                (** [update_msg_count] *)
  | WTry                                (** [try_set_worker_inactive] *)
  | WLast                               (** [injector.is_empty()] *)
  | WSetAll                             (** [set_all_workers_inactive] *)
  | WUnparkMain                         (** [executor_unparker.unpark()] *)
  | WPark                               (** [parker.park()] *)
  | WBeginSearch
  | WPop | WPopLocked                   (** [injector.pop_bucket()] *)
  | WSteal
  | WGiveUp                             (** [end_worker_search], then back to the barrier *)
  | WEndSearch                          (** [end_worker_search], then process the tasks *)
  | WTake                               (** pop the fast slot or the local queue *)
  | WResume                             (** [begin_worker_search] *)
  | WRun                                (** [task.run()] *)
  | WPushBucket (b : list T) (prev : T) (** [schedule_task]: [push_bucket], then [push] *)
  | WInsert (prev : T)                  (** [schedule_task]: [insert_task] *)
  | WSearching                          (** [schedule_task]: [searching_worker_count] *)
  | WActivate (a : Activation).
#[global] Arguments WTop {_}.
#[global] Arguments WTry {_}.
#[global] Arguments WLast {_}.
#[global] Arguments WSetAll {_}.
#[global] Arguments WUnparkMain {_}.
#[global] Arguments WPark {_}.
#[global] Arguments WBeginSearch {_}.
#[global] Arguments WPop {_}.
#[global] Arguments WPopLocked {_}.
#[global] Arguments WSteal {_}.
#[global] Arguments WGiveUp {_}.
#[global] Arguments WEndSearch {_}.
#[global] Arguments WTake {_}.
#[global] Arguments WResume {_}.
#[global] Arguments WRun {_}.
#[global] Arguments WPushBucket {_} _ _.
#[global] Arguments WInsert {_} _.
#[global] Arguments WSearching {_}.
#[global] Arguments WActivate {_} _.

(** A worker thread, with the token of its parker and [THREAD_MSG_COUNT]. *)
Record Worker (T : Type) : Type := mkWorker {
  pc : WorkerPc T;
  local_queue : list T;
  fast_slot : option T;
  token : bool;
  thread_msg_count : Z }.
#[global] Arguments mkWorker {_} _ _ _ _ _.
#[global] Arguments pc {_} _.
#[global] Arguments local_queue {_} _.
#[global] Arguments fast_slot {_} _.
#[global] Arguments token {_} _.
#[global] Arguments thread_msg_count {_} _.

(** The result of [Executor::run] when the pool is idle. *)
Inductive RunResult : Type := RunOk | UnprocessedMessages (n : Z).

(** Program points of the main thread: the end of [Executor::new], the time
    between two calls to [run], and [run] itself. *)
Inductive MainPc : Type :=
  | MInit                               (** [parker.park()] in [new] *)
  | MAssert                             (** [assert!(pool_is_idle())] in [new] *)
  | MIdle (last : option RunResult)
  | MActivate (a : Activation)
  | MCheck                              (** [pool_is_idle()] *)
  | MCount                              (** load of [msg_count] *)
  | MPark.

Record Sys (T : Type) : Type := mkSys {
  injector : Injector.Injector (T := T);
  active_workers : Z;
  searching_workers : Z;
  workers : list (Worker T);
  main : MainPc;
  main_token : bool;
  msg_count : Z;
  in_flight : Z }.                      (** history: messages sent minus received *)
#[global] Arguments mkSys {_} _ _ _ _ _ _ _ _.
#[global] Arguments injector {_} _.
#[global] Arguments active_workers {_} _.
#[global] Arguments searching_workers {_} _.
#[global] Arguments workers {_} _.
#[global] Arguments main {_} _.
#[global] Arguments main_token {_} _.
#[global] Arguments msg_count {_} _.
#[global] Arguments in_flight {_} _.

(** What happens when the previous task of the fast slot is pushed to the local
    queue: success, or a full queue of which the first tasks are drained, or
    a full queue that cannot be drained. *)
Inductive PushOutcome : Type := PushOk | PushDrain (n : nat) | PushInsert.

Inductive Action (T : Type) : Type :=
  | ASpawn (t : T) | ARun | AMain       (** main thread: [spawn], [run], next access *)
  | AWorker (i : nat)                   (** next access of a worker *)
  | AGiveUp (i : nat)                   (** the search has lasted too long *)
  | AStealFrom (i j n k : nat)          (** steal [n] tasks of [j], the [k]-th directly *)
  | ASchedule (i : nat) (t : T) (o : PushOutcome)
  | AMsg (i : nat) (sent : bool)
  | AFinish (i : nat).
#[global] Arguments ASpawn {_} _.
#[global] Arguments ARun {_}.
#[global] Arguments AMain {_}.
#[global] Arguments AWorker {_} _.
#[global] Arguments AGiveUp {_} _.
#[global] Arguments AStealFrom {_} _ _ _ _.
#[global] Arguments ASchedule {_} _ _ _.
#[global] Arguments AMsg {_} _ _.
#[global] Arguments AFinish {_} _.

Section Defs.
Context {T : Type}.
Implicit Types (s : Sys T) (w : Worker T).

Definition pool_size s : Z := Z.of_nat (length (workers s)).

Definition set_pc (p : WorkerPc T) w : Worker T :=
  mkWorker p (local_queue w) (fast_slot w) (token w) (thread_msg_count w).
Definition set_token (b : bool) w : Worker T :=
  mkWorker (pc w) (local_queue w) (fast_slot w) b (thread_msg_count w).
Definition set_tasks (p : WorkerPc T) (q : list T) (sl : option T) w : Worker T :=
  mkWorker p q sl (token w) (thread_msg_count w).
Definition set_msgs (p : WorkerPc T) (n : Z) w : Worker T :=
  mkWorker p (local_queue w) (fast_slot w) (token w) n.

Definition set_worker (i : nat) w s : Sys T :=
  mkSys (injector s) (active_workers s) (searching_workers s) (<[i := w]> (workers s)) (main s)
    (main_token s) (msg_count s) (in_flight s).
Definition set_main (m : MainPc) s : Sys T :=
  mkSys (injector s) (active_workers s) (searching_workers s) (workers s) m
    (main_token s) (msg_count s) (in_flight s).
Definition set_main_token (b : bool) s : Sys T :=
  mkSys (injector s) (active_workers s) (searching_workers s) (workers s) (main s)
    b (msg_count s) (in_flight s).
Definition set_injector (q : Injector.Injector) s : Sys T :=
  mkSys q (active_workers s) (searching_workers s) (workers s) (main s)
    (main_token s) (msg_count s) (in_flight s).
Definition set_active (a : Z) s : Sys T :=
  mkSys (injector s) a (searching_workers s) (workers s) (main s)
    (main_token s) (msg_count s) (in_flight s).
Definition add_searching (d : Z) s : Sys T :=
  mkSys (injector s) (active_workers s) (wrap64 (searching_workers s + d)) (workers s) (main s)
    (main_token s) (msg_count s) (in_flight s).
Definition add_msgs (d : Z) s : Sys T :=
  mkSys (injector s) (active_workers s) (searching_workers s) (workers s) (main s)
    (main_token s) (wrap64 (msg_count s + d)) (in_flight s).
Definition add_in_flight (d : Z) s : Sys T :=
  mkSys (injector s) (active_workers s) (searching_workers s) (workers s) (main s)
    (main_token s) (msg_count s) (in_flight s + d).

(** ** The pool manager *)

Definition bit (i : nat) : Z := 2 ^ Z.of_nat i.
Definition pool_is_idle s : bool := active_workers s =? 0.
Definition set_all_workers_active (n : nat) : Z := Z.shiftr u64_max (64 - Z.of_nat n).
Definition begin_worker_search s : Sys T := add_searching 1 s.
Definition end_worker_search s : Sys T := add_searching (-1) s.

(** [unpark] of a worker. *)
Definition unpark (i : nat) s : option (Sys T) :=
  w ← workers s !! i; Some (set_worker i (set_token true w) s).

(** [try_set_worker_inactive]: its result and the new word. *)
Definition try_set_worker_inactive (i : nat) s : option (bool * Sys T) :=
  let active := active_workers s in
  let new := if active =? bit i then active else Z.ldiff active (bit i) in
  if Z.land active (bit i) =? 0 then None
  else Some (negb (active =? bit i), set_active new s).

(** One access of an activation; [None] as the next point is its end.  In
    [activate_worker] ([sync]) the absence of idle workers is confirmed by a
    read-modify-write. *)
Definition activate_step (sync : bool) (a : Activation) s : option (option Activation * Sys T) :=
  match a with
  | ActLoad => Some (Some (ActOr (active_workers s)), s)
  | ActOr active =>
      let first_idle_worker := trailing_ones active in
      if pool_size s <=? first_idle_worker then
        if sync && negb (active_workers s =? active) then Some (Some (ActOr (active_workers s)), s)
        else Some (None, s)
      else
        let old := active_workers s in
        let s := set_active (Z.lor old (2 ^ first_idle_worker)) s in
        if Z.land old (2 ^ first_idle_worker) =? 0
        then Some (Some (ActBegin (Z.to_nat first_idle_worker)), s)
        else Some (Some (ActOr old), s)
  | ActBegin i => Some (Some (ActUnpark i), begin_worker_search s)
  | ActUnpark i => s ← unpark i s; Some (None, s)
  end.

(** ** The main thread *)

(** [THREAD_MSG_COUNT] and [msg_count] are 64-bit patterns read as [isize]. *)
Definition run_result (n : Z) : option RunResult :=
  if n =? 0 then Some RunOk
  else if as_isize n <? 0 then None else Some (UnprocessedMessages (as_isize n)).

Definition main_step s : option (Sys T) :=
  match main s with
  | MInit => if main_token s then Some (set_main MAssert (set_main_token false s)) else Some s
  | MAssert => if pool_is_idle s then Some (set_main (MIdle None) s) else None
  | MIdle _ => Some s
  | MActivate a =>
      '(a, s) ← activate_step true a s;
      Some (set_main (match a with Some a => MActivate a | None => MCheck end) s)
  | MCheck => Some (set_main (if pool_is_idle s then MCount else MPark) s)
  | MCount => r ← run_result (msg_count s); Some (set_main (MIdle (Some r)) s)
  | MPark => if main_token s then Some (set_main MCheck (set_main_token false s)) else Some s
  end.

(** ** The workers *)
Definition worker_step (i : nat) w s : option (Sys T) :=
  let goto p s := Some (set_worker i (set_pc p w) s) in
  match pc w with
  | WTop => Some (set_worker i (set_msgs WTry 0 w) (add_msgs (thread_msg_count w) s))
  | WTry => '(b, s) ← try_set_worker_inactive i s; goto (if b : bool then WPark else WLast) s
  | WLast => goto (if Injector.is_empty (injector s) then WSetAll else WBeginSearch) s
  | WSetAll => goto WUnparkMain (set_active 0 s)
  | WUnparkMain => goto WPark (set_main_token true s)
  | WPark => if token w then Some (set_worker i (set_token false (set_pc WPop w)) s) else Some s
  | WBeginSearch => goto WPop (begin_worker_search s)
  | WPop => goto (if Injector.empty_flag (injector s) then WSteal else WPopLocked) s
  | WPopLocked =>
      match Injector.pop_locked (injector s) with
      | (Some b, q) =>
          Some (set_worker i (set_tasks WEndSearch (local_queue w ++ b) (fast_slot w) w) (set_injector q s))
      | (None, q) => goto WSteal (set_injector q s)
      end
  | WSteal => goto WPop s                                  (** unsuccessful: retry *)
  | WGiveUp => goto WTop (end_worker_search s)
  | WEndSearch => goto WTake (end_worker_search s)
  | WTake =>
      match fast_slot w, local_queue w with
      | Some _, q => Some (set_worker i (set_tasks WRun q None w) s)
      | None, _ :: q => Some (set_worker i (set_tasks WRun q None w) s)
      | None, [] => goto WResume s
      end
  | WResume => goto WPop (begin_worker_search s)
  | WRun => Some s
  | WPushBucket b prev =>
      Some (set_worker i (set_tasks WSearching (local_queue w ++ [prev]) (fast_slot w) w)
             (set_injector (Injector.push_bucket (Injector.from_iter BUCKET_SIZE b) (injector s)) s))
  | WInsert prev => goto WSearching (set_injector (Injector.insert_task BUCKET_SIZE prev (injector s)) s)
  | WSearching => goto (if searching_workers s =? 0 then WActivate ActLoad else WRun) s
  | WActivate a =>
      '(a, s) ← activate_step false a s;
      w ← workers s !! i;
      Some (set_worker i (set_pc (match a with Some a => WActivate a | None => WRun end) w) s)
  end.

(** [schedule_task], called by the running task. *)
Definition schedule_task (i : nat) (t : T) (o : PushOutcome) w s : Sys T :=
  match fast_slot w with
  | None => set_worker i (set_tasks WRun (local_queue w) (Some t) w) s
  | Some prev =>
      match o with
      | PushOk => set_worker i (set_tasks WSearching (local_queue w ++ [prev]) (Some t) w) s
      | PushDrain n =>
          set_worker i (set_tasks (WPushBucket (take n (local_queue w)) prev) (drop n (local_queue w)) (Some t) w) s
      | PushInsert => set_worker i (set_tasks (WInsert prev) (local_queue w) (Some t) w) s
      end
  end.

(** The drain takes at least one task and at most the capacity of a bucket. *)
Definition outcome_ok (o : PushOutcome) w : bool :=
  match o with
  | PushDrain n => (1 <=? n)%nat && (n <=? BUCKET_SIZE)%nat && (n <=? length (local_queue w))%nat
  | _ => true
  end.

(** [steal_and_pop] of a sibling's queue, in the search loop; the stolen task
    goes to the fast slot, which is asserted to be vacant. *)
Definition steal (i j n k : nat) w s : option (Sys T) :=
  match workers s !! j with
  | Some v =>
      match take n (local_queue v) !! k with
      | Some t =>
          match fast_slot w with
          | Some _ => None
          | None =>
              Some (set_worker i (set_tasks WEndSearch (local_queue w ++ delete k (take n (local_queue v))) (Some t) w)
                     (set_worker j (set_tasks (pc v) (drop n (local_queue v)) (fast_slot v) v) s))
          end
      | None => Some s
      end
  | None => Some s
  end.

(** ** The whole system: an action that is not possible does nothing. *)
Definition step (a : Action T) s : option (Sys T) :=
  match a with
  | ASpawn t =>
      Some (match main s with
            | MIdle _ => set_injector (Injector.insert_task BUCKET_SIZE t (injector s)) s
            | _ => s
            end)
  | ARun => Some (match main s with MIdle _ => set_main (MActivate ActLoad) s | _ => s end)
  | AMain => main_step s
  | AWorker i => match workers s !! i with Some w => worker_step i w s | None => Some s end
  | AGiveUp i =>
      match workers s !! i with
      | Some w => match pc w with WSteal => Some (set_worker i (set_pc WGiveUp w) s) | _ => Some s end
      | None => Some s
      end
  | AStealFrom i j n k =>
      match workers s !! i with
      | Some w => match pc w with
                  | WSteal => if decide (i = j) then Some s else steal i j n k w s
                  | _ => Some s
                  end
      | None => Some s
      end
  | ASchedule i t o =>
      match workers s !! i with
      | Some w => match pc w with
                  | WRun => Some (if outcome_ok o w then schedule_task i t o w s else s)
                  | _ => Some s
                  end
      | None => Some s
      end
  | AMsg i sent =>
      match workers s !! i with
      | Some w => match pc w with
                  | WRun =>
                      let d := if sent then 1 else -1 in
                      Some (set_worker i (set_msgs WRun (wrap64 (thread_msg_count w + d)) w) (add_in_flight d s))
                  | _ => Some s
                  end
      | None => Some s
      end
  | AFinish i =>
      match workers s !! i with
      | Some w => match pc w with WRun => Some (set_worker i (set_pc WTake w) s) | _ => Some s end
      | None => Some s
      end
  end.

Fixpoint run (sched : list (Action T)) s : option (Sys T) :=
  match sched with
  | [] => Some s
  | a :: sched => s ← step a s; run sched s
  end.

(** [Executor::new] up to the point where it waits for the workers; [None] is
    the panic of [PoolManager::new]. *)
Definition new (num_threads : nat) : option (Sys T) :=
  if decide (1 <= num_threads <= 64)%nat then
    q ← Injector.new BUCKET_SIZE;
    Some (mkSys q (set_all_workers_active num_threads) 0
            (replicate num_threads (mkWorker WTop [] None false 0)) MInit false 0 0)
  else None.
End Defs.
End MtExecutor.
