(* ===== verification/MtExecutorFacts.v ===== *)
(** * The multi-threaded executor: invariant

    The bit of a worker is set while it is awake, while its parker holds a
    token, and while another thread is about to unpark it: exactly one of the
    three.  Hence no thread but the main one can act when the word of active
    workers is zero, and the last active worker is alone. *)

From S2P Require Import Prelude Bit PoolManager Injector MtExecutor.
Local Open Scope Z_scope.

Module MtExecutorFacts.
Import MtExecutor.

Section Inv.
Context {T : Type}.
Implicit Types (s : Sys T) (w : Worker T) (p : WorkerPc T).

(** ** Invariant *)

(** The worker has given up its bit, or is about to park. *)
Definition parkish p : bool := match p with WUnparkMain | WPark => true | _ => false end.

Definition target (a : Activation) : option nat :=
  match a with ActBegin j | ActUnpark j => Some j | _ => None end.
Definition pc_target p : option nat := match p with WActivate a => target a | _ => None end.
Definition main_target (m : MainPc) : option nat := match m with MActivate a => target a | _ => None end.

(** The number of threads about to unpark worker [i]. *)
Definition points (i : nat) (o : option nat) : Z := if decide (o = Some i) then 1 else 0.
Definition pending s (i : nat) : Z :=
  zsum (fun w => points i (pc_target (pc w))) (workers s) + points i (main_target (main s)).

(** Contributions to the count of searching workers: a worker in search, or
    whose search was announced by the thread that unparks it. *)
Definition is_unpark (a : Activation) : Z := match a with ActUnpark _ => 1 | _ => 0 end.
Definition searching_pc p : Z :=
  match p with
  | WPop | WPopLocked | WSteal | WGiveUp | WEndSearch => 1
  | WActivate a => is_unpark a
  | _ => 0
  end.
Definition searching_main (m : MainPc) : Z := match m with MActivate a => is_unpark a | _ => 0 end.
Definition search_of w : Z := searching_pc (pc w) + Z.b2z (token w).

Definition no_tasks w : Prop := local_queue w = [] /\ fast_slot w = None.

Definition worker_ok s (i : nat) w : Prop :=
  match pc w with
  | WTop | WBeginSearch | WPop | WPopLocked | WSteal | WGiveUp | WResume => no_tasks w
  | WTry | WUnparkMain | WPark => no_tasks w /\ thread_msg_count w = 0
  | WLast => no_tasks w /\ thread_msg_count w = 0 /\ active_workers s = bit i
  | WSetAll => no_tasks w /\ thread_msg_count w = 0 /\ active_workers s = bit i /\
               Injector.tasks (injector s) = []
  | WPushBucket b _ => (1 <= length b <= BUCKET_SIZE)%nat
  | WActivate a => match target a with Some j => (j < length (workers s))%nat | None => True end
  | _ => True
  end.

(** Before the end of [Executor::new] there are no tasks. *)
Definition init_pc p : bool :=
  match p with WTop | WTry | WLast | WSetAll | WUnparkMain | WPark => true | _ => false end.

Definition waking s : Prop := exists i w, workers s !! i = Some w /\ pc w = WUnparkMain.
Definition drained s : Prop := Injector.tasks (injector s) = [].

Definition main_ok s : Prop :=
  let idle := active_workers s = 0 in
  match main s with
  | MInit =>
      drained s /\ (forall i w, workers s !! i = Some w -> init_pc (pc w) = true /\ token w = false) /\
      (idle <-> main_token s = true \/ waking s)
  | MAssert => idle
  | MIdle _ => idle
  | MActivate ActLoad => idle
  | MActivate (ActOr a) => idle /\ a = 0
  | MActivate (ActBegin j) | MActivate (ActUnpark j) => (j < length (workers s))%nat
  | MCheck => idle -> drained s
  | MCount => idle /\ drained s
  | MPark => idle -> drained s /\ (main_token s = true \/ waking s)
  end.

Record inv s : Prop := {
  inv_size : (1 <= length (workers s) <= 64)%nat;
  inv_active : 0 <= active_workers s < 2 ^ pool_size s;
  inv_injector : Injector.wf BUCKET_SIZE (injector s);
  inv_bits : forall i w, workers s !! i = Some w ->
    Z.b2z (Z.testbit (active_workers s) (Z.of_nat i)) =
    Z.b2z (token w) + pending s i + Z.b2z (negb (parkish (pc w)));
  inv_workers : forall i w, workers s !! i = Some w -> worker_ok s i w;
  inv_search : searching_workers s = zsum search_of (workers s) + searching_main (main s);
  inv_msgs : wrap64 (msg_count s + zsum thread_msg_count (workers s)) = wrap64 (in_flight s);
  inv_main : main_ok s }.

(** ** Consequences *)

Lemma pending_nonneg s i : 0 <= pending s i.
Proof.
  unfold pending. pose proof (zsum_nonneg (fun w => points i (pc_target (pc w))) (workers s)) as H.
  assert (forall o, 0 <= points i o) as Hp by (intros o; unfold points; case_decide; lia).
  specialize (H ltac:(intros; apply Hp)). pose proof (Hp (main_target (main s))). lia.
Qed.

Lemma bit_set s i w :
  inv s -> workers s !! i = Some w -> parkish (pc w) = false ->
  Z.testbit (active_workers s) (Z.of_nat i) = true /\ token w = false /\ pending s i = 0.
Proof.
  intros Hi Hw Hp. pose proof (inv_bits s Hi i w Hw) as Hb. rewrite Hp in Hb. cbn in Hb.
  pose proof (pending_nonneg s i).
  destruct (Z.testbit _ _), (token w); cbn in Hb; lia.
Qed.

Lemma awake_not_idle s i w :
  inv s -> workers s !! i = Some w -> parkish (pc w) = false -> active_workers s <> 0.
Proof.
  intros Hi Hw Hp Ha. destruct (bit_set s i w Hi Hw Hp) as (Hb & _). rewrite Ha, Z.bits_0 in Hb. done.
Qed.

Lemma idle_parked s i w :
  inv s -> active_workers s = 0 -> workers s !! i = Some w ->
  parkish (pc w) = true /\ token w = false /\ pending s i = 0.
Proof.
  intros Hi Ha Hw. pose proof (inv_bits s Hi i w Hw) as Hb. rewrite Ha, Z.bits_0 in Hb. cbn in Hb.
  pose proof (pending_nonneg s i). destruct (parkish (pc w)), (token w); cbn in Hb; lia.
Qed.

(** The last active worker is alone. *)
Lemma alone s i j v :
  inv s -> active_workers s = bit i -> workers s !! j = Some v -> j <> i ->
  parkish (pc v) = true /\ token v = false /\ pending s j = 0.
Proof.
  intros Hi Ha Hv Hne. pose proof (inv_bits s Hi j v Hv) as Hb. rewrite Ha in Hb. unfold bit in Hb.
  rewrite Z.pow2_bits_false in Hb by lia. cbn in Hb. pose proof (pending_nonneg s j).
  destruct (parkish (pc v)), (token v); cbn in Hb; lia.
Qed.

Lemma search_of_range w : 0 <= search_of w <= 2.
Proof.
  unfold search_of. assert (0 <= searching_pc (pc w) <= 1) by (destruct (pc w) as [| | | | | | | | | | | | | | | | | |[]]; cbn; lia).
  destruct (token w); cbn; lia.
Qed.

Lemma searching_range s : inv s -> 0 <= searching_workers s <= 129.
Proof.
  intros Hi. rewrite (inv_search s Hi). pose proof (inv_size s Hi).
  pose proof (zsum_nonneg search_of (workers s) ltac:(intros; apply search_of_range)).
  pose proof (zsum_bound search_of (workers s) 2 ltac:(intros; apply search_of_range)).
  assert (0 <= searching_main (main s) <= 1) by (destruct (main s) as [| | |[]| | |]; cbn; lia). lia.
Qed.

(** ** Steps that leave the word of active workers as it is *)

(** The bit of the worker is its own: it is awake, or its parker has a token. *)
Definition alive w : Prop := Z.b2z (token w) + Z.b2z (negb (parkish (pc w))) = 1.

Lemma alive_bit s k w :
  inv s -> workers s !! k = Some w -> alive w ->
  Z.testbit (active_workers s) (Z.of_nat k) = true /\ pending s k = 0.
Proof.
  intros Hi Hw Ha. pose proof (inv_bits s Hi k w Hw) as Hb. pose proof (pending_nonneg s k).
  unfold alive in Ha. destruct (Z.testbit _ _); cbn in Hb; lia.
Qed.

Lemma alive_only s k w j :
  inv s -> workers s !! k = Some w -> alive w -> active_workers s = bit j -> j = k.
Proof.
  intros Hi Hw Ha Hj. destruct (alive_bit s k w Hi Hw Ha) as [Hb _].
  destruct (decide (j = k)); [done|]. rewrite Hj in Hb. unfold bit in Hb.
  rewrite Z.pow2_bits_false in Hb by lia. done.
Qed.

Lemma alive_busy s k w : inv s -> workers s !! k = Some w -> alive w -> active_workers s <> 0.
Proof.
  intros Hi Hw Ha H0. destruct (alive_bit s k w Hi Hw Ha) as [Hb _]. rewrite H0, Z.bits_0 in Hb. done.
Qed.

Lemma awake_alive s k w : inv s -> workers s !! k = Some w -> parkish (pc w) = false -> alive w.
Proof. intros Hi Hw Hp. destruct (bit_set s k w Hi Hw Hp) as (_ & Ht & _). unfold alive. rewrite Hp, Ht. done. Qed.

Lemma pending_insert s s' k w w' i :
  workers s !! k = Some w -> workers s' = <[k := w']> (workers s) ->
  pending s' i =
  pending s i - points i (pc_target (pc w)) + points i (pc_target (pc w'))
  - points i (main_target (main s)) + points i (main_target (main s')).
Proof. intros Hw Hws. unfold pending. rewrite Hws, (zsum_insert _ _ _ _ _ Hw). lia. Qed.

(** The facts of a worker only depend on the word, the tasks and the pool size. *)
Lemma worker_ok_frame s s' j v :
  worker_ok s j v -> length (workers s') = length (workers s) ->
  (pc v = WLast \/ pc v = WSetAll -> active_workers s' = active_workers s) ->
  (pc v = WSetAll -> drained s -> drained s') ->
  worker_ok s' j v.
Proof.
  unfold worker_ok, drained. intros Hok Hl Ha Hd. rewrite Hl. destruct (pc v); try done.
  - rewrite Ha by auto. done.
  - rewrite Ha by auto. destruct Hok as (? & ? & ? & ?). auto.
Qed.

Lemma inv_local s k w w' q sr mc fl :
  inv s -> workers s !! k = Some w -> alive w -> alive w' ->
  pc w <> WUnparkMain -> pc w' <> WUnparkMain -> pc_target (pc w') = pc_target (pc w) ->
  Injector.wf BUCKET_SIZE q ->
  (forall s', active_workers s' = active_workers s -> injector s' = q ->
     length (workers s') = length (workers s) -> worker_ok s' k w') ->
  sr = searching_workers s - search_of w + search_of w' ->
  wrap64 (mc + (zsum thread_msg_count (workers s) - thread_msg_count w + thread_msg_count w')) = wrap64 fl ->
  (main s = MInit -> init_pc (pc w') = true /\ token w' = false /\ Injector.tasks q = []) ->
  inv (mkSys q (active_workers s) sr (<[k := w']> (workers s)) (main s) (main_token s) mc fl).
Proof.
  intros Hi Hw Ha Ha' Hu Hu' Ht Hq Hok Hsr Hmc Hinit.
  pose proof (alive_busy s k w Hi Hw Ha) as Hbusy. split; cbn [injector active_workers searching_workers workers main main_token msg_count in_flight].
  - rewrite length_insert. apply Hi.
  - unfold pool_size. cbn [workers]. rewrite length_insert. apply Hi.
  - done.
  - intros i v Hv. rewrite (pending_insert s _ k w w') by done. cbn [main]. rewrite Ht.
    apply list_lookup_insert_Some in Hv as [(<- & <- & _)|[Hne Hv]].
    + pose proof (inv_bits s Hi k w Hw) as Hb. unfold alive in *. lia.
    + rewrite (inv_bits s Hi i v Hv). lia.
  - intros i v Hv. apply list_lookup_insert_Some in Hv as [(<- & <- & _)|[Hne Hv]].
    + apply Hok; cbn; [done..|]. by rewrite length_insert.
    + eapply worker_ok_frame; [by apply (inv_workers s Hi)|cbn; by rewrite length_insert|done|].
      intros Hp _. pose proof (inv_workers s Hi i v Hv) as Hv'. unfold worker_ok in Hv'. rewrite Hp in Hv'.
      destruct Hv' as (_ & _ & Hact & _). by destruct Hne; symmetry; eapply alive_only.
  - rewrite (zsum_insert _ _ _ _ _ Hw). rewrite Hsr, (inv_search s Hi). lia.
  - rewrite (zsum_insert _ _ _ _ _ Hw). done.
  - pose proof (inv_main s Hi) as Hm. unfold main_ok in *. cbn [main active_workers main_token workers].
    destruct (main s) as [| | |[]| | |]; try tauto; [|by rewrite length_insert..].
    destruct (Hinit eq_refl) as (Hip & Htk & Htl). destruct Hm as (_ & Hws & Hidle). split_and!.
    + done.
    + intros i v Hv. apply list_lookup_insert_Some in Hv as [(<- & <- & _)|[Hne Hv]]; [done|eauto].
    + rewrite Hidle. unfold waking. cbn [workers]. f_equiv. split; intros (i & v & Hv & Hp).
      * exists i, v. split; [|done]. rewrite list_lookup_insert_ne; [done|]. intros ->. simplify_eq.
      * apply list_lookup_insert_Some in Hv as [(<- & <- & _)|[Hne Hv]]; [done|eauto].
Qed.
End Inv.
End MtExecutorFacts.
