(* ===== verification/MtExecutorSteps.v ===== *)
(** * The multi-threaded executor: every step preserves the invariant *)

From S2P Require Import Prelude Bit PoolManager Injector MtExecutor MtExecutorFacts.
Local Open Scope Z_scope.

Module MtExecutorSteps.
Import MtExecutor MtExecutorFacts.

Lemma bucket_size_pos : (1 <= BUCKET_SIZE)%nat.
Proof. unfold BUCKET_SIZE. lia. Qed.

Lemma wrap64_add_l x y : wrap64 (wrap64 x + y) = wrap64 (x + y).
Proof. unfold wrap64, wrap. apply Zplus_mod_idemp_l. Qed.

Lemma wrap64_eq_add x y d : wrap64 x = wrap64 y -> wrap64 (x + d) = wrap64 (y + d).
Proof. intros H. rewrite <- (wrap64_add_l x), <- (wrap64_add_l y), H. done. Qed.

Section Steps.
Context {T : Type}.
Implicit Types (s : Sys T) (w : Worker T) (p : WorkerPc T).

Lemma searching_wrap s k w d :
  inv s -> workers s !! k = Some w -> 0 <= search_of w + d -> d <= 1 ->
  wrap64 (searching_workers s + d) = searching_workers s + d.
Proof.
  intros Hi Hw H1 H2. pose proof (searching_range s Hi).
  assert (search_of w <= searching_workers s).
  { rewrite (inv_search s Hi). pose proof (zsum_elem search_of (workers s) k w ltac:(intros; apply search_of_range) Hw).
    assert (0 <= searching_main (main s)) by (destruct (main s) as [| | |[]| | |]; cbn; lia). lia. }
  unfold wrap64, wrap. apply Z.mod_small. lia.
Qed.

(** No worker is past the barrier before the end of [Executor::new]. *)
Lemma init_worker s k w : inv s -> workers s !! k = Some w -> main s = MInit ->
  init_pc (pc w) = true /\ token w = false /\ drained s.
Proof.
  intros Hi Hw Hm. pose proof (inv_main s Hi) as H. unfold main_ok in H. rewrite Hm in H.
  destruct H as (Hd & H & _). destruct (H k w Hw). done.
Qed.

Lemma worker_fact s k w : inv s -> workers s !! k = Some w -> worker_ok s k w.
Proof. intros Hi Hw. by apply (inv_workers s Hi). Qed.


(** A step of an awake worker past the barrier that leaves the word of active
    workers as it is. *)
Lemma inv_tasks s k w p ql fs q sr :
  inv s -> workers s !! k = Some w -> parkish (pc w) = false -> init_pc (pc w) = false ->
  parkish p = false -> pc_target p = pc_target (pc w) -> Injector.wf BUCKET_SIZE q ->
  (forall s', active_workers s' = active_workers s -> injector s' = q ->
     length (workers s') = length (workers s) -> worker_ok s' k (set_tasks p ql fs w)) ->
  sr = searching_workers s + (searching_pc p - searching_pc (pc w)) ->
  inv (mkSys q (active_workers s) sr (<[k := set_tasks p ql fs w]> (workers s)) (main s) (main_token s)
         (msg_count s) (in_flight s)).
Proof.
  intros Hi Hw Hpk Hin Hp Ht Hq Hok Hsr. destruct (bit_set s k w Hi Hw Hpk) as (_ & Htk & _).
  refine (inv_local s k w _ _ _ _ _ Hi Hw (awake_alive s k w Hi Hw Hpk) _ _ _ _ _ _ _ _ _);
    try done; cbn [pc token thread_msg_count].
  - unfold alive. cbn. rewrite Hp, Htk. done.
  - by intros E; rewrite E in Hpk.
  - intros E. cbn in E. by subst p.
  - unfold search_of. cbn. lia.
  - rewrite <- (inv_msgs s Hi). f_equal. cbn. lia.
  - intros Hm. destruct (init_worker s k w Hi Hw Hm) as (H & _). congruence.
Qed.

Lemma searching_add s k w p d :
  inv s -> workers s !! k = Some w -> searching_pc p = searching_pc (pc w) + d -> token w = false ->
  -1 <= d <= 1 -> wrap64 (searching_workers s + d) = searching_workers s + (searching_pc p - searching_pc (pc w)).
Proof.
  intros Hi Hw Hd Ht Hr.
  assert (0 <= searching_pc p) by (destruct p as [| | | | | | | | | | | | | | | | | |[]]; cbn; lia).
  assert (0 <= search_of w + d) by (unfold search_of; rewrite Ht; cbn; lia).
  rewrite (searching_wrap s k w) by (done || lia). lia.
Qed.
End Steps.

(** A step of worker [k], at a known point of the code, that leaves the word of
    active workers as it is; what remains to be shown is the fact of the worker
    at its new point. *)
Ltac tasks_step s k w Hi Hw Hpc :=
  let Hok := fresh "Hok" in
  pose proof (worker_fact s k w Hi Hw) as Hok; unfold worker_ok in Hok; rewrite Hpc in Hok;
  let Hp := fresh "Hp" in
  assert (parkish (pc w) = false) as Hp by (rewrite Hpc; reflexivity);
  destruct (bit_set s k w Hi Hw Hp) as (_ & ? & _);
  refine (inv_tasks s k w _ _ _ _ _ Hi Hw Hp _ _ _ _ _ _);
  [ rewrite Hpc; reflexivity | reflexivity | rewrite Hpc; reflexivity | try apply Hi
  | intros ? ? ? ?; try done
  | first [ apply (searching_add s k w); rewrite ?Hpc; cbn; (done || lia) | rewrite Hpc; cbn; lia ] ].

Section Worker.
Context {T : Type}.
Implicit Types (s : Sys T) (w : Worker T) (p : WorkerPc T).

Lemma step_top s k w : inv s -> workers s !! k = Some w -> pc w = WTop ->
  inv (set_worker k (set_msgs WTry 0 w) (add_msgs (thread_msg_count w) s)).
Proof.
  intros Hi Hw Hpc. pose proof (worker_fact s k w Hi Hw) as Hok. unfold worker_ok in Hok. rewrite Hpc in Hok.
  assert (parkish (pc w) = false) as Hp by (by rewrite Hpc).
  destruct (bit_set s k w Hi Hw Hp) as (_ & Ht & _).
  refine (inv_local s k w _ _ _ _ _ Hi Hw (awake_alive s k w Hi Hw Hp) _ _ _ _ _ _ _ _ _);
    try rewrite Hpc; try done; cbn.
  - unfold alive. cbn. by rewrite Ht.
  - apply Hi.
  - unfold search_of. rewrite Hpc. cbn. lia.
  - rewrite wrap64_add_l, <- (inv_msgs s Hi). f_equal. lia.
  - intros Hm'. split_and!; [done..|]. by apply (init_worker s k w).
Qed.

Lemma step_last s k w : inv s -> workers s !! k = Some w -> pc w = WLast ->
  inv (set_worker k (set_pc (if Injector.is_empty (injector s) then WSetAll else WBeginSearch) w) s).
Proof.
  intros Hi Hw Hpc. pose proof (worker_fact s k w Hi Hw) as Hok. unfold worker_ok in Hok. rewrite Hpc in Hok.
  assert (parkish (pc w) = false) as Hp by (by rewrite Hpc).
  destruct (bit_set s k w Hi Hw Hp) as (_ & Ht & _). destruct Hok as (Hno & Hmc & Hb).
  pose proof (Injector.tasks_empty BUCKET_SIZE _ (inv_injector s Hi)) as He.
  refine (inv_local s k w _ _ _ _ _ Hi Hw (awake_alive s k w Hi Hw Hp) _ _ _ _ _ _ _ _ _);
    unfold Injector.is_empty, alive, search_of; try rewrite Hpc; try done; cbn [pc token thread_msg_count set_pc].
  - destruct (Injector.empty_flag _); cbn; by rewrite Ht.
  - by destruct (Injector.empty_flag _).
  - by destruct (Injector.empty_flag _).
  - apply Hi.
  - intros s' Ha Hq Hl. unfold worker_ok. cbn [pc set_pc]. destruct (Injector.empty_flag (injector s)) eqn:E; [|done].
    rewrite Ha, Hq. split_and!; [done..|]. by apply He.
  - destruct (Injector.empty_flag _); cbn; lia.
  - rewrite <- (inv_msgs s Hi). f_equal. cbn. lia.
  - intros Hm'. destruct (init_worker s k w Hi Hw Hm') as (_ & _ & Hd). apply He in Hd. rewrite Hd.
    split_and!; [done..|]. by apply He.
Qed.

(** ** The barrier *)

Lemma clear_bit_nonzero s k : Z.testbit (active_workers s) (Z.of_nat k) = true ->
  active_workers s <> bit k -> 0 <= active_workers s -> Z.ldiff (active_workers s) (bit k) <> 0.
Proof.
  intros Hb Hne Hnn H0. apply Hne. apply Z.bits_inj'. intros n Hn. unfold bit in *.
  rewrite Z.pow2_bits_eqb by lia. assert (Z.testbit (Z.ldiff (active_workers s) (2 ^ Z.of_nat k)) n = false) as H
    by (rewrite H0; apply Z.bits_0).
  rewrite Z.ldiff_spec, Z.pow2_bits_eqb in H by lia. destruct (Z.eqb_spec (Z.of_nat k) n) as [<-|]; [done|].
  by rewrite andb_true_r in H.
Qed.

Lemma clear_bit_range a k n : 0 <= a < 2 ^ n -> 0 <= n -> 0 <= Z.ldiff a (bit k) < 2 ^ n.
Proof.
  intros [H1 H2] Hn. assert (0 <= Z.ldiff a (bit k)) by (apply Z.ldiff_nonneg; lia). split; [done|].
  apply Z.bounded_iff_bits_nonneg; [done|done|]. intros l Hl. rewrite Z.ldiff_spec.
  apply (Z.bounded_iff_bits_nonneg n a) with (l := l) in H2; [|lia..]. by rewrite H2.
Qed.

(** Another worker, at the end of the barrier, makes the word of this worker's
    bit impossible. *)
Lemma worker_ok_other s s' k w j v :
  inv s -> workers s !! k = Some w -> alive w -> workers s !! j = Some v -> j <> k ->
  length (workers s') = length (workers s) -> worker_ok s' j v.
Proof.
  intros Hi Hw Ha Hv Hne Hl. pose proof (worker_fact s j v Hi Hv) as Hok.
  eapply worker_ok_frame; [done|done| |]; unfold worker_ok in Hok.
  - intros Hor. destruct Hne. apply (alive_only s k w); [done..|]. destruct Hor as [E|E]; rewrite E in Hok; tauto.
  - intros E _. rewrite E in Hok. destruct Hne. apply (alive_only s k w); tauto.
Qed.

Lemma step_try s k w b s1 : inv s -> workers s !! k = Some w -> pc w = WTry ->
  try_set_worker_inactive k s = Some (b, s1) ->
  inv (set_worker k (set_pc (if b : bool then WPark else WLast) w) s1).
Proof.
  intros Hi Hw Hpc. pose proof (worker_fact s k w Hi Hw) as Hok. unfold worker_ok in Hok. rewrite Hpc in Hok.
  assert (parkish (pc w) = false) as Hp by (by rewrite Hpc).
  pose proof (awake_alive s k w Hi Hw Hp) as Hal.
  destruct (bit_set s k w Hi Hw Hp) as (Hb & Ht & Hpd). destruct Hok as (Hno & Hmc).
  unfold try_set_worker_inactive. case_match; [done|]. intros [= <- <-].
  destruct (Z.eqb_spec (active_workers s) (bit k)) as [Heq|Hne].
  - refine (inv_local s k w _ _ _ _ _ Hi Hw Hal _ _ _ _ _ _ _ _ _);
      unfold alive, search_of; try rewrite Hpc; try done; cbn.
    + by rewrite Ht.
    + apply Hi.
    + intros s' Ha _ _. unfold worker_ok. cbn. rewrite Ha. done.
    + lia.
    + rewrite <- (inv_msgs s Hi). f_equal. lia.
    + intros Hm'. split_and!; [done..|]. by apply (init_worker s k w).
  - cbn [negb]. pose proof (inv_active s Hi) as Hr. pose proof (clear_bit_nonzero s k Hb Hne ltac:(lia)) as Hnz.
    split; cbn [injector active_workers searching_workers workers main main_token msg_count in_flight set_worker set_active].
    + rewrite length_insert. apply Hi.
    + unfold pool_size. cbn. rewrite length_insert. apply clear_bit_range; [apply Hr|lia].
    + apply Hi.
    + intros i v Hv. rewrite (pending_insert s _ k w (set_pc WPark w)) by done. rewrite Hpc. cbn [main set_worker set_active set_main_token pc_target pc set_pc main_target].
      unfold bit. rewrite Z.ldiff_spec, Z.pow2_bits_eqb by lia.
      apply list_lookup_insert_Some in Hv as [(<- & <- & _)|[Hne' Hv]].
      * rewrite Z.eqb_refl, Hpd, andb_false_r. cbn. rewrite Ht. cbn. lia.
      * rewrite (proj2 (Z.eqb_neq _ _)), andb_true_r by lia. rewrite (inv_bits s Hi i v Hv). lia.
    + intros i v Hv. apply list_lookup_insert_Some in Hv as [(<- & <- & _)|[Hne' Hv]]; [done|].
      apply (worker_ok_other s _ k w); [done..|by cbn; rewrite length_insert].
    + rewrite (zsum_insert _ _ _ _ _ Hw), (inv_search s Hi). unfold search_of. rewrite Hpc. cbn. lia.
    + rewrite (zsum_insert _ _ _ _ _ Hw), <- (inv_msgs s Hi). f_equal. cbn. lia.
    + pose proof (inv_main s Hi) as Hm. pose proof (alive_busy s k w Hi Hw Hal).
      unfold main_ok in *. cbn [main active_workers main_token workers set_worker set_active].
      destruct (main s) as [| | |[]| | |] eqn:Hmain; try tauto; [|by cbn; rewrite length_insert..].
      destruct Hm as (Hd & Hws & Hidle). split_and!; [done| |].
      * intros i v Hv. apply list_lookup_insert_Some in Hv as [(<- & <- & _)|[Hne' Hv]]; [done|eauto].
      * split; [done|]. intros Hor. exfalso. assert (main_token s = true \/ waking s); [|tauto].
        destruct Hor as [|(i & v & Hv & Hpv)]; [by left|right].
        apply list_lookup_insert_Some in Hv as [(<- & <- & _)|[Hne' Hv]]; [done|]. by exists i, v.
Qed.

Lemma step_set_all s k w : inv s -> workers s !! k = Some w -> pc w = WSetAll ->
  inv (set_worker k (set_pc WUnparkMain w) (set_active 0 s)).
Proof.
  intros Hi Hw Hpc. pose proof (worker_fact s k w Hi Hw) as Hok. unfold worker_ok in Hok. rewrite Hpc in Hok.
  assert (parkish (pc w) = false) as Hp by (by rewrite Hpc).
  pose proof (awake_alive s k w Hi Hw Hp) as Hal.
  destruct (bit_set s k w Hi Hw Hp) as (Hb & Ht & Hpd). destruct Hok as (Hno & Hmc & Hact & Hd).
  split; cbn [injector active_workers searching_workers workers main main_token msg_count in_flight set_worker set_active].
  - rewrite length_insert. apply Hi.
  - unfold pool_size. cbn. rewrite length_insert. lia.
  - apply Hi.
  - intros i v Hv. rewrite (pending_insert s _ k w (set_pc WUnparkMain w)) by done. rewrite Hpc. cbn [main set_worker set_active set_main_token pc_target pc set_pc].
    rewrite Z.bits_0. apply list_lookup_insert_Some in Hv as [(<- & <- & _)|[Hne' Hv]].
    + rewrite Hpd. cbn. rewrite Ht. cbn. lia.
    + destruct (alone s k i v Hi Hact Hv ltac:(done)) as (H1 & H2 & H3). rewrite H1, H2, H3. cbn. lia.
  - intros i v Hv. apply list_lookup_insert_Some in Hv as [(<- & <- & _)|[Hne' Hv]]; [done|].
    apply (worker_ok_other s _ k w); [done..|by cbn; rewrite length_insert].
  - rewrite (zsum_insert _ _ _ _ _ Hw), (inv_search s Hi). unfold search_of. rewrite Hpc. cbn. lia.
  - rewrite (zsum_insert _ _ _ _ _ Hw), <- (inv_msgs s Hi). f_equal. cbn. lia.
  - pose proof (inv_main s Hi) as Hm. pose proof (alive_busy s k w Hi Hw Hal).
    assert (waking (set_worker k (set_pc WUnparkMain w) (set_active 0 s))) as Hwk.
    { exists k, (set_pc WUnparkMain w). split; [|done]. cbn. apply list_lookup_insert_eq. by eapply lookup_lt_Some. }
    unfold main_ok in *. cbn [main active_workers main_token workers set_worker set_active].
    destruct (main s) as [| | |[]| | |] eqn:Hmain; try tauto; [|by cbn; rewrite length_insert..].
    destruct Hm as (_ & Hws & Hidle). split_and!; [done| |tauto].
    intros i v Hv. apply list_lookup_insert_Some in Hv as [(<- & <- & _)|[Hne' Hv]]; [done|eauto].
Qed.

Lemma step_unpark_main s k w : inv s -> workers s !! k = Some w -> pc w = WUnparkMain ->
  inv (set_worker k (set_pc WPark w) (set_main_token true s)).
Proof.
  intros Hi Hw Hpc. pose proof (worker_fact s k w Hi Hw) as Hok. unfold worker_ok in Hok. rewrite Hpc in Hok.
  split; cbn [injector active_workers searching_workers workers main main_token msg_count in_flight set_worker set_main_token].
  - rewrite length_insert. apply Hi.
  - unfold pool_size. cbn. rewrite length_insert. apply Hi.
  - apply Hi.
  - intros i v Hv. rewrite (pending_insert s _ k w (set_pc WPark w)) by done. rewrite Hpc. cbn [main set_worker set_active set_main_token pc_target pc set_pc].
    apply list_lookup_insert_Some in Hv as [(<- & <- & _)|[Hne' Hv]].
    + rewrite (inv_bits s Hi k w Hw), Hpc. cbn. lia.
    + rewrite (inv_bits s Hi i v Hv). lia.
  - intros i v Hv. apply list_lookup_insert_Some in Hv as [(<- & <- & _)|[Hne' Hv]]; [done|].
    eapply worker_ok_frame; [by apply (inv_workers s Hi)|cbn; by rewrite length_insert|done|done].
  - rewrite (zsum_insert _ _ _ _ _ Hw), (inv_search s Hi). unfold search_of. rewrite Hpc. cbn. lia.
  - rewrite (zsum_insert _ _ _ _ _ Hw), <- (inv_msgs s Hi). f_equal. cbn. lia.
  - pose proof (inv_main s Hi) as Hm.
    assert (waking s) as Hwk by (by exists k, w).
    unfold main_ok in *. cbn [main active_workers main_token workers set_worker set_main_token].
    destruct (main s) as [| | |[]| | |] eqn:Hmain; try (unfold drained in *; cbn; tauto); [|by cbn; rewrite length_insert..].
    destruct Hm as (Hd & Hws & Hidle). split_and!; [done| |tauto].
    intros i v Hv. apply list_lookup_insert_Some in Hv as [(<- & <- & _)|[Hne' Hv]]; [|eauto].
    split; [done|]. by apply (Hws k w).
Qed.

Lemma step_park s k w : inv s -> workers s !! k = Some w -> pc w = WPark -> token w = true ->
  inv (set_worker k (set_token false (set_pc WPop w)) s).
Proof.
  intros Hi Hw Hpc Ht. pose proof (worker_fact s k w Hi Hw) as Hok. unfold worker_ok in Hok. rewrite Hpc in Hok.
  refine (inv_local s k w _ _ _ _ _ Hi Hw _ _ _ _ _ _ _ _ _ _);
    unfold alive, search_of; try rewrite Hpc; try done; cbn.
  - by rewrite Ht.
  - apply Hi.
  - intros s' _ _ _. unfold worker_ok. cbn. tauto.
  - rewrite Ht. cbn. lia.
  - rewrite <- (inv_msgs s Hi). f_equal. lia.
  - intros Hm'. destruct (init_worker s k w Hi Hw Hm') as (_ & H & _). congruence.
Qed.

(** ** Activation of another worker *)

Lemma trailing_ones_nonneg x : 0 <= trailing_ones x.
Proof.
  unfold trailing_ones. destruct (head _) as [y|] eqn:E; cbn; [|lia].
  apply head_Some_elem_of, list_elem_of_filter in E as [_ H]. apply elem_of_seqZ in H. lia.
Qed.

Lemma set_bit_range a j n : 0 <= a < 2 ^ n -> 0 <= j < n -> 0 <= Z.lor a (2 ^ j) < 2 ^ n.
Proof.
  intros [H1 H2] Hj. assert (0 <= Z.lor a (2 ^ j)) by (apply Z.lor_nonneg; lia). split; [done|].
  apply Z.bounded_iff_bits_nonneg; [lia|done|]. intros l Hl. rewrite Z.lor_spec, Z.pow2_bits_false by lia.
  apply (Z.bounded_iff_bits_nonneg n a) with (l := l) in H2; [|lia..]. by rewrite H2.
Qed.

Lemma clear_bit_test a j : 0 <= j -> Z.land a (2 ^ j) = 0 -> Z.testbit a j = false.
Proof.
  intros Hj H0. assert (Z.testbit (Z.land a (2 ^ j)) j = false) as H by (rewrite H0; apply Z.bits_0).
  rewrite Z.land_spec, Z.pow2_bits_true, andb_true_r in H by lia. done.
Qed.

Lemma set_bit_nonzero a j : 0 <= j -> Z.lor a (2 ^ j) <> 0.
Proof.
  intros Hj H. assert (Z.testbit (Z.lor a (2 ^ j)) j = true) as Hb
    by (rewrite Z.lor_spec, Z.pow2_bits_true by lia; apply orb_true_r). by rewrite H, Z.bits_0 in Hb.
Qed.

(** The bit of an idle worker is set by the thread that will unpark it. *)
Lemma bits_claim s s' j :
  inv s -> Z.testbit (active_workers s) (Z.of_nat j) = false ->
  active_workers s' = Z.lor (active_workers s) (2 ^ Z.of_nat j) ->
  (forall i, pending s' i = pending s i + points i (Some j)) ->
  forall i (v v' : Worker T), workers s !! i = Some v -> token v' = token v -> parkish (pc v') = parkish (pc v) ->
  Z.b2z (Z.testbit (active_workers s') (Z.of_nat i)) =
  Z.b2z (token v') + pending s' i + Z.b2z (negb (parkish (pc v'))).
Proof.
  intros Hi Hj Ha Hp i v v' Hv Ht Hpk. rewrite Ha, Hp, Ht, Hpk, Z.lor_spec, Z.pow2_bits_eqb by lia.
  pose proof (inv_bits s Hi i v Hv) as Hb. unfold points. destruct (decide (i = j)) as [->|Hne].
  - rewrite decide_True by done. rewrite Hj in *. rewrite Z.eqb_refl. cbn in *. lia.
  - rewrite decide_False by congruence. rewrite (proj2 (Z.eqb_neq _ _)), orb_false_r by lia. lia.
Qed.

Lemma points_none i : points i None = 0.
Proof. unfold points. by rewrite decide_False. Qed.

Lemma step_claim_worker s k w a j : inv s -> workers s !! k = Some w -> pc w = WActivate (ActOr a) ->
  0 <= j < pool_size s -> Z.land (active_workers s) (2 ^ j) = 0 ->
  inv (set_worker k (set_pc (WActivate (ActBegin (Z.to_nat j))) w) (set_active (Z.lor (active_workers s) (2 ^ j)) s)).
Proof.
  intros Hi Hw Hpc Hj Hl. apply clear_bit_test in Hl; [|lia].
  assert (parkish (pc w) = false) as Hp by (by rewrite Hpc).
  pose proof (awake_alive s k w Hi Hw Hp) as Hal. pose proof (set_bit_nonzero (active_workers s) j ltac:(lia)) as Hnz.
  split; cbn [injector active_workers searching_workers workers main main_token msg_count in_flight set_worker set_active].
  - rewrite length_insert. apply Hi.
  - unfold pool_size. cbn. rewrite length_insert. apply set_bit_range; [apply Hi|done].
  - apply Hi.
  - intros i v Hv.
    assert (exists u, workers s !! i = Some u /\ token v = token u /\ parkish (pc v) = parkish (pc u)) as (u & ? & ? & ?).
    { apply list_lookup_insert_Some in Hv as [(<- & <- & _)|[Hne Hv]]; [|by exists v]. exists w. by rewrite Hpc. }
    eapply (bits_claim s (set_worker k _ (set_active _ s)) (Z.to_nat j)); [done|by rewrite Z2Nat.id by lia|..].
    + cbn. by rewrite Z2Nat.id by lia.
    + intros i'. erewrite (pending_insert s _ k w) by done. rewrite Hpc. cbn. rewrite points_none. lia.
    + done.
    + done.
    + done.
  - intros i v Hv. apply list_lookup_insert_Some in Hv as [(<- & <- & _)|[Hne' Hv]].
    + unfold worker_ok. cbn. rewrite length_insert. unfold pool_size in Hj. lia.
    + apply (worker_ok_other s _ k w); [done..|by cbn; rewrite length_insert].
  - rewrite (zsum_insert _ _ _ _ _ Hw), (inv_search s Hi). unfold search_of. rewrite Hpc. cbn. lia.
  - rewrite (zsum_insert _ _ _ _ _ Hw), <- (inv_msgs s Hi). f_equal. cbn. lia.
  - pose proof (inv_main s Hi) as Hm. pose proof (alive_busy s k w Hi Hw Hal).
    unfold main_ok in *. cbn [main active_workers main_token workers set_worker set_active].
    destruct (main s) as [| | |[]| | |] eqn:Hmain; try tauto; [|by cbn; rewrite length_insert..].
    destruct (init_worker s k w Hi Hw Hmain) as (Hc & _). by rewrite Hpc in Hc.
Qed.

(** A thread that points to [j] makes its bit set and [j] asleep. *)
Lemma pending_target s j v :
  inv s -> workers s !! j = Some v -> 1 <= pending s j ->
  Z.testbit (active_workers s) (Z.of_nat j) = true /\ token v = false /\ parkish (pc v) = true.
Proof.
  intros Hi Hv Hp. pose proof (inv_bits s Hi j v Hv) as Hb.
  destruct (Z.testbit _ _), (token v), (parkish (pc v)); cbn in Hb; done || lia.
Qed.

Lemma pending_worker s k w j :
  workers s !! k = Some w -> pc_target (pc w) = Some j -> 1 <= pending s j.
Proof.
  intros Hw Ht. unfold pending.
  assert (forall o, 0 <= points j o) as Hp by (intros o; unfold points; case_decide; lia).
  pose proof (zsum_elem (fun w => points j (pc_target (pc w))) (workers s) k w ltac:(intros; apply Hp) Hw) as H.
  cbn beta in H. rewrite Ht in H. unfold points at 1 in H. rewrite decide_True in H by done.
  pose proof (Hp (main_target (main s))). lia.
Qed.

Lemma pending_main s j : main_target (main s) = Some j -> 1 <= pending s j.
Proof.
  intros Ht. unfold pending. rewrite Ht. unfold points at 2. rewrite decide_True by done.
  pose proof (zsum_nonneg (fun w => points j (pc_target (pc w))) (workers s)) as H.
  specialize (H ltac:(intros w; unfold points; case_decide; lia)). lia.
Qed.

Lemma step_unpark_worker s k w j v : inv s -> workers s !! k = Some w -> pc w = WActivate (ActUnpark j) ->
  workers s !! j = Some v ->
  j <> k /\ inv (set_worker k (set_pc WRun w) (set_worker j (set_token true v) s)).
Proof.
  intros Hi Hw Hpc Hv. assert (parkish (pc w) = false) as Hp by (by rewrite Hpc).
  pose proof (awake_alive s k w Hi Hw Hp) as Hal.
  destruct (pending_target s j v Hi Hv) as (Hb & Ht & Hpk).
  { apply (pending_worker s k w); [done|]. by rewrite Hpc. }
  assert (j <> k) as Hne by (intros ->; simplify_eq; congruence). split; [done|].
  set (s1 := set_worker j (set_token true v) s).
  assert (workers s1 !! k = Some w) as Hw1 by (cbn; by rewrite list_lookup_insert_ne).
  assert (length (workers s1) = length (workers s)) as Hlen by (cbn; by rewrite length_insert).
  assert (forall i, pending (set_worker k (set_pc WRun w) s1) i = pending s i - points i (Some j)) as Hpend.
  { intros i. rewrite (pending_insert s1 _ k w (set_pc WRun w)) by done.
    rewrite (pending_insert s s1 j v (set_token true v)) by done. rewrite Hpc. cbn. rewrite points_none. lia. }
  split; cbn [injector active_workers searching_workers workers main main_token msg_count in_flight set_worker].
  - rewrite length_insert, Hlen. apply Hi.
  - unfold pool_size. cbn. rewrite !length_insert. apply Hi.
  - apply Hi.
  - intros i u Hu. rewrite Hpend. unfold points. change (active_workers s1) with (active_workers s).
    apply list_lookup_insert_Some in Hu as [(<- & <- & _)|[Hne' Hu]].
    { rewrite decide_False by congruence. rewrite (inv_bits s Hi k w Hw), Hpc. cbn. lia. }
    apply list_lookup_insert_Some in Hu as [(<- & <- & _)|[Hne'' Hu]].
    + rewrite decide_True by done. rewrite (inv_bits s Hi j v Hv), Ht. cbn. lia.
    + rewrite decide_False by congruence. rewrite (inv_bits s Hi i u Hu). lia.
  - intros i u Hu. apply list_lookup_insert_Some in Hu as [(<- & <- & _)|[Hne' Hu]]; [done|].
    apply list_lookup_insert_Some in Hu as [(<- & <- & _)|[Hne'' Hu]].
    + change (worker_ok (set_worker k (set_pc WRun w) s1) j v).
      apply (worker_ok_other s _ k w); [done..|by cbn; rewrite !length_insert].
    + apply (worker_ok_other s _ k w); [done..|by cbn; rewrite !length_insert].
  - rewrite (zsum_insert _ _ _ _ _ Hw1). cbn. rewrite (zsum_insert _ _ _ _ _ Hv), (inv_search s Hi).
    unfold search_of. rewrite Hpc, Ht. cbn. lia.
  - rewrite (zsum_insert _ _ _ _ _ Hw1). cbn. rewrite (zsum_insert _ _ _ _ _ Hv), <- (inv_msgs s Hi). f_equal. cbn. lia.
  - pose proof (inv_main s Hi) as Hm. pose proof (alive_busy s k w Hi Hw Hal).
    unfold main_ok in *. cbn [main active_workers main_token workers set_worker s1].
    destruct (main s) as [| | |[]| | |] eqn:Hmain; try tauto; [|by cbn; rewrite !length_insert..].
    destruct (init_worker s k w Hi Hw Hmain) as (Hc & _). by rewrite Hpc in Hc.
Qed.

(** ** The main thread *)

Lemma inv_main_only s m mt sr :
  inv s -> main_target m = main_target (main s) ->
  sr = searching_workers s - searching_main (main s) + searching_main m ->
  main_ok (mkSys (injector s) (active_workers s) sr (workers s) m mt (msg_count s) (in_flight s)) ->
  inv (mkSys (injector s) (active_workers s) sr (workers s) m mt (msg_count s) (in_flight s)).
Proof.
  intros Hi Ht Hsr Hm. split; cbn [injector active_workers searching_workers workers main main_token msg_count in_flight];
    try apply Hi; [| |done].
  - intros i w Hw. unfold pending. cbn. rewrite Ht. by apply (inv_bits s Hi).
  - rewrite Hsr, (inv_search s Hi). lia.
Qed.

Lemma step_claim_main s a : inv s -> main s = MActivate (ActOr a) ->
  inv (set_main (MActivate (ActBegin 0)) (set_active (Z.lor (active_workers s) 1) s)).
Proof.
  intros Hi Hmain. pose proof (inv_main s Hi) as Hm. unfold main_ok in Hm. rewrite Hmain in Hm.
  destruct Hm as [H0 _]. pose proof (inv_size s Hi) as Hsz.
  split; cbn [injector active_workers searching_workers workers main main_token msg_count in_flight set_main set_active];
    try apply Hi.
  - apply (set_bit_range _ 0); [apply Hi|unfold pool_size; cbn; lia].
  - intros i w Hw. apply (bits_claim s (set_main _ (set_active _ s)) 0 Hi) with (v := w); [|done| |done..].
    + rewrite H0. apply Z.bits_0.
    + intros i'. unfold pending. cbn. rewrite Hmain. cbn. rewrite points_none. lia.
  - intros i w Hw. destruct (idle_parked s i w Hi H0 Hw) as (Hp & _).
    eapply worker_ok_frame; [by apply (inv_workers s Hi)|done| |done]. intros [E|E]; by rewrite E in Hp.
  - rewrite (inv_search s Hi), Hmain. done.
Qed.

Lemma step_unpark_from_main s j v : inv s -> main s = MActivate (ActUnpark j) -> workers s !! j = Some v ->
  inv (set_main MCheck (set_worker j (set_token true v) s)).
Proof.
  intros Hi Hmain Hv.
  destruct (pending_target s j v Hi Hv) as (Hb & Ht & Hpk).
  { apply pending_main. by rewrite Hmain. }
  split; cbn [injector active_workers searching_workers workers main main_token msg_count in_flight set_main set_worker].
  - rewrite length_insert. apply Hi.
  - unfold pool_size. cbn. rewrite length_insert. apply Hi.
  - apply Hi.
  - intros i u Hu. rewrite (pending_insert s _ j v (set_token true v)) by done.
    rewrite Hmain. cbn. rewrite points_none. unfold points.
    apply list_lookup_insert_Some in Hu as [(<- & <- & _)|[Hne' Hu]].
    + rewrite !(decide_True _ _ (P := Some j = Some j)) by done. rewrite (inv_bits s Hi j v Hv), Ht. cbn. lia.
    + rewrite (decide_False (P := Some j = Some i)) by congruence. rewrite (inv_bits s Hi i u Hu). lia.
  - intros i u Hu. apply list_lookup_insert_Some in Hu as [(<- & <- & _)|[Hne' Hu]].
    + change (worker_ok (set_main MCheck (set_worker j (set_token true v) s)) j v).
      eapply worker_ok_frame; [by apply (inv_workers s Hi)|cbn; by rewrite length_insert|done|done].
    + eapply worker_ok_frame; [by apply (inv_workers s Hi)|cbn; by rewrite length_insert|done|done].
  - rewrite (zsum_insert _ _ _ _ _ Hv), (inv_search s Hi), Hmain. unfold search_of. cbn. rewrite Ht. cbn. lia.
  - rewrite (zsum_insert _ _ _ _ _ Hv), <- (inv_msgs s Hi). f_equal. cbn. lia.
  - unfold main_ok. cbn. intros H0. by rewrite H0, Z.bits_0 in Hb.
Qed.

Lemma main_activate_inv s a : inv s -> main s = MActivate a -> exists s', main_step s = Some s' /\ inv s'.
Proof.
  intros Hi Hmain. pose proof (inv_main s Hi) as Hm. unfold main_ok in Hm. rewrite Hmain in Hm.
  unfold main_step. rewrite Hmain. destruct a as [|a|j|j]; cbn [activate_step mbind option_bind].
  - eexists. split; [done|]. refine (inv_main_only s _ _ _ Hi _ _ _); rewrite ?Hmain; cbn; [done|lia|done].
  - destruct Hm as [H0 ->]. pose proof (inv_size s Hi).
    replace (trailing_ones 0) with 0 by reflexivity. rewrite (proj2 (Z.leb_gt _ _)) by (unfold pool_size; lia).
    rewrite H0. eexists. split; [done|].
    pose proof (step_claim_main s 0 Hi Hmain) as H1. by rewrite H0 in H1.
  - eexists. split; [done|]. refine (inv_main_only s _ _ _ Hi _ _ _); rewrite ?Hmain; cbn; [done| |done].
    pose proof (searching_range s Hi). unfold wrap64, wrap. rewrite Z.mod_small by lia. lia.
  - destruct (lookup_lt_is_Some_2 _ _ Hm) as [v Hv]. unfold unpark. rewrite Hv.
    eexists. split; [done|]. by apply step_unpark_from_main.
Qed.

(** The only panic is the cast of a negative message count in [Executor::run]. *)
Definition negative_count s : Prop := main s = MCount /\ as_isize (msg_count s) < 0 /\ msg_count s <> 0.

Lemma main_step_inv s : inv s -> ~ negative_count s -> exists s', main_step s = Some s' /\ inv s'.
Proof.
  intros Hi Hneg. destruct (main s) as [| |r|a| | |] eqn:Hmain; [| | |by eapply main_activate_inv| | |];
    pose proof (inv_main s Hi) as Hm; unfold main_ok in Hm; rewrite Hmain in Hm; unfold main_step; rewrite Hmain.
  - destruct (main_token s) eqn:Ht; [|by exists s]. eexists. split; [done|].
    refine (inv_main_only s _ _ _ Hi _ _ _); rewrite ?Hmain; cbn; [done|lia|]. unfold main_ok. cbn. tauto.
  - unfold pool_is_idle. rewrite Hm. eexists. split; [done|].
    refine (inv_main_only s _ _ _ Hi _ _ _); rewrite ?Hmain; cbn; [done|lia|done].
  - by exists s.
  - eexists. split; [done|]. unfold pool_is_idle.
    refine (inv_main_only s _ _ _ Hi _ _ _); rewrite ?Hmain; destruct (Z.eqb_spec (active_workers s) 0) as [H0|H0];
      cbn; [done..|lia|lia| |]; unfold main_ok; cbn; [|done]. split; [done|]. by apply Hm.
  - unfold run_result. destruct (Z.eqb_spec (msg_count s) 0) as [|Hnz]; [|destruct (Z.ltb_spec (as_isize (msg_count s)) 0)].
    2: by destruct Hneg.
    all: eexists; (split; [done|]); refine (inv_main_only s _ _ _ Hi _ _ _); rewrite ?Hmain; cbn; [done|lia|].
    all: unfold main_ok; cbn; tauto.
  - destruct (main_token s) eqn:Ht; [|by exists s]. eexists. split; [done|].
    refine (inv_main_only s _ _ _ Hi _ _ _); rewrite ?Hmain; cbn; [done|lia|]. unfold main_ok. cbn.
    intros H0. by apply Hm.
Qed.

Lemma worker_activate_inv s k w a : inv s -> workers s !! k = Some w -> pc w = WActivate a ->
  exists s', worker_step k w s = Some s' /\ inv s'.
Proof.
  intros Hi Hw Hpc. unfold worker_step. rewrite Hpc.
  assert (forall p, inv (set_worker k (set_pc p w) s) -> exists s',
    (w0 ← workers s !! k; Some (set_worker k (set_pc p w0) s)) = Some s' /\ inv s') as Hret
    by (intros p H; rewrite Hw; by eexists).
  destruct a as [|a|j|j]; cbn [activate_step mbind option_bind].
  - apply Hret. tasks_step s k w Hi Hw Hpc.
  - destruct (Z.leb_spec (pool_size s) (trailing_ones a)) as [|Hlt]; [|destruct (Z.eqb_spec (Z.land (active_workers s) (2 ^ trailing_ones a)) 0)].
    + apply Hret. tasks_step s k w Hi Hw Hpc.
    + cbn. rewrite Hw. eexists. split; [done|]. eapply step_claim_worker; [done|done|done| |done].
      split; [apply trailing_ones_nonneg|done].
    + cbn. rewrite Hw. eexists. split; [done|]. pose proof (trailing_ones_nonneg a) as H0.
      replace (Z.lor (active_workers s) (2 ^ trailing_ones a)) with (active_workers s); [tasks_step s k w Hi Hw Hpc|].
      apply Z.bits_inj'. intros m Hm. rewrite Z.lor_spec, Z.pow2_bits_eqb by lia.
      destruct (Z.eqb_spec (trailing_ones a) m) as [<-|]; [|by rewrite orb_false_r].
      rewrite orb_true_r. destruct (Z.testbit (active_workers s) (trailing_ones a)) eqn:E; [done|].
      destruct n. apply Z.bits_inj'. intros l Hl. rewrite Z.land_spec, Z.pow2_bits_eqb, Z.bits_0 by lia.
      destruct (Z.eqb_spec (trailing_ones a) l) as [<-|]; [by rewrite E|apply andb_false_r].
  - cbn. rewrite Hw. eexists. split; [done|].
    pose proof (worker_fact s k w Hi Hw) as Hok. unfold worker_ok in Hok. rewrite Hpc in Hok. cbn in Hok.
    tasks_step s k w Hi Hw Hpc. unfold worker_ok. cbn. congruence.
  - pose proof (worker_fact s k w Hi Hw) as Hok. unfold worker_ok in Hok. rewrite Hpc in Hok. cbn in Hok.
    destruct (lookup_lt_is_Some_2 _ _ Hok) as [v Hv]. unfold unpark. rewrite Hv. cbn.
    destruct (step_unpark_worker s k w j v Hi Hw Hpc Hv) as [Hne Hinv].
    rewrite list_lookup_insert_ne by done. rewrite Hw. by eexists.
Qed.

Lemma worker_step_inv s k w : inv s -> workers s !! k = Some w -> exists s', worker_step k w s = Some s' /\ inv s'.
Proof.
  intros Hi Hw. destruct (pc w) eqn:Hpc;
    [| | | | | | | | | | | | | | | | | |by eapply worker_activate_inv]; unfold worker_step; rewrite Hpc;
    try (eexists; (split; [done|]); by tasks_step s k w Hi Hw Hpc).
  - eexists. split; [done|]. by apply step_top.
  - destruct (try_set_worker_inactive k s) as [[b s1]|] eqn:E.
    + eexists. split; [done|]. by eapply step_try.
    + exfalso. unfold try_set_worker_inactive in E. destruct (Z.eqb_spec (Z.land (active_workers s) (bit k)) 0) as [H0|]; [|done].
      destruct (bit_set s k w Hi Hw) as (Hb & _); [by rewrite Hpc|].
      apply clear_bit_test in H0; [congruence|lia].
  - eexists. split; [done|]. by apply step_last.
  - eexists. split; [done|]. by apply step_set_all.
  - eexists. split; [done|]. by apply step_unpark_main.
  - destruct (token w) eqn:Ht; [|by exists s]. eexists. split; [done|]. by apply step_park.
  - eexists. split; [done|]. destruct (Injector.empty_flag _); tasks_step s k w Hi Hw Hpc.
  - destruct (Injector.pop_locked (injector s)) as [[b|] q] eqn:Hpop;
      destruct (Injector.pop_locked_ok BUCKET_SIZE bucket_size_pos _ _ _ (inv_injector s Hi) Hpop) as (Hwf & _);
      (eexists; (split; [done|])); tasks_step s k w Hi Hw Hpc; done.
  - pose proof (worker_fact s k w Hi Hw) as Hok. unfold worker_ok in Hok. rewrite Hpc in Hok.
    destruct (fast_slot w) eqn:Hf, (local_queue w) eqn:Hq; (eexists; (split; [done|])); tasks_step s k w Hi Hw Hpc.
  - by exists s.
  - pose proof (worker_fact s k w Hi Hw) as Hok. unfold worker_ok in Hok. rewrite Hpc in Hok.
    eexists. split; [done|]. tasks_step s k w Hi Hw Hpc. apply (Injector.push_bucket_ok BUCKET_SIZE); [apply Hi|].
    unfold Injector.from_iter. rewrite length_take. lia.
  - eexists. split; [done|]. tasks_step s k w Hi Hw Hpc. apply (Injector.insert_task_ok BUCKET_SIZE); [apply bucket_size_pos|apply Hi].
  - eexists. split; [done|]. destruct (searching_workers s =? 0); tasks_step s k w Hi Hw Hpc.
Qed.
End Worker.
End MtExecutorSteps.
