(* ===== verification/MtExecutorTheorems.v ===== *)
(** * The multi-threaded executor: theorems

    For every schedule of the threads: no assertion of the executor fails, no
    task is lost or run twice, the executor returns only when nothing is left to
    do, and the main thread never waits for a pool that is asleep. *)

From S2P Require Import Prelude Bit PoolManager Injector MtExecutor MtExecutorFacts MtExecutorSteps.
Local Open Scope Z_scope.

Module MtExecutorTheorems.
Import MtExecutor MtExecutorFacts MtExecutorSteps.

Section Preserve.
Context {T : Type}.
Implicit Types (s : Sys T) (w : Worker T) (p : WorkerPc T).

(** ** The invariant holds of every reachable state *)

Lemma pool_spawn_inv s t r : inv s -> main s = MIdle r ->
  inv (set_injector (Injector.insert_task BUCKET_SIZE t (injector s)) s).
Proof.
  intros Hi Hmain. pose proof (inv_main s Hi) as Hm. unfold main_ok in Hm. rewrite Hmain in Hm.
  split; cbn [injector active_workers searching_workers workers main main_token msg_count in_flight set_injector];
    try apply Hi.
  - apply (Injector.insert_task_ok BUCKET_SIZE); [apply bucket_size_pos|apply Hi].
  - intros i w Hw. destruct (idle_parked s i w Hi Hm Hw) as (Hp & _).
    eapply worker_ok_frame; [by apply (inv_workers s Hi)|done|done|]. intros E. by rewrite E in Hp.
  - unfold main_ok. cbn. by rewrite Hmain.
Qed.

Lemma steal_inv s i j n k w : inv s -> workers s !! i = Some w -> pc w = WSteal -> i <> j ->
  exists s', steal i j n k w s = Some s' /\ inv s'.
Proof.
  intros Hi Hw Hpc Hne. unfold steal. destruct (workers s !! j) as [v|] eqn:Hv; [|by exists s].
  destruct (take n (local_queue v) !! k) as [t|] eqn:Ht; [|by exists s].
  pose proof (worker_fact s i w Hi Hw) as Hok. unfold worker_ok in Hok. rewrite Hpc in Hok.
  destruct Hok as [_ Hf]. rewrite Hf. eexists. split; [done|].
  assert (local_queue v <> []) as Hq by (intros E; by rewrite E, take_nil in Ht).
  pose proof (worker_fact s j v Hi Hv) as Hok. unfold worker_ok, no_tasks in Hok.
  set (s1 := set_worker j (set_tasks (pc v) (drop n (local_queue v)) (fast_slot v) v) s).
  assert (inv s1) as Hi1.
  { refine (inv_tasks s j v _ _ _ _ _ Hi Hv _ _ _ eq_refl (inv_injector s Hi) _ _); try (destruct (pc v); done || tauto); [|lia].
    intros s' _ _ Hl. unfold worker_ok. cbn. rewrite Hl. destruct (pc v); done || tauto. }
  assert (workers s1 !! i = Some w) as Hw1 by (cbn; by rewrite list_lookup_insert_ne).
  tasks_step s1 i w Hi1 Hw1 Hpc.
Qed.

Lemma schedule_inv s k w t o : inv s -> workers s !! k = Some w -> pc w = WRun -> outcome_ok o w = true ->
  inv (schedule_task k t o w s).
Proof.
  intros Hi Hw Hpc Ho. unfold schedule_task. destruct (fast_slot w) as [prev|].
  - destruct o as [|n|]; tasks_step s k w Hi Hw Hpc. unfold worker_ok. cbn [pc set_tasks]. rewrite length_take.
    unfold outcome_ok in Ho. apply andb_true_iff in Ho as [Ho Hn]. apply andb_true_iff in Ho as [Ho1 Ho2].
    apply Nat.leb_le in Hn, Ho1, Ho2. unfold BUCKET_SIZE in *. lia.
  - tasks_step s k w Hi Hw Hpc.
Qed.

Lemma msg_inv s k w (d : Z) : inv s -> workers s !! k = Some w -> pc w = WRun ->
  inv (set_worker k (set_msgs WRun (wrap64 (thread_msg_count w + d)) w) (add_in_flight d s)).
Proof.
  intros Hi Hw Hpc. assert (parkish (pc w) = false) as Hp by (by rewrite Hpc).
  destruct (bit_set s k w Hi Hw Hp) as (_ & Ht & _).
  refine (inv_local s k w _ _ _ _ _ Hi Hw (awake_alive s k w Hi Hw Hp) _ _ _ _ _ _ _ _ _);
    unfold alive, search_of; try rewrite Hpc; try done; cbn.
  - by rewrite Ht.
  - apply Hi.
  - lia.
  - rewrite <- (wrap64_eq_add _ _ d (inv_msgs s Hi)).
    rewrite Z.add_assoc, (Z.add_comm _ (wrap64 _)), wrap64_add_l. f_equal. lia.
  - intros Hm. destruct (init_worker s k w Hi Hw Hm) as (Hc & _). by rewrite Hpc in Hc.
Qed.

Lemma step_ok a s : inv s -> match step a s with Some s' => inv s' | None => negative_count s end.
Proof.
  intros Hi. destruct a as [t| | |i|i|i j n k|i t o|i sent|i]; cbn [step].
  - destruct (main s) eqn:Hm; [done..| |done|done|done|done]. by eapply pool_spawn_inv.
  - destruct (main s) eqn:Hm; [done..| |done|done|done|done].
    refine (inv_main_only s _ _ _ Hi _ _ _); rewrite ?Hm; cbn; [done|lia|].
    pose proof (inv_main s Hi) as H. unfold main_ok in *. rewrite Hm in H. done.
  - assert (negative_count s \/ ~ negative_count s) as [Hn|Hn].
    { unfold negative_count. assert (main s = MCount \/ main s <> MCount) by (destruct (main s); auto; by right).
      destruct (Z.eq_dec (msg_count s) 0), (Z_lt_dec (as_isize (msg_count s)) 0); tauto. }
    + destruct (main_step s) eqn:E; [|done]. destruct Hn as (H1 & H2 & H3). unfold main_step, run_result in E. rewrite H1 in E.
      rewrite (proj2 (Z.eqb_neq _ _)), (proj2 (Z.ltb_lt _ _)) in E by done. done.
    + by destruct (main_step_inv s Hi Hn) as (s' & -> & ?).
  - destruct (workers s !! i) as [w|] eqn:Hw; [|done]. by destruct (worker_step_inv s i w Hi Hw) as (s' & -> & ?).
  - destruct (workers s !! i) as [w|] eqn:Hw; [|done]. destruct (pc w) eqn:Hpc; try done. tasks_step s i w Hi Hw Hpc.
  - destruct (workers s !! i) as [w|] eqn:Hw; [|done]. destruct (pc w) eqn:Hpc; try done. case_decide; [done|].
    by destruct (steal_inv s i j n k w) as (s' & -> & ?).
  - destruct (workers s !! i) as [w|] eqn:Hw; [|done]. destruct (pc w) eqn:Hpc; try done.
    destruct (outcome_ok o w) eqn:Ho; [by apply schedule_inv|done].
  - destruct (workers s !! i) as [w|] eqn:Hw; [|done]. destruct (pc w) eqn:Hpc; try done. by apply msg_inv.
  - destruct (workers s !! i) as [w|] eqn:Hw; [|done]. destruct (pc w) eqn:Hpc; try done. tasks_step s i w Hi Hw Hpc.
Qed.

Lemma all_active_bits n i : (n <= 64)%nat -> 0 <= i ->
  Z.testbit (set_all_workers_active n) i = (i <? Z.of_nat n).
Proof.
  intros Hn Hi. unfold set_all_workers_active, u64_max. replace (2 ^ 64 - 1) with (Z.ones 64) by reflexivity.
  rewrite Z.shiftr_spec by lia. destruct (Z.ltb_spec i (Z.of_nat n)).
  - apply Z.ones_spec_low. lia.
  - apply Z.ones_spec_high. lia.
Qed.

Lemma zsum_replicate {A} (f : A -> Z) n x : f x = 0 -> zsum f (replicate n x) = 0.
Proof. intros Hf. apply zsum_zero. intros y Hy. apply elem_of_replicate in Hy as [-> _]. done. Qed.

Lemma pool_new_inv n s : new n = Some s -> inv s /\ msg_count s = 0.
Proof.
  unfold new. case_decide as Hn; [|done]. destruct (Injector.new BUCKET_SIZE) as [q|] eqn:Hq; [|done].
  intros [= <-]. split; [|done]. apply Injector.injector_new_wf in Hq as [Hwf Hd].
  assert (forall i w, replicate n (mkWorker (T := T) WTop [] None false 0) !! i = Some w ->
    w = mkWorker WTop [] None false 0 /\ (i < n)%nat) as Hr by (intros i w H; by apply lookup_replicate in H).
  assert (0 <= set_all_workers_active n) as Hnn by (apply Z.shiftr_nonneg; done).
  split; cbn [injector active_workers searching_workers workers main main_token msg_count in_flight].
  - rewrite length_replicate. done.
  - unfold pool_size. cbn. rewrite length_replicate. split; [done|].
    apply Z.bounded_iff_bits_nonneg; [lia|done|]. intros l Hl. rewrite all_active_bits by lia.
    apply Z.ltb_ge. lia.
  - done.
  - intros i w Hw. destruct (Hr i w Hw) as [-> Hlt]. rewrite all_active_bits, (proj2 (Z.ltb_lt _ _)) by lia.
    unfold pending. cbn. rewrite zsum_replicate; unfold points; by rewrite decide_False.
  - intros i w Hw. by destruct (Hr i w Hw) as [-> _].
  - by rewrite zsum_replicate.
  - by rewrite zsum_replicate.
  - unfold main_ok. cbn. split_and!; [done|intros i w Hw; by destruct (Hr i w Hw) as [-> _]|].
    split; intros H.
    + exfalso. assert (Z.testbit (set_all_workers_active n) 0 = true) as Hb
        by (rewrite all_active_bits by lia; apply Z.ltb_lt; lia). by rewrite H in Hb.
    + destruct H as [|(i & w & Hw & Hp)]; [done|]. cbn in Hw. by destruct (Hr i w Hw) as [-> _].
Qed.

(** ** Tasks *)

(** The tasks in the hands of a worker: in its fast slot and its queue, or
    about to be pushed. *)
Definition held_pc p : list T :=
  match p with WPushBucket b prev => b ++ [prev] | WInsert prev => [prev] | _ => [] end.
Definition held w : list T := held_pc (pc w) ++ option_list (fast_slot w) ++ local_queue w.

(** The tasks that wait to be run. *)
Definition queued s : list T := Injector.tasks (injector s) ++ mjoin (held <$> workers s).

(** The tasks submitted and the tasks taken out to be run by an action. *)
Definition submitted (a : Action T) s : list T :=
  match a with
  | ASpawn t => match main s with MIdle _ => [t] | _ => [] end
  | ASchedule i t o =>
      match workers s !! i with
      | Some w => match pc w with WRun => if outcome_ok o w then [t] else [] | _ => [] end
      | None => []
      end
  | _ => []
  end.
Definition taken (a : Action T) s : list T :=
  match a with
  | AWorker i =>
      match workers s !! i with
      | Some w => match pc w with WTake => take 1 (option_list (fast_slot w) ++ local_queue w) | _ => [] end
      | None => []
      end
  | _ => []
  end.

Fixpoint trace (f : Action T -> Sys T -> list T) (sched : list (Action T)) s : list T :=
  match sched with
  | [] => []
  | a :: sched => f a s ++ match step a s with Some s => trace f sched s | None => [] end
  end.

(** A step that changes the injector and one worker. *)
Lemma queued_step s s' k w w' l m :
  workers s !! k = Some w -> workers s' = <[k := w']> (workers s) ->
  Injector.tasks (injector s') ++ held w' ++ l ≡ₚ Injector.tasks (injector s) ++ held w ++ m ->
  queued s' ++ l ≡ₚ queued s ++ m.
Proof.
  intros Hw Hws Hp. unfold queued. destruct (join_insert held _ _ _ Hw) as (rest & H1 & H2).
  rewrite Hws, H1, H2. rewrite <- !app_assoc.
  rewrite (Permutation_app_comm rest l), (Permutation_app_comm rest m), !app_assoc.
  rewrite <- !(app_assoc _ _ l), <- !(app_assoc _ _ m). by rewrite Hp.
Qed.

Lemma queued_token s j v b : workers s !! j = Some v -> queued (set_worker j (set_token b v) s) = queued s.
Proof.
  intros Hv. unfold queued. cbn [injector workers set_worker]. rewrite list_fmap_insert.
  change (held (set_token b v)) with (held v). rewrite list_insert_id; [done|]. by rewrite list_lookup_fmap, Hv.
Qed.

(** A step that only moves the worker to another point, where it holds nothing more. *)
Lemma queued_goto s s' k w p :
  workers s !! k = Some w -> workers s' = <[k := set_pc p w]> (workers s) -> held_pc p = held_pc (pc w) ->
  injector s' = injector s -> queued s' ≡ₚ queued s.
Proof.
  intros Hw Hws Hp Hq. pose proof (queued_step s s' k w (set_pc p w) [] [] Hw Hws) as H.
  rewrite !app_nil_r in H. apply H. rewrite Hq. unfold held. cbn. by rewrite Hp.
Qed.

Lemma activate_tasks sync a s r s' : activate_step sync a s = Some (r, s') ->
  queued s' = queued s /\
  forall k w, workers s' !! k = Some w -> exists b v, workers s !! k = Some v /\ w = set_token b v.
Proof.
  assert (forall (s0 : Sys T), workers s0 = workers s -> forall k w,
    workers s0 !! k = Some w -> exists b v, workers s !! k = Some v /\ w = set_token b v) as Hid.
  { intros s0 E k w Hw. exists (token w), w. rewrite <- E. by destruct w. }
  destruct a as [|a|j|j]; cbn [activate_step].
  - intros [= <- <-]. split; [done|by apply Hid].
  - repeat case_match; intros [= <- <-]; (split; [done|]); by apply Hid.
  - intros [= <- <-]. split; [done|]. by apply Hid.
  - unfold unpark. destruct (workers s !! j) as [v|] eqn:Hv; [|done]. cbn. intros [= <- <-].
    split; [by apply queued_token|]. intros k w Hw. cbn in Hw.
    apply list_lookup_insert_Some in Hw as [(<- & <- & _)|[_ Hw]]; [by exists true, v|by apply (Hid s)].
Qed.

Lemma worker_conserve s k w s' : inv s -> workers s !! k = Some w -> worker_step k w s = Some s' ->
  queued s' ++ taken (AWorker k) s ≡ₚ queued s ++ [].
Proof.
  intros Hi Hw. unfold taken. rewrite Hw. pose proof (worker_fact s k w Hi Hw) as Hok. unfold worker_ok in Hok.
  assert (forall p s1, held_pc p = held_pc (pc w) -> workers s1 = workers s -> injector s1 = injector s ->
    queued (set_worker k (set_pc p w) s1) ++ [] ≡ₚ queued s ++ []) as Hgo.
  { intros p s1 Hp Hws Hq. rewrite !app_nil_r. apply (queued_goto s _ k w p); [done| |done|done]. cbn. by rewrite Hws. }
  unfold worker_step. destruct (pc w) as [| | | | | | | | | | | | | | |b prev|prev| |a] eqn:Hpc; cbn [mbind option_bind];
    try (intros [= <-]; apply Hgo; by repeat case_match).
  - intros [= <-]. apply (queued_step s _ k w (set_msgs WTry 0 w)); [done..|]. unfold held. by rewrite Hpc.
  - unfold try_set_worker_inactive. case_match; [done|]. intros [= <-]. apply Hgo; by repeat case_match.
  - destruct (token w); intros [= <-]; [|done].
    apply (queued_step s _ k w (set_token false (set_pc WPop w))); [done..|]. unfold held. by rewrite Hpc.
  - destruct (Injector.pop_locked (injector s)) as [r q] eqn:Hpop.
    destruct (Injector.pop_locked_ok BUCKET_SIZE bucket_size_pos _ _ _ (inv_injector s Hi) Hpop) as (_ & Hperm & _).
    destruct Hok as [Hq Hf]. destruct r as [b|]; intros [= <-].
    + apply (queued_step s _ k w (set_tasks WEndSearch (local_queue w ++ b) (fast_slot w) w)); [done..|].
      unfold held. rewrite Hpc, Hq, Hf, Hperm. cbn. rewrite !app_nil_r. apply Permutation_app_comm.
    + apply (queued_step s _ k w (set_pc WSteal w)); [done..|]. unfold held. rewrite Hpc, Hperm. done.
  - destruct (fast_slot w) as [t|] eqn:Hf, (local_queue w) as [|t' q] eqn:Hq; intros [= <-].
    1,2,4: eapply (queued_step s _ k w); [done..|]; unfold held; rewrite Hpc, Hq, Hf; cbn; solve_Permutation.
    by apply Hgo.
  - intros [= <-]. done.
  - unfold Injector.from_iter. rewrite take_ge by lia. intros [= <-].
    apply (queued_step s _ k w (set_tasks WSearching (local_queue w ++ [prev]) (fast_slot w) w)); [done..|].
    cbn [injector set_worker set_injector].
    rewrite (proj2 (Injector.push_bucket_ok BUCKET_SIZE b _ (inv_injector s Hi) Hok)).
    unfold held. rewrite Hpc. cbn. solve_Permutation.
  - intros [= <-]. apply (queued_step s _ k w (set_pc WSearching w)); [done..|]. cbn [injector set_worker set_injector].
    rewrite (proj2 (Injector.insert_task_ok BUCKET_SIZE bucket_size_pos prev _ (inv_injector s Hi))).
    unfold held. rewrite Hpc. cbn. solve_Permutation.
  - destruct (activate_step false a s) as [[r s1]|] eqn:Ha; [|done]. cbn.
    destruct (activate_tasks _ _ _ _ _ Ha) as [Hq Hws].
    destruct (workers s1 !! k) as [w1|] eqn:Hw1; [|done]. intros [= <-].
    destruct (Hws k w1 Hw1) as (b & v & Hv & ->). simplify_eq. rewrite <- Hq, !app_nil_r.
    apply (queued_goto s1 _ k (set_token b w) (match r with Some a => WActivate a | None => WRun end)); [done..| |done].
    cbn. rewrite Hpc. by destruct r.
Qed.

Lemma steal_conserve s i j n k w s' : inv s -> workers s !! i = Some w -> pc w = WSteal -> i <> j ->
  steal i j n k w s = Some s' -> queued s' ++ [] ≡ₚ queued s ++ [].
Proof.
  intros Hi Hw Hpc Hne. unfold steal. destruct (workers s !! j) as [v|] eqn:Hv; [|by intros [= <-]].
  destruct (take n (local_queue v) !! k) as [t|] eqn:Ht; [|by intros [= <-]].
  destruct (fast_slot w) eqn:Hf; [done|]. intros [= <-].
  set (s1 := set_worker j (set_tasks (pc v) (drop n (local_queue v)) (fast_slot v) v) s).
  transitivity (queued s1 ++ take n (local_queue v)).
  - apply (queued_step s1 _ i w (set_tasks WEndSearch (local_queue w ++ delete k (take n (local_queue v))) (Some t) w)).
    + cbn. by rewrite list_lookup_insert_ne.
    + done.
    + cbn [injector set_worker s1]. unfold held. rewrite Hpc, Hf. cbn [held_pc option_list pc fast_slot local_queue set_tasks].
      f_equiv. rewrite !app_nil_r. cbn. rewrite (delete_Permutation _ _ _ Ht) at 2.
      apply Permutation_middle.
  - apply (queued_step s _ j v (set_tasks (pc v) (drop n (local_queue v)) (fast_slot v) v)); [done..|].
    cbn [injector set_worker s1]. unfold held. cbn. rewrite <- (take_drop n (local_queue v)) at 3.
    solve_Permutation.
Qed.

Lemma step_conserve a s s' : inv s -> step a s = Some s' ->
  queued s' ++ taken a s ≡ₚ queued s ++ submitted a s.
Proof.
  intros Hi. destruct a as [t| | |i|i|i j n k|i t o|i sent|i]; cbn [step taken submitted].
  - intros [= <-]. destruct (main s); [done..| |done|done|done|done]. unfold queued. cbn [injector workers set_injector].
    rewrite (proj2 (Injector.insert_task_ok BUCKET_SIZE bucket_size_pos t _ (inv_injector s Hi))). solve_Permutation.
  - intros [= <-]. by destruct (main s).
  - unfold main_step. destruct (main s) as [| | |a| | |]; try (repeat case_match; by intros [= <-]).
    + destruct (activate_step true a s) as [[r s1]|] eqn:Ha; [|done]. intros [= <-].
      destruct (activate_tasks _ _ _ _ _ Ha) as [<- _]. done.
    + destruct (run_result (msg_count s)); [by intros [= <-]|done].
  - destruct (workers s !! i) as [w|] eqn:Hw; [|by intros [= <-]]. intros Hs.
    pose proof (worker_conserve s i w s' Hi Hw Hs) as H. unfold taken in H. by rewrite Hw in H.
  - destruct (workers s !! i) as [w|] eqn:Hw; [|by intros [= <-]]. destruct (pc w) eqn:Hpc; intros [= <-]; try done.
    rewrite !app_nil_r. eapply (queued_goto s _ i w); by rewrite ?Hpc.
  - destruct (workers s !! i) as [w|] eqn:Hw; [|by intros [= <-]]. destruct (pc w) eqn:Hpc; try by intros [= <-].
    case_decide; [by intros [= <-]|]. by apply steal_conserve.
  - destruct (workers s !! i) as [w|] eqn:Hw; [|by intros [= <-]]. destruct (pc w) eqn:Hpc; intros [= <-]; try done.
    destruct (outcome_ok o w); [|done]. unfold schedule_task.
    destruct (fast_slot w) as [prev|] eqn:Hf; [destruct o as [|n|]|].
    all: eapply (queued_step s _ i w); [done..|]; unfold held; rewrite Hpc, Hf; cbn [injector set_worker pc set_tasks held_pc fast_slot local_queue].
    2: rewrite <- (take_drop n (local_queue w)) at 3.
    all: solve_Permutation.
  - destruct (workers s !! i) as [w|] eqn:Hw; [|by intros [= <-]]. destruct (pc w) eqn:Hpc; intros [= <-]; try done.
    eapply (queued_step s _ i w); [done..|]. unfold held. by rewrite Hpc.
  - destruct (workers s !! i) as [w|] eqn:Hw; [|by intros [= <-]]. destruct (pc w) eqn:Hpc; intros [= <-]; try done.
    rewrite !app_nil_r. eapply (queued_goto s _ i w); by rewrite ?Hpc.
Qed.

(** ** Reachable states *)

Definition count_ok s : Prop := wrap64 (msg_count s) = msg_count s.

Lemma wrap64_idemp x : wrap64 (wrap64 x) = wrap64 x.
Proof. unfold wrap64, wrap. apply Zmod_mod. Qed.

Lemma activate_count sync a s r s' : activate_step sync a s = Some (r, s') -> msg_count s' = msg_count s.
Proof.
  destruct a; cbn [activate_step]; try (repeat case_match; by intros [= <- <-]).
  unfold unpark. destruct (workers s !! _); cbn; [by intros [= <- <-]|done].
Qed.

Lemma pool_step_count a s s' : count_ok s -> step a s = Some s' -> count_ok s'.
Proof.
  unfold count_ok. intros Hc. destruct a as [t| | |i|i|i j n k|i t o|i sent|i]; cbn [step].
  1,2: intros [= <-]; by destruct (main s).
  - unfold main_step. destruct (main s) as [| | |a| | |]; try (repeat case_match; by intros [= <-]).
    + destruct (activate_step true a s) as [[r s1]|] eqn:Ha; [|done]. apply activate_count in Ha.
      intros [= <-]. cbn. by rewrite Ha.
    + destruct (run_result _); [by intros [= <-]|done].
  - destruct (workers s !! i) as [w|]; [|by intros [= <-]]. unfold worker_step.
    destruct (pc w) as [| | | | | | | | | | | | | | | | | |a]; try (repeat case_match; by intros [= <-]).
    + intros [= <-]. cbn. apply wrap64_idemp.
    + unfold try_set_worker_inactive. case_match; [done|]. by intros [= <-].
    + destruct (activate_step false a s) as [[r s1]|] eqn:Ha; [|done]. apply activate_count in Ha. cbn.
      destruct (workers s1 !! i); [|done]. intros [= <-]. cbn. by rewrite Ha.
  - repeat case_match; by intros [= <-].
  - destruct (workers s !! i) as [w|]; [|by intros [= <-]]. destruct (pc w); try by intros [= <-].
    case_decide; [by intros [= <-]|]. unfold steal. repeat case_match; done || by intros [= <-].
  - destruct (workers s !! i) as [w|]; [|by intros [= <-]]. destruct (pc w); try by intros [= <-].
    intros [= <-]. destruct (outcome_ok o w); [|done]. unfold schedule_task. by repeat case_match.
  - repeat case_match; by intros [= <-].
  - repeat case_match; by intros [= <-].
Qed.

Lemma pool_run_ok sched s s' : inv s -> count_ok s -> run sched s = Some s' ->
  inv s' /\ count_ok s' /\ queued s' ++ trace taken sched s ≡ₚ queued s ++ trace submitted sched s.
Proof.
  revert s. induction sched as [|a sched IH]; intros s Hi Hc; cbn [run trace].
  - intros [= <-]. done.
  - pose proof (step_ok a s Hi) as Hs. destruct (step a s) as [s1|] eqn:E; [|done]. cbn. intros Hr.
    destruct (IH s1 Hs (pool_step_count a s s1 Hc E) Hr) as (H1 & H2 & H3). split_and!; [done..|].
    pose proof (step_conserve a s s1 Hi E) as Hp.
    transitivity (taken a s ++ (queued s' ++ trace taken sched s1)); [solve_Permutation|]. rewrite H3.
    transitivity ((queued s1 ++ taken a s) ++ trace submitted sched s1); [solve_Permutation|]. rewrite Hp.
    solve_Permutation.
Qed.

Lemma new_ok n s : new n = Some s -> inv s /\ count_ok s /\ queued s = [].
Proof.
  intros Hn. destruct (pool_new_inv n s Hn) as [Hi Hm]. split_and!; [done|unfold count_ok; by rewrite Hm|].
  unfold new in Hn. case_decide; [|done]. destruct (Injector.new BUCKET_SIZE) as [q|] eqn:Hq; [|done].
  injection Hn as <-. apply Injector.injector_new_wf in Hq as [_ Hq]. unfold queued. cbn [injector workers]. rewrite Hq.
  assert (forall m, mjoin (held <$> replicate m (mkWorker (T := T) WTop [] None false 0)) = []) as H0
    by (induction m; [done|]; cbn; done). apply H0.
Qed.

(** An idle pool holds no task, and its message count is exact. *)
Lemma idle_quiet s : inv s -> count_ok s -> active_workers s = 0 -> drained s ->
  queued s = [] /\ msg_count s = wrap64 (in_flight s).
Proof.
  intros Hi Hc H0 Hd.
  assert (forall w, w ∈ workers s -> held w = [] /\ thread_msg_count w = 0) as Hw.
  { intros w Hw. apply list_elem_of_lookup in Hw as [i Hw]. destruct (idle_parked s i w Hi H0 Hw) as (Hp & _).
    pose proof (worker_fact s i w Hi Hw) as Hok. unfold worker_ok, no_tasks, held in *.
    destruct (pc w); try done; destruct Hok as ((-> & ->) & ->); done. }
  split.
  - unfold queued. rewrite Hd. cbn [app]. revert Hw. induction (workers s) as [|w ws IH]; intros Hw; [done|].
    change (held w ++ mjoin (held <$> ws) = []). rewrite (proj1 (Hw w ltac:(by left))). apply IH.
    intros v Hv. apply Hw. by right.
  - rewrite <- Hc, <- (inv_msgs s Hi), zsum_zero, Z.add_0_r; [done|]. intros w Hin. by apply Hw.
Qed.

(** A bit of the word: a worker that is awake or has a token, or one that another
    thread is about to unpark. *)
Lemma busy_worker s : inv s -> active_workers s <> 0 ->
  exists i w, workers s !! i = Some w /\ (token w = true \/ parkish (pc w) = false \/ 1 <= pending s i).
Proof.
  intros Hi H0. pose proof (inv_active s Hi) as Hr.
  assert (exists i, (i < length (workers s))%nat /\ Z.testbit (active_workers s) (Z.of_nat i) = true) as (i & Hlt & Hb).
  { exists (Z.to_nat (Z.log2 (active_workers s))).
    assert (Z.log2 (active_workers s) < pool_size s) by (apply Z.log2_lt_pow2; lia).
    pose proof (Z.log2_nonneg (active_workers s)). unfold pool_size in *. split; [lia|].
    rewrite Z2Nat.id by lia. apply Z.bit_log2. lia. }
  destruct (lookup_lt_is_Some_2 _ _ Hlt) as [w Hw]. exists i, w. split; [done|].
  pose proof (inv_bits s Hi i w Hw) as H. rewrite Hb in H.
  destruct (token w); [by left|]. destruct (parkish (pc w)); [right; right|right; left]; cbn in H; [lia|done].
Qed.

Lemma pending_runnable s i : main_target (main s) = None -> 1 <= pending s i ->
  exists j v, workers s !! j = Some v /\ pc_target (pc v) = Some i.
Proof.
  intros Hm Hp. unfold pending in Hp. rewrite Hm in Hp. unfold points at 2 in Hp. rewrite decide_False in Hp by done.
  assert (forall l : list (Worker T), 1 <= zsum (fun w => points i (pc_target (pc w))) l ->
    exists j v, l !! j = Some v /\ pc_target (pc v) = Some i) as H; [|apply H; lia].
  induction l as [|v l IH]; cbn [zsum]; intros Hl; [lia|]. unfold points at 1 in Hl. case_decide as Hd.
  - by exists 0%nat, v.
  - destruct IH as (j & u & ? & ?); [lia|]. by exists (S j), u.
Qed.

Lemma reached_quiet n s0 sched s : new n = Some s0 -> run sched s0 = Some s -> main s = MCount ->
  active_workers s = 0 /\ queued s = [] /\ msg_count s = wrap64 (in_flight s).
Proof.
  intros Hn Hr Hm. destruct (new_ok n s0 Hn) as (Hi0 & Hc0 & _).
  destruct (pool_run_ok sched s0 s Hi0 Hc0 Hr) as (Hi & Hc & _).
  pose proof (inv_main s Hi) as H. unfold main_ok in H. rewrite Hm in H. destruct H as [H0 Hd].
  split; [done|]. by apply idle_quiet.
Qed.
End Preserve.

(** ** Claims *)

(** No assertion of the executor ever fails.  In whatever way the main
    thread and the workers interleave, the pool is idle at the end of
    [Executor::new], a worker that gives up its bit had it set, a stolen task
    finds a free fast slot, and the only panic of [Executor::run] would be a
    message count that is negative: as long as no more messages are received
    than sent (and less than [2^63] are in flight), every schedule runs to its
    end.  Moreover the count of searching workers never wraps around. *)
Theorem executor_no_panic {T : Type} n (s0 : Sys T) sched :
  new n = Some s0 ->
  (forall pre s, pre `prefix_of` sched -> run pre s0 = Some s -> 0 <= in_flight s < 2 ^ 63) ->
  exists s, run sched s0 = Some s /\ 0 <= searching_workers s <= 129.
Proof.
  intros Hn. destruct (new_ok n s0 Hn) as (Hi0 & Hc0 & _).
  induction sched as [|a sched IH] using rev_ind; intros Hf.
  - exists s0. split; [done|by apply searching_range].
  - destruct IH as (s & Hr & _); [intros pre s Hp; apply Hf; by apply prefix_app_r|].
    assert (run (sched ++ [a]) s0 = step a s) as ->.
    { clear -Hr. revert s0 Hr. induction sched as [|b sched IH]; intros s0 Hr; cbn in *.
      - simplify_eq. by destruct (step a s).
      - destruct (step b s0); [by apply IH|done]. }
    destruct (pool_run_ok sched s0 s Hi0 Hc0 Hr) as (Hi & _).
    pose proof (step_ok a s Hi) as Hs. destruct (step a s) as [s'|]; [exists s'; split; [done|by apply searching_range]|].
    destruct Hs as (Hm & Hneg & _). destruct (reached_quiet n s0 sched s Hn Hr Hm) as (_ & _ & Hcount).
    pose proof (Hf sched s ltac:(by exists [a]) Hr). rewrite Hcount, as_isize_wrap in Hneg by lia. lia.
Qed.

(** C8: when [Executor::run] leaves its loop, every task that was spawned or
    scheduled has been taken out and run exactly once, none is left in the
    injector, in a fast slot or in a local queue, no worker is active, and the
    result is [Ok] exactly when every message sent has been received; otherwise
    it reports the number of unprocessed messages. *)
Theorem executor_run_complete {T : Type} n (s0 s : Sys T) sched :
  new n = Some s0 -> run sched s0 = Some s -> main s = MCount -> 0 <= in_flight s < 2 ^ 63 ->
  trace taken sched s0 ≡ₚ trace submitted sched s0 /\ queued s = [] /\ pool_is_idle s = true /\
  step AMain s = Some (set_main (MIdle (Some (if in_flight s =? 0 then RunOk else UnprocessedMessages (in_flight s)))) s).
Proof.
  intros Hn Hr Hm Hf. destruct (reached_quiet n s0 sched s Hn Hr Hm) as (H0 & Hq & Hc).
  destruct (new_ok n s0 Hn) as (Hi0 & Hc0 & Hq0).
  destruct (pool_run_ok sched s0 s Hi0 Hc0 Hr) as (_ & _ & Hp). rewrite Hq, Hq0 in Hp.
  split_and!; [done|done|by unfold pool_is_idle; rewrite H0|].
  cbn [step]. unfold main_step, run_result. rewrite Hm, Hc, as_isize_wrap by lia.
  unfold wrap64, wrap. rewrite Z.mod_small by lia. rewrite (proj2 (Z.ltb_ge (in_flight s) 0)) by lia.
  by destruct (in_flight s =? 0).
Qed.

(** A worker that is not blocked on its parker. *)
Definition runnable {T} (w : Worker T) : bool := match pc w with WPark => token w | _ => true end.

(** C9: the executor never sleeps for ever.  While the main thread waits on its
    parker, in [Executor::new] or in [Executor::run], either its token is there
    or some worker is not blocked on its own parker: a wake-up is never lost. *)
Theorem executor_no_deadlock {T : Type} n (s0 s : Sys T) sched :
  new n = Some s0 -> run sched s0 = Some s -> main s = MInit \/ main s = MPark ->
  main_token s = true \/ exists i w, workers s !! i = Some w /\ runnable w = true.
Proof.
  intros Hn Hr Hmain. destruct (new_ok n s0 Hn) as (Hi0 & Hc0 & _).
  destruct (pool_run_ok sched s0 s Hi0 Hc0 Hr) as (Hi & _ & _).
  destruct (Z.eq_dec (active_workers s) 0) as [H0|H0].
  - assert (main_token s = true \/ waking s) as [Ht|(i & w & Hw & Hp)].
    { pose proof (inv_main s Hi) as Hm. unfold main_ok in Hm. destruct Hmain as [E|E]; rewrite E in Hm; tauto. }
    + by left.
    + right. exists i, w. unfold runnable. by rewrite Hp.
  - right. destruct (busy_worker s Hi H0) as (i & w & Hw & Hb).
    destruct Hb as [Hb|[Hb|Hb]]; [exists i, w; unfold runnable; by destruct (pc w)..|].
    destruct (pending_runnable s i) as (j & v & Hv & Hp); [destruct Hmain as [E|E]; by rewrite E|lia|].
    exists j, v. unfold runnable. by destruct (pc v).
Qed.

(** ** Examples: two workers, a task that schedules two others and sends a
    message, one of which is stolen and receives it. *)

Definition demo_start : list (Action Z) :=
  [AWorker 0; AWorker 0; AWorker 1; AWorker 1; AWorker 1; AWorker 1].
Definition demo_wake : list (Action Z) := [AWorker 1; AMain; AMain; ASpawn 7; ARun; AMain; AMain; AMain; AMain; AMain].
Definition demo_tasks : list (Action Z) :=
  replicate 5 (AWorker 0) ++ [ASchedule 0 8 PushOk; ASchedule 0 9 PushOk] ++ replicate 5 (AWorker 0) ++
  [AMsg 0 true; AWorker 1; AWorker 1; AStealFrom 1 0 1 0; AWorker 1; AWorker 1; AMsg 1 false; AFinish 1] ++
  [AFinish 0; AWorker 0; AFinish 0; AWorker 0; AWorker 0; AWorker 0; AGiveUp 0; AWorker 0; AWorker 0; AWorker 0] ++
  [AWorker 1; AWorker 1; AWorker 1; AGiveUp 1; AWorker 1; AWorker 1; AWorker 1; AWorker 1; AWorker 1; AWorker 1; AMain; AMain].
Definition demo_schedule : list (Action Z) := demo_start ++ demo_wake ++ demo_tasks.

(** The initial state, the state when the main thread has just been notified, and
    the state when [run] leaves its loop. *)
Definition demo_pool : Sys Z :=
  mkSys (Injector.mkInjector [] true) 3 0 (replicate 2 (mkWorker WTop [] None false 0)) MInit false 0 0.
Definition demo_notified : Sys Z :=
  mkSys (Injector.mkInjector [] true) 0 0
    [mkWorker WPark [] None false 0; mkWorker WUnparkMain [] None false 0] MInit false 0 0.
Definition demo_end : Sys Z :=
  mkSys (Injector.mkInjector [] true) 0 0 (replicate 2 (mkWorker WPark [] None false 0)) MCount false 0 0.

Lemma executor_run_complete_witness :
  new 2 = Some demo_pool /\ run demo_schedule demo_pool = Some demo_end /\
  trace submitted demo_schedule demo_pool = [7; 8; 9] /\ trace taken demo_schedule demo_pool ≡ₚ [7; 8; 9] /\
  step AMain demo_end = Some (set_main (MIdle (Some RunOk)) demo_end).
Proof.
  assert (new 2 = Some demo_pool) as Hn by (vm_compute; reflexivity).
  assert (run demo_schedule demo_pool = Some demo_end) as Hr by (vm_compute; reflexivity).
  assert (trace submitted demo_schedule demo_pool = [7; 8; 9]) as Ht by (vm_compute; reflexivity).
  destruct (executor_run_complete 2 demo_pool demo_end demo_schedule Hn Hr eq_refl) as (H1 & _ & _ & H2); [cbn; lia|].
  rewrite Ht in H1. auto.
Defined.

Lemma executor_no_panic_witness :
  new 2 = Some demo_pool /\ exists s, run demo_start demo_pool = Some s /\ 0 <= searching_workers s <= 129.
Proof.
  assert (new 2 = Some demo_pool) as Hn by (vm_compute; reflexivity). split; [done|].
  apply (executor_no_panic 2 demo_pool demo_start Hn).
  intros pre s [suf Hp] Hr. unfold demo_start in Hp.
  do 7 (destruct pre as [|? pre]; [vm_compute in Hr; injection Hr as <-; cbn; lia|first [discriminate Hp|injection Hp as <- Hp]]).
Defined.

Lemma executor_no_deadlock_witness :
  run demo_start demo_pool = Some demo_notified /\
  (main_token demo_notified = true \/ exists i w, workers demo_notified !! i = Some w /\ runnable w = true).
Proof.
  assert (new 2 = Some demo_pool) as Hn by (vm_compute; reflexivity).
  assert (run demo_start demo_pool = Some demo_notified) as Hr by (vm_compute; reflexivity). split; [done|].
  apply (executor_no_deadlock 2 demo_pool demo_notified demo_start Hn Hr). by left.
Defined.
End MtExecutorTheorems.
