(* ===== verification/TaskSet.v ===== *)
(** * Sets of concurrently scheduled sub-tasks: [util/task_set.rs]

    The tasks that were woken form a Treiber stack linked by indices, whose head
    also holds the countdown of tasks to be scheduled before the parent task is
    notified.  Calls of [wake_by_ref], any number of them at the same time, and
    the owner of the set interleave their accesses to the head and to the [next]
    fields; compare-and-swap operations may fail spuriously.  [None] is a panic.
    Memory is sequentially consistent. *)

From S2P Require Import Prelude.
Local Open Scope Z_scope.

Module TaskSet.

Definition SLEEPING : Z := u32_max.
Definition EMPTY : Z := u32_max - 1.
Definition INDEX_MASK : Z := u32_max.
Definition COUNTDOWN_MASK : Z := Z.lxor u64_max INDEX_MASK.
Definition COUNTDOWN_ONE : Z := Z.shiftl 1 32.

(** Program points of a call of [wake_by_ref] on the task of index [t]. *)
Inductive WakePc : Type :=
  | WkStart (t : nat)                   (** load of [next] *)
  | WkHead (t : nat)                    (** the task is asleep: load of the head *)
  | WkClaim (t : nat) (head : Z)        (** compare-and-swap of [next] with [SLEEPING] *)
  | WkConfirm (t : nat) (next : Z)      (** no-op compare-and-swap of [next] *)
  | WkPush (t : nat) (head : Z)         (** compare-and-swap of the head *)
  | WkSwap (t : nat) (head : Z)         (** swap of [next] after a failure *)
  | WkNotify                            (** [notifier.notify()] *)
  | WkDone.

(** Program points of the owner: outside of any call, in [take_scheduled] or
    [discard_scheduled], and while it holds an iterator. *)
Inductive OwnerPc : Type :=
  | OIdle
  | ODiscard                            (** load in [discard_scheduled] *)
  | OLoad (countdown : Z) (discard : bool)
  | OCas (countdown : Z) (discard : bool) (head : Z)
  | OIter (next_index : Z)
  | ODrop (next_index : Z)              (** drop handler of the iterator: load *)
  | ODropStore (index next : Z).        (** its store *)

Record Sys : Type := mkSys {
  head : Z;
  next : list Z;                        (** the [next] field of every task *)
  task_count : nat;
  wakes : list WakePc;
  owner : OwnerPc;
  owed : list bool;                     (** history: woken since last yielded or discarded *)
  yielded : list nat;                   (** history: the indices yielded *)
  requested : Z;                        (** history: the count of the last request *)
  notified : bool }.                    (** history: notified since *)

Inductive Action : Type :=
  | AWake (t : nat)
  | AStep (i : nat) (spurious : bool)   (** next access of a call of [wake_by_ref] *)
  | ATake (notify_count : Z)
  | ADiscardAll
  | AOwner (spurious : bool)            (** next access of the owner *)
  | ANext                               (** one turn of the loop of [TaskIterator::next] *)
  | ADropIter
  | AResize (len : nat).

(** ** Words *)
Definition index (h : Z) : Z := Z.land h INDEX_MASK.

(** The new head in [take_scheduled] and in [wake_by_ref]. *)
Definition take_head (countdown h : Z) : Z :=
  if index h =? EMPTY then Z.lor (countdown * COUNTDOWN_ONE) EMPTY else EMPTY.
Definition push_head (idx : nat) (h : Z) : Z :=
  let countdown := Z.land h COUNTDOWN_MASK in
  Z.lor (wrap64 (countdown - Z.b2z (negb (countdown =? 0)) * COUNTDOWN_ONE)) (Z.of_nat idx).

(** ** Construction *)
Definition with_len (len : nat) : option Sys :=
  if (Z.of_nat len <=? EMPTY) && (Z.of_nat len <=? SLEEPING)
  then Some (mkSys EMPTY (replicate len SLEEPING) len [] OIdle (replicate len false) [] 0 false) else None.
Definition new : Sys := mkSys EMPTY [] 0 [] OIdle [] [] 0 false.

Definition has_scheduled (s : Sys) : bool := negb (index (head s) =? EMPTY).
Definition waker_of (idx : nat) (s : Sys) : option nat :=
  if decide (idx < task_count s)%nat then (if decide (idx < length (next s))%nat then Some idx else None) else None.

Definition resize (len : nat) (s : Sys) : option Sys :=
  if (Z.of_nat len <=? EMPTY) && (Z.of_nat len <=? SLEEPING) then
    let extra := (len - length (next s))%nat in
    Some (mkSys (head s) (next s ++ replicate extra SLEEPING) len (wakes s) (owner s)
            (owed s ++ replicate extra false) (yielded s) (requested s) (notified s))
  else None.

(** ** Calls of [wake_by_ref] *)
Definition set_wake (i : nat) (p : WakePc) (s : Sys) : Sys :=
  mkSys (head s) (next s) (task_count s) (<[i := p]> (wakes s)) (owner s) (owed s) (yielded s) (requested s) (notified s).
Definition set_owner (p : OwnerPc) (s : Sys) : Sys :=
  mkSys (head s) (next s) (task_count s) (wakes s) p (owed s) (yielded s) (requested s) (notified s).
Definition set_head (h : Z) (s : Sys) : Sys :=
  mkSys h (next s) (task_count s) (wakes s) (owner s) (owed s) (yielded s) (requested s) (notified s).
Definition set_next (t : nat) (n : Z) (s : Sys) : Sys :=
  mkSys (head s) (<[t := n]> (next s)) (task_count s) (wakes s) (owner s) (owed s) (yielded s) (requested s) (notified s).
Definition set_owed (t : nat) (b : bool) (s : Sys) : Sys :=
  mkSys (head s) (next s) (task_count s) (wakes s) (owner s) (<[t := b]> (owed s)) (yielded s) (requested s) (notified s).
Definition set_yielded (l : list nat) (s : Sys) : Sys :=
  mkSys (head s) (next s) (task_count s) (wakes s) (owner s) (owed s) l (requested s) (notified s).
Definition set_request (c : Z) (b : bool) (s : Sys) : Sys :=
  mkSys (head s) (next s) (task_count s) (wakes s) (owner s) (owed s) (yielded s) c b.

Definition retry (t : nat) (n : Z) : WakePc := if n =? SLEEPING then WkHead t else WkConfirm t n.

Definition wake_step (i : nat) (spurious : bool) (p : WakePc) (s : Sys) : option Sys :=
  match p with
  | WkStart t => n ← next s !! t; Some (set_wake i (retry t n) s)
  | WkHead t => Some (set_wake i (WkClaim t (head s)) s)
  | WkClaim t h =>
      n ← next s !! t;
      if (n =? SLEEPING) && negb spurious
      then Some (set_wake i (WkPush t h) (set_owed t true (set_next t (index h) s)))
      else Some (set_wake i (retry t n) s)
  | WkConfirm t n0 =>
      n ← next s !! t;
      if (n =? n0) && negb spurious
      then Some (set_wake i WkDone (set_owed t true s))
      else Some (set_wake i (retry t n) s)
  | WkPush t h =>
      if (head s =? h) && negb spurious
      then Some (set_wake i (if Z.land h COUNTDOWN_MASK =? COUNTDOWN_ONE then WkNotify else WkDone)
                   (set_head (push_head t h) s))
      else Some (set_wake i (WkSwap t (head s)) s)
  | WkSwap t h => _ ← next s !! t; Some (set_wake i (WkPush t h) (set_next t (index h) s))
  | WkNotify => Some (set_wake i WkDone (set_request (requested s) true s))
  | WkDone => Some s
  end.

(** ** The owner *)
Definition owner_step (spurious : bool) (s : Sys) : option Sys :=
  match owner s with
  | ODiscard => Some (set_owner (if head s =? EMPTY then OIdle else OLoad 0 true) s)
  | OLoad c d => Some (set_owner (OCas c d (head s)) s)
  | OCas c d h =>
      if (head s =? h) && negb spurious then
        let s := set_head (take_head c h) s in
        if index h =? EMPTY
        then Some (set_owner OIdle (set_request c false s))
        else Some (set_owner (if d then ODrop (index h) else OIter (index h)) (set_request 0 false s))
      else Some (set_owner (OCas c d (head s)) s)
  | ODrop i =>
      if i =? EMPTY then Some (set_owner OIdle s)
      else n ← next s !! Z.to_nat i; Some (set_owner (ODropStore i n) s)
  | ODropStore i n =>
      _ ← next s !! Z.to_nat i;
      Some (set_owner (ODrop n) (set_owed (Z.to_nat i) false (set_next (Z.to_nat i) SLEEPING s)))
  | OIdle | OIter _ => Some s
  end.

(** The loop of [TaskIterator::next]: only active tasks are yielded. *)
Definition iter_next (s : Sys) : option Sys :=
  match owner s with
  | OIter i =>
      if i =? EMPTY then Some s
      else
        n ← next s !! Z.to_nat i;
        let s1 := set_owner (OIter n) (set_owed (Z.to_nat i) false (set_next (Z.to_nat i) SLEEPING s)) in
        Some (if decide (Z.to_nat i < task_count s)%nat then set_yielded (yielded s ++ [Z.to_nat i]) s1 else s1)
  | _ => Some s
  end.

(** ** The whole set: an action that is not possible does nothing. *)
Definition step (a : Action) (s : Sys) : option Sys :=
  match a with
  | AWake t =>
      Some (if decide (t < length (next s))%nat
            then mkSys (head s) (next s) (task_count s) (wakes s ++ [WkStart t]) (owner s) (owed s) (yielded s)
                   (requested s) (notified s)
            else s)
  | AStep i sp => match wakes s !! i with Some p => wake_step i sp p s | None => Some s end
  | ATake c =>
      match owner s with
      | OIdle => if (0 <=? c) && (c <=? u32_max) then Some (set_owner (OLoad c false) s) else None
      | _ => Some s
      end
  | ADiscardAll => Some (match owner s with OIdle => set_owner ODiscard s | _ => s end)
  | AOwner sp => owner_step sp s
  | ANext => iter_next s
  | ADropIter => Some (match owner s with OIter i => set_owner (ODrop i) s | _ => s end)
  | AResize len => match owner s with OIdle => resize len s | _ => Some s end
  end.

Fixpoint run (sched : list Action) (s : Sys) : option Sys :=
  match sched with
  | [] => Some s
  | a :: sched => s ← step a s; run sched s
  end.

(** Arguments within the documented bounds. *)
Definition legal (a : Action) : bool :=
  match a with
  | ATake c => (0 <=? c) && (c <=? u32_max)
  | AResize len => Z.of_nat len <=? EMPTY
  | _ => true
  end.
End TaskSet.
