(* ===== verification/TaskSetFacts.v ===== *)
(** * Sets of sub-tasks: invariant

    A task that is not asleep is in exactly one of three places: the stack of
    scheduled tasks, what is left of the list held by the owner's iterator, or
    the hands of one call of [wake_by_ref] about to push it. *)

From S2P Require Import Prelude TaskSet.
Local Open Scope Z_scope.

Module TaskSetFacts.
Import TaskSet.

(** ** Words: a countdown and an index *)
Definition word (c i : Z) : Z := c * 2 ^ 32 + i.

Section Words.
Variables c i : Z.
Hypothesis (Hc : 0 <= c < 2 ^ 32) (Hi : 0 <= i < 2 ^ 32).

Lemma index_word : index (word c i) = i.
Proof.
  unfold index, INDEX_MASK, word. change u32_max with (Z.ones 32). rewrite Z.land_ones by lia.
  rewrite Z.add_comm, Z_mod_plus_full. apply Z.mod_small. lia.
Qed.

Lemma countdown_word : Z.land (word c i) COUNTDOWN_MASK = c * 2 ^ 32.
Proof.
  assert (Z.land (word c i) COUNTDOWN_MASK = Z.ldiff (word c i) (Z.ones 32)) as ->.
  { apply Z.bits_inj'. intros n Hn. rewrite Z.land_spec, Z.ldiff_spec.
    unfold COUNTDOWN_MASK, INDEX_MASK. change u64_max with (Z.ones 64). change u32_max with (Z.ones 32).
    rewrite Z.lxor_spec. destruct (Z.lt_ge_cases n 64).
    - rewrite (Z.ones_spec_low 64) by lia. done.
    - assert (Z.testbit (word c i) n = false) as ->; [|done].
      apply (Z.bounded_iff_bits_nonneg 64); unfold word; lia. }
  rewrite Z.ldiff_ones_r, Z.shiftl_mul_pow2, Z.shiftr_div_pow2 by lia. f_equal. unfold word.
  rewrite Z.add_comm, Z_div_plus_full, Z.div_small by lia. lia.
Qed.

Lemma lor_word : Z.lor (c * 2 ^ 32) i = word c i.
Proof.
  unfold word. symmetry. apply Z.add_nocarry_lor. apply Z.bits_inj'. intros n Hn.
  rewrite Z.land_spec, Z.bits_0. destruct (Z.lt_ge_cases n 32).
  - rewrite Z.mul_pow2_bits_low by lia. done.
  - assert (Z.testbit i n = false) as ->; [|apply andb_false_r]. apply (Z.bounded_iff_bits_nonneg 32); lia.
Qed.
End Words.

Lemma push_head_word c i t : 0 <= c < 2 ^ 32 -> 0 <= i < 2 ^ 32 -> Z.of_nat t < 2 ^ 32 ->
  push_head t (word c i) = word (Z.max 0 (c - 1)) (Z.of_nat t).
Proof.
  intros Hc Hi Ht. unfold push_head. rewrite countdown_word by done. unfold COUNTDOWN_ONE. change (Z.shiftl 1 32) with (2 ^ 32).
  rewrite <- lor_word by lia. f_equal. unfold wrap64, wrap.
  destruct (Z.eqb_spec (c * 2 ^ 32) 0); cbn [negb Z.b2z]; rewrite Z.mod_small by lia; lia.
Qed.

Lemma take_head_word c i n : 0 <= c < 2 ^ 32 -> 0 <= i < 2 ^ 32 -> 0 <= n < 2 ^ 32 ->
  take_head n (word c i) = if i =? EMPTY then word n EMPTY else word 0 EMPTY.
Proof.
  intros Hc Hi Hn. unfold take_head. rewrite index_word by done. destruct (i =? EMPTY); [|done].
  unfold COUNTDOWN_ONE. change (Z.shiftl 1 32) with (2 ^ 32). apply lor_word. unfold EMPTY, u32_max. lia.
Qed.

(** ** Linked lists of tasks *)
Definition link (l : list nat) : Z := match l with [] => EMPTY | t :: _ => Z.of_nat t end.

Fixpoint chain (nx : list Z) (l : list nat) : Prop :=
  match l with [] => True | t :: l => nx !! t = Some (link l) /\ chain nx l end.

Lemma chain_insert nx l t n : t ∉ l -> chain nx l -> chain (<[t := n]> nx) l.
Proof.
  induction l as [|u l IH]; intros Hn; cbn; [done|]. intros [H1 H2]. apply not_elem_of_cons in Hn as [Hne Hn].
  split; [by rewrite list_lookup_insert_ne|by apply IH].
Qed.

Lemma chain_app nx nx' l : chain nx l -> chain (nx ++ nx') l.
Proof. induction l as [|u l IH]; cbn; [done|]. intros [H1 H2]. split; [by apply lookup_app_l_Some|by apply IH]. Qed.

Lemma chain_lt nx l t : chain nx l -> t ∈ l -> (t < length nx)%nat.
Proof.
  induction l as [|u l IH]; intros Hc Ht; [by apply not_elem_of_nil in Ht|]. destruct Hc as [H1 H2].
  apply elem_of_cons in Ht as [->|Ht]; [by eapply lookup_lt_Some|by apply IH].
Qed.

(** ** Invariant *)

(** The tasks in the hands of a call of [wake_by_ref]. *)
Definition pushing (p : WakePc) : list nat := match p with WkPush t _ | WkSwap t _ => [t] | _ => [] end.
Definition in_hand (s : Sys) : list nat := mjoin (pushing <$> wakes s).

Definition wake_ok (nx : list Z) (p : WakePc) : Prop :=
  match p with
  | WkStart t | WkHead t => (t < length nx)%nat
  | WkClaim t h | WkSwap t h => (t < length nx)%nat /\ index h <> SLEEPING
  | WkConfirm t n => (t < length nx)%nat /\ n <> SLEEPING
  | WkPush t h => nx !! t = Some (index h) /\ index h <> SLEEPING
  | WkNotify | WkDone => True
  end.

Definition owner_ok (p : OwnerPc) (R : list nat) : Prop :=
  match p with
  | OIter i | ODrop i => i = link R
  | ODropStore i n => exists t R', R = t :: R' /\ i = Z.of_nat t /\ n = link R'
  | OLoad c _ | OCas c _ _ => R = [] /\ 0 <= c <= u32_max
  | _ => R = []
  end.

Record inv (s : Sys) (L R : list nat) : Prop := {
  inv_owed_len : length (owed s) = length (next s);
  inv_len : Z.of_nat (length (next s)) <= EMPTY;
  inv_req : 0 <= requested s <= u32_max;
  inv_head : head s = word (Z.max 0 (requested s - Z.of_nat (length L))) (link L);
  inv_chain_l : chain (next s) L;
  inv_chain_r : chain (next s) R;
  inv_owner : owner_ok (owner s) R;
  inv_nodup : NoDup (L ++ R ++ in_hand s);
  inv_places : forall t n, next s !! t = Some n -> n <> SLEEPING <-> t ∈ L ++ R ++ in_hand s;
  inv_owed : forall t b n, owed s !! t = Some b -> next s !! t = Some n -> b = true <-> n <> SLEEPING;
  inv_wakes : forall i p, wakes s !! i = Some p -> wake_ok (next s) p;
  inv_notified : 0 < requested s <= Z.of_nat (length L) -> notified s = true \/ WkNotify ∈ wakes s }.

(** ** Consequences *)
Section Facts.
Context (s : Sys) (L R : list nat) (Hi : inv s L R).

Lemma link_range l : chain (next s) l -> 0 <= link l <= EMPTY.
Proof.
  pose proof (inv_len s L R Hi). destruct l as [|t l]; cbn; [unfold EMPTY, u32_max; lia|].
  intros [Ht _]. apply lookup_lt_Some in Ht. lia.
Qed.

Lemma link_empty l : chain (next s) l -> link l = EMPTY <-> l = [].
Proof.
  pose proof (inv_len s L R Hi). destruct l as [|t l]; cbn; [done|].
  intros [Ht _]. apply lookup_lt_Some in Ht. split; [lia|done].
Qed.

Lemma head_index : index (head s) = link L.
Proof.
  rewrite (inv_head s L R Hi). pose proof (link_range L (inv_chain_l s L R Hi)). pose proof (inv_req s L R Hi).
  unfold EMPTY, u32_max in *. apply index_word; lia.
Qed.

Lemma head_not_sleeping : index (head s) <> SLEEPING.
Proof.
  rewrite head_index. pose proof (link_range L (inv_chain_l s L R Hi)). unfold EMPTY, SLEEPING in *. lia.
Qed.
End Facts.
End TaskSetFacts.
