(* ===== verification/TaskSetTheorems.v ===== *)
(** * Sets of sub-tasks: theorems

    For every interleaving of any number of wake-ups with the operations of the
    owner, no task is lost or yielded twice, and requested notifications are
    sent. *)

From S2P Require Import Prelude TaskSet TaskSetFacts.
Local Open Scope Z_scope.

Module TaskSetTheorems.
Import TaskSet TaskSetFacts.

Lemma notify_kept (l : list WakePc) i p q : l !! i = Some p -> p <> WkNotify -> WkNotify ∈ l -> WkNotify ∈ <[i := q]> l.
Proof.
  intros Hp Hne Hin. apply list_elem_of_lookup in Hin as [j Hj]. apply (list_elem_of_lookup_2 _ j).
  rewrite list_lookup_insert_ne; [done|]. intros ->. simplify_eq.
Qed.

Section Preserve.
Context (s : Sys) (L R : list nat) (Hi : inv s L R).

(** A call moves to another point with the same task in hand. *)
Lemma wake_goto i p q :
  wakes s !! i = Some p -> p <> WkNotify -> pushing q = pushing p -> wake_ok (next s) q ->
  inv (set_wake i q s) L R.
Proof.
  intros Hp Hne Hpu Hok.
  assert (in_hand (set_wake i q s) ≡ₚ in_hand s) as Hh.
  { unfold in_hand. cbn. destruct (join_insert pushing _ _ _ Hp) as (rest & -> & ->). by rewrite Hpu. }
  split; cbn [head next task_count wakes owner owed yielded requested notified set_wake]; try apply Hi.
  - rewrite Hh. apply Hi.
  - intros t n Hn. rewrite Hh. by apply (inv_places s L R Hi).
  - intros j p' Hj. apply list_lookup_insert_Some in Hj as [(<- & <- & _)|[_ Hj]]; [done|].
    by apply (inv_wakes s L R Hi j).
  - intros Hr. destruct (inv_notified s L R Hi Hr); [by left|right]. by eapply notify_kept.
Qed.

Lemma retry_ok t n : (t < length (next s))%nat -> wake_ok (next s) (retry t n).
Proof. intros Ht. unfold retry. destruct (Z.eqb_spec n SLEEPING); cbn; [done|]. split; done. Qed.

Lemma pushing_retry t n : pushing (retry t n) = [].
Proof. unfold retry. by destruct (n =? SLEEPING). Qed.

Lemma hand_in t i p : wakes s !! i = Some p -> t ∈ pushing p -> (t ∈ in_hand s) /\ (t ∉ L) /\ t ∉ R.
Proof.
  intros Hp Ht. assert (t ∈ in_hand s) as Hin.
  { unfold in_hand. destruct (join_insert pushing _ _ _ Hp) as (rest & -> & _). apply elem_of_app. by left. }
  pose proof (inv_nodup s L R Hi) as Hn. apply NoDup_app in Hn as (_ & H1 & Hn). apply NoDup_app in Hn as (_ & H2 & _).
  split; [done|]. split; intros Hc; [apply (H1 t Hc); apply elem_of_app; by right|by apply (H2 t Hc)].
Qed.

(** Another call does not have the task in hand. *)
Lemma hand_other i j p q t : wakes s !! i = Some p -> t ∈ pushing p -> wakes s !! j = Some q -> t ∈ pushing q -> i = j.
Proof.
  intros Hp Ht Hq Htq. destruct (decide (i = j)) as [|Hne]; [done|exfalso].
  pose proof (inv_nodup s L R Hi) as Hn. rewrite !NoDup_app in Hn. destruct Hn as (_ & _ & _ & _ & Hn). revert Hn.
  unfold in_hand. destruct (join_insert pushing _ _ _ Hp) as (rest & -> & H2). rewrite NoDup_app. intros (_ & Hd & _).
  apply (Hd t Ht). specialize (H2 WkDone). cbn [pushing app] in H2. rewrite <- H2.
  assert (<[i := WkDone]> (wakes s) !! j = Some q) as Hq' by (by rewrite list_lookup_insert_ne).
  destruct (join_insert pushing _ _ _ Hq') as (rest' & -> & _). apply elem_of_app. by left.
Qed.

Lemma wake_ok_insert p t n : wake_ok (next s) p -> t ∉ pushing p -> wake_ok (<[t := n]> (next s)) p.
Proof.
  destruct p; cbn; rewrite ?length_insert; try done. intros [H1 H2] Hn. split; [|done].
  rewrite list_lookup_insert_ne; [done|]. intros ->. apply Hn. by left.
Qed.

(** A task asleep is claimed by a call. *)
Lemma wake_claim i t h : wakes s !! i = Some (WkClaim t h) -> next s !! t = Some SLEEPING ->
  inv (set_wake i (WkPush t h) (set_owed t true (set_next t (index h) s))) L R.
Proof.
  intros Hp Hn. destruct (inv_wakes s L R Hi i _ Hp) as [Ht Hh].
  assert (t ∉ L ++ R ++ in_hand s) as Hout.
  { intros Hin. by apply (inv_places s L R Hi t SLEEPING Hn) in Hin. }
  rewrite !not_elem_of_app in Hout. destruct Hout as (HL & HR & HP).
  set (s' := set_wake i (WkPush t h) (set_owed t true (set_next t (index h) s))).
  assert (in_hand s' ≡ₚ t :: in_hand s) as Hh'.
  { unfold in_hand. cbn. destruct (join_insert pushing _ _ _ Hp) as (rest & -> & ->). done. }
  split; cbn [head next task_count wakes owner owed yielded requested notified set_wake set_owed set_next s'];
    rewrite ?length_insert; try apply Hi.
  - apply chain_insert; [done|apply Hi].
  - apply chain_insert; [done|apply Hi].
  - rewrite Hh', (app_assoc L R), <- Permutation_middle, <- app_assoc. apply NoDup_cons. split; [|apply Hi].
    rewrite !not_elem_of_app. done.
  - intros u n Hu. rewrite Hh', !elem_of_app, elem_of_cons.
    apply list_lookup_insert_Some in Hu as [(<- & <- & _)|[Hne Hu]]; [tauto|].
    rewrite (inv_places s L R Hi u n Hu), !elem_of_app. assert (u <> t) by congruence. tauto.
  - intros u b n Hb Hu. apply list_lookup_insert_Some in Hu as [(<- & <- & _)|[Hne Hu]].
    + apply list_lookup_insert_Some in Hb as [(_ & <- & _)|[Hne _]]; [done|by destruct Hne].
    + rewrite list_lookup_insert_ne in Hb by done. by apply (inv_owed s L R Hi u).
  - intros j q Hj. apply list_lookup_insert_Some in Hj as [(<- & <- & _)|[Hne Hj]].
    + cbn. rewrite list_lookup_insert_eq by done. done.
    + apply wake_ok_insert; [by apply (inv_wakes s L R Hi j)|]. intros Hin. apply HP.
      unfold in_hand. destruct (join_insert pushing _ _ _ Hj) as (rest & -> & _). apply elem_of_app. by left.
  - intros Hr. destruct (inv_notified s L R Hi Hr); [by left|right]. by eapply notify_kept.
Qed.

(** The task in hand is linked to the head read last. *)
Lemma wake_swap i t h : wakes s !! i = Some (WkSwap t h) ->
  inv (set_wake i (WkPush t h) (set_next t (index h) s)) L R.
Proof.
  intros Hp. destruct (inv_wakes s L R Hi i _ Hp) as [Ht Hh].
  destruct (hand_in t i _ Hp) as (Hin & HL & HR); [by left|].
  set (s' := set_wake i (WkPush t h) (set_next t (index h) s)).
  assert (in_hand s' ≡ₚ in_hand s) as Hh'.
  { unfold in_hand. cbn. destruct (join_insert pushing _ _ _ Hp) as (rest & -> & ->). done. }
  destruct (lookup_lt_is_Some_2 _ _ Ht) as [n0 Hn0].
  assert (n0 <> SLEEPING) as Hn0' by (apply (inv_places s L R Hi t n0 Hn0); rewrite !elem_of_app; tauto).
  split; cbn [head next task_count wakes owner owed yielded requested notified set_wake set_next s'];
    rewrite ?length_insert; try apply Hi.
  - apply chain_insert; [done|apply Hi].
  - apply chain_insert; [done|apply Hi].
  - rewrite Hh'. apply Hi.
  - intros u n Hu. rewrite Hh'. apply list_lookup_insert_Some in Hu as [(<- & <- & _)|[Hne Hu]].
    + rewrite !elem_of_app. tauto.
    + by apply (inv_places s L R Hi).
  - intros u b n Hb Hu. apply list_lookup_insert_Some in Hu as [(<- & <- & _)|[Hne Hu]].
    + rewrite (inv_owed s L R Hi t b n0 Hb Hn0). done.
    + by apply (inv_owed s L R Hi u).
  - intros j q Hj. apply list_lookup_insert_Some in Hj as [(<- & <- & _)|[Hne Hj]].
    + cbn. rewrite list_lookup_insert_eq by done. done.
    + apply wake_ok_insert; [by apply (inv_wakes s L R Hi j)|]. intros Hq. destruct Hne.
      eapply hand_other; [done| |done|done]. by left.
  - intros Hr. destruct (inv_notified s L R Hi Hr); [by left|right]. by eapply notify_kept.
Qed.

(** The task in hand is pushed. *)
Lemma wake_push i t : wakes s !! i = Some (WkPush t (head s)) ->
  inv (set_wake i (if Z.land (head s) COUNTDOWN_MASK =? COUNTDOWN_ONE then WkNotify else WkDone)
         (set_head (push_head t (head s)) s)) (t :: L) R.
Proof.
  intros Hp. destruct (inv_wakes s L R Hi i _ Hp) as [Ht Hh]. rewrite (head_index s L R Hi) in Ht.
  destruct (hand_in t i _ Hp) as (Hin & HL & HR); [by left|].
  pose proof (lookup_lt_Some _ _ _ Ht) as Hlt. pose proof (inv_len s L R Hi) as Hlen.
  pose proof (inv_req s L R Hi) as Hreq. pose proof (link_range s L R Hi L (inv_chain_l s L R Hi)) as Hlink.
  set (q := if Z.land (head s) COUNTDOWN_MASK =? COUNTDOWN_ONE then WkNotify else WkDone). set (s' := set_wake i q (set_head (push_head t (head s)) s)).
  assert (t :: in_hand s' ≡ₚ in_hand s) as Hh'.
  { unfold in_hand. cbn. destruct (join_insert pushing _ _ _ Hp) as (rest & -> & ->). unfold q. by case_match. }
  assert ((t :: L) ++ R ++ in_hand s' ≡ₚ L ++ R ++ in_hand s) as Hperm by (rewrite <- Hh'; solve_Permutation).
  unfold EMPTY, u32_max in *.
  split; cbn [head next task_count wakes owner owed yielded requested notified set_wake set_head s'];
    try apply Hi.
  - rewrite (inv_head s L R Hi), push_head_word by lia. cbn [length link]. f_equal. lia.
  - split; [done|apply Hi].
  - rewrite Hperm. apply Hi.
  - intros u n Hu. rewrite Hperm. by apply (inv_places s L R Hi).
  - intros j p Hj. apply list_lookup_insert_Some in Hj as [(<- & <- & _)|[Hne Hj]]; [unfold q; by case_match|].
    by apply (inv_wakes s L R Hi j).
  - cbn [length]. intros Hr. destruct (decide (requested s <= Z.of_nat (length L))) as [Hle|Hgt].
    + destruct (inv_notified s L R Hi ltac:(lia)); [by left|right]. by eapply notify_kept.
    + right. unfold q. rewrite (inv_head s L R Hi), countdown_word by lia. rewrite (proj2 (Z.eqb_eq _ _)).
      * apply (list_elem_of_lookup_2 _ i). apply list_lookup_insert_eq. by eapply lookup_lt_Some.
      * replace (Z.max 0 (requested s - Z.of_nat (length L))) with 1 by lia. done.
Qed.

Lemma wake_notify i : wakes s !! i = Some WkNotify ->
  inv (set_wake i WkDone (set_request (requested s) true s)) L R.
Proof.
  intros Hp. assert (in_hand (set_wake i WkDone (set_request (requested s) true s)) ≡ₚ in_hand s) as Hh.
  { unfold in_hand. cbn. destruct (join_insert pushing _ _ _ Hp) as (rest & -> & ->). done. }
  split; cbn [head next task_count wakes owner owed yielded requested notified set_wake set_request]; try apply Hi.
  - rewrite Hh. apply Hi.
  - intros t n Hn. rewrite Hh. by apply (inv_places s L R Hi).
  - intros j q Hj. apply list_lookup_insert_Some in Hj as [(<- & <- & _)|[Hne Hj]]; [done|].
    by apply (inv_wakes s L R Hi j).
  - by left.
Qed.

Lemma wake_confirm i t n : wakes s !! i = Some (WkConfirm t n) -> next s !! t = Some n ->
  inv (set_wake i WkDone (set_owed t true s)) L R.
Proof.
  intros Hp Hn. destruct (inv_wakes s L R Hi i _ Hp) as [Ht Hne].
  pose proof (wake_goto i _ WkDone Hp ltac:(done) eq_refl I) as [].
  split; cbn [head next task_count wakes owner owed yielded requested notified set_wake set_owed] in *; try done.
  - by rewrite length_insert.
  - intros u b m Hb Hu. apply list_lookup_insert_Some in Hb as [(<- & <- & _)|[_ Hb]]; [by simplify_eq|].
    by apply (inv_owed s L R Hi u).
Qed.

Lemma wake_step_inv i sp p : wakes s !! i = Some p ->
  exists s' L', wake_step i sp p s = Some s' /\ inv s' L' R.
Proof.
  intros Hp. pose proof (inv_wakes s L R Hi i p Hp) as Hok.
  destruct p as [t|t|t h|t n0|t h|t h| |]; cbn [wake_step wake_ok] in *.
  - destruct (lookup_lt_is_Some_2 _ _ Hok) as [n Hn]. rewrite Hn. eexists _, L. split; [done|].
    eapply wake_goto; [done|done|by rewrite pushing_retry|by apply retry_ok].
  - eexists _, L. split; [done|]. eapply wake_goto; [done|done|done|]. split; [done|]. by apply (head_not_sleeping s L R).
  - destruct Hok as [Ht Hh]. destruct (lookup_lt_is_Some_2 _ _ Ht) as [n Hn]. rewrite Hn. cbn [mbind option_bind].
    destruct (Z.eqb_spec n SLEEPING) as [->|Hne]; [destruct sp|]; cbn [andb negb].
    2: eexists _, L; (split; [done|]); by apply wake_claim.
    all: eexists _, L; (split; [done|]); eapply wake_goto; [done|done|by rewrite pushing_retry|by apply retry_ok].
  - destruct Hok as [Ht Hh]. destruct (lookup_lt_is_Some_2 _ _ Ht) as [n Hn]. rewrite Hn. cbn [mbind option_bind].
    destruct (Z.eqb_spec n n0) as [->|Hne]; [destruct sp|]; cbn [andb negb].
    2: eexists _, L; (split; [done|]); by eapply wake_confirm.
    all: eexists _, L; (split; [done|]); eapply wake_goto; [done|done|by rewrite pushing_retry|by apply retry_ok].
  - destruct Hok as [Ht Hh]. pose proof (lookup_lt_Some _ _ _ Ht).
    destruct (Z.eqb_spec (head s) h) as [<-|Hne]; [destruct sp|]; cbn [andb negb].
    2: eexists _, (t :: L); (split; [done|]); by apply wake_push.
    all: eexists _, L; (split; [done|]); eapply wake_goto; [done|done|done|]; (split; [done|]); by apply (head_not_sleeping s L R).
  - destruct Hok as [Ht Hh]. destruct (lookup_lt_is_Some_2 _ _ Ht) as [n Hn]. rewrite Hn.
    eexists _, L. split; [done|]. by apply wake_swap.
  - eexists _, L. split; [done|]. by apply wake_notify.
  - by exists s, L.
Qed.

(** ** The owner *)

Lemma owner_goto p R' : chain (next s) R -> R' = R -> owner_ok p R' -> inv (set_owner p s) L R'.
Proof. intros _ -> Hok. destruct Hi. by split. Qed.

(** The first task of the iterator's list goes back to sleep. *)
Lemma owner_release t R' p : R = t :: R' -> owner_ok p R' ->
  inv (set_owner p (set_owed t false (set_next t SLEEPING s))) L R'.
Proof.
  intros -> Hok. pose proof (inv_chain_r s L _ Hi) as [Ht Hc]. pose proof (lookup_lt_Some _ _ _ Ht) as Hlt.
  pose proof (inv_nodup s L _ Hi) as Hnd. rewrite (app_assoc L), <- app_assoc in Hnd.
  assert (L ++ (t :: R') ++ in_hand s ≡ₚ t :: L ++ R' ++ in_hand s) as Hperm by solve_Permutation.
  pose proof (inv_nodup s L _ Hi) as Hn. rewrite Hperm, NoDup_cons, !not_elem_of_app in Hn.
  destruct Hn as ((HL & HR & HP) & Hn).
  set (s' := set_owner p (set_owed t false (set_next t SLEEPING s))).
  assert (in_hand s' = in_hand s) as Hh by done.
  split; cbn [head next task_count wakes owner owed yielded requested notified set_owner set_owed set_next s'];
    rewrite ?length_insert; try apply Hi.
  - apply chain_insert; [done|apply Hi].
  - by apply chain_insert.
  - done.
  - done.
  - intros u n Hu. rewrite Hh. apply list_lookup_insert_Some in Hu as [(<- & <- & _)|[Hne Hu]].
    + rewrite !elem_of_app. tauto.
    + rewrite (inv_places s L _ Hi u n Hu), Hperm, elem_of_cons. assert (u <> t) by congruence. tauto.
  - intros u b n Hb Hu. apply list_lookup_insert_Some in Hu as [(<- & <- & _)|[Hne Hu]].
    + apply list_lookup_insert_Some in Hb as [(_ & <- & _)|[Hne _]]; [done|by destruct Hne].
    + rewrite list_lookup_insert_ne in Hb by done. by apply (inv_owed s L _ Hi u).
  - intros j q Hj. apply wake_ok_insert; [by apply (inv_wakes s L _ Hi j)|]. intros Hin. apply HP.
    unfold in_hand. destruct (join_insert pushing _ _ _ Hj) as (rest & -> & _). apply elem_of_app. by left.
Qed.

(** [take_scheduled] takes the whole list, or makes a request. *)
Lemma owner_take c d p : owner s = OCas c d (head s) ->
  (L <> [] -> p = OIter (index (head s)) \/ p = ODrop (index (head s))) -> (L = [] -> p = OIdle) ->
  exists L' R',
    inv (set_owner p (set_request (if index (head s) =? EMPTY then c else 0) false (set_head (take_head c (head s)) s))) L' R' /\
    L' = [] /\ R' = L.
Proof.
  intros Ho Hp1 Hp2. pose proof (inv_owner s L R Hi) as Hown. rewrite Ho in Hown. destruct Hown as [-> Hc].
  pose proof (inv_req s L _ Hi) as Hreq. pose proof (link_range s L _ Hi L (inv_chain_l s L _ Hi)) as Hlink.
  exists [], L. split; [|done]. rewrite (head_index s L _ Hi) in *.
  rewrite (inv_head s L _ Hi), take_head_word by (unfold EMPTY, u32_max in *; lia).
  pose proof (link_empty s L _ Hi L (inv_chain_l s L _ Hi)) as Hemp.
  assert ([] ++ L ++ in_hand s = L ++ [] ++ in_hand s) as Hperm by done.
  split; cbn [head next task_count wakes owner owed yielded requested notified set_owner set_request set_head];
    try apply Hi.
  - destruct (link L =? EMPTY); [done|unfold u32_max; lia].
  - cbn [length link]. destruct (link L =? EMPTY); f_equal; lia.
  - destruct L as [|t L']; [by rewrite Hp2|]. destruct Hp1 as [-> | ->]; [done|done|done].
  - cbn. destruct (link L =? EMPTY); lia.
Qed.

End Preserve.

Lemma owner_step_inv s L R sp : inv s L R -> exists s' L' R', owner_step sp s = Some s' /\ inv s' L' R'.
Proof.
  intros Hi. pose proof (inv_owner s L R Hi) as Ho. pose proof (inv_chain_r s L R Hi) as Hr. unfold owner_step.
  destruct (owner s) as [| |c d|c d h|i|i|i n] eqn:Eo; cbn [owner_ok] in Ho.
  - by exists s, L, R.
  - subst R. eexists _, L, []. split; [done|]. apply (owner_goto s L _ Hi); [done..|].
    destruct (head s =? EMPTY); cbn; [done|by split].
  - destruct Ho as [-> Hc]. eexists _, L, []. split; [done|]. by apply (owner_goto s L _ Hi).
  - destruct Ho as [-> Hc].
    destruct (Z.eqb_spec (head s) h) as [<-|Hne]; [destruct sp|]; cbn [andb negb].
    1,3: eexists _, L, []; (split; [done|]); by apply (owner_goto s L _ Hi).
    rewrite (head_index s L [] Hi). pose proof (link_empty s L [] Hi L (inv_chain_l s L [] Hi)) as Hemp.
    destruct (Z.eqb_spec (link L) EMPTY) as [He|He].
    + destruct (owner_take s L _ Hi c d OIdle Eo) as (L' & R' & Hinv & _); [tauto|done|].
      rewrite (head_index s L [] Hi), (proj2 (Z.eqb_eq _ _) He) in Hinv. eexists _, _, _. split; [done|exact Hinv].
    + destruct (owner_take s L _ Hi c d (if d then ODrop (link L) else OIter (link L)) Eo) as (L' & R' & Hinv & _).
      * rewrite (head_index s L [] Hi). intros _. destruct d; auto.
      * tauto.
      * rewrite (head_index s L [] Hi), (proj2 (Z.eqb_neq _ _) He) in Hinv. eexists _, _, _. split; [done|exact Hinv].
  - by exists s, L, R.
  - destruct (Z.eqb_spec i EMPTY) as [->|Hne].
    + eexists _, L, R. split; [done|]. apply (owner_goto s L _ Hi); [done..|]. by apply (link_empty s L R Hi).
    + destruct R as [|t R']; [by destruct Hne|]. destruct Hr as [Ht _]. subst i. cbn [link]. rewrite Nat2Z.id, Ht.
      eexists _, L, (t :: R'). split; [done|]. apply (owner_goto s L _ Hi); [by apply Hi|done|]. by exists t, R'.
  - destruct Ho as (t & R' & -> & -> & ->). destruct Hr as [Ht _]. rewrite Nat2Z.id, Ht.
    eexists _, L, R'. split; [done|]. by apply (owner_release s L _ Hi).
Qed.

Lemma yielded_irrelevant l L' R' s0 : inv s0 L' R' -> inv (set_yielded l s0) L' R'.
Proof. intros []. by split. Qed.

Lemma iter_next_inv s L R : inv s L R -> exists s' R', iter_next s = Some s' /\ inv s' L R'.
Proof.
  intros Hi. pose proof (inv_owner s L R Hi) as Ho. pose proof (inv_chain_r s L R Hi) as Hr. unfold iter_next.
  destruct (owner s) as [| |c d|c d h|i|i|i n] eqn:Eo; try by exists s, R. cbn in Ho. subst i.
  destruct (Z.eqb_spec (link R) EMPTY) as [He|Hne]; [by exists s, R|].
  destruct R as [|t R']; [done|]. destruct Hr as [Ht _]. cbn [link]. rewrite Nat2Z.id, Ht. cbn [mbind option_bind].
  eexists _, R'. split; [done|]. pose proof (owner_release s L _ Hi t R' (OIter (link R')) eq_refl eq_refl) as H.
  case_decide; [by apply yielded_irrelevant|done].
Qed.

Lemma resize_inv s L R len : inv s L R -> Z.of_nat len <= EMPTY -> exists s', resize len s = Some s' /\ inv s' L R.
Proof.
  intros Hi Hlen. unfold resize. rewrite (proj2 (Z.leb_le _ _)), (proj2 (Z.leb_le _ _)) by (unfold EMPTY, SLEEPING in *; lia).
  eexists. split; [done|]. set (k := (len - length (next s))%nat).
  split; cbn [head next task_count wakes owner owed yielded requested notified]; rewrite ?length_app, ?length_replicate;
    try apply Hi.
  - by rewrite (inv_owed_len s L R Hi).
  - pose proof (inv_len s L R Hi). lia.
  - apply chain_app, Hi.
  - apply chain_app, Hi.
  - intros t n Hn. apply lookup_app_Some in Hn as [Hn|[Hge Hn]]; [by apply (inv_places s L R Hi)|].
    apply lookup_replicate in Hn as [-> _]. split; [done|]. intros Hin. exfalso.
    assert (t < length (next s))%nat; [|lia]. rewrite !elem_of_app in Hin. destruct Hin as [Hin|[Hin|Hin]].
    + by eapply chain_lt, Hin; apply Hi.
    + by eapply chain_lt, Hin; apply Hi.
    + unfold in_hand in Hin. apply list_elem_of_join in Hin as (l & Hl1 & Hl2). apply list_elem_of_fmap in Hl2 as (p & -> & Hp).
      apply list_elem_of_lookup in Hp as [j Hj]. pose proof (inv_wakes s L R Hi j p Hj) as Hok.
      destruct p; cbn in Hl1; try by apply not_elem_of_nil in Hl1.
      * apply list_elem_of_singleton in Hl1 as ->. destruct Hok as [Hok _]. by eapply lookup_lt_Some.
      * apply list_elem_of_singleton in Hl1 as ->. by destruct Hok.
  - intros t b n Hb Hn. pose proof (inv_owed_len s L R Hi) as Hol.
    apply lookup_app_Some in Hn as [Hn|[Hge Hn]]; apply lookup_app_Some in Hb as [Hb|[Hge' Hb]].
    + by apply (inv_owed s L R Hi t).
    + apply lookup_lt_Some in Hn. lia.
    + apply lookup_lt_Some in Hb. lia.
    + apply lookup_replicate in Hn as [-> _]. apply lookup_replicate in Hb as [-> _]. done.
  - intros j p Hj. pose proof (inv_wakes s L R Hi j p Hj) as Hok.
    destruct p; cbn in *; rewrite ?length_app; try (done || lia).
    destruct Hok. split; [by apply lookup_app_l_Some|done].
Qed.

Lemma wake_new s L R t : inv s L R -> (t < length (next s))%nat ->
  inv (mkSys (head s) (next s) (task_count s) (wakes s ++ [WkStart t]) (owner s) (owed s) (yielded s)
         (requested s) (notified s)) L R.
Proof.
  intros Hi Ht. assert (mjoin (pushing <$> (wakes s ++ [WkStart t])) = in_hand s) as Hh.
  { rewrite fmap_app, join_app. cbn. apply app_nil_r. }
  split; cbn [head next task_count wakes owner owed yielded requested notified]; try apply Hi;
    unfold in_hand; cbn [wakes]; rewrite ?Hh; try apply Hi.
  - intros j p Hj. apply lookup_app_Some in Hj as [Hj|[_ Hj]]; [by apply (inv_wakes s L R Hi j)|].
    apply list_lookup_singleton_Some in Hj as [_ <-]. done.
  - intros Hr. destruct (inv_notified s L R Hi Hr); [by left|right]. apply elem_of_app. by left.
Qed.

Lemma set_step_inv a s L R : inv s L R -> legal a = true -> exists s' L' R', step a s = Some s' /\ inv s' L' R'.
Proof.
  intros Hi Hl. destruct a as [t|i sp|c| |sp| | |len]; cbn [step legal] in *.
  - case_decide; [|by exists s, L, R]. eexists _, L, R. split; [done|]. by apply wake_new.
  - destruct (wakes s !! i) as [p|] eqn:Hp; [|by exists s, L, R].
    destruct (wake_step_inv s L R Hi i sp p Hp) as (s' & L' & ? & ?). by exists s', L', R.
  - destruct (owner s) eqn:Eo; try by exists s, L, R. rewrite Hl. eexists _, L, R. split; [done|].
    pose proof (inv_owner s L R Hi) as Ho. rewrite Eo in Ho. apply andb_true_iff in Hl as [H1 H2].
    apply Z.leb_le in H1, H2. apply (owner_goto s L R Hi); [apply Hi|done|]. done.
  - destruct (owner s) eqn:Eo; try by exists s, L, R. eexists _, L, R. split; [done|].
    pose proof (inv_owner s L R Hi) as Ho. rewrite Eo in Ho. by apply (owner_goto s L R Hi); [apply Hi|..].
  - by apply (owner_step_inv s L R).
  - destruct (iter_next_inv s L R Hi) as (s' & R' & ? & ?). by exists s', L, R'.
  - destruct (owner s) eqn:Eo; try by exists s, L, R. eexists _, L, R. split; [done|].
    pose proof (inv_owner s L R Hi) as Ho. rewrite Eo in Ho. by apply (owner_goto s L R Hi); [apply Hi|..].
  - destruct (owner s) eqn:Eo; try by exists s, L, R. apply Z.leb_le in Hl.
    destruct (resize_inv s L R len Hi Hl) as (s' & ? & ?). by exists s', L, R.
Qed.

(** ** Reachable states *)

Lemma with_len_inv len s : with_len len = Some s -> inv s [] [].
Proof.
  unfold with_len. destruct (Z.leb_spec (Z.of_nat len) EMPTY); [|done]. case_match; [|done]. intros [= <-].
  split; cbn [head next task_count wakes owner owed yielded requested notified]; rewrite ?length_replicate;
    try (done || apply NoDup_nil_2).
  - intros t n Hn. apply lookup_replicate in Hn as [-> _]. split; [done|]. intros Hin. by apply not_elem_of_nil in Hin.
  - intros t b n Hb Hn. apply lookup_replicate in Hn as [-> _]. apply lookup_replicate in Hb as [-> _]. done.
  - cbn. lia.
Qed.

Lemma set_run_inv sched s L R : inv s L R -> forallb legal sched = true ->
  exists s' L' R', run sched s = Some s' /\ inv s' L' R'.
Proof.
  revert s L R. induction sched as [|a sched IH]; intros s L R Hi Hl; cbn in *; [by exists s, L, R|].
  apply andb_true_iff in Hl as [Ha Hl]. destruct (set_step_inv a s L R Hi Ha) as (s1 & L1 & R1 & -> & Hi1). cbn. eauto.
Qed.

(** The list of scheduled tasks is determined by the head. *)
Lemma chain_unique s L R l : inv s L R -> chain (next s) l -> index (head s) = link l -> l = L.
Proof.
  intros Hi Hc Hh. rewrite (head_index s L R Hi) in Hh. pose proof (inv_chain_l s L R Hi) as HL.
  pose proof (link_empty s L R Hi) as He. clear -Hc Hh HL He. revert l Hh Hc. induction L as [|t L IH]; intros l Hh Hc.
  - symmetry in Hh. by apply (He l Hc).
  - destruct l as [|u l]; [by apply (He (t :: L) HL) in Hh|]. cbn [link] in Hh. assert (u = t) as -> by lia. f_equal.
    destruct HL as [H1 H2], Hc as [H3 H4]. apply IH; [done| |done]. congruence.
Qed.

Lemma owed_places s L R t : inv s L R -> owed s !! t = Some true <-> t ∈ L ++ R ++ in_hand s.
Proof.
  intros Hi. pose proof (inv_owed_len s L R Hi) as Hl. split.
  - intros Hb. pose proof (lookup_lt_Some _ _ _ Hb) as Hlt. rewrite Hl in Hlt. destruct (lookup_lt_is_Some_2 _ _ Hlt) as [n Hn].
    apply (inv_places s L R Hi t n Hn). by apply (inv_owed s L R Hi t true n).
  - intros Hin. assert (t < length (next s))%nat as Hlt.
    { rewrite !elem_of_app in Hin. destruct Hin as [Hin|[Hin|Hin]].
      - by eapply chain_lt, Hin; apply Hi.
      - by eapply chain_lt, Hin; apply Hi.
      - unfold in_hand in Hin. apply list_elem_of_join in Hin as (l & Hl1 & Hl2).
        apply list_elem_of_fmap in Hl2 as (p & -> & Hp). apply list_elem_of_lookup in Hp as [j Hj].
        pose proof (inv_wakes s L R Hi j p Hj) as Hok.
        destruct p; cbn in Hl1; try by apply not_elem_of_nil in Hl1.
        + apply list_elem_of_singleton in Hl1 as ->. destruct Hok as [Hok _]. by eapply lookup_lt_Some.
        + apply list_elem_of_singleton in Hl1 as ->. by destruct Hok. }
    destruct (lookup_lt_is_Some_2 _ _ Hlt) as [n Hn]. rewrite <- Hl in Hlt.
    destruct (lookup_lt_is_Some_2 _ _ Hlt) as [b Hb]. rewrite Hb. f_equal.
    apply (inv_owed s L R Hi t b n Hb Hn). by apply (inv_places s L R Hi t n Hn).
Qed.

(** The iterator, undisturbed, yields the active tasks of its list. *)
Lemma iterate s L R k : inv s L R -> owner s = OIter (link R) -> (length R <= k)%nat ->
  exists s', run (replicate k ANext) s = Some s' /\ inv s' L [] /\
    yielded s' = yielded s ++ filter (fun t => t < task_count s)%nat R /\ in_hand s' = in_hand s.
Proof.
  revert s R. induction k as [|k IH]; intros s R Hi Ho Hk.
  - destruct R; [|cbn in Hk; lia]. exists s. split; [done|]. split; [done|]. by rewrite filter_nil, app_nil_r.
  - cbn [replicate run step]. unfold iter_next. rewrite Ho. pose proof (inv_chain_r s L R Hi) as Hr.
    destruct R as [|t R'].
    + cbn [link]. rewrite Z.eqb_refl. apply (IH s []); [done|done|cbn; lia].
    + destruct (Z.eqb_spec (link (t :: R')) EMPTY) as [He|Hne].
      { apply (link_empty s L _ Hi (t :: R') Hr) in He. done. }
      destruct Hr as [Ht _]. cbn [link]. rewrite Nat2Z.id, Ht. cbn [mbind option_bind].
      pose proof (owner_release s L _ Hi t R' (OIter (link R')) eq_refl eq_refl) as H1.
      rewrite filter_cons. case_decide as Hd.
      * destruct (IH (set_yielded (yielded s ++ [t]) (set_owner (OIter (link R')) (set_owed t false (set_next t SLEEPING s)))) R')
          as (s' & Hr & Hinv & Hy & Hh); [by apply yielded_irrelevant|done|cbn in Hk; lia|].
        exists s'. split_and!; [done..| |done]. rewrite Hy. cbn. by rewrite <- app_assoc.
      * destruct (IH (set_owner (OIter (link R')) (set_owed t false (set_next t SLEEPING s))) R')
          as (s' & Hr & Hinv & Hy & Hh); [done|done|cbn in Hk; lia|]. by exists s'.
Qed.

Lemma scheduled_length s L R : inv s L R -> (length L <= length (next s))%nat.
Proof.
  intros Hi. rewrite <- (length_seq (length (next s)) 0). apply submseteq_length, NoDup_submseteq.
  - pose proof (inv_nodup s L R Hi) as H. by apply NoDup_app in H as [? _].
  - intros t Ht. apply elem_of_seq. pose proof (chain_lt _ _ _ (inv_chain_l s L R Hi) Ht). lia.
Qed.

(** The operations of the owner that take and process everything. *)
Definition take_all (c : Z) (k : nat) : list Action := ATake c :: AOwner false :: AOwner false :: replicate k ANext.

Lemma idle_next k s : owner s = OIdle -> run (replicate k ANext) s = Some s.
Proof. intros Ho. induction k as [|k IH]; [done|]. cbn. unfold iter_next. rewrite Ho. cbn. apply IH. Qed.

Lemma take_all_ok s L R c : inv s L R -> owner s = OIdle -> 0 <= c <= u32_max ->
  exists s', run (take_all c (length (next s))) s = Some s' /\ inv s' [] [] /\
    yielded s' = yielded s ++ filter (fun t => t < task_count s)%nat L /\ in_hand s' = in_hand s.
Proof.
  intros Hi Ho Hc. pose proof (inv_owner s L R Hi) as HR. rewrite Ho in HR. cbn in HR. subst R.
  unfold take_all. cbn [run step]. rewrite Ho, (proj2 (Z.leb_le 0 c)), (proj2 (Z.leb_le c _)) by lia.
  cbn [andb mbind option_bind owner_step set_owner owner head]. rewrite Z.eqb_refl. cbn [andb negb].
  set (s1 := set_owner (OCas c false (head s)) s).
  assert (inv s1 L []) as Hi1 by (by apply (owner_goto s L [] Hi)).
  pose proof (link_empty s L [] Hi L (inv_chain_l s L [] Hi)) as Hemp. rewrite (head_index s L [] Hi).
  destruct (Z.eqb_spec (link L) EMPTY) as [He|He].
  - pose proof (proj1 Hemp He) as ->. cbn [mbind option_bind]. rewrite idle_next by done. eexists. split; [done|].
    destruct (owner_take s1 [] [] Hi1 c false OIdle eq_refl) as (L' & R' & Hinv & -> & ->); [done|done|].
    change (head s1) with (head s) in Hinv. rewrite (head_index s [] [] Hi) in Hinv.
    split; [exact Hinv|]. cbn. by rewrite app_nil_r.
  - cbn [mbind option_bind].
    destruct (owner_take s1 L [] Hi1 c false (OIter (link L)) eq_refl) as (L' & R' & Hinv & -> & ->).
    { intros _. left. change (head s1) with (head s). by rewrite (head_index s L [] Hi). }
    { tauto. }
    change (head s1) with (head s) in Hinv. rewrite (head_index s L [] Hi), (proj2 (Z.eqb_neq _ _) He) in Hinv.
    destruct (iterate _ [] L (length (next s)) Hinv eq_refl) as (s' & Hr & Hi' & Hy & Hh); [by eapply scheduled_length|].
    by exists s'.
Qed.

(** ** Claims *)

(** C19: no wake-up is lost.  For every interleaving of calls of [wake_by_ref]
    with [take_scheduled], the iterator, its drop handler, [discard_scheduled]
    and [resize], with any spurious failures, nothing panics and a task was
    woken since it was last yielded or discarded exactly when it is in one, and
    only one, of three places: the stack of scheduled tasks, what is left of the
    list held by the owner, or the hands of a call of [wake_by_ref] that is
    about to push it. *)
Theorem task_set_no_lost_task len s0 sched :
  with_len len = Some s0 -> forallb legal sched = true ->
  exists s L R, run sched s0 = Some s /\ index (head s) = link L /\ chain (next s) L /\ chain (next s) R /\
    owner_ok (owner s) R /\ NoDup (L ++ R ++ in_hand s) /\
    forall t, owed s !! t = Some true <-> t ∈ L ++ R ++ in_hand s.
Proof.
  intros Hn Hl. destruct (set_run_inv sched s0 [] [] (with_len_inv len s0 Hn) Hl) as (s & L & R & Hr & Hi).
  exists s, L, R. split_and!; [done|by eapply head_index|apply Hi..|]. intros t. by apply owed_places.
Qed.

(** A requested notification is sent.  Whenever at least as many tasks are
    scheduled as were asked for in the last call of [take_scheduled] that found
    none, the parent task has been notified since that call, or a call of
    [wake_by_ref] is about to do it. *)
Theorem task_set_notifies len s0 sched s l :
  with_len len = Some s0 -> forallb legal sched = true -> run sched s0 = Some s ->
  chain (next s) l -> index (head s) = link l -> 0 < requested s <= Z.of_nat (length l) ->
  notified s = true \/ WkNotify ∈ wakes s.
Proof.
  intros Hn Hl Hr Hc Hh Hq. destruct (set_run_inv sched s0 [] [] (with_len_inv len s0 Hn) Hl) as (s' & L & R & Hr' & Hi).
  simplify_eq. rewrite (chain_unique s L R l Hi Hc Hh) in Hq. by apply (inv_notified s L R Hi).
Qed.

(** Whatever happened before, an owner that takes the scheduled tasks and
    iterates over them undisturbed gets exactly the active tasks that were woken
    since they were last yielded, each of them once, except those that a call
    of [wake_by_ref] in progress has not pushed yet; all others are asleep
    afterwards. *)
Theorem task_set_take_all len s0 sched s c :
  with_len len = Some s0 -> forallb legal sched = true -> run sched s0 = Some s ->
  owner s = OIdle -> 0 <= c <= u32_max ->
  exists s' l, run (take_all c (length (next s))) s = Some s' /\
    yielded s' = yielded s ++ filter (fun t => t < task_count s)%nat l /\ NoDup l /\
    (forall t, owed s !! t = Some true <-> t ∈ l ++ in_hand s) /\
    (forall t, owed s' !! t = Some true <-> t ∈ in_hand s).
Proof.
  intros Hn Hl Hr Ho Hc. destruct (set_run_inv sched s0 [] [] (with_len_inv len s0 Hn) Hl) as (s1 & L & R & Hr1 & Hi).
  simplify_eq. pose proof (inv_owner s L R Hi) as HR. rewrite Ho in HR. cbn in HR. subst R.
  destruct (take_all_ok s L [] c Hi Ho Hc) as (s' & Hr' & Hi' & Hy & Hh). exists s', L. split_and!; [done|done| | |].
  - pose proof (inv_nodup s L [] Hi) as H. by apply NoDup_app in H as [? _].
  - intros t. apply (owed_places s L []). done.
  - intros t. rewrite <- Hh. by apply (owed_places s' [] []).
Qed.

(** ** Examples: three tasks; one is woken twice, and a wake-up of another races
    with the owner. *)
Definition demo_sched : list Action :=
  [ATake 2; AOwner false; AOwner false; AWake 0; AWake 2; AWake 0; AStep 0 false; AStep 0 false; AStep 0 true;
   AStep 0 false; AStep 0 false; AStep 1 false; AStep 1 false; AStep 1 false; AStep 2 false; AStep 2 false;
   AStep 0 false; AStep 1 false; AStep 1 false; AStep 1 false].

Definition demo_set : Sys := mkSys EMPTY [SLEEPING; SLEEPING; SLEEPING] 3 [] OIdle [false; false; false] [] 0 false.
Definition demo_scheduled : Sys :=
  mkSys 2 [EMPTY; SLEEPING; 0] 3 [WkDone; WkNotify; WkDone] OIdle [true; false; true] [] 2 false.

Lemma task_set_no_lost_task_witness :
  with_len 3 = Some demo_set /\ exists s L R, run demo_sched demo_set = Some s /\ index (head s) = link L /\
    chain (next s) L /\ chain (next s) R /\ owner_ok (owner s) R /\ NoDup (L ++ R ++ in_hand s) /\
    forall t, owed s !! t = Some true <-> t ∈ L ++ R ++ in_hand s.
Proof.
  assert (with_len 3 = Some demo_set) as Hn by reflexivity. split; [done|].
  apply (task_set_no_lost_task 3 demo_set demo_sched Hn). reflexivity.
Defined.

Lemma task_set_notifies_witness :
  run demo_sched demo_set = Some demo_scheduled /\ (notified demo_scheduled = true \/ WkNotify ∈ wakes demo_scheduled).
Proof.
  assert (run demo_sched demo_set = Some demo_scheduled) as Hr by (vm_compute; reflexivity). split; [done|].
  apply (task_set_notifies 3 demo_set demo_sched demo_scheduled [2; 0]%nat); [reflexivity|reflexivity|done|done|reflexivity|].
  cbn. lia.
Defined.

Lemma task_set_take_all_witness :
  exists s' l, run (take_all 0 3) demo_scheduled = Some s' /\
    yielded s' = filter (fun t => t < 3)%nat l /\ NoDup l /\ forall t, owed s' !! t = Some true <-> t ∈ in_hand demo_scheduled.
Proof.
  assert (run demo_sched demo_set = Some demo_scheduled) as Hr by (vm_compute; reflexivity).
  destruct (task_set_take_all 3 demo_set demo_sched demo_scheduled 0) as (s' & l & H1 & H2 & H3 & _ & H4);
    [reflexivity|reflexivity|done|reflexivity|unfold u32_max; lia|].
  exists s', l. auto.
Defined.
End TaskSetTheorems.
