(* ===== verification/Broadcaster.v ===== *)
(** * Broadcasters of output ports and of sources:
      [ports/output/broadcaster.rs] and [ports/source/broadcaster.rs]

    The future of a message to one recipient is seen through the results of its
    successive polls; it must not be polled again once it is ready, and [None]
    stands for this and all other panics.  A broadcast future is polled with the
    lists of sub-tasks that its successive calls of [take_scheduled] return
    during the poll (the last call returns none): these are whatever wake-ups
    the task set has recorded. *)

From S2P Require Import Prelude TaskSet.

Module Futures.

Inductive SendError : Type := sendError.

Inductive Poll (A : Type) : Type := Ready (a : A) | Pending.
#[global] Arguments Ready {_} _.
#[global] Arguments Pending {_}.

Definition is_ready {A} (p : Poll A) : bool := match p with Ready _ => true | Pending => false end.

(** A future: the result of its n-th poll, the number of polls so far. *)
Record Fut (R : Type) : Type := mkFut {
  outcome : nat -> Poll (Result R SendError);
  polls : nat;
  finished : bool }.
#[global] Arguments mkFut {_} _ _ _.
#[global] Arguments outcome {_} _ _.
#[global] Arguments polls {_} _.
#[global] Arguments finished {_} _.

Section Defs.
Context {R : Type}.

Definition start (o : nat -> Poll (Result R SendError)) : Fut R := mkFut o 0 false.

Definition poll_fut (f : Fut R) : option (Poll (Result R SendError) * Fut R) :=
  if finished f then None
  else let r := outcome f (polls f) in Some (r, mkFut (outcome f) (S (polls f)) (is_ready r)).

(** The future becomes ready at its [k]-th poll, with result [r]. *)
Definition ready_at (o : nat -> Poll (Result R SendError)) (k : nat) (r : Result R SendError) : Prop :=
  o k = Ready r /\ forall j, j < k -> o j = Pending.
End Defs.

(** The state of completion of a broadcast future (both files). *)
Inductive FutureState : Type := Uninit | FPending | Completed.
End Futures.

Module SourceBroadcaster.
Import Futures.

Section Defs.
Context {R : Type}.

Inductive SenderFutureState : Type := SPending (f : Fut R) | SReady (r : R).

Record BroadcastFuture : Type := mkBroadcast {
  future_states : list SenderFutureState;
  pending_futures_count : nat;
  state : FutureState }.

(** [BroadcastFuture::new]; the panic is that of [TaskSet::with_len]. *)
Definition new (future_states : list SenderFutureState) : option BroadcastFuture :=
  _ ← TaskSet.with_len (length future_states);
  Some (mkBroadcast future_states (length future_states) Uninit).

(** The body of both [for] loops of [poll]; [true]: early return of an error. *)
Definition poll_one (task_idx : nat) (bf : BroadcastFuture) : option (bool * BroadcastFuture) :=
  fs ← future_states bf !! task_idx;
  match fs with
  | SReady _ => Some (false, bf)
  | SPending future =>
      '(p, future) ← poll_fut future;
      match p with
      | Ready (Ok output) =>
          match pending_futures_count bf with
          | 0 => None
          | S n => Some (false, mkBroadcast (<[task_idx := SReady output]> (future_states bf)) n (state bf))
          end
      | Ready (Err sendError) =>
          Some (true, mkBroadcast (<[task_idx := SPending future]> (future_states bf)) (pending_futures_count bf) Completed)
      | Pending =>
          Some (false, mkBroadcast (<[task_idx := SPending future]> (future_states bf)) (pending_futures_count bf) (state bf))
      end
  end.

Fixpoint poll_each (idxs : list nat) (bf : BroadcastFuture) : option (bool * BroadcastFuture) :=
  match idxs with
  | [] => Some (false, bf)
  | i :: idxs => '(e, bf) ← poll_one i bf; if e : bool then Some (true, bf) else poll_each idxs bf
  end.

(** The replies are taken out when no future is pending any more. *)
Definition complete (bf : BroadcastFuture) : Poll (Result (list SenderFutureState) SendError) * BroadcastFuture :=
  (Ready (Ok (future_states bf)), mkBroadcast [] (pending_futures_count bf) Completed).

Fixpoint poll_loop (batches : list (list nat)) (bf : BroadcastFuture)
    : option (Poll (Result (list SenderFutureState) SendError) * BroadcastFuture) :=
  match batches with
  | [] => Some (Pending, bf)
  | scheduled_tasks :: batches =>
      '(e, bf) ← poll_each scheduled_tasks bf;
      if e : bool then Some (Ready (Err sendError), bf)
      else match pending_futures_count bf with
           | 0 => Some (complete bf)
           | S _ => poll_loop batches bf
           end
  end.

Definition poll (batches : list (list nat)) (bf : BroadcastFuture)
    : option (Poll (Result (list SenderFutureState) SendError) * BroadcastFuture) :=
  match state bf with
  | Completed => None
  | Uninit =>
      '(e, bf) ← poll_each (seq 0 (length (future_states bf))) bf;
      if e : bool then Some (Ready (Err sendError), bf)
      else match pending_futures_count bf with
           | 0 => Some (complete bf)
           | S _ => poll_loop batches (mkBroadcast (future_states bf) (pending_futures_count bf) FPending)
           end
  | FPending => poll_loop batches bf
  end.

(** [ReplyIterator]: all its items; a reply that is missing is a panic. *)
Fixpoint replies (l : list SenderFutureState) : option (list R) :=
  match l with
  | [] => Some []
  | SReady reply :: l => rs ← replies l; Some (reply :: rs)
  | SPending _ :: _ => None
  end.

(** The executor polls the future until it is ready. *)
Fixpoint drive (polls : list (list (list nat))) (bf : BroadcastFuture)
    : option (Poll (Result (list SenderFutureState) SendError) * BroadcastFuture) :=
  match polls with
  | [] => Some (Pending, bf)
  | batches :: polls =>
      '(p, bf) ← poll batches bf;
      match p with Ready _ => Some (p, bf) | Pending => drive polls bf end
  end.
End Defs.
#[global] Arguments SenderFutureState : clear implicits.
#[global] Arguments BroadcastFuture : clear implicits.
End SourceBroadcaster.

Module OutputBroadcaster.
Import Futures.

Section Defs.
Context {R : Type}.

(** The outputs belong to the broadcaster and are borrowed by the future. *)
Record BroadcastFuture : Type := mkBroadcast {
  outputs : list (option R);
  futures : list (Fut R);
  pending_futures_count : nat;
  state : FutureState }.

(** [BroadcastFuture::new]; the panic is that of [TaskSet::resize]. *)
Definition new (outputs : list (option R)) (futures : list (Fut R)) : option BroadcastFuture :=
  let pending_futures_count := length futures in
  _ ← TaskSet.resize pending_futures_count TaskSet.new;
  Some (mkBroadcast (replicate (min pending_futures_count (length outputs)) None ++ drop pending_futures_count outputs)
          futures pending_futures_count Uninit).

(** The polling of one future, in both [for] loops. *)
Definition poll_future (task_idx : nat) (bf : BroadcastFuture) : option (bool * BroadcastFuture) :=
  future ← futures bf !! task_idx;
  '(p, future) ← poll_fut future;
  let futures := <[task_idx := future]> (futures bf) in
  match p with
  | Ready (Ok o) =>
      match pending_futures_count bf with
      | 0 => None
      | S n => Some (false, mkBroadcast (<[task_idx := Some o]> (outputs bf)) futures n (state bf))
      end
  | Ready (Err sendError) => Some (true, mkBroadcast (outputs bf) futures (pending_futures_count bf) Completed)
  | Pending => Some (false, mkBroadcast (outputs bf) futures (pending_futures_count bf) (state bf))
  end.

(** The first loop polls all futures, the second skips the completed ones. *)
Fixpoint poll_first (idxs : list nat) (bf : BroadcastFuture) : option (bool * BroadcastFuture) :=
  match idxs with
  | [] => Some (false, bf)
  | i :: idxs =>
      _ ← outputs bf !! i;
      '(e, bf) ← poll_future i bf; if e : bool then Some (true, bf) else poll_first idxs bf
  end.

Fixpoint poll_scheduled (idxs : list nat) (bf : BroadcastFuture) : option (bool * BroadcastFuture) :=
  match idxs with
  | [] => Some (false, bf)
  | i :: idxs =>
      output ← outputs bf !! i;
      match output with
      | Some _ => poll_scheduled idxs bf
      | None => '(e, bf) ← poll_future i bf; if e : bool then Some (true, bf) else poll_scheduled idxs bf
      end
  end.

Definition complete (bf : BroadcastFuture) : Poll (Result unit SendError) * BroadcastFuture :=
  (Ready (Ok tt), mkBroadcast (outputs bf) (futures bf) (pending_futures_count bf) Completed).

Fixpoint poll_loop (batches : list (list nat)) (bf : BroadcastFuture)
    : option (Poll (Result unit SendError) * BroadcastFuture) :=
  match batches with
  | [] => Some (Pending, bf)
  | scheduled_tasks :: batches =>
      '(e, bf) ← poll_scheduled scheduled_tasks bf;
      if e : bool then Some (Ready (Err sendError), bf)
      else match pending_futures_count bf with
           | 0 => Some (complete bf)
           | S _ => poll_loop batches bf
           end
  end.

Definition poll (batches : list (list nat)) (bf : BroadcastFuture)
    : option (Poll (Result unit SendError) * BroadcastFuture) :=
  match state bf with
  | Completed => None
  | Uninit =>
      '(e, bf) ← poll_first (seq 0 (length (futures bf))) bf;
      if e : bool then Some (Ready (Err sendError), bf)
      else match pending_futures_count bf with
           | 0 => Some (complete bf)
           | S _ => poll_loop batches (mkBroadcast (outputs bf) (futures bf) (pending_futures_count bf) FPending)
           end
  | FPending => poll_loop batches bf
  end.

Fixpoint drive (polls : list (list (list nat))) (bf : BroadcastFuture)
    : option (Poll (Result unit SendError) * BroadcastFuture) :=
  match polls with
  | [] => Some (Pending, bf)
  | batches :: polls =>
      '(p, bf) ← poll batches bf;
      match p with Ready _ => Some (p, bf) | Pending => drive polls bf end
  end.

(** The iterator over the replies in [QueryBroadcaster::broadcast]. *)
Fixpoint take_outputs (n : nat) (outputs : list (option R)) : option (list R) :=
  match n, outputs with
  | S n, o :: outputs => r ← o; rs ← take_outputs n outputs; Some (r :: rs)
  | _, _ => Some []
  end.
End Defs.
#[global] Arguments BroadcastFuture : clear implicits.
End OutputBroadcaster.
