(* ===== verification/BroadcasterFacts.v ===== *)
(** * Broadcasters: correctness of broadcast futures *)

From S2P Require Import Prelude TaskSet Broadcaster.

Module BroadcasterFacts.
Import Futures.

(** How often a task occurs in a list of scheduled tasks. *)
Definition occurrences (i : nat) (l : list nat) : nat := length (filter (fun j => j = i) l).

Lemma occurrences_cons i j l : occurrences i (j :: l) = (if decide (j = i) then 1 else 0) + occurrences i l.
Proof. unfold occurrences. rewrite filter_cons. by case_decide. Qed.

Lemma occurrences_app i l l' : occurrences i (l ++ l') = occurrences i l + occurrences i l'.
Proof. unfold occurrences. by rewrite filter_app, length_app. Qed.

Lemma occurrences_seq i n : i < n -> occurrences i (seq 0 n) = 1.
Proof.
  intros Hi. replace n with (i + S (n - S i)) by lia. rewrite seq_app, occurrences_app. cbn [seq].
  rewrite occurrences_cons, decide_True by lia.
  assert (forall l, i ∉ l -> occurrences i l = 0) as H0.
  { induction l as [|j l IH]; intros Hn; [done|]. apply not_elem_of_cons in Hn as [Hne Hn].
    rewrite occurrences_cons, decide_False by congruence. by rewrite IH. }
  rewrite !H0; [done|..]; rewrite elem_of_seq; lia.
Qed.

Section Source.
Import SourceBroadcaster.
Context {R : Type} (os : list (nat -> Poll (Result R SendError))).
Implicit Types (bf : BroadcastFuture R) (fs : SenderFutureState R).

(** ** Invariant *)

(** A future that is pending was polled each time its task was scheduled. *)
Definition slot_ok (o : nat -> Poll (Result R SendError)) (occ : nat) fs : Prop :=
  match fs with
  | SPending f => outcome f = o /\ finished f = false /\ polls f = occ /\ forall j, j < occ -> o j = Pending
  | SReady r => exists k, ready_at o k (Ok r)
  end.

Definition pend fs : list unit := match fs with SPending _ => [tt] | SReady _ => [] end.
Definition pending_count (l : list (SenderFutureState R)) : nat := length (mjoin (pend <$> l)).

Record binv (occ : nat -> nat) bf : Prop := {
  binv_len : length (future_states bf) = length os;
  binv_slots : forall i o fs, os !! i = Some o -> future_states bf !! i = Some fs -> slot_ok o (occ i) fs;
  binv_count : pending_futures_count bf = pending_count (future_states bf) }.

Definition all_ready (l : list (SenderFutureState R)) : Prop :=
  length l = length os /\ forall i o, os !! i = Some o -> exists r k, l !! i = Some (SReady r) /\ ready_at o k (Ok r).
Definition some_error : Prop := exists i o k, os !! i = Some o /\ ready_at o k (Err sendError).

Lemma pending_insert_ready (l : list (SenderFutureState R)) i f r :
  l !! i = Some (SPending f) -> pending_count l = S (pending_count (<[i := SReady r]> l)).
Proof.
  intros Hi. unfold pending_count. destruct (join_insert pend l i _ Hi) as (rest & H1 & H2).
  rewrite H1, (H2 (SReady r)). done.
Qed.

Lemma pending_insert_same (l : list (SenderFutureState R)) i f f' :
  l !! i = Some (SPending f) -> pending_count (<[i := SPending f']> l) = pending_count l.
Proof.
  intros Hi. unfold pending_count. destruct (join_insert pend l i _ Hi) as (rest & H1 & H2).
  rewrite H1, (H2 (SPending f')). done.
Qed.

Lemma binv_ext occ occ' bf : (forall i, i < length os -> occ i = occ' i) -> binv occ bf -> binv occ' bf.
Proof.
  intros He []. split; [done| |done]. intros i o fs Ho Hf. rewrite <- He by (by eapply lookup_lt_Some). eauto.
Qed.

Lemma poll_one_ok occ bf i : binv occ bf -> i < length os ->
  exists e bf', poll_one i bf = Some (e, bf') /\
    if e : bool then some_error /\ state bf' = Completed
    else binv (fun j => occ j + if decide (i = j) then 1 else 0) bf' /\ state bf' = state bf.
Proof.
  intros Hb Hi. pose proof (binv_len occ bf Hb) as Hl. destruct (lookup_lt_is_Some_2 _ _ Hi) as [o Ho].
  rewrite <- Hl in Hi. destruct (lookup_lt_is_Some_2 _ _ Hi) as [fs Hf].
  pose proof (binv_slots occ bf Hb i o fs Ho Hf) as Hok. unfold poll_one. rewrite Hf. cbn [mbind option_bind].
  assert (forall fs', slot_ok o (S (occ i)) fs' -> forall j o' fs'', os !! j = Some o' ->
    <[i := fs']> (future_states bf) !! j = Some fs'' -> slot_ok o' (occ j + if decide (i = j) then 1 else 0) fs'') as Hins.
  { intros fs' Hfs' j o' fs'' Ho' Hj. apply list_lookup_insert_Some in Hj as [(-> & -> & _)|[Hne Hj]].
    - rewrite decide_True by done. rewrite Nat.add_1_r. congruence.
    - rewrite decide_False, Nat.add_0_r by done. by apply (binv_slots occ bf Hb j). }
  destruct fs as [f|r]; cbn [slot_ok] in Hok.
  - destruct Hok as (Hout & Hfin & Hpolls & Hpend). unfold poll_fut. rewrite Hfin, Hout, Hpolls. cbn [mbind option_bind].
    destruct (o (occ i)) as [[r|[]]|] eqn:Eo; cbn [is_ready].
    + rewrite (binv_count occ bf Hb), (pending_insert_ready _ i f r Hf). eexists false, _. split; [done|]. split; [|done].
      split; cbn [future_states pending_futures_count]; [by rewrite length_insert| |done]. apply Hins. by exists (occ i).
    + eexists true, _. split; [done|]. split; [|done]. by exists i, o, (occ i).
    + eexists false, _. split; [done|]. split; [|done]. split; cbn [future_states pending_futures_count].
      * by rewrite length_insert.
      * apply Hins. split_and!; [done..|]. intros j Hj. destruct (decide (j = occ i)) as [->|]; [done|apply Hpend; lia].
      * rewrite (pending_insert_same _ i f) by done. apply Hb.
  - exists false, bf. split; [done|]. split; [|done]. split; [done| |by apply Hb].
    intros j o' fs' Ho' Hj. destruct (decide (i = j)) as [->|Hne].
    + simplify_eq. done.
    + rewrite Nat.add_0_r. by apply (binv_slots occ bf Hb j).
Qed.

Lemma poll_each_ok idxs occ bf : binv occ bf -> Forall (fun i => i < length os) idxs ->
  exists e bf', poll_each idxs bf = Some (e, bf') /\
    if e : bool then some_error /\ state bf' = Completed
    else binv (fun j => occ j + occurrences j idxs) bf' /\ state bf' = state bf.
Proof.
  revert occ bf. induction idxs as [|i idxs IH]; intros occ bf Hb Hf; cbn [poll_each].
  - exists false, bf. split; [done|]. split; [|done]. eapply binv_ext, Hb. intros i _. unfold occurrences. cbn. lia.
  - apply Forall_cons in Hf as [Hi Hf]. destruct (poll_one_ok occ bf i Hb Hi) as (e & bf1 & -> & H1). cbn [mbind option_bind].
    destruct e; [by exists true, bf1|]. destruct H1 as [H1 Hs1]. destruct (IH _ _ H1 Hf) as (e & bf2 & -> & H2).
    exists e, bf2. split; [done|]. destruct e; [done|]. destruct H2 as [H2 Hs2]. split; [|by rewrite Hs2].
    eapply binv_ext, H2. intros j _. rewrite occurrences_cons. lia.
Qed.

(** ** Results *)
Definition poll_ok (occ : nat -> nat) bf' (p : Poll (Result (list (SenderFutureState R)) SendError)) : Prop :=
  match p with
  | Ready (Ok l) => all_ready l
  | Ready (Err _) => some_error
  | Pending => binv occ bf' /\ 0 < pending_futures_count bf' /\ state bf' = FPending
  end.

Lemma all_pending_zero occ bf : binv occ bf -> pending_futures_count bf = 0 -> all_ready (future_states bf).
Proof.
  intros Hb Hz. pose proof (binv_len occ bf Hb) as Hl. split; [done|]. intros i o Ho.
  pose proof (lookup_lt_Some _ _ _ Ho) as Hi. rewrite <- Hl in Hi. destruct (lookup_lt_is_Some_2 _ _ Hi) as [fs Hf].
  pose proof (binv_slots occ bf Hb i o fs Ho Hf) as Hok. destruct fs as [f|r]; [|destruct Hok as [k Hk]; by exists r, k].
  exfalso. rewrite (binv_count occ bf Hb) in Hz. unfold pending_count in Hz.
  destruct (join_insert pend _ _ _ Hf) as (rest & H1 & _). rewrite H1 in Hz. done.
Qed.

Lemma complete_ok occ bf : binv occ bf -> pending_futures_count bf = 0 ->
  poll_ok occ (complete bf).2 (complete bf).1.
Proof. intros Hb Hz. cbn. by eapply all_pending_zero. Qed.

Lemma poll_loop_ok batches occ bf :
  binv occ bf -> 0 < pending_futures_count bf -> state bf = FPending ->
  Forall (Forall (fun i => i < length os)) batches ->
  exists p bf', poll_loop batches bf = Some (p, bf') /\ poll_ok (fun j => occ j + occurrences j (mjoin batches)) bf' p.
Proof.
  revert occ bf. induction batches as [|b batches IH]; intros occ bf Hb Hc Hs Hf; cbn [poll_loop].
  - exists Pending, bf. split; [done|]. split; [|done]. eapply binv_ext, Hb. intros i _. unfold occurrences. cbn. lia.
  - apply Forall_cons in Hf as [Hfb Hf]. destruct (poll_each_ok b occ bf Hb Hfb) as (e & bf1 & -> & H1). cbn [mbind option_bind].
    destruct e; [exists (Ready (Err sendError)), bf1; split; [done|apply H1]|]. destruct H1 as [H1 Hs1].
    destruct (pending_futures_count bf1) as [|n] eqn:En.
    + eexists _, _. split; [done|]. apply (complete_ok _ bf1 H1 En).
    + destruct (IH _ bf1 H1) as (p & bf2 & -> & Hp); [lia|congruence|done|]. exists p, bf2. split; [done|].
      destruct p as [[l|err]|]; [done..|]. destruct Hp as [Hp Hr]. split; [|done].
      eapply binv_ext, Hp. intros j _. change (mjoin (b :: batches)) with (b ++ mjoin batches). rewrite occurrences_app. lia.
Qed.

Lemma poll_first_ok batches bf :
  binv (fun _ => 0) bf -> state bf = Uninit -> Forall (Forall (fun i => i < length os)) batches ->
  exists p bf', poll batches bf = Some (p, bf') /\ poll_ok (fun j => 1 + occurrences j (mjoin batches)) bf' p.
Proof.
  intros Hb Hs Hf. unfold poll. rewrite Hs.
  destruct (poll_each_ok (seq 0 (length (future_states bf))) (fun _ => 0) bf Hb) as (e & bf1 & -> & H1).
  { rewrite (binv_len _ bf Hb). apply Forall_forall. intros i Hi. apply elem_of_seq in Hi. lia. }
  cbn [mbind option_bind]. destruct e; [exists (Ready (Err sendError)), bf1; split; [done|apply H1]|]. destruct H1 as [H1 Hs1].
  assert (binv (fun _ => 1) bf1) as H2.
  { eapply binv_ext, H1. intros i Hi. rewrite (binv_len _ bf Hb). cbn. by rewrite occurrences_seq. }
  destruct (pending_futures_count bf1) as [|n] eqn:En.
  - eexists _, _. split; [done|]. apply (complete_ok _ bf1 H2 En).
  - apply (poll_loop_ok batches (fun _ => 1)); [|cbn; lia|done|done].
    destruct H2 as [H2a H2b H2c]. split; [done|done|]. cbn [pending_futures_count future_states]. congruence.
Qed.

Lemma drive_ok polls occ bf :
  binv occ bf -> 0 < pending_futures_count bf -> state bf = FPending ->
  Forall (Forall (Forall (fun i => i < length os))) polls ->
  exists p bf', drive polls bf = Some (p, bf') /\ poll_ok (fun j => occ j + occurrences j (mjoin (mjoin polls))) bf' p.
Proof.
  revert occ bf. induction polls as [|b polls IH]; intros occ bf Hb Hc Hs Hf; cbn [drive].
  - exists Pending, bf. split; [done|]. split; [|done]. eapply binv_ext, Hb. intros i _. unfold occurrences. cbn. lia.
  - apply Forall_cons in Hf as [Hfb Hf]. destruct (poll_loop_ok b occ bf Hb Hc Hs Hfb) as (p & bf1 & Hp & H1).
    unfold poll. rewrite Hs, Hp. cbn [mbind option_bind].
    destruct p as [r|]; [by exists (Ready r), bf1|]. destruct H1 as (H1 & Hc1 & Hs1).
    destruct (IH _ bf1 H1 Hc1 Hs1 Hf) as (p & bf2 & -> & H2). exists p, bf2. split; [done|].
    destruct p as [[l|err]|]; [done..|]. destruct H2 as [H2 Hr]. split; [|done].
    eapply binv_ext, H2. intros j _. change (mjoin (b :: polls)) with (b ++ mjoin polls). rewrite join_app, occurrences_app. lia.
Qed.

Lemma new_binv bf : new (SPending ∘ start <$> os) = Some bf -> binv (fun _ => 0) bf /\ state bf = Uninit.
Proof.
  unfold new. destruct (TaskSet.with_len _); [|done]. intros [= <-]. split; [|done]. split; cbn.
  - by rewrite length_fmap.
  - intros i o fs Ho Hf. rewrite list_lookup_fmap, Ho in Hf. injection Hf as <-. split_and!; [done..|]. intros j Hj. lia.
  - rewrite length_fmap. unfold pending_count. clear. induction os as [|o l IH]; [done|]. cbn. by rewrite IH.
Qed.

(** From the creation of the future, whatever the wake-ups. *)
Lemma broadcast_ok bf polls :
  new (SPending ∘ start <$> os) = Some bf -> Forall (Forall (Forall (fun i => i < length os))) polls -> polls <> [] ->
  exists p bf', drive polls bf = Some (p, bf') /\ poll_ok (fun j => 1 + occurrences j (mjoin (mjoin polls))) bf' p.
Proof.
  intros Hn Hf Hne. destruct (new_binv bf Hn) as [Hb Hs]. destruct polls as [|b polls]; [done|].
  apply Forall_cons in Hf as [Hfb Hf]. cbn [drive].
  destruct (poll_first_ok b bf Hb Hs Hfb) as (p & bf1 & -> & H1). cbn [mbind option_bind].
  destruct p as [r|]; [by exists (Ready r), bf1|]. destruct H1 as (H1 & Hc1 & Hs1).
  destruct (drive_ok polls _ bf1 H1 Hc1 Hs1 Hf) as (p & bf2 & -> & H2). exists p, bf2. split; [done|].
  destruct p as [[l|err]|]; [done..|]. destruct H2 as [H2 Hr]. split; [|done].
  eapply binv_ext, H2. intros j _. change (mjoin (b :: polls)) with (b ++ mjoin polls). rewrite join_app, occurrences_app. lia.
Qed.

Lemma replies_ready l : all_ready l -> exists rs, replies l = Some rs /\ length rs = length os /\
  forall i o r, os !! i = Some o -> rs !! i = Some r -> exists k, ready_at o k (Ok r).
Proof.
  intros [Hl Hr]. revert l Hl Hr. induction os as [|o l' IH]; intros l Hl Hr.
  - destruct l; [|done]. by exists [].
  - destruct l as [|fs l]; [done|]. destruct (Hr 0 o eq_refl) as (r & k & [= ->] & Hk).
    destruct (IH l) as (rs & H1 & H2 & H3); [by injection Hl|intros i o' Ho'; apply (Hr (S i) o' Ho')|].
    exists (r :: rs). cbn. rewrite H1. split_and!; [done|by rewrite H2|].
    intros [|i] o' r' Ho' Hr'; [cbn in *; simplify_eq; by exists k|by apply (H3 i)].
Qed.

Lemma pending_future occ bf : binv occ bf -> 0 < pending_futures_count bf ->
  exists i o, os !! i = Some o /\ forall j, j < occ i -> o j = Pending.
Proof.
  intros Hb Hc. rewrite (binv_count occ bf Hb) in Hc. pose proof (binv_len occ bf Hb) as Hl.
  assert (exists i f, future_states bf !! i = Some (SPending f)) as (i & f & Hf).
  { unfold pending_count in Hc. revert Hc. clear. induction (future_states bf) as [|[f|r] l IH]; cbn; intros Hc; [lia|..].
    - by exists 0, f.
    - destruct (IH Hc) as (i & f & ?). by exists (S i), f. }
  pose proof (lookup_lt_Some _ _ _ Hf) as Hi. rewrite Hl in Hi. destruct (lookup_lt_is_Some_2 _ _ Hi) as [o Ho].
  destruct (binv_slots occ bf Hb i o _ Ho Hf) as (_ & _ & _ & H). by exists i, o.
Qed.
End Source.

(** ** The broadcast future of output ports simulates that of sources *)
Section Output.
Context {R : Type}.
Notation SB := SourceBroadcaster.BroadcastFuture (only parsing).
Notation OB := OutputBroadcaster.BroadcastFuture (only parsing).

(** An output that is available stands for a completed future. *)
Definition slot (f : Fut R) (o : option R) : SourceBroadcaster.SenderFutureState R :=
  match o with Some r => SourceBroadcaster.SReady r | None => SourceBroadcaster.SPending f end.
Definition abs (ob : OB R) : SB R :=
  SourceBroadcaster.mkBroadcast (zip_with slot (OutputBroadcaster.futures ob) (OutputBroadcaster.outputs ob))
    (OutputBroadcaster.pending_futures_count ob) (OutputBroadcaster.state ob).
Definition wide (ob : OB R) : Prop := length (OutputBroadcaster.futures ob) <= length (OutputBroadcaster.outputs ob).

Lemma slot_lookup (ob : OB R) i f o :
  OutputBroadcaster.futures ob !! i = Some f -> OutputBroadcaster.outputs ob !! i = Some o ->
  SourceBroadcaster.future_states (abs ob) !! i = Some (slot f o).
Proof. intros Hf Ho. cbn. rewrite lookup_zip_with, Hf, Ho. done. Qed.

Lemma wide_lookup (ob : OB R) i f : wide ob -> OutputBroadcaster.futures ob !! i = Some f ->
  exists o, OutputBroadcaster.outputs ob !! i = Some o.
Proof. intros Hw Hf. apply lookup_lt_is_Some_2. apply lookup_lt_Some in Hf. unfold wide in Hw. lia. Qed.

(** Polling one future whose output is not available. *)
Lemma poll_future_sim i (ob : OB R) : wide ob -> OutputBroadcaster.outputs ob !! i = Some None ->
  match OutputBroadcaster.poll_future i ob with
  | Some (e, ob') => SourceBroadcaster.poll_one i (abs ob) = Some (e, abs ob') /\ wide ob' /\
      (forall j, j <> i -> OutputBroadcaster.outputs ob' !! j = OutputBroadcaster.outputs ob !! j) /\
      length (OutputBroadcaster.futures ob') = length (OutputBroadcaster.futures ob) /\
      (e = false -> OutputBroadcaster.state ob' = OutputBroadcaster.state ob)
  | None => SourceBroadcaster.poll_one i (abs ob) = None
  end.
Proof.
  intros Hw Ho. unfold OutputBroadcaster.poll_future, SourceBroadcaster.poll_one.
  destruct (OutputBroadcaster.futures ob !! i) as [f|] eqn:Hf.
  2: { cbn. by rewrite lookup_zip_with, Hf. }
  rewrite (slot_lookup ob i f None Hf Ho). cbn [mbind option_bind slot].
  destruct (poll_fut f) as [[p f']|]; [|done]. cbn [mbind option_bind].
  assert (zip_with slot (<[i := f']> (OutputBroadcaster.futures ob)) (OutputBroadcaster.outputs ob)
          = <[i := SourceBroadcaster.SPending f']> (zip_with slot (OutputBroadcaster.futures ob) (OutputBroadcaster.outputs ob))) as Hz.
  { rewrite <- (list_insert_id (OutputBroadcaster.outputs ob) i None Ho) at 1. by rewrite <- insert_zip_with. }
  destruct p as [[r|[]]|]; cbn [abs SourceBroadcaster.pending_futures_count].
  - destruct (OutputBroadcaster.pending_futures_count ob) as [|n]; [done|]. split_and!.
    + unfold abs. cbn. by rewrite <- insert_zip_with.
    + unfold wide in *. cbn. by rewrite !length_insert.
    + intros j Hj. cbn. by rewrite list_lookup_insert_ne.
    + cbn. by rewrite length_insert.
    + done.
  - split_and!; [unfold abs; cbn; by rewrite Hz|unfold wide in *; cbn; by rewrite length_insert|done|cbn; by rewrite length_insert|done].
  - split_and!; [unfold abs; cbn; by rewrite Hz|unfold wide in *; cbn; by rewrite length_insert|done|cbn; by rewrite length_insert|done].
Qed.

Definition sim_each (so : option (bool * OB R)) (ss : option (bool * SB R)) (n : nat) (st : FutureState) : Prop :=
  match so with
  | Some (e, ob) => ss = Some (e, abs ob) /\ wide ob /\ length (OutputBroadcaster.futures ob) = n /\
      (e = false -> OutputBroadcaster.state ob = st)
  | None => ss = None
  end.

Lemma poll_scheduled_sim idxs (ob : OB R) : wide ob -> Forall (fun i => i < length (OutputBroadcaster.futures ob)) idxs ->
  sim_each (OutputBroadcaster.poll_scheduled idxs ob) (SourceBroadcaster.poll_each idxs (abs ob))
    (length (OutputBroadcaster.futures ob)) (OutputBroadcaster.state ob).
Proof.
  revert ob. induction idxs as [|i idxs IH]; intros ob Hw Hf; cbn [OutputBroadcaster.poll_scheduled SourceBroadcaster.poll_each]; [done|].
  apply Forall_cons in Hf as [Hi Hf]. destruct (lookup_lt_is_Some_2 _ _ Hi) as [f Hf']. destruct (wide_lookup ob i f Hw Hf') as [o Ho].
  rewrite Ho. cbn [mbind option_bind]. destruct o as [r|].
  - unfold SourceBroadcaster.poll_one. rewrite (slot_lookup ob i f _ Hf' Ho). cbn [mbind option_bind slot]. by apply IH.
  - pose proof (poll_future_sim i ob Hw Ho) as H. destruct (OutputBroadcaster.poll_future i ob) as [[e ob']|].
    + destruct H as (-> & Hw' & _ & Hl & Hs). cbn [mbind option_bind]. destruct e; [done|]. rewrite <- Hl, <- Hs by done. apply IH; [done|by rewrite Hl].
    + by rewrite H.
Qed.

Lemma poll_first_sim idxs (ob : OB R) : wide ob -> NoDup idxs ->
  (forall i, i ∈ idxs -> OutputBroadcaster.outputs ob !! i = Some None) ->
  sim_each (OutputBroadcaster.poll_first idxs ob) (SourceBroadcaster.poll_each idxs (abs ob))
    (length (OutputBroadcaster.futures ob)) (OutputBroadcaster.state ob).
Proof.
  revert ob. induction idxs as [|i idxs IH]; intros ob Hw Hnd Ho; cbn [OutputBroadcaster.poll_first SourceBroadcaster.poll_each]; [done|].
  apply NoDup_cons in Hnd as [Hni Hnd]. pose proof (Ho i ltac:(by left)) as Hi. rewrite Hi. cbn [mbind option_bind].
  pose proof (poll_future_sim i ob Hw Hi) as H. destruct (OutputBroadcaster.poll_future i ob) as [[e ob']|].
  - destruct H as (-> & Hw' & Hj & Hl & Hs). cbn [mbind option_bind]. destruct e; [done|]. rewrite <- Hl, <- Hs by done. apply IH; [done|done|].
    intros j Hin. rewrite Hj by (by intros ->). apply Ho. by right.
  - by rewrite H.
Qed.

(** The same result, with the replies in the outputs instead of the value. *)
Definition sim_poll (so : option (Poll (Result unit SendError) * OB R))
    (ss : option (Poll (Result (list (SourceBroadcaster.SenderFutureState R)) SendError) * SB R)) (n : nat) : Prop :=
  match so with
  | Some (Pending, ob) => ss = Some (Pending, abs ob) /\ wide ob /\ length (OutputBroadcaster.futures ob) = n /\
      OutputBroadcaster.state ob = FPending
  | Some (Ready (Err e), ob) => ss = Some (Ready (Err e), abs ob) /\ wide ob /\ length (OutputBroadcaster.futures ob) = n
  | Some (Ready (Ok _), ob) => exists sb, ss = Some (Ready (Ok (SourceBroadcaster.future_states (abs ob))), sb) /\
      wide ob /\ length (OutputBroadcaster.futures ob) = n
  | None => ss = None
  end.

Lemma poll_loop_sim batches (ob : OB R) : wide ob -> OutputBroadcaster.state ob = FPending ->
  Forall (Forall (fun i => i < length (OutputBroadcaster.futures ob))) batches ->
  sim_poll (OutputBroadcaster.poll_loop batches ob) (SourceBroadcaster.poll_loop batches (abs ob))
    (length (OutputBroadcaster.futures ob)).
Proof.
  revert ob. induction batches as [|b batches IH]; intros ob Hw Hst Hf; cbn [OutputBroadcaster.poll_loop SourceBroadcaster.poll_loop]; [done|].
  apply Forall_cons in Hf as [Hfb Hf]. pose proof (poll_scheduled_sim b ob Hw Hfb) as H. unfold sim_each in H.
  destruct (OutputBroadcaster.poll_scheduled b ob) as [[e ob']|]; [|by rewrite H].
  destruct H as (-> & Hw' & Hl & Hs). cbn [mbind option_bind]. destruct e; [done|]. rewrite Hst in Hs.
  cbn [abs SourceBroadcaster.pending_futures_count]. destruct (OutputBroadcaster.pending_futures_count ob') eqn:En.
  - eexists. split; [done|]. split; [done|]. done.
  - rewrite <- Hl. apply IH; [done|by apply Hs|by rewrite Hl].
Qed.

Lemma poll_sim batches (ob : OB R) : wide ob ->
  (OutputBroadcaster.state ob = Uninit -> forall i, i < length (OutputBroadcaster.futures ob) -> OutputBroadcaster.outputs ob !! i = Some None) ->
  Forall (Forall (fun i => i < length (OutputBroadcaster.futures ob))) batches ->
  sim_poll (OutputBroadcaster.poll batches ob) (SourceBroadcaster.poll batches (abs ob))
    (length (OutputBroadcaster.futures ob)).
Proof.
  intros Hw Hu Hf. unfold OutputBroadcaster.poll, SourceBroadcaster.poll. change (SourceBroadcaster.state (abs ob)) with (OutputBroadcaster.state ob).
  destruct (OutputBroadcaster.state ob) eqn:Es; [|by apply poll_loop_sim|done].
  assert (length (SourceBroadcaster.future_states (abs ob)) = length (OutputBroadcaster.futures ob)) as ->.
  { cbn. rewrite length_zip_with. unfold wide in Hw. lia. }
  pose proof (poll_first_sim (seq 0 (length (OutputBroadcaster.futures ob))) ob Hw) as H.
  specialize (H (NoDup_seq _ _) ltac:(intros i Hi; apply elem_of_seq in Hi; apply Hu; [done|lia])). unfold sim_each in H.
  destruct (OutputBroadcaster.poll_first _ ob) as [[e ob']|]; [|by rewrite H].
  destruct H as (-> & Hw' & Hl & _). cbn [mbind option_bind]. destruct e; [done|].
  cbn [abs SourceBroadcaster.pending_futures_count]. destruct (OutputBroadcaster.pending_futures_count ob') eqn:En.
  - eexists. split; [done|]. split; [done|]. done.
  - rewrite <- Hl. apply (poll_loop_sim batches (OutputBroadcaster.mkBroadcast _ _ (S n) FPending)); [done|done|]. cbn. by rewrite Hl.
Qed.

Lemma drive_sim polls (ob : OB R) : wide ob ->
  (OutputBroadcaster.state ob = Uninit -> forall i, i < length (OutputBroadcaster.futures ob) -> OutputBroadcaster.outputs ob !! i = Some None) ->
  Forall (Forall (Forall (fun i => i < length (OutputBroadcaster.futures ob)))) polls ->
  match OutputBroadcaster.drive polls ob with
  | Some (p, ob') => exists q sb, SourceBroadcaster.drive polls (abs ob) = Some (q, sb) /\
      wide ob' /\ length (OutputBroadcaster.futures ob') = length (OutputBroadcaster.futures ob) /\
      q = match p with
          | Ready (Ok _) => Ready (Ok (SourceBroadcaster.future_states (abs ob')))
          | Ready (Err e) => Ready (Err e)
          | Pending => Pending
          end
  | None => SourceBroadcaster.drive polls (abs ob) = None
  end.
Proof.
  revert ob. induction polls as [|b polls IH]; intros ob Hw Hu Hf; cbn [OutputBroadcaster.drive SourceBroadcaster.drive].
  { by eexists _, _. }
  apply Forall_cons in Hf as [Hfb Hf]. pose proof (poll_sim b ob Hw Hu Hfb) as H. unfold sim_poll in H.
  destruct (OutputBroadcaster.poll b ob) as [[[[[]|e]|] ob']|]; cbn [mbind option_bind]; [..|by rewrite H].
  - destruct H as (sb & -> & Hw' & Hl). by eexists _, _.
  - destruct H as (-> & Hw' & Hl). by eexists _, _.
  - destruct H as (-> & Hw' & Hl & Hs). cbn [mbind option_bind]. rewrite <- Hl. apply IH; [done|by rewrite Hs|by rewrite Hl].
Qed.

(** The vector of replies keeps its length. *)
Lemma poll_future_len i (ob ob' : OB R) e : OutputBroadcaster.poll_future i ob = Some (e, ob') ->
  length (OutputBroadcaster.outputs ob') = length (OutputBroadcaster.outputs ob).
Proof.
  unfold OutputBroadcaster.poll_future. destruct (OutputBroadcaster.futures ob !! i) as [f|]; [|done]. cbn.
  destruct (poll_fut f) as [[p f']|]; [|done]. cbn.
  destruct p as [[r|[]]|]; [destruct (OutputBroadcaster.pending_futures_count ob); [done|]|..]; intros [= <- <-]; cbn; [|done|done].
  apply length_insert.
Qed.

Lemma poll_first_len idxs (ob ob' : OB R) e : OutputBroadcaster.poll_first idxs ob = Some (e, ob') ->
  length (OutputBroadcaster.outputs ob') = length (OutputBroadcaster.outputs ob).
Proof.
  revert ob. induction idxs as [|i idxs IH]; intros ob; cbn [OutputBroadcaster.poll_first]; [by intros [= <- <-]|].
  destruct (OutputBroadcaster.outputs ob !! i); [|done]. cbn [mbind option_bind].
  destruct (OutputBroadcaster.poll_future i ob) as [[e1 ob1]|] eqn:E; [|done]. apply poll_future_len in E.
  cbn [mbind option_bind]. destruct e1; [by intros [= <- <-]|]. intros H. rewrite (IH _ H). done.
Qed.

Lemma poll_scheduled_len idxs (ob ob' : OB R) e : OutputBroadcaster.poll_scheduled idxs ob = Some (e, ob') ->
  length (OutputBroadcaster.outputs ob') = length (OutputBroadcaster.outputs ob).
Proof.
  revert ob. induction idxs as [|i idxs IH]; intros ob; cbn [OutputBroadcaster.poll_scheduled]; [by intros [= <- <-]|].
  destruct (OutputBroadcaster.outputs ob !! i) as [[r|]|]; cbn [mbind option_bind]; [apply IH| |done].
  destruct (OutputBroadcaster.poll_future i ob) as [[e1 ob1]|] eqn:E; [|done]. apply poll_future_len in E.
  cbn [mbind option_bind]. destruct e1; [by intros [= <- <-]|]. intros H. rewrite (IH _ H). done.
Qed.

Lemma poll_loop_len batches (ob ob' : OB R) p : OutputBroadcaster.poll_loop batches ob = Some (p, ob') ->
  length (OutputBroadcaster.outputs ob') = length (OutputBroadcaster.outputs ob).
Proof.
  revert ob. induction batches as [|b batches IH]; intros ob; cbn [OutputBroadcaster.poll_loop]; [by intros [= <- <-]|].
  destruct (OutputBroadcaster.poll_scheduled b ob) as [[e ob1]|] eqn:E; [|done]. apply poll_scheduled_len in E.
  cbn [mbind option_bind]. destruct e; [by intros [= <- <-]|].
  destruct (OutputBroadcaster.pending_futures_count ob1); [by intros [= <- <-]|]. intros H. by rewrite (IH _ H).
Qed.

Lemma drive_len polls (ob ob' : OB R) p : OutputBroadcaster.drive polls ob = Some (p, ob') ->
  length (OutputBroadcaster.outputs ob') = length (OutputBroadcaster.outputs ob).
Proof.
  revert ob. induction polls as [|b polls IH]; intros ob; cbn [OutputBroadcaster.drive]; [by intros [= <- <-]|].
  destruct (OutputBroadcaster.poll b ob) as [[q ob1]|] eqn:E; [|done]. cbn [mbind option_bind].
  assert (length (OutputBroadcaster.outputs ob1) = length (OutputBroadcaster.outputs ob)) as Hl.
  { unfold OutputBroadcaster.poll in E. destruct (OutputBroadcaster.state ob); [|by apply poll_loop_len in E|done].
    destruct (OutputBroadcaster.poll_first _ ob) as [[e ob2]|] eqn:E2; [|done]. apply poll_first_len in E2.
    cbn [mbind option_bind] in E. destruct e; [by simplify_eq|].
    destruct (OutputBroadcaster.pending_futures_count ob2); [injection E as <- <-; done|].
    apply poll_loop_len in E. by rewrite E. }
  destruct q as [r|]; [by intros [= <- <-]|]. intros H. by rewrite (IH _ H).
Qed.

Lemma zip_with_blank (fs : list (Fut R)) rest :
  zip_with slot fs (replicate (length fs) None ++ rest) = SourceBroadcaster.SPending <$> fs.
Proof. induction fs as [|f fs IH]; [done|]. cbn. by rewrite IH. Qed.

Lemma new_wide outs (fs : list (Fut R)) ob : length fs <= length outs -> OutputBroadcaster.new outs fs = Some ob ->
  wide ob /\ OutputBroadcaster.futures ob = fs /\
  (forall i, i < length fs -> OutputBroadcaster.outputs ob !! i = Some None) /\
  SourceBroadcaster.new (SourceBroadcaster.SPending <$> fs) = Some (abs ob).
Proof.
  intros Hle. unfold OutputBroadcaster.new, SourceBroadcaster.new, TaskSet.resize, TaskSet.with_len. rewrite length_fmap.
  destruct (_ && _); [|done]. cbn [mbind option_bind]. intros [= <-]. rewrite Nat.min_l by done. split_and!.
  - unfold wide. cbn. rewrite length_app, length_replicate, length_drop. lia.
  - done.
  - intros i Hi. cbn. rewrite lookup_app_l by (by rewrite length_replicate). by apply lookup_replicate.
  - unfold abs. cbn. rewrite zip_with_blank. done.
Qed.

Lemma take_outputs_replies (fs : list (Fut R)) outs : length fs <= length outs ->
  OutputBroadcaster.take_outputs (length fs) outs = SourceBroadcaster.replies (zip_with slot fs outs).
Proof.
  revert outs. induction fs as [|f fs IH]; intros outs Hl; [by destruct outs|]. destruct outs as [|o outs]; [cbn in Hl; lia|].
  cbn. destruct o as [r|]; [|done]. cbn. rewrite IH by (cbn in Hl; lia). done.
Qed.
End Output.

(** ** Broadcast futures *)

(** A broadcast to any number of recipients, whatever the wake-ups and the
    polls of the parent task, never panics and never polls a future that is
    ready.  It completes with the replies of all recipients, in their order,
    each being the reply its future became ready with; it completes with an
    error only if a recipient's future did; and it is pending only if some
    future was still pending after its first poll and after one poll for each
    time it was woken. *)
Theorem broadcast_future_result {R} (os : list (nat -> Poll (Result R SendError))) bf polls :
  SourceBroadcaster.new (SourceBroadcaster.SPending ∘ start <$> os) = Some bf ->
  Forall (Forall (Forall (fun i => i < length os))) polls -> polls <> [] ->
  exists p bf', SourceBroadcaster.drive polls bf = Some (p, bf') /\
    match p with
    | Ready (Ok l) => exists rs, SourceBroadcaster.replies l = Some rs /\ length rs = length os /\
        forall i o r, os !! i = Some o -> rs !! i = Some r -> exists k, ready_at o k (Ok r)
    | Ready (Err _) => exists i o k, os !! i = Some o /\ ready_at o k (Err sendError)
    | Pending => exists i o, os !! i = Some o /\
        forall j, j < 1 + occurrences i (mjoin (mjoin polls)) -> o j = Pending
    end.
Proof.
  intros Hn Hf Hne. destruct (broadcast_ok os bf polls Hn Hf Hne) as (p & bf' & Hd & Hp).
  exists p, bf'. split; [done|]. destruct p as [[l|e]|]; cbn in Hp.
  - by apply replies_ready.
  - done.
  - destruct Hp as (Hb & Hc & _). by apply (pending_future os _ bf' Hb Hc).
Qed.

(** The broadcast future of output ports, which keeps the replies in a
    vector reused from one broadcast to the next, is equivalent to that of
    sources: for the same futures, wake-ups and polls, whatever is left in the
    vector by previous broadcasts, it panics, stays pending, fails or completes
    exactly when the other does, and then with the same replies. *)
Theorem output_future_equiv {R} (outs : list (option R)) (os : list (nat -> Poll (Result R SendError))) ob sb polls :
  length os <= length outs -> OutputBroadcaster.new outs (start <$> os) = Some ob ->
  SourceBroadcaster.new (SourceBroadcaster.SPending ∘ start <$> os) = Some sb ->
  Forall (Forall (Forall (fun i => i < length os))) polls ->
  match OutputBroadcaster.drive polls ob, SourceBroadcaster.drive polls sb with
  | None, None => True
  | Some (Pending, _), Some (Pending, _) => True
  | Some (Ready (Err _), _), Some (Ready (Err _), _) => True
  | Some (Ready (Ok _), ob'), Some (Ready (Ok l), _) =>
      OutputBroadcaster.take_outputs (length os) (OutputBroadcaster.outputs ob') = SourceBroadcaster.replies l
  | _, _ => False
  end.
Proof.
  intros Hle Ho Hs Hf. destruct (new_wide outs (start <$> os) ob) as (Hw & Hfu & Hout & Hab); [by rewrite length_fmap|done|].
  rewrite list_fmap_compose in Hs. rewrite Hs in Hab. injection Hab as ->.
  pose proof (drive_sim polls ob Hw) as H. rewrite Hfu in H. rewrite length_fmap in *.
  specialize (H (fun _ => Hout) Hf).
  destruct (OutputBroadcaster.drive polls ob) as [[p ob']|]; [|by rewrite H].
  destruct H as (q & sb' & -> & Hw' & Hl & ->). destruct p as [[[]|e]|]; [|done|done].
  rewrite <- Hl. by apply take_outputs_replies.
Qed.

(** ** Examples: three recipients; the first is ready at once, the others after
    one and two wake-ups. *)
Definition delayed (d : nat) (r : Result nat SendError) : nat -> Poll (Result nat SendError) :=
  fun k => if decide (k < d) then Pending else Ready r.
Definition demo_futures : list (nat -> Poll (Result nat SendError)) :=
  [delayed 0 (Ok 10); delayed 1 (Ok 11); delayed 2 (Ok 12)].
Definition demo_polls : list (list (list nat)) := [[]; [[2; 1]; [0]]; [[1]; [2]]].

Lemma broadcast_demo :
  exists bf p bf', SourceBroadcaster.new (SourceBroadcaster.SPending ∘ start <$> demo_futures) = Some bf /\
    SourceBroadcaster.drive demo_polls bf = Some (p, bf') /\ is_ready p = true.
Proof.
  eexists. assert (SourceBroadcaster.new (SourceBroadcaster.SPending ∘ start <$> demo_futures)
    = Some (SourceBroadcaster.mkBroadcast (SourceBroadcaster.SPending ∘ start <$> demo_futures) 3 Uninit)) as Hn by reflexivity.
  destruct (broadcast_future_result demo_futures _ demo_polls Hn) as (p & bf' & Hd & Hp); [repeat constructor|done|].
  exists p, bf'. split; [exact Hn|]. split; [exact Hd|]. destruct p; [done|].
  vm_compute in Hd. discriminate Hd.
Defined.

Lemma output_broadcast_demo :
  exists ob ob', OutputBroadcaster.new [Some 99; None; Some 98; Some 97] (start <$> demo_futures) = Some ob /\
    OutputBroadcaster.drive demo_polls ob = Some (Ready (Ok tt), ob') /\
    OutputBroadcaster.take_outputs 3 (OutputBroadcaster.outputs ob') = Some [10; 11; 12].
Proof.
  set (ob := OutputBroadcaster.mkBroadcast [None; None; None; Some 97] (start <$> demo_futures) 3 Uninit).
  set (sb := SourceBroadcaster.mkBroadcast (SourceBroadcaster.SPending ∘ start <$> demo_futures) 3 Uninit).
  pose proof (output_future_equiv [Some 99; None; Some 98; Some 97] demo_futures ob sb demo_polls ltac:(cbn; lia)
    eq_refl eq_refl ltac:(repeat constructor)) as H.
  destruct (OutputBroadcaster.drive demo_polls ob) as [[p ob']|] eqn:E; [|vm_compute in E; discriminate E].
  exists ob, ob'. split; [reflexivity|]. split; [rewrite E; vm_compute in E; injection E as <- _; reflexivity|].
  destruct p as [[[]|e]|]; [|vm_compute in E; discriminate E..].
  vm_compute in H. exact H.
Defined.
End BroadcasterFacts.
