(* ===== verification/Senders.v ===== *)
(** * Senders: [ports/source/sender.rs], [ports/output/sender.rs], and the
      [broadcast] methods of [ports/source/broadcaster.rs] and
      [ports/output/broadcaster.rs]

    A message is the closure to be executed by the model behind a mailbox; its
    type carries the type of the reply.  What happens to the messages is decided
    by the environment, which at each poll says whether the mailbox accepts the
    message and whether the reply has arrived. *)

From S2P Require Import Prelude TaskSet Broadcaster BroadcasterFacts.

Module Senders.
Import Futures.

Section Defs.
Context {Addr : Type} {Msg Writer : Type -> Type}.

(** ** Senders *)
Inductive Sender (T : Type) : Type -> Type :=
  | InputSender (func : T -> Msg unit) (sender : Addr) : Sender T unit
  | MapInputSender U (map : T -> U) (func : U -> Msg unit) (sender : Addr) : Sender T unit
  | FilterMapInputSender U (filter_map : T -> option U) (func : U -> Msg unit) (sender : Addr) : Sender T unit
  | EventSinkSender (writer : Writer T) : Sender T unit
  | MapEventSinkSender U (map : T -> U) (writer : Writer U) : Sender T unit
  | FilterMapEventSinkSender U (filter_map : T -> option U) (writer : Writer U) : Sender T unit
  | ReplierSender R (func : T -> Msg R) (sender : Addr) : Sender T R
  | MapReplierSender R U Q (query_map : T -> U) (reply_map : Q -> R) (func : U -> Msg Q) (sender : Addr) : Sender T R
  | FilterMapReplierSender R U Q (query_filter_map : T -> option U) (reply_map : Q -> R) (func : U -> Msg Q)
      (sender : Addr) : Sender T R.

(** The futures of the senders, at the points where they can be suspended:
    [sender.send(..).await], then for queries the reception of the reply. *)
Inductive SenderFuture : Type -> Type :=
  | FSend (sender : Addr) (m : Msg unit) : SenderFuture unit
  | FWrite U (writer : Writer U) (u : U) : SenderFuture unit
  | FQuery R Q (sender : Addr) (m : Msg Q) (reply_map : Q -> R) : SenderFuture R
  | FReply R Q (sender : Addr) (m : Msg Q) (reply_map : Q -> R) : SenderFuture R
  | FDone R : SenderFuture R.

(** ** Senders of sources

    [send] takes a reference to the message, [send_owned] the message itself; the
    senders that do not define the latter use the former. *)
Section Source.
Context {T : Type}.

Definition input_send_owned (func : T -> Msg unit) (a : Addr) (arg : T) : option (SenderFuture unit) :=
  Some (FSend a (func arg)).
Definition input_send (func : T -> Msg unit) (a : Addr) (arg : T) : option (SenderFuture unit) :=
  input_send_owned func a arg.
Definition map_input_send {U} (map : T -> U) (func : U -> Msg unit) (a : Addr) (arg : T) : option (SenderFuture unit) :=
  let arg := map arg in Some (FSend a (func arg)).
Definition filter_map_input_send {U} (filter_map : T -> option U) (func : U -> Msg unit) (a : Addr) (arg : T)
    : option (SenderFuture unit) :=
  arg ← filter_map arg; Some (FSend a (func arg)).
Definition replier_send_owned {R} (func : T -> Msg R) (a : Addr) (arg : T) : option (SenderFuture R) :=
  Some (FQuery R R a (func arg) (fun r => r)).
Definition replier_send {R} (func : T -> Msg R) (a : Addr) (arg : T) : option (SenderFuture R) :=
  replier_send_owned func a arg.
Definition map_replier_send {R U Q} (query_map : T -> U) (reply_map : Q -> R) (func : U -> Msg Q) (a : Addr) (arg : T)
    : option (SenderFuture R) :=
  let arg := query_map arg in Some (FQuery R Q a (func arg) reply_map).
Definition filter_map_replier_send {R U Q} (query_filter_map : T -> option U) (reply_map : Q -> R) (func : U -> Msg Q)
    (a : Addr) (arg : T) : option (SenderFuture R) :=
  arg ← query_filter_map arg; Some (FQuery R Q a (func arg) reply_map).

(** Event sinks are not connected to sources but, for a common type of senders,
    are given the same meaning as in output ports. *)
Definition send {R} (s : Sender T R) : T -> option (SenderFuture R) :=
  match s in Sender _ R return T -> option (SenderFuture R) with
  | InputSender _ func a => input_send func a
  | MapInputSender _ _ map func a => map_input_send map func a
  | FilterMapInputSender _ _ filter_map func a => filter_map_input_send filter_map func a
  | EventSinkSender _ w => fun arg => Some (FWrite _ w arg)
  | MapEventSinkSender _ U map w => fun arg => Some (FWrite U w (map arg))
  | FilterMapEventSinkSender _ U filter_map w => fun arg => u ← filter_map arg; Some (FWrite U w u)
  | ReplierSender _ _ func a => replier_send func a
  | MapReplierSender _ _ _ _ query_map reply_map func a => map_replier_send query_map reply_map func a
  | FilterMapReplierSender _ _ _ _ qfm reply_map func a => filter_map_replier_send qfm reply_map func a
  end.

Definition send_owned {R} (s : Sender T R) : T -> option (SenderFuture R) :=
  match s in Sender _ R return T -> option (SenderFuture R) with
  | InputSender _ func a => input_send_owned func a
  | ReplierSender _ _ func a => replier_send_owned func a
  | s => send s
  end.
End Source.

(** ** Senders of output ports

    The senders that never filter are lifted by the blanket implementation of
    [Sender].  The flag says whether the reply channel of a replier is free, that
    is whether [receiver.sender()] returns a sender; [None] is the panic
    otherwise. *)
Section Output.
Context {T : Type}.

Definition out_input_send_owned (func : T -> Msg unit) (a : Addr) (arg : T) : SenderFuture unit := FSend a (func arg).
Definition out_input_send (func : T -> Msg unit) (a : Addr) (arg : T) : SenderFuture unit := out_input_send_owned func a arg.
Definition out_map_input_send {U} (map : T -> U) (func : U -> Msg unit) (a : Addr) (arg : T) : SenderFuture unit :=
  let arg := map arg in FSend a (func arg).
Definition out_filter_map_input_send {U} (filter_map : T -> option U) (func : U -> Msg unit) (a : Addr) (arg : T)
    : option (SenderFuture unit) :=
  arg ← filter_map arg; Some (FSend a (func arg)).
Definition out_sink_send_owned (w : Writer T) (arg : T) : SenderFuture unit := FWrite T w arg.
Definition out_sink_send (w : Writer T) (arg : T) : SenderFuture unit := out_sink_send_owned w arg.
Definition out_map_sink_send {U} (map : T -> U) (w : Writer U) (arg : T) : SenderFuture unit := FWrite U w (map arg).
Definition out_filter_map_sink_send {U} (filter_map : T -> option U) (w : Writer U) (arg : T) : option (SenderFuture unit) :=
  arg ← filter_map arg; Some (FWrite U w arg).
Definition out_replier_send_owned (free : bool) {R} (func : T -> Msg R) (a : Addr) (arg : T) : option (SenderFuture R) :=
  if free then Some (FQuery R R a (func arg) (fun r => r)) else None.
Definition out_replier_send (free : bool) {R} (func : T -> Msg R) (a : Addr) (arg : T) : option (SenderFuture R) :=
  out_replier_send_owned free func a arg.
Definition out_map_replier_send (free : bool) {R U Q} (query_map : T -> U) (reply_map : Q -> R) (func : U -> Msg Q)
    (a : Addr) (arg : T) : option (SenderFuture R) :=
  let arg := query_map arg in if free then Some (FQuery R Q a (func arg) reply_map) else None.
Definition out_filter_map_replier_send (free : bool) {R U Q} (query_filter_map : T -> option U) (reply_map : Q -> R)
    (func : U -> Msg Q) (a : Addr) (arg : T) : option (option (SenderFuture R)) :=
  match query_filter_map arg with
  | None => Some None
  | Some arg => if free then Some (Some (FQuery R Q a (func arg) reply_map)) else None
  end.

(** The outer option is the panic, the inner one the filter. *)
Definition out_send (free : bool) {R} (s : Sender T R) : T -> option (option (SenderFuture R)) :=
  match s in Sender _ R return T -> option (option (SenderFuture R)) with
  | InputSender _ func a => fun arg => Some (Some (out_input_send func a arg))
  | MapInputSender _ _ map func a => fun arg => Some (Some (out_map_input_send map func a arg))
  | FilterMapInputSender _ _ filter_map func a => fun arg => Some (out_filter_map_input_send filter_map func a arg)
  | EventSinkSender _ w => fun arg => Some (Some (out_sink_send w arg))
  | MapEventSinkSender _ _ map w => fun arg => Some (Some (out_map_sink_send map w arg))
  | FilterMapEventSinkSender _ _ filter_map w => fun arg => Some (out_filter_map_sink_send filter_map w arg)
  | ReplierSender _ _ func a => fun arg => f ← out_replier_send free func a arg; Some (Some f)
  | MapReplierSender _ _ _ _ query_map reply_map func a =>
      fun arg => f ← out_map_replier_send free query_map reply_map func a arg; Some (Some f)
  | FilterMapReplierSender _ _ _ _ qfm reply_map func a => out_filter_map_replier_send free qfm reply_map func a
  end.

Definition out_send_owned (free : bool) {R} (s : Sender T R) : T -> option (option (SenderFuture R)) :=
  match s in Sender _ R return T -> option (option (SenderFuture R)) with
  | InputSender _ func a => fun arg => Some (Some (out_input_send_owned func a arg))
  | EventSinkSender _ w => fun arg => Some (Some (out_sink_send_owned w arg))
  | ReplierSender _ _ func a => fun arg => f ← out_replier_send_owned free func a arg; Some (Some f)
  | s => out_send free s
  end.
End Output.

(** ** Polling *)
Record Env : Type := mkEnv {
  on_send : Addr -> Poll (Result unit SendError);
  on_recv : forall Q, Addr -> Msg Q -> Poll (Result Q unit) }.

(** What a poll does to the world. *)
Inductive Effect : Type :=
  | Sent (Q : Type) (sender : Addr) (m : Msg Q)
  | Written (U : Type) (writer : Writer U) (u : U).

Definition poll_reply (e : Env) R Q (a : Addr) (m : Msg Q) (reply_map : Q -> R)
    : Poll (Result R SendError) * SenderFuture R :=
  match on_recv e Q a m with
  | Ready (Ok q) => (Ready (Ok (reply_map q)), FDone R)
  | Ready (Err _) => (Ready (Err sendError), FDone R)
  | Pending => (Pending, FReply R Q a m reply_map)
  end.

Definition poll_sender {R} (e : Env) (f : SenderFuture R)
    : Poll (Result R SendError) * SenderFuture R * list Effect :=
  match f in SenderFuture R return Poll (Result R SendError) * SenderFuture R * list Effect with
  | FSend a m =>
      match on_send e a with
      | Ready (Ok _) => (Ready (Ok tt), FDone unit, [Sent unit a m])
      | Ready (Err _) => (Ready (Err sendError), FDone unit, [])
      | Pending => (Pending, FSend a m, [])
      end
  | FWrite U w u => (Ready (Ok tt), FDone unit, [Written U w u])
  | FQuery R Q a m reply_map =>
      match on_send e a with
      | Ready (Ok _) => (poll_reply e R Q a m reply_map, [Sent Q a m])
      | Ready (Err _) => (Ready (Err sendError), FDone R, [])
      | Pending => (Pending, FQuery R Q a m reply_map, [])
      end
  | FReply R Q a m reply_map => (poll_reply e R Q a m reply_map, [])
  | FDone R => (Pending, FDone R, [])
  end.

(** The future after [k] polls, the result of its [k]-th poll and the effects of
    its first [k] polls, in a changing environment. *)
Fixpoint after {R} (es : nat -> Env) (f : SenderFuture R) (k : nat) : SenderFuture R :=
  match k with 0 => f | S k => (poll_sender (es k) (after es f k)).1.2 end.
Definition outcomes {R} (es : nat -> Env) (f : SenderFuture R) (k : nat) : Poll (Result R SendError) :=
  (poll_sender (es k) (after es f k)).1.1.
Fixpoint effects {R} (es : nat -> Env) (f : SenderFuture R) (k : nat) : list Effect :=
  match k with 0 => [] | S k => effects es f k ++ (poll_sender (es k) (after es f k)).2 end.

(** The reply channel once the future of a replier is gone.  The sender of the reply is in the message: if the
    mailbox has not accepted the message, it was dropped with the future; if the reply or the error was
    received, it was used or dropped by the model; otherwise it is still in the mailbox or with the model, unless
    they have [handled] the message since. *)
Definition channel_free (handled : bool) {R} (f : SenderFuture R) : bool :=
  match f with FReply _ _ _ _ _ => handled | _ => true end.

(** ** Broadcasting *)

(** [BroadcasterInner::futures] of sources: the argument is moved to the last
    sender. *)
Fixpoint futures {T R} (senders : list (Sender T R)) (arg : T) : list (SenderFuture R) :=
  match senders with
  | [] => []
  | [sender] => option_list (send_owned sender arg)
  | sender :: senders => option_list (send sender arg) ++ futures senders arg
  end.

(** [BroadcasterInner::futures] of output ports. *)
Fixpoint out_futures {T R} (free : nat -> bool) (senders : list (Sender T R)) (arg : T) : option (list (SenderFuture R)) :=
  match senders with
  | [] => Some []
  | [sender] => f ← out_send_owned (free 0) sender arg; Some (option_list f)
  | sender :: senders =>
      f ← out_send (free 0) sender arg;
      fs ← out_futures (fun i => free (S i)) senders arg;
      Some (option_list f ++ fs)
  end.

(** The asynchronous part of [broadcast]: nothing to wait for, one future that
    is awaited directly, or a broadcast future. *)
Inductive Awaiting (R : Type) : Type :=
  | Immediate
  | Single (f : Fut R)
  | Multiple (bf : SourceBroadcaster.BroadcastFuture R).

(** Both [broadcast] methods of sources; an event broadcast discards the
    replies.  [os] gives the results of the polls of every future. *)
Definition source_broadcast {T R} (start_of : nat -> SenderFuture R -> Fut R)
    (senders : list (Sender T R)) (arg : T) : option (Awaiting R) :=
  match senders with
  | [] => Some (Immediate R)
  | [sender] => match send_owned sender arg with
                | None => Some (Immediate R)
                | Some fut => Some (Single R (start_of 0 fut))
                end
  | _ =>
      match imap start_of (futures senders arg) with
      | [] => Some (Immediate R)
      | [fut] => Some (Single R fut)
      | futs => bf ← SourceBroadcaster.new (SourceBroadcaster.SPending <$> futs); Some (Multiple R bf)
      end
  end.

(** Polling until the result is there: the replies, or the error. *)
Fixpoint await_single {R} (polls : nat) (f : Fut R) : option (Poll (Result (list R) SendError)) :=
  match polls with
  | 0 => Some Pending
  | S polls =>
      '(p, f) ← poll_fut f;
      match p with
      | Ready (Ok r) => Some (Ready (Ok [r]))
      | Ready (Err e) => Some (Ready (Err e))
      | Pending => await_single polls f
      end
  end.

Definition await {R} (polls : list (list (list nat))) (a : Awaiting R) : option (Poll (Result (list R) SendError)) :=
  match a with
  | Immediate _ => Some (match polls with [] => Pending | _ => Ready (Ok []) end)
  | Single _ f => await_single (length polls) f
  | Multiple _ bf =>
      '(p, _) ← SourceBroadcaster.drive polls bf;
      match p with
      | Ready (Ok l) => rs ← SourceBroadcaster.replies l; Some (Ready (Ok rs))
      | Ready (Err e) => Some (Ready (Err e))
      | Pending => Some Pending
      end
  end.

(** ** The broadcaster of an output port: its senders and the vector of
       replies *)
Record Broadcaster (T R : Type) : Type := mkBroadcaster {
  senders : list (Sender T R);
  outputs : list (option R) }.
#[global] Arguments mkBroadcaster {_ _} _ _.
#[global] Arguments senders {_ _} _.
#[global] Arguments outputs {_ _} _.

Definition broadcaster_default {T R} : Broadcaster T R := mkBroadcaster [] [].

Definition add {T R} (sender : Sender T R) (b : Broadcaster T R) : option (Broadcaster T R) :=
  if (Z.of_nat (length (senders b)) <? u32_max - 2)%Z
  then Some (mkBroadcaster (senders b ++ [sender]) (outputs b ++ [None])) else None.

Definition len {T R} (b : Broadcaster T R) : nat := length (senders b).

(** [Clone]: the senders are cloned, the replies are not. *)
Definition clone {T R} (b : Broadcaster T R) : Broadcaster T R :=
  mkBroadcaster (senders b) (replicate (length (outputs b)) None).

(** A direct wait for a single future, whose reply is stored at index 0. *)
Definition output_single {T R} (polls : nat) (f : Fut R) (b : Broadcaster T R)
    : option (Poll (Result (list R) SendError) * Broadcaster T R) :=
  p ← await_single polls f;
  match p with
  | Ready (Ok rs) =>
      _ ← outputs b !! 0;
      let outs := match rs with r :: _ => <[0 := Some r]> (outputs b) | [] => outputs b end in
      rs ← OutputBroadcaster.take_outputs 1 outs;
      Some (Ready (Ok rs), mkBroadcaster (senders b) outs)
  | _ => Some (p, b)
  end.

(** [QueryBroadcaster::broadcast] of an output port, polled until it is ready;
    the replies are taken out of the vector by the caller.  [free] says which
    reply channels are free. *)
Definition output_broadcast {T R} (free : nat -> bool) (start_of : nat -> SenderFuture R -> Fut R) (polls : list (list (list nat)))
    (arg : T) (b : Broadcaster T R) : option (Poll (Result (list R) SendError) * Broadcaster T R) :=
  match senders b with
  | [] => Some (match polls with [] => Pending | _ => Ready (Ok []) end, b)
  | [sender] =>
      f ← out_send_owned (free 0) sender arg;
      match f with
      | None => Some (match polls with [] => Pending | _ => Ready (Ok []) end, b)
      | Some fut => output_single (length polls) (start_of 0 fut) b
      end
  | _ =>
      fs ← out_futures free (senders b) arg;
      match imap start_of fs with
      | [] => Some (match polls with [] => Pending | _ => Ready (Ok []) end, b)
      | [fut] => output_single (length polls) fut b
      | futs =>
          bf ← OutputBroadcaster.new (outputs b) futs;
          '(p, bf) ← OutputBroadcaster.drive polls bf;
          let b := mkBroadcaster (senders b) (OutputBroadcaster.outputs bf) in
          match p with
          | Ready (Ok _) => rs ← OutputBroadcaster.take_outputs (length futs) (outputs b); Some (Ready (Ok rs), b)
          | Ready (Err e) => Some (Ready (Err e), b)
          | Pending => Some (Pending, b)
          end
      end
  end.
End Defs.
End Senders.
