(* ===== verification/SendersFacts.v ===== *)
(** * Senders and broadcasts: theorems *)

From S2P Require Import Prelude TaskSet Broadcaster BroadcasterFacts Senders.

Module SendersFacts.
Import Futures Senders BroadcasterFacts.

Section Facts.
Context {Addr : Type} {Msg Writer : Type -> Type}.
Notation SFut := (@SenderFuture Addr Msg Writer).
Notation Sndr := (@Sender Addr Msg Writer).
Implicit Types (es : nat -> @Env Addr Msg) (ess : nat -> nat -> @Env Addr Msg).

(** ** One message *)

(** What the future of a sender does to the world, and what its result means. *)
Definition effect_of {R} (f : SFut R) : list Effect :=
  match f with
  | FSend a m => [Sent unit a m]
  | FWrite U w u => [Written U w u]
  | FQuery _ Q a m _ => [Sent Q a m]
  | _ => []
  end.

Definition delivered es (k : nat) {R} (f : SFut R) : R -> Prop :=
  match f with
  | FSend a _ => fun _ => on_send (es k) a = Ready (Ok tt)
  | FWrite _ _ _ => fun _ => True
  | FQuery R Q a m reply_map => fun r => exists k0 q, k0 <= k /\ on_send (es k0) a = Ready (Ok tt) /\
      on_recv (es k) Q a m = Ready (Ok q) /\ r = reply_map q
  | _ => fun _ => False
  end.

(** The future has not been suspended yet. *)
Definition fresh {R} (f : SFut R) : bool := match f with FSend _ _ | FWrite _ _ _ | FQuery _ _ _ _ _ => true | _ => false end.

Lemma send_fresh {T R} (s : Sndr T R) arg f : send s arg = Some f -> fresh f = true.
Proof.
  destruct s; cbn [send]; try (intros [= <-]; done).
  all: intros H; apply bind_Some in H as (u & _ & [= <-]); done.
Qed.

(** A pending query: not yet sent, or sent once and waiting for its reply. *)
Lemma query_pending es {R Q} (a : Addr) (m : Msg Q) (reply_map : Q -> R) k :
  (forall j, j < k -> outcomes es (FQuery R Q a m reply_map : SFut R) j = Pending) ->
  (after es (FQuery R Q a m reply_map : SFut R) k = FQuery R Q a m reply_map /\
     effects es (FQuery R Q a m reply_map : SFut R) k = []) \/
  (after es (FQuery R Q a m reply_map : SFut R) k = FReply R Q a m reply_map /\
     effects es (FQuery R Q a m reply_map : SFut R) k = [Sent Q a m] /\
     exists k0, k0 < k /\ on_send (es k0) a = Ready (Ok tt)).
Proof.
  induction k as [|k IH]; intros Hp; [by left|]. pose proof (Hp k ltac:(lia)) as Hk. unfold outcomes in Hk.
  cbn [after effects]. destruct IH as [[Ha He]|(Ha & He & k0 & Hk0 & Hs)]; [intros j Hj; apply Hp; lia|..].
  all: rewrite Ha in *; rewrite He; cbn in *; unfold poll_reply in *.
  - destruct (on_send (es k) a) as [[[]|[]]|] eqn:Es; [|done|by left]. cbn in *.
    destruct (on_recv (es k) Q a m) as [[q|[]]|]; [done|done|]. right. split_and!; [done|done|]. exists k. split; [lia|done].
  - destruct (on_recv (es k) Q a m) as [[q|[]]|]; [done|done|]. right. split_and!; [done|done|]. exists k0. split; [lia|done].
Qed.

Lemma send_pending es (a : Addr) (m : Msg unit) k :
  (forall j, j < k -> outcomes es (FSend a m : SFut unit) j = Pending) ->
  after es (FSend a m : SFut unit) k = FSend a m /\ effects es (FSend a m : SFut unit) k = [].
Proof.
  induction k as [|k IH]; intros Hp; [done|]. pose proof (Hp k ltac:(lia)) as Hk. unfold outcomes in Hk.
  cbn [after effects]. destruct IH as [Ha He]; [intros j Hj; apply Hp; lia|].
  rewrite Ha in *. rewrite He. cbn in *.
  by destruct (on_send (es k) a) as [[[]|[]]|].
Qed.

Lemma future_ready es {R} (f : SFut R) k r : fresh f = true -> ready_at (outcomes es f) k (Ok r) ->
  delivered es k f r /\ effects es f (S k) = effect_of f.
Proof.
  intros Hf [Hr Hp]. destruct f as [a m|U w u|R Q a m rm|R Q a m rm|R]; try done; cbn [effects].
  - destruct (send_pending es a m k Hp) as [Ha He]. unfold outcomes in Hr. rewrite Ha in *. rewrite He. cbn in *.
    by destruct (on_send (es k) a) as [[[]|[]]|].
  - destruct k as [|k]; [done|]. specialize (Hp 0 ltac:(lia)). done.
  - unfold outcomes in Hr. destruct (query_pending es a m rm k Hp) as [[Ha He]|(Ha & He & k0 & Hk0 & Hs)];
      rewrite Ha in *; rewrite He; cbn in *; unfold poll_reply in *.
    + destruct (on_send (es k) a) as [[[]|[]]|] eqn:Es; try done. cbn in *.
      destruct (on_recv (es k) Q a m) as [[q|[]]|] eqn:Er; try done. cbn in Hr. injection Hr as <-. cbn. split; [|done]. by exists k, q.
    + destruct (on_recv (es k) Q a m) as [[q|[]]|] eqn:Er; try done. cbn in Hr. injection Hr as <-. cbn. split; [|done]. exists k0, q.
      split_and!; [lia|done..].
Qed.

Lemma send_owned_eq {T R} (s : Sndr T R) arg : send_owned s arg = send s arg.
Proof. by destruct s. Qed.

(** With a free reply channel, output ports send as sources do. *)
Lemma out_send_eq {T R} (s : Sndr T R) arg : out_send true s arg = Some (send s arg).
Proof.
  destruct s; cbn; try done. unfold out_filter_map_replier_send, filter_map_replier_send.
  by destruct (query_filter_map arg).
Qed.
Lemma out_send_owned_eq {T R} (s : Sndr T R) arg : out_send_owned true s arg = Some (send s arg).
Proof. rewrite <- out_send_eq. by destruct s. Qed.

(** An output port cannot send to a replier whose reply channel is not free, unless the argument is
    filtered out. *)
Definition replier {T R} (s : Sndr T R) : bool :=
  match s with ReplierSender _ _ _ _ | MapReplierSender _ _ _ _ _ _ _ _ | FilterMapReplierSender _ _ _ _ _ _ _ _ => true | _ => false end.
Definition blocked {T R} (free : bool) (s : Sndr T R) (arg : T) : Prop :=
  free = false /\ replier s = true /\ is_Some (send s arg).

Lemma out_send_cases {T R} free (s : Sndr T R) arg :
  (blocked free s arg /\ out_send free s arg = None) \/ (~ blocked free s arg /\ out_send free s arg = Some (send s arg)).
Proof.
  unfold blocked. destruct free; [right; split; [by intros []|apply out_send_eq]|].
  destruct s; cbn; try (right; split; [by intros (_ & ? & _)|done]); try (left; done).
  unfold out_filter_map_replier_send, filter_map_replier_send. destruct (query_filter_map arg); cbn; [left|right]; [done|].
  split; [|done]. by intros (_ & _ & [? ?]).
Qed.
Lemma out_send_owned_same {T R} free (s : Sndr T R) arg : out_send_owned free s arg = out_send free s arg.
Proof. by destruct s. Qed.

Lemma out_futures_cases {T R} (ss : list (Sndr T R)) arg : forall free : nat -> bool,
  ((exists i s, ss !! i = Some s /\ blocked (free i) s arg) /\ out_futures free ss arg = None) \/
  ((forall i s, ss !! i = Some s -> ~ blocked (free i) s arg) /\ out_futures free ss arg = Some (futures ss arg)).
Proof.
  induction ss as [|s ss IH]; intros free; [by right|]. destruct ss as [|s' ss].
  - cbn [out_futures futures]. rewrite out_send_owned_same, send_owned_eq.
    destruct (out_send_cases (free 0) s arg) as [[Hb ->]|[Hb ->]]; cbn [mbind option_bind]; [left|right].
    + split; [|done]. by exists 0, s.
    + split; [|done]. intros [|i] x Hx; [|done]. by injection Hx as <-.
  - change (out_futures free (s :: s' :: ss) arg) with
      (f ← out_send (free 0) s arg; fs ← out_futures (fun i => free (S i)) (s' :: ss) arg; Some (option_list f ++ fs)).
    destruct (out_send_cases (free 0) s arg) as [[Hb ->]|[Hb ->]]; cbn [mbind option_bind].
    + left. split; [|done]. by exists 0, s.
    + destruct (IH (fun i => free (S i))) as [[(i & x & Hx & Hbx) ->]|[Hall ->]]; cbn [mbind option_bind]; [left|right].
      * split; [|done]. by exists (S i), x.
      * split; [|done]. intros [|i] x Hx; [by injection Hx as <-|by apply (Hall i)].
Qed.

(** A future that has completed leaves its reply channel free. *)
Lemma ready_done es {R} (f : SFut R) k r : outcomes es f k = Ready r -> after es f (S k) = FDone R.
Proof.
  unfold outcomes. cbn [after]. destruct (after es f k) as [a m|U w u|R0 Q a m rm|R0 Q a m rm|R0]; cbn; unfold poll_reply;
    repeat case_match; try done.
Qed.
Lemma done_stays es {R} (f : SFut R) k k' : after es f k = FDone R -> k <= k' -> after es f k' = FDone R.
Proof. intros H. induction 1 as [|k' _ IH]; [done|]. cbn [after]. by rewrite IH. Qed.

Lemma futures_omap {T R} (ss : list (Sndr T R)) arg : futures ss arg = omap (fun s => send s arg) ss.
Proof.
  induction ss as [|s ss IH]; [done|]. destruct ss as [|s' ss].
  - cbn. rewrite send_owned_eq. by destruct (send s arg).
  - change (option_list (send s arg) ++ futures (s' :: ss) arg = omap (fun s => send s arg) (s :: s' :: ss)). rewrite IH.
    cbn [omap list_omap]. by destruct (send s arg).
Qed.

(** ** Broadcasts *)

(** Every future evolves in its own environment. *)
Definition start_in {R} (ess : nat -> nat -> @Env Addr Msg) (i : nat) (f : SFut R) : Fut R := start (outcomes (ess i) f).

Lemma start_in_imap {R} ess (l : list (SFut R)) : imap (start_in ess) l = start <$> imap (fun i f => outcomes (ess i) f) l.
Proof.
  revert ess. induction l as [|f l IH]; intros ess; [done|]. cbn. f_equal.
  change (imap (fun i => start_in (fun j => ess (S j)) i) l = start <$> imap (fun i f => outcomes (ess (S i)) f) l). apply IH.
Qed.

(** How often the future of index [i] of a broadcast to [n] futures is polled. *)
Definition polled (polls : list (list (list nat))) (n i : nat) : nat :=
  if decide (n = 1) then length polls else 1 + occurrences i (mjoin (mjoin polls)).

Definition result_ok {R} ess (polls : list (list (list nat))) (l : list (SFut R)) (p : Poll (Result (list R) SendError)) : Prop :=
  match p with
  | Ready (Ok rs) => length rs = length l /\
      forall i f r, l !! i = Some f -> rs !! i = Some r -> exists k, ready_at (outcomes (ess i) f) k (Ok r)
  | Ready (Err _) => exists i f k, l !! i = Some f /\ ready_at (outcomes (ess i) f) k (Err sendError)
  | Pending => exists i f, l !! i = Some f /\ forall j, j < polled polls (length l) i -> outcomes (ess i) f j = Pending
  end.

Lemma await_single_ok {R} n j (o : nat -> Poll (Result R SendError)) :
  (forall i, i < j -> o i = Pending) ->
  exists p, await_single n (mkFut o j false) = Some p /\
    match p with
    | Ready (Ok rs) => exists r k, rs = [r] /\ ready_at o k (Ok r)
    | Ready (Err _) => exists k, ready_at o k (Err sendError)
    | Pending => forall i, i < j + n -> o i = Pending
    end.
Proof.
  revert j. induction n as [|n IH]; intros j Hp; cbn.
  - exists Pending. split; [done|]. intros i Hi. apply Hp. lia.
  - destruct (o j) as [[r|[]]|] eqn:Eo; cbn.
    + eexists. split; [done|]. exists r, j. done.
    + eexists. split; [done|]. exists j. done.
    + destruct (IH (S j)) as (p & Hd & Hr).
      { intros i Hi. destruct (decide (i = j)) as [->|]; [done|apply Hp; lia]. }
      exists p. split; [done|]. destruct p as [[rs|e]|]; [done|done|]. intros i Hi. apply Hr. lia.
Qed.

Lemma await_single_result {R} ess polls (f : SFut R) :
  exists p, await_single (length polls) (start_in ess 0 f) = Some p /\ result_ok ess polls [f] p.
Proof.
  destruct (await_single_ok (length polls) 0 (outcomes (ess 0) f)) as (p & Hd & Hp); [lia|].
  exists p. split; [done|]. destruct p as [[rs|e]|]; cbn.
  - destruct Hp as (r & k & -> & Hr). split; [done|]. intros [|i] f' r' Hf Hr'; [|done]. cbn in *. simplify_eq. by exists k.
  - destruct Hp as [k Hk]. by exists 0, f, k.
  - exists 0, f. done.
Qed.

Lemma outcomes_lookup {R} ess (l : list (SFut R)) i o :
  imap (fun i f => outcomes (ess i) f) l !! i = Some o -> exists f, l !! i = Some f /\ o = outcomes (ess i) f.
Proof. rewrite list_lookup_imap. destruct (l !! i) as [f|]; [|done]. intros [= <-]. by exists f. Qed.

Lemma multiple_result {R} ess polls (l : list (SFut R)) :
  (Z.of_nat (length l) <= TaskSet.EMPTY)%Z -> length l <> 1 -> polls <> [] ->
  Forall (Forall (Forall (fun i => i < length l))) polls ->
  exists bf p, SourceBroadcaster.new (SourceBroadcaster.SPending <$> imap (start_in ess) l) = Some bf /\
    await polls (Multiple R bf) = Some p /\ result_ok ess polls l p.
Proof.
  intros Hl Hn Hne Hf. rewrite start_in_imap. set (os := imap (fun i f => outcomes (ess i) f) l).
  assert (length os = length l) as Hlen by (apply length_imap). rewrite <- list_fmap_compose.
  assert (exists bf, SourceBroadcaster.new (SourceBroadcaster.SPending ∘ start <$> os) = Some bf) as [bf Hbf].
  { unfold SourceBroadcaster.new, TaskSet.with_len. rewrite length_fmap, Hlen.
    rewrite (proj2 (Z.leb_le _ _)), (proj2 (Z.leb_le _ _)) by (unfold TaskSet.EMPTY, TaskSet.SLEEPING in *; lia). by eexists. }
  destruct (broadcast_ok os bf polls Hbf) as (p & bf' & Hd & Hp); [by rewrite Hlen|done|].
  exists bf. cbn [await]. rewrite Hd. cbn [mbind option_bind]. destruct p as [[fl|[]]|]; cbn [poll_ok] in Hp.
  - destruct (replies_ready os fl Hp) as (rs & -> & Hrl & Hrs). cbn. eexists. split; [done|]. split; [done|].
    split; [by rewrite Hrl|]. intros i f r Hi Hr. apply (Hrs i); [|done]. unfold os. by rewrite list_lookup_imap, Hi.
  - eexists. split; [done|]. split; [done|]. destruct Hp as (i & o & k & Ho & Hk).
    destruct (outcomes_lookup ess l i o Ho) as (f & Hfi & ->). by exists i, f, k.
  - eexists. split; [done|]. split; [done|]. destruct Hp as (Hb & Hc & _).
    destruct (pending_future os _ bf' Hb Hc) as (i & o & Ho & Hj).
    destruct (outcomes_lookup ess l i o Ho) as (f & Hfi & ->). exists i, f. split; [done|].
    unfold polled. by rewrite decide_False by done.
Qed.

Lemma broadcast_any {T R} ess polls (ss : list (Sndr T R)) arg :
  (Z.of_nat (length ss) <= TaskSet.EMPTY)%Z -> polls <> [] ->
  Forall (Forall (Forall (fun i => i < length (futures ss arg)))) polls ->
  exists p, (a ← source_broadcast (start_in ess) ss arg; await polls a) = Some p /\
    result_ok ess polls (futures ss arg) p.
Proof.
  intros Hl Hne Hf. assert (length (futures ss arg) <= length ss) as Hle.
  { rewrite futures_omap. clear. induction ss as [|s ss IH]; cbn; [done|]. destruct (send s arg); cbn; lia. }
  assert (forall q : option (Awaiting R), q = Some (Immediate R) -> futures ss arg = [] ->
    exists p, (a ← q; await polls a) = Some p /\ result_ok ess polls (futures ss arg) p) as Himm.
  { intros q -> Hnil. exists (Ready (Ok [])). destruct polls; [done|]. split; [done|]. rewrite Hnil. split; [done|]. done. }
  unfold source_broadcast. destruct ss as [|s [|s' ss]].
  - by apply Himm.
  - cbn [futures] in *. destruct (send_owned s arg) as [f|] eqn:Es; [|by apply Himm]. cbn [mbind option_bind option_list] in *.
    cbn [await]. by apply await_single_result.
  - destruct (futures (s :: s' :: ss) arg) as [|f [|f' l]] eqn:El; [by apply Himm|cbn; by apply await_single_result|].
    destruct (multiple_result ess polls (f :: f' :: l)) as (bf & p & Hbf & Hp & Hr); [cbn in *; lia|done|done|done|].
    exists p. split; [|done]. cbn [imap] in *. rewrite Hbf. done.
Qed.

(** ** Output ports *)

Lemma output_single_equiv {T R} n (f : Fut R) (b : @Broadcaster Addr Msg Writer T R) p :
  outputs b <> [] -> await_single n f = Some p ->
  exists b', output_single n f b = Some (p, b') /\ senders b' = senders b /\ length (outputs b') = length (outputs b).
Proof.
  intros Hne Ha. unfold output_single. rewrite Ha. cbn [mbind option_bind].
  destruct p as [[rs|e]|]; [|by exists b..]. destruct b as [ss outs]; cbn [outputs senders] in *.
  destruct outs as [|o outs]; [done|]. cbn [lookup list_lookup mbind option_bind].
  assert (exists r, rs = [r]) as [r ->].
  { revert f Ha. induction n as [|n IH]; intros f; cbn; [done|]. destruct (poll_fut f) as [[q f']|]; [|done]. cbn.
    destruct q as [[r|e]|]; [intros [= <-]; by exists r|done|apply IH]. }
  eexists. split; [done|]. done.
Qed.

Lemma output_multiple_equiv {R} (outs : list (option R)) ess polls (l : list (SFut R)) p bf :
  length l <= length outs -> Forall (Forall (Forall (fun i => i < length l))) polls ->
  SourceBroadcaster.new (SourceBroadcaster.SPending <$> imap (start_in ess) l) = Some bf ->
  await polls (Multiple R bf) = Some p ->
  exists ob q ob', OutputBroadcaster.new outs (imap (start_in ess) l) = Some ob /\
    OutputBroadcaster.drive polls ob = Some (q, ob') /\ length (OutputBroadcaster.outputs ob') = length outs /\
    match q with
    | Ready (Ok _) => exists rs, OutputBroadcaster.take_outputs (length l) (OutputBroadcaster.outputs ob') = Some rs /\ p = Ready (Ok rs)
    | Ready (Err e) => p = Ready (Err e)
    | Pending => p = Pending
    end.
Proof.
  intros Hle Hf Hbf Hp. rewrite start_in_imap in *. set (os := imap (fun i f => outcomes (ess i) f) l) in *.
  assert (length os = length l) as Hlen by (apply length_imap).
  assert (exists ob, OutputBroadcaster.new outs (start <$> os) = Some ob) as [ob Hob].
  { revert Hbf. unfold SourceBroadcaster.new, OutputBroadcaster.new, TaskSet.with_len, TaskSet.resize. rewrite !length_fmap.
    destruct (_ && _); [|done]. intros _. by eexists. }
  destruct (new_wide outs (start <$> os) ob) as (Hw & Hfu & Hout & Hab); [by rewrite length_fmap, Hlen|done|].
  rewrite Hbf in Hab. injection Hab as ->. rewrite length_fmap, Hlen in Hout.
  pose proof (drive_sim polls ob Hw) as H. rewrite Hfu, length_fmap, Hlen in H. specialize (H (fun _ => Hout) Hf).
  cbn [await] in Hp. destruct (OutputBroadcaster.drive polls ob) as [[q ob']|] eqn:Ed; [|by rewrite H in Hp].
  destruct H as (q' & sb & Hd & Hw' & Hl & ->). rewrite Hd in Hp. cbn [mbind option_bind] in Hp.
  exists ob, q, ob'. split; [done|]. split; [done|]. split.
  { rewrite (drive_len _ _ _ _ Ed). revert Hob. unfold OutputBroadcaster.new. destruct (TaskSet.resize _ _); [|done].
    intros [= <-]. cbn. rewrite length_app, length_replicate, length_drop, length_fmap, Hlen. lia. }
  destruct q as [[[]|e]|]; [|congruence..].
  cbn [abs SourceBroadcaster.future_states] in Hp. rewrite <- take_outputs_replies, Hl in Hp by done.
  destruct (OutputBroadcaster.take_outputs _ _) as [rs|]; [|done]. exists rs. split; [done|]. by injection Hp.
Qed.
End Facts.

(** ** Claims *)

(** C20: a query (or an event) broadcast by a source reaches every connected
    port that does not filter it out, and returns their replies in the order of
    connection.  For every list of senders (none, one or several), however the
    mailboxes accept the messages and the replies arrive, and whatever the
    wake-ups and polls, the broadcast never panics; when it completes with
    replies there is one per sender that does not filter the argument, in order;
    each of them is the mapped reply received for the mapped argument after the
    message was accepted by the mailbox, and the message was sent exactly once;
    it fails only if one of the messages fails; it is pending only if one of the
    futures was pending at each of its polls. *)
Theorem query_broadcast_replies {Addr : Type} {Msg Writer : Type -> Type} {T R} (ss : list (@Sender Addr Msg Writer T R)) arg
    (ess : nat -> nat -> @Env Addr Msg) polls :
  (Z.of_nat (length ss) <= u32_max - 2)%Z -> polls <> [] ->
  Forall (Forall (Forall (fun i => i < length (omap (fun s => send s arg) ss)))) polls ->
  exists p, (a ← source_broadcast (start_in ess) ss arg; await polls a) = Some p /\
    match p with
    | Ready (Ok rs) => length rs = length (omap (fun s => send s arg) ss) /\
        forall i f r, omap (fun s => send s arg) ss !! i = Some f -> rs !! i = Some r ->
          exists k, delivered (ess i) k f r /\ effects (ess i) f (S k) = effect_of f
    | Ready (Err _) => exists i f k, omap (fun s => send s arg) ss !! i = Some f /\
        ready_at (outcomes (ess i) f) k (Err sendError)
    | Pending => exists i f, omap (fun s => send s arg) ss !! i = Some f /\
        forall j, j < polled polls (length (omap (fun s => send s arg) ss)) i -> outcomes (ess i) f j = Pending
    end.
Proof.
  intros Hl Hne Hf. rewrite <- futures_omap in *.
  destruct (broadcast_any ess polls ss arg) as (p & Hp & Hr); [unfold TaskSet.EMPTY; lia|done|done|].
  exists p. split; [done|]. destruct p as [[rs|e]|]; [|done|done]. destruct Hr as [Hrl Hr]. split; [done|].
  intros i f r Hi Hri. destruct (Hr i f r Hi Hri) as [k Hk]. exists k. apply future_ready; [|done].
  rewrite futures_omap in Hi. apply list_elem_of_lookup_2 in Hi. apply list_elem_of_omap in Hi as (s & _ & Hs).
  by eapply send_fresh.
Qed.

Section Output.
Context {Addr : Type} {Msg Writer : Type -> Type} {T R : Type}.

(** With no blocked sender, the equivalence. *)
Lemma output_broadcast_same (b : @Broadcaster Addr Msg Writer T R) arg
    (free : nat -> bool) (ess : nat -> nat -> @Env Addr Msg) polls :
  (forall i s, senders b !! i = Some s -> ~ blocked (free i) s arg) ->
  (Z.of_nat (len b) <= u32_max - 2)%Z -> length (outputs b) = len b -> polls <> [] ->
  Forall (Forall (Forall (fun i => i < length (omap (fun s => send s arg) (senders b))))) polls ->
  exists p b', output_broadcast free (start_in ess) polls arg b = Some (p, b') /\
    (a ← source_broadcast (start_in ess) (senders b) arg; await polls a) = Some p /\
    senders b' = senders b /\ length (outputs b') = len b' /\
    (forall rs, p = Ready (Ok rs) -> forall i f, omap (fun s => send s arg) (senders b) !! i = Some f ->
       exists k, forall k' handled, k <= k' -> channel_free handled (after (ess i) f k') = true).
Proof.
  intros Hfree Hl Ho Hne Hf.
  assert (exists p b', output_broadcast free (start_in ess) polls arg b = Some (p, b') /\
    (a ← source_broadcast (start_in ess) (senders b) arg; await polls a) = Some p /\
    senders b' = senders b /\ length (outputs b') = len b') as (p & b' & H1 & H2 & H3 & H4); cycle 1.
  { exists p, b'. split_and!; [done..|]. intros rs -> i f Hi. rewrite <- futures_omap in *.
    destruct (broadcast_any ess polls (senders b) arg) as (p & Hp & Hr); [unfold TaskSet.EMPTY; unfold len in Hl; lia|done|done|].
    rewrite H2 in Hp. injection Hp as <-. destruct Hr as [Hrl Hr].
    destruct (lookup_lt_is_Some_2 rs i) as [r Hri]; [rewrite Hrl; by eapply lookup_lt_Some|].
    destruct (Hr i f r Hi Hri) as [k [Hk _]]. exists (S k). intros k' handled Hkk.
    by rewrite (done_stays _ _ _ _ (ready_done _ _ _ _ Hk) Hkk). }
  unfold len in *. rewrite <- futures_omap in *.
  destruct (broadcast_any ess polls (senders b) arg) as (p & Hp & _); [unfold TaskSet.EMPTY; lia|done|done|].
  destruct b as [ss outs]; cbn [senders outputs] in *. exists p. unfold output_broadcast, source_broadcast in *.
  cbn [senders outputs] in *. destruct ss as [|s [|s' ss]].
  - rewrite Hp. injection Hp as <-. by eexists.
  - assert (outs <> []) as Hout by (by intros ->). rewrite out_send_owned_same, send_owned_eq in *.
    destruct (out_send_cases (free 0) s arg) as [[Hb _]|[_ ->]]; [by destruct (Hfree 0 s)|]. cbn [mbind option_bind].
    destruct (send s arg) as [f|]; cbn [mbind option_bind] in *; rewrite Hp.
    + destruct (output_single_equiv (length polls) (start_in ess 0 f) (mkBroadcaster [s] outs) p Hout Hp) as (b' & Hb & Hs & Hlb).
      exists b'. split; [done|]. split; [done|]. split; [done|]. by rewrite Hs, Hlb.
    + injection Hp as <-. by eexists.
  - assert (outs <> []) as Hout by (by intros ->). rewrite Hp.
    destruct (out_futures_cases (s :: s' :: ss) arg free) as [[(i & x & Hx & Hb) _]|[_ ->]]; [by destruct (Hfree i x)|].
    cbn [mbind option_bind].
    assert (length (futures (s :: s' :: ss) arg) <= length outs) as Hle.
    { rewrite Ho, futures_omap. generalize (s :: s' :: ss). clear. induction l as [|x l IH]; cbn; [done|].
      destruct (send x arg); cbn; lia. }
    destruct (futures (s :: s' :: ss) arg) as [|f [|f' l]]; cbn [imap] in *.
    + injection Hp as <-. by eexists.
    + destruct (output_single_equiv (length polls) (start_in ess 0 f) (mkBroadcaster (s :: s' :: ss) outs) p Hout Hp) as (b' & Hb & Hs & Hlb).
      exists b'. split; [done|]. split; [done|]. split; [done|]. by rewrite Hs, Hlb.
    + destruct (SourceBroadcaster.new _) as [bf|] eqn:Hbf; [|done].
      destruct (output_multiple_equiv outs ess polls (f :: f' :: l) p bf Hle Hf Hbf Hp) as (ob & q & ob' & Hob & Hd & Hlo & Hq).
      cbn [imap] in Hob. rewrite Hob. cbn [mbind option_bind]. rewrite Hd. cbn [mbind option_bind outputs].
      destruct q as [[u|e]|]; [|subst p; eexists; (split; [done|]); cbn; by rewrite Hlo..].
      destruct Hq as (rs & Hrs & ->).
      match goal with |- context [OutputBroadcaster.take_outputs ?n _] =>
        replace n with (length (f :: f' :: l)) by (cbn; by rewrite length_imap) end.
      rewrite Hrs. eexists. split; [done|]. cbn. by rewrite Hlo.
Qed.

(** With a blocked sender, the panic. *)
Lemma output_broadcast_blocked (b : @Broadcaster Addr Msg Writer T R) arg
    (free : nat -> bool) start_of polls i s :
  senders b !! i = Some s -> blocked (free i) s arg -> output_broadcast free start_of polls arg b = None.
Proof.
  intros Hi Hb. unfold output_broadcast. destruct (senders b) as [|x [|y ss]] eqn:E; [done|..].
  - destruct i as [|i]; [|done]. injection Hi as ->. rewrite out_send_owned_same.
    by destruct (out_send_cases (free 0) s arg) as [[_ ->]|[? _]].
  - by destruct (out_futures_cases (x :: y :: ss) arg free) as [[_ ->]|[Hn _]]; [|destruct (Hn i s)].
Qed.
End Output.

(** C22: broadcasting from an output port is equivalent to broadcasting from a
    source connected to the same senders, whatever the vector of replies holds
    from earlier broadcasts, as long as no reply channel that is needed is occupied: the same polls
    give the same result, the broadcaster can be used again, and if the replies were
    returned then every reply channel that was used is free again.  A sender is [blocked] if it is a replier that does not filter the
    argument out and whose reply channel is occupied, by a query that was cancelled, or was given up when another
    one failed, while the model had not handled it ([channel_free]); the broadcast is then a panic. *)
Theorem output_broadcast_equiv {Addr : Type} {Msg Writer : Type -> Type} {T R} (b : @Broadcaster Addr Msg Writer T R) arg
    (free : nat -> bool) (ess : nat -> nat -> @Env Addr Msg) polls :
  (Z.of_nat (len b) <= u32_max - 2)%Z -> length (outputs b) = len b -> polls <> [] ->
  Forall (Forall (Forall (fun i => i < length (omap (fun s => send s arg) (senders b))))) polls ->
  ((exists i s, senders b !! i = Some s /\ blocked (free i) s arg) ->
   output_broadcast free (start_in ess) polls arg b = None) /\
  ((forall i s, senders b !! i = Some s -> ~ blocked (free i) s arg) ->
   exists p b', output_broadcast free (start_in ess) polls arg b = Some (p, b') /\
    (a ← source_broadcast (start_in ess) (senders b) arg; await polls a) = Some p /\
    senders b' = senders b /\ length (outputs b') = len b' /\
    (forall rs, p = Ready (Ok rs) -> forall i f, omap (fun s => send s arg) (senders b) !! i = Some f ->
       exists k, forall k' handled, k <= k' -> channel_free handled (after (ess i) f k') = true)).
Proof.
  intros Hl Ho Hne Hf. split.
  - intros (i & s & Hi & Hb). by eapply output_broadcast_blocked.
  - intros Hfree. by apply output_broadcast_same.
Qed.

(** ** Examples: three repliers that answer with the message itself; the mailbox
    of address [a] accepts messages from the [a]-th poll on, and the second
    sender filters out odd arguments. *)
Definition echo_env (i k : nat) : @Env nat (fun Q => Q) :=
  mkEnv (fun a => if decide (k < a) then Pending else Ready (Ok tt)) (fun Q a m => Ready (Ok m)).
Definition demo_senders : list (@Sender nat (fun Q => Q) (fun _ => unit) nat nat) :=
  [ReplierSender nat nat (fun t => t) 0;
   FilterMapReplierSender nat nat nat nat (fun t => if Nat.odd t then None else Some t) (fun q => q) (fun u => u) 0;
   MapReplierSender nat nat nat nat (fun t => 2 * t) (fun q => q + 100) (fun u => u) 1].

Lemma query_broadcast_replies_witness :
  exists p, (a ← source_broadcast (start_in echo_env) demo_senders 7; await [[]; [[1]]] a) = Some p /\
    p = Ready (Ok [7; 114]).
Proof.
  destruct (query_broadcast_replies demo_senders 7 echo_env [[]; [[1]]]) as (p & Hp & Hr);
    [vm_compute; discriminate|done|repeat constructor|].
  exists p. split; [exact Hp|]. vm_compute in Hp. injection Hp as <-. reflexivity.
Defined.

(** The argument 7 is filtered out by the second sender, whose reply channel is occupied. *)
Definition second_occupied (i : nat) : bool := negb (i =? 1).
Lemma output_broadcast_equiv_witness :
  (exists p b', output_broadcast second_occupied (start_in echo_env) [[]; [[1]]] 7 (mkBroadcaster demo_senders [Some 1; Some 2; None])
    = Some (p, b') /\ p = Ready (Ok [7; 114]) /\ length (outputs b') = 3) /\
  output_broadcast second_occupied (start_in echo_env) [[]; [[1]]] 8 (mkBroadcaster demo_senders [Some 1; Some 2; None]) = None.
Proof.
  split.
  - destruct (output_broadcast_equiv (mkBroadcaster demo_senders [Some 1; Some 2; None]) 7 second_occupied echo_env [[]; [[1]]])
      as [_ Hs]; [vm_compute; discriminate|done|done|repeat constructor|].
    destruct Hs as (p & b' & Hp & Hs & Hb & Hl & _).
    + intros [|[|[|i]]] s [= <-] (H1 & H2 & H3); try discriminate H1. destruct H3 as [f H3]. discriminate H3.
    + exists p, b'. split; [exact Hp|]. split; [vm_compute in Hs; injection Hs as <-; reflexivity|].
      rewrite Hl. unfold len. rewrite Hb. reflexivity.
  - apply (output_broadcast_equiv (mkBroadcaster demo_senders [Some 1; Some 2; None]) 8 second_occupied echo_env [[]; [[1]]]);
      [vm_compute; discriminate|done|done|repeat constructor|].
    eexists 1, _. split; [reflexivity|]. split; [done|]. split; [done|]. by eexists.
Defined.

(** A query whose future is dropped while the model has not replied: the reply channel is occupied, and the next
    query of the same port is a panic as long as the model has not handled the first one. *)
Definition silent_env (i k : nat) : @Env nat (fun Q => Q) := mkEnv (fun a => Ready (Ok tt)) (fun Q a m => Pending).
Example cancelled_query_panics :
  let f := FQuery nat nat 0 5 (fun r => r) : @SenderFuture nat (fun Q => Q) (fun _ => unit) nat in
  let b := mkBroadcaster [ReplierSender nat nat (fun t => t) 0 : @Sender nat (fun Q => Q) (fun _ => unit) nat nat] [None] in
  let free handled := channel_free handled (after (silent_env 0) f 1) in
  fst <$> output_broadcast (fun _ => true) (start_in silent_env) [[]] 5 b = Some Pending /\
  output_broadcast (fun _ => free false) (start_in silent_env) [[]] 6 b = None /\
  fst <$> output_broadcast (fun _ => free true) (start_in silent_env) [[]] 6 b = Some Pending.
Proof. vm_compute. auto. Qed.
End SendersFacts.
