(* ===== verification/Ports.v ===== *)
(** * Output ports: [ports/output.rs]

    The ports of a model and their clones, which share one list of senders behind
    a cached lock ([CachedRwLock]); its calls are atomic here: connecting takes
    the lock, sending brings the cache of the clone up to date and uses it as a
    scratchpad.  [None] is a panic: too many connections, or a reply channel that
    is not free. *)

From S2P Require Import Prelude TaskSet Broadcaster BroadcasterFacts Senders.

Module Ports.
Import Futures Senders.

Section Defs.
Context {Addr : Type} {Msg Writer : Type -> Type}.
Notation Sender := (@Sender Addr Msg Writer).
Notation Broadcaster := (@Broadcaster Addr Msg Writer).
Notation SenderFuture := (@SenderFuture Addr Msg Writer).

(** [EventBroadcaster::broadcast], polled until it is ready. *)
Definition discard {R} (p : Poll (Result R SendError)) : Poll (Result unit SendError) :=
  match p with Ready (Ok _) => Ready (Ok tt) | Ready (Err e) => Ready (Err e) | Pending => Pending end.

Definition event_broadcast {T} (free : nat -> bool) (start_of : nat -> SenderFuture unit -> Fut unit)
    (polls : list (list (list nat))) (arg : T) (b : Broadcaster T unit)
    : option (Poll (Result unit SendError) * Broadcaster T unit) :=
  let now := match polls with [] => Pending | _ => Ready (Ok tt) end in
  match senders b with
  | [] => Some (now, b)
  | [sender] =>
      f ← out_send_owned (free 0) sender arg;
      match f with
      | None => Some (now, b)
      | Some fut => p ← await_single (length polls) (start_of 0 fut); Some (discard p, b)
      end
  | _ =>
      fs ← out_futures free (senders b) arg;
      match imap start_of fs with
      | [] => Some (now, b)
      | [fut] => p ← await_single (length polls) fut; Some (discard p, b)
      | futs =>
          bf ← OutputBroadcaster.new (outputs b) futs;
          '(p, bf) ← OutputBroadcaster.drive polls bf;
          Some (discard p, mkBroadcaster (senders b) (OutputBroadcaster.outputs bf))
      end
  end.

(** ** A port and its clones *)
Record Clone (T R : Type) : Type := mkClone { value : Broadcaster T R; epoch : nat }.
#[global] Arguments mkClone {_ _} _ _.
#[global] Arguments value {_ _} _.
#[global] Arguments epoch {_ _} _.

(** The port; a reply type of [unit] is an [Output], any other a [Requestor]. *)
Record Port (T R : Type) : Type := mkPort {
  shared : Broadcaster T R;
  shared_epoch : nat;
  clones : list (Clone T R) }.
#[global] Arguments mkPort {_ _} _ _ _.
#[global] Arguments shared {_ _} _.
#[global] Arguments shared_epoch {_ _} _.
#[global] Arguments clones {_ _} _.

Definition new {T R} : Port T R := mkPort broadcaster_default 0 [mkClone broadcaster_default 0].

Definition clone_port {T R} (t : nat) (p : Port T R) : option (Port T R) :=
  c ← clones p !! t; Some (mkPort (shared p) (shared_epoch p) (clones p ++ [mkClone (clone (value c)) (epoch c)])).

(** [self.broadcaster.write().unwrap().add(sender)] *)
Definition write_add {T R} (sender : Sender T R) (p : Port T R) : option (Port T R) :=
  b ← add sender (shared p); Some (mkPort b (S (shared_epoch p)) (clones p)).

Definition connect {T} (input : T -> Msg unit) (address : Addr) : Port T unit -> option (Port T unit) :=
  write_add (InputSender T input address).
Definition connect_sink {T} (sink : Writer T) : Port T unit -> option (Port T unit) := write_add (EventSinkSender T sink).
Definition map_connect {T U} (map : T -> U) (input : U -> Msg unit) (address : Addr) : Port T unit -> option (Port T unit) :=
  write_add (MapInputSender T U map input address).
Definition map_connect_sink {T U} (map : T -> U) (sink : Writer U) : Port T unit -> option (Port T unit) :=
  write_add (MapEventSinkSender T U map sink).
Definition filter_map_connect {T U} (filter_map : T -> option U) (input : U -> Msg unit) (address : Addr)
    : Port T unit -> option (Port T unit) :=
  write_add (FilterMapInputSender T U filter_map input address).
Definition filter_map_connect_sink {T U} (filter_map : T -> option U) (sink : Writer U) : Port T unit -> option (Port T unit) :=
  write_add (FilterMapEventSinkSender T U filter_map sink).
Definition requestor_connect {T R} (replier : T -> Msg R) (address : Addr) : Port T R -> option (Port T R) :=
  write_add (ReplierSender T R replier address).
Definition requestor_map_connect {T R U Q} (query_map : T -> U) (reply_map : Q -> R) (replier : U -> Msg Q) (address : Addr)
    : Port T R -> option (Port T R) :=
  write_add (MapReplierSender T R U Q query_map reply_map replier address).
Definition requestor_filter_map_connect {T R U Q} (query_filter_map : T -> option U) (reply_map : Q -> R) (replier : U -> Msg Q)
    (address : Addr) : Port T R -> option (Port T R) :=
  write_add (FilterMapReplierSender T R U Q query_filter_map reply_map replier address).

(** [write_scratchpad]: the cache of a clone, brought up to date. *)
Definition scratchpad {T R} (c : Clone T R) (p : Port T R) : Clone T R :=
  if shared_epoch p =? epoch c then c else mkClone (clone (shared p)) (shared_epoch p).

Definition set_clone {T R} (t : nat) (c : Clone T R) (p : Port T R) : Port T R :=
  mkPort (shared p) (shared_epoch p) (<[t := c]> (clones p)).

(** [Output::send] and [Requestor::send], polled as told by [polls]; an error is
    thrown as a panic with the payload [SendError]. *)
Definition send_event {T} free start_of polls (t : nat) (arg : T) (p : Port T unit)
    : option (Poll (Result unit SendError) * Port T unit) :=
  c ← clones p !! t;
  let c := scratchpad c p in
  '(r, b) ← event_broadcast free start_of polls arg (value c);
  Some (r, set_clone t (mkClone b (epoch c)) p).
Definition send_query {T R} free start_of polls (t : nat) (arg : T) (p : Port T R)
    : option (Poll (Result (list R) SendError) * Port T R) :=
  c ← clones p !! t;
  let c := scratchpad c p in
  '(r, b) ← output_broadcast free start_of polls arg (value c);
  Some (r, set_clone t (mkClone b (epoch c)) p).

(** ** [UniRequestor]

    [None] is a dummy port, made by a deserialization without registry. *)
Definition UniRequestor (T R : Type) : Type := option (Sender T R).
Definition uni_new {T R} (replier : T -> Msg R) (address : Addr) : UniRequestor T R := Some (ReplierSender T R replier address).
Definition uni_with_map {T R U Q} (query_map : T -> U) (reply_map : Q -> R) (replier : U -> Msg Q) (address : Addr)
    : UniRequestor T R :=
  Some (MapReplierSender T R U Q query_map reply_map replier address).

(** [FailSender::send] and [FailSender::send_owned] *)
Definition fail_send {T R} (_ : T) : option (SenderFuture R) := None.

(** The senders that never filter, as [InfallibleSender]s: the call of
    [send_owned], then the wait for the reply. *)
Definition uni_send {T R} (free : bool) (start_of : SenderFuture R -> Fut R) (polls : nat) (arg : T) (u : UniRequestor T R)
    : option (Poll (Result R SendError)) :=
  f ← match u with None => Some <$> fail_send arg | Some s => out_send_owned free s arg end;
  fut ← f;
  p ← await_single polls (start_of fut);
  match p with
  | Ready (Ok rs) => r ← head rs; Some (Ready (Ok r))
  | Ready (Err e) => Some (Ready (Err e))
  | Pending => Some Pending
  end.
End Defs.
#[global] Arguments Port : clear implicits.

(** ** Serialization

    The ports of a model are not written out: serializing a port pushes a clone of
    it onto the registry of the thread, if there is one, and deserializing takes
    the first one, which has to be of the expected type.  [H] are the ports,
    [type_of] gives their type. *)
Module Registry.
Section Defs.
Context {TypeId H : Type} `{EqDecision TypeId} (type_of : H -> TypeId) (clone : H -> H) (default : TypeId -> H).

Definition PortsReg : Type := list H.

(** [None]: no registry is set. *)
Definition serialize (h : H) (reg : option PortsReg) : option PortsReg :=
  match reg with Some r => Some (r ++ [clone h]) | None => None end.

(** The outer option is the panic: empty registry, or a port of another type. *)
Definition deserialize (t : TypeId) (reg : option PortsReg) : option (H * option PortsReg) :=
  match reg with
  | None => Some (default t, None)
  | Some [] => None
  | Some (h :: r) => if decide (type_of h = t) then Some (h, Some r) else None
  end.

(** The ports of a model, one after the other. *)
Fixpoint serialize_all (hs : list H) (reg : option PortsReg) : option PortsReg :=
  match hs with [] => reg | h :: hs => serialize_all hs (serialize h reg) end.
Fixpoint deserialize_all (ts : list TypeId) (reg : option PortsReg) : option (list H * option PortsReg) :=
  match ts with
  | [] => Some ([], reg)
  | t :: ts => '(h, reg) ← deserialize t reg; '(hs, reg) ← deserialize_all ts reg; Some (h :: hs, reg)
  end.

Hypothesis clone_type : forall h, type_of (clone h) = type_of h.

Lemma serialize_all_app hs r : serialize_all hs (Some r) = Some (r ++ (clone <$> hs)).
Proof.
  revert r. induction hs as [|h hs IH]; intros r; cbn; [by rewrite app_nil_r|]. by rewrite IH, <- app_assoc.
Qed.

Lemma deserialize_all_app hs r : deserialize_all (type_of <$> hs) (Some ((clone <$> hs) ++ r)) = Some (clone <$> hs, Some r).
Proof.
  revert r. induction hs as [|h hs IH]; intros r; [done|].
  cbn [fmap list_fmap app deserialize_all deserialize]. rewrite decide_True by done. cbn [mbind option_bind].
  by rewrite IH.
Qed.

(** Restoring the ports of a model: deserialized in the order in which they were
    serialized, they are clones of the serialized ports, and the registry is left
    as it was; if the registry holds only these ports, it fails as soon as one
    port more is asked for. *)
Theorem ports_roundtrip hs t :
  deserialize_all (type_of <$> hs) (serialize_all hs (Some [])) = Some (clone <$> hs, Some []) /\
  deserialize_all ((type_of <$> hs) ++ [t]) (serialize_all hs (Some [])) = None.
Proof.
  rewrite serialize_all_app. cbn [app]. split.
  - rewrite <- (app_nil_r (clone <$> hs)) at 1. apply deserialize_all_app.
  - induction hs as [|h hs IH]; [done|]. cbn. rewrite decide_True by done. cbn. cbn in IH. by rewrite IH.
Qed.
End Defs.
End Registry.

(** ** Properties *)
Section Facts.
Context {Addr : Type} {Msg Writer : Type -> Type}.
Notation Sender := (@Sender Addr Msg Writer).
Notation Port := (@Port Addr Msg Writer).
Notation Broadcaster := (@Broadcaster Addr Msg Writer).

Lemma output_single_event {T} n (f : Fut unit) (b b' : Broadcaster T unit) p : output_single n f b = Some (p, b') ->
  exists p', await_single n f = Some p' /\ discard p' = discard p.
Proof.
  unfold output_single. intros H. destruct (await_single n f) as [p'|]; [|done]. exists p'. split; [done|].
  cbn [mbind option_bind] in H. destruct p' as [[rs|e]|]; [|by injection H as <- _..].
  destruct (outputs b !! 0); [|done]. cbn [mbind option_bind] in H. destruct (OutputBroadcaster.take_outputs _ _); [|done].
  cbn [mbind option_bind] in H. by injection H as <- _.
Qed.

(** An event broadcast is a query broadcast whose replies are discarded. *)
Theorem event_broadcast_spec {T} free start_of polls (arg : T) (b b' : Broadcaster T unit) p :
  output_broadcast free start_of polls arg b = Some (p, b') ->
  exists b'', event_broadcast free start_of polls arg b = Some (discard p, b'').
Proof.
  assert (forall b0 : Broadcaster T unit, Some (match polls with [] => Pending | _ => Ready (Ok []) end, b0) = Some (p, b') ->
    discard p = match polls with [] => Pending | _ => Ready (Ok tt) end) as Hnow by (intros b0 [= <- _]; by destruct polls).
  assert (forall f b0, output_single (length polls) f b0 = Some (p, b') ->
    (r ← await_single (length polls) f; Some (discard r, b0)) = Some (discard p, b0)) as Hone.
  { intros f b0 (p' & -> & <-)%output_single_event. done. }
  unfold output_broadcast, event_broadcast. destruct (senders b) as [|s [|s' ss]].
  - intros H. rewrite <- (Hnow _ H). eauto.
  - destruct (out_send_owned (free 0) s arg) as [[f|]|]; [| |done]; cbn [mbind option_bind]; intros H.
    + rewrite (Hone _ _ H). eauto.
    + rewrite <- (Hnow _ H). eauto.
  - destruct (out_futures free (s :: s' :: ss) arg) as [fs|]; [|done]; cbn [mbind option_bind].
    destruct (imap start_of fs) as [|f [|f' l]]; intros H.
    + rewrite <- (Hnow _ H). eauto.
    + rewrite (Hone _ _ H). eauto.
    + destruct (OutputBroadcaster.new _ _) as [bf|]; [|done]; cbn [mbind option_bind] in *.
      destruct (OutputBroadcaster.drive polls bf) as [[q bf']|]; [|done]; cbn [mbind option_bind] in *.
      destruct q as [[[]|e]|].
      all: try (destruct (OutputBroadcaster.take_outputs _ _); [|done]; cbn [mbind option_bind] in H).
      all: injection H as <- _; cbn; eauto.
Qed.

(** ** The clones of a port share its connections *)

(** Any sequence of connections, clones and sends, by any of the clones. *)
Inductive Action (T R : Type) : Type :=
  | AConnect (sender : Sender T R)
  | AClone (t : nat)
  | ASend (free : nat -> bool) (start_of : nat -> @SenderFuture Addr Msg Writer R -> Fut R) (polls : list (list (list nat)))
      (t : nat) (arg : T).
#[local] Arguments AConnect {_ _} _.
#[local] Arguments AClone {_ _} _.
#[local] Arguments ASend {_ _} _ _ _ _ _.

Fixpoint run {T R} (acts : list (Action T R)) (p : Port T R) : option (Port T R) :=
  match acts with
  | [] => Some p
  | a :: acts =>
      p ← match a with
          | AConnect s => write_add s p
          | AClone t => clone_port t p
          | ASend free start_of polls t arg => snd <$> send_query free start_of polls t arg p
          end;
      run acts p
  end.

(** The senders connected by the actions, in order. *)
Definition connected {T R} (acts : list (Action T R)) : list (Sender T R) :=
  omap (fun a => match a with AConnect s => Some s | _ => None end) acts.

Definition wf {T R} (b : Broadcaster T R) : Prop :=
  length (outputs b) = len b /\ (Z.of_nat (len b) <= u32_max - 2)%Z.

Record inv {T R} (ss : list (Sender T R)) (p : Port T R) : Prop := {
  iv_shared : senders (shared p) = ss;
  iv_wf : wf (shared p);
  iv_clone t c : clones p !! t = Some c ->
    wf (value c) /\ epoch c <= shared_epoch p /\ (epoch c = shared_epoch p -> senders (value c) = ss) }.

Lemma clone_wf {T R} (b : Broadcaster T R) : wf b -> wf (clone b).
Proof. intros [Hl Hm]. split; cbn; [by rewrite length_replicate|done]. Qed.

Lemma output_single_len {T R} n (f : Fut R) (b b' : Broadcaster T R) p : output_single n f b = Some (p, b') ->
  senders b' = senders b /\ length (outputs b') = length (outputs b).
Proof.
  unfold output_single. destruct (await_single n f) as [[[rs|e]|]|]; cbn [mbind option_bind]; [|by intros [= <- <-]..|done].
  destruct (outputs b !! 0); [|done]. cbn [mbind option_bind]. destruct (OutputBroadcaster.take_outputs _ _); [|done]. intros [= <- <-]. cbn.
  split; [done|]. destruct rs; [done|apply length_insert].
Qed.

Lemma output_broadcast_len {T R} free start_of polls (arg : T) (b b' : Broadcaster T R) p :
  output_broadcast free start_of polls arg b = Some (p, b') -> wf b -> senders b' = senders b /\ wf b'.
Proof.
  intros H [Hl Hm]. enough (senders b' = senders b /\ length (outputs b') = length (outputs b)) as [E1 E2].
  { split; [done|]. split; [rewrite E2, Hl|]; unfold len in *; by rewrite E1. }
  revert H. unfold output_broadcast. destruct (senders b) as [|s [|s' ss]] eqn:Es.
  - by intros [= <- <-].
  - destruct (out_send_owned (free 0) s arg) as [[f|]|]; cbn; [|by intros [= <- <-]|done]. rewrite <- Es. apply output_single_len.
  - destruct (out_futures free (s :: s' :: ss) arg) as [fs|]; [|done]; cbn [mbind option_bind].
    destruct (imap start_of fs) as [|f [|f' l]]; [by intros [= <- <-]|rewrite <- Es; apply output_single_len|].
    generalize (f :: f' :: l). intros futs.
    destruct (OutputBroadcaster.new _ _) as [bf|] eqn:En; [|done]; cbn [mbind option_bind].
    destruct (OutputBroadcaster.drive polls bf) as [[q bf']|] eqn:Ed; [|done]; cbn [mbind option_bind].
    assert (length (OutputBroadcaster.outputs bf') = length (outputs b)) as E.
    { rewrite (BroadcasterFacts.drive_len _ _ _ _ Ed). revert En. unfold OutputBroadcaster.new. destruct (TaskSet.resize _ _); [|done].
      intros [= <-]. cbn [OutputBroadcaster.outputs]. rewrite length_app, length_replicate, length_drop. lia. }
    intros H. destruct q as [[[]|e]|]; [destruct (OutputBroadcaster.take_outputs _ _); [|done]|..]; cbn in H; by injection H as <- <-.
Qed.

Lemma port_new_inv {T R} : inv [] (new : Port T R).
Proof. split; [done|by split|]. intros [|t] c; cbn; [|done]. intros [= <-]. split; [by split|done]. Qed.

Lemma write_add_inv {T R} (s : Sender T R) ss p p' : inv ss p -> write_add s p = Some p' -> inv (ss ++ [s]) p'.
Proof.
  intros [Hs [Hl Hm] Hc]. unfold write_add, add. destruct (Z.ltb_spec (Z.of_nat (length (senders (shared p)))) (u32_max - 2)) as [Hlt|]; [|done].
  cbn. intros [= <-]. split; cbn.
  - by rewrite Hs.
  - unfold len in *. split; cbn; rewrite !length_app; cbn; lia.
  - intros t c Ht. destruct (Hc t c Ht) as (Hw & He & _). split; [done|]. split; lia.
Qed.

(** The cache of a clone, once up to date, has all the senders. *)
Lemma scratchpad_inv {T R} ss (p : Port T R) t c : inv ss p -> clones p !! t = Some c ->
  wf (value (scratchpad c p)) /\ epoch (scratchpad c p) = shared_epoch p /\ senders (value (scratchpad c p)) = ss.
Proof.
  intros Hi Ht. destruct (iv_clone _ _ Hi t c Ht) as (Hw & He & Hs). unfold scratchpad.
  destruct (Nat.eqb_spec (shared_epoch p) (epoch c)) as [E|E]; [by split_and!; [|done|apply Hs]|].
  split_and!; [apply clone_wf, Hi|done|apply Hi].
Qed.

Lemma send_query_inv {T R} free start_of polls t (arg : T) ss (p p' : Port T R) r :
  inv ss p -> send_query free start_of polls t arg p = Some (r, p') -> inv ss p'.
Proof.
  intros Hi. unfold send_query. destruct (clones p !! t) as [c|] eqn:Et; [|done]. cbn [mbind option_bind].
  destruct (scratchpad_inv ss p t c Hi Et) as (Hw & He & Hs).
  destruct (output_broadcast _ _ _ _ _) as [[r' b]|] eqn:E; [|done]. intros [= <- <-].
  destruct (output_broadcast_len _ _ _ _ _ _ _ E Hw) as [Hsb Hwb]. split; cbn; [apply Hi|apply Hi|].
  intros u g [(<- & <- & _)|[_ Hu]]%list_lookup_insert_Some; [|by apply (iv_clone _ _ Hi u)].
  cbn. split; [done|]. split; [lia|]. intros _. by rewrite Hsb.
Qed.

Lemma clone_port_inv {T R} t ss (p p' : Port T R) : inv ss p -> clone_port t p = Some p' -> inv ss p'.
Proof.
  intros Hi. unfold clone_port. destruct (clones p !! t) as [c|] eqn:Et; [|done]. intros [= <-]. split; cbn; [apply Hi|apply Hi|].
  destruct (iv_clone _ _ Hi t c Et) as (Hw & He & Hs).
  intros u g [Hu|[_ [_ <-]%list_lookup_singleton_Some]]%lookup_app_Some; [by apply (iv_clone _ _ Hi u)|].
  split; [by apply clone_wf|by split].
Qed.

Lemma port_run_inv {T R} (acts : list (Action T R)) ss p p' : inv ss p -> run acts p = Some p' -> inv (ss ++ connected acts) p'.
Proof.
  revert ss p. induction acts as [|a acts IH]; intros ss p Hi; cbn [run]; [intros [= <-]; by rewrite app_nil_r|].
  intros (p1 & H1 & Hrun)%bind_Some. destruct a as [s|t|free start_of polls t arg].
  - change (connected (AConnect s :: acts)) with ([s] ++ connected acts). rewrite app_assoc. by eapply IH; [eapply write_add_inv|].
  - by eapply IH; [eapply clone_port_inv|].
  - apply fmap_Some in H1 as ([r q] & Hq & ->). by eapply IH; [eapply send_query_inv|].
Qed.

(** The clones of a port share its connections: after any connections, clones and
    sends, by whichever clone, a send by any clone is a broadcast to all the
    senders connected so far, in the order of their connection, from a
    broadcaster with room for all the replies. *)
Theorem clones_share_connections {T R} (acts : list (Action T R)) (p : Port T R) t c free start_of polls (arg : T) :
  run acts new = Some p -> clones p !! t = Some c ->
  exists b, senders b = connected acts /\ length (outputs b) = len b /\ (Z.of_nat (len b) <= u32_max - 2)%Z /\
    fst <$> send_query free start_of polls t arg p = fst <$> output_broadcast free start_of polls arg b.
Proof.
  intros Hrun Ht. pose proof (port_run_inv acts [] new p port_new_inv Hrun) as Hi. destruct (scratchpad_inv _ p t c Hi Ht) as ([Hl Hm] & _ & Hs).
  exists (value (scratchpad c p)). split_and!; [done..|]. unfold send_query. rewrite Ht. cbn [mbind option_bind].
  by destruct (output_broadcast _ _ _ _ _) as [[r b]|].
Qed.
End Facts.
End Ports.
