(* ===== verification/StExecutor.v ===== *)
(** * The single-threaded executor: [executor/st_executor.rs]

    A task is seen through what a poll of its future does, and through what the
    drop of its future does: both are functions of the rest of the program (the
    world), which they change, and they wake tasks of the executor.  The state
    word of a task ([TaskState]) is seen as its two flags and its wake count,
    which is assumed not to overflow; the references to the task are not modelled
    (the cancellation token is one as long as the future exists).  The keys of
    the list of active tasks are those the [slab] crate hands out. *)

From S2P Require Import Prelude.
Local Open Scope Z_scope.

Module StExecutor.

Inductive PollOutcome : Type := PReady | PPending | PPanic.

(** A task; [key] is the [cancellation_key] of its future. *)
Record Task : Type := mkTask { key : nat; polling : bool; closed : bool; wakes : nat }.

(** [runnable_exists]. *)
Definition runnable (t : Task) : bool := polling t && ((0 <? wakes t)%nat || closed t).

Inductive ExecutorError : Type := UnprocessedMessages (n : Z) | Timeout | Panic.

Section Defs.
Context {W : Type}.

(** User code: [poll] also gives the tasks woken, in order, and the messages
    sent minus those received. *)
Context (poll : nat -> W -> W * list nat * Z * PollOutcome).
Context (on_drop : nat -> W -> W * list nat).
(** [abort_signal.is_set()] *)
Context (aborted : W -> bool).
(** [Slab::vacant_entry] *)
Context (vacant_key : gset nat -> nat).

(** [ExecutorInner] with its context, the tasks in the heap, the rest of the
    program and [THREAD_MSG_COUNT] of the thread that runs it.  The last item of
    the vector [queue] comes first. *)
Record Inner : Type := mkInner {
  queue : list nat;
  msg_count : Z;
  active_tasks : gset nat;
  tasks : list Task;
  world : W;
  thread_count : Z;
  in_flight : Z;                        (** history: messages sent minus received *)
  dropped : list nat }.                 (** history: futures dropped *)

Definition set_queue (q : list nat) (s : Inner) : Inner :=
  mkInner q (msg_count s) (active_tasks s) (tasks s) (world s) (thread_count s) (in_flight s) (dropped s).
Definition set_active (a : gset nat) (s : Inner) : Inner :=
  mkInner (queue s) (msg_count s) a (tasks s) (world s) (thread_count s) (in_flight s) (dropped s).
Definition set_tasks (l : list Task) (s : Inner) : Inner :=
  mkInner (queue s) (msg_count s) (active_tasks s) l (world s) (thread_count s) (in_flight s) (dropped s).
Definition set_world (w : W) (s : Inner) : Inner :=
  mkInner (queue s) (msg_count s) (active_tasks s) (tasks s) w (thread_count s) (in_flight s) (dropped s).
Definition set_counts (m c : Z) (s : Inner) : Inner :=
  mkInner (queue s) m (active_tasks s) (tasks s) (world s) c (in_flight s) (dropped s).
Definition add_messages (d : Z) (s : Inner) : Inner :=
  mkInner (queue s) (msg_count s) (active_tasks s) (tasks s) (world s) (as_isize (wrap64 (thread_count s + d)))
    (in_flight s + d) (dropped s).
Definition log_drop (t : nat) (s : Inner) : Inner :=
  mkInner (queue s) (msg_count s) (active_tasks s) (tasks s) (world s) (thread_count s) (in_flight s) (dropped s ++ [t]).

Definition new (w : W) (count : Z) : Inner := mkInner [] 0 ∅ [] w count 0 [].

(** [spawn] and [spawn_and_forget]. *)
Definition spawn (s : Inner) : Inner :=
  let key := vacant_key (active_tasks s) in
  set_queue (length (tasks s) :: queue s)
    (set_tasks (tasks s ++ [mkTask key true false 1]) (set_active ({[key]} ∪ active_tasks s) s)).

(** ** Tasks *)
Definition upd (f : Task -> Task) (t : nat) (s : Inner) : Inner := set_tasks (alter f t (tasks s)) s.

Definition add_wake (x : Task) : Task := mkTask (key x) (polling x) (closed x) (S (wakes x)).
Definition sub_wakes (n : nat) (x : Task) : Task := mkTask (key x) (polling x) (closed x) (wakes x - n).
Definition end_polling (x : Task) : Task := mkTask (key x) false (closed x) (wakes x).
Definition close (x : Task) : Task := mkTask (key x) (polling x) true (wakes x).

(** [wake] and [schedule_task]. *)
Definition wake (s : Inner) (t : nat) : Inner :=
  match tasks s !! t with
  | Some x =>
      let s' := upd add_wake t s in
      if polling x && negb (closed x) && (wakes x =? 0)%nat then set_queue (t :: queue s') s' else s'
  | None => s
  end.
Definition wake_all (woken : list nat) (s : Inner) : Inner := foldl wake s woken.

(** Drop of a [CancellableFuture]; [active]: whether [ACTIVE_TASKS] is set. *)
Definition drop_future (active : bool) (t : nat) (s : Inner) : Inner :=
  match tasks s !! t with
  | Some x =>
      let s := if active then set_active (active_tasks s ∖ {[key x]}) s else s in
      let '(w, woken) := on_drop t (world s) in
      wake_all woken (set_world w (log_drop t s))
  | None => s
  end.

(** [runnable::cancel]. *)
Definition cancel_runnable (active : bool) (t : nat) (s : Inner) : Inner :=
  upd (fun x => end_polling (close x)) t (drop_future active t s).

(** The polling loop of [Runnable::run]; [true]: the future has panicked. *)
Fixpoint run_task (fuel : nat) (t wake_count : nat) (s : Inner) : option (bool * Inner) :=
  match fuel with
  | O => None
  | S fuel =>
      match tasks s !! t with
      | None => Some (false, s)
      | Some x =>
          if closed x then Some (false, cancel_runnable true t s)
          else
            let '(w, woken, d, o) := poll t (world s) in
            let s := wake_all woken (add_messages d (set_world w s)) in
            match o with
            | PReady => Some (false, upd end_polling t (drop_future true t s))
            | PPanic => Some (true, cancel_runnable true t s)
            | PPending =>
                let s := upd (sub_wakes wake_count) t s in
                match tasks s !! t with
                | None => Some (false, s)
                | Some x =>
                    if (wakes x =? 0)%nat && negb (closed x) then Some (false, s) else run_task fuel t (wakes x) s
                end
            end
      end
  end.

Definition load_wakes (t : nat) (s : Inner) : nat := match tasks s !! t with Some x => wakes x | None => 0 end.

(** ** [ExecutorInner::run] *)
Fixpoint run_loop (fuel : nat) (s : Inner) : option (bool * Inner) :=
  match fuel with
  | O => None
  | S fuel =>
      match queue s with
      | [] => Some (false, s)
      | t :: q =>
          let s := set_queue q s in
          '(panicked, s) ← run_task (S fuel) t (load_wakes t s) s;
          if panicked : bool then Some (true, s)
          else if aborted (world s) then Some (false, s) else run_loop fuel s
      end
  end.

(** The outcome of [run]: the panic is that of [try_into] on a negative count. *)
Inductive Outcome : Type := Returned (r : Result unit ExecutorError) | Panicked.

Definition run_inner (fuel : nat) (s : Inner) : option (Outcome * Inner) :=
  let msg_count_stash := thread_count s in
  '(panicked, s) ← run_loop fuel (set_counts (msg_count s) (msg_count s) s);
  if panicked : bool then Some (Returned (Err Panic), s)
  else
    let s := set_counts (thread_count s) msg_count_stash s in
    Some (if msg_count s =? 0 then Returned (Ok tt)
          else if msg_count s <? 0 then Panicked
          else Returned (Err (UnprocessedMessages (msg_count s))), s).

(** ** [Executor::run]

    [count] is the count of the calling thread; without a timeout the tasks run
    on this thread, otherwise on a thread of their own that may be late, or may
    panic before it signals that it has ended. *)
Definition run (timeout_is_zero in_time : bool) (fuel : nat) (inner : option Inner) (count : Z)
    : option (Outcome * option Inner * Z) :=
  match inner with
  | None => Some (Panicked, None, count)
  | Some s =>
      if timeout_is_zero then
        '(o, s) ← run_inner fuel (set_counts (msg_count s) count s); Some (o, Some s, thread_count s)
      else if in_time then
        '(o, s) ← run_inner fuel (set_counts (msg_count s) 0 s);
        Some match o with
             | Panicked => (Returned (Err Timeout), None, count)
             | o => (o, Some s, count)
             end
      else Some (Returned (Err Timeout), None, count)
  end.

(** ** Drop of the executor *)

(** [CancelToken::cancel]. *)
Definition cancel (t : nat) (s : Inner) : Inner :=
  match tasks s !! t with
  | Some x =>
      if runnable x then upd close t s
      else if polling x then drop_future false t (upd (fun x => end_polling (close x)) t s)
      else s
  | None => s
  end.

(** The task that owns a key of the list of active tasks. *)
Definition owner (k : nat) (s : Inner) : option nat :=
  fst <$> list_find (fun x => polling x && (key x =? k)%nat = true) (tasks s).

Definition cancel_key (s : Inner) (k : nat) : Inner := match owner k s with Some t => cancel t s | None => s end.

(** The drop handler, then the drop of the work queue; [keys]: the order in which
    the list is drained. *)
Definition drop_inner (keys : list nat) (s : Inner) : Inner :=
  let s := set_active ∅ (foldl cancel_key s keys) in
  foldl (fun s t => cancel_runnable false t s) (set_queue [] s) (rev (queue s)).
End Defs.
#[global] Arguments Inner : clear implicits.
End StExecutor.
