(* ===== verification/StExecutorFacts.v ===== *)
(** * Properties of the single-threaded executor

    What is shown of [StExecutor]: a runnable task is in the work queue exactly
    once, a run polls every task that was woken and ends if the tasks do a finite
    amount of work, the list of active tasks holds the keys of the tasks whose
    future exists, and the drop of the executor drops each of these futures
    once. *)

From S2P Require Import Prelude StExecutor.
Local Open Scope Z_scope.

Module StExecutorFacts.
Import StExecutor.

(** What wake-ups do not change of a task. *)
Definition view {W} (t : nat) (s : Inner W) : option (nat * bool * bool) :=
  (fun x => (key x, polling x, closed x)) <$> tasks s !! t.

(** ** Invariants *)

(** The work queue holds the runnable tasks, apart from the task that runs. *)
Record queued {W} (cur : option nat) (s : Inner W) : Prop := {
  queued_nodup : NoDup (queue s);
  queued_iff t : t ∈ queue s <-> cur <> Some t /\ (exists k c, view t s = Some (k, true, c)) /\ (0 < load_wakes t s)%nat;
  queued_cur t : cur = Some t -> (0 < load_wakes t s)%nat }.

(** No task has been cancelled from outside. *)
Definition uncancelled {W} (s : Inner W) : Prop := forall t k c, view t s = Some (k, true, c) -> c = false.

(** The list of active tasks, and the futures dropped so far. *)
Record listed {W} (s : Inner W) : Prop := {
  listed_keys t1 t2 k c1 c2 : view t1 s = Some (k, true, c1) -> view t2 s = Some (k, true, c2) -> t1 = t2;
  listed_active k : k ∈ active_tasks s <-> exists t c, view t s = Some (k, true, c);
  listed_nodup : NoDup (dropped s);
  listed_dropped t : t ∈ dropped s <-> exists k c, view t s = Some (k, false, c) }.

(** Between two calls of the methods of the executor. *)
Record inv {W} (s : Inner W) : Prop := {
  inv_queued : queued None s;
  inv_uncancelled : uncancelled s;
  inv_listed : listed s;
  inv_range : - 2 ^ 63 <= msg_count s < 2 ^ 63 }.

(** ** Wake-ups *)
Section Wake.
Context {W : Type}.
Implicit Types s : Inner W.

Lemma lookup_upd f t t' s : tasks (upd f t s) !! t' = (if decide (t = t') then f <$> tasks s !! t' else tasks s !! t').
Proof.
  unfold upd. cbn. destruct (decide (t = t')) as [->|Hne]; [by rewrite list_lookup_alter_eq|by rewrite list_lookup_alter_ne].
Qed.

Lemma view_upd f t t' s : (forall x, key (f x) = key x /\ polling (f x) = polling x /\ closed (f x) = closed x) ->
  view t' (upd f t s) = view t' s.
Proof.
  intros Hf. unfold view. rewrite lookup_upd. case_decide; [|done]. destruct (tasks s !! t') as [x|]; [|done]. cbn.
  destruct (Hf x) as (-> & -> & ->). done.
Qed.

Lemma wakes_upd f t t' s : load_wakes t' (upd f t s) =
  (if decide (t = t') then match tasks s !! t' with Some x => wakes (f x) | None => 0%nat end else load_wakes t' s).
Proof. unfold load_wakes. rewrite lookup_upd. case_decide; [|done]. by destruct (tasks s !! t'). Qed.

(** [wake] with the tasks left in terms of [upd]. *)
Lemma wake_fields t s : tasks (wake s t) = tasks (upd add_wake t s) /\ active_tasks (wake s t) = active_tasks s /\
  dropped (wake s t) = dropped s /\ thread_count (wake s t) = thread_count s /\ in_flight (wake s t) = in_flight s /\
  msg_count (wake s t) = msg_count s /\ world (wake s t) = world s.
Proof.
  unfold wake. destruct (tasks s !! t) as [x|] eqn:E; [case_match; done|]. repeat split; try done.
  unfold upd. cbn. symmetry. by apply list_alter_id_lookup_None || (apply list_eq; intros i; destruct (decide (t = i)) as [->|];
    [by rewrite list_lookup_alter_eq, E|by rewrite list_lookup_alter_ne]).
Qed.

Lemma view_wake t t' s : view t' (wake s t) = view t' s.
Proof. unfold view. rewrite (proj1 (wake_fields t s)). by apply view_upd. Qed.

Lemma wakes_wake t t' s : (load_wakes t' s <= load_wakes t' (wake s t))%nat.
Proof.
  unfold load_wakes at 2. rewrite (proj1 (wake_fields t s)). change (load_wakes t' s <= load_wakes t' (upd add_wake t s))%nat.
  rewrite wakes_upd. unfold load_wakes. case_decide; [|done]. destruct (tasks s !! t'); cbn; lia.
Qed.

(** Tasks that were cancelled while they were runnable. *)
Definition wound s : Prop := forall t k, view t s = Some (k, true, true) -> (0 < load_wakes t s)%nat.

Lemma uncancelled_wound s : uncancelled s -> wound s.
Proof. intros H t k Hv. by apply H in Hv. Qed.

Lemma queue_wake t s : queue (wake s t) =
  match tasks s !! t with
  | Some x => if polling x && negb (closed x) && (wakes x =? 0)%nat then t :: queue s else queue s
  | None => queue s
  end.
Proof. unfold wake. destruct (tasks s !! t); [|done]. by case_match. Qed.

Lemma load_wake t t' s : load_wakes t' (wake s t) =
  if decide (t = t') then match tasks s !! t' with Some x => S (wakes x) | None => 0%nat end else load_wakes t' s.
Proof.
  unfold load_wakes at 1. rewrite (proj1 (wake_fields t s)). exact (wakes_upd add_wake t t' s).
Qed.

Lemma wake_queued cur t s : queued cur s -> wound s -> queued cur (wake s t).
Proof.
  intros [Hnd Hiff Hcur] Hw. assert (cur = Some t -> (0 < load_wakes t (wake s t))%nat) as Hc.
  { intros Hc. pose proof (wakes_wake t t s). specialize (Hcur t Hc). lia. }
  split.
  - rewrite queue_wake. destruct (tasks s !! t) as [x|] eqn:E; [|done]. case_match eqn:Ep; [|done]. constructor; [|done].
    apply andb_true_iff in Ep as [_ Ew%Nat.eqb_eq].
    intros Hin. apply Hiff in Hin as (_ & _ & Hin). unfold load_wakes in Hin. rewrite E in Hin. lia.
  - intros t'. rewrite view_wake, load_wake, queue_wake. destruct (decide (t = t')) as [<-|Hne].
    + destruct (tasks s !! t) as [x|] eqn:E; [|rewrite Hiff; unfold load_wakes; rewrite E; done].
      assert (view t s = Some (key x, polling x, closed x)) as Hv by (unfold view; by rewrite E).
      assert (load_wakes t s = wakes x) as Hl by (unfold load_wakes; by rewrite E).
      case_match eqn:Ep.
      * apply andb_true_iff in Ep as [Ep Ew%Nat.eqb_eq]. split; [|intros _; by left]. intros _. split; [|split; [|lia]].
        -- intros ->. specialize (Hcur t eq_refl). lia.
        -- rewrite Hv. exists (key x), (closed x). by destruct (polling x).
      * rewrite Hiff, Hl. split; intros (H1 & H2 & H3); split; try done; split; try done; [lia|].
        destruct H2 as (k & c & H2). rewrite Hv in H2. injection H2 as Hk Hp Hc'. rewrite Hp in Ep. cbn in Ep.
        destruct (closed x) eqn:Ec; cbn in Ep; [|apply Nat.eqb_neq in Ep; lia]. rewrite <- Hl. eapply Hw. by rewrite Hv, Hp.
    + rewrite <- Hiff. destruct (tasks s !! t) as [x|]; [|done]. case_match; [|done]. rewrite elem_of_cons. naive_solver.
  - intros t' ->. pose proof (wakes_wake t t' s). specialize (Hcur t' eq_refl). lia.
Qed.

(** The same for a list of wake-ups. *)
Record same (s s' : Inner W) : Prop := {
  same_view t : view t s' = view t s;
  same_wakes t : (load_wakes t s <= load_wakes t s')%nat;
  same_active : active_tasks s' = active_tasks s;
  same_dropped : dropped s' = dropped s;
  same_thread : thread_count s' = thread_count s;
  same_flight : in_flight s' = in_flight s;
  same_count : msg_count s' = msg_count s;
  same_world : world s' = world s }.

Lemma wake_same t s : same s (wake s t).
Proof.
  destruct (wake_fields t s) as (_ & ? & ? & ? & ? & ? & ?). split; try done; intros; first [apply view_wake | apply wakes_wake].
Qed.

Lemma wake_all_inv cur woken s : queued cur s -> wound s -> queued cur (wake_all woken s) /\ same s (wake_all woken s).
Proof.
  revert s. induction woken as [|t woken IH]; intros s Hq Hw; [by split|]. cbn [wake_all foldl].
  destruct (wake_same t s). destruct (IH (wake s t)) as [Hq' []]; [by apply wake_queued| |].
  - intros t' k Hv. rewrite same_view0 in Hv. specialize (Hw _ _ Hv). specialize (same_wakes0 t'). lia.
  - split; [done|]. split; unfold wake_all in *; try congruence. intros t'.
    specialize (same_wakes0 t'). specialize (same_wakes1 t'). lia.
Qed.

Lemma same_wound s s' : same s s' -> wound s -> wound s'.
Proof. intros [] Hw t k Hv. rewrite same_view0 in Hv. specialize (Hw t k Hv). specialize (same_wakes0 t). lia. Qed.

Lemma same_uncancelled s s' : same s s' -> uncancelled s -> uncancelled s'.
Proof. intros [] Hu t k c Hv. rewrite same_view0 in Hv. by eapply Hu. Qed.

Lemma same_listed s s' : same s s' -> listed s -> listed s'.
Proof.
  intros [] [Hk Ha Hn Hd]. split; rewrite ?same_active0, ?same_dropped0; [|..|done|].
  - intros t1 t2 k c1 c2. rewrite !same_view0. apply Hk.
  - intros k. rewrite Ha. by setoid_rewrite same_view0.
  - intros t. rewrite Hd. by setoid_rewrite same_view0.
Qed.

Lemma queued_ext cur s s' : queue s' = queue s -> tasks s' = tasks s -> queued cur s -> queued cur s'.
Proof. intros Hq Ht [Hnd Hiff Hcur]. split; unfold view, load_wakes in *; rewrite ?Hq, ?Ht; done. Qed.

Lemma view_ext s s' t : tasks s' = tasks s -> view t s' = view t s.
Proof. unfold view. by intros ->. Qed.

Lemma view_wound_ext s s' : tasks s' = tasks s -> wound s -> wound s'.
Proof. intros Ht Hw t k. unfold view, load_wakes. rewrite Ht. apply Hw. Qed.

(** ** Weights *)
Definition weight (x : Task) : Z := if polling x then Z.of_nat (wakes x) else 0.

Lemma zsum_upd f t s x : tasks s !! t = Some x ->
  zsum weight (tasks (upd f t s)) = zsum weight (tasks s) - weight x + weight (f x).
Proof.
  intros Hx. assert (alter f t (tasks s) = <[t := f x]> (tasks s)) as E.
  { apply list_eq. intros j. destruct (decide (t = j)) as [->|Hne].
    - rewrite list_lookup_alter_eq, Hx, list_lookup_insert_eq; [done|by eapply lookup_lt_Some].
    - by rewrite list_lookup_alter_ne, list_lookup_insert_ne. }
  unfold upd. cbn [tasks set_tasks]. rewrite E, (zsum_insert _ _ _ _ _ Hx). lia.
Qed.

Lemma zsum_wake_all woken s : zsum weight (tasks (wake_all woken s)) <= zsum weight (tasks s) + Z.of_nat (length woken).
Proof.
  revert s. induction woken as [|t woken IH]; intros s; [cbn; lia|]. cbn [wake_all foldl length].
  specialize (IH (wake s t)). unfold wake_all in IH. rewrite (proj1 (wake_fields t s)) in IH.
  destruct (tasks s !! t) as [x|] eqn:E.
  - rewrite (zsum_upd _ _ _ _ E) in IH. assert (weight (add_wake x) <= weight x + 1); [|lia].
    unfold weight. cbn. destruct (polling x); lia.
  - assert (tasks (upd add_wake t s) = tasks s) as Et; [|rewrite Et in IH; lia].
    apply list_eq. intros i. rewrite lookup_upd. case_decide; [|done]. subst. by rewrite E.
Qed.
End Wake.
#[global] Arguments same_view {_ _ _}.

(** ** End of a task *)
Section Finish.
Context {W : Type} (on_drop : nat -> W -> W * list nat).
Implicit Types s : Inner W.

(** What the drop of a future leaves. *)
Record after_drop (active : bool) (t k : nat) (s s' : Inner W) : Prop := {
  ad_view t : view t s' = view t s;
  ad_wakes t : (load_wakes t s <= load_wakes t s')%nat;
  ad_active : active_tasks s' = if active then active_tasks s ∖ {[k]} else active_tasks s;
  ad_dropped : dropped s' = dropped s ++ [t];
  ad_thread : thread_count s' = thread_count s;
  ad_flight : in_flight s' = in_flight s;
  ad_count : msg_count s' = msg_count s }.

Lemma drop_future_spec active cur t k p c s : view t s = Some (k, p, c) -> queued cur s -> wound s ->
  queued cur (drop_future on_drop active t s) /\ after_drop active t k s (drop_future on_drop active t s).
Proof.
  intros Hv Hq Hw. unfold drop_future. unfold view in Hv. destruct (tasks s !! t) as [x|] eqn:E; [|done]. injection Hv as <- <- <-.
  destruct (on_drop t _) as [w woken].
  set (s0 := if active then set_active (active_tasks s ∖ {[key x]}) s else s).
  assert (tasks s0 = tasks s /\ queue s0 = queue s) as [Et Eq] by (unfold s0; by destruct active).
  destruct (wake_all_inv cur woken (set_world w (log_drop t s0))) as [Hq' []].
  - by eapply queued_ext.
  - by eapply view_wound_ext.
  - split; [done|]. split; [intros t'; rewrite same_view0; by apply view_ext| | | | | |]; try (etrans; [eassumption|]; unfold s0; by destruct active).
    intros t'. specialize (same_wakes0 t'). unfold load_wakes in same_wakes0 at 1. cbn in same_wakes0. by rewrite Et in same_wakes0.
Qed.

(** A future that has been dropped is not polled any more. *)
Lemma view_end f t k p c s : (forall x, key (f x) = key x /\ polling (f x) = false) -> view t s = Some (k, p, c) ->
  (exists c', view t (upd f t s) = Some (k, false, c')) /\ forall t', t' <> t -> view t' (upd f t s) = view t' s.
Proof.
  intros Hf Hv. unfold view in *. split.
  - rewrite lookup_upd, decide_True by done. destruct (tasks s !! t) as [x|]; [|done]. cbn in *. injection Hv as <- _ _.
    exists (closed (f x)). destruct (Hf x) as [-> ->]. done.
  - intros t' Hne. by rewrite lookup_upd, decide_False by done.
Qed.

Lemma end_queued cur f t k p c s : (forall x, key (f x) = key x /\ polling (f x) = false) -> view t s = Some (k, p, c) ->
  t ∉ queue s -> (forall t', cur = Some t' -> t' = t) -> queued cur s -> queued None (upd f t s).
Proof.
  intros Hf Hv Hnin Hcur [Hnd Hiff _]. destruct (view_end f t k p c s Hf Hv) as [[c' Ht] Ho]. split; [done| |done].
  intros t'. change (queue (upd f t s)) with (queue s). destruct (decide (t' = t)) as [->|Hne].
  - rewrite Ht. split; [done|]. intros (_ & (k0 & c0 & H) & _). done.
  - rewrite Hiff, (Ho t' Hne), wakes_upd, decide_False by done. split; intros (H1 & H2 & H3); split; try done.
    intros ->. by specialize (Hcur t' eq_refl).
Qed.

Lemma end_listed f t k c s s' : (forall x, key (f x) = key x /\ polling (f x) = false) -> listed s ->
  view t s = Some (k, true, c) -> after_drop true t k s s' -> listed (upd f t s').
Proof.
  intros Hf [Hk Ha Hn Hd] Hv []. assert (view t s' = Some (k, true, c)) as Hv' by congruence.
  destruct (view_end f t k true c s' Hf Hv') as [[c' Ht] Ho].
  assert (forall t1 k1 c1, view t1 (upd f t s') = Some (k1, true, c1) -> t1 <> t /\ view t1 s = Some (k1, true, c1)) as Hback.
  { intros t1 k1 c1 H1. destruct (decide (t1 = t)) as [->|Hne]; [by rewrite Ht in H1|]. split; [done|].
    by rewrite Ho, ad_view0 in H1. }
  split.
  - intros t1 t2 k0 c1 c2 H1 H2. apply Hback in H1 as [_ H1]. apply Hback in H2 as [_ H2]. by eapply Hk.
  - intros k0. change (active_tasks (upd f t s')) with (active_tasks s'). rewrite ad_active0. cbn. rewrite elem_of_difference, elem_of_singleton, Ha. split.
    + intros [(t1 & c1 & H1) Hne]. exists t1, c1. rewrite Ho, ad_view0; [done|]. intros ->. rewrite Hv in H1. by injection H1 as <-.
    + intros (t1 & c1 & H1). apply Hback in H1 as [Hne H1]. split; [by exists t1, c1|]. intros ->. apply Hne. by eapply Hk.
  - change (dropped (upd f t s')) with (dropped s'). rewrite ad_dropped0. apply NoDup_app. split; [done|]. split; [|apply NoDup_singleton].
    intros t1 H1 ->%list_elem_of_singleton. apply Hd in H1 as (k1 & c1 & H1). by rewrite Hv in H1.
  - intros t1. change (dropped (upd f t s')) with (dropped s'). rewrite ad_dropped0, elem_of_app, Hd, list_elem_of_singleton.
    destruct (decide (t1 = t)) as [->|Hne].
    + rewrite Ht. split; [by eauto|by right].
    + rewrite Ho, ad_view0 by done. naive_solver.
Qed.
End Finish.

(** ** Creation of the executor and of tasks *)
Section Spawn.
Context {W : Type}.
Implicit Types s : Inner W.

Lemma st_new_inv (w : W) c : inv (new w c).
Proof.
  split; [split| |split|cbn; lia]; unfold view; cbn; try done; try apply NoDup_nil_2; intros; rewrite ?lookup_nil; cbn; split; try done;
    rewrite ?elem_of_nil; naive_solver.
Qed.

Lemma st_spawn_inv vacant_key s : vacant_key (active_tasks s) ∉ active_tasks s -> inv s -> inv (spawn vacant_key s).
Proof.
  intros Hfresh [[Hnd Hiff _] Hu [Hk Ha Hn Hd] Hr]. set (k0 := vacant_key (active_tasks s)) in *.
  set (n := length (tasks s)). set (s' := spawn vacant_key s).
  assert (view n s' = Some (k0, true, false)) as Hvn by (unfold view; cbn; by rewrite list_lookup_middle).
  assert (forall t, t <> n -> tasks s' !! t = tasks s !! t) as Ht.
  { intros t Hne. cbn. destruct (decide (t < n)%nat); [by apply lookup_app_l|].
    rewrite !lookup_ge_None_2; [done|unfold n in *; lia|]. rewrite length_app. cbn. unfold n in *. lia. }
  assert (forall t, t <> n -> view t s' = view t s) as Hv by (intros t Hne; unfold view; by rewrite Ht).
  assert (view n s = None) as Hnone by (unfold view; rewrite lookup_ge_None_2; done).
  assert (forall t k c, view t s' = Some (k, true, c) -> t = n /\ k = k0 /\ c = false \/ t <> n /\ view t s = Some (k, true, c)) as Hback.
  { intros t k c H. destruct (decide (t = n)) as [->|Hne]; [left|right]; [|by rewrite Hv in H]. rewrite Hvn in H. by injection H as <- <-. }
  assert (forall t k c, t <> n -> view t s = Some (k, true, c) -> k <> k0) as Hkf.
  { intros t k c _ H ->. apply Hfresh, Ha. eauto. }
  split; [split| |split|done]; change (queue s') with (n :: queue s); change (active_tasks s') with ({[k0]} ∪ active_tasks s);
    change (dropped s') with (dropped s).
  - constructor; [|done]. intros (_ & (k & c & H) & _)%Hiff. by rewrite Hnone in H.
  - intros t. rewrite elem_of_cons, Hiff. destruct (decide (t = n)) as [->|Hne].
    + split; [|by left]. intros _. split; [done|]. split; [by eauto|]. unfold load_wakes. cbn. unfold n. rewrite list_lookup_middle; [cbn; lia|done].
    + rewrite Hv by done. unfold load_wakes at 1 2. rewrite Ht by done. fold (load_wakes t s). naive_solver.
  - done.
  - intros t k c [(_ & _ & ->)|[_ H]]%Hback; [done|by eapply Hu].
  - intros t1 t2 k c1 c2 [(-> & -> & _)|[N1 H1]]%Hback [(-> & E & _)|[N2 H2]]%Hback; [done| | |by eapply Hk].
    + by destruct (Hkf _ _ _ N2 H2).
    + subst. by destruct (Hkf _ _ _ N1 H1).
  - intros k. rewrite elem_of_union, elem_of_singleton, Ha. split.
    + intros [->|(t & c & H)]; [by eauto|]. exists t, c. rewrite Hv; [done|]. intros ->. by rewrite Hnone in H.
    + intros (t & c & [(_ & -> & _)|[_ H]]%Hback); [by left|right; eauto].
  - done.
  - intros t. rewrite Hd. destruct (decide (t = n)) as [->|Hne]; [rewrite Hnone, Hvn; naive_solver|by rewrite Hv].
Qed.
End Spawn.

(** ** Runs *)
Section Run.
Context {W : Type} (poll : nat -> W -> W * list nat * Z * PollOutcome) (on_drop : nat -> W -> W * list nat).
Context (aborted : W -> bool).
Implicit Types s : Inner W.

(** The tasks do a finite amount of work: a bound on the wake-ups to come. *)
Context (budget : W -> nat).
Hypothesis poll_budget : forall t w w' woken d o, poll t w = (w', woken, d, o) -> (budget w' + length woken <= budget w)%nat.
Hypothesis drop_budget : forall t w w' woken, on_drop t w = (w', woken) -> (budget w' + length woken <= budget w)%nat.

Definition potential s : Z := Z.of_nat (budget (world s)) + zsum weight (tasks s).

(** The message count since the start of a run, on a machine word. *)
Definition counted (c f : Z) s : Prop := thread_count s = as_isize (wrap64 (c + (in_flight s - f))).

Lemma isize_add a d : as_isize (wrap64 (as_isize (wrap64 a) + d)) = as_isize (wrap64 (a + d)).
Proof.
  f_equal. unfold wrap64, wrap, as_isize. case_match; [by rewrite Zplus_mod_idemp_l|].
  replace (a mod 2 ^ 64 - 2 ^ 64 + d) with (a mod 2 ^ 64 + d + (-1) * 2 ^ 64) by lia.
  by rewrite Z_mod_plus_full, Zplus_mod_idemp_l.
Qed.

Lemma drop_potential active t s : potential (drop_future on_drop active t s) <= potential s.
Proof.
  unfold drop_future. destruct (tasks s !! t) as [x|]; [|lia]. set (s0 := if active then _ else s).
  assert (tasks s0 = tasks s /\ world s0 = world s) as [Et Ew] by (unfold s0; by destruct active).
  destruct (on_drop t (world s0)) as [w woken] eqn:Ed. apply drop_budget in Ed. unfold potential.
  pose proof (zsum_wake_all woken (set_world w (log_drop t s0))) as Hz. cbn [tasks set_world log_drop] in Hz.
  rewrite Et in Hz. rewrite Ew in Ed.
  assert (forall s, world (wake_all woken s) = world s) as ->; [|cbn; lia].
  clear. induction woken as [|t woken IH]; intros s; [done|]. cbn. unfold wake_all in IH. rewrite IH. by apply wake_fields.
Qed.

(** What one run of a task preserves. *)
Record running (c f : Z) (s s' : Inner W) : Prop := {
  rn_queued : queued None s';
  rn_uncancelled : uncancelled s';
  rn_listed : listed s';
  rn_potential : potential s' < potential s;
  rn_count : msg_count s' = msg_count s;
  rn_counted : counted c f s' }.

(** The future is dropped at the end of its last poll. *)
Lemma finish_running c f g t k s s0 : (forall x, key (g x) = key x /\ polling (g x) = false) ->
  queued (Some t) s -> uncancelled s -> listed s -> view t s = Some (k, true, false) -> counted c f s ->
  potential s <= potential s0 -> msg_count s = msg_count s0 -> running c f s0 (upd g t (drop_future on_drop true t s)).
Proof.
  intros Hg Hq Hu Hl Hv Hc Hpot Hmc. destruct (drop_future_spec on_drop true (Some t) t k true false s Hv Hq) as [Hq' Had].
  { by apply uncancelled_wound. }
  pose proof (drop_potential true t s) as Hdp. pose proof (queued_cur _ _ Hq' t eq_refl) as Hpos. pose proof Had as [].
  set (s' := drop_future on_drop true t s) in *. assert (view t s' = Some (k, true, false)) as Hv' by congruence.
  destruct (view_end g t k true false s' Hg Hv') as [[c' Ht] Ho].
  split; [| | | |unfold upd; cbn; congruence|unfold counted, upd in *; cbn; congruence].
  - apply (end_queued (Some t) g t k true false); [done..| |by intros t' [= ->]|done]. intros Hin. apply (queued_iff _ _ Hq') in Hin as [? _]. done.
  - intros t1 k1 c1 H1. destruct (decide (t1 = t)) as [->|Hne]; [by rewrite Ht in H1|]. rewrite Ho, ad_view0 in H1 by done.
    by eapply Hu.
  - by eapply end_listed.
  - unfold view in Hv'. destruct (tasks s' !! t) as [x|] eqn:Ex; [|done]. injection Hv' as Hk Hp Hcl.
    unfold potential in *. rewrite (zsum_upd _ _ _ _ Ex). unfold weight at 2 3. destruct (Hg x) as [_ ->]. rewrite Hp.
    unfold load_wakes in Hpos. rewrite Ex in Hpos. unfold upd; cbn [world set_tasks]. lia.
Qed.

(** One poll of a task, before its outcome is looked at. *)
Lemma poll_running c f t w woken d o s : poll t (world s) = (w, woken, d, o) ->
  queued (Some t) s -> uncancelled s -> listed s -> counted c f s ->
  let s1 := wake_all woken (add_messages d (set_world w s)) in
  queued (Some t) s1 /\ uncancelled s1 /\ listed s1 /\ counted c f s1 /\ potential s1 <= potential s /\
  msg_count s1 = msg_count s /\ (forall t', view t' s1 = view t' s) /\ (forall t', (load_wakes t' s <= load_wakes t' s1)%nat).
Proof.
  intros Hp Hq Hu Hl Hc s1. apply poll_budget in Hp.
  destruct (wake_all_inv (Some t) woken (add_messages d (set_world w s))) as [Hq1 Hs].
  { by apply (queued_ext _ s). }
  { by apply (view_wound_ext s), uncancelled_wound. }
  fold s1 in Hq1, Hs. split; [done|]. split; [exact (same_uncancelled _ _ Hs Hu)|]. split; [eapply same_listed; [done|]; by destruct Hl|].
  pose proof Hs as []. split; [|split; [|split; [done|split; [intros; apply same_view0|intros; apply same_wakes0]]]].
  - unfold counted in *. rewrite same_thread0, same_flight0. cbn. rewrite Hc, isize_add. do 2 f_equal. lia.
  - unfold potential. rewrite same_world0. pose proof (zsum_wake_all woken (add_messages d (set_world w s))) as Hz.
    fold s1 in Hz. cbn in *. lia.
Qed.

(** The wake-ups that were served are taken off. *)
Lemma serve_queued t k wc s : queued (Some t) s -> view t s = Some (k, true, false) ->
  let s' := upd (sub_wakes wc) t s in
  queued (if (load_wakes t s' =? 0)%nat then None else Some t) s'.
Proof.
  intros [Hnd Hiff Hcur] Hv s'. assert (forall t', view t' s' = view t' s) as Hview by (intros; by apply view_upd).
  assert (forall t', t' <> t -> load_wakes t' s' = load_wakes t' s) as Hw by (intros; unfold s'; by rewrite wakes_upd, decide_False).
  split; [done| |].
  - intros t'. change (queue s') with (queue s). rewrite Hiff, Hview. destruct (decide (t' = t)) as [->|Hne].
    + case_match eqn:E; [apply Nat.eqb_eq in E; rewrite E|]; split; intros (H1 & H2 & H3); done || lia.
    + rewrite (Hw t' Hne). split; intros (H1 & H2 & H3); split; try done; [|congruence].
      case_match; [done|congruence].
  - intros t'. case_match eqn:E; [done|]. intros [= <-]. apply Nat.eqb_neq in E. lia.
Qed.

Lemma run_task_spec c f fuel : forall t wc s s0, queued (Some t) s -> uncancelled s -> listed s ->
  (exists k, view t s = Some (k, true, false)) -> (0 < wc <= load_wakes t s)%nat -> counted c f s ->
  potential s < Z.of_nat fuel -> potential s <= potential s0 -> msg_count s = msg_count s0 ->
  exists p s', run_task poll on_drop fuel t wc s = Some (p, s') /\ running c f s0 s'.
Proof.
  induction fuel as [|fuel IH]; intros t wc s s0 Hq Hu Hl [k Hv] Hwc Hc Hfuel Hpot Hmc.
  { assert (0 <= zsum weight (tasks s)) by (apply zsum_nonneg; intros x; unfold weight; case_match; lia).
    unfold potential in Hfuel. lia. }
  cbn [run_task]. pose proof Hv as Hx. unfold view in Hx. destruct (tasks s !! t) as [x|] eqn:Ex; [|done].
  injection Hx as _ _ ->. destruct (poll t (world s)) as [[[w woken] d] o] eqn:Ep.
  destruct (poll_running c f t w woken d o s Ep Hq Hu Hl Hc) as (Hq1 & Hu1 & Hl1 & Hc1 & Hpot1 & Hmc1 & Hv1 & Hw1).
  set (s1 := wake_all woken _) in *. specialize (Hv1 t). rewrite Hv in Hv1. destruct o.
  - eexists false, _. split; [done|]. eapply finish_running; try done; [lia|congruence].
  - pose proof (serve_queued t k wc s1 Hq1 Hv1) as Hq2. cbv zeta in Hq2. set (s2 := upd (sub_wakes wc) t s1) in *.
    assert (forall t', view t' s2 = view t' s1) as Hv2 by (intros; by apply view_upd).
    assert (uncancelled s2) as Hu2 by (intros t' k' c'; rewrite Hv2; apply Hu1).
    assert (listed s2) as Hl2.
    { destruct Hl1 as [H1 H2 H3 H4]. split; [intros ?????; rewrite !Hv2; apply H1| |done|].
      - intros k'. setoid_rewrite Hv2. apply H2.
      - intros t'. setoid_rewrite Hv2. apply H4. }
    unfold view in Hv1. destruct (tasks s1 !! t) as [x1|] eqn:Ex1; [|done]. cbn in Hv1. injection Hv1 as Hk1 Hp1 Hcl1.
    assert (tasks s2 !! t = Some (sub_wakes wc x1)) as Ex2 by (unfold s2; rewrite lookup_upd, decide_True, Ex1; done).
    assert (load_wakes t s2 = wakes (sub_wakes wc x1)) as El2 by (unfold load_wakes; by rewrite Ex2).
    specialize (Hw1 t). unfold load_wakes in Hw1 at 2. rewrite Ex1 in Hw1.
    assert (potential s2 < potential s1) as Hpot2.
    { unfold potential, s2. rewrite (zsum_upd _ _ _ _ Ex1). unfold weight at 2 3. cbn. rewrite Hp1. lia. }
    rewrite Ex2. rewrite El2 in Hq2. cbn [closed sub_wakes]. rewrite Hcl1, andb_true_r.
    destruct (wakes (sub_wakes wc x1) =? 0)%nat eqn:Ez.
    + exists false, s2. split; [done|]. split; try done; [lia|unfold s2; cbn; congruence].
    + apply Nat.eqb_neq in Ez. eapply IH; try done; [|rewrite El2; lia|lia|lia|unfold s2; cbn; congruence].
      exists k. rewrite Hv2. unfold view. rewrite Ex1. cbn. congruence.
  - eexists true, _. split; [done|]. unfold cancel_runnable. eapply finish_running; try done; [lia|congruence].
Qed.

Lemma pop_queued t q s : queued None s -> queue s = t :: q -> queued (Some t) (set_queue q s).
Proof.
  intros [Hnd Hiff _] Hq. rewrite Hq in *. apply NoDup_cons in Hnd as [Hnin Hnd]. split; [done| |].
  - intros t'. change (view t' (set_queue q s)) with (view t' s). change (load_wakes t' (set_queue q s)) with (load_wakes t' s).
    cbn [queue set_queue]. specialize (Hiff t'). rewrite elem_of_cons in Hiff. split.
    + intros Hin. destruct (proj1 Hiff (or_intror Hin)) as (_ & H2 & H3). split; [|done]. intros [= ->]. done.
    + intros (H1 & H2 & H3). destruct (proj2 Hiff) as [-> | H]; [done| |done]. by destruct H1.
  - intros t' [= <-]. apply (Hiff t). by left.
Qed.

Lemma run_loop_spec c f fuel : forall s, queued None s -> uncancelled s -> listed s -> counted c f s ->
  potential s < Z.of_nat fuel ->
  exists p s', run_loop poll on_drop aborted fuel s = Some (p, s') /\ queued None s' /\ uncancelled s' /\ listed s' /\
    counted c f s' /\ msg_count s' = msg_count s /\ (p = false -> aborted (world s') = true \/ queue s' = []).
Proof.
  induction fuel as [|fuel IH]; intros s Hq Hu Hl Hc Hfuel.
  { assert (0 <= zsum weight (tasks s)) by (apply zsum_nonneg; intros x; unfold weight; case_match; lia).
    unfold potential in Hfuel. lia. }
  cbn [run_loop]. destruct (queue s) as [|t q] eqn:Eq.
  { exists false, s. repeat (split; [done|]). intros _. by right. }
  assert (t ∈ queue s) as Hin by (rewrite Eq; left). apply (queued_iff _ _ Hq) in Hin as (_ & (k & cl & Hv) & Hw).
  assert (cl = false) as -> by (by eapply Hu).
  destruct (run_task_spec c f (S fuel) t (load_wakes t (set_queue q s)) (set_queue q s) s) as (p & s' & -> & Hrn); try done.
  - by apply pop_queued.
  - by destruct Hl.
  - by exists k.
  - destruct Hrn as [H1 H2 H3 H4 H5 H6]. cbn [mbind option_bind].
    destruct p; [exists true, s'; repeat (split; [done|]); done|].
    destruct (aborted (world s')) eqn:Ea; [exists false, s'; repeat (split; [done|]); auto|].
    destruct (IH s') as (p & s2 & -> & R1 & R2 & R3 & R4 & R5 & R6); try done; [lia|].
    exists p, s2. repeat (split; [done|]). split; [congruence|done].
Qed.

Lemma isize_range x : - 2 ^ 63 <= as_isize (wrap64 x) < 2 ^ 63.
Proof.
  assert (0 <= wrap64 x < 2 ^ 64) by (by apply wrap_range). unfold as_isize. destruct (Z.ltb_spec (wrap64 x) (2 ^ 63)); lia.
Qed.

(** A run, whatever its outcome. *)
Lemma run_inner_spec fuel s : inv s -> potential s < Z.of_nat fuel ->
  exists p s1, run_loop poll on_drop aborted fuel (set_counts (msg_count s) (msg_count s) s) = Some (p, s1) /\
    queued None s1 /\ uncancelled s1 /\ listed s1 /\ msg_count s1 = msg_count s /\
    thread_count s1 = as_isize (wrap64 (msg_count s + (in_flight s1 - in_flight s))) /\
    (p = false -> aborted (world s1) = true \/ queue s1 = []).
Proof.
  intros [Hq Hu Hl Hr] Hfuel.
  destruct (run_loop_spec (msg_count s) (in_flight s) fuel (set_counts (msg_count s) (msg_count s) s))
    as (p & s1 & Hrun & H1 & H2 & H3 & H4 & H5 & H6); try done.
  - by apply (queued_ext _ s).
  - by destruct Hl.
  - unfold counted. cbn. rewrite Z.sub_diag, Z.add_0_r, as_isize_wrap; [done|lia].
  - exists p, s1. by repeat (split; [done|]).
Qed.

(** No task is left with a wake-up that was not served. *)
Definition served s : Prop := forall t k c, view t s = Some (k, true, c) -> load_wakes t s = 0%nat.

Lemma empty_served s : queued None s -> queue s = [] -> served s.
Proof.
  intros Hq He t k c Hv. destruct (load_wakes t s) eqn:E; [done|]. assert (t ∈ queue s) as Hin; [|by rewrite He in Hin; inversion Hin].
  apply (queued_iff _ _ Hq). split; [done|]. split; [by exists k, c|lia].
Qed.

(** C13: a run of the executor ends if its tasks do a finite amount of work; it
    keeps the executor consistent and, unless a task has panicked: it restores
    the message count of the calling thread, it leaves no task with a wake-up
    that was not served, unless it was told to abort by the abort signal, and its
    outcome is [Ok] exactly if all messages sent so far were received, the error with the
    number of messages left exactly if this number is positive, and a panic
    exactly if it is negative. *)
Theorem st_run_complete fuel s : inv s -> potential s < Z.of_nat fuel ->
  exists o s', run_inner poll on_drop aborted fuel s = Some (o, s') /\ inv s' /\
    (o <> Returned (Err Panic) ->
      thread_count s' = thread_count s /\ (aborted (world s') = true \/ served s') /\
      msg_count s' = as_isize (wrap64 (msg_count s + (in_flight s' - in_flight s))) /\
      (o = Returned (Ok tt) <-> msg_count s' = 0) /\
      (o = Returned (Err (UnprocessedMessages (msg_count s'))) <-> 0 < msg_count s') /\
      (o = Panicked <-> msg_count s' < 0)).
Proof.
  intros Hi Hfuel. destruct (run_inner_spec fuel s Hi Hfuel) as (p & s1 & Hrun & H1 & H2 & H3 & H4 & H5 & H6).
  unfold run_inner. rewrite Hrun. cbn [mbind option_bind]. destruct p.
  - eexists _, _. split; [done|]. split; [|done]. split; try done. rewrite H4. apply Hi.
  - eexists _, _. split; [done|]. pose proof (isize_range (msg_count s + (in_flight s1 - in_flight s))) as Hrange.
    rewrite <- H5 in Hrange. split; [split; [by apply (queued_ext _ s1)|done|by destruct H3|done]|]. intros _.
    cbn. split; [done|]. split; [|split; [done|]].
    + destruct (H6 eq_refl) as [|He]; [by left|right]. exact (empty_served s1 H1 He).
    + destruct (Z.eqb_spec (thread_count s1) 0) as [->|Hne]; [done|].
      destruct (Z.ltb_spec (thread_count s1) 0); (split; [done|]); split; split; intros; try done; lia.
Qed.

(** After the panic of a task, the message count of the calling thread is not the
    one it had before the run. *)
Theorem st_panic_count fuel s s' : inv s -> potential s < Z.of_nat fuel ->
  run_inner poll on_drop aborted fuel s = Some (Returned (Err Panic), s') ->
  thread_count s' = as_isize (wrap64 (msg_count s + (in_flight s' - in_flight s))).
Proof.
  intros Hi Hfuel. destruct (run_inner_spec fuel s Hi Hfuel) as (p & s1 & Hrun & H1 & H2 & H3 & H4 & H5 & H6).
  unfold run_inner. rewrite Hrun. cbn [mbind option_bind]. destruct p; [by intros [= <-]|]. intros [= Ho <-]. by repeat case_match.
Qed.
End Run.
End StExecutorFacts.
