(* ===== verification/StExecutorDrop.v ===== *)
(** * Drop of the single-threaded executor

    What is shown of the drop handler of [StExecutor]: every future that still
    exists is dropped once, although the futures that are dropped may wake tasks,
    and no task is scheduled any more once the work queue is being dropped (this
    would be a panic, since the executor context is not set then). *)

From S2P Require Import Prelude StExecutor StExecutorFacts.
Local Open Scope Z_scope.

Module StExecutorDrop.
Import StExecutor StExecutorFacts.

Section Drop.
Context {W : Type} (on_drop : nat -> W -> W * list nat).
Implicit Types s : Inner W.

(** The drop only closes tasks. *)
Record closes s s' : Prop := {
  closes_view t k p c : view t s = Some (k, p, c) ->
    exists p' c', view t s' = Some (k, p', c') /\ (p' = true -> p = true) /\ (c = true -> c' = true);
  closes_none t : view t s = None -> view t s' = None }.

Lemma closes_trans s1 s2 s3 : closes s1 s2 -> closes s2 s3 -> closes s1 s3.
Proof.
  intros [H1 N1] [H2 N2]. split; [|naive_solver]. intros t k p c Hv.
  destruct (H1 _ _ _ _ Hv) as (p' & c' & Hv' & ? & ?). destruct (H2 _ _ _ _ Hv') as (p2 & c2 & ? & ? & ?).
  exists p2, c2. naive_solver.
Qed.

Lemma closes_same s s' : (forall t, view t s' = view t s) -> closes s s'.
Proof. intros Hv. split; intros *; rewrite Hv; [|done]. intros H. by exists p, c. Qed.

Lemma closes_upd f t s : (forall x, key (f x) = key x /\ (polling (f x) = true -> polling x = true) /\ closed (f x) = true) ->
  closes s (upd f t s).
Proof.
  intros Hf. split; unfold view; intros t'; rewrite lookup_upd; case_decide; subst; intros *;
    destruct (tasks s !! t') as [x|]; cbn; try done.
  - intros [= <- <- <-]. destruct (Hf x) as (-> & ? & ->). by eexists _, _.
  - intros H'. by exists p, c.
Qed.

(** The futures that exist are those that were not dropped. *)
Record accounted s : Prop := {
  acc_keys t1 t2 k c1 c2 : view t1 s = Some (k, true, c1) -> view t2 s = Some (k, true, c2) -> t1 = t2;
  acc_nodup : NoDup (dropped s);
  acc_dropped t : t ∈ dropped s <-> exists k c, view t s = Some (k, false, c) }.

Lemma listed_accounted s : listed s -> accounted s.
Proof. intros [? ? ? ?]. by split. Qed.

Lemma accounted_ext s s' : (forall t k, (exists c, view t s' = Some (k, true, c)) <-> exists c, view t s = Some (k, true, c)) ->
  (forall t k, (exists c, view t s' = Some (k, false, c)) <-> exists c, view t s = Some (k, false, c)) ->
  dropped s' = dropped s -> accounted s -> accounted s'.
Proof.
  intros Ht Hf Hd [H1 H2 H3]. split.
  - intros t1 t2 k c1 c2 E1 E2. destruct (proj1 (Ht t1 k)) as [c1' E1']; [by exists c1|].
    destruct (proj1 (Ht t2 k)) as [c2' E2']; [by exists c2|]. by eapply H1.
  - by rewrite Hd.
  - intros t. rewrite Hd, H3. split; intros (k & H); exists k; by apply Hf.
Qed.

(** The future of a task is dropped, before or after the task is closed. *)
Lemma accounted_drop t k c s s' : accounted s -> view t s = Some (k, true, c) -> dropped s' = dropped s ++ [t] ->
  (exists c', view t s' = Some (k, false, c')) -> (forall t', t' <> t -> view t' s' = view t' s) -> accounted s'.
Proof.
  intros [H1 H2 H3] Hv Hd [c' Ht] Ho. split.
  - assert (forall t1 k1 c1, view t1 s' = Some (k1, true, c1) -> view t1 s = Some (k1, true, c1)) as Hback.
    { intros t1 k1 c1 E1. destruct (decide (t1 = t)) as [->|Hne]; [by rewrite Ht in E1|]. by rewrite Ho in E1. }
    intros t1 t2 k0 c1 c2 E1%Hback E2%Hback. by eapply H1.
  - rewrite Hd. apply NoDup_app. split; [done|]. split; [|apply NoDup_singleton].
    intros t1 E1 ->%list_elem_of_singleton. apply H3 in E1 as (k1 & c1 & E1). by rewrite Hv in E1.
  - intros t1. rewrite Hd, elem_of_app, H3, list_elem_of_singleton. destruct (decide (t1 = t)) as [->|Hne].
    + rewrite Ht. split; [by eauto|by right].
    + rewrite Ho by done. split; [intros [|]; done|by left].
Qed.

(** ** The tasks of the list are cancelled *)
Record cancelling s : Prop := {
  cn_queued : queued None s;
  cn_wound : wound s;
  cn_accounted : accounted s }.

Lemma close_cancelling t k c s : cancelling s -> view t s = Some (k, true, c) -> (0 < load_wakes t s)%nat ->
  cancelling (upd close t s).
Proof.
  intros [[Hnd Hiff _] Hw Ha] Hv Hpos.
  assert (view t (upd close t s) = Some (k, true, true)) as Ht.
  { unfold view in *. rewrite lookup_upd, decide_True by done. destruct (tasks s !! t) as [x|]; [|done]. cbn in *. by injection Hv as -> -> _. }
  assert (forall t', t' <> t -> view t' (upd close t s) = view t' s) as Ho.
  { intros t' Hne. unfold view. by rewrite lookup_upd, decide_False by done. }
  assert (forall t', load_wakes t' (upd close t s) = load_wakes t' s) as Hl.
  { intros t'. rewrite wakes_upd. unfold load_wakes. case_decide; [|done]. by destruct (tasks s !! t'). }
  split.
  - split; [done| |done]. intros t'. rewrite Hl. change (queue (upd close t s)) with (queue s). rewrite Hiff.
    destruct (decide (t' = t)) as [->|Hne]; [|by rewrite Ho]. rewrite Ht, Hv. naive_solver.
  - intros t' k'. rewrite Hl. destruct (decide (t' = t)) as [->|Hne]; [done|]. rewrite Ho by done. apply Hw.
  - apply (accounted_ext s); [| |done|done]; intros t' k'; destruct (decide (t' = t)) as [->|Hne]; rewrite ?Ho by done; try done;
      rewrite Ht, Hv; naive_solver.
Qed.

Definition shut (x : Task) : Task := end_polling (close x).

(** The future of a task that is not runnable is dropped. *)
Lemma shut_cancelling t k c s : cancelling s -> view t s = Some (k, true, c) -> load_wakes t s = 0%nat ->
  cancelling (drop_future on_drop false t (upd shut t s)) /\ closes s (drop_future on_drop false t (upd shut t s)) /\
  exists c', view t (drop_future on_drop false t (upd shut t s)) = Some (k, false, c').
Proof.
  intros [Hq Hw Ha] Hv Hz.
  assert (queued None (upd shut t s)) as Hq1.
  { apply (end_queued None shut t k true c); try done. intros Hin. apply (queued_iff _ _ Hq) in Hin as (_ & _ & Hin). lia. }
  destruct (view_end shut t k true c s) as [[c' Ht] Ho]; [done..|].
  assert (forall t', load_wakes t' (upd shut t s) = load_wakes t' s) as Hl.
  { intros t'. rewrite wakes_upd. unfold load_wakes. case_decide; [|done]. by destruct (tasks s !! t'). }
  assert (wound (upd shut t s)) as Hw1.
  { intros t' k'. rewrite Hl. destruct (decide (t' = t)) as [->|Hne]; [by rewrite Ht|]. rewrite Ho by done. apply Hw. }
  destruct (drop_future_spec on_drop false None t k false c' (upd shut t s) Ht Hq1 Hw1) as [Hq2 [Av Aw _ Ad _ _ _]].
  cbn [dropped upd set_tasks] in Ad.
  split; [split; [done| |]|split].
  - intros t' k'. rewrite Av. intros Hv'. specialize (Hw1 _ _ Hv'). specialize (Aw t'). lia.
  - eapply (accounted_drop t k c s); [done..| |intros t' Hne; by rewrite Av, Ho]. exists c'. by rewrite Av.
  - eapply closes_trans; [by apply (closes_upd shut t)|by apply closes_same].
  - exists c'. by rewrite Av.
Qed.

Lemma closes_refl s : closes s s.
Proof. by apply closes_same. Qed.

Lemma token_cancel_spec t k c s : cancelling s -> view t s = Some (k, true, c) ->
  cancelling (cancel on_drop t s) /\ closes s (cancel on_drop t s) /\
  exists p, view t (cancel on_drop t s) = Some (k, p, true) \/ p = false /\ exists c', view t (cancel on_drop t s) = Some (k, p, c').
Proof.
  intros Hc Hv. unfold cancel. pose proof Hv as Hx. unfold view in Hx. destruct (tasks s !! t) as [x|] eqn:Ex; [|done].
  cbn in Hx. injection Hx as Hk Hp Hcl. assert (load_wakes t s = wakes x) as Hl by (unfold load_wakes; by rewrite Ex).
  unfold runnable. rewrite Hp. cbn [andb]. destruct ((0 <? wakes x)%nat || closed x) eqn:Er.
  - split; [|split].
    + eapply close_cancelling; [done..|]. apply orb_true_iff in Er as [Er%Nat.ltb_lt|Er]; [lia|].
      apply (cn_wound _ Hc t k). rewrite Hv. congruence.
    + by apply closes_upd.
    + exists true. left. unfold view. rewrite lookup_upd, decide_True, Ex by done. cbn. congruence.
  - apply orb_false_iff in Er as [Er%Nat.ltb_ge _]. destruct (shut_cancelling t k c s) as (H1 & H2 & H3); [done..|lia|].
    split; [done|]. split; [done|]. exists false. by right.
Qed.

Lemma cancel_key_spec k s : cancelling s -> cancelling (cancel_key on_drop s k) /\ closes s (cancel_key on_drop s k) /\
  forall t c, view t (cancel_key on_drop s k) = Some (k, true, c) -> c = true.
Proof.
  intros Hc. unfold cancel_key, owner.
  destruct (list_find (fun x => polling x && (key x =? k)%nat = true) (tasks s)) as [[t x]|] eqn:E; cbn.
  - apply list_find_Some in E as (Ex & [Hp Hk%Nat.eqb_eq]%andb_true_iff & _).
    assert (view t s = Some (k, true, closed x)) as Hv by (unfold view; rewrite Ex; cbn; congruence).
    destruct (token_cancel_spec t k _ s Hc Hv) as (H1 & H2 & [p H3]). split; [done|]. split; [done|]. intros t' c Hv'.
    assert (t' = t) as ->.
    { destruct (view t' s) as [[[k0 p0] c0]|] eqn:E0; [|by rewrite (closes_none _ _ H2 _ E0) in Hv'].
      destruct (closes_view _ _ H2 _ _ _ _ E0) as (p1 & c1 & E1 & Hpp & _). rewrite Hv' in E1. injection E1 as -> <- <-.
      rewrite (Hpp eq_refl) in E0. by eapply (acc_keys _ (cn_accounted _ Hc)). }
    destruct H3 as [H3|[-> [c' H3]]]; rewrite Hv' in H3; by injection H3.
  - split; [done|]. split; [apply closes_refl|]. intros t c Hv. exfalso. apply list_find_None in E. unfold view in Hv.
    destruct (tasks s !! t) as [x|] eqn:Ex; [|done]. cbn in Hv. injection Hv as Hk Hp Hcl.
    eapply Forall_lookup in E; [|exact Ex]. apply E. rewrite Hp, Hk. cbn. apply Nat.eqb_refl.
Qed.

Lemma cancel_keys_spec keys : forall s, cancelling s ->
  let s' := foldl (cancel_key on_drop) s keys in
  cancelling s' /\ closes s s' /\ forall t k c, k ∈ keys -> view t s' = Some (k, true, c) -> c = true.
Proof.
  induction keys as [|k keys IH]; intros s Hc; [split; [done|]; split; [apply closes_refl|]; intros ? ? ? Hin; inversion Hin|].
  cbn [foldl]. destruct (cancel_key_spec k s Hc) as (H1 & H2 & H3). destruct (IH _ H1) as (R1 & R2 & R3).
  split; [done|]. split; [by eapply closes_trans|]. intros t k' c [->|Hin]%elem_of_cons Hv; [|by eapply R3].
  destruct (view t (cancel_key on_drop s k)) as [[[k0 p0] c0]|] eqn:E0; [|by rewrite (closes_none _ _ R2 _ E0) in Hv].
  destruct (closes_view _ _ R2 _ _ _ _ E0) as (p1 & c1 & E1 & Hpp & Hcc). rewrite Hv in E1. injection E1 as -> <- <-.
  rewrite (Hpp eq_refl) in E0. apply Hcc. by eapply H3.
Qed.

(** ** The work queue is dropped *)
Definition all_closed s : Prop := forall t k c, view t s = Some (k, true, c) -> c = true.

Lemma wake_all_quiet woken : forall s, all_closed s -> queue (wake_all woken s) = queue s /\ same s (wake_all woken s).
Proof.
  induction woken as [|t woken IH]; intros s Ha; [by split|]. cbn [wake_all foldl]. destruct (wake_same t s) as [Sv Sw S3 S4 S5 S6 S7 S8].
  destruct (IH (wake s t)) as [Hq [Rv Rw R3 R4 R5 R6 R7 R8]]; [intros t' k c; rewrite Sv; apply Ha|]. unfold wake_all in *. split.
  - rewrite Hq, queue_wake. destruct (tasks s !! t) as [x|] eqn:Ex; [|done]. case_match eqn:Ep; [|done].
    apply andb_true_iff in Ep as [[Ep Ec]%andb_true_iff _]. exfalso.
    assert (closed x = true) as E; [|by rewrite E in Ec]. apply (Ha t (key x)). unfold view. rewrite Ex. cbn. by rewrite Ep.
  - split; try congruence. intros t'. specialize (Sw t'). specialize (Rw t'). lia.
Qed.

Lemma cancel_runnable_quiet t k c s : all_closed s -> accounted s -> view t s = Some (k, true, c) ->
  let s' := cancel_runnable on_drop false t s in
  queue s' = queue s /\ all_closed s' /\ accounted s' /\ closes s s' /\
  (exists c', view t s' = Some (k, false, c')) /\ (forall t', t' <> t -> view t' s' = view t' s).
Proof.
  intros Ha Hacc Hv s'. unfold s', cancel_runnable, drop_future. pose proof Hv as Hx. unfold view in Hx.
  destruct (tasks s !! t) as [x|] eqn:Ex; [|done]. destruct (on_drop t _) as [w woken]. cbn [andb].
  set (s0 := set_world w (log_drop t s)). destruct (wake_all_quiet woken s0 Ha) as [Hq [Sv _ _ Sd _ _ _ _]].
  set (s1 := wake_all woken s0) in *. assert (view t s1 = Some (k, true, c)) as Hv1 by (by rewrite Sv).
  destruct (view_end shut t k true c s1) as [Ht Ho]; [done..|]. change (fun x => end_polling (close x)) with shut.
  assert (forall t', t' <> t -> view t' (upd shut t s1) = view t' s) as Ho' by (intros t' Hne; by rewrite (Ho t' Hne), Sv).
  split; [done|]. split; [|split; [|split; [|by split]]].
  - intros t' k' c'. destruct (decide (t' = t)) as [->|Hne]; [destruct Ht as [? ->]; done|]. rewrite Ho' by done. apply Ha.
  - by eapply (accounted_drop t k c s).
  - eapply (closes_trans _ s1); [by apply closes_same|by apply closes_upd].
Qed.

Lemma drop_queue_spec l : forall s, NoDup l -> queue s = [] -> all_closed s -> accounted s ->
  (forall t, t ∈ l <-> exists k c, view t s = Some (k, true, c)) ->
  let s' := foldl (fun s t => cancel_runnable on_drop false t s) s l in
  queue s' = [] /\ accounted s' /\ closes s s' /\ forall t k c, view t s' <> Some (k, true, c).
Proof.
  induction l as [|t l IH]; intros s Hnd Hq Hc Ha Hl.
  - split; [done|]. split; [done|]. split; [apply closes_refl|]. intros t k c Hv. assert (t ∈ []) as Hin by (apply Hl; eauto). inversion Hin.
  - cbn [foldl]. apply NoDup_cons in Hnd as [Hnin Hnd]. destruct (proj1 (Hl t)) as (k & c & Hv); [by left|].
    destruct (cancel_runnable_quiet t k c s Hc Ha Hv) as (H1 & H2 & H3 & H4 & [c' H5] & H6).
    destruct (IH (cancel_runnable on_drop false t s)) as (R1 & R2 & R3 & R4); try done; [congruence| |].
    + intros t'. destruct (decide (t' = t)) as [->|Hne].
      * rewrite H5. split; [done|]. intros (? & ? & ?). done.
      * rewrite H6 by done. rewrite <- Hl, elem_of_cons. naive_solver.
    + split; [done|]. split; [done|]. split; [by eapply closes_trans|done].
Qed.

Lemma view_length t s : is_Some (view t s) <-> (t < length (tasks s))%nat.
Proof. unfold view. rewrite <- lookup_lt_is_Some, fmap_is_Some. done. Qed.

(** The drop of the executor, in whatever order the list of active tasks is
    drained and whatever tasks the futures wake when they are dropped: afterwards
    every task has been dropped exactly once, and nothing was scheduled while the
    work queue was dropped. *)
Theorem st_drop_all keys s : inv s -> (forall k, k ∈ active_tasks s -> k ∈ keys) ->
  let s' := drop_inner on_drop keys s in
  queue s' = [] /\ NoDup (dropped s') /\ forall t, t ∈ dropped s' <-> (t < length (tasks s))%nat.
Proof.
  intros [Hq Hu Hl _] Hkeys s'.
  destruct (cancel_keys_spec keys s) as (H1 & H2 & H3).
  { split; [done|by apply uncancelled_wound|by apply listed_accounted]. }
  set (s1 := foldl (cancel_key on_drop) s keys) in *. destruct H1 as [Hq1 Hw1 Ha1].
  assert (all_closed s1) as Hc1.
  { intros t k c Hv. apply (H3 t k); [|done]. apply Hkeys, (listed_active _ Hl).
    destruct (view t s) as [[[k0 p0] c0]|] eqn:E0; [|by rewrite (closes_none _ _ H2 _ E0) in Hv].
    destruct (closes_view _ _ H2 _ _ _ _ E0) as (p1 & c1 & E1 & Hpp & _). rewrite Hv in E1. injection E1 as -> <- <-.
    rewrite (Hpp eq_refl) in E0. by exists t, c0. }
  destruct (drop_queue_spec (rev (queue s1)) (set_queue [] (set_active ∅ s1))) as (R1 & R2 & R3 & R4); try done.
  - apply NoDup_ListNoDup, NoDup_rev, NoDup_ListNoDup, Hq1.
  - by destruct Ha1.
  - intros t. rewrite list_elem_of_In, <- in_rev, <- list_elem_of_In.
    rewrite (queued_iff _ _ Hq1). split; [by intros (_ & ? & _)|]. intros (k & c & Hv). split; [done|]. split; [by eauto|].
    apply (Hw1 t k). rewrite (Hc1 t k c Hv) in Hv. exact Hv.
  - split; [done|]. split; [apply R2|]. intros t. rewrite <- (view_length t s).
    assert (closes s s') as [Hcv Hcn] by (eapply closes_trans; [exact H2|]; eapply closes_trans; [|exact R3]; by apply closes_same). etrans; [exact (acc_dropped _ R2 t)|]. split.
    + intros (k & c & Hv). destruct (view t s) eqn:E; [by eexists|]. apply Hcn in E. assert (Some (k, false, c) = None) by (rewrite <- Hv; exact E). done.
    + intros [[[k p] c] Hv]. destruct (Hcv _ _ _ _ Hv) as ([] & c' & Hv' & _); [|by exists k, c']. by apply R4 in Hv'.
Qed.
End Drop.

(** ** A concrete executor

    The world holds the number of wake-ups still allowed; each of three tasks
    wakes another one as long as this number is positive, and the first one sends
    a message at its first poll. *)
Definition demo_poll (t : nat) (w : nat) : nat * list nat * Z * PollOutcome :=
  match w with
  | O => (O, [], 0, if (t =? 2)%nat then PReady else PPending)
  | S w => (w, [((t + 1) mod 3)%nat], if (t =? 0)%nat then 1 else 0, PPending)
  end.
Definition demo_drop (t : nat) (w : nat) : nat * list nat :=
  match w with O => (O, []) | S w => (w, [((t + 1) mod 3)%nat]) end.

(** A key that is not used: the largest key plus one. *)
Definition demo_key (keys : gset nat) : nat := S (list_max (elements keys)).

Lemma demo_key_fresh keys : demo_key keys ∉ keys.
Proof.
  unfold demo_key. intros Hin%elem_of_elements. apply list_elem_of_In in Hin.
  pose proof (proj1 (list_max_le (elements keys) _) (le_n _)) as Hf. apply Forall_forall with (x := S (list_max (elements keys))) in Hf; [lia|].
  by apply list_elem_of_In.
Qed.

Definition demo_inner (budget : nat) : Inner nat :=
  spawn demo_key (spawn demo_key (spawn demo_key (new budget 0))).

Lemma demo_inv budget : inv (demo_inner budget).
Proof. do 3 (apply st_spawn_inv; [apply demo_key_fresh|]). apply st_new_inv. Qed.

Lemma st_run_complete_witness : exists o s',
  run_inner demo_poll demo_drop (fun _ => false) 20 (demo_inner 5) = Some (o, s') /\ inv s' /\
  o = Returned (Err (UnprocessedMessages 1)).
Proof.
  destruct (st_run_complete demo_poll demo_drop (fun _ => false) (fun w => w)) with (fuel := 20%nat) (s := demo_inner 5)
    as (o & s' & Hrun & Hinv & _).
  - intros t [|w] w' woken d o; intros [= <- <- <- <-]; cbn; lia.
  - intros t [|w] w' woken; intros [= <- <-]; cbn; lia.
  - apply demo_inv.
  - vm_compute. reflexivity.
  - exists o, s'. split; [exact Hrun|]. split; [exact Hinv|].
    revert Hrun. vm_compute. congruence.
Defined.

Lemma st_drop_all_witness : let s' := drop_inner demo_drop (elements (active_tasks (demo_inner 5))) (demo_inner 5) in
  queue s' = [] /\ NoDup (dropped s') /\ forall t, t ∈ dropped s' <-> (t < length (tasks (demo_inner 5)))%nat.
Proof. apply st_drop_all; [apply demo_inv|]. intros k Hk. by apply elem_of_elements. Defined.

(** A task that sends a message and panics, in an executor nested in a task of
    another executor whose thread has counted 3 messages so far: after the run the
    count is 1, and these 3 messages are not counted any more. *)
Example st_nested_panic_count :
  option_map (fun r => (r.1.1, r.2))
    (run (fun _ (w : unit) => (w, [], 1, PPanic)) (fun _ w => (w, [])) (fun _ => false) true true 5
       (Some (spawn demo_key (new tt 0))) 3)
  = Some (Returned (Err Panic), 1).
Proof. vm_compute. reflexivity. Qed.
End StExecutorDrop.
