(* ===== verification/SeqFuture.v ===== *)
(** * Sequential futures: [util/seq_futures.rs]

    A future that polls a list of futures one after the other, on the futures of
    [Broadcaster] (which panic when they are polled after completion).  The index
    beyond the end of the vector is the intended panic ([None]) of a poll after
    completion, and of the poll of an empty [SeqFuture]. *)

From S2P Require Import Prelude TaskSet Broadcaster.

Module SeqFuture.
Import Futures.

Section Defs.
Context {R : Type}.

Record SeqFuture : Type := mkSeq { inner : list (Fut R); idx : nat }.

Definition new : SeqFuture := mkSeq [] 0.
Definition push (f : Fut R) (s : SeqFuture) : SeqFuture := mkSeq (inner s ++ [f]) (idx s).

(** The loop of [poll]; at most one iteration per future that is left. *)
Fixpoint poll_loop (fuel : nat) (s : SeqFuture) : option (Poll unit * SeqFuture) :=
  match fuel with
  | 0 => None
  | S fuel =>
      f ← inner s !! idx s;
      '(p, f) ← poll_fut f;
      let s := mkSeq (<[idx s := f]> (inner s)) (idx s) in
      if is_ready p then
        let s := mkSeq (inner s) (S (idx s)) in
        if idx s =? length (inner s) then Some (Ready tt, s) else poll_loop fuel s
      else Some (Pending, s)
  end.
Definition poll (s : SeqFuture) : option (Poll unit * SeqFuture) := poll_loop (S (length (inner s))) s.

(** [n] polls in a row. *)
Fixpoint polls_of (n : nat) (s : SeqFuture) : option (list (Poll unit) * SeqFuture) :=
  match n with
  | 0 => Some ([], s)
  | S n => '(p, s) ← poll s; '(ps, s) ← polls_of n s; Some (p :: ps, s)
  end.
End Defs.
#[global] Arguments SeqFuture : clear implicits.

Section Facts.
Context {R : Type}.
Implicit Types s : SeqFuture R.

(** The future will be pending [k] more times, then ready. *)
Definition pending_for (f : Fut R) (k : nat) : Prop :=
  finished f = false /\ exists r, ready_at (outcome f) (polls f + k) r.

Lemma poll_pending f k : pending_for f (S k) -> exists f', poll_fut f = Some (Pending, f') /\ pending_for f' k.
Proof.
  intros [Hf (r & Hr & Hp)]. unfold poll_fut. rewrite Hf. rewrite (Hp (polls f)) by lia. eexists. split; [done|].
  split; [done|]. exists r. cbn. replace (S (polls f + k)) with (polls f + S k) by lia. done.
Qed.

Lemma poll_ready f : pending_for f 0 -> exists r f', poll_fut f = Some (Ready r, f').
Proof.
  intros [Hf (r & Hr & Hp)]. unfold poll_fut. rewrite Hf. rewrite Nat.add_0_r in Hr. rewrite Hr. by exists r, (mkFut (outcome f) (S (polls f)) true).
Qed.

(** One poll with [ks] the numbers of pending polls of the futures left. *)
Lemma seq_poll_loop ks : forall fuel s, length ks < fuel -> ks <> [] -> Forall2 pending_for (drop (idx s) (inner s)) ks ->
  exists p s', poll_loop fuel s = Some (p, s') /\ length (inner s') = length (inner s) /\
    match sum_list ks with
    | 0 => p = Ready tt /\ idx s' = length (inner s')
    | S n => p = Pending /\ exists ks', ks' <> [] /\ sum_list ks' = n /\ Forall2 pending_for (drop (idx s') (inner s')) ks'
    end.
Proof.
  induction ks as [|k ks IH]; intros fuel s Hfuel Hne Hall; [done|]. destruct fuel as [|fuel]; [lia|]. cbn [poll_loop].
  apply Forall2_cons_inv_r in Hall as (f & fs & Hf & Hfs & Hd).
  assert (inner s !! idx s = Some f) as Hlk by (rewrite <- (Nat.add_0_r (idx s)), <- lookup_drop, Hd; done).
  rewrite Hlk. cbn [mbind option_bind]. assert (idx s < length (inner s)) as Hlt by (by eapply lookup_lt_Some).
  assert (forall g, drop (idx s) (<[idx s := g]> (inner s)) = g :: fs) as Hdrop.
  { intros g. rewrite drop_insert_ge by lia. by rewrite Nat.sub_diag, Hd. }
  destruct k as [|k].
  - destruct (poll_ready f Hf) as (r & f' & ->). cbn [mbind option_bind is_ready inner idx].
    rewrite length_insert. assert (drop (S (idx s)) (<[idx s := f']> (inner s)) = fs) as Hdrop'.
    { rewrite drop_insert_lt by lia. by rewrite <- Nat.add_1_r, <- drop_drop, Hd. }
    destruct ks as [|k' ks'].
    + apply Forall2_nil_inv_r in Hfs as ->. assert (length (drop (idx s) (inner s)) = 1) as Hl by (by rewrite Hd).
      rewrite length_drop in Hl. rewrite (proj2 (Nat.eqb_eq _ _)) by lia. eexists _, _. split; [done|]. cbn. rewrite length_insert. split; [done|]. split; [done|lia].
    + assert (S (idx s) <> length (inner s)) as Hend.
      { assert (length (drop (idx s) (inner s)) = S (length fs)) as Hl by (by rewrite Hd). rewrite length_drop in Hl.
        apply Forall2_length in Hfs. cbn in Hfs. lia. }
      rewrite (proj2 (Nat.eqb_neq _ _) Hend).
      destruct (IH fuel (mkSeq (<[idx s := f']> (inner s)) (S (idx s)))) as (p & s' & Hs & Hl & Hm); [cbn in *; lia|done|cbn; by rewrite Hdrop'|].
      exists p, s'. split; [exact Hs|]. cbn in Hl. rewrite length_insert in Hl. split; [done|]. exact Hm.
  - destruct (poll_pending f k Hf) as (f' & -> & Hf'). cbn [mbind option_bind is_ready inner idx]. eexists _, _. split; [done|].
    cbn [inner idx]. rewrite length_insert. split; [done|]. cbn [sum_list Nat.add]. split; [done|]. exists (k :: ks). split; [done|].
    split; [done|]. rewrite Hdrop. by constructor.
Qed.

Lemma seq_polls n : forall s ks, ks <> [] -> sum_list ks = n -> Forall2 pending_for (drop (idx s) (inner s)) ks ->
  exists s', polls_of (S n) s = Some (replicate n Pending ++ [Ready tt], s') /\ idx s' = length (inner s').
Proof.
  induction n as [|n IH]; intros s ks Hne Hsum Hall.
  - cbn [polls_of]. destruct (seq_poll_loop ks (S (length (inner s))) s) as (p & s' & Hs & _ & Hm); [|done..|].
    { apply Forall2_length in Hall. rewrite length_drop in Hall. lia. }
    unfold poll. rewrite Hs. rewrite Hsum in Hm. destruct Hm as [-> Hi]. cbn. by exists s'.
  - destruct (seq_poll_loop ks (S (length (inner s))) s) as (p & s' & Hs & _ & Hm); [|done..|].
    { apply Forall2_length in Hall. rewrite length_drop in Hall. lia. }
    change (polls_of (S (S n)) s) with ('(p, s) ← poll s; '(ps, s) ← polls_of (S n) s; Some (p :: ps, s)).
    unfold poll. rewrite Hs. rewrite Hsum in Hm. destruct Hm as (-> & ks' & Hne' & Hsum' & Hall'). cbn [mbind option_bind].
    destruct (IH s' ks' Hne' Hsum' Hall') as (s2 & Hp & Hi). rewrite Hp. by exists s2.
Qed.

(** A sequential future over a non-empty list of futures, of which the i-th is
    pending at its first [ks i] polls and then ready, is pending at its first
    [sum ks] polls and ready at the next one, and then polled all of them to
    completion. *)
Theorem seq_future_polls (fs : list (Fut R)) ks : fs <> [] -> Forall2 pending_for fs ks ->
  exists s', polls_of (S (sum_list ks)) (foldl (fun s f => push f s) new fs) = Some (replicate (sum_list ks) Pending ++ [Ready tt], s') /\
    idx s' = length (inner s').
Proof.
  intros Hne Hall.
  assert (forall s, foldl (fun s f => push f s) s fs = mkSeq (inner s ++ fs) (idx s)) as E.
  { clear. induction fs as [|f fs IH]; intros s; cbn; [rewrite app_nil_r; by destruct s|]. rewrite IH. cbn. by rewrite <- app_assoc. }
  rewrite E. apply (seq_polls _ _ ks); [|done|done]. intros ->. by apply Forall2_nil_inv_r in Hall.
Qed.

(** An empty one panics at its first poll, as does the poll after completion. *)
Theorem seq_future_panics s : idx s = length (inner s) -> poll s = None.
Proof. intros Hi. unfold poll. cbn. by rewrite Hi, lookup_ge_None_2. Qed.
End Facts.
End SeqFuture.
