(* ===== verification/CachedRwLock.v ===== *)
(** * Cached read-write locks: [util/cached_rw_lock.rs]

    Clones of a lock, used by different threads, each with its own cache of the
    shared value.  The comparison of the epochs takes place outside of the mutex,
    everything else under it; a write guard may be held, and the shared value
    modified, for any time.  A thread that panics while it holds the guard poisons
    the mutex.  Memory is sequentially consistent and the epoch, a counter of
    write accesses, is assumed not to overflow. *)

From S2P Require Import Prelude.

Module CachedRwLock.

Inductive Pc (A : Type) : Type :=
  | Idle
  | RCheck                              (** [read], [write_scratchpad]: load of the epoch *)
  | RLock                               (** the cache is synchronized under the mutex *)
  | RRet (v : A)                        (** [Ok] *)
  | RErr (v : A)                        (** [Err]: the mutex is poisoned *)
  | WLock                               (** [write]: lock of the mutex *)
  | WBump                               (** increment of the epoch *)
  | WGuard.                             (** the guard was returned *)
#[global] Arguments Idle {_}.
#[global] Arguments RCheck {_}.
#[global] Arguments RLock {_}.
#[global] Arguments RRet {_} _.
#[global] Arguments RErr {_} _.
#[global] Arguments WLock {_}.
#[global] Arguments WBump {_}.
#[global] Arguments WGuard {_}.

(** A clone of the lock; [dirty]: its cache was used as a scratchpad since it was
    last synchronized. *)
Record Handle (A : Type) : Type := mkHandle { value : A; epoch : nat; pc : Pc A; dirty : bool }.
#[global] Arguments mkHandle {_} _ _ _ _.
#[global] Arguments value {_} _.
#[global] Arguments epoch {_} _.
#[global] Arguments pc {_} _.
#[global] Arguments dirty {_} _.

Record Lock (A : Type) : Type := mkLock {
  shared_value : A;
  shared_epoch : nat;
  holder : option nat;                  (** the owner of the mutex *)
  poisoned : bool;
  handles : list (Handle A) }.
#[global] Arguments mkLock {_} _ _ _ _ _.
#[global] Arguments shared_value {_} _.
#[global] Arguments shared_epoch {_} _.
#[global] Arguments holder {_} _.
#[global] Arguments poisoned {_} _.
#[global] Arguments handles {_} _.

Inductive Action (A : Type) : Type :=
  | ARead (t : nat) | AWrite (t : nat) | AStep (t : nat)
  | AModify (t : nat) (f : A -> A) | ARelease (t : nat) (panicking : bool)
  | AScratch (t : nat) (f : A -> A) | AClone (t : nat).
#[global] Arguments ARead {_} _.
#[global] Arguments AWrite {_} _.
#[global] Arguments AStep {_} _.
#[global] Arguments AModify {_} _ _.
#[global] Arguments ARelease {_} _ _.
#[global] Arguments AScratch {_} _ _.
#[global] Arguments AClone {_} _.

Section Defs.
Context {A : Type}.
Implicit Types s : Lock A.

Definition new (t : A) : Lock A := mkLock t 0 None false [mkHandle t 0 Idle false].

Definition set_handle (t : nat) (h : Handle A) s : Lock A :=
  mkLock (shared_value s) (shared_epoch s) (holder s) (poisoned s) (<[t := h]> (handles s)).
Definition set_holder (o : option nat) s : Lock A :=
  mkLock (shared_value s) (shared_epoch s) o (poisoned s) (handles s).
Definition set_shared (v : A) (e : nat) s : Lock A := mkLock v e (holder s) (poisoned s) (handles s).
Definition poison (b : bool) s : Lock A :=
  mkLock (shared_value s) (shared_epoch s) (holder s) (poisoned s || b) (handles s).

Definition goto (p : Pc A) (h : Handle A) : Handle A := mkHandle (value h) (epoch h) p (dirty h).
Definition at_rest (p : Pc A) : bool := match p with Idle | RRet _ | RErr _ => true | _ => false end.

Definition handle_step (t : nat) (h : Handle A) s : Lock A :=
  match pc h with
  | RCheck => set_handle t (goto (if shared_epoch s =? epoch h then RRet (value h) else RLock) h) s
  | RLock =>
      match holder s with
      | Some _ => s
      | None =>
          if poisoned s then set_handle t (goto (RErr (value h)) h) s
          else set_handle t (mkHandle (shared_value s) (shared_epoch s) (RRet (shared_value s)) false) s
      end
  | WLock => match holder s with Some _ => s | None => set_handle t (goto WBump h) (set_holder (Some t) s) end
  | WBump => set_handle t (goto WGuard h) (set_shared (shared_value s) (S (shared_epoch s)) s)
  | _ => s
  end.

Definition step (a : Action A) s : Lock A :=
  match a with
  | ARead t => match handles s !! t with Some h => if at_rest (pc h) then set_handle t (goto RCheck h) s else s | None => s end
  | AWrite t => match handles s !! t with Some h => if at_rest (pc h) then set_handle t (goto WLock h) s else s | None => s end
  | AStep t => match handles s !! t with Some h => handle_step t h s | None => s end
  | AModify t f =>
      match handles s !! t with
      | Some h => match pc h with WGuard => set_shared (f (shared_value s)) (shared_epoch s) s | _ => s end
      | None => s
      end
  | ARelease t panicking =>
      match handles s !! t with
      | Some h => match pc h with WGuard => set_handle t (goto Idle h) (set_holder None (poison panicking s)) | _ => s end
      | None => s
      end
  | AScratch t f =>
      match handles s !! t with
      | Some h => if at_rest (pc h) then set_handle t (mkHandle (f (value h)) (epoch h) (pc h) true) s else s
      | None => s
      end
  | AClone t =>
      match handles s !! t with
      | Some h => if at_rest (pc h)
                  then mkLock (shared_value s) (shared_epoch s) (holder s) (poisoned s) (handles s ++ [goto Idle h]) else s
      | None => s
      end
  end.

Fixpoint run (sched : list (Action A)) s : Lock A :=
  match sched with [] => s | a :: sched => run sched (step a s) end.
End Defs.

(** ** Coherence *)
Section Facts.
Context {A : Type}.
Implicit Types s : Lock A.

Definition coherent s (h : Handle A) : Prop :=
  epoch h <= shared_epoch s /\ (epoch h = shared_epoch s -> dirty h = false -> value h = shared_value s).

Definition holds_guard (p : Pc A) : bool := match p with WBump | WGuard => true | _ => false end.

Record inv s : Prop := {
  iv_coherent t h : handles s !! t = Some h -> coherent s h;
  iv_holder t h : handles s !! t = Some h -> holds_guard (pc h) = true -> holder s = Some t;
  iv_guard t h t' h' : handles s !! t = Some h -> pc h = WGuard -> handles s !! t' = Some h' -> epoch h' < shared_epoch s }.

(** The handles after one of them has changed. *)
Lemma lookup_set s t h' u g : (<[t := h']> (handles s)) !! u = Some g -> u = t /\ g = h' \/ u <> t /\ handles s !! u = Some g.
Proof. intros [(<- & -> & _)|[Hne Hu]]%list_lookup_insert_Some; [by left|by right]. Qed.

(** A handle changes its cache or its program point, without the mutex. *)
Lemma local_inv s t h h' : inv s -> handles s !! t = Some h -> epoch h' = epoch h -> coherent s h' -> holds_guard (pc h') = false ->
  inv (set_handle t h' s).
Proof.
  intros [Hc Hh Hg] Ht He Hc' Hp. split; cbn.
  - intros u g [[-> ->]|[_ Hu]]%lookup_set; [done|by eapply Hc].
  - intros u g [[-> ->]|[_ Hu]]%lookup_set; [congruence|by eapply Hh].
  - intros u g u' g' [[-> ->]|[_ Hu]]%lookup_set Hw; [by rewrite Hw in Hp|].
    intros [[-> ->]|[_ Hu']]%lookup_set; [rewrite He|]; by eapply (Hg u g).
Qed.

Lemma no_guard s t h : inv s -> holder s = None -> handles s !! t = Some h -> holds_guard (pc h) = false.
Proof. intros Hi Hn Ht. apply not_true_iff_false. intros E. pose proof (iv_holder _ Hi _ _ Ht E). congruence. Qed.

(** The cache is synchronized under the mutex. *)
Lemma sync_inv s t p : inv s -> holder s = None -> holds_guard p = false ->
  inv (set_handle t (mkHandle (shared_value s) (shared_epoch s) p false) s).
Proof.
  intros Hi Hn Hp. split; cbn.
  - intros u g [[-> ->]|[_ Hu]]%lookup_set; [by split|by eapply (iv_coherent _ Hi)].
  - intros u g [[-> ->]|[_ Hu]]%lookup_set; [cbn; congruence|by eapply (iv_holder _ Hi)].
  - intros u g u' g' [[-> ->]|[_ Hu]]%lookup_set Hw; [cbn in Hw; by rewrite Hw in Hp|].
    pose proof (no_guard _ _ _ Hi Hn Hu) as E. by rewrite Hw in E.
Qed.

(** The mutex is locked for a write access. *)
Lemma acquire_inv s t h : inv s -> holder s = None -> handles s !! t = Some h ->
  inv (set_handle t (goto WBump h) (set_holder (Some t) s)).
Proof.
  intros Hi Hn Ht. split; cbn.
  - intros u g [[-> ->]|[_ Hu]]%lookup_set; [exact (iv_coherent _ Hi _ _ Ht)|exact (iv_coherent _ Hi _ _ Hu)].
  - intros u g [[-> ->]|[_ Hu]]%lookup_set Hw; [done|]. pose proof (no_guard _ _ _ Hi Hn Hu). congruence.
  - intros u g u' g' [[-> ->]|[_ Hu]]%lookup_set Hw; [done|]. pose proof (no_guard _ _ _ Hi Hn Hu) as E. by rewrite Hw in E.
Qed.

Lemma bump_inv s t h : inv s -> handles s !! t = Some h -> pc h = WBump ->
  inv (set_handle t (goto WGuard h) (set_shared (shared_value s) (S (shared_epoch s)) s)).
Proof.
  intros Hi Ht Hp. assert (holder s = Some t) as Ho by (apply (iv_holder _ Hi _ _ Ht); by rewrite Hp).
  assert (forall u g, handles s !! u = Some g -> epoch g < S (shared_epoch s)) as Hlt.
  { intros u g Hu. destruct (iv_coherent _ Hi _ _ Hu). lia. }
  assert (forall u g, (<[t := goto WGuard h]> (handles s)) !! u = Some g -> epoch g < S (shared_epoch s)) as Hlt'.
  { intros u g [[-> ->]|[_ Hu]]%lookup_set; [by apply (Hlt t h)|by apply (Hlt u g)]. }
  split; cbn.
  - intros u g Hu. specialize (Hlt' _ _ Hu). split; cbn; [lia|]. intros E. lia.
  - intros u g [[-> ->]|[_ Hu]]%lookup_set Hw; [done|by eapply (iv_holder _ Hi)].
  - intros u g u' g' _ _ Hu'. by apply (Hlt' u').
Qed.

Lemma modify_inv s t h v : inv s -> handles s !! t = Some h -> pc h = WGuard -> inv (set_shared v (shared_epoch s) s).
Proof.
  intros Hi Ht Hp. split; cbn; [|apply Hi|apply Hi]. intros u g Hu. pose proof (iv_guard _ Hi _ _ _ _ Ht Hp Hu).
  split; cbn; [lia|]. intros E. lia.
Qed.

Lemma release_inv s t h b : inv s -> handles s !! t = Some h -> pc h = WGuard ->
  inv (set_handle t (goto Idle h) (set_holder None (poison b s))).
Proof.
  intros Hi Ht Hp. assert (holder s = Some t) as Ho by (apply (iv_holder _ Hi _ _ Ht); by rewrite Hp). split; cbn.
  - intros u g [[-> ->]|[_ Hu]]%lookup_set; [exact (iv_coherent _ Hi _ _ Ht)|exact (iv_coherent _ Hi _ _ Hu)].
  - intros u g [[-> ->]|[Hne Hu]]%lookup_set Hw; [done|]. pose proof (iv_holder _ Hi _ _ Hu Hw). congruence.
  - intros u g u' g' [[-> ->]|[Hne Hu]]%lookup_set Hw; [done|].
    assert (holder s = Some u) by (apply (iv_holder _ Hi _ _ Hu); by rewrite Hw). congruence.
Qed.

Lemma clone_inv s t h : inv s -> handles s !! t = Some h ->
  inv (mkLock (shared_value s) (shared_epoch s) (holder s) (poisoned s) (handles s ++ [goto Idle h])).
Proof.
  intros Hi Ht.
  assert (forall u g, (handles s ++ [goto Idle h]) !! u = Some g -> handles s !! u = Some g \/ g = goto Idle h) as Hlk.
  { intros u g [Hu|[_ Hu]]%lookup_app_Some; [by left|right]. apply list_lookup_singleton_Some in Hu as [_ <-]. done. }
  split; cbn.
  - intros u g [Hu| ->]%Hlk; [exact (iv_coherent _ Hi _ _ Hu)|exact (iv_coherent _ Hi _ _ Ht)].
  - intros u g Hu Hw. pose proof Hu as [Hu'| ->]%Hlk; [|done]. by eapply (iv_holder _ Hi).
  - intros u g u' g' [Hu| ->]%Hlk Hw; [|done]. intros [Hu'| ->]%Hlk; [by eapply (iv_guard _ Hi u g)|exact (iv_guard _ Hi _ _ _ _ Hu Hw Ht)].
Qed.

Lemma lock_step_inv a s : inv s -> inv (step a s).
Proof.
  intros Hi. assert (forall t h p, handles s !! t = Some h -> coherent s (goto p h)) as Hgo by (intros t h p Ht; exact (iv_coherent _ Hi _ _ Ht)).
  destruct a as [t|t|t|t f|t b|t f|t]; cbn [step]; (destruct (handles s !! t) as [h|] eqn:Et; [|done]).
  - destruct (at_rest (pc h)); [|done]. by apply (local_inv s t h); [| | |eapply Hgo|].
  - destruct (at_rest (pc h)); [|done]. by apply (local_inv s t h); [| | |eapply Hgo|].
  - unfold handle_step. destruct (pc h) eqn:Ep; try done.
    + apply (local_inv s t h); [done|done|done|by eapply Hgo|]. cbn. by case_match.
    + destruct (holder s) eqn:Eh; [done|]. destruct (poisoned s); [by apply (local_inv s t h); [| | |eapply Hgo|]|]. by apply sync_inv.
    + destruct (holder s) eqn:Eh; [done|]. by apply acquire_inv.
    + by apply bump_inv.
  - destruct (pc h) eqn:Ep; try done. by eapply modify_inv.
  - destruct (pc h) eqn:Ep; try done. by eapply release_inv.
  - destruct (at_rest (pc h)) eqn:Er; [|done]. apply (local_inv s t h); [done|done|done| |by cbn; destruct (pc h)].
    split; [apply (iv_coherent _ Hi _ _ Et)|done].
  - destruct (at_rest (pc h)) eqn:Er; [|done]. by eapply clone_inv.
Qed.

Lemma lock_new_inv v : inv (new v).
Proof.
  split; cbn; intros [|t] h; cbn; try done.
  - intros [= <-]. split; done.
  - intros [= <-]. done.
  - intros t' h' [= <-]. done.
Qed.

Lemma lock_run_inv sched s : inv s -> inv (run sched s).
Proof. revert s. induction sched as [|a sched IH]; intros s Hi; [done|]. by apply IH, lock_step_inv. Qed.

(** Reads are coherent: whenever a step of a [read] makes it return, the value
    returned is the shared value at this moment, and no write access is in
    progress then, unless the cache was used as a scratchpad since it was last
    synchronized; it fails only if the mutex is poisoned. *)
Theorem cached_read_coherent (v0 v : A) sched t h h' : let s := run sched (new v0) in let s' := step (AStep t) s in
  handles s !! t = Some h -> dirty h = false -> handles s' !! t = Some h' -> pc h <> pc h' ->
  (pc h' = RRet v -> v = shared_value s /\ forall u g, handles s !! u = Some g -> pc g <> WGuard) /\
  (pc h' = RErr v -> poisoned s = true).
Proof.
  intros s s' Ht Hd Ht' Hne. assert (inv s) as Hi by (apply lock_run_inv, lock_new_inv).
  assert (forall g, (<[t := g]> (handles s)) !! t = Some h' -> h' = g) as Hset.
  { intros g. rewrite list_lookup_insert_eq by (by eapply lookup_lt_Some). by intros [= ->]. }
  unfold s' in Ht'. cbn [step] in Ht'. rewrite Ht in Ht'. unfold handle_step in Ht'.
  destruct (pc h) eqn:Ep; try (rewrite Ht in Ht'; injection Ht' as <-; congruence).
  - apply Hset in Ht' as ->. cbn. destruct (Nat.eqb_spec (shared_epoch s) (epoch h)) as [E|E]; [|done]. split; [|done]. intros [= <-].
    split; [by apply (iv_coherent _ Hi _ _ Ht)|]. intros u g Hu Hw. pose proof (iv_guard _ Hi _ _ _ _ Hu Hw Ht). lia.
  - destruct (holder s) eqn:Eh; [rewrite Ht in Ht'; injection Ht' as <-; congruence|].
    destruct (poisoned s) eqn:Epo; apply Hset in Ht' as ->; cbn; [done|]. split; [|done]. intros [= <-]. split; [done|].
    intros u g Hu Hw. pose proof (no_guard _ _ _ Hi Eh Hu) as E. by rewrite Hw in E.
  - destruct (holder s) eqn:Eh; [rewrite Ht in Ht'; injection Ht' as <-; congruence|]. apply Hset in Ht' as ->. done.
  - apply Hset in Ht' as ->. done.
Qed.
End Facts.
End CachedRwLock.
