(* ===== verification/SharedCell.v ===== *)
(** * Overwriting cells: [util/shared_cell.rs]

    The double buffer behind event slots.  Calls of [try_write] and [try_read] by
    any number of writers and readers interleave their accesses to the index and
    to the locks of the two slots; memory is sequentially consistent.  A slot is
    accessed between the acquisition and the release of its lock.

    The module documents that a write always succeeds if there is no concurrent
    write.  This is shown for one reader, which is how event slots use the cell;
    [lone_writer_fails] is a schedule with two readers in which it does not hold. *)

From S2P Require Import Prelude.
Local Open Scope Z_scope.

Module SharedCell.

Definition WRITER_LOCK : Z := 1.
Definition READER_LOCK : Z := 2.

(** Program points of [try_write]; the flag tells whether the slot is the second
    one that is tried.  [since]: the number of writes completed when the call
    started. *)
Inductive WriterPc (V : Type) : Type :=
  | WIdle
  | WLoad (v : V) (since : nat)                  (** load of [slot_idx] *)
  | WLock (v : V) (i : bool) (since : nat)       (** first [fetch_or] *)
  | WOther (v : V) (i : bool) (since : nat)      (** second [fetch_or], on the slot [i] *)
  | WWrite (v : V) (i : bool) (other : bool)     (** access to the slot *)
  | WIndex (i : bool)                            (** store of [slot_idx] *)
  | WUnlock (i : bool)
  | WOk
  | WErr (v : V) (since : nat).
#[global] Arguments WIdle {_}.
#[global] Arguments WLoad {_} _ _.
#[global] Arguments WLock {_} _ _ _.
#[global] Arguments WOther {_} _ _ _.
#[global] Arguments WWrite {_} _ _ _.
#[global] Arguments WIndex {_} _.
#[global] Arguments WUnlock {_} _.
#[global] Arguments WOk {_}.
#[global] Arguments WErr {_} _ _.

(** Program points of [try_read]. *)
Inductive ReaderPc (V : Type) : Type :=
  | RIdle
  | RLoad
  | RLock (i : bool)
  | RTake (i : bool)
  | RUnlock (i : bool) (v : option V)
  | RRet (v : option V).
#[global] Arguments RIdle {_}.
#[global] Arguments RLoad {_}.
#[global] Arguments RLock {_} _.
#[global] Arguments RTake {_} _.
#[global] Arguments RUnlock {_} _ _.
#[global] Arguments RRet {_} _.

Record Cell (V : Type) : Type := mkCell {
  slots : bool -> option V;             (** [false] is slot 0 *)
  slot_idx : bool;
  locks : bool -> Z;
  writers : list (WriterPc V);
  readers : list (ReaderPc V);
  completed : nat;                      (** history: successful writes *)
  written : list V;                     (** history: values stored in a slot *)
  taken : list V;                       (** history: values taken by readers *)
  lost : list V }.                      (** history: values overwritten *)
#[global] Arguments mkCell {_} _ _ _ _ _ _ _ _ _.
#[global] Arguments slots {_} _ _.
#[global] Arguments slot_idx {_} _.
#[global] Arguments locks {_} _ _.
#[global] Arguments writers {_} _.
#[global] Arguments readers {_} _.
#[global] Arguments completed {_} _.
#[global] Arguments written {_} _.
#[global] Arguments taken {_} _.
#[global] Arguments lost {_} _.

Inductive Action (V : Type) : Type :=
  | ATryWrite (i : nat) (v : V) | AWriter (i : nat)
  | ATryRead (i : nat) | AReader (i : nat).
#[global] Arguments ATryWrite {_} _ _.
#[global] Arguments AWriter {_} _.
#[global] Arguments ATryRead {_} _.
#[global] Arguments AReader {_} _.

Definition fset {A} (f : bool -> A) (i : bool) (a : A) : bool -> A := fun j => if Bool.eqb i j then a else f j.

Section Defs.
Context {V : Type}.
Implicit Types c : Cell V.

Definition new (n_writers n_readers : nat) : Cell V :=
  mkCell (fun _ => None) false (fun _ => 0) (replicate n_writers WIdle) (replicate n_readers RIdle) 0 [] [] [].

Definition set_writer (t : nat) (p : WriterPc V) c : Cell V :=
  mkCell (slots c) (slot_idx c) (locks c) (<[t := p]> (writers c)) (readers c) (completed c) (written c) (taken c) (lost c).
Definition set_reader (t : nat) (p : ReaderPc V) c : Cell V :=
  mkCell (slots c) (slot_idx c) (locks c) (writers c) (<[t := p]> (readers c)) (completed c) (written c) (taken c) (lost c).
Definition set_lock (i : bool) (l : Z) c : Cell V :=
  mkCell (slots c) (slot_idx c) (fset (locks c) i l) (writers c) (readers c) (completed c) (written c) (taken c) (lost c).
Definition set_idx (i : bool) c : Cell V :=
  mkCell (slots c) i (locks c) (writers c) (readers c) (completed c) (written c) (taken c) (lost c).
Definition complete c : Cell V :=
  mkCell (slots c) (slot_idx c) (locks c) (writers c) (readers c) (S (completed c)) (written c) (taken c) (lost c).
Definition opt_list (o : option V) : list V := match o with Some v => [v] | None => [] end.
Definition store (i : bool) (v : V) c : Cell V :=
  mkCell (fset (slots c) i (Some v)) (slot_idx c) (locks c) (writers c) (readers c) (completed c)
    (written c ++ [v]) (taken c) (lost c ++ opt_list (slots c i)).
Definition take_slot (i : bool) c : Cell V :=
  mkCell (fset (slots c) i None) (slot_idx c) (locks c) (writers c) (readers c) (completed c)
    (written c) (taken c ++ opt_list (slots c i)) (lost c).

(** [fetch_or] of a lock: the previous value and the new state. *)
Definition fetch_or (i : bool) (bit : Z) c : Z * Cell V := (locks c i, set_lock i (Z.lor (locks c i) bit) c).

(** ** [try_write] *)
Definition writer_step (t : nat) (p : WriterPc V) c : Cell V :=
  match p with
  | WLoad v since => set_writer t (WLock v (slot_idx c) since) c
  | WLock v i since =>
      let '(l, c) := fetch_or i WRITER_LOCK c in
      if l =? 0 then set_writer t (WWrite v i false) c
      else if l =? WRITER_LOCK then set_writer t (WErr v since) c
      else set_writer t (WOther v (negb i) since) c
  | WOther v i since =>
      let '(l, c) := fetch_or i WRITER_LOCK c in
      if l =? 0 then set_writer t (WWrite v i true) c else set_writer t (WErr v since) c
  | WWrite v i other => set_writer t (if other : bool then WIndex i else WUnlock i) (store i v c)
  | WIndex i => set_writer t (WUnlock i) (set_idx i c)
  | WUnlock i => set_writer t WOk (complete (set_lock i 0 c))
  | WIdle | WOk | WErr _ _ => c
  end.

(** ** [try_read] *)
Definition reader_step (t : nat) (p : ReaderPc V) c : Cell V :=
  match p with
  | RLoad => set_reader t (RLock (slot_idx c)) c
  | RLock i =>
      let '(l, c) := fetch_or i READER_LOCK c in
      if l =? 0 then set_reader t (RTake i) c else set_reader t (RRet None) c
  | RTake i => set_reader t (RUnlock i (slots c i)) (take_slot i c)
  | RUnlock i v => set_reader t (RRet v) (set_lock i 0 c)
  | RIdle | RRet _ => c
  end.

Definition step (a : Action V) c : Cell V :=
  match a with
  | ATryWrite t v =>
      match writers c !! t with
      | Some (WIdle | WOk | WErr _ _) => set_writer t (WLoad v (completed c)) c
      | _ => c
      end
  | AWriter t => match writers c !! t with Some p => writer_step t p c | None => c end
  | ATryRead t =>
      match readers c !! t with
      | Some (RIdle | RRet _) => set_reader t RLoad c
      | _ => c
      end
  | AReader t => match readers c !! t with Some p => reader_step t p c | None => c end
  end.

Fixpoint run (sched : list (Action V)) c : Cell V :=
  match sched with [] => c | a :: sched => run sched (step a c) end.
End Defs.
End SharedCell.
