(* ===== verification/SharedCellFacts.v ===== *)
(** * Properties of overwriting cells

    Mutual exclusion of the accesses to each slot, no duplication of values, the
    condition under which a write can fail, and that the value written last is
    the one that is read next. *)

From S2P Require Import Prelude SharedCell.
Local Open Scope Z_scope.

Module SharedCellFacts.
Import SharedCell.

Section Facts.
Context {V : Type}.
Implicit Types c : Cell V.

(** Who holds a slot. *)
Definition w_slot (p : WriterPc V) : option bool :=
  match p with WWrite _ i _ | WIndex i | WUnlock i => Some i | _ => None end.
Definition r_slot (p : ReaderPc V) : option bool :=
  match p with RTake i | RUnlock i _ => Some i | _ => None end.
Definition holds_one (i : bool) (o : option bool) : Z :=
  match o with Some j => if Bool.eqb i j then 1 else 0 | None => 0 end.
Definition w_holds c (i : bool) : Z := zsum (fun p => holds_one i (w_slot p)) (writers c).
Definition r_holds c (i : bool) : Z := zsum (fun p => holds_one i (r_slot p)) (readers c).

Record locked c (i : bool) : Prop := {
  lk_excl : w_holds c i + r_holds c i <= 1;
  lk_range : 0 <= locks c i <= 3;
  lk_free : locks c i = 0 <-> w_holds c i + r_holds c i = 0;
  lk_writer : locks c i = WRITER_LOCK -> w_holds c i = 1 }.

Lemma holds_nonneg i o : 0 <= holds_one i o <= 1.
Proof. destruct o as [j|]; cbn; [destruct (Bool.eqb i j)|]; lia. Qed.

Lemma w_holds_nonneg c i : 0 <= w_holds c i.
Proof. apply zsum_nonneg. intros. apply holds_nonneg. Qed.
Lemma r_holds_nonneg c i : 0 <= r_holds c i.
Proof. apply zsum_nonneg. intros. apply holds_nonneg. Qed.

Lemma w_holds_set c t p q i : writers c !! t = Some p ->
  w_holds (set_writer t q c) i = w_holds c i - holds_one i (w_slot p) + holds_one i (w_slot q).
Proof. intros Hp. unfold w_holds. cbn. exact (zsum_insert _ _ _ _ _ Hp). Qed.

Lemma r_holds_set c t p q i : readers c !! t = Some p ->
  r_holds (set_reader t q c) i = r_holds c i - holds_one i (r_slot p) + holds_one i (r_slot q).
Proof. intros Hp. unfold r_holds. cbn. exact (zsum_insert _ _ _ _ _ Hp). Qed.

Lemma fset_eq {A} (f : bool -> A) i a : fset f i a i = a.
Proof. unfold fset. by rewrite Bool.eqb_reflx. Qed.
Lemma fset_ne {A} (f : bool -> A) i j a : i <> j -> fset f i a j = f j.
Proof. intros Hne. unfold fset. by rewrite (proj2 (Bool.eqb_false_iff i j) Hne). Qed.

Ltac compute_rhs H := match type of H with _ = ?z => let z' := eval vm_compute in z in change z with z' in H end.

(** How the state of a lock follows from the holders and the lock before. *)
Lemma locked_step c c' i dw dr : locked c i ->
  w_holds c' i = w_holds c i + dw -> r_holds c' i = r_holds c i + dr ->
  (locks c' i = locks c i /\ dw = 0 /\ dr = 0) \/
  (exists b, locks c' i = Z.lor (locks c i) b /\
     (locks c i <> 0 /\ (b = 1 \/ b = 2) /\ dw = 0 /\ dr = 0 \/ locks c i = 0 /\ (b = 1 /\ dw = 1 /\ dr = 0 \/ b = 2 /\ dw = 0 /\ dr = 1))) \/
  (locks c' i = 0 /\ (dw + dr = -1)) -> locked c' i.
Proof.
  intros [He Hr Hf Hw] Ew Er Hc. pose proof (w_holds_nonneg c i) as Hn1. pose proof (r_holds_nonneg c i) as Hn2.
  pose proof (w_holds_nonneg c' i) as Hn3. pose proof (r_holds_nonneg c' i) as Hn4. unfold WRITER_LOCK in *.
  destruct Hc as [(El & -> & ->)|[(b & El & Hb)|[El Hd]]].
  - split; unfold WRITER_LOCK; lia.
  - assert (locks c i = 0 \/ locks c i = 1 \/ locks c i = 2 \/ locks c i = 3) as Hl by lia.
    destruct Hb as [(Hne & Hb & -> & ->)|(H0 & Hb)].
    + assert (locks c' i <> 0 /\ 0 <= locks c' i <= 3 /\ (locks c' i = 1 -> locks c i = 1)) as (H1 & H2 & H3).
      { destruct Hl as [Hl|[Hl|[Hl|Hl]]], Hb as [-> | ->]; rewrite Hl in El; compute_rhs El; lia. }
      split; unfold WRITER_LOCK; lia.
    + rewrite H0 in El. destruct Hb as [(-> & -> & ->)|(-> & -> & ->)]; compute_rhs El; split; unfold WRITER_LOCK; lia.
  - split; unfold WRITER_LOCK; lia.
Qed.

Ltac sums Hp := rewrite ?(w_holds_set _ _ _ _ _ Hp), ?(r_holds_set _ _ _ _ _ Hp); cbn [w_slot r_slot holds_one].

Lemma locked_ext c c' i : locks c' = locks c -> writers c' = writers c -> readers c' = readers c -> locked c i -> locked c' i.
Proof.
  intros El Ew Er Hl. eapply (locked_step c c' i 0 0 Hl); [unfold w_holds; rewrite Ew; lia|unfold r_holds; rewrite Er; lia|].
  left. by rewrite El.
Qed.

(** Every step keeps the locks. *)
Lemma locked_set_writer c t p q i : locked c i -> writers c !! t = Some p -> w_slot p = w_slot q -> locked (set_writer t q c) i.
Proof.
  intros Hl Hp E. eapply (locked_step c _ i 0 0 Hl); [rewrite (w_holds_set _ _ _ _ _ Hp), E; lia| |by left].
  change (r_holds (set_writer t q c) i) with (r_holds c i). lia.
Qed.

Lemma locked_writer c t p i : (forall j, locked c j) -> writers c !! t = Some p -> locked (writer_step t p c) i.
Proof.
  intros Hl Hp. specialize (Hl i).
  assert (forall j l s q, locks s = fset (locks c) j l -> writers s = <[t := q]> (writers c) -> readers s = readers c ->
    (i <> j -> holds_one i (w_slot q) = holds_one i (w_slot p)) ->
    (i = j -> l = locks c i /\ holds_one i (w_slot q) = holds_one i (w_slot p) \/
     l = Z.lor (locks c i) 1 /\ (locks c i <> 0 /\ w_slot p = None /\ w_slot q = None \/ locks c i = 0 /\ w_slot p = None /\ w_slot q = Some i) \/
     l = 0 /\ w_slot p = Some i /\ w_slot q = None) -> locked s i) as Key.
  { intros j l s q El Ew Er Hne Heq.
    apply (locked_step c s i (holds_one i (w_slot q) - holds_one i (w_slot p)) 0 Hl).
    - unfold w_holds at 1. rewrite Ew. etrans; [exact (zsum_insert _ _ _ _ _ Hp)|]. unfold w_holds. lia.
    - unfold r_holds. rewrite Er. lia.
    - rewrite El. destruct (decide (i = j)) as [<-|Hij]; [|left; rewrite fset_ne by done; specialize (Hne Hij); lia].
      rewrite fset_eq. assert (holds_one i (Some i) = 1) as H1 by (cbn; by rewrite Bool.eqb_reflx).
      destruct (Heq eq_refl) as [[-> E]|[[-> E]|(-> & -> & ->)]]; [left; lia| |right; right; rewrite H1; cbn; lia].
      right; left. exists 1. split; [done|]. destruct E as [(? & -> & ->)|(? & -> & ->)]; [left|right]; rewrite ?H1; cbn; lia. }
  assert (forall j q, w_slot q = Some j -> i <> j -> holds_one i (w_slot q) = 0) as Hz.
  { intros j q -> Hne. cbn. by rewrite (proj2 (Bool.eqb_false_iff i j) Hne). }
  destruct p as [|v n|v j n|v j n|v j o|j|j| |v n]; cbn [writer_step]; try done.
  - by apply (locked_set_writer c t (WLoad v n)).
  - cbn [fetch_or]. destruct (Z.eqb_spec (locks c j) 0) as [E0|E0]; [|destruct (Z.eqb_spec (locks c j) WRITER_LOCK) as [E1|E1]];
      (eapply (Key j (Z.lor (locks c j) 1)); [done|done|done| |]); try done; try (intros Hne; by apply (Hz j)).
    all: intros ->; right; left; split; [done|]; first [right; by repeat split | left; by repeat split].
  - cbn [fetch_or]. destruct (Z.eqb_spec (locks c j) 0) as [E0|E0];
      (eapply (Key j (Z.lor (locks c j) 1)); [done|done|done| |]); try done; try (intros Hne; by apply (Hz j)).
    all: intros ->; right; left; split; [done|]; first [right; by repeat split | left; by repeat split].
  - apply (locked_set_writer (store j v c) t (WWrite v j o)); [by eapply (locked_ext c)|done|by destruct o].
  - apply (locked_set_writer (set_idx j c) t (WIndex j)); [by eapply (locked_ext c)|done|done].
  - eapply (Key j 0); [done|done|done| |]; [intros Hne; symmetry; by apply (Hz j (WUnlock j))|].
    intros ->. right; right. done.
Qed.

Lemma locked_set_reader c t p q i : locked c i -> readers c !! t = Some p -> r_slot p = r_slot q -> locked (set_reader t q c) i.
Proof.
  intros Hl Hp E. eapply (locked_step c _ i 0 0 Hl); [|rewrite (r_holds_set _ _ _ _ _ Hp), E; lia|by left].
  change (w_holds (set_reader t q c) i) with (w_holds c i). lia.
Qed.

Lemma locked_reader c t p i : (forall j, locked c j) -> readers c !! t = Some p -> locked (reader_step t p c) i.
Proof.
  intros Hl Hp. specialize (Hl i).
  assert (forall c' q, writers c' = writers c -> readers c' = readers c -> w_holds (set_reader t q c') i = w_holds c i + 0 /\
    r_holds (set_reader t q c') i = r_holds c i + (holds_one i (r_slot q) - holds_one i (r_slot p))) as Hh.
  { intros c' q Ew Er. unfold w_holds, r_holds. cbn. rewrite Ew, Er, (zsum_insert _ _ _ _ _ Hp). lia. }
  assert (holds_one i (Some i) = 1) as H1 by (cbn; by rewrite Bool.eqb_reflx).
  assert (forall j, i <> j -> holds_one i (Some j) = 0) as H0 by (intros j Hne; cbn; by rewrite (proj2 (Bool.eqb_false_iff i j) Hne)).
  destruct p as [| |j|j|j v|v]; cbn [reader_step]; try done.
  - by apply (locked_set_reader c t RLoad).
  - cbn [fetch_or]. destruct (Z.eqb_spec (locks c j) 0) as [E0|E0];
      match goal with |- locked (set_reader _ ?q ?c') _ => destruct (Hh c' q eq_refl eq_refl) as [Hw Hr] end;
      apply (locked_step c _ i _ _ Hl Hw Hr); cbn [r_slot]; cbn [locks set_reader set_lock].
    + destruct (decide (i = j)) as [<-|Hne]; [rewrite fset_eq, H1|rewrite fset_ne, (H0 j Hne) by congruence; left; cbn; lia].
      right; left. exists 2. split; [done|]. right. cbn. lia.
    + destruct (decide (i = j)) as [<-|Hne]; [rewrite fset_eq|rewrite fset_ne by congruence; left; cbn; lia].
      right; left. exists 2. split; [done|]. left. cbn. lia.
  - apply (locked_set_reader (take_slot j c) t (RTake j)); [by eapply (locked_ext c)|done|done].
  - match goal with |- locked (set_reader _ ?q ?c') _ => destruct (Hh c' q eq_refl eq_refl) as [Hw Hr] end.
    apply (locked_step c _ i _ _ Hl Hw Hr); cbn [r_slot]; cbn [locks set_reader set_lock].
    destruct (decide (i = j)) as [<-|Hne]; [rewrite fset_eq, H1; right; right; cbn; lia|].
    rewrite fset_ne, (H0 j Hne) by congruence. left. cbn. lia.
Qed.

Lemma locked_all_step a c i : (forall j, locked c j) -> locked (step a c) i.
Proof.
  intros Hl. destruct a as [t v|t|t|t]; cbn [step].
  - destruct (writers c !! t) as [p|] eqn:Ep; [|done]. destruct p; try done; by eapply locked_set_writer.
  - destruct (writers c !! t) as [p|] eqn:Ep; [by apply locked_writer|done].
  - destruct (readers c !! t) as [p|] eqn:Ep; [|done]. destruct p; try done; by eapply locked_set_reader.
  - destruct (readers c !! t) as [p|] eqn:Ep; [by apply locked_reader|done].
Qed.

(** ** Values are neither duplicated nor made up *)
Definition stored c : list V := opt_list (slots c false) ++ opt_list (slots c true).
Definition balanced c : Prop := written c ≡ₚ taken c ++ lost c ++ stored c.

Lemma balanced_step a c : balanced c -> balanced (step a c).
Proof.
  intros Hb. unfold balanced, stored in *.
  destruct a as [t v|t|t|t]; cbn [step].
  - destruct (writers c !! t) as [[]|]; done.
  - destruct (writers c !! t) as [[]|]; cbn [writer_step fetch_or]; try done; repeat case_match; try done;
      cbn; rewrite Hb; destruct i; unfold fset; cbn; solve_Permutation.
  - destruct (readers c !! t) as [[]|]; done.
  - destruct (readers c !! t) as [[]|]; cbn [reader_step fetch_or]; try done; repeat case_match; try done;
      cbn; rewrite Hb; destruct i; unfold fset; cbn; solve_Permutation.
Qed.

(** ** Failed writes, with one reader *)
Definition busy (p : WriterPc V) : Z := match w_slot p with Some _ => 1 | None => 0 end.
Definition holding c : Z := zsum busy (writers c).

(** A write has completed since [n] were completed, or is about to. *)
Definition interfered (n : nat) c : Prop := (n < completed c)%nat \/ 0 < holding c.

Definition since (p : WriterPc V) : option nat :=
  match p with WLoad _ n | WLock _ _ n | WOther _ _ n | WErr _ n => Some n | _ => None end.

Definition off_slot (i : bool) (r : ReaderPc V) : Prop := r <> RLock i /\ r_slot r <> Some i.

Definition write_ok (r : ReaderPc V) c (p : WriterPc V) : Prop :=
  (forall n, since p = Some n -> (n <= completed c)%nat) /\
  match p with
  | WLock _ i n => interfered n c \/ slot_idx c = i
  | WOther _ i n => interfered n c \/ slot_idx c = negb i /\ off_slot i r
  | WErr _ n => interfered n c
  | _ => True
  end.

Definition writes_ok c : Prop := exists r, readers c = [r] /\ forall t p, writers c !! t = Some p -> write_ok r c p.

Lemma w_holds_holding c i : 0 < w_holds c i -> 0 < holding c.
Proof.
  intros H. assert (w_holds c i <= holding c); [|lia]. unfold w_holds, holding. induction (writers c) as [|p l IH]; cbn; [lia|].
  assert (holds_one i (w_slot p) <= busy p); [|lia]. unfold busy. destruct (w_slot p) as [j|]; cbn; [destruct (Bool.eqb i j)|]; lia.
Qed.

Lemma write_ok_mono r r' c c' p : write_ok r c p -> (completed c <= completed c')%nat ->
  holding c <= holding c' \/ (completed c < completed c')%nat -> slot_idx c' = slot_idx c \/ 0 < holding c' ->
  (forall i, slot_idx c = negb i -> off_slot i r -> off_slot i r') -> write_ok r' c' p.
Proof.
  intros [Hn Hp] Hc Hh Hi Hr. split; [intros n E; specialize (Hn n E); lia|].
  assert (forall n, since p = Some n -> interfered n c -> interfered n c') as Hm.
  { intros n E. specialize (Hn n E). unfold interfered. lia. }
  destruct p as [|v n|v i n|v i n|v i o|i|i| |v n]; try done; [| |by apply Hm].
  - destruct Hp as [Hp|Hp]; [left; by apply Hm|]. destruct Hi as [->|Hi]; [by right|left; by right].
  - destruct Hp as [Hp|[Hp Ho]]; [left; by apply Hm|]. destruct Hi as [->|Hi]; [right; auto|left; by right].
Qed.

(** One writer moves, the reader does not. *)
Lemma writes_ok_writer c c' t p q : writes_ok c -> writers c !! t = Some p -> writers c' = <[t := q]> (writers c) ->
  readers c' = readers c -> (completed c <= completed c')%nat ->
  busy p <= busy q \/ (completed c < completed c')%nat -> slot_idx c' = slot_idx c \/ busy q = 1 ->
  (forall r, readers c = [r] -> write_ok r c p -> write_ok r c' q) -> writes_ok c'.
Proof.
  intros (r & Hr & Hall) Hp Ew Er Hc Hb Hi Hq. exists r. split; [congruence|].
  assert (holding c' = holding c - busy p + busy q) as Hh by (unfold holding; rewrite Ew; exact (zsum_insert _ _ _ _ _ Hp)).
  assert (forall x, 0 <= busy x) as Hpos by (intros x; unfold busy; case_match; lia).
  assert (0 <= holding c - busy p) by (pose proof (zsum_elem busy (writers c) t p Hpos Hp); unfold holding; lia).
  intros u x. rewrite Ew. intros [(<- & -> & _)|[Hne Hx]]%list_lookup_insert_Some; [by apply Hq; [|apply (Hall t)]|].
  eapply (write_ok_mono r r c); [by eapply Hall|done| | |done]; [lia|]. destruct Hi; [by left|right; lia].
Qed.

Lemma holder_reader c i r : locked c i -> readers c = [r] -> locks c i <> 0 -> 0 < holding c \/ r_slot r = Some i.
Proof.
  intros [He Hr Hf Hw] Er Hne. pose proof (w_holds_nonneg c i). pose proof (r_holds_nonneg c i).
  destruct (decide (0 < w_holds c i)) as [Hpos|Hz]; [left; by eapply w_holds_holding|right].
  assert (r_holds c i = 1) as H1 by lia. unfold r_holds in H1. rewrite Er in H1. cbn in H1.
  destruct (r_slot r) as [j|]; cbn in H1; [|lia]. destruct (Bool.eqb i j) eqn:E; [|lia]. apply Bool.eqb_prop in E. by subst.
Qed.

(** Both ways in which a write fails. *)
Lemma lock_fails r c v i n : locked c i -> readers c = [r] -> write_ok r c (WLock v i n) -> locks c i <> 0 ->
  let c1 := set_lock i (Z.lor (locks c i) WRITER_LOCK) c in
  write_ok r c1 (WOther v (negb i) n) /\ (locks c i = WRITER_LOCK -> write_ok r c1 (WErr v n)).
Proof.
  intros Hl Er [Hn Hp] Hne c1. specialize (Hn n eq_refl). split; [|intros E]; (split; [by intros n' [= <-]|]).
  - destruct (holder_reader c i r Hl Er Hne) as [Hh|Hs]; [left; by right|]. destruct Hp as [Hp|Hp]; [by left|]. right.
    split; [cbn; by rewrite negb_involutive|]. split; [intros ->; done|]. rewrite Hs. by destruct i.
  - right. apply (w_holds_holding c i). rewrite (lk_writer _ _ Hl E). lia.
Qed.

Lemma other_fails r c v i n : locked c i -> readers c = [r] -> write_ok r c (WOther v i n) -> locks c i <> 0 ->
  write_ok r (set_lock i (Z.lor (locks c i) WRITER_LOCK) c) (WErr v n).
Proof.
  intros Hl Er [Hn Hp] Hne. specialize (Hn n eq_refl). split; [by intros n' [= <-]|].
  destruct (holder_reader c i r Hl Er Hne) as [Hh|Hs]; [by right|]. destruct Hp as [Hp|[_ [_ Hp]]]; done.
Qed.

Lemma writes_ok_reader c c' t p q : writes_ok c -> readers c !! t = Some p -> readers c' = <[t := q]> (readers c) ->
  writers c' = writers c -> slot_idx c' = slot_idx c -> completed c' = completed c ->
  (forall i, slot_idx c = negb i -> off_slot i p -> off_slot i q) -> writes_ok c'.
Proof.
  intros (r & Hr & Hall) Hp Er Ew Ei Ec Hoff. rewrite Hr in Hp, Er. destruct t as [|t]; [|done]. injection Hp as ->. cbn in Er.
  exists q. split; [done|]. intros u x. rewrite Ew. intros Hx. apply (write_ok_mono p q c); [by apply (Hall u)|lia| |by left|done].
  left. unfold holding. rewrite Ew. lia.
Qed.

Lemma write_ok_set r c t p q : writers c !! t = Some p -> busy p = 0 -> write_ok r c q -> write_ok r (set_writer t q c) q.
Proof.
  intros Hp Hb Hq. apply (write_ok_mono r r c); [done|done| |by left|done]. left. unfold holding. cbn.
  rewrite (zsum_insert _ _ _ _ _ Hp), Hb. unfold busy at 3. case_match; lia.
Qed.

Lemma writer_ok c t p : (forall i, locked c i) -> writes_ok c -> writers c !! t = Some p -> writes_ok (writer_step t p c).
Proof.
  intros Hl Hok Hp. destruct p as [|v n|v i n|v i n|v i o|i|i| |v n]; cbn [writer_step]; try done.
  - eapply writes_ok_writer; try done; [by left|by left|]. intros r _ [Hn _]. split; [done|]. by right.
  - cbn [fetch_or]. destruct (Z.eqb_spec (locks c i) 0) as [E0|E0]; [|destruct (Z.eqb_spec (locks c i) WRITER_LOCK) as [E1|E1]];
      (eapply writes_ok_writer; [done..|by left|by left|]); intros r Hr Hw; try done;
      (eapply write_ok_set; [exact Hp|done|]); by apply (lock_fails r c v i n (Hl i) Hr Hw E0).
  - cbn [fetch_or]. destruct (Z.eqb_spec (locks c i) 0) as [E0|E0];
      (eapply writes_ok_writer; [done..|by left|by left|]); intros r Hr Hw; try done;
      (eapply write_ok_set; [exact Hp|done|]); by apply other_fails.
  - eapply writes_ok_writer; [done..|left; by destruct o|by left|]. intros r Hr _. by destruct o.
  - eapply writes_ok_writer; [done..|by left|by right|done].
  - eapply writes_ok_writer; [done|done|done|done|cbn; lia|right; cbn; lia|by left|]. done.
Qed.

Lemma writes_ok_step a c : (forall i, locked c i) -> writes_ok c -> writes_ok (step a c).
Proof.
  intros Hl Hok. destruct a as [t v|t|t|t]; cbn [step].
  - destruct (writers c !! t) as [p|] eqn:Ep; [|done].
    assert (busy p = 0 -> writes_ok (set_writer t (WLoad v (completed c)) c)) as H; [|destruct p; try done; by apply H].
    intros Hb. eapply writes_ok_writer; [done..|left; rewrite Hb; done|by left|]. intros r _ _. split; [|done]. intros n [= <-]. cbn. lia.
  - destruct (writers c !! t) as [p|] eqn:Ep; [by apply writer_ok|done].
  - destruct (readers c !! t) as [p|] eqn:Ep; [|done].
    assert (writes_ok (set_reader t RLoad c)) as H; [|by destruct p].
    eapply writes_ok_reader; try done.
  - destruct (readers c !! t) as [p|] eqn:Ep; [|done]. destruct p as [| |i|i|i v|v]; cbn [reader_step]; try done.
    + eapply writes_ok_reader; [done..|]. intros i Hi _. rewrite Hi. split; [|done]. intros [= E]. by destruct i.
    + cbn [fetch_or]. case_match; (eapply writes_ok_reader; [done..|]); intros j _ [Hne _]; split; try done.
      cbn. congruence.
    + eapply writes_ok_reader; [done..|]. intros j _ [_ Hne]. by split.
    + eapply writes_ok_reader; [done..|]. intros j _ [_ Hne]. by split.
Qed.

(** ** One writer: the value written last is found under the index *)
Definition target (p : WriterPc V) c : bool := match p with WIndex i => i | _ => slot_idx c end.

Record fresh (p : WriterPc V) c : Prop := {
  fr_value v : last (written c) = Some v -> v ∈ taken c \/ slots c (target p c) = Some v;
  fr_index : match p with
             | WLock _ i _ | WUnlock i | WWrite _ i false => slot_idx c = i
             | WOther _ i _ | WWrite _ i true => slot_idx c = negb i
             | _ => True
             end;
  fr_since n : since p = Some n -> completed c = n }.

Definition one_writer c : Prop := exists p, writers c = [p] /\ fresh p c.

Lemma fresh_writer p c : fresh p c -> writers c = [p] -> one_writer (writer_step 0 p c).
Proof.
  intros [Hv Hi Hs] Hw.
  assert (forall c' q, writers c' = [p] -> fresh q (set_writer 0 q c') -> one_writer (set_writer 0 q c')) as Hone.
  { intros c' q Hw' Hf. exists q. split; [cbn; by rewrite Hw'|done]. }
  destruct p as [|v n|v i n|v i n|v i o|i|i| |v n]; cbn [writer_step fetch_or].
  1, 8, 9: by eexists; split.
  - apply Hone; [done|]. by split.
  - repeat case_match; (apply Hone; [done|]); split; try done; cbn in *; by rewrite ?Hi, ?negb_involutive.
  - repeat case_match; (apply Hone; [done|]); by split.
  - apply Hone; [done|]. destruct o; (split; [|done|done]); intros v'; cbn; rewrite last_snoc; intros [= <-]; right;
      rewrite ?Hi; apply fset_eq.
  - apply Hone; [done|]. by split.
  - apply Hone; [done|]. by split.
Qed.

Lemma one_writer_frame c c' : writers c' = writers c -> written c' = written c -> taken c' = taken c -> slots c' = slots c ->
  slot_idx c' = slot_idx c -> completed c' = completed c -> one_writer c -> one_writer c'.
Proof.
  intros Ew Ewr Et Es Ei Ec (p & Hw & [Hv Hi Hs]). exists p. split; [congruence|].
  split; unfold target in *; rewrite ?Ewr, ?Et, ?Es, ?Ei, ?Ec; done.
Qed.

Lemma fresh_reader c t r : one_writer c -> one_writer (reader_step t r c).
Proof.
  intros Ho. destruct r as [| |i|i|i v|v]; cbn [reader_step fetch_or]; try done.
  1, 2, 4: by repeat case_match; eapply (one_writer_frame c).
  destruct Ho as (p & Hw & [Hv Hi Hs]). exists p. split; [done|]. split; [intros v Hl|done|done].
  change (target p (set_reader _ _ (take_slot i c))) with (target p c).
  cbn [taken slots set_reader take_slot]. destruct (Hv v Hl) as [H|H]; [left; set_solver|].
  destruct (decide (i = target p c)) as [->|Hne]; [left; rewrite H; set_solver|right; by rewrite fset_ne].
Qed.

Lemma one_writer_step a c : one_writer c -> one_writer (step a c).
Proof.
  intros Ho. pose proof Ho as (p & Hw & [Hv Hi Hs]). destruct a as [t v|t|t|t]; cbn [step].
  - rewrite Hw. destruct t as [|t]; [|done]. cbn [lookup list_lookup].
    destruct p; try done; (eexists; split; [cbn; rewrite Hw; done|]); split; try done; by intros n [= <-].
  - rewrite Hw. destruct t as [|t]; [|done]. by apply fresh_writer.
  - destruct (readers c !! t) as [[]|]; try done; by eapply (one_writer_frame c).
  - destruct (readers c !! t) as [r|] eqn:Er; [by apply fresh_reader|done].
Qed.

(** ** Reachable states *)
Lemma new_locked n m i : locked (new n m : Cell V) i.
Proof.
  assert (w_holds (new n m) i = 0 /\ r_holds (new n m) i = 0) as [Ew Er].
  { split; apply zsum_zero; intros x Hx; apply elem_of_replicate in Hx as [-> _]; done. }
  split; rewrite ?Ew, ?Er; unfold WRITER_LOCK; cbn; lia || done.
Qed.

Lemma cell_run_ind (P : Cell V -> Prop) sched c : (forall i, locked c i) -> P c ->
  (forall a c, (forall i, locked c i) -> P c -> P (step a c)) -> (forall i, locked (run sched c) i) /\ P (run sched c).
Proof.
  intros Hl Hp Hstep. revert c Hl Hp. induction sched as [|a sched IH]; intros c Hl Hp; [done|]. cbn. apply IH; [|by apply Hstep].
  intros i. by apply locked_all_step.
Qed.

(** With any number of writers and readers, at most one of them accesses a
    slot at any time, and the values stored so far are those taken by readers,
    those overwritten and those still in the slots: none is read twice. *)
Theorem shared_cell_safety n m sched i : let c : Cell V := run sched (new n m) in
  w_holds c i + r_holds c i <= 1 /\ written c ≡ₚ taken c ++ lost c ++ opt_list (slots c false) ++ opt_list (slots c true).
Proof.
  destruct (cell_run_ind balanced sched (new n m)) as [Hl Hb]; [apply new_locked|unfold balanced; reflexivity|intros; by apply balanced_step|].
  split; [apply Hl|apply Hb].
Qed.

(** With one reader, a write fails only if another write has succeeded since
    the call started, or holds a slot and is about to succeed; if there is only
    one writer, no write fails. *)
Theorem shared_cell_write_fails n sched t v k : let c : Cell V := run sched (new n 1) in
  writers c !! t = Some (WErr v k) ->
  ((k < completed c)%nat \/ exists u p i, writers c !! u = Some p /\ w_slot p = Some i) /\ n <> 1%nat.
Proof.
  intros c Hp. destruct (cell_run_ind writes_ok sched (new n 1)) as [Hl (r & Hr & Hok)]; [apply new_locked| |intros; by apply writes_ok_step|].
  { exists RIdle. split; [done|]. intros u p Hu. cbn in Hu. apply lookup_replicate in Hu as [-> _]. done. }
  destruct (Hok t _ Hp) as [_ Hi]. split.
  - destruct Hi as [Hi|Hi]; [by left|right]. fold c in Hi. unfold holding in Hi.
    destruct (decide (Exists (fun p => w_slot p <> None) (writers c))) as [He|He].
    + apply Exists_exists in He as (p & Hin & Hw). apply list_elem_of_lookup in Hin as [u Hu].
      exists u, p. destruct (w_slot p) as [i|]; [|done]. by exists i.
    + rewrite zsum_zero in Hi; [lia|]. intros p Hin. unfold busy. destruct (w_slot p) eqn:E; [|done]. exfalso. apply He, Exists_exists.
      exists p. by rewrite E.
  - intros ->. destruct (cell_run_ind one_writer sched (new 1 1)) as [_ (p & Hw & [_ _ Hs])]; [apply new_locked| |intros; by apply one_writer_step|].
    { by exists WIdle. }
    fold c in Hw, Hs. rewrite Hw in Hp. destruct t as [|t]; [|done]. injection Hp as ->. specialize (Hs k eq_refl).
    destruct Hi as [Hi|Hi]; fold c in Hi; [lia|]. unfold holding in Hi. rewrite Hw in Hi. cbn in Hi. lia.
Qed.

(** With one writer and any number of readers, whenever no write is in
    progress, the value written last has been taken by a reader or is found under
    the index of the cell, where the next reader looks for it. *)
Theorem shared_cell_latest m sched v : let c : Cell V := run sched (new 1 m) in
  writers c = [WOk] -> last (written c) = Some v -> v ∈ taken c \/ slots c (slot_idx c) = Some v.
Proof.
  intros c Hw Hl. destruct (cell_run_ind one_writer sched (new 1 m)) as [_ (p & Hw' & [Hv _ _])]; [apply new_locked| |intros; by apply one_writer_step|].
  { by exists WIdle. }
  fold c in Hw', Hv. rewrite Hw in Hw'. injection Hw' as <-. by apply Hv.
Qed.
End Facts.

(** One writer and two readers: the second reader has loaded the index before a
    write moves it, and holds the old slot when the first reader holds the new
    one: the next write fails although there is no other writer. *)
Definition lone_sched : list (Action nat) :=
  [ATryRead 1; AReader 1; ATryRead 0; AReader 0; AReader 0;
   ATryWrite 0 5; AWriter 0; AWriter 0; AWriter 0; AWriter 0; AWriter 0; AWriter 0;
   AReader 0; AReader 0; ATryRead 0; AReader 0; AReader 0; AReader 1;
   ATryWrite 0 6; AWriter 0; AWriter 0; AWriter 0]%nat.

Example lone_writer_fails : writers (run lone_sched (new 1 2)) = [WErr 6%nat 1%nat].
Proof. vm_compute. reflexivity. Qed.

(** Two writers and one reader: a write fails while the other one holds the slot. *)
Definition two_writers : list (Action nat) :=
  [ATryWrite 0 5; ATryWrite 1 6; AWriter 0; AWriter 1; AWriter 0; AWriter 1]%nat.

Lemma shared_cell_write_fails_witness : let c := run two_writers (new 2 1) in
  writers c !! 1%nat = Some (WErr 6%nat 0%nat) /\ ((0 < completed c)%nat \/ exists u p i, writers c !! u = Some p /\ w_slot p = Some i).
Proof.
  assert (writers (run two_writers (new 2 1)) !! 1%nat = Some (WErr 6%nat 0%nat)) as H by (vm_compute; reflexivity).
  split; [exact H|]. exact (proj1 (shared_cell_write_fails 2 two_writers 1 6%nat 0%nat H)).
Defined.

Definition one_write : list (Action nat) := [ATryWrite 0 5; AWriter 0; AWriter 0; AWriter 0; AWriter 0]%nat.

Lemma shared_cell_latest_witness : let c := run one_write (new 1 1) in
  writers c = [WOk] /\ (5%nat ∈ taken c \/ slots c (slot_idx c) = Some 5%nat).
Proof.
  assert (writers (run one_write (new 1 1)) = [WOk]) as H by (vm_compute; reflexivity).
  split; [exact H|]. exact (shared_cell_latest 1 one_write 5%nat H eq_refl).
Defined.
End SharedCellFacts.
