(* ===== verification/EventSlot.v ===== *)
(** * Event slots: [ports/sink/event_slot.rs]

    The writers and the reader of an event slot, on top of the cell of
    [SharedCell].  The reader polls the slot as a stream, or calls [try_read]; it
    is woken through a [WakeSink] of the [diatomic_waker] crate, of which the code
    relies on [notify] waking the task that is registered, if any, and removing
    its registration.  Writers that a clone will create are there from the start
    ([WUnborn]). *)

From S2P Require Import Prelude SharedCell SharedCellFacts.
Local Open Scope Z_scope.

Module EventSlot.
Import SharedCell SharedCellFacts.

(** A writer between and during its calls of [write] and its drop. *)
Inductive WPhase : Type :=
  | WUnborn
  | WReady
  | WTrying                             (** [try_write] *)
  | WNotify                             (** [wake_source.notify()] *)
  | WDropSub                            (** [writer_count.fetch_sub(1)] *)
  | WDropNotify
  | WGone.

(** The reader between and during its calls of [poll_next] and [try_read]. *)
Inductive RPhase (V : Type) : Type :=
  | PReady (last : option (option V))   (** result of the last call *)
  | PTryRead                            (** [try_read] *)
  | PFirst                              (** first [try_read] of [poll_next] *)
  | PRegister
  | PSecond                             (** second [try_read] *)
  | PUnregister (v : option V)
  | PCount                              (** load of [writer_count] *)
  | PPending.
#[global] Arguments PReady {_} _.
#[global] Arguments PTryRead {_}.
#[global] Arguments PFirst {_}.
#[global] Arguments PRegister {_}.
#[global] Arguments PSecond {_}.
#[global] Arguments PUnregister {_} _.
#[global] Arguments PCount {_}.
#[global] Arguments PPending {_}.

Record ESlot (V : Type) : Type := mkESlot {
  cell : Cell V;
  is_enabled : bool;
  writer_count : nat;
  registered : bool;
  woken : bool;                         (** the task of the reader was woken since its last poll *)
  wphases : list WPhase;
  rphase : RPhase V }.
#[global] Arguments mkESlot {_} _ _ _ _ _ _ _.
#[global] Arguments cell {_} _.
#[global] Arguments is_enabled {_} _.
#[global] Arguments writer_count {_} _.
#[global] Arguments registered {_} _.
#[global] Arguments woken {_} _.
#[global] Arguments wphases {_} _.
#[global] Arguments rphase {_} _.

Inductive EAction (V : Type) : Type :=
  | EWrite (t : nat) (v : V) | EWriter (t : nat) | EClone (t u : nat) | EDrop (t : nat)
  | EPoll | ETryRead | EReader | EEnable (b : bool).
#[global] Arguments EWrite {_} _ _.
#[global] Arguments EWriter {_} _.
#[global] Arguments EClone {_} _ _.
#[global] Arguments EDrop {_} _.
#[global] Arguments EPoll {_}.
#[global] Arguments ETryRead {_}.
#[global] Arguments EReader {_}.
#[global] Arguments EEnable {_} _.

Section Defs.
Context {V : Type}.
Implicit Types s : ESlot V.

(** [event_slot]: one writer, and room for [n] clones. *)
Definition event_slot (enabled : bool) (n : nat) : ESlot V :=
  mkESlot (SharedCell.new (S n) 1) enabled 1 false false (WReady :: replicate n WUnborn) (PReady None).

Definition with_cell (c : Cell V) s : ESlot V :=
  mkESlot c (is_enabled s) (writer_count s) (registered s) (woken s) (wphases s) (rphase s).
Definition with_count (n : nat) s : ESlot V :=
  mkESlot (cell s) (is_enabled s) n (registered s) (woken s) (wphases s) (rphase s).
Definition with_wphase (t : nat) (p : WPhase) s : ESlot V :=
  mkESlot (cell s) (is_enabled s) (writer_count s) (registered s) (woken s) (<[t := p]> (wphases s)) (rphase s).
Definition with_rphase (p : RPhase V) s : ESlot V :=
  mkESlot (cell s) (is_enabled s) (writer_count s) (registered s) (woken s) (wphases s) p.
Definition with_signal (r w : bool) s : ESlot V :=
  mkESlot (cell s) (is_enabled s) (writer_count s) r w (wphases s) (rphase s).
Definition with_enabled (b : bool) s : ESlot V :=
  mkESlot (cell s) b (writer_count s) (registered s) (woken s) (wphases s) (rphase s).

Definition notify s : ESlot V := if registered s then with_signal false true s else s.

Definition writer_step (t : nat) (p : WPhase) s : ESlot V :=
  match p with
  | WTrying =>
      let s := with_cell (SharedCell.step (AWriter t) (cell s)) s in
      match writers (cell s) !! t with
      | Some WOk => with_wphase t WNotify s
      | Some (WErr _ _) => with_wphase t WReady s
      | _ => s
      end
  | WNotify => with_wphase t WReady (notify s)
  | WDropSub => with_wphase t (if (writer_count s =? 1)%nat then WDropNotify else WGone) (with_count (writer_count s - 1) s)
  | WDropNotify => with_wphase t WGone (notify s)
  | _ => s
  end.

(** The value returned by the call of [try_read] in progress. *)
Definition returned s : option (option V) := match readers (cell s) !! 0%nat with Some (RRet v) => Some v | _ => None end.

Definition start_read (p : RPhase V) s : ESlot V := with_rphase p (with_cell (SharedCell.step (ATryRead 0) (cell s)) s).
Definition read_step s : ESlot V := with_cell (SharedCell.step (AReader 0) (cell s)) s.

Definition reader_step s : ESlot V :=
  match rphase s with
  | PTryRead =>
      let s := read_step s in
      match returned s with Some v => with_rphase (PReady (Some v)) s | None => s end
  | PFirst =>
      let s := read_step s in
      match returned s with
      | Some (Some v) => with_rphase (PReady (Some (Some v))) s
      | Some None => with_rphase PRegister s
      | None => s
      end
  | PRegister => start_read PSecond (with_signal true (woken s) s)
  | PSecond =>
      let s := read_step s in
      match returned s with
      | Some (Some v) => with_rphase (PUnregister (Some v)) s
      | Some None => with_rphase PCount s
      | None => s
      end
  | PUnregister v => with_rphase (PReady (Some v)) (with_signal false (woken s) s)
  | PCount => if (writer_count s =? 0)%nat then with_rphase (PUnregister None) s else with_rphase PPending s
  | PReady _ | PPending => s
  end.

(** The clone of the writer [t] is the writer [u]. *)
Definition clone_writer (t u : nat) s : ESlot V :=
  match wphases s !! t, wphases s !! u with
  | Some WReady, Some WUnborn => with_wphase u WReady (with_count (S (writer_count s)) s)
  | _, _ => s
  end.

Definition step (a : EAction V) s : ESlot V :=
  match a with
  | EWrite t v =>
      match wphases s !! t with
      | Some WReady =>
          if is_enabled s then with_wphase t WTrying (with_cell (SharedCell.step (ATryWrite t v) (cell s)) s) else s
      | _ => s
      end
  | EWriter t => match wphases s !! t with Some p => writer_step t p s | None => s end
  | EClone t u => clone_writer t u s
  | EDrop t => match wphases s !! t with Some WReady => with_wphase t WDropSub s | _ => s end
  | EPoll =>
      match rphase s with
      | PReady _ | PPending => start_read PFirst (with_signal (registered s) false s)
      | _ => s
      end
  | ETryRead => match rphase s with PReady _ | PPending => start_read PTryRead s | _ => s end
  | EReader => reader_step s
  | EEnable b => with_enabled b s
  end.

Fixpoint run (sched : list (EAction V)) s : ESlot V :=
  match sched with [] => s | a :: sched => run sched (step a s) end.
End Defs.
End EventSlot.
