(* ===== verification/EventSlotFacts.v ===== *)
(** * Properties of event slots

    No event is overlooked: a reader that waits and was not woken has nothing to
    read, unless a writer is about to wake it, and is not the last handle of the
    slot. *)

From S2P Require Import Prelude SharedCell SharedCellFacts EventSlot.
Local Open Scope Z_scope.

Module EventSlotFacts.
Import SharedCell SharedCellFacts EventSlot.

Section Facts.
Context {V : Type}.
Implicit Types s : ESlot V.

(** A writer that will notify the reader of an event. *)
Definition announcing s : Prop :=
  exists t, wphases s !! t = Some WNotify \/
    wphases s !! t = Some WTrying /\ exists p i, writers (cell s) !! t = Some p /\ w_slot p = Some i.

Definition nothing s : Prop := slots (cell s) (slot_idx (cell s)) = None \/ announcing s.

(** The second attempt to read, from its accesses so far. *)
Definition second_ok s : Prop :=
  match readers (cell s) !! 0%nat with
  | Some (RLock i | RTake i) => nothing s \/ slot_idx (cell s) = i
  | Some (RUnlock _ _ | RRet _) => nothing s
  | _ => True
  end.

Definition at_rest (r : ReaderPc V) : bool := match r with RIdle | RRet _ => true | _ => false end.

Record inv s : Prop := {
  iv_locked i : locked (cell s) i;
  iv_reader : exists r, readers (cell s) = [r] /\ match rphase s with PTryRead | PFirst | PSecond => True | _ => at_rest r = true end;
  iv_trying t p i : writers (cell s) !! t = Some p -> w_slot p = Some i -> wphases s !! t = Some WTrying;
  iv_registered : woken s = false -> match rphase s with PSecond | PCount | PPending => registered s = true | _ => True end;
  iv_nothing : woken s = false ->
    match rphase s with PSecond => second_ok s | PCount | PPending => nothing s | _ => True end;
  iv_writers : woken s = false -> rphase s = PPending -> (0 < writer_count s)%nat \/ WDropNotify ∈ wphases s }.

Lemma event_slot_inv enabled n : inv (event_slot enabled n).
Proof.
  split; try done.
  - apply new_locked.
  - by eexists.
  - intros t p i Hp Hs. cbn in Hp. apply (lookup_replicate_1 (S n)) in Hp as [-> _]. done.
Qed.

(** ** Writers *)

(** A step that does not concern the reader. *)
Lemma writer_frame s s' : inv s -> (forall i, locked (cell s') i) -> readers (cell s') = readers (cell s) ->
  (forall t p i, writers (cell s') !! t = Some p -> w_slot p = Some i -> wphases s' !! t = Some WTrying) ->
  rphase s' = rphase s -> woken s' = woken s -> registered s' = registered s ->
  (announcing s -> announcing s') ->
  (slots (cell s') = slots (cell s) /\ slot_idx (cell s') = slot_idx (cell s)) \/ announcing s' ->
  ((0 < writer_count s)%nat \/ WDropNotify ∈ wphases s -> (0 < writer_count s')%nat \/ WDropNotify ∈ wphases s') -> inv s'.
Proof.
  intros [Hl Hr Ht Hreg Hno Hw] Hl' Er Ht' Ep Ewk Erg Ha Hs Hc.
  assert (nothing s -> nothing s') as Hn.
  { intros [H|H]; [|right; auto]. destruct Hs as [[E1 E2]|H']; [|by right]. left. by rewrite E1, E2. }
  split; [done|by rewrite Er, Ep|done|by rewrite Ewk, Ep, Erg| |by rewrite Ewk, Ep; auto].
  rewrite Ewk, Ep. intros Hwk. specialize (Hno Hwk). destruct (rphase s); auto.
  unfold second_ok in *. rewrite Er. destruct (readers (cell s) !! 0%nat) as [[]|]; auto;
    (destruct Hno as [H|H]; [left; auto|]; destruct Hs as [[_ E]|H']; [right; congruence|left; by right]).
Qed.

(** What a step of [try_write] does to the cell. *)
Lemma try_write_effect t p (c : Cell V) : writers c !! t = Some p ->
  let c' := SharedCell.writer_step t p c in
  readers c' = readers c /\ (forall u, u <> t -> writers c' !! u = writers c !! u) /\
  (w_slot p = None -> slots c' = slots c /\ slot_idx c' = slot_idx c) /\
  (forall i, w_slot p = Some i -> exists q, writers c' !! t = Some q /\ (q = WOk \/ exists j, w_slot q = Some j)).
Proof.
  intros Hp c'.
  assert (forall q, (<[t := q]> (writers c)) !! t = Some q) as Ht by (intros; apply list_lookup_insert_eq; by eapply lookup_lt_Some).
  assert (forall q u, u <> t -> (<[t := q]> (writers c)) !! u = writers c !! u) as Hu by (intros; by apply list_lookup_insert_ne).
  unfold c'. destruct p as [|v n|v i n|v i n|v i o|i|i| |v n]; cbn [SharedCell.writer_step fetch_or]; repeat case_match;
    (split; [done|]; split; [intros; try done; by apply Hu|]; split; [done|]); intros j Hj; try done; (eexists; split; [apply Ht|]);
    cbn; eauto.
Qed.

(** The phase of a writer after a step of [try_write]. *)
Definition next_phase (q : option (WriterPc V)) : WPhase :=
  match q with Some WOk => WNotify | Some (WErr _ _) => WReady | _ => WTrying end.

Lemma trying_step t s : wphases s !! t = Some WTrying ->
  let c' := SharedCell.step (AWriter t) (cell s) in
  writer_step t WTrying s = with_wphase t (next_phase (writers c' !! t)) (with_cell c' s).
Proof.
  intros Ht c'. cbn [writer_step cell with_cell]. fold c'. unfold next_phase.
  assert (with_wphase t WTrying (with_cell c' s) = with_cell c' s) as E.
  { unfold with_wphase, with_cell. cbn. by rewrite list_insert_id. }
  destruct (writers c' !! t) as [[]|]; by rewrite ?E.
Qed.

Lemma trying_inv t s : inv s -> wphases s !! t = Some WTrying -> inv (writer_step t WTrying s).
Proof.
  intros Hi Ht. rewrite (trying_step t s Ht). cbv zeta. destruct (writers (cell s) !! t) as [p|] eqn:Ep.
  2: { cbn [SharedCell.step]. rewrite Ep. cbn. rewrite Ep. cbn [next_phase].
       assert (with_wphase t WTrying (with_cell (cell s) s) = s) as -> by (unfold with_wphase; cbn; rewrite list_insert_id by done; by destruct s).
       done. }
  assert (SharedCell.step (AWriter t) (cell s) = SharedCell.writer_step t p (cell s)) as -> by (cbn; by rewrite Ep).
  destruct (try_write_effect t p (cell s) Ep) as (Er & Hu & Hnone & Hsome).
  assert (forall i, locked (SharedCell.writer_step t p (cell s)) i) as Hl by (intros i; apply locked_writer; [apply Hi|done]).
  set (c' := SharedCell.writer_step t p (cell s)) in *.
  assert (forall ph, <[t := ph]> (wphases s) !! t = Some ph) as Hph by (intros; apply list_lookup_insert_eq; by eapply lookup_lt_Some).
  set (s' := with_wphase t (next_phase (writers c' !! t)) (with_cell c' s)).
  assert (forall i, w_slot p = Some i -> announcing s') as Hmine.
  { intros i Hs. destruct (Hsome i Hs) as (q & Hq & Hor). exists t. cbn. rewrite Hph, Hq. destruct Hor as [->|[j Hj]]; [by left|].
    right. split; [destruct q; try done|]. by exists q, j. }
  apply (writer_frame s); try done.
  - intros u q i Hq Hs. destruct (decide (u = t)) as [->|Hne].
    + cbn in *. rewrite Hph, Hq. by destruct q.
    + cbn in *. rewrite list_lookup_insert_ne by done. rewrite Hu in Hq by done. by eapply (iv_trying _ Hi).
  - intros [u Ha]. destruct (decide (u = t)) as [->|Hne].
    + rewrite Ht, Ep in Ha. destruct Ha as [Ha|(_ & q & i & [= <-] & Hs)]; [done|by eapply Hmine].
    + exists u. cbn. rewrite list_lookup_insert_ne, Hu by done. done.
  - destruct (w_slot p) as [i|] eqn:Es; [right; by eapply Hmine|left; by apply Hnone].
  - intros [H|H]; [by left|right]. by apply (elem_insert_ne _ _ WTrying).
Qed.

(** The phase of one writer changes, the cell does not. *)
Lemma phase_inv t p q s n : inv s -> wphases s !! t = Some p -> p <> WTrying -> p <> WNotify -> p <> WDropNotify ->
  ((0 < writer_count s)%nat -> (0 < n)%nat \/ q = WDropNotify) -> inv (with_wphase t q (with_count n s)).
Proof.
  intros Hi Ht H1 H2 H3 Hn. apply (writer_frame s); try done.
  - apply Hi.
  - intros u x i Hx Hs. cbn in *. pose proof (iv_trying _ Hi _ _ _ Hx Hs). rewrite list_lookup_insert_ne; [done|congruence].
  - intros [u Ha]. exists u. cbn. rewrite list_lookup_insert_ne; [done|]. intros ->. rewrite Ht in Ha. destruct Ha as [Ha|[Ha _]]; congruence.
  - by left.
  - intros [H|H]; [|right; by apply (elem_insert_ne _ _ p)]. destruct (Hn H) as [| ->]; [by left|right].
    apply (list_elem_of_lookup_2 _ t). cbn. apply list_lookup_insert_eq. by eapply lookup_lt_Some.
Qed.

(** The reader is woken if it waits. *)
Lemma notify_inv t p q s : inv s -> wphases s !! t = Some p -> p <> WTrying -> inv (with_wphase t q (notify s)).
Proof.
  intros [Hl Hr Ht Hreg Hno Hw] Hp Hne. unfold notify. destruct (registered s) eqn:Er.
  - split; try done. intros u x i Hx Hs. cbn in *. pose proof (Ht _ _ _ Hx Hs). rewrite list_lookup_insert_ne; [done|congruence].
  - split; try done; cbn.
    + intros u x i Hx Hs. pose proof (Ht _ _ _ Hx Hs). rewrite list_lookup_insert_ne; [done|congruence].
    + intros Hwk. specialize (Hreg Hwk). by destruct (rphase s).
    + intros Hwk. specialize (Hreg Hwk). by destruct (rphase s).
    + intros Hwk E. specialize (Hreg Hwk). by rewrite E in Hreg.
Qed.

Lemma ewriter_inv t p s : inv s -> wphases s !! t = Some p -> inv (writer_step t p s).
Proof.
  intros Hi Hp. destruct p; try done.
  - by apply trying_inv.
  - by apply (notify_inv t WNotify).
  - cbn [writer_step]. apply (phase_inv t WDropSub); try done. intros H. destruct (Nat.eqb_spec (writer_count s) 1); [by right|left; lia].
  - by apply (notify_inv t WDropNotify).
Qed.

(** ** The reader *)

(** A step of the reader, from what it does to the cell. *)
Lemma reader_frame s (c' : Cell V) p rg wk : inv s -> (forall i, locked c' i) -> writers c' = writers (cell s) ->
  (exists r, readers c' = [r] /\ match p with PTryRead | PFirst | PSecond => True | _ => at_rest r = true end) ->
  let s' := with_rphase p (with_signal rg wk (with_cell c' s)) in
  (wk = false -> match p with PSecond | PCount | PPending => rg = true | _ => True end) ->
  (wk = false -> match p with PSecond => second_ok s' | PCount | PPending => nothing s' | _ => True end) ->
  (wk = false -> p = PPending -> (0 < writer_count s)%nat \/ WDropNotify ∈ wphases s) -> inv s'.
Proof.
  intros [Hl Hr Ht Hreg Hno Hw] Hl' Ew Hr' s' H1 H2 H3. split; try done. intros t x i. cbn. rewrite Ew. apply Ht.
Qed.

Lemma with_same s : with_rphase (rphase s) (with_signal (registered s) (woken s) (with_cell (cell s) s)) = s.
Proof. by destruct s. Qed.

Lemma announcing_holding s : inv s -> 0 < holding (cell s) -> announcing s.
Proof.
  intros Hi Hh. destruct (decide (Exists (fun p => w_slot p <> None) (writers (cell s)))) as [He|He].
  - apply Exists_exists in He as (p & Hin & Hs). apply list_elem_of_lookup in Hin as [t Ht]. destruct (w_slot p) as [i|] eqn:E; [|done].
    exists t. right. split; [by eapply (iv_trying _ Hi)|]. by exists p, i.
  - unfold holding in Hh. rewrite zsum_zero in Hh; [lia|]. intros p Hin. unfold busy. destruct (w_slot p) eqn:E; [|done].
    exfalso. apply He, Exists_exists. exists p. by rewrite E.
Qed.

(** One access of the second attempt to read. *)
Lemma second_step s r : inv s -> readers (cell s) = [r] -> second_ok s -> second_ok (with_cell (SharedCell.reader_step 0 r (cell s)) s).
Proof.
  intros Hi Er. pose proof (iv_locked _ Hi) as Hl. unfold second_ok. rewrite Er. cbn [lookup list_lookup].
  assert (forall c', writers c' = writers (cell s) -> slot_idx c' = slot_idx (cell s) ->
    (slots c' (slot_idx c') = slots (cell s) (slot_idx c') \/ slots c' (slot_idx c') = None) -> nothing s -> nothing (with_cell c' s)) as Hn.
  { intros c' Ew Ei Es [H|H]; [left; cbn|right]; [destruct Es as [->|]; [by rewrite Ei|done]|].
    unfold announcing. cbn. by rewrite Ew. }
  destruct r as [| |i|i|i v|v]; cbn [SharedCell.reader_step fetch_or]; try (cbn; rewrite Er; done).
  - cbn. rewrite Er. cbn. intros _. by right.
  - specialize (Hl i). intros H. destruct (Z.eqb_spec (locks (cell s) i) 0) as [E|E]; cbn; rewrite Er; cbn.
    + destruct H as [H|H]; [left; apply Hn; auto|by right].
    + apply Hn; auto. destruct (holder_reader _ i _ Hl Er E) as [Hh|Hs]; [|done].
      right. by apply announcing_holding.
  - intros H. cbn. rewrite Er. cbn. destruct H as [H|<-]; [|left; cbn; apply fset_eq]. apply Hn; auto. cbn.
    destruct (decide (i = slot_idx (cell s))) as [->|Hne]; [right; apply fset_eq|left; by apply fset_ne].
Qed.

Lemma read_cell s r : readers (cell s) = [r] ->
  SharedCell.step (AReader 0) (cell s) = SharedCell.reader_step 0 r (cell s) /\
  writers (SharedCell.reader_step 0 r (cell s)) = writers (cell s) /\
  exists r', readers (SharedCell.reader_step 0 r (cell s)) = [r'].
Proof.
  intros Er. split; [cbn; by rewrite Er|]. destruct r; cbn [SharedCell.reader_step fetch_or]; repeat case_match; cbn; rewrite ?Er;
    (split; [done|by eexists]).
Qed.

Lemma start_cell s r : readers (cell s) = [r] -> at_rest r = true ->
  SharedCell.step (ATryRead 0) (cell s) = set_reader 0 RLoad (cell s).
Proof. intros Er Hr. cbn. rewrite Er. cbn. by destruct r. Qed.

Lemma start_inv p s rg wk : inv s -> (exists r, readers (cell s) = [r] /\ at_rest r = true) ->
  (p = PTryRead \/ p = PFirst \/ p = PSecond /\ rg = true) -> inv (start_read p (with_signal rg wk s)).
Proof.
  intros Hi (r & Er & Hr) Hp. unfold start_read. cbn [cell with_signal]. pose proof (start_cell s r Er Hr) as Ec.
  pose proof (fun i => locked_all_step (ATryRead 0) (cell s) i (iv_locked _ Hi)) as Hl. rewrite Ec in *.
  change (with_rphase p (with_cell (set_reader 0 RLoad (cell s)) (with_signal rg wk s)))
    with (with_rphase p (with_signal rg wk (with_cell (set_reader 0 RLoad (cell s)) s))).
  apply reader_frame; try done.
  - exists RLoad. cbn. rewrite Er. split; [done|]. by destruct Hp as [->|[->|[-> _]]].
  - by destruct Hp as [->|[->|[-> ->]]].
  - intros _. destruct Hp as [->|[->|[-> _]]]; try done. unfold second_ok. cbn. by rewrite Er.
  - intros _. by destruct Hp as [->|[->|[-> _]]].
Qed.

(** One access of the call of [try_read] in progress, and what follows. *)
Lemma read_inv s p : inv s -> (forall v, returned (read_step s) = Some v -> p <> PPending) ->
  (returned (read_step s) = None -> p = rphase s /\ match p with PTryRead | PFirst | PSecond => True | _ => False end) ->
  (p = PSecond -> rphase s = PSecond) ->
  (p = PCount -> rphase s = PSecond /\ returned (read_step s) <> None) -> p <> PPending -> inv (with_rphase p (read_step s)).
Proof.
  intros Hi Hret Hnone Hsec Hcnt Hpend. destruct (iv_reader _ Hi) as (r & Er & _). destruct (read_cell s r Er) as (Ec & Ew & r' & Er').
  pose proof (fun i => locked_all_step (AReader 0) (cell s) i (iv_locked _ Hi)) as Hl.
  unfold read_step, returned in *. rewrite Ec in *. set (c' := SharedCell.reader_step 0 r (cell s)) in *. cbn [cell with_cell] in *.
  rewrite Er' in *. cbn [lookup list_lookup] in *.
  assert (woken s = false -> rphase s = PSecond -> second_ok (with_cell c' s)) as Hsk.
  { intros Hwk E. apply second_step; [done|done|]. pose proof (iv_nothing _ Hi Hwk) as H. by rewrite E in H. }
  replace (with_rphase p (with_cell c' s)) with (with_rphase p (with_signal (registered s) (woken s) (with_cell c' s))) by (by destruct s).
  apply reader_frame; try done.
  - exists r'. split; [done|]. destruct r'; try (destruct (Hnone eq_refl) as [_ H]; by destruct p). by destruct p.
  - intros Hwk. pose proof (iv_registered _ Hi Hwk) as H. destruct p; try done; [rewrite (Hsec eq_refl) in H|rewrite (proj1 (Hcnt eq_refl)) in H]; done.
  - intros Hwk. destruct p; try done; [specialize (Hsk Hwk (Hsec eq_refl))|specialize (Hsk Hwk (proj1 (Hcnt eq_refl)))]; unfold second_ok in *.
    + exact Hsk.
    + cbn in *. rewrite Er' in Hsk. cbn in Hsk. destruct r'; try (by destruct (proj2 (Hcnt eq_refl))). exact Hsk.
Qed.

Lemma with_rphase_same s : with_rphase (rphase s) s = s.
Proof. by destruct s. Qed.

Lemma read_step_rphase s : rphase (read_step s) = rphase s.
Proof. done. Qed.

Lemma ereader_inv s : inv s -> inv (reader_step s).
Proof.
  intros Hi. unfold reader_step. destruct (rphase s) as [l| | | | |v| |] eqn:Ep; try done.
  - destruct (returned (read_step s)) as [v|] eqn:Er; [|rewrite <- (with_rphase_same (read_step s)), read_step_rphase, Ep];
      apply read_inv; try done; by rewrite Er.
  - destruct (returned (read_step s)) as [[v|]|] eqn:Er; [..|rewrite <- (with_rphase_same (read_step s)), read_step_rphase, Ep];
      apply read_inv; try done; by rewrite Er.
  - apply start_inv; [done| |by right; right]. destruct (iv_reader _ Hi) as (r & Er & H). rewrite Ep in H. by exists r.
  - destruct (returned (read_step s)) as [[v|]|] eqn:Er; [..|rewrite <- (with_rphase_same (read_step s)), read_step_rphase, Ep];
      apply read_inv; try done; by rewrite Er.
  - destruct (iv_reader _ Hi) as (r & Er & H). rewrite Ep in H.
    replace (with_signal false (woken s) s) with (with_signal false (woken s) (with_cell (cell s) s)) by (by destruct s).
    apply reader_frame; try done; [apply Hi|by exists r].
  - destruct (iv_reader _ Hi) as (r & Er & H). rewrite Ep in H.
    assert (forall q, with_rphase q s = with_rphase q (with_signal (registered s) (woken s) (with_cell (cell s) s))) as E by (by destruct s).
    pose proof (iv_registered _ Hi) as Hreg. pose proof (iv_nothing _ Hi) as Hno. rewrite Ep in Hreg, Hno.
    destruct (Nat.eqb_spec (writer_count s) 0) as [E0|E0]; rewrite E; (apply reader_frame; try done; [apply Hi|by exists r|..]).
    intros _ _. left. lia.
Qed.

Lemma write_inv t v s : inv s -> wphases s !! t = Some WReady ->
  inv (with_wphase t WTrying (with_cell (SharedCell.step (ATryWrite t v) (cell s)) s)).
Proof.
  intros Hi Ht. pose proof (fun i => locked_all_step (ATryWrite t v) (cell s) i (iv_locked _ Hi)) as Hl.
  assert (exists q, writers (SharedCell.step (ATryWrite t v) (cell s)) = writers (cell s) \/
    writers (SharedCell.step (ATryWrite t v) (cell s)) = <[t := q]> (writers (cell s))) as [q Hq].
  { exists (WLoad v (completed (cell s))). cbn. destruct (writers (cell s) !! t) as [[]|]; auto. }
  assert (readers (SharedCell.step (ATryWrite t v) (cell s)) = readers (cell s) /\
    slots (SharedCell.step (ATryWrite t v) (cell s)) = slots (cell s) /\
    slot_idx (SharedCell.step (ATryWrite t v) (cell s)) = slot_idx (cell s)) as (E1 & E2 & E3).
  { cbn. by destruct (writers (cell s) !! t) as [[]|]. }
  set (c' := SharedCell.step (ATryWrite t v) (cell s)) in *.
  assert (forall u, u <> t -> writers c' !! u = writers (cell s) !! u) as Hu.
  { intros u Hne. destruct Hq as [->| ->]; [done|by rewrite list_lookup_insert_ne]. }
  apply (writer_frame s); try done; cbn.
  - intros u x i Hx Hs. destruct (decide (u = t)) as [->|Hne]; [apply list_lookup_insert_eq; by eapply lookup_lt_Some|].
    rewrite list_lookup_insert_ne by done. rewrite Hu in Hx by done. by eapply (iv_trying _ Hi).
  - intros [u Ha]. exists u. assert (u <> t) as Hne by (intros ->; rewrite Ht in Ha; destruct Ha as [|[? _]]; done).
    cbn. by rewrite list_lookup_insert_ne, Hu by done.
  - by left.
  - intros [H|H]; [by left|right]. by apply (elem_insert_ne _ _ WReady).
Qed.

Lemma eslot_step_inv a s : inv s -> inv (step a s).
Proof.
  intros Hi. pose proof (iv_reader _ Hi) as (r & Er & Hr). destruct a as [t v|t|t u|t| | | |b]; cbn [step].
  - destruct (wphases s !! t) as [[]|] eqn:Et; try done. destruct (is_enabled s); [by apply write_inv|done].
  - destruct (wphases s !! t) as [p|] eqn:Et; [by apply ewriter_inv|done].
  - unfold clone_writer. destruct (wphases s !! t) as [[]|]; try done. destruct (wphases s !! u) as [[]|] eqn:Eu; try done.
    apply (phase_inv u WUnborn); try done. intros _. left. lia.
  - destruct (wphases s !! t) as [[]|] eqn:Et; try done. replace s with (with_count (writer_count s) s) at 1 by (by destruct s).
    apply (phase_inv t WReady); try done. by left.
  - destruct (rphase s) eqn:Ep; try done; (apply start_inv; [done|by exists r|by right; left]).
  - destruct (rphase s) eqn:Ep; try done;
      (replace s with (with_signal (registered s) (woken s) s) by (by destruct s); apply start_inv; [done|by exists r|by left]).
  - by apply ereader_inv.
  - apply (writer_frame s); try done; [apply Hi|apply Hi|by left].
Qed.

Lemma eslot_run_inv sched s : inv s -> inv (run sched s).
Proof. revert s. induction sched as [|a sched IH]; intros s Hi; [done|]. by apply IH, eslot_step_inv. Qed.

(** No writer is in the middle of a call. *)
Definition writers_quiet s : Prop := Forall (fun p => p = WUnborn \/ p = WReady \/ p = WGone) (wphases s).

(** C35: whatever the writers and the reader of an event slot do, if the reader
    waits in [poll_next] and has not been woken, and no writer is in the middle of
    a call, then there is no event in the slot and there is still a writer: no
    wake-up is missed, neither for an event nor for the drop of the last writer. *)
Theorem event_slot_no_lost_event enabled n sched : let s : ESlot V := run sched (event_slot enabled n) in
  rphase s = PPending -> woken s = false -> writers_quiet s ->
  slots (cell s) (slot_idx (cell s)) = None /\ (0 < writer_count s)%nat.
Proof.
  intros s Hp Hw Hq. assert (inv s) as Hi by (apply eslot_run_inv, event_slot_inv).
  assert (forall p, p ∈ wphases s -> p = WUnborn \/ p = WReady \/ p = WGone) as Hq' by (by apply Forall_forall).
  pose proof (iv_nothing _ Hi Hw) as Hn. rewrite Hp in Hn. split.
  - destruct Hn as [Hn|[t Ha]]; [done|]. destruct Ha as [Ha|[Ha _]]; apply list_elem_of_lookup_2, Hq' in Ha; by destruct Ha as [?|[?|?]].
  - destruct (iv_writers _ Hi Hw Hp) as [H|H]; [done|]. apply Hq' in H. by destruct H as [?|[?|?]].
Qed.
End Facts.

(** The reader waits, an event is written, the reader is woken and reads it, then
    it waits again. *)
Definition demo_sched : list (EAction nat) :=
  EPoll :: replicate 6 EReader ++ [EWrite 0 5%nat] ++ replicate 5 (EWriter 0) ++ EPoll :: replicate 8 EReader ++ EPoll :: replicate 12 EReader.

Example demo_read : rphase (run (EPoll :: replicate 6 EReader ++ [EWrite 0 5%nat] ++ replicate 5 (EWriter 0) ++ EPoll :: replicate 8 EReader)
  (event_slot true 1)) = PReady (Some (Some 5%nat)).
Proof. vm_compute. reflexivity. Qed.

Lemma event_slot_no_lost_event_witness : let s := run demo_sched (event_slot true 1) in
  rphase s = PPending /\ slots (cell s) (slot_idx (cell s)) = None /\ (0 < writer_count s)%nat.
Proof.
  assert (rphase (run demo_sched (event_slot true 1)) = PPending) as H1 by (vm_compute; reflexivity).
  split; [exact H1|]. apply (event_slot_no_lost_event true 1 demo_sched H1); [vm_compute; reflexivity|].
  unfold writers_quiet. vm_compute.
  constructor; [right; left; reflexivity|constructor; [left; reflexivity|constructor]].
Defined.
End EventSlotFacts.
