(* ===== verification/Slot.v ===== *)
(** * One-shot slots: [util/slot.rs]

    The reply channel of queries: one allocation shared by a [SlotWriter] and a
    [SlotReader].  As for tasks, the operations are broken down into their
    accesses to the state word, to the value and to the allocation; [None] is a
    memory error (an access after deallocation, the use or drop of a value
    that is not initialized, or the overwriting of one that is). *)

From S2P Require Import Prelude.
From stdpp Require Import base list option numbers.
Local Open Scope Z_scope.

Module Slot.

Definition CLOSED : Z := 1.
Definition POPULATED : Z := 2.

Inductive ReadError : Type := NoValue | ReadClosed.

(** Program points of the writer; [WGone] records the result of [write]. *)
Inductive WriterPc (T : Type) : Type :=
  | WIdle
  | WOr                       (** [write]: the value is written, set the flags *)
  | WDropValue | WDealloc (res : option (Result unit unit))
  | WDropLoad | WDropOr       (** drop handler *)
  | WGone (res : option (Result unit unit)).
#[global] Arguments WIdle {_}.
#[global] Arguments WOr {_}.
#[global] Arguments WDropValue {_}.
#[global] Arguments WDealloc {_} _.
#[global] Arguments WDropLoad {_}.
#[global] Arguments WDropOr {_}.
#[global] Arguments WGone {_} _.

(** Program points of the reader; [RIdle] records the last result of
    [try_read]. *)
Inductive ReaderPc (T : Type) : Type :=
  | RIdle (last : option (Result T ReadError))
  | RStore | RTake            (** [try_read] of a populated slot *)
  | RDropLoad | RDropOr | RDropValue | RDealloc
  | RGone.
#[global] Arguments RIdle {_} _.
#[global] Arguments RStore {_}.
#[global] Arguments RTake {_}.
#[global] Arguments RDropLoad {_}.
#[global] Arguments RDropOr {_}.
#[global] Arguments RDropValue {_}.
#[global] Arguments RDealloc {_}.
#[global] Arguments RGone {_}.

Record Sys (T : Type) : Type := mkSys {
  state : Z;
  value : option T;
  freed : bool;
  writer : WriterPc T;
  reader : ReaderPc T;
  written : option T;         (** history: the value passed to [write] *)
  reads : list T }.           (** history: the values returned by [try_read] *)
#[global] Arguments mkSys {_} _ _ _ _ _ _ _.
#[global] Arguments state {_} _.
#[global] Arguments value {_} _.
#[global] Arguments freed {_} _.
#[global] Arguments writer {_} _.
#[global] Arguments reader {_} _.
#[global] Arguments written {_} _.
#[global] Arguments reads {_} _.

Inductive Action (T : Type) : Type :=
  | AWrite (v : T) | ADropWriter | AWriter
  | ATryRead | ADropReader | AReader.
#[global] Arguments AWrite {_} _.
#[global] Arguments ADropWriter {_}.
#[global] Arguments AWriter {_}.
#[global] Arguments ATryRead {_}.
#[global] Arguments ADropReader {_}.
#[global] Arguments AReader {_}.

Section Defs.
Context {T : Type}.
Implicit Types (s : Sys T).

Definition slot : Sys T := mkSys 0 None false WIdle (RIdle None) None [].

Definition set_writer (w : WriterPc T) s : Sys T :=
  mkSys (state s) (value s) (freed s) w (reader s) (written s) (reads s).
Definition set_reader (r : ReaderPc T) s : Sys T :=
  mkSys (state s) (value s) (freed s) (writer s) r (written s) (reads s).
Definition set_state (w : Z) s : Sys T :=
  mkSys w (value s) (freed s) (writer s) (reader s) (written s) (reads s).

(** [write_value], [read_value], [drop_value_in_place], deallocation. *)
Definition write_value (v : T) s : option (Sys T) :=
  match value s with
  | None => Some (mkSys (state s) (Some v) (freed s) (writer s) (reader s) (Some v) (reads s))
  | Some _ => None
  end.
Definition read_value s : option (T * Sys T) :=
  v ← value s;
  Some (v, mkSys (state s) None (freed s) (writer s) (reader s) (written s) (reads s ++ [v])).
Definition drop_value_in_place s : option (Sys T) :=
  v ← value s;
  Some (mkSys (state s) None (freed s) (writer s) (reader s) (written s) (reads s)).
Definition dealloc s : Sys T :=
  mkSys (state s) (value s) true (writer s) (reader s) (written s) (reads s).

(** [SlotWriter::write] and its drop handler. *)
Definition write (v : T) s : option (Sys T) := s ← write_value v s; Some (set_writer WOr s).

Definition writer_step s : option (Sys T) :=
  let old := state s in
  match writer s with
  | WIdle | WGone _ => Some s
  | WOr =>
      let s := set_state (Z.lor old (Z.lor POPULATED CLOSED)) s in
      Some (if Z.land old CLOSED =? CLOSED then set_writer WDropValue s
            else set_writer (WGone (Some (Ok tt))) s)
  | WDropValue => s ← drop_value_in_place s; Some (set_writer (WDealloc (Some (Err tt))) s)
  | WDealloc res => Some (set_writer (WGone res) (dealloc s))
  | WDropLoad => Some (if Z.land old CLOSED =? 0 then set_writer WDropOr s else set_writer (WDealloc None) s)
  | WDropOr =>
      let s := set_state (Z.lor old CLOSED) s in
      Some (if Z.land old CLOSED =? 0 then set_writer (WGone None) s else set_writer (WDealloc None) s)
  end.

(** [SlotReader::try_read] and its drop handler. *)
Definition try_read s : Sys T :=
  let st := state s in
  if st =? 0 then set_reader (RIdle (Some (Err NoValue))) s
  else if Z.land st POPULATED =? 0 then set_reader (RIdle (Some (Err ReadClosed))) s
  else set_reader RStore s.

(** [state] is the last value loaded by the drop handler. *)
Definition reader_cleanup (st : Z) s : Sys T :=
  if Z.land st POPULATED =? POPULATED then set_reader RDropValue s else set_reader RDealloc s.

Definition reader_step s : option (Sys T) :=
  let old := state s in
  match reader s with
  | RIdle _ | RGone => Some s
  | RStore => Some (set_reader RTake (set_state CLOSED s))
  | RTake => '(v, s) ← read_value s; Some (set_reader (RIdle (Some (Ok v))) s)
  | RDropLoad => Some (if Z.land old CLOSED =? 0 then set_reader RDropOr s else reader_cleanup old s)
  | RDropOr =>
      let s := set_state (Z.lor old CLOSED) s in
      Some (if Z.land old CLOSED =? 0 then set_reader RGone s else reader_cleanup old s)
  | RDropValue => s ← drop_value_in_place s; Some (set_reader RDealloc s)
  | RDealloc => Some (set_reader RGone (dealloc s))
  end.

Definition on_live s (r : option (Sys T)) : option (Sys T) := if freed s then None else r.

Definition step (a : Action T) s : option (Sys T) :=
  match a with
  | AWrite v => match writer s with WIdle => on_live s (write v s) | _ => Some s end
  | ADropWriter => match writer s with WIdle => Some (set_writer WDropLoad s) | _ => Some s end
  | AWriter => match writer s with WIdle | WGone _ => Some s | _ => on_live s (writer_step s) end
  | ATryRead => match reader s with RIdle _ => on_live s (Some (try_read s)) | _ => Some s end
  | ADropReader => match reader s with RIdle _ => Some (set_reader RDropLoad s) | _ => Some s end
  | AReader => match reader s with RIdle _ | RGone => Some s | _ => on_live s (reader_step s) end
  end.

Fixpoint run (sched : list (Action T)) s : option (Sys T) :=
  match sched with
  | [] => Some s
  | a :: sched => s ← step a s; run sched s
  end.

(** ** Invariant *)

(** The state word: whether it is closed and whether it is populated. *)
Definition word (c p : bool) : Z := (if c then CLOSED else 0) + (if p then POPULATED else 0).

(** What holds at each pair of program points; the pairs that are not listed
    are unreachable: in particular the reader never reads or drops the value
    while the writer may access it, and the slot is freed by the last of the two. *)
Definition inv (s : Sys T) : Prop :=
  match writer s, reader s with
  | WIdle, RIdle _ | WIdle, RDropLoad | WIdle, RDropOr =>
      state s = word false false /\ value s = None /\ freed s = false /\ written s = None /\ reads s = []
  | WIdle, RGone | WDropLoad, RGone | WDropOr, RGone =>
      state s = word true false /\ value s = None /\ freed s = false /\ written s = None /\ reads s = []
  | WDropLoad, RIdle _ | WDropLoad, RDropLoad | WDropLoad, RDropOr
  | WDropOr, RIdle _ | WDropOr, RDropLoad | WDropOr, RDropOr =>
      state s = word false false /\ value s = None /\ freed s = false /\ written s = None /\ reads s = []
  | WOr, RIdle _ | WOr, RDropLoad | WOr, RDropOr =>
      state s = word false false /\ value s = written s /\ written s <> None /\ freed s = false /\ reads s = []
  | WOr, RGone => state s = word true false /\ value s = written s /\ written s <> None /\
      freed s = false /\ reads s = []
  | WDropValue, RGone => value s = written s /\ written s <> None /\ freed s = false /\ reads s = []
  | WDealloc res, RGone => value s = None /\ freed s = false /\ reads s = [] /\ (res = None -> written s = None)
  | WGone None, RIdle _ | WGone None, RDropLoad | WGone None, RDropOr | WGone None, RDealloc =>
      state s = word true false /\ value s = None /\ freed s = false /\ written s = None /\ reads s = []
  | WGone (Some (Ok _)), RIdle _ | WGone (Some (Ok _)), RDropLoad | WGone (Some (Ok _)), RDropOr =>
      freed s = false /\ written s <> None /\
      (state s = word true true /\ value s = written s /\ reads s = [] \/
       state s = word true false /\ value s = None /\ reads s = option_list (written s))
  | WGone (Some (Ok _)), RStore =>
      state s = word true true /\ value s = written s /\ written s <> None /\ freed s = false /\ reads s = []
  | WGone (Some (Ok _)), RTake =>
      state s = word true false /\ value s = written s /\ written s <> None /\ freed s = false /\ reads s = []
  | WGone (Some (Ok _)), RDropValue =>
      value s = written s /\ written s <> None /\ freed s = false /\ reads s = []
  | WGone (Some (Ok _)), RDealloc =>
      value s = None /\ freed s = false /\ reads s `prefix_of` option_list (written s)
  | WGone (Some (Err _)), RGone => value s = None /\ freed s = true /\ reads s = []
  | WGone _, RGone => value s = None /\ freed s = true /\ reads s `prefix_of` option_list (written s)
  | _, _ => False
  end.

Lemma writer_inv s :
  inv s -> match writer s with WIdle | WGone _ => False | _ => True end ->
  exists s', on_live s (writer_step s) = Some s' /\ inv s'.
Proof.
  destruct s as [st v f w r wr rd]. cbn. unfold inv.
  destruct w as [| | |res| | |res]; try done; intros Hi _; cbn in Hi;
    destruct r as [last| | | | | | |]; try done; destruct_and! Hi; subst; cbn;
    try (eexists; split; [reflexivity|]; cbn; split_and!; done).
  - eexists. split; [reflexivity|]. cbn. split_and!; [done|done|]. left. done.
  - eexists. split; [reflexivity|]. cbn. split_and!; [done|done|]. left. done.
  - eexists. split; [reflexivity|]. cbn. split_and!; [done|done|]. left. done.
  - destruct wr as [x|]; [|done]. eexists. split; [reflexivity|]. cbn. done.
  - eexists. split; [reflexivity|]. destruct res as [[]|]; cbn; split_and!; try done; apply prefix_nil.
Qed.

Lemma reader_inv s :
  inv s -> match reader s with RIdle _ | RGone => False | _ => True end ->
  exists s', on_live s (reader_step s) = Some s' /\ inv s'.
Proof.
  destruct s as [st v f w r wr rd]. cbn. unfold inv.
  destruct r as [last| | | | | | |]; try done; intros Hi _; cbn in Hi;
    destruct w as [| | |res| | |[[[]|]|]]; try done; destruct_and! Hi; subst; cbn;
    try (eexists; split; [reflexivity|]; cbn; split_and!; done).
  - destruct wr as [x|]; [|done]. eexists. split; [reflexivity|]. cbn. split_and!; [done|done|]. right. done.
  - select (_ \/ _) (fun H => destruct H as [(-> & -> & ->)|(-> & -> & ->)]); eexists; (split; [reflexivity|]); cbn; split_and!; done.
  - select (_ \/ _) (fun H => destruct H as [(-> & -> & ->)|(-> & -> & ->)]); eexists; (split; [reflexivity|]); cbn; split_and!; done.
  - destruct wr as [x|]; [|done]. eexists. split; [reflexivity|]. cbn. split_and!; [done|done|apply prefix_nil].
Qed.

Lemma slot_step_inv a s : inv s -> exists s', step a s = Some s' /\ inv s'.
Proof.
  intros Hi. destruct a as [v| | | | |]; cbn.
  - destruct s as [st v' f w r wr rd]. unfold inv in Hi |- *. cbn in Hi |- *.
    destruct w; try (by eexists); destruct r; cbn in Hi; try done; destruct_and! Hi; subst;
      (eexists; split; [reflexivity|]); cbn; done.
  - destruct s as [st v' f w r wr rd]. unfold inv in Hi |- *. cbn in Hi |- *.
    destruct w; try (by eexists); destruct r; cbn in Hi; try done; destruct_and! Hi; subst;
      (eexists; split; [reflexivity|]); cbn; done.
  - pose proof (writer_inv s Hi) as Hw. destruct (writer s) eqn:E; try (by eexists); by apply Hw.
  - destruct s as [st v' f w r wr rd]. unfold inv in Hi |- *. cbn in Hi |- *.
    destruct r; try (by eexists). destruct w as [| | |res| | |[[[]|]|]]; cbn in Hi; try done;
      destruct_and! Hi; subst; try (eexists; split; [reflexivity|]; cbn; done).
    select (_ \/ _) (fun H => destruct H as [(-> & -> & ->)|(-> & -> & ->)]);
      (eexists; split; [reflexivity|]); cbn; split_and!; auto.
  - destruct s as [st v' f w r wr rd]. unfold inv in Hi |- *. cbn in Hi |- *.
    destruct r; by eexists.
  - pose proof (reader_inv s Hi) as Hr. destruct (reader s) eqn:E; try (by eexists); by apply Hr.
Qed.

Lemma slot_run_inv sched s : inv s -> exists s', run sched s = Some s' /\ inv s'.
Proof.
  revert s. induction sched as [|a sched IH]; cbn; intros s Hi; [by eexists|].
  destruct (slot_step_inv a s Hi) as (s1 & -> & H1). cbn. by apply IH.
Qed.

Lemma inv_reads s : inv s -> reads s `prefix_of` option_list (written s).
Proof.
  destruct s as [st v f w r wr rd]. unfold inv. cbn.
  destruct w as [| | |res| | |[[[]|]|]], r; intros Hi; cbn in Hi; try done;
    destruct_and? Hi; subst; try done; try apply prefix_nil.
  all: select (_ \/ _) (fun H => destruct H as [(? & ? & ->)|(? & ? & ->)]); [apply prefix_nil|done].
Qed.

(** C34: for every interleaving of the accesses of the writer (its [write] or its
    drop handler) and of the reader (its calls to [try_read] and its drop
    handler), there is no access to freed memory, no use of an uninitialized
    value and no lost or doubly dropped value; the values read are a prefix of
    the at most one value written; once both handles are gone the value has been
    consumed and the slot has been deallocated; [write] fails only when the
    reader is gone, and then the value is dropped or about to be and was never
    read; and after a successful [write] a [try_read] of a value not yet read
    returns it. *)
Theorem slot_safe (sched : list (Action T)) :
  exists s, run sched slot = Some s /\
    reads s `prefix_of` option_list (written s) /\
    (forall res, writer s = WGone res -> reader s = RGone -> freed s = true /\ value s = None) /\
    (writer s = WGone (Some (Err tt)) -> reader s = RGone /\ reads s = []) /\
    (forall last, writer s = WGone (Some (Ok tt)) -> reader s = RIdle last -> reads s = [] ->
       exists v s', written s = Some v /\ run [ATryRead; AReader; AReader] s = Some s' /\
         reader s' = RIdle (Some (Ok v)) /\ reads s' = [v]).
Proof.
  destruct (slot_run_inv sched slot) as (s & Hs & Hi); [cbn; done|].
  exists s. split; [done|]. split; [by apply inv_reads|].
  destruct s as [st v f w r wr rd]. cbn. unfold inv in Hi. cbn in Hi. split_and!.
  - intros res -> ->. destruct res as [[]|]; naive_solver.
  - intros ->. destruct r; cbn in Hi; naive_solver.
  - intros last -> -> ->. destruct Hi as (-> & Hw & [(-> & -> & _)|(_ & _ & Hr)]);
      destruct wr as [x|]; try done. eexists x, _. done.
Qed.
End Defs.
End Slot.
