(* ===== verification/SyncCell.v ===== *)
(** * The seqlock of the simulation time: [util/sync_cell.rs], [time/monotonic_time.rs]

    The current time is written by the simulation thread and read by any number
    of schedulers.  It is stored as two atomics, which are neither read nor
    written together, under the protection of a sequence count.  Each load and
    each store is one step; the steps of the writer and of the readers are
    interleaved arbitrarily, in a sequentially consistent memory. *)

From stdpp Require Import proof_irrel.
From S2P Require Import Prelude.
Local Open Scope Z_scope.

(** [MonotonicTime] (a [TaiTime] of the [tai_time] crate) by its parts, as
    documented: a timestamp is made of any [i64] number of seconds and any
    number of nanoseconds below a billion, and [new] fails only beyond. *)
Class TimeParts (T : Type) := {
  tp_new : Z -> Z -> option T;
  as_secs : T -> Z;
  subsec_nanos : T -> Z;
  tp_secs_range : forall t, - 2 ^ 63 <= as_secs t < 2 ^ 63;
  tp_nanos_range : forall t, 0 <= subsec_nanos t < 1000000000;
  tp_new_spec : forall s n, - 2 ^ 63 <= s < 2 ^ 63 -> 0 <= n < 1000000000 ->
    exists t, tp_new s n = Some t /\ as_secs t = s /\ subsec_nanos t = n;
  tp_inj : forall t t', as_secs t = as_secs t' -> subsec_nanos t = subsec_nanos t' -> t = t' }.

Module SyncCell.

(** [wrapping_add] of the sequence count. *)
Definition wrap (z : Z) : Z := z mod 2 ^ 64.

Section Defs.
Context {T : Type} `{TimeParts T}.

Record TearableAtomicTime : Type := mkTearable { secs : Z; nanos : Z }.

Definition tearable_new (time : T) : TearableAtomicTime := mkTearable (as_secs time) (subsec_nanos time).

(** [tearable_store], one field at a time. *)
Definition store_secs (v : T) (t : TearableAtomicTime) : TearableAtomicTime := mkTearable (as_secs v) (nanos t).
Definition store_nanos (v : T) (t : TearableAtomicTime) : TearableAtomicTime := mkTearable (secs t) (subsec_nanos v).

(** [tearable_load], from the number of seconds loaded before; [None] is the
    panic of [unwrap]. *)
Definition tearable_load (sc : Z) (t : TearableAtomicTime) : option T := tp_new sc (nanos t).

(** Program points of [SyncCell::write]; [seq] is its local variable. *)
Inductive WriterPc : Type :=
  | WIdle
  | WSeq (v : T) (seq : Z)     (** store [seq + 1] *)
  | WSecs (v : T) (seq : Z)    (** [tearable_store] *)
  | WNanos (v : T) (seq : Z)
  | WEnd (v : T) (seq : Z).    (** store [seq + 2] *)

(** Program points of [SyncCellReader::try_read]; [RIdle] keeps the last result. *)
Inductive ReaderPc : Type :=
  | RIdle (last : option (Result T unit))
  | RSecs (seq : Z)            (** [tearable_load] *)
  | RNanos (seq secs : Z)
  | RCheck (seq : Z) (value : T).

Record Sys : Type := mkSys {
  tearable : TearableAtomicTime;
  sequence : Z;
  writer : WriterPc;
  readers : list ReaderPc;
  current : T;                 (** history: the value of the last completed write *)
  count : nat }.               (** history: the number of completed writes *)

Inductive Action : Type :=
  | AWrite (v : T) | AWriter | AReaderHandle | ATryRead (i : nat) | AReader (i : nat).

Definition new (time : T) : Sys := mkSys (tearable_new time) 0 WIdle [] time 0.

(** A synchronized read by the writer's thread. *)
Definition read (s : Sys) : option T := tearable_load (secs (tearable s)) (tearable s).

Definition set_writer (w : WriterPc) (s : Sys) : Sys :=
  mkSys (tearable s) (sequence s) w (readers s) (current s) (count s).
Definition set_reader (i : nat) (r : ReaderPc) (s : Sys) : Sys :=
  mkSys (tearable s) (sequence s) (writer s) (<[i := r]> (readers s)) (current s) (count s).

(** [write]: the load of the sequence count, then the stores. *)
Definition write (v : T) (s : Sys) : Sys := set_writer (WSeq v (sequence s)) s.

Definition writer_step (s : Sys) : Sys :=
  let t := tearable s in
  match writer s with
  | WIdle => s
  | WSeq v seq => mkSys t (wrap (seq + 1)) (WSecs v seq) (readers s) (current s) (count s)
  | WSecs v seq =>
      mkSys (store_secs v t) (sequence s) (WNanos v seq) (readers s) (current s) (count s)
  | WNanos v seq =>
      mkSys (store_nanos v t) (sequence s) (WEnd v seq) (readers s) (current s) (count s)
  | WEnd v seq => mkSys t (wrap (seq + 2)) WIdle (readers s) v (S (count s))
  end.

(** [try_read]: the initial load of the sequence count, then the loads of the
    parts, which [MonotonicTime::new(..).unwrap()] puts together. *)
Definition try_read (i : nat) (s : Sys) : Sys :=
  let seq := sequence s in
  set_reader i (if Z.land seq 1 =? 0 then RSecs seq else RIdle (Some (Err tt))) s.

Definition reader_step (i : nat) (r : ReaderPc) (s : Sys) : option Sys :=
  match r with
  | RIdle _ => Some s
  | RSecs seq => Some (set_reader i (RNanos seq (secs (tearable s))) s)
  | RNanos seq sc => value ← tearable_load sc (tearable s); Some (set_reader i (RCheck seq value) s)
  | RCheck seq value =>
      Some (set_reader i (RIdle (Some (if sequence s =? seq then Ok value else Err tt))) s)
  end.

(** One step; [None] is a panic.  [AReaderHandle] makes a new reader, with
    [SyncCell::reader] or by cloning. *)
Definition step (a : Action) (s : Sys) : option Sys :=
  match a with
  | AWrite v => Some (match writer s with WIdle => write v s | _ => s end)
  | AWriter => Some (writer_step s)
  | AReaderHandle =>
      Some (mkSys (tearable s) (sequence s) (writer s) (readers s ++ [RIdle None]) (current s) (count s))
  | ATryRead i => Some (match readers s !! i with Some (RIdle _) => try_read i s | _ => s end)
  | AReader i => match readers s !! i with Some r => reader_step i r s | None => Some s end
  end.

Fixpoint run (sched : list Action) (s : Sys) : option Sys :=
  match sched with
  | [] => Some s
  | a :: sched => s ← step a s; run sched s
  end.

(** ** Invariant *)

(** The sequence count is even and the parts are those of the current value. *)
Definition quiet (w : WriterPc) : Prop := match w with WIdle | WSeq _ _ => True | _ => False end.

(** The reader may rely on what it has read if no write has begun since its
    first load of the sequence count, that is if the [c] writes completed by
    then are all. *)
Definition valid (c : nat) (s : Sys) (P : Prop) : Prop :=
  (c <= count s)%nat /\ (c = count s -> quiet (writer s) -> P).

Definition in_range (z : Z) : Prop := - 2 ^ 63 <= z < 2 ^ 63.

Definition reader_ok (s : Sys) (r : ReaderPc) : Prop :=
  match r with
  | RIdle _ => True
  | RSecs seq => exists c, seq = wrap (2 * Z.of_nat c) /\ valid c s True
  | RNanos seq sc => in_range sc /\ exists c, seq = wrap (2 * Z.of_nat c) /\ valid c s (sc = as_secs (current s))
  | RCheck seq value => exists c, seq = wrap (2 * Z.of_nat c) /\ valid c s (value = current s)
  end.

Definition holds_secs (s : Sys) (v : T) : Prop := secs (tearable s) = as_secs v.
Definition holds_nanos (s : Sys) (v : T) : Prop := nanos (tearable s) = subsec_nanos v.

(** The writer's part of the invariant: the sequence count and the parts. *)
Definition writer_ok (s : Sys) : Prop :=
  let even := wrap (2 * Z.of_nat (count s)) in
  let odd := wrap (2 * Z.of_nat (count s) + 1) in
  match writer s with
  | WIdle => sequence s = even /\ holds_secs s (current s) /\ holds_nanos s (current s)
  | WSeq _ seq => seq = even /\ sequence s = even /\ holds_secs s (current s) /\ holds_nanos s (current s)
  | WSecs v seq => seq = even /\ sequence s = odd /\ holds_secs s (current s) /\ holds_nanos s (current s)
  | WNanos v seq => seq = even /\ sequence s = odd /\ holds_secs s v /\ holds_nanos s (current s)
  | WEnd v seq => seq = even /\ sequence s = odd /\ holds_secs s v /\ holds_nanos s v
  end.

Definition inv (s : Sys) : Prop := writer_ok s /\ Forall (reader_ok s) (readers s).

Lemma wrap_add x y : wrap (wrap x + y) = wrap (x + y).
Proof. apply Zplus_mod_idemp_l. Qed.

Lemma wrap_odd x : Z.odd (wrap x) = Z.odd x.
Proof.
  unfold wrap. rewrite Z.mod_eq by lia. rewrite Z.odd_sub.
  replace (2 ^ 64 * (x / 2 ^ 64)) with (2 * (2 ^ 63 * (x / 2 ^ 64))) by lia.
  rewrite Z.odd_mul. apply xorb_false_r.
Qed.

(** The test of the parity of the sequence count. *)
Lemma parity_test x : (Z.land (wrap x) 1 =? 0) = negb (Z.odd x).
Proof.
  rewrite <- (wrap_odd x). change 1 with (Z.ones 1). rewrite Z.land_ones by lia.
  change (2 ^ 1) with 2. rewrite Zmod_odd. by destruct (Z.odd (wrap x)).
Qed.

Lemma wrap_even_inj c k :
  Z.of_nat c < 2 ^ 63 -> Z.of_nat k < 2 ^ 63 ->
  wrap (2 * Z.of_nat c) = wrap (2 * Z.of_nat k) -> c = k.
Proof. intros Hc Hk. unfold wrap. rewrite !Z.mod_small by lia. lia. Qed.

Lemma sequence_parity s : writer_ok s -> (Z.land (sequence s) 1 =? 0) = true <-> quiet (writer s).
Proof.
  unfold writer_ok. destruct (writer s); cbn -[Z.mul]; intros Hw;
    [destruct Hw as (-> & _)|destruct Hw as (_ & -> & _)..];
    rewrite parity_test, ?Z.odd_add, Z.odd_mul; cbn; naive_solver.
Qed.

Lemma quiet_sequence s : writer_ok s -> quiet (writer s) -> sequence s = wrap (2 * Z.of_nat (count s)).
Proof. unfold writer_ok. destruct (writer s); cbn; naive_solver. Qed.

Lemma quiet_parts s : writer_ok s -> quiet (writer s) -> holds_secs s (current s) /\ holds_nanos s (current s).
Proof. unfold writer_ok. destruct (writer s); cbn; naive_solver. Qed.

(** Whatever is read can be put together, even if it is torn. *)
Lemma parts_range s : writer_ok s -> in_range (secs (tearable s)) /\ 0 <= nanos (tearable s) < 1000000000.
Proof.
  assert (forall v, holds_secs s v -> in_range (secs (tearable s))) as Hs
    by (intros v ->; apply tp_secs_range).
  assert (forall v, holds_nanos s v -> 0 <= nanos (tearable s) < 1000000000) as Hn
    by (intros v ->; apply tp_nanos_range).
  unfold writer_ok. destruct (writer s); cbn; naive_solver.
Qed.

(** A change of the writer's state that the readers detect. *)
Lemma readers_stale s s' :
  Forall (reader_ok s) (readers s) -> readers s' = readers s ->
  (count s <= count s')%nat -> (count s' = count s -> quiet (writer s') -> quiet (writer s) /\ current s' = current s) ->
  Forall (reader_ok s') (readers s').
Proof.
  intros Hf -> Hc Hq. eapply Forall_impl; [exact Hf|].
  intros [last|seq|seq sc|seq v]; cbn; unfold valid; [done|..].
  - intros (c & ? & ? & _). exists c. split_and!; [done|lia|done].
  - intros (? & c & ? & ? & Hv). split; [done|]. exists c. split_and!; [done|lia|]. intros -> Hw.
    destruct Hq as [Hq ->]; [lia|done|]. apply Hv; [lia|done].
  - intros (c & ? & ? & Hv). exists c. split_and!; [done|lia|]. intros -> Hw.
    destruct Hq as [Hq ->]; [lia|done|]. apply Hv; [lia|done].
Qed.

Lemma writer_step_inv s : inv s -> inv (writer_step s).
Proof.
  intros [Hw Hr]. split.
  - destruct s as [t sq w rs cur k]. unfold writer_ok, writer_step, holds_secs, holds_nanos in *.
    destruct w as [|v seq|v seq|v seq|v seq]; cbn -[Z.mul Z.of_nat] in *; [done|..];
      destruct_and! Hw; subst; try done.
    + by rewrite wrap_add.
    + rewrite wrap_add. split_and!; [f_equal; lia|done|done].
  - apply readers_stale with s; [done|..]; unfold writer_step; destruct (writer s); cbn; try done; lia.
Qed.

Lemma set_reader_inv i r s : inv s -> reader_ok s r -> inv (set_reader i r s).
Proof. intros [Hw Hr] Hok. split; [done|]. cbn. by apply Forall_insert. Qed.

Lemma try_read_inv i s : inv s -> inv (try_read i s).
Proof.
  intros Hi. apply set_reader_inv; [done|]. destruct Hi as [Hw _].
  destruct (_ =? 0) eqn:E; [|done]. apply sequence_parity in E; [|done].
  exists (count s). rewrite quiet_sequence by done. done.
Qed.

Lemma reader_step_inv i r s :
  inv s -> readers s !! i = Some r -> exists s', reader_step i r s = Some s' /\ inv s'.
Proof.
  intros Hi Hr. pose proof Hi as [Hw Hf]. pose proof (proj1 (Forall_lookup _ _) Hf _ _ Hr) as Hok.
  destruct (parts_range s Hw) as [Hs Hn].
  destruct r as [last|seq|seq sc|seq v]; cbn in Hok |- *; [by eexists|..]; unfold valid in Hok.
  - eexists; split; [done|]. apply set_reader_inv; [done|]. destruct Hok as (c & -> & Hc & _).
    split; [done|]. exists c. split; [done|]. split; [done|]. intros _ Hq. by apply quiet_parts.
  - destruct Hok as (Hsc & c & -> & Hc & Hv). unfold tearable_load.
    destruct (tp_new_spec sc (nanos (tearable s)) Hsc Hn) as (t & -> & Ht1 & Ht2). cbn.
    eexists; split; [done|]. apply set_reader_inv; [done|]. exists c. split; [done|]. split; [done|].
    intros Hcc Hq. apply tp_inj; [rewrite Ht1; by apply Hv|rewrite Ht2; by apply quiet_parts].
  - eexists; split; [done|]. by apply set_reader_inv.
Qed.

Lemma cell_step_inv a s : inv s -> exists s', step a s = Some s' /\ inv s'.
Proof.
  intros Hi. destruct a as [v| | |i|i]; cbn.
  - eexists; split; [done|]. destruct (writer s) eqn:E; try done. destruct Hi as [Hw Hr].
    split; [unfold writer_ok in *; rewrite E in Hw; cbn; naive_solver|].
    apply readers_stale with s; [done|done|cbn; lia|]. cbn. by rewrite E.
  - eexists; split; [done|]. by apply writer_step_inv.
  - eexists; split; [done|]. destruct Hi as [Hw Hr]. split; [done|]. cbn.
    apply Forall_app. split; [|by constructor]. eapply Forall_impl; [exact Hr|]. by intros [].
  - eexists; split; [done|]. destruct (readers s !! i) as [[]|]; try done. by apply try_read_inv.
  - destruct (readers s !! i) as [r|] eqn:E; [by apply reader_step_inv|by eexists].
Qed.

Lemma cell_run_inv sched s : inv s -> exists s', run sched s = Some s' /\ inv s'.
Proof.
  revert s. induction sched as [|a sched IH]; cbn; intros s Hi; [by eexists|].
  destruct (cell_step_inv a s Hi) as (s1 & -> & H1). cbn. by apply IH.
Qed.

Lemma new_inv t : inv (new t).
Proof. split; [done|constructor]. Qed.
Lemma step_count a s s' : step a s = Some s' -> (count s' <= S (count s))%nat.
Proof.
  destruct a as [v| | |i|i]; cbn.
  - intros [= <-]. destruct (writer s); cbn; lia.
  - intros [= <-]. unfold writer_step. destruct (writer s); cbn; lia.
  - intros [= <-]. cbn. lia.
  - intros [= <-]. destruct (readers s !! i) as [[]|]; cbn; lia.
  - destruct (readers s !! i) as [[last|seq|seq sc|seq v]|]; cbn; intros Hs; [simplify_eq; cbn; lia..| | |simplify_eq; lia].
    + destruct (tearable_load _ _); cbn in Hs; [|done]. simplify_eq. cbn. lia.
    + simplify_eq. cbn. lia.
Qed.

Lemma run_count sched s s' : run sched s = Some s' -> (count s' <= count s + length sched)%nat.
Proof.
  revert s. induction sched as [|a sched IH]; cbn; intros s Hs; [simplify_eq; lia|].
  destruct (step a s) as [s1|] eqn:E; cbn in Hs; [|done]. apply step_count in E. apply IH in Hs. lia.
Qed.

(** The final check of [try_read] rejects what raced with a write. *)
Lemma check_current i seq value s :
  inv s -> Z.of_nat (count s) < 2 ^ 63 -> readers s !! i = Some (RCheck seq value) ->
  sequence s = seq -> value = current s /\ quiet (writer s).
Proof.
  intros [Hw Hf] Hb Hr Hs. pose proof (proj1 (Forall_lookup _ _) Hf _ _ Hr) as (c & -> & Hc & Hv).
  assert (quiet (writer s)) as Hq.
  { apply sequence_parity; [done|]. rewrite Hs, parity_test, Z.odd_mul. done. }
  split; [|done]. apply Hv; [|done]. rewrite quiet_sequence in Hs by done.
  symmetry. apply wrap_even_inj; [lia|lia|done].
Qed.

Lemma quiet_read s : inv s -> quiet (writer s) -> read s = Some (current s).
Proof.
  intros [Hw _] Hq. destruct (quiet_parts s Hw Hq) as [Hs Hn]. unfold read, tearable_load. rewrite Hs, Hn.
  destruct (tp_new_spec (as_secs (current s)) (subsec_nanos (current s))) as (t & -> & ? & ?);
    [apply tp_secs_range|apply tp_nanos_range|]. f_equal. by apply tp_inj.
Qed.

(** A reader that runs alone while no write is in progress. *)
Lemma solo_read i last s :
  inv s -> quiet (writer s) -> readers s !! i = Some (RIdle last) ->
  exists s', run [ATryRead i; AReader i; AReader i; AReader i] s = Some s' /\
    readers s' !! i = Some (RIdle (Some (Ok (current s)))).
Proof.
  intros Hi Hq Hr. pose proof (quiet_read s Hi Hq) as Hread. destruct Hi as [Hw _].
  apply (sequence_parity s Hw) in Hq. apply lookup_lt_Some in Hr as Hlt.
  destruct s as [t sq w rs cur k]. cbn in *. rewrite Hr. cbn. unfold try_read. cbn. rewrite Hq.
  unfold read in Hread. cbn in Hread.
  repeat first [progress (rewrite ?Hread, ?Z.eqb_refl; cbn)
               |rewrite list_lookup_insert_eq by (by rewrite ?length_insert)].
  eexists. split; [done|]. cbn. by rewrite list_lookup_insert_eq by (by rewrite ?length_insert).
Qed.

(** C36: for every interleaving of a writer with any number of readers (of fewer
    than 2^63 steps, so that the sequence count cannot wrap around during a
    read), nothing panics, even when a torn value is loaded; whenever
    [try_read] succeeds, its result is the value of the last completed write at
    the time of its final check, at which no write is storing; a [try_read] that
    does not race with a write succeeds; and so does the read of the writer's
    own thread. *)
Theorem seqlock_atomic (t0 : T) (sched : list Action) :
  Z.of_nat (length sched) < 2 ^ 63 ->
  exists s, run sched (new t0) = Some s /\
    (forall i r s' v, readers s !! i = Some r -> (forall last, r <> RIdle last) ->
       step (AReader i) s = Some s' -> readers s' !! i = Some (RIdle (Some (Ok v))) ->
       v = current s /\ quiet (writer s)) /\
    (forall i last, writer s = WIdle -> readers s !! i = Some (RIdle last) ->
       exists s', run [ATryRead i; AReader i; AReader i; AReader i] s = Some s' /\
         readers s' !! i = Some (RIdle (Some (Ok (current s))))) /\
    (writer s = WIdle -> read s = Some (current s)).
Proof.
  intros Hb. destruct (cell_run_inv sched (new t0) (new_inv t0)) as (s & Hs & Hi).
  pose proof (run_count _ _ _ Hs) as Hc. cbn in Hc. exists s. split_and!; [done| | |].
  - intros i r s' v Hr Hne Hst Hv. apply lookup_lt_Some in Hr as Hlt. cbn in Hst. rewrite Hr in Hst.
    destruct r as [last|seq|seq sc|seq value]; cbn in Hst; [by destruct (Hne last)|..].
    + simplify_eq. cbn in Hv. by rewrite list_lookup_insert_eq in Hv.
    + destruct (tearable_load _ _); cbn in Hst; simplify_eq. cbn in Hv. by rewrite list_lookup_insert_eq in Hv.
    + simplify_eq. cbn in Hv. rewrite list_lookup_insert_eq in Hv by done.
      destruct (Z.eqb_spec (sequence s) seq) as [E|E]; simplify_eq.
      by eapply check_current; [done|lia|..].
  - intros i last Hw. apply solo_read; [done|by rewrite Hw].
  - intros Hw. apply quiet_read; [done|by rewrite Hw].
Qed.
End Defs.
End SyncCell.

(** ** Timestamps as pairs of parts *)
Module PartsTime.
Definition ok (p : Z * Z) : bool :=
  (- 2 ^ 63 <=? p.1) && (p.1 <? 2 ^ 63) && (0 <=? p.2) && (p.2 <? 1000000000).
Record time : Type := mkTime { parts : Z * Z; parts_ok : ok parts = true }.

Definition of_parts (s n : Z) : option time :=
  match decide (ok (s, n) = true) with left E => Some (mkTime (s, n) E) | right _ => None end.

Lemma ok_spec p : ok p = true <-> - 2 ^ 63 <= p.1 < 2 ^ 63 /\ 0 <= p.2 < 1000000000.
Proof. unfold ok. rewrite !andb_true_iff, !Z.leb_le, !Z.ltb_lt. tauto. Qed.

#[global] Program Instance time_parts : TimeParts time := {|
  tp_new := of_parts; as_secs t := (parts t).1; subsec_nanos t := (parts t).2 |}.
Next Obligation. intros [p Hp]. pose proof (proj1 (ok_spec p) Hp) as Hr. exact (proj1 Hr). Qed.
Next Obligation. intros [p Hp]. pose proof (proj1 (ok_spec p) Hp) as Hr. exact (proj2 Hr). Qed.
Next Obligation.
  intros s n Hs Hn. unfold of_parts. destruct (decide _) as [E|E]; [by eexists|].
  exfalso. apply E, ok_spec. done.
Qed.
Next Obligation.
  intros [[a b] Hp] [[c d] Hq]; cbn. intros -> ->. f_equal. apply proof_irrel.
Qed.

Definition at_parts (s n : Z) : time := default (mkTime (0, 0) eq_refl) (of_parts s n).
End PartsTime.

Import SyncCell.

(** A reader that loads the seconds before a write and the nanoseconds after
    it fails; the next attempt succeeds. *)
Definition torn_schedule : list (Action (T := PartsTime.time)) :=
  [AReaderHandle; ATryRead 0; AReader 0; AWrite (PartsTime.at_parts 2 7); AWriter; AWriter; AWriter; AWriter;
   AReader 0; AReader 0].

Lemma seqlock_atomic_witness :
  exists s s', run torn_schedule (new (PartsTime.at_parts 1 3)) = Some s /\
    readers s = [RIdle (Some (Err tt))] /\
    run [ATryRead 0; AReader 0; AReader 0; AReader 0] s = Some s' /\
    readers s' !! 0%nat = Some (RIdle (Some (Ok (PartsTime.at_parts 2 7)))).
Proof.
  destruct (seqlock_atomic (PartsTime.at_parts 1 3) torn_schedule) as (s & Hs & _ & Hr & _); [vm_compute; done|].
  vm_compute in Hs. injection Hs as <-.
  destruct (Hr 0%nat (Some (Err tt)) eq_refl eq_refl) as (s' & Hs' & Hr').
  eexists _, s'. split; [vm_compute; reflexivity|]. split; [reflexivity|]. split; [exact Hs'|].
  rewrite Hr'. vm_compute. reflexivity.
Defined.
