(* ===== verification/Errors.v ===== *)
(** * Dynamic values and errors: [simulation.rs], [executor.rs]

    User types are only known to the kernel of the simulator through
    [dyn Any], serde and [type_name]; [Lang] is that view of them.  The error
    types keep the constructors of the source; the boxed cause of a
    serialization error is its message. *)

From S2P Require Import Prelude Path.
From stdpp Require Import strings.

Class Lang := {
  Value : Type;                                  (** values of user types *)
  TypeId : Type;
  typeid_eq_dec :: EqDecision TypeId;
  type_name : TypeId -> string;
  send_error_type : TypeId                      (** [TypeId::of::<SendError>()] *) }.

(** [Box<dyn Any>]: a value and the type it was created at. *)
Record Any `{Lang} : Type := mkAny { any_type : TypeId; any_val : Value }.
Arguments mkAny {_} any_type any_val.

(** [downcast::<T>] and [downcast_ref::<T>]. *)
Definition downcast `{Lang} (T : TypeId) (a : Any) : option Value :=
  if decide (any_type a = T) then Some (any_val a) else None.

Lemma downcast_Some `{Lang} T a v : downcast T a = Some v <-> a = mkAny T v.
Proof. unfold downcast; destruct a as [T' v']; cbn; case_decide; naive_solver. Qed.

Definition Cause : Type := string.
Definition bytes : Type := list Byte.byte.

(** A model or endpoint as it appears in reports. *)
Record DeadlockInfo : Type := mkDeadlockInfo { model : Path.Path; mailbox_size : Z }.

Inductive SaveError : Type :=
  | ConfigSerializationError (cause : Cause)
  | ModelSerializationError (model : Path.Path) (type_name : string) (cause : Cause)
  | EventSerializationError (event_id : Z) (cause : Cause)
  | QuerySerializationError (query_id : Z) (cause : Cause)
  | SchedulerQueueSerializationError (cause : Cause)
  | SimulationStateSerializationError (cause : Cause)
  | SaveEventNotFound (event_id : Z)
  | SaveQueryNotFound (query_id : Z)
  | ArgumentTypeMismatch (type_name : string)
  | ArgumentSerializationError (type_name : string) (cause : Cause).

Inductive RestoreError : Type :=
  | ConfigMissing
  | ModelDeserializationError (model : Path.Path) (type_name : string) (cause : Cause)
  | RestoreModelSerializationError (model : Path.Path) (type_name : string) (cause : Cause)
  | QueueItemDeserializationError (cause : Cause)
  | SchedulerQueueDeserializationError (cause : Cause)
  | SimulationStateDeserializationError (cause : Cause)
  | RestoreEventNotFound (event_id : Z)
  | RestoreQueryNotFound (query_id : Z)
  | ArgumentDeserializationError (type_name : string) (cause : Cause).

(** A model identifier; [usize::MAX] denotes the lack of a model. *)
Module ModelId.
Definition none : Z := usize_max.
Definition new (id : Z) : option Z := if Z.eqb id usize_max then None else Some id.
Definition get (self : Z) : option Z := if Z.eqb self usize_max then None else Some self.

Lemma get_new id m : new id = Some m -> get m = Some id.
Proof. unfold new, get. destruct (Z.eqb_spec id usize_max); [done|]. intros; simplify_eq.
  by destruct (Z.eqb_spec m usize_max). Qed.
End ModelId.

(** [executor.rs]: the reasons for which a run of the executor fails. *)
Inductive ExecutorError `{Lang} : Type :=
  | UnprocessedMessages (count : Z)
  | ExecTimeout
  | ExecPanic (model_id : Z) (payload : Any).

Inductive ExecutionError `{Lang} (T : Type) : Type :=
  | Halted
  | Terminated
  | Deadlock (info : list DeadlockInfo)
  | MessageLoss (count : Z)
  | NoRecipient (model : option Path.Path)
  | ModelPanic (model : Path.Path) (payload : Any)
  | Timeout
  | OutOfSyncError (lag : Z)
  | BadQuery
  | InvalidDeadline (time : T)
  | InvalidEventId (id : Z)
  | InvalidQueryId (id : Z)
  | InvalidEventType (expected_event_type : string)
  | InvalidQueryType (expected_request_type expected_reply_type : string)
  | ExecSaveError (e : SaveError)
  | ExecRestoreError (e : RestoreError).
Arguments Halted {_ _}.
Arguments Terminated {_ _}.
Arguments Deadlock {_ _} info.
Arguments MessageLoss {_ _} count.
Arguments NoRecipient {_ _} model.
Arguments ModelPanic {_ _} model payload.
Arguments Timeout {_ _}.
Arguments OutOfSyncError {_ _} lag.
Arguments BadQuery {_ _}.
Arguments InvalidDeadline {_ _} time.
Arguments InvalidEventId {_ _} id.
Arguments InvalidQueryId {_ _} id.
Arguments InvalidEventType {_ _} expected_event_type.
Arguments InvalidQueryType {_ _} expected_request_type expected_reply_type.
Arguments ExecSaveError {_ _} e.
Arguments ExecRestoreError {_ _} e.

(** A concrete language of user types: a type is a number, a value is an
    integer. *)
Definition demo_lang : Lang :=
  {| Value := Z; TypeId := nat; type_name := fun n => match n with 0 => "u32" | 1 => "i64" | _ => "T" end%string;
     send_error_type := 99 |}.
