(* ===== verification/QueueItems.v ===== *)
(** * Events, queries, keys and source registries: [simulation/queue_items.rs]

    [EventKey] is a pointer to a shared cancellation flag; the flags live in a
    store ([EventKey.Flags]) threaded through the operations, and a key is an
    address of the store, so that clones of a key share their flag.

    Sources are the trait objects kept in the scheduler registry.  Making a
    future from a source and a dynamically typed argument yields a value of
    [Fut], which records what the future will do when it is polled.

    The [bincode] encoder is an interface ([Bincode]); its documented
    round-trip law is the class [BincodeLaws]. *)

From S2P Require Import Prelude Path Errors Time.
From stdpp Require Import strings.

(** ** Cancellation keys *)
Module EventKey.

Notation EventKey := nat (only parsing).
Notation AutoEventKey := nat (only parsing).

(** The [Arc<AtomicBool>]s in existence. *)
Notation Flags := (list bool) (only parsing).

Definition new (fl : Flags) : EventKey * Flags := (length fl, fl ++ [false]).
Definition is_cancelled (fl : Flags) (k : EventKey) : bool := default false (fl !! k).
Definition cancel (fl : Flags) (k : EventKey) : Flags := <[k := true]> fl.
Definition into_auto (k : EventKey) : AutoEventKey := k.
(** [Drop for AutoEventKey]. *)
Definition drop_auto (fl : Flags) (k : AutoEventKey) : Flags := <[k := true]> fl.
(** [Arc::ptr_eq]. *)
Definition eq (k1 k2 : EventKey) : bool := Nat.eqb k1 k2.

(** The serialized form: the value of the flag and its address. *)
Definition serialize (fl : Flags) (k : EventKey) : bool * nat := (is_cancelled fl k, k).
(** [AutoEventKey::serialize] goes through a temporary [EventKey], which is
    not managed: nothing is cancelled. *)
Definition serialize_auto (fl : Flags) (k : AutoEventKey) : bool * nat := serialize fl k.

(** [EVENT_KEY_REG]: the keys restored so far, by saved address; [None] when
    the scoped variable is not set. *)
Notation EventKeyReg := (option (gmap nat nat)) (only parsing).

Definition deserialize (reg : EventKeyReg) (fl : Flags) (wire : bool * nat) :
    EventKey * EventKeyReg * Flags :=
  let '(value, addr) := wire in
  match reg with
  | Some reg =>
      match reg !! addr with
      | Some target => (target, Some reg, fl)
      | None => (length fl, Some (<[addr := length fl]> reg), fl ++ [value])
      end
  | None => let '(k, fl') := new fl in (k, None, fl')
  end.

(** A key points to a live flag. *)
Definition live (fl : Flags) (k : EventKey) : Prop := k < length fl.

Lemma new_spec fl k fl' :
  new fl = (k, fl') -> live fl' k /\ ~ live fl k /\ is_cancelled fl' k = false /\
  (forall k', live fl k' -> live fl' k' /\ is_cancelled fl' k' = is_cancelled fl k').
Proof.
  unfold new, live, is_cancelled. intros; simplify_eq. rewrite length_app; cbn.
  split_and!; [lia|lia| |].
  - by rewrite list_lookup_middle.
  - intros k' Hk'. split; [lia|]. by rewrite lookup_app_l.
Qed.

Lemma cancel_spec fl k k' :
  live fl k -> is_cancelled (cancel fl k) k' = (eq k k' || is_cancelled fl k').
Proof.
  unfold live, is_cancelled, cancel, eq. intros Hk. destruct (Nat.eqb_spec k k') as [->|Hne]; cbn.
  - by rewrite list_lookup_insert_eq.
  - by rewrite list_lookup_insert_ne.
Qed.

Lemma cancel_length fl k : length (cancel fl k) = length fl.
Proof. apply length_insert. Qed.

(** Restoring a sequence of saved keys. *)
Fixpoint deserialize_all (reg : EventKeyReg) (fl : Flags) (wires : list (bool * nat)) :
    list EventKey * EventKeyReg * Flags :=
  match wires with
  | [] => ([], reg, fl)
  | w :: ws =>
      let '(k, reg1, fl1) := deserialize reg fl w in
      let '(ks, reg2, fl2) := deserialize_all reg1 fl1 ws in
      (k :: ks, reg2, fl2)
  end.

(** The registry relates saved addresses with the restored keys: it is
    injective and its targets carry the saved values. *)
Record reg_ok (old : Flags) (reg : gmap nat nat) (fl : Flags) : Prop := {
  reg_live : forall a k, reg !! a = Some k -> live fl k;
  reg_inj : forall a b k, reg !! a = Some k -> reg !! b = Some k -> a = b;
  reg_val : forall a k, reg !! a = Some k -> is_cancelled fl k = is_cancelled old a }.

Lemma deserialize_ok old reg fl a :
  reg_ok old reg fl ->
  exists k reg' fl', deserialize (Some reg) fl (serialize old a) = (k, Some reg', fl') /\
    reg_ok old reg' fl' /\ reg' !! a = Some k /\ reg ⊆ reg'.
Proof.
  intros Hok. unfold deserialize, serialize. destruct (reg !! a) as [k|] eqn:Ha.
  { by exists k, reg, fl. }
  exists (length fl), (<[a := length fl]> reg), (fl ++ [is_cancelled old a]).
  split_and!; [done| |by rewrite lookup_insert_eq|by apply insert_subseteq].
  assert (forall b k, reg !! b = Some k -> k <> length fl) as Hne.
  { intros b k Hb. pose proof (reg_live _ _ _ Hok _ _ Hb). unfold live in *. lia. }
  split.
  - intros b k. rewrite lookup_insert_Some. unfold live. rewrite length_app; cbn.
    intros [[_ <-]|[_ Hb]]; [lia|]. pose proof (reg_live _ _ _ Hok _ _ Hb). unfold live in *; lia.
  - intros b c k. rewrite !lookup_insert_Some.
    intros [[-> <-]|[? Hb]] [[-> Hk]|[? Hc]]; try done.
    + by destruct (Hne _ _ Hc).
    + subst; by destruct (Hne _ _ Hb).
    + by eapply reg_inj.
  - intros b k. rewrite lookup_insert_Some. unfold is_cancelled at 1.
    intros [[-> <-]|[? Hb]]; [by rewrite list_lookup_middle|].
    rewrite lookup_app_l by (by eapply reg_live). by eapply reg_val.
Qed.

Lemma deserialize_all_ok old keys reg fl :
  reg_ok old reg fl ->
  exists ks reg' fl',
    deserialize_all (Some reg) fl (serialize old <$> keys) = (ks, Some reg', fl') /\
    reg_ok old reg' fl' /\ reg ⊆ reg' /\ Forall2 (fun a k => reg' !! a = Some k) keys ks.
Proof.
  revert reg fl; induction keys as [|a keys IH]; intros reg fl Hok; cbn [fmap list_fmap deserialize_all].
  { by exists [], reg, fl. }
  destruct (deserialize_ok old reg fl a Hok) as (k & r1 & f1 & -> & Hok1 & Hk & Hsub).
  destruct (IH r1 f1 Hok1) as (ks & r2 & f2 & -> & Hok2 & Hsub2 & Hall).
  exists (k :: ks), r2, f2. split_and!; [done|done|by transitivity r1|].
  constructor; [|done]. by eapply lookup_weaken.
Qed.

Lemma reg_ok_empty old fl : reg_ok old ∅ fl.
Proof. split; intros *; by rewrite lookup_empty. Qed.

(** Restoring any sequence of saved keys within one key registry recreates
    their sharing and their state: two restored keys are the same flag exactly
    when the saved ones were, and each is cancelled exactly when the saved one
    was. *)
Theorem restored_keys_share (old fl : Flags) (keys : list EventKey) :
  exists ks reg fl',
    deserialize_all (Some ∅) fl (serialize old <$> keys) = (ks, reg, fl') /\
    length ks = length keys /\
    (forall i j a b k k', keys !! i = Some a -> keys !! j = Some b ->
       ks !! i = Some k -> ks !! j = Some k' -> (eq k k' = true <-> eq a b = true)) /\
    (forall i a k, keys !! i = Some a -> ks !! i = Some k ->
       live fl' k /\ is_cancelled fl' k = is_cancelled old a).
Proof.
  destruct (deserialize_all_ok old keys ∅ fl (reg_ok_empty old fl))
    as (ks & reg & fl' & -> & Hok & _ & Hall).
  exists ks, (Some reg), fl'. split_and!; [done|by erewrite <- Forall2_length| |].
  - intros i j a b k k' Ha Hb Hk Hk'. unfold eq. rewrite !Nat.eqb_eq.
    pose proof (Forall2_lookup_lr _ _ _ _ _ _ Hall Ha Hk).
    pose proof (Forall2_lookup_lr _ _ _ _ _ _ Hall Hb Hk').
    split; [intros <-; by apply (reg_inj _ _ _ Hok a b k)|intros <-; by simplify_map_eq].
  - intros i a k Ha Hk. pose proof (Forall2_lookup_lr _ _ _ _ _ _ Hall Ha Hk).
    split; [by apply (reg_live _ _ _ Hok a)|by apply (reg_val _ _ _ Hok)].
Qed.

End EventKey.

(** ** The encoder *)

Record SerializableEvent : Type := mkSerEvent {
  se_event_id : Z; se_arg : bytes; se_period : option Z; se_key : option (bool * nat) }.
Record SerializableQuery : Type := mkSerQuery { sq_query_id : Z; sq_arg : bytes }.
Inductive SerializableQueueItem : Type :=
  | SerEvent (e : SerializableEvent)
  | SerQuery (q : SerializableQuery).

Class Bincode `{Lang} := {
  enc_val : TypeId -> Value -> Result bytes Cause;
  dec_val : TypeId -> bytes -> Result Value Cause;
  enc_item : SerializableQueueItem -> Result bytes Cause;
  dec_item : bytes -> Result SerializableQueueItem Cause }.

Class BincodeLaws `{Bincode} : Prop := {
  dec_enc_val : forall T v b, enc_val T v = Ok b -> dec_val T b = Ok v;
  dec_enc_item : forall i b, enc_item i = Ok b -> dec_item b = Ok i }.

(** ** Sources, events and queries *)
Module Items.
Import EventKey.

Section Defs.
Context `{L : Lang} {T : Type}.
Notation Exec := (Outcome (ExecutionError T)).

Definition MAX_SOURCE_ID : Z := (2 ^ (64 - 1) - 1)%Z.

(** A typed identifier: the type parameter of [EventId<T>]. *)
Record EventId : Type := mkEventId { eid : Z; eid_type : TypeId }.
Record QueryId : Type := mkQueryId { qid : Z; qid_type : TypeId; qid_reply : TypeId }.

(** [InputSource] targets one model input, [EventSource] is a port connected
    to any number of inputs ([Arc<EventSource>] delegates to it). *)
Inductive SchedulerEventSource : Type :=
  | InputSource (sender func : nat) (ty : TypeId)
  | EventSource (port : nat) (ty : TypeId).
Record SchedulerQuerySource : Type := QuerySource {
  qs_port : nat; qs_type : TypeId; qs_reply : TypeId }.

(** [ReplyWriter<R>] and [ReplyReader<R>]: the two ends of a reply channel. *)
Record ReplyWriter : Type := mkWriter { rw_type : TypeId; rw_chan : nat }.
Definition ReplyReader : Type := nat.

Inductive Fut : Type :=
  | FutInput (sender func : nat) (arg : Value) (key : option EventKey)
  | FutEvent (port : nat) (arg : Value)
  | FutQuery (port : nat) (arg : Value) (replier : option ReplyWriter)
  | FutUser (id : nat).

Record SchedulerRegistry : Type := mkRegistry {
  event_registry : list SchedulerEventSource;
  query_registry : list SchedulerQuerySource }.

Definition event_type (s : SchedulerEventSource) : TypeId :=
  match s with InputSource _ _ ty | EventSource _ ty => ty end.

(** *** Registries *)
Definition event_add (reg : list SchedulerEventSource) (source : SchedulerEventSource) :
    option (EventId * list SchedulerEventSource) :=
  if (Z.of_nat (length reg) <=? MAX_SOURCE_ID)%Z
  then Some (mkEventId (Z.of_nat (length reg)) (event_type source), reg ++ [source]) else None.

Definition event_get (reg : list SchedulerEventSource) (id : Z) : option SchedulerEventSource :=
  reg !! Z.to_nat id.

Definition query_add (reg : list SchedulerQuerySource) (source : SchedulerQuerySource) :
    option (QueryId * list SchedulerQuerySource) :=
  if (Z.of_nat (length reg) <=? MAX_SOURCE_ID)%Z
  then Some (mkQueryId (Z.of_nat (length reg)) (qs_type source) (qs_reply source),
             reg ++ [source]) else None.

Definition query_get (reg : list SchedulerQuerySource) (id : Z) : option SchedulerQuerySource :=
  reg !! Z.to_nat id.

Definition add_event_source (r : SchedulerRegistry) (source : SchedulerEventSource) :
    option (EventId * SchedulerRegistry) :=
  '(id, reg) ← event_add (event_registry r) source;
  Some (id, mkRegistry reg (query_registry r)).
Definition get_event_source (r : SchedulerRegistry) (id : Z) := event_get (event_registry r) id.
Definition add_query_source (r : SchedulerRegistry) (source : SchedulerQuerySource) :
    option (QueryId * SchedulerRegistry) :=
  '(id, reg) ← query_add (query_registry r) source;
  Some (id, mkRegistry (event_registry r) reg).
Definition get_query_source (r : SchedulerRegistry) (id : Z) := query_get (query_registry r) id.

(** *** Futures *)
Definition future_owned (s : SchedulerEventSource) (arg : Any) (key : option EventKey) :
    Exec Fut :=
  match s with
  | InputSource sender func ty =>
      v ← ok_or (InvalidEventType (type_name ty)) (downcast ty arg);
      Val (FutInput sender func v key)
  | EventSource port ty =>
      v ← ok_or (InvalidEventType (type_name ty)) (downcast ty arg);
      Val (FutEvent port v)
  end.

(** The borrowed argument and key are cloned. *)
Definition future_borrowed (s : SchedulerEventSource) (arg : Any) (key : option EventKey) :
    Exec Fut :=
  match s with
  | InputSource sender func ty =>
      v ← ok_or (InvalidEventType (type_name ty)) (downcast ty arg);
      Val (FutInput sender func v key)
  | EventSource port ty =>
      v ← ok_or (InvalidEventType (type_name ty)) (downcast ty arg);
      Val (FutEvent port v)
  end.

Definition query_future (s : SchedulerQuerySource) (arg : Any) (replier : option ReplyWriter) :
    Exec Fut :=
  let err := InvalidQueryType (type_name (qs_type s)) (type_name (qs_reply s)) in
  replier ← match replier with
            | None => Val None
            | Some r => if decide (rw_type r = qs_reply s) then Val (Some r) else Fail err
            end;
  v ← ok_or err (downcast (qs_type s) arg);
  Val (FutQuery (qs_port s) v replier).

(** The message sent by an input future, when the recipient processes it: the
    function, its argument and the recipient, unless the event was cancelled
    in the meantime. *)
Definition input_message (fl : Flags) (f : Fut) : option (nat * nat * Value) :=
  match f with
  | FutInput sender func arg (Some key) =>
      if is_cancelled fl key then None else Some (sender, func, arg)
  | FutInput sender func arg None => Some (sender, func, arg)
  | _ => None
  end.

(** *** Events and queries *)
Record Event : Type := mkEvent {
  event_id : Z; event_arg : Any; period : option Z; key : option EventKey }.
Record Query : Type := mkQuery {
  query_id : Z; query_arg : Any; replier : option ReplyWriter }.
Inductive QueueItem : Type :=
  | QEvent (e : Event)
  | QQuery (q : Query).

Definition event_new (id : EventId) (arg : Value) : Event :=
  mkEvent (eid id) (mkAny (eid_type id) arg) None None.
Definition with_period (e : Event) (p : Z) : Event :=
  mkEvent (event_id e) (event_arg e) (Some p) (key e).
Definition with_key (e : Event) (k : EventKey) : Event :=
  mkEvent (event_id e) (event_arg e) (period e) (Some k).
Definition event_is_cancelled (fl : Flags) (e : Event) : bool :=
  default false ((fun k => is_cancelled fl k) <$> key e).

(** [chan] is the fresh reply channel of [query_replier]. *)
Definition query_new (chan : nat) (id : QueryId) (arg : Value) : Query * ReplyReader :=
  (mkQuery (qid id) (mkAny (qid_type id) arg) (Some (mkWriter (qid_reply id) chan)), chan).

(** The future of a queue item, made the way it is at the time it is due
    (one-shot events and queries own their argument). *)
Definition item_future (r : SchedulerRegistry) (it : QueueItem) : Exec Fut :=
  match it with
  | QEvent e =>
      source ← ok_or (InvalidEventId (event_id e)) (get_event_source r (event_id e));
      future_owned source (event_arg e) (key e)
  | QQuery q =>
      source ← ok_or (InvalidQueryId (query_id q)) (get_query_source r (query_id q));
      query_future source (query_arg q) (replier q)
  end.

(** *** Typing: what the static types of the source guarantee *)
Definition event_id_ok (r : SchedulerRegistry) (id : EventId) : Prop :=
  exists s, get_event_source r (eid id) = Some s /\ event_type s = eid_type id.
Definition query_id_ok (r : SchedulerRegistry) (id : QueryId) : Prop :=
  exists s, get_query_source r (qid id) = Some s /\ qs_type s = qid_type id /\
            qs_reply s = qid_reply id.
Definition event_ok (r : SchedulerRegistry) (e : Event) : Prop :=
  exists s, get_event_source r (event_id e) = Some s /\ event_type s = any_type (event_arg e).
Definition query_ok (r : SchedulerRegistry) (q : Query) : Prop :=
  exists s, get_query_source r (query_id q) = Some s /\ qs_type s = any_type (query_arg q) /\
            (forall w, replier q = Some w -> rw_type w = qs_reply s).
Definition item_ok (r : SchedulerRegistry) (it : QueueItem) : Prop :=
  match it with QEvent e => event_ok r e | QQuery q => query_ok r q end.

(** What the future of a well-typed item does. *)
Definition event_fut (s : SchedulerEventSource) (v : Value) (k : option EventKey) : Fut :=
  match s with InputSource m f _ => FutInput m f v k | EventSource p _ => FutEvent p v end.
End Defs.

Section Serialization.
Context `{L : Lang} {B : Bincode} {T : Type}.
Notation Exec := (Outcome (ExecutionError T)).

Definition map_err {A E E'} (f : E -> E') (r : Result A E) : Outcome E' A :=
  match r with Ok a => Val a | Err e => Fail (f e) end.

Definition serialize_arg (ty : TypeId) (arg : Any) : Exec bytes :=
  v ← ok_or (ExecSaveError (ArgumentTypeMismatch (type_name ty))) (downcast ty arg);
  map_err (fun e => ExecSaveError (ArgumentSerializationError (type_name ty) e)) (enc_val ty v).

Definition deserialize_arg (ty : TypeId) (arg : bytes) : Exec Any :=
  v ← map_err (fun e => ExecRestoreError (ArgumentDeserializationError (type_name ty) e))
        (dec_val ty arg);
  Val (mkAny ty v).

(** The flags are read when the item is encoded. *)
Definition event_to_serializable (fl : Flags) (r : list SchedulerEventSource) (e : Event) :
    Exec SerializableEvent :=
  source ← ok_or (ExecSaveError (SaveEventNotFound (event_id e))) (event_get r (event_id e));
  arg ← serialize_arg (event_type source) (event_arg e);
  Val (mkSerEvent (event_id e) arg (period e) (serialize fl <$> key e)).

Definition query_to_serializable (r : list SchedulerQuerySource) (q : Query) :
    Exec SerializableQuery :=
  source ← ok_or (ExecSaveError (SaveQueryNotFound (query_id q))) (query_get r (query_id q));
  arg ← serialize_arg (qs_type source) (query_arg q);
  Val (mkSerQuery (query_id q) arg).

Definition item_serialize (fl : Flags) (r : SchedulerRegistry) (it : QueueItem) : Exec bytes :=
  serializable ←
    match it with
    | QEvent e => s ← event_to_serializable fl (event_registry r) e; Val (SerEvent s)
    | QQuery q => s ← query_to_serializable (query_registry r) q; Val (SerQuery s)
    end;
  map_err (fun e => ExecSaveError
             match it with
             | QEvent ev => EventSerializationError (event_id ev) e
             | QQuery q => QuerySerializationError (query_id q) e
             end) (enc_item serializable).

(** Decoding an item restores its key through the key registry first. *)
Definition item_deserialize (kr : EventKeyReg) (fl : Flags) (r : SchedulerRegistry)
    (data : bytes) : Exec (QueueItem * EventKeyReg * Flags) :=
  item ← map_err (fun e => ExecRestoreError (QueueItemDeserializationError e)) (dec_item data);
  match item with
  | SerEvent e =>
      let '(k, kr', fl') :=
        match se_key e with
        | None => (None, kr, fl)
        | Some w => let '(k, kr', fl') := deserialize kr fl w in (Some k, kr', fl')
        end in
      source ← ok_or (ExecRestoreError (RestoreEventNotFound (se_event_id e)))
                 (event_get (event_registry r) (se_event_id e));
      arg ← deserialize_arg (event_type source) (se_arg e);
      Val (QEvent (mkEvent (se_event_id e) arg (se_period e) k), kr', fl')
  | SerQuery q =>
      source ← ok_or (ExecRestoreError (RestoreQueryNotFound (sq_query_id q)))
                 (query_get (query_registry r) (sq_query_id q));
      arg ← deserialize_arg (qs_type source) (sq_arg q);
      Val (QQuery (mkQuery (sq_query_id q) arg None), kr, fl)
  end.

(** An item as it comes back: the key is renamed, a query loses its replier. *)
Definition restored_as (kr : EventKeyReg) (it it' : QueueItem) : Prop :=
  match it, it' with
  | QEvent e, QEvent e' =>
      event_id e' = event_id e /\ event_arg e' = event_arg e /\ period e' = period e /\
      match key e, key e', kr with
      | None, None, _ => True
      | Some k, Some k', Some reg => reg !! k = Some k'
      | _, _, _ => False
      end
  | QQuery q, QQuery q' =>
      query_id q' = query_id q /\ query_arg q' = query_arg q /\ replier q' = None
  | _, _ => False
  end.
End Serialization.

Section Facts.
Context `{L : Lang} {T : Type}.
Implicit Types (r : SchedulerRegistry) (e : Event) (q : Query).

Definition reg_extends r r' : Prop :=
  (exists l, event_registry r' = event_registry r ++ l) /\
  (exists l, query_registry r' = query_registry r ++ l).

Lemma get_event_extends r r' id s :
  reg_extends r r' -> get_event_source r id = Some s -> get_event_source r' id = Some s.
Proof.
  intros [[l Hl] _]. unfold get_event_source, event_get. rewrite Hl. apply lookup_app_l_Some.
Qed.

Lemma get_query_extends r r' id s :
  reg_extends r r' -> get_query_source r id = Some s -> get_query_source r' id = Some s.
Proof.
  intros [_ [l Hl]]. unfold get_query_source, query_get. rewrite Hl. apply lookup_app_l_Some.
Qed.

Lemma add_event_source_ok r s id r' :
  add_event_source r s = Some (id, r') ->
  reg_extends r r' /\ get_event_source r' (eid id) = Some s /\ event_type s = eid_type id.
Proof.
  unfold add_event_source, event_add. case_match; [|done]. cbn. intros; simplify_eq. cbn.
  split_and!; [|by unfold get_event_source, event_get; cbn; rewrite Nat2Z.id, list_lookup_middle|done].
  split; cbn; [by eexists|exists []; by rewrite app_nil_r].
Qed.

Lemma add_query_source_ok r s id r' :
  add_query_source r s = Some (id, r') ->
  reg_extends r r' /\ get_query_source r' (qid id) = Some s /\
  qs_type s = qid_type id /\ qs_reply s = qid_reply id.
Proof.
  unfold add_query_source, query_add. case_match; [|done]. cbn. intros; simplify_eq. cbn.
  split_and!; [|by unfold get_query_source, query_get; cbn; rewrite Nat2Z.id, list_lookup_middle|done|done].
  split; cbn; [exists []; by rewrite app_nil_r|by eexists].
Qed.

Lemma future_owned_ok (s : SchedulerEventSource) (a : Any) (k : option EventKey) :
  event_type s = any_type a -> future_owned (T := T) s a k = Val (event_fut s (any_val a) k).
Proof.
  destruct a as [ty v]; cbn. intros <-. unfold future_owned.
  destruct s; cbn; by rewrite (proj2 (downcast_Some _ _ v)).
Qed.

Lemma future_borrowed_owned (s : SchedulerEventSource) a k :
  future_borrowed (T := T) s a k = future_owned s a k.
Proof. done. Qed.

Lemma query_future_ok (s : SchedulerQuerySource) (a : Any) (w : option ReplyWriter) :
  qs_type s = any_type a -> (forall x, w = Some x -> rw_type x = qs_reply s) ->
  query_future (T := T) s a w = Val (FutQuery (qs_port s) (any_val a) w).
Proof.
  destruct a as [ty v]; cbn. intros <- Hw. unfold query_future. destruct w as [x|]; cbn.
  - rewrite decide_True by auto. cbn. by rewrite (proj2 (downcast_Some _ _ v)).
  - by rewrite (proj2 (downcast_Some _ _ v)).
Qed.

Lemma item_future_ok r it : item_ok r it -> exists f, item_future (T := T) r it = Val f.
Proof.
  destruct it as [e|q]; cbn.
  - intros (s & Hs & Ht). rewrite Hs; cbn. rewrite future_owned_ok by done. eauto.
  - intros (s & Hs & Ht & Hw). rewrite Hs; cbn. rewrite query_future_ok by done. eauto.
Qed.

Lemma event_new_ok r id v : event_id_ok r id -> event_ok r (event_new id v).
Proof. done. Qed.

Lemma query_new_ok r c id v : query_id_ok r id -> query_ok r (query_new c id v).1.
Proof.
  intros (s & ? & ? & Hr). exists s. split_and!; [done..|]. cbn. intros; simplify_eq; done.
Qed.

Lemma item_ok_extends r r' it : reg_extends r r' -> item_ok r it -> item_ok r' it.
Proof.
  intros Hr. destruct it; cbn; intros (s & Hs & Hrest); exists s; split;
    eauto using get_event_extends, get_query_extends.
Qed.
End Facts.

Section RoundTrip.
Context `{L : Lang} {B : Bincode} {BL : BincodeLaws} {T : Type}.

Lemma arg_roundtrip ty (a : Any) b :
  serialize_arg (T := T) ty a = Val b -> deserialize_arg (T := T) ty b = Val a.
Proof.
  unfold serialize_arg, deserialize_arg. destruct (downcast ty a) as [v|] eqn:Ha; cbn; [|done].
  apply downcast_Some in Ha as ->. destruct (enc_val ty v) as [b'|] eqn:Hb; cbn; [|done].
  intros; simplify_eq. by rewrite (dec_enc_val _ _ _ Hb).
Qed.

Lemma event_roundtrip old reg fl r e b :
  reg_ok old reg fl -> item_serialize (T := T) old r (QEvent e) = Val b ->
  exists it' reg' fl', item_deserialize (T := T) (Some reg) fl r b = Val (it', Some reg', fl') /\
    restored_as (Some reg') (QEvent e) it' /\ reg_ok old reg' fl' /\ reg ⊆ reg'.
Proof.
  intros Hok. unfold item_serialize, event_to_serializable.
  destruct (event_get _ _) as [s|] eqn:Hs; cbn; [|done].
  destruct (serialize_arg (event_type s) (event_arg e)) as [ab| |] eqn:Ha; cbn; [|done..].
  destruct (enc_item _) as [b'|] eqn:Hb; cbn; [|done]. intros; simplify_eq.
  unfold item_deserialize. rewrite (dec_enc_item _ _ Hb). cbn.
  destruct (key e) as [k|] eqn:Hk; cbn [fmap option_fmap option_map].
  - destruct (deserialize_ok old reg fl k Hok) as (k' & reg' & fl' & -> & Hok' & Hk' & Hsub).
    rewrite Hs; cbn. rewrite (arg_roundtrip _ _ _ Ha). cbn.
    eexists _, _, _. split; [done|]. by split.
  - rewrite Hs; cbn. rewrite (arg_roundtrip _ _ _ Ha). cbn.
    eexists _, _, _. split; [done|]. by split.
Qed.

Lemma query_roundtrip old reg fl r q b :
  item_serialize (T := T) old r (QQuery q) = Val b ->
  item_deserialize (T := T) reg fl r b = Val (QQuery (mkQuery (query_id q) (query_arg q) None), reg, fl).
Proof.
  unfold item_serialize, query_to_serializable.
  destruct (query_get _ _) as [s|] eqn:Hs; cbn; [|done].
  destruct (serialize_arg (qs_type s) (query_arg q)) as [ab| |] eqn:Ha; cbn; [|done..].
  destruct (enc_item _) as [b'|] eqn:Hb; cbn; [|done]. intros; simplify_eq.
  unfold item_deserialize. rewrite (dec_enc_item _ _ Hb). cbn. rewrite Hs; cbn.
  by rewrite (arg_roundtrip _ _ _ Ha).
Qed.

Lemma item_roundtrip old reg fl r it b :
  reg_ok old reg fl -> item_serialize (T := T) old r it = Val b ->
  exists it' reg' fl', item_deserialize (T := T) (Some reg) fl r b = Val (it', Some reg', fl') /\
    restored_as (Some reg') it it' /\ reg_ok old reg' fl' /\ reg ⊆ reg'.
Proof.
  intros Hok Hb. destruct it as [e|q]; [by apply event_roundtrip|].
  rewrite (query_roundtrip _ _ _ _ _ _ Hb). by eexists _, _, _.
Qed.
End RoundTrip.
End Items.
