(* ===== verification/KeyRegistry.v ===== *)
(** * The key registry of the server: [server/key_registry.rs]

    A remote client refers to a scheduled event by the identifier of its
    [EventKey] in a [KeyRegistry]: an indexed priority queue ordered by
    expiration date, from which expired keys are removed.  Its specification is
    a finite map from identifiers to keys with their expiration date; the order
    of the queue and the slots of its slab are not observable. *)

From S2P Require Import Prelude StableSort IndexedPriorityQueue IpqRefinement Time QueueItems.

Module KeyRegistry.
Import Ipq IpqRefinement.

Notation KeyRegistryId := InsertKey (only parsing).

#[export] Instance insert_key_eq_dec : EqDecision InsertKey.
Proof. solve_decision. Defined.

Section Registry.
Context {T : Type} `{MonoTime T}.

Record KeyRegistry : Type := mkRegistry { keys : Queue T nat }.

Definition default_registry : KeyRegistry := mkRegistry Ipq.new.

Definition insert_key (event_key : nat) (expiration : T) (r : KeyRegistry) :
    option (KeyRegistryId * KeyRegistry) :=
  '(id, q) ← Ipq.insert expiration event_key (keys r); Some (id, mkRegistry q).

Definition insert_eternal_key (event_key : nat) (r : KeyRegistry) :
    option (KeyRegistryId * KeyRegistry) :=
  '(id, q) ← Ipq.insert mt_max event_key (keys r); Some (id, mkRegistry q).

Definition extract_key (key_id : KeyRegistryId) (r : KeyRegistry) :
    option (option nat * KeyRegistry) :=
  '(o, q) ← Ipq.extract key_id (keys r); Some (option_map snd o, mkRegistry q).

(** The [while let] loop; every iteration removes an item. *)
Fixpoint remove_expired_loop (fuel : nat) (now : T) (q : Queue T nat) : option (Queue T nat) :=
  match fuel with
  | O => None
  | S fuel =>
      match peek_key q with
      | None => Some q
      | Some expiration =>
          if kleb now expiration then Some q else
          '(_, q) ← pull q; remove_expired_loop fuel now q
      end
  end.

Definition remove_expired_keys (now : T) (r : KeyRegistry) : option KeyRegistry :=
  q ← remove_expired_loop (S (len (keys r))) now (keys r); Some (mkRegistry q).

(** ** Sequences of operations *)

(** A client that remembers the identifiers it was given. *)
Inductive op : Type :=
  | OpInsertKey (k : nat) (expiration : T)
  | OpInsertEternalKey (k : nat)
  | OpExtractKey (i : nat)       (** the [i]-th identifier handed out *)
  | OpRemoveExpired (now : T).

(** The results of the calls to [extract_key]; [None] is a panic. *)
Fixpoint run (ops : list op) (r : KeyRegistry) (ids : list KeyRegistryId) :
    option (list (option nat)) :=
  match ops with
  | [] => Some []
  | OpInsertKey k e :: ops => '(id, r) ← insert_key k e r; run ops r (ids ++ [id])
  | OpInsertEternalKey k :: ops => '(id, r) ← insert_eternal_key k r; run ops r (ids ++ [id])
  | OpExtractKey i :: ops =>
      '(o, r) ← match ids !! i with Some id => extract_key id r | None => Some (None, r) end;
      outs ← run ops r ids; Some (o :: outs)
  | OpRemoveExpired now :: ops => r ← remove_expired_keys now r; run ops r ids
  end.

(** The specification: a map of the keys by order of registration. *)
Fixpoint spec (ops : list op) (m : gmap nat (T * nat)) (n : nat) : list (option nat) :=
  match ops with
  | [] => []
  | OpInsertKey k e :: ops => spec ops (<[n := (e, k)]> m) (S n)
  | OpInsertEternalKey k :: ops => spec ops (<[n := (mt_max, k)]> m) (S n)
  | OpExtractKey i :: ops => (snd <$> m !! i) :: spec ops (delete i m) n
  | OpRemoveExpired now :: ops => spec ops (filter (fun p => kleb now p.2.1 = true) m) n
  end.

Definition is_insert (o : op) : bool :=
  match o with OpInsertKey _ _ | OpInsertEternalKey _ => true | _ => false end.
Definition inserts (ops : list op) : nat := length (filter (fun o => is_insert o = true) ops).

(** ** Refinement *)

(** The map holds the entries of the queue. *)
Definition represents (m : gmap nat (T * nat)) (l : list ((T * Z) * nat)) : Prop :=
  forall i e k, m !! i = Some (e, k) <-> ((e, Z.of_nat i), k) ∈ l.

Definition reg_rel (r : KeyRegistry) (ids : list KeyRegistryId) (m : gmap nat (T * nat)) (n : nat) : Prop :=
  exists l, rel (keys r, ids) (l, n) /\ represents m l.

Lemma rel_nodup q ids (l : list ((T * Z) * nat)) n : rel (q, ids) (l, n) -> NoDup (sepoch fst <$> l).
Proof.
  intros [Hwf Habs _ _ _]. cbn in *. rewrite <- Habs. unfold abs. rewrite ssort_Permutation.
  by apply abs_nodup.
Qed.

Lemma rel_below q ids (l : list ((T * Z) * nat)) n e : rel (q, ids) (l, n) -> e ∈ l -> (e.1.2 < Z.of_nat n)%Z.
Proof.
  intros [Hwf Habs Hep _ _] Hin. cbn in *. rewrite <- Habs in Hin.
  apply abs_elem_heap in Hin as (it & Hin & <- & _). apply (wf_epochs q Hwf) in Hin. cbn. lia.
Qed.

Lemma insert_rel r ids m n k e :
  reg_rel r ids m n -> (Z.of_nat n < u64_max)%Z ->
  exists id r', insert_key k e r = Some (id, r') /\ reg_rel r' (ids ++ [id]) (<[n := (e, k)]> m) (S n).
Proof.
  intros (l & Hr & Hm) Hb. destruct (step_insert e k _ _ Hr Hb) as ([q' ids'] & Hi & Hr').
  cbn in Hi. unfold insert_key. destruct (insert e k (keys r)) as [[id q]|]; cbn in Hi; [|done].
  simplify_eq. cbn. eexists _, _. split; [done|]. eexists. split; [exact Hr'|].
  intros i e' k'. cbn. rewrite sinsert_Permutation, elem_of_cons, <- (Hm i e' k').
  destruct (decide (i = n)) as [->|Hne].
  - rewrite lookup_insert_eq. split; [intros; simplify_eq; by left|]. intros [?|Hin]; [by simplify_eq|].
    apply Hm, (rel_below _ _ _ _ _ Hr) in Hin. cbn in Hin. lia.
  - rewrite lookup_insert_ne by done. split; [by right|]. intros [?|?]; [by simplify_eq|done].
Qed.

Lemma extract_rel r ids m n i :
  reg_rel r ids m n ->
  exists r', match ids !! i with Some id => extract_key id r | None => Some (None, r) end =
               Some (snd <$> m !! i, r') /\ reg_rel r' ids (delete i m) n.
Proof.
  intros (l & Hr & Hm). destruct (step_extract i _ _ Hr) as ([q' ids'] & Hi & Hr'). cbn in Hi.
  assert (entry_kv <$> head (filter (fun e : (T * Z) * nat => e.1.2 = Z.of_nat i) l) = m !! i) as Hh.
  { destruct (m !! i) as [[e k]|] eqn:E.
    - apply Hm in E. by rewrite (extract_head l i _ (rel_nodup _ _ _ _ Hr) E).
    - destruct (filter _ l) as [|[[e j] k] fl] eqn:Ef; [done|]. exfalso.
      assert (((e, j), k) ∈ filter (fun e : (T * Z) * nat => e.1.2 = Z.of_nat i) l) as Hin
        by (rewrite Ef; by left).
      apply list_elem_of_filter in Hin as [Hj Hin]. cbn in Hj. subst j. apply Hm in Hin. congruence. }
  assert (represents (delete i m) (filter (fun e : (T * Z) * nat => e.1.2 <> Z.of_nat i) l)) as Hd.
  { intros j e k. rewrite list_elem_of_filter, <- (Hm _ _ _), lookup_delete_Some. cbn. split; intros [? ?]; split; auto; lia. }
  rewrite Hh in Hi. unfold extract_key. destruct (ids !! i) as [id|]; cbn in Hi.
  - destruct (extract id (keys r)) as [[o q]|]; cbn in Hi; [|done]. injection Hi as -> -> ->. cbn.
    eexists. split; [by destruct (m !! i)|]. eexists. exact (conj Hr' Hd).
  - injection Hi as <- <- <-. exists r. split; [done|]. eexists. exact (conj Hr' Hd).
Qed.

(** An identifier that was never handed out designates nothing; in any case only the key of the
    identifier is extracted. *)
Lemma extract_unknown r ids m n id :
  reg_rel r ids m n -> id ∉ ids -> extract_key id r = Some (None, r).
Proof.
  intros (l & Hr & _) Hid. pose proof Hr as [Hwf Habs Hep Hlen Hk]. cbn in *.
  unfold extract_key. destruct (extract_ok (keys r) id Hwf) as [(it & v & q' & Hin & [Hsl He] & _)|[_ ->]]; [|by destruct r].
  exfalso. apply Hid. pose proof (wf_epochs _ Hwf it Hin) as Hb. rewrite Hep in Hb.
  destruct (lookup_lt_is_Some_2 ids (Z.to_nat (epoch (key it)))) as [ik Hik]; [lia|].
  destruct (Hk _ _ Hik) as [Hike Hs]. specialize (Hs it Hin ltac:(lia)).
  apply list_elem_of_lookup. exists (Z.to_nat (epoch (key it))). rewrite Hik. f_equal.
  destruct ik as [a b], id as [c d]. cbn in *. f_equal; [congruence|lia].
Qed.

Lemma extract_any r ids m n id :
  reg_rel r ids m n ->
  exists o r' m', extract_key id r = Some (o, r') /\ reg_rel r' ids m' n /\
    forall i, ids !! i <> Some id -> m' !! i = m !! i.
Proof.
  intros Hr. destruct (decide (id ∈ ids)) as [[j Hj]%list_elem_of_lookup|Hn].
  - destruct (extract_rel _ _ _ _ j Hr) as (r' & He & Hr'). rewrite Hj in He. eexists _, r', _. split; [exact He|]. split; [exact Hr'|].
    intros i Hi. apply lookup_delete_ne. congruence.
  - eexists None, r, m. split; [by eapply extract_unknown|done].
Qed.

Lemma reg_rel_len r ids m n : reg_rel r ids m n -> length ids = n.
Proof. intros (l & [_ _ _ Hl _] & _). exact Hl. Qed.

Lemma reg_rel_fresh r ids m n : reg_rel r ids m n -> m !! n = None.
Proof.
  intros (l & Hr & Hm). destruct (m !! n) as [[e k]|] eqn:E; [|done]. apply Hm, (rel_below _ _ _ _ _ Hr) in E. cbn in E. lia.
Qed.

(** The entries of a sorted list that have not expired. *)
Definition live_entries (now : T) (l : list ((T * Z) * nat)) : list ((T * Z) * nat) :=
  filter (fun e => kleb now e.1.1 = true) l.

Lemma rel_sorted q ids (l : list ((T * Z) * nat)) n : rel (q, ids) (l, n) -> StronglySorted (sle fst) l.
Proof. intros [_ Habs _ _ _]. cbn in *. rewrite <- Habs. apply ssort_sorted. Qed.

Lemma rel_len_entries q ids (l : list ((T * Z) * nat)) n : rel (q, ids) (l, n) -> length l = len q.
Proof.
  intros [Hwf Habs _ _ _]. cbn in *. rewrite <- Habs. unfold abs, len.
  rewrite ssort_Permutation. pose proof (abs_epochs q Hwf) as He.
  apply (f_equal length) in He. by rewrite !length_fmap in He.
Qed.

(** When the first entry has not expired, none has. *)
Lemma live_entries_all now e l :
  StronglySorted (sle fst) (e :: l) -> kleb now e.1.1 = true -> live_entries now (e :: l) = e :: l.
Proof.
  intros Hs He. apply StronglySorted_inv in Hs as [_ Hall]. unfold live_entries.
  apply filter_Forall, Forall_cons; split; [done|]. eapply Forall_impl; [exact Hall|].
  intros e' Hle. cbn. apply kleb_trans with e.1.1; [done|].
  unfold sle in Hle. apply pair_leb_spec in Hle as [Hlt|[Heq _]]; [by apply kltb_le|].
  rewrite Heq. apply kleb_refl.
Qed.

Lemma remove_expired_rel fuel now q ids l n :
  rel (q, ids) (l, n) -> length l < fuel ->
  exists q', remove_expired_loop fuel now q = Some q' /\ rel (q', ids) (live_entries now l, n).
Proof.
  revert q l. induction fuel as [|fuel IH]; intros q l Hr Hf; [lia|]. cbn.
  destruct (step_peeks _ _ Hr) as [_ ([q1 ids1] & Hp & _)]. cbn in Hp. injection Hp as Hp _ _.
  destruct (step_pull _ _ Hr) as ([q2 ids2] & Hpull & Hr2). cbn in Hpull, Hr2.
  destruct l as [|e l]; cbn in Hp; rewrite Hp; [by eexists|].
  destruct (kleb now e.1.1) eqn:Ee.
  - eexists. split; [done|]. by rewrite (live_entries_all _ _ _ (rel_sorted _ _ _ _ Hr) Ee).
  - destruct (pull q) as [[o q']|]; cbn in Hpull; [|done]. simplify_eq. cbn.
    destruct (IH _ _ Hr2) as (q3 & Hq3 & Hr3); [cbn in Hf |- *; lia|]. exists q3. split; [done|].
    case_decide; [congruence|exact Hr3].
Qed.

Lemma purge_rel r ids m n now :
  reg_rel r ids m n ->
  exists r', remove_expired_keys now r = Some r' /\
    reg_rel r' ids (filter (fun p => kleb now p.2.1 = true) m) n.
Proof.
  intros (l & Hr & Hm). destruct (remove_expired_rel (S (len (keys r))) now _ _ _ _ Hr) as (q & Hq & Hr').
  { rewrite (rel_len_entries _ _ _ _ Hr). lia. }
  unfold remove_expired_keys. rewrite Hq. cbn. eexists. split; [done|]. eexists. split; [exact Hr'|].
  intros i e k. unfold live_entries. rewrite list_elem_of_filter, <- (Hm _ _ _), map_lookup_filter_Some. cbn. tauto.
Qed.

Lemma registry_inserts_cons o ops : inserts (o :: ops) = (if is_insert o then 1 else 0) + inserts ops.
Proof. unfold inserts. rewrite filter_cons. destruct o; done. Qed.

Lemma run_rel_map ops r ids m n :
  reg_rel r ids m n -> (Z.of_nat n + Z.of_nat (inserts ops) <= u64_max)%Z ->
  run ops r ids = Some (spec ops m n).
Proof.
  revert r ids m n. induction ops as [|o ops IH]; intros r ids m n Hr Hb; [done|].
  rewrite registry_inserts_cons in Hb. destruct o as [k e|k|i|now]; cbn -[remove_expired_keys] in Hb |- *.
  - destruct (insert_rel _ _ _ _ k e Hr) as (id & r' & -> & Hr'); [lia|]. cbn. apply IH; [done|lia].
  - destruct (insert_rel _ _ _ _ k mt_max Hr) as (id & r' & Hi & Hr'); [lia|].
    unfold insert_eternal_key. unfold insert_key in Hi. rewrite Hi. cbn. apply IH; [done|lia].
  - destruct (extract_rel _ _ _ _ i Hr) as (r' & -> & Hr'). cbn. by rewrite (IH _ _ _ _ Hr' Hb).
  - destruct (purge_rel _ _ _ _ now Hr) as (r' & -> & Hr'). cbn. by apply IH.
Qed.

(** C37: the registry implements a finite map with expiration dates: for every
    sequence of calls (with at most [u64::MAX] insertions) there is no panic,
    [remove_expired_keys] terminates, and [extract_key] with any identifier
    handed out so far returns the key registered under it exactly when it has
    neither been extracted nor removed by a call to [remove_expired_keys] with a
    date past its expiration, an eternal key expiring at [MonotonicTime::MAX]. *)
Theorem key_registry_refines (ops : list op) :
  (Z.of_nat (inserts ops) <= u64_max)%Z ->
  run ops default_registry [] = Some (spec ops ∅ 0).
Proof.
  intros Hb. apply run_rel_map; [|lia]. exists []. split; [apply rel_new|].
  intros i e k. rewrite lookup_empty, elem_of_nil. naive_solver.
Qed.
End Registry.

(** Two keys that expire at 10 and 20 ns and an eternal one. *)
Definition demo_ops : list (op (T := Nano.time)) :=
  [OpInsertKey 5 (Nano.at_ns 20); OpInsertKey 6 (Nano.at_ns 10); OpInsertEternalKey 7;
   OpRemoveExpired (Nano.at_ns 10); OpExtractKey 1; OpExtractKey 1; OpRemoveExpired (Nano.at_ns 21);
   OpInsertKey 8 (Nano.at_ns 30); OpExtractKey 0; OpExtractKey 2; OpExtractKey 3].

Lemma key_registry_refines_witness :
  run demo_ops default_registry [] = Some [Some 6; None; None; Some 7; Some 8].
Proof.
  rewrite (key_registry_refines demo_ops); [vm_compute; reflexivity|]. vm_compute. discriminate.
Defined.
End KeyRegistry.
