(* ===== verification/Endpoints.v ===== *)
(** * Endpoint registries: [endpoints.rs], [endpoints/*.rs] and the binding
      methods of [simulation/sim_init.rs]

    The registries that associate event sources, query sources and event sinks
    with paths.  A registry of sources holds typed identifiers of the scheduler
    registry ([QueueItems]); [None] is the panic of the latter when it is full.
    The entry of a sink is absent while it is rented.  The schema of a type is a
    parameter ([Message::schema]). *)

From S2P Require Import Prelude Path Errors Time QueueItems.
From stdpp Require Import strings.

Module Endpoints.
Import Items Path.

Inductive EndpointError : Type :=
  | EventSourceNotFound (path : Path)
  | QuerySourceNotFound (path : Path)
  | EventSinkNotFound (path : Path)
  | InvalidEventSourceType (path : Path) (found_event_type expected_event_type : string)
  | InvalidQuerySourceType (path : Path) (found_request_type found_reply_type expected_request_type expected_reply_type : string)
  | InvalidEventSinkType (path : Path) (found_event_type expected_event_type : string).

Section Defs.
Context `{L : Lang}.
(** [Message::schema] *)
Context (schema : TypeId -> string).

(** [get(path).ok_or_else(...)] *)
Definition get_or {A} (e : EndpointError) (o : option A) : Result A EndpointError :=
  match o with Some a => Ok a | None => Err e end.

(** ** Event sources *)
Record EventSourceEntry : Type := mkEventEntry { ev_inner : EventId; ev_schema : string }.
Local Notation EventSourceRegistry := (gmap Path EventSourceEntry).

(** The error holds the path and the source. *)
Definition add_event_any (self : EventSourceRegistry) (source : SchedulerEventSource) (path : Path) (schema : string)
    (registry : SchedulerRegistry)
    : option (Result unit (Path * SchedulerEventSource) * EventSourceRegistry * SchedulerRegistry) :=
  match self !! path with
  | None => '(event_id, registry) ← add_event_source registry source;
            Some (Ok tt, <[path := mkEventEntry event_id schema]> self, registry)
  | Some _ => Some (Err (path, source), self, registry)
  end.
Definition add_event self source path registry := add_event_any self source path (schema (event_type source)) registry.
Definition add_event_raw self source path registry := add_event_any self source path EmptyString registry.

Definition get_event (self : EventSourceRegistry) (path : Path) : Result EventSourceEntry EndpointError :=
  get_or (EventSourceNotFound path) (self !! path).

Definition get_event_source_id (T : TypeId) (self : EventSourceRegistry) (path : Path) : Result EventId EndpointError :=
  match get_event self path with
  | Ok entry =>
      if decide (eid_type (ev_inner entry) = T) then Ok (mkEventId (eid (ev_inner entry)) T)
      else Err (InvalidEventSourceType path (type_name T) (type_name (eid_type (ev_inner entry))))
  | Err e => Err e
  end.

Definition list_event_sources (self : EventSourceRegistry) : gset Path := dom self.
Definition get_event_source_schema (self : EventSourceRegistry) (path : Path) : Result string EndpointError :=
  match get_event self path with Ok entry => Ok (ev_schema entry) | Err e => Err e end.

(** ** Query sources *)
Record QuerySourceEntry : Type := mkQueryEntry { qu_inner : QueryId; qu_schema : string * string }.
Local Notation QuerySourceRegistry := (gmap Path QuerySourceEntry).

Definition add_query_any (self : QuerySourceRegistry) (source : SchedulerQuerySource) (path : Path) (schema : string * string)
    (registry : SchedulerRegistry)
    : option (Result unit (Path * SchedulerQuerySource) * QuerySourceRegistry * SchedulerRegistry) :=
  match self !! path with
  | None => '(query_id, registry) ← add_query_source registry source;
            Some (Ok tt, <[path := mkQueryEntry query_id schema]> self, registry)
  | Some _ => Some (Err (path, source), self, registry)
  end.
Definition add_query self source path registry :=
  add_query_any self source path (schema (qs_type source), schema (qs_reply source)) registry.
Definition add_query_raw self source path registry := add_query_any self source path (EmptyString, EmptyString) registry.

Definition get_query (self : QuerySourceRegistry) (path : Path) : Result QuerySourceEntry EndpointError :=
  get_or (QuerySourceNotFound path) (self !! path).

Definition get_query_source_id (T R : TypeId) (self : QuerySourceRegistry) (path : Path) : Result QueryId EndpointError :=
  match get_query self path with
  | Ok entry =>
      let id := qu_inner entry in
      if decide (qid_type id = T /\ qid_reply id = R) then Ok (mkQueryId (qid id) T R)
      else Err (InvalidQuerySourceType path (type_name T) (type_name R) (type_name (qid_type id)) (type_name (qid_reply id)))
  | Err e => Err e
  end.

Definition list_query_sources (self : QuerySourceRegistry) : gset Path := dom self.
Definition get_query_source_schema (self : QuerySourceRegistry) (path : Path) : Result (string * string) EndpointError :=
  match get_query self path with Ok entry => Ok (qu_schema entry) | Err e => Err e end.

(** ** Event sinks *)
Record SinkEntry : Type := mkSink { sink : nat; sink_type : TypeId }.
Local Notation EventSinkRegistry := (gmap Path (option SinkEntry)).

Definition add_sink (self : EventSinkRegistry) (s : SinkEntry) (path : Path) : Result unit (Path * SinkEntry) * EventSinkRegistry :=
  match self !! path with
  | None => (Ok tt, <[path := Some s]> self)
  | Some _ => (Err (path, s), self)
  end.

Definition take_sink (T : TypeId) (self : EventSinkRegistry) (path : Path) : Result nat EndpointError * EventSinkRegistry :=
  match self !! path with
  | Some (Some inner) =>
      if decide (sink_type inner = T) then (Ok (sink inner), delete path self)
      else (Err (InvalidEventSinkType path (type_name T) (type_name (sink_type inner))), self)
  | Some None | None => (Err (EventSinkNotFound path), self)
  end.

Definition has_sink (self : EventSinkRegistry) (path : Path) : bool :=
  match self !! path with Some _ => true | None => false end.

Definition get_entry_mut (self : EventSinkRegistry) (path : Path) : Result SinkEntry EndpointError :=
  get_or (EventSinkNotFound path) (self !! path ≫= id).

Definition rent_entry (self : EventSinkRegistry) (path : Path) : Result SinkEntry EndpointError * EventSinkRegistry :=
  match self !! path with
  | Some (Some entry) => (Ok entry, <[path := None]> self)
  | Some None | None => (Err (EventSinkNotFound path), self)
  end.

Definition replace_entry (self : EventSinkRegistry) (path : Path) (entry : SinkEntry)
    : Result unit EndpointError * EventSinkRegistry :=
  match self !! path with
  | Some _ => (Ok tt, <[path := Some entry]> self)
  | None => (Err (EventSinkNotFound path), self)
  end.

(** ** Schemas of event sinks *)
Local Notation EventSinkInfoRegistry := (gmap Path string).

Definition register_any (self : EventSinkInfoRegistry) (path : Path) (schema : string) : Result unit Path * EventSinkInfoRegistry :=
  match self !! path with
  | None => (Ok tt, <[path := schema]> self)
  | Some _ => (Err path, self)
  end.
Definition register (T : TypeId) self path := register_any self path (schema T).
Definition register_raw self path := register_any self path EmptyString.

Definition list_event_sinks (self : EventSinkInfoRegistry) : gset Path := dom self.
Definition get_event_sink_schema (self : EventSinkInfoRegistry) (path : Path) : Result string EndpointError :=
  get_or (EventSinkNotFound path) (self !! path).

(** ** The directory of a bench under construction, with its scheduler registry *)
Record Bench : Type := mkBench {
  event_sink_registry : EventSinkRegistry;
  event_sink_info_registry : EventSinkInfoRegistry;
  event_source_registry : EventSourceRegistry;
  query_source_registry : QuerySourceRegistry;
  scheduler_registry : SchedulerRegistry }.

Inductive BenchError : Type :=
  | DuplicateEventSource (path : Path)
  | DuplicateQuerySource (path : Path)
  | DuplicateEventSink (path : Path).

Definition empty_bench : Bench := mkBench ∅ ∅ ∅ ∅ (mkRegistry [] []).

Definition set_sinks sinks infos (b : Bench) : Bench :=
  mkBench sinks infos (event_source_registry b) (query_source_registry b) (scheduler_registry b).

(** [bind_event_sink] and [bind_event_sink_raw]: first the schema, then the sink. *)
Definition bind_sink_any (schema : string) (s : SinkEntry) (path : Path) (b : Bench) : Result unit BenchError * Bench :=
  match register_any (event_sink_info_registry b) path schema with
  | (Err path, infos) => (Err (DuplicateEventSink path), set_sinks (event_sink_registry b) infos b)
  | (Ok _, infos) =>
      match add_sink (event_sink_registry b) s path with
      | (Err (path, _), sinks) => (Err (DuplicateEventSink path), set_sinks sinks infos b)
      | (Ok _, sinks) => (Ok tt, set_sinks sinks infos b)
      end
  end.
Definition bind_event_sink s path b := bind_sink_any (schema (sink_type s)) s path b.
Definition bind_event_sink_raw s path b := bind_sink_any EmptyString s path b.

Definition bind_source_any (schema : string) (source : SchedulerEventSource) (path : Path) (b : Bench)
    : option (Result unit BenchError * Bench) :=
  '(r, sources, reg) ← add_event_any (event_source_registry b) source path schema (scheduler_registry b);
  Some (match r with Ok _ => Ok tt | Err (path, _) => Err (DuplicateEventSource path) end,
        mkBench (event_sink_registry b) (event_sink_info_registry b) sources (query_source_registry b) reg).
Definition bind_event_source source path b := bind_source_any (schema (event_type source)) source path b.
Definition bind_event_source_raw source path b := bind_source_any EmptyString source path b.

Definition bind_query_any (schema : string * string) (source : SchedulerQuerySource) (path : Path) (b : Bench)
    : option (Result unit BenchError * Bench) :=
  '(r, sources, reg) ← add_query_any (query_source_registry b) source path schema (scheduler_registry b);
  Some (match r with Ok _ => Ok tt | Err (path, _) => Err (DuplicateQuerySource path) end,
        mkBench (event_sink_registry b) (event_sink_info_registry b) (event_source_registry b) sources reg).
Definition bind_query_source source path b := bind_query_any (schema (qs_type source), schema (qs_reply source)) source path b.
Definition bind_query_source_raw source path b := bind_query_any (EmptyString, EmptyString) source path b.

Definition link_event_source (source : SchedulerEventSource) (b : Bench) : option (EventId * Bench) :=
  '(id, reg) ← add_event_source (scheduler_registry b) source;
  Some (id, mkBench (event_sink_registry b) (event_sink_info_registry b) (event_source_registry b) (query_source_registry b) reg).
Definition link_query_source (source : SchedulerQuerySource) (b : Bench) : option (QueryId * Bench) :=
  '(id, reg) ← add_query_source (scheduler_registry b) source;
  Some (id, mkBench (event_sink_registry b) (event_sink_info_registry b) (event_source_registry b) (query_source_registry b) reg).

(** [take_endpoints]: the four registries, and what is left. *)
Definition take_endpoints (b : Bench)
    : EventSinkRegistry * EventSinkInfoRegistry * EventSourceRegistry * QuerySourceRegistry * Bench :=
  (event_sink_registry b, event_sink_info_registry b, event_source_registry b, query_source_registry b,
   mkBench ∅ ∅ ∅ ∅ (scheduler_registry b)).

(** The construction of a bench: any sequence of bindings. *)
Inductive BindOp : Type :=
  | OpSink (raw : bool) (s : SinkEntry) (path : Path)
  | OpSource (raw : bool) (source : SchedulerEventSource) (path : Path)
  | OpQuery (raw : bool) (source : SchedulerQuerySource) (path : Path)
  | OpLinkEvent (source : SchedulerEventSource)
  | OpLinkQuery (source : SchedulerQuerySource).

Definition bind_op (op : BindOp) (b : Bench) : option Bench :=
  match op with
  | OpSink raw s path => Some (snd (if raw : bool then bind_event_sink_raw s path b else bind_event_sink s path b))
  | OpSource raw source path => snd <$> (if raw : bool then bind_event_source_raw source path b else bind_event_source source path b)
  | OpQuery raw source path => snd <$> (if raw : bool then bind_query_source_raw source path b else bind_query_source source path b)
  | OpLinkEvent source => snd <$> link_event_source source b
  | OpLinkQuery source => snd <$> link_query_source source b
  end.

Fixpoint bind_ops (ops : list BindOp) (b : Bench) : option Bench :=
  match ops with [] => Some b | op :: ops => b ← bind_op op b; bind_ops ops b end.
End Defs.

(** ** Properties *)
Section Facts.
Context `{L : Lang}.
Context (schema : TypeId -> string).
Implicit Types b : Bench.

(** What later bindings keep. *)
Record extends b b' : Prop := {
  ex_sources p e : event_source_registry b !! p = Some e -> event_source_registry b' !! p = Some e;
  ex_queries p e : query_source_registry b !! p = Some e -> query_source_registry b' !! p = Some e;
  ex_infos p e : event_sink_info_registry b !! p = Some e -> event_sink_info_registry b' !! p = Some e;
  ex_sinks p e : event_sink_registry b !! p = Some e -> event_sink_registry b' !! p = Some e;
  ex_registry : reg_extends (scheduler_registry b) (scheduler_registry b') }.

Lemma reg_extends_trans r1 r2 r3 : reg_extends r1 r2 -> reg_extends r2 r3 -> reg_extends r1 r3.
Proof.
  intros [[l1 H1] [l2 H2]] [[l3 H3] [l4 H4]]. split; [exists (l1 ++ l3)|exists (l2 ++ l4)]; rewrite ?H3, ?H4, ?H1, ?H2;
    by rewrite app_assoc.
Qed.

Lemma reg_extends_same r : reg_extends r r.
Proof. split; exists []; by rewrite app_nil_r. Qed.

Lemma extends_trans b1 b2 b3 : extends b1 b2 -> extends b2 b3 -> extends b1 b3.
Proof. intros [] []. split; [auto..|by eapply reg_extends_trans]. Qed.

(** A fresh entry hides no other. *)
Lemma lookup_fresh {A} (m : gmap Path A) path x : m !! path = None -> forall p e, m !! p = Some e -> <[path := x]> m !! p = Some e.
Proof. intros Hn p e Hp. rewrite lookup_insert_ne; [done|]. intros ->. congruence. Qed.

Lemma bind_sink_spec sc s path b r b' : bind_sink_any sc s path b = (r, b') ->
  extends b b' /\
  match r with
  | Ok _ => event_sink_info_registry b !! path = None /\ event_sink_registry b' !! path = Some (Some s)
  | Err e => e = DuplicateEventSink path
  end.
Proof.
  unfold bind_sink_any, register_any, add_sink. destruct (event_sink_info_registry b !! path) eqn:Ei; [|destruct (event_sink_registry b !! path) eqn:Es];
    intros [= <- <-]; (split; [split; cbn; try done; try apply reg_extends_same; by apply lookup_fresh|]); try done.
  split; [done|]. apply lookup_insert_eq.
Qed.

Lemma bind_source_spec sc source path b r b' : bind_source_any sc source path b = Some (r, b') ->
  extends b b' /\
  match r with
  | Ok _ => event_source_registry b !! path = None /\ exists id,
      event_source_registry b' !! path = Some (mkEventEntry id sc) /\ eid_type id = event_type source /\
      get_event_source (scheduler_registry b') (eid id) = Some source
  | Err e => e = DuplicateEventSource path /\ b' = b
  end.
Proof.
  unfold bind_source_any, add_event_any. destruct (event_source_registry b !! path) eqn:Es; cbn [mbind option_bind].
  - intros [= <- <-]. destruct b. split; [split; try done; apply reg_extends_same|done].
  - destruct (add_event_source (scheduler_registry b) source) as [[id reg]|] eqn:Ea; [|done]. cbn [mbind option_bind]. intros [= <- <-].
    apply add_event_source_ok in Ea as (Hext & Hget & Hty). split; [split; cbn; try done; by apply lookup_fresh|].
    split; [done|]. exists id. split; [apply lookup_insert_eq|done].
Qed.

Lemma bind_query_spec sc source path b r b' : bind_query_any sc source path b = Some (r, b') ->
  extends b b' /\
  match r with
  | Ok _ => query_source_registry b !! path = None /\ exists id,
      query_source_registry b' !! path = Some (mkQueryEntry id sc) /\ qid_type id = qs_type source /\
      qid_reply id = qs_reply source /\ get_query_source (scheduler_registry b') (qid id) = Some source
  | Err e => e = DuplicateQuerySource path /\ b' = b
  end.
Proof.
  unfold bind_query_any, add_query_any. destruct (query_source_registry b !! path) eqn:Es; cbn [mbind option_bind].
  - intros [= <- <-]. destruct b. split; [split; try done; apply reg_extends_same|done].
  - destruct (add_query_source (scheduler_registry b) source) as [[id reg]|] eqn:Ea; [|done]. cbn [mbind option_bind]. intros [= <- <-].
    apply add_query_source_ok in Ea as (Hext & Hget & Hty & Hre). split; [split; cbn; try done; by apply lookup_fresh|].
    split; [done|]. exists id. split; [apply lookup_insert_eq|done].
Qed.

Lemma bind_op_extends op b b' : bind_op schema op b = Some b' -> extends b b'.
Proof.
  destruct op as [raw s path|raw source path|raw source path|source|source]; cbn [bind_op].
  - destruct raw; [destruct (bind_event_sink_raw s path b) as [r b1] eqn:E|destruct (bind_event_sink schema s path b) as [r b1] eqn:E];
      intros [= <-]; by apply bind_sink_spec in E as [? _].
  - intros ([r b1] & E & ->)%fmap_Some. destruct raw; by apply bind_source_spec in E as [? _].
  - intros ([r b1] & E & ->)%fmap_Some. destruct raw; by apply bind_query_spec in E as [? _].
  - intros ([id b1] & E & ->)%fmap_Some. unfold link_event_source in E.
    destruct (add_event_source _ _) as [[id' reg]|] eqn:Ea; [|done]. injection E as <- <-. by apply add_event_source_ok in Ea as [? _].
  - intros ([id b1] & E & ->)%fmap_Some. unfold link_query_source in E.
    destruct (add_query_source _ _) as [[id' reg]|] eqn:Ea; [|done]. injection E as <- <-. by apply add_query_source_ok in Ea as [? _].
Qed.

Lemma bind_ops_extends ops b b' : bind_ops schema ops b = Some b' -> extends b b'.
Proof.
  revert b. induction ops as [|op ops IH]; intros b; cbn.
  - intros [= <-]. split; try done. apply reg_extends_same.
  - destruct (bind_op schema op b) as [b1|] eqn:E; [|done]. intros H. eapply extends_trans; [by eapply bind_op_extends|by apply IH].
Qed.

(** An event source that was bound under a path is found there, by its type
    and only by its type, whatever is bound later: the identifier returned denotes
    this source in the scheduler registry. *)
Theorem bound_source_found source path b b' ops b'' :
  bind_event_source schema source path b = Some (Ok tt, b') -> bind_ops schema ops b' = Some b'' ->
  exists id, get_event_source_id (event_type source) (event_source_registry b'') path = Ok id /\
    get_event_source (scheduler_registry b'') (eid id) = Some source /\ event_id_ok (scheduler_registry b'') id /\
    forall T, T <> event_type source -> get_event_source_id T (event_source_registry b'') path =
      Err (InvalidEventSourceType path (type_name T) (type_name (event_type source))).
Proof.
  intros [_ (_ & id & He & Hty & Hget)]%bind_source_spec Hops. apply bind_ops_extends in Hops. destruct Hops as [Hs _ _ _ Hr].
  apply Hs in He. apply (get_event_extends _ _ _ _ Hr) in Hget. exists (mkEventId (eid id) (event_type source)).
  unfold get_event_source_id, get_event. rewrite He. cbn. rewrite Hty, decide_True by done. split; [done|]. split; [done|].
  split; [by exists source|]. intros T HT. by rewrite decide_False by congruence.
Qed.

(** The same for query sources. *)
Theorem bound_query_found source path b b' ops b'' :
  bind_query_source schema source path b = Some (Ok tt, b') -> bind_ops schema ops b' = Some b'' ->
  exists id, get_query_source_id (qs_type source) (qs_reply source) (query_source_registry b'') path = Ok id /\
    get_query_source (scheduler_registry b'') (qid id) = Some source /\ query_id_ok (scheduler_registry b'') id.
Proof.
  intros [_ (_ & id & He & Hty & Hre & Hget)]%bind_query_spec Hops. apply bind_ops_extends in Hops. destruct Hops as [_ Hq _ _ Hr].
  apply Hq in He. apply (get_query_extends _ _ _ _ Hr) in Hget. exists (mkQueryId (qid id) (qs_type source) (qs_reply source)).
  unfold get_query_source_id, get_query. rewrite He. cbn. rewrite Hty, Hre, decide_True by done. split; [done|]. split; [done|].
  by exists source.
Qed.

(** The source that a sequence of bindings leaves under a path: the first one that
    was bound there. *)
Definition bound_event (path : Path) (ops : list BindOp) : option SchedulerEventSource :=
  head (omap (fun op => match op with OpSource _ source p => if decide (p = path) then Some source else None | _ => None end) ops).
Definition bound_query (path : Path) (ops : list BindOp) : option SchedulerQuerySource :=
  head (omap (fun op => match op with OpQuery _ source p => if decide (p = path) then Some source else None | _ => None end) ops).

(** What a binding of something else leaves. *)
Lemma bind_op_other_event op b b' path : bind_op schema op b = Some b' -> bound_event path [op] = None ->
  event_source_registry b' !! path = event_source_registry b !! path.
Proof.
  destruct op as [raw s p|raw source p|raw source p|source|source]; cbn [bind_op]; intros H Hb.
  - injection H as <-. destruct raw; cbn; unfold bind_event_sink_raw, bind_event_sink, bind_sink_any; repeat case_match; done.
  - apply fmap_Some in H as ([r b1] & E & ->). unfold bound_event in Hb. cbn in Hb |- *. destruct (decide (p = path)); [done|].
    assert (forall sc, bind_source_any sc source p b = Some (r, b1) -> event_source_registry b1 !! path = event_source_registry b !! path) as H';
      [|by destruct raw; eapply H'].
    intros sc. unfold bind_source_any, add_event_any. destruct (event_source_registry b !! p); cbn [mbind option_bind]; [by intros [= _ <-]|].
    destruct (add_event_source _ _) as [[id reg]|]; [|done]. cbn. intros [= _ <-]. cbn. by rewrite lookup_insert_ne.
  - apply fmap_Some in H as ([r b1] & E & ->). cbn.
    assert (forall sc, bind_query_any sc source p b = Some (r, b1) -> event_source_registry b1 = event_source_registry b) as H';
      [|by destruct raw; rewrite (H' _ E)].
    intros sc. unfold bind_query_any. destruct (add_query_any _ _ _ _ _) as [[[? ?] ?]|]; [|done]. by intros [= _ <-].
  - apply fmap_Some in H as ([id b1] & E & ->). unfold link_event_source in E. destruct (add_event_source _ _) as [[? ?]|]; [|done]. by injection E as _ <-.
  - apply fmap_Some in H as ([id b1] & E & ->). unfold link_query_source in E. destruct (add_query_source _ _) as [[? ?]|]; [|done]. by injection E as _ <-.
Qed.

Lemma bind_op_other_query op b b' path : bind_op schema op b = Some b' -> bound_query path [op] = None ->
  query_source_registry b' !! path = query_source_registry b !! path.
Proof.
  destruct op as [raw s p|raw source p|raw source p|source|source]; cbn [bind_op]; intros H Hb.
  - injection H as <-. destruct raw; cbn; unfold bind_event_sink_raw, bind_event_sink, bind_sink_any; repeat case_match; done.
  - apply fmap_Some in H as ([r b1] & E & ->). cbn.
    assert (forall sc, bind_source_any sc source p b = Some (r, b1) -> query_source_registry b1 = query_source_registry b) as H';
      [|by destruct raw; rewrite (H' _ E)].
    intros sc. unfold bind_source_any. destruct (add_event_any _ _ _ _ _) as [[[? ?] ?]|]; [|done]. by intros [= _ <-].
  - apply fmap_Some in H as ([r b1] & E & ->). unfold bound_query in Hb. cbn in Hb |- *. destruct (decide (p = path)); [done|].
    assert (forall sc, bind_query_any sc source p b = Some (r, b1) -> query_source_registry b1 !! path = query_source_registry b !! path) as H';
      [|by destruct raw; eapply H'].
    intros sc. unfold bind_query_any, add_query_any. destruct (query_source_registry b !! p); cbn [mbind option_bind]; [by intros [= _ <-]|].
    destruct (add_query_source _ _) as [[id reg]|]; [|done]. cbn. intros [= _ <-]. cbn. by rewrite lookup_insert_ne.
  - apply fmap_Some in H as ([id b1] & E & ->). unfold link_event_source in E. destruct (add_event_source _ _) as [[? ?]|]; [|done]. by injection E as _ <-.
  - apply fmap_Some in H as ([id b1] & E & ->). unfold link_query_source in E. destruct (add_query_source _ _) as [[? ?]|]; [|done]. by injection E as _ <-.
Qed.

(** The entries of a bench under construction denote the sources that were bound
    to their paths, with their types, in its scheduler registry. *)
Lemma bind_ops_events ops path b b' : bind_ops schema ops b = Some b' -> event_source_registry b !! path = None ->
  match bound_event path ops with
  | None => event_source_registry b' !! path = None
  | Some source => exists id sc, event_source_registry b' !! path = Some (mkEventEntry id sc) /\
      eid_type id = event_type source /\ get_event_source (scheduler_registry b') (eid id) = Some source
  end.
Proof.
  revert b. induction ops as [|op ops IH]; intros b; cbn [bind_ops]; [by intros [= <-]|].
  destruct (bind_op schema op b) as [b1|] eqn:E; [|done]. cbn [mbind option_bind]. intros Hops Hn.
  destruct (bound_event path [op]) as [source|] eqn:Eb.
  - destruct op as [| raw s p| | |]; try done. unfold bound_event in Eb |- *. cbn in Eb |- *. destruct (decide (p = path)) as [->|]; [|done]. injection Eb as ->.
    cbn. cbn [bind_op] in E. apply fmap_Some in E as ([r b2] & E & ->).
    assert (exists sc, bind_source_any sc source path b = Some (r, b2)) as [sc E'] by (destruct raw; eauto).
    pose proof E' as E2. unfold bind_source_any, add_event_any in E2. rewrite Hn in E2. cbn in E2.
    destruct (add_event_source _ _) as [[id0 reg]|]; [|done]. injection E2 as <- _.
    apply bind_source_spec in E' as [_ (_ & id & He & Hty & Hget)]. apply bind_ops_extends in Hops as [Hs _ _ _ Hr]. exists id, sc.
    split; [by apply Hs|]. split; [done|]. by apply (get_event_extends _ _ _ _ Hr).
  - assert (bound_event path (op :: ops) = bound_event path ops) as ->.
    { unfold bound_event in *. cbn in *. by case_match. }
    apply (IH b1 Hops). by rewrite (bind_op_other_event _ _ _ _ E Eb).
Qed.

Lemma bind_ops_queries ops path b b' : bind_ops schema ops b = Some b' -> query_source_registry b !! path = None ->
  match bound_query path ops with
  | None => query_source_registry b' !! path = None
  | Some source => exists id sc, query_source_registry b' !! path = Some (mkQueryEntry id sc) /\
      qid_type id = qs_type source /\ qid_reply id = qs_reply source /\
      get_query_source (scheduler_registry b') (qid id) = Some source
  end.
Proof.
  revert b. induction ops as [|op ops IH]; intros b; cbn [bind_ops]; [by intros [= <-]|].
  destruct (bind_op schema op b) as [b1|] eqn:E; [|done]. cbn [mbind option_bind]. intros Hops Hn.
  destruct (bound_query path [op]) as [source|] eqn:Eb.
  - destruct op as [| |raw s p| |]; try done. unfold bound_query in Eb |- *. cbn in Eb |- *. destruct (decide (p = path)) as [->|]; [|done]. injection Eb as ->.
    cbn. cbn [bind_op] in E. apply fmap_Some in E as ([r b2] & E & ->).
    assert (exists sc, bind_query_any sc source path b = Some (r, b2)) as [sc E'] by (destruct raw; eauto).
    pose proof E' as E2. unfold bind_query_any, add_query_any in E2. rewrite Hn in E2. cbn in E2.
    destruct (add_query_source _ _) as [[id0 reg]|]; [|done]. injection E2 as <- _.
    apply bind_query_spec in E' as [_ (_ & id & He & Hty & Hre & Hget)]. apply bind_ops_extends in Hops as [_ Hq _ _ Hr]. exists id, sc.
    split; [by apply Hq|]. split; [done|]. split; [done|]. by apply (get_query_extends _ _ _ _ Hr).
  - assert (bound_query path (op :: ops) = bound_query path ops) as ->.
    { unfold bound_query in *. cbn in *. by case_match. }
    apply (IH b1 Hops). by rewrite (bind_op_other_query _ _ _ _ E Eb).
Qed.

(** ** Sinks *)

(** Both registries of sinks of a bench under construction have the same paths. *)
Definition sinks_ok b : Prop := forall path, is_Some (event_sink_registry b !! path) <-> is_Some (event_sink_info_registry b !! path).

Lemma bind_sink_ok sc s path b : sinks_ok b -> sinks_ok (bind_sink_any sc s path b).2.
Proof.
  intros Hok p. unfold bind_sink_any, register_any, add_sink. pose proof (Hok path) as Hp.
  destruct (event_sink_info_registry b !! path) eqn:Ei; [exact (Hok p)|]. destruct (event_sink_registry b !! path) eqn:Es.
  { exfalso. by destruct (proj1 Hp) as [x Hx]; [by eexists|]. }
  cbn [snd event_sink_registry event_sink_info_registry set_sinks]. destruct (decide (p = path)) as [->|Hne].
  - by rewrite lookup_insert_eq, lookup_insert_eq.
  - rewrite lookup_insert_ne, lookup_insert_ne by done. apply Hok.
Qed.

Lemma bind_op_sinks op b b' : sinks_ok b -> bind_op schema op b = Some b' -> sinks_ok b'.
Proof.
  intros Hok. destruct op as [raw s path|raw source path|raw source path|source|source]; cbn [bind_op].
  - intros [= <-]. destruct raw; by apply bind_sink_ok.
  - intros ([r b1] & E & ->)%fmap_Some. assert (forall sc, bind_source_any sc source path b = Some (r, b1) -> sinks_ok b1) as H; [|by destruct raw; eapply H].
    intros sc. unfold bind_source_any. destruct (add_event_any _ _ _ _ _) as [[[? ?] ?]|]; [|done]. by intros [= _ <-].
  - intros ([r b1] & E & ->)%fmap_Some. assert (forall sc, bind_query_any sc source path b = Some (r, b1) -> sinks_ok b1) as H; [|by destruct raw; eapply H].
    intros sc. unfold bind_query_any. destruct (add_query_any _ _ _ _ _) as [[[? ?] ?]|]; [|done]. by intros [= _ <-].
  - intros ([id b1] & E & ->)%fmap_Some. unfold link_event_source in E. destruct (add_event_source _ _) as [[? ?]|]; [|done]. by injection E as _ <-.
  - intros ([id b1] & E & ->)%fmap_Some. unfold link_query_source in E. destruct (add_query_source _ _) as [[? ?]|]; [|done]. by injection E as _ <-.
Qed.

(** On a bench under construction, binding a sink fails exactly if the path is
    used by another sink, and then nothing changes. *)
Theorem bind_sink_atomic ops b s path : bind_ops schema ops empty_bench = Some b ->
  (exists x, event_sink_registry b !! path = Some x) /\ bind_event_sink schema s path b = (Err (DuplicateEventSink path), b) \/
  event_sink_registry b !! path = None /\ exists b', bind_event_sink schema s path b = (Ok tt, b') /\
    event_sink_registry b' !! path = Some (Some s) /\ get_event_sink_schema (event_sink_info_registry b') path = Ok (schema (sink_type s)).
Proof.
  intros Hops. assert (sinks_ok b) as Hok.
  { assert (forall b0, sinks_ok b0 -> bind_ops schema ops b0 = Some b -> sinks_ok b) as H; [|apply (H empty_bench); [|done]; intros p; unfold empty_bench; cbn [event_sink_registry event_sink_info_registry]].
    - clear Hops. induction ops as [|op ops IH]; intros b0 H0; cbn; [by intros [= <-]|].
      destruct (bind_op schema op b0) as [b1|] eqn:E; [|done]. apply IH. by eapply bind_op_sinks.
    - by rewrite lookup_empty, lookup_empty. }
  pose proof (Hok path) as Hp. unfold bind_event_sink, bind_sink_any, register_any, add_sink.
  destruct (event_sink_registry b !! path) as [x|] eqn:Es, (event_sink_info_registry b !! path) as [y|] eqn:Ei.
  - left. split; [by exists x|]. by destruct b.
  - by destruct (proj1 Hp) as [? ?]; [by eexists|].
  - by destruct (proj2 Hp) as [? ?]; [by eexists|].
  - right. split; [done|]. eexists. split; [done|]. unfold get_event_sink_schema. cbn [event_sink_registry event_sink_info_registry set_sinks].
    by rewrite lookup_insert_eq, lookup_insert_eq.
Qed.

(** Renting a sink and putting it back changes nothing; while it is rented, it is
    still registered, but can neither be accessed, nor taken, nor rented again,
    nor be replaced by a new sink. *)
Theorem rent_replace (self : gmap Path (option SinkEntry)) path entry self' : rent_entry self path = (Ok entry, self') ->
  replace_entry self' path entry = (Ok tt, self) /\ has_sink self' path = true /\
  get_entry_mut self' path = Err (EventSinkNotFound path) /\ (forall T, take_sink T self' path = (Err (EventSinkNotFound path), self')) /\
  rent_entry self' path = (Err (EventSinkNotFound path), self') /\ forall s, add_sink self' s path = (Err (path, s), self').
Proof.
  unfold rent_entry. destruct (self !! path) as [[e|]|] eqn:E; [|done..]. intros [= -> <-].
  unfold replace_entry, has_sink, get_entry_mut, take_sink, add_sink. rewrite lookup_insert_eq.
  repeat split. by rewrite insert_insert_eq, insert_id.
Qed.
End Facts.

(** A bench with an event source, to which a second source is added. *)
Section Demo.
#[local] Existing Instance demo_lang.
Definition demo_schema (T : @TypeId demo_lang) : string := type_name T.
Definition demo_source : @SchedulerEventSource demo_lang := InputSource (L := demo_lang) 3 4 1%nat.
Definition demo_bench : @Bench demo_lang :=
  Eval vm_compute in default empty_bench (snd <$> bind_event_source demo_schema demo_source ["in"%string] empty_bench).
Definition demo_op : @BindOp demo_lang := OpSource false (EventSource (L := demo_lang) 7 0%nat) ["other"%string].
Definition demo_bench2 : @Bench demo_lang := Eval vm_compute in default empty_bench (bind_ops demo_schema [demo_op] demo_bench).

Lemma bound_source_found_witness : exists id,
  get_event_source_id (L := demo_lang) 1%nat (event_source_registry demo_bench2) ["in"%string] = Ok id /\
  get_event_source (scheduler_registry demo_bench2) (eid id) = Some demo_source.
Proof.
  destruct (bound_source_found demo_schema demo_source ["in"%string] empty_bench demo_bench [demo_op] demo_bench2) as (id & H1 & H2 & _).
  - vm_compute. reflexivity.
  - vm_compute. reflexivity.
  - exists id. split; [exact H1|exact H2].
Defined.
End Demo.
End Endpoints.
