(* ===== verification/Effects.v ===== *)
(** * Stateful, fallible computations

    [Eff S E A]: a computation on a mutable state [S] that returns a value,
    returns an error (the [?] operator) or panics.  The state survives an
    error, as [&mut self] does. *)

From S2P Require Import Prelude.

Definition Eff (S E A : Type) : Type := S -> Outcome E A * S.

#[export] Instance eff_ret S E : MRet (Eff S E) := fun A a s => (Val a, s).
#[export] Instance eff_bind S E : MBind (Eff S E) := fun A B f m s =>
  match m s with
  | (Val a, s') => f a s'
  | (Fail e, s') => (Fail e, s')
  | (Panic, s') => (Panic, s')
  end.

Section Ops.
Context {S E : Type}.

Definition get : Eff S E S := fun s => (Val s, s).
Definition gets {A} (f : S -> A) : Eff S E A := fun s => (Val (f s), s).
Definition modify (f : S -> S) : Eff S E unit := fun s => (Val tt, f s).
Definition throw {A} (e : E) : Eff S E A := fun s => (Fail e, s).
Definition panic {A} : Eff S E A := fun s => (Panic, s).
Definition liftO {A} (o : Outcome E A) : Eff S E A := fun s => (o, s).
Definition when (b : bool) (m : Eff S E unit) : Eff S E unit := if b then m else mret tt.
End Ops.

(** The final state and the outcome. *)
Definition exec {S E A} (m : Eff S E A) (s : S) : S := (m s).2.
Definition outcome {S E A} (m : Eff S E A) (s : S) : Outcome E A := (m s).1.

Section Facts.
Context {S E : Type}.

Lemma bind_val {A B} (m : Eff S E A) (f : A -> Eff S E B) s a s' :
  m s = (Val a, s') -> (m ≫= f) s = f a s'.
Proof. unfold mbind, eff_bind. by intros ->. Qed.

Lemma bind_inv {A B} (m : Eff S E A) (f : A -> Eff S E B) s r s' :
  (m ≫= f) s = (r, s') ->
  (exists a s1, m s = (Val a, s1) /\ f a s1 = (r, s')) \/
  (exists e, m s = (Fail e, s') /\ r = Fail e) \/
  (m s = (Panic, s') /\ r = Panic).
Proof. unfold mbind, eff_bind. destruct (m s) as [[a|e|] s1]; naive_solver. Qed.

Lemma bind_val_inv {A B} (m : Eff S E A) (f : A -> Eff S E B) s b s' :
  (m ≫= f) s = (Val b, s') -> exists a s1, m s = (Val a, s1) /\ f a s1 = (Val b, s').
Proof. intros [H|[(e & _ & H)|[_ H]]]%bind_inv; [done|done|done]. Qed.

Lemma liftO_val {A} (o : Outcome E A) (s : S) a s' : liftO o s = (Val a, s') <-> o = Val a /\ s = s'.
Proof. unfold liftO. split; [by intros [= -> ->]|by intros [-> ->]]. Qed.

Lemma exec_bind_ret {A B} (m : Eff S E A) (f : A -> B) s :
  exec (a ← m; mret (f a)) s = exec m s.
Proof. unfold exec. cbv [mbind eff_bind]. by destruct (m s) as [[a|e|] s1]. Qed.

(** A reflexive and transitive relation on states that every step of a
    computation respects. *)
Definition respects (R : S -> S -> Prop) {A} (m : Eff S E A) : Prop :=
  forall s r s', m s = (r, s') -> R s s'.

Lemma respects_bind (R : S -> S -> Prop) `{!Transitive R} {A B}
    (m : Eff S E A) (f : A -> Eff S E B) :
  respects R m -> (forall a, respects R (f a)) -> respects R (m ≫= f).
Proof.
  intros Hm Hf s r s' H. apply bind_inv in H as [(a & s1 & H1 & H2)|[(e & H1 & _)|[H1 _]]];
    [|by eapply Hm..]. etransitivity; [by eapply Hm|by eapply Hf].
Qed.

Lemma respects_ret (R : S -> S -> Prop) `{!Reflexive R} {A} (a : A) :
  respects R (mret (M := Eff S E) a).
Proof. intros s r s' H. cbv in H. by simplify_eq. Qed.

Lemma respects_gets (R : S -> S -> Prop) `{!Reflexive R} {A} (f : S -> A) : respects R (gets f).
Proof. intros s r s' H. cbv in H. by simplify_eq. Qed.

Lemma respects_throw (R : S -> S -> Prop) `{!Reflexive R} {A} (e : E) :
  respects R (throw (A := A) e).
Proof. intros s r s' H. cbv in H. by simplify_eq. Qed.

Lemma respects_liftO (R : S -> S -> Prop) `{!Reflexive R} {A} (o : Outcome E A) :
  respects R (liftO o).
Proof. intros s r s' H. cbv in H. by simplify_eq. Qed.

Lemma respects_modify (R : S -> S -> Prop) f : (forall s, R s (f s)) -> respects R (modify f).
Proof. intros Hf s r s' H. cbv in H. by simplify_eq. Qed.
End Facts.

(** Triples: from a state in [P], a computation that returns a value ends in
    [Q], one that fails or panics ends in [X]. *)
Section Triples.
Context {S E : Type}.

Definition triple {A} (P : S -> Prop) (m : Eff S E A) (Q : A -> S -> Prop) (X : S -> Prop) : Prop :=
  forall s, P s -> match m s with (Val a, s') => Q a s' | (_, s') => X s' end.

Lemma triple_bind {A B} P (m : Eff S E A) R (f : A -> Eff S E B) Q X :
  triple P m R X -> (forall a, triple (R a) (f a) Q X) -> triple P (m ≫= f) Q X.
Proof.
  intros Hm Hf s Hs. specialize (Hm s Hs). cbv [mbind eff_bind].
  destruct (m s) as [[a|e|] s']; [by apply Hf|done|done].
Qed.

Lemma triple_ret {A} (P : S -> Prop) (a : A) (Q : A -> S -> Prop) X :
  (forall s, P s -> Q a s) -> triple P (mret a) Q X.
Proof. intros H s Hs. by apply H. Qed.

Lemma triple_gets {A} (P : S -> Prop) (f : S -> A) (X : S -> Prop) :
  triple P (gets f) (fun a s => P s /\ a = f s) X.
Proof. by intros s Hs. Qed.

Lemma triple_throw {A} (P : S -> Prop) e (Q : A -> S -> Prop) (X : S -> Prop) :
  (forall s, P s -> X s) -> triple P (throw e) Q X.
Proof. intros H s Hs. by apply H. Qed.

Lemma triple_panic {A} (P : S -> Prop) (Q : A -> S -> Prop) (X : S -> Prop) :
  (forall s, P s -> X s) -> triple P panic Q X.
Proof. intros H s Hs. by apply H. Qed.

Lemma triple_liftO {A} (P : S -> Prop) (o : Outcome E A) (X : S -> Prop) :
  (forall s, P s -> X s) -> triple P (liftO o) (fun a s => P s /\ o = Val a) X.
Proof. intros H s Hs. cbv [liftO]. destruct o; auto. Qed.

Lemma triple_modify (P : S -> Prop) f (Q : unit -> S -> Prop) X :
  (forall s, P s -> Q tt (f s)) -> triple P (modify f) Q X.
Proof. intros H s Hs. by apply H. Qed.

Lemma triple_weaken {A} (P P' : S -> Prop) (m : Eff S E A) (Q Q' : A -> S -> Prop) X X' :
  triple P' m Q' X' -> (forall s, P s -> P' s) -> (forall a s, Q' a s -> Q a s) ->
  (forall s, X' s -> X s) -> triple P m Q X.
Proof.
  intros Hm HP HQ HX s Hs. specialize (Hm s (HP s Hs)). destruct (m s) as [[a|e|] s']; auto.
Qed.

(** A fact that follows from the precondition. *)
Lemma triple_pure {A} (phi : Prop) (P : S -> Prop) (m : Eff S E A) (Q : A -> S -> Prop) X :
  (forall s, P s -> phi) -> (phi -> triple P m Q X) -> triple P m Q X.
Proof. intros Hphi Hm s Hs. by apply Hm; [eapply Hphi|]. Qed.

(** The value bound by a [gets]. *)
Lemma triple_bind_gets {A B} P (g : S -> A) (f : A -> Eff S E B) Q X :
  (forall a, triple (fun s => P s /\ a = g s) (f a) Q X) -> triple P (gets g ≫= f) Q X.
Proof. intros H. eapply triple_bind; [apply triple_gets|exact H]. Qed.
End Triples.

Create HintDb eff.
#[export] Hint Resolve respects_ret respects_gets respects_throw respects_liftO : eff.
