(* ===== verification/Scheduler.v ===== *)
(** * Scheduling: [simulation/scheduler.rs], [simulation/injector.rs] and the
    scheduling methods of [model/context.rs]

    The objects behind the [Arc]s shared by the simulation, the schedulers and
    the injectors are the record [Shared].  Every operation takes the mutex of
    the queue for its whole duration, so it is one atomic transition. *)

From S2P Require Import Prelude Path Errors Time PriorityQueue QueueItems Effects.
Import Items.
Local Open Scope Z_scope.

(** The origin of events and queries sent by the user. *)
Definition GLOBAL_ORIGIN_ID : Z := usize_max - 1.

Inductive SchedulingError : Type :=
  | InvalidScheduledTime
  | NullRepetitionPeriod.

Inductive InjectorItem `{Lang} : Type :=
  | InjEvent (e : Event)
  | InjQuery (q : Query)
  | InjFuture (f : Fut).

(** The two queues are any implementation of the stable priority queue
    interface; [scheduler_queue] is keyed by time and origin, [injector_queue]
    by origin. *)
Section Scheduler.
Context `{L : Lang} {T : Type} `{MT : MonoTime T}.
Context {SQ IQ : Type} `{SPQ : !StablePQ (T * Z) QueueItem SQ} `{IPQ : !StablePQ Z InjectorItem IQ}.

Record Shared : Type := mkShared {
  scheduler_queue : SQ;
  injector_queue : IQ;
  time : T;
  flags : list bool;          (** cancellation flags *)
  channels : nat;             (** reply channels created so far *)
  is_halted : bool;
  is_terminated : bool }.

Definition with_scheduler_queue (q : SQ) (s : Shared) : Shared :=
  mkShared q (injector_queue s) (time s) (flags s) (channels s) (is_halted s) (is_terminated s).
Definition with_injector_queue (q : IQ) (s : Shared) : Shared :=
  mkShared (scheduler_queue s) q (time s) (flags s) (channels s) (is_halted s) (is_terminated s).
Definition with_time (t : T) (s : Shared) : Shared :=
  mkShared (scheduler_queue s) (injector_queue s) t (flags s) (channels s) (is_halted s) (is_terminated s).
Definition with_flags (fl : list bool) (s : Shared) : Shared :=
  mkShared (scheduler_queue s) (injector_queue s) (time s) fl (channels s) (is_halted s) (is_terminated s).
Definition with_channels (n : nat) (s : Shared) : Shared :=
  mkShared (scheduler_queue s) (injector_queue s) (time s) (flags s) n (is_halted s) (is_terminated s).
Definition with_halted (b : bool) (s : Shared) : Shared :=
  mkShared (scheduler_queue s) (injector_queue s) (time s) (flags s) (channels s) b (is_terminated s).
Definition with_terminated (b : bool) (s : Shared) : Shared :=
  mkShared (scheduler_queue s) (injector_queue s) (time s) (flags s) (channels s) (is_halted s) b.

Notation Sched := (Eff Shared SchedulingError).

(** [EventKey::new()] and [query_replier()]. *)
Definition new_key {E} : Eff Shared E nat := fun s =>
  let '(k, fl) := EventKey.new (flags s) in (Val k, with_flags fl s).
Definition new_channel {E} : Eff Shared E nat := fun s =>
  (Val (channels s), with_channels (S (channels s)) s).

(** [scheduler_queue.insert], [injector_queue.insert]. *)
Definition queue_insert {E} (k : T * Z) (it : QueueItem) : Eff Shared E unit := fun s =>
  match pq_insert k it (scheduler_queue s) with
  | Some q => (Val tt, with_scheduler_queue q s)
  | None => (Panic, s)
  end.
Definition injector_insert {E} (origin_id : Z) (it : InjectorItem) : Eff Shared E unit := fun s =>
  match pq_insert origin_id it (injector_queue s) with
  | Some q => (Val tt, with_injector_queue q s)
  | None => (Panic, s)
  end.

(** [deadline.into_time(now)] followed by the check that it lies in the
    future. *)
Definition checked_time (deadline : Deadline.deadline T) : Sched T :=
  now ← gets time;
  time ← liftO (unwrap (Deadline.into_time deadline now));
  if kleb time now then throw InvalidScheduledTime else mret time.

(** *** [GlobalScheduler] *)
Definition schedule_from (deadline : Deadline.deadline T) (item : QueueItem) (origin_id : Z) :
    Sched unit :=
  time ← checked_time deadline;
  queue_insert (time, origin_id) item.

Definition schedule_event_from (deadline : Deadline.deadline T) (id : EventId) (arg : Value)
    (origin_id : Z) : Sched unit :=
  time ← checked_time deadline;
  let event := event_new id arg in
  queue_insert (time, origin_id) (QEvent event).

Definition schedule_keyed_event_from (deadline : Deadline.deadline T) (id : EventId)
    (arg : Value) (origin_id : Z) : Sched nat :=
  event_key ← new_key;
  time ← checked_time deadline;
  let event := with_key (event_new id arg) event_key in
  queue_insert (time, origin_id) (QEvent event);;
  mret event_key.

Definition schedule_periodic_event_from (deadline : Deadline.deadline T) (period : Z)
    (id : EventId) (arg : Value) (origin_id : Z) : Sched unit :=
  if period =? 0 then throw NullRepetitionPeriod else
  time ← checked_time deadline;
  let event := with_period (event_new id arg) period in
  queue_insert (time, origin_id) (QEvent event).

Definition schedule_keyed_periodic_event_from (deadline : Deadline.deadline T) (period : Z)
    (id : EventId) (arg : Value) (origin_id : Z) : Sched nat :=
  if period =? 0 then throw NullRepetitionPeriod else
  event_key ← new_key;
  time ← checked_time deadline;
  let event := with_key (with_period (event_new id arg) period) event_key in
  queue_insert (time, origin_id) (QEvent event);;
  mret event_key.

Definition schedule_query_from (deadline : Deadline.deadline T) (id : QueryId) (arg : Value)
    (origin_id : Z) : Sched ReplyReader :=
  time ← checked_time deadline;
  chan ← new_channel;
  let '(query, rx) := query_new chan id arg in
  queue_insert (time, origin_id) (QQuery query);;
  mret rx.

Definition halt {E} : Eff Shared E unit := modify (with_halted true).
Definition tear_down {E} : Eff Shared E unit := modify (with_terminated true).

(** *** Cancellation *)
Definition cancel_event {E} (k : nat) : Eff Shared E unit :=
  modify (fun s => with_flags (EventKey.cancel (flags s) k) s).

(** *** Injection *)
(** [EventInjector::inject], for the future made by its generator. *)
Definition injector_inject {E} (origin_id : Z) (fut : Fut) : Eff Shared E unit :=
  injector_insert origin_id (InjFuture fut).
(** [ModelInjector::inject_event]. *)
Definition model_inject_event {E} (origin_id : Z) (id : EventId) (arg : Value) :
    Eff Shared E unit :=
  injector_insert origin_id (InjEvent (event_new id arg)).
(** [Injector::inject_built_event], [Injector::inject_event] and
    [Injector::inject_query]. *)
Definition inject_built_event {E} (event : Event) : Eff Shared E unit :=
  injector_insert GLOBAL_ORIGIN_ID (InjEvent event).
Definition inject_event {E} (id : EventId) (arg : Value) : Eff Shared E unit :=
  inject_built_event (event_new id arg).
Definition inject_query {E} (id : QueryId) (arg : Value) : Eff Shared E ReplyReader :=
  chan ← new_channel;
  let '(query, rx) := query_new chan id arg in
  injector_insert GLOBAL_ORIGIN_ID (InjQuery query);;
  mret rx.
End Scheduler.
Arguments Shared T SQ IQ : clear implicits.

(** ** Schedulable identifiers ([SchedulableId], [ModelRegistry])

    The most significant bit tells an index of the model registry from an index
    of the scheduler registry. *)
Module SchedulableId.
Section Defs.
Context `{L : Lang}.

Definition REGISTRY_MASK : Z := Z.shiftl 1 63.

Record SchedulableId : Type := mkSchedulable { sid : Z; sid_type : TypeId }.
Definition ModelRegistry : Type := list Z.

Definition registry_add (r : ModelRegistry) (id : SchedulableId) : ModelRegistry := r ++ [sid id].
(** [None]: the index is out of bounds. *)
Definition registry_get (r : ModelRegistry) (idx : Z) : option Z := r !! Z.to_nat idx.

Definition from_decorated (id : Z) (ty : TypeId) : SchedulableId :=
  mkSchedulable (Z.lor id REGISTRY_MASK) ty.

Definition source_id (id : SchedulableId) (r : ModelRegistry) : option EventId :=
  if Z.land (sid id) REGISTRY_MASK =? 0 then Some (mkEventId (sid id) (sid_type id))
  else i ← registry_get r (Z.lxor (sid id) REGISTRY_MASK); Some (mkEventId i (sid_type id)).

(** [BuildContext::register_schedulable]. *)
Definition register_schedulable (r : SchedulerRegistry) (source : SchedulerEventSource) :
    option (SchedulableId * SchedulerRegistry) :=
  '(id, r') ← add_event_source r source; Some (mkSchedulable (eid id) (eid_type id), r').
End Defs.

Section Facts.
Context `{L : Lang}.

Lemma mask_high_bit x : 0 <= x < 2 ^ 63 -> Z.land x REGISTRY_MASK = 0.
Proof.
  intros Hx. apply Z.bits_inj'. intros n Hn. unfold REGISTRY_MASK.
  rewrite Z.land_spec, Z.bits_0, Z.shiftl_spec by done.
  destruct (Z.eq_dec n 63) as [->|Hne].
  - replace (Z.testbit x 63) with false; [done|]. symmetry.
    rewrite <- (Z.mod_small x (2 ^ 63)) by lia. apply Z.mod_pow2_bits_high. lia.
  - replace (Z.testbit 1 (n - 63)) with false; [by rewrite andb_false_r|]. symmetry.
    destruct (Z.lt_ge_cases n 63); [by apply Z.testbit_neg_r; lia|].
    apply Z.bits_above_log2; cbn; lia.
Qed.

Lemma decorated_bits x : 0 <= x < 2 ^ 63 ->
  Z.land (Z.lor x REGISTRY_MASK) REGISTRY_MASK = REGISTRY_MASK /\
  Z.lxor (Z.lor x REGISTRY_MASK) REGISTRY_MASK = x.
Proof.
  intros Hx. pose proof (mask_high_bit x Hx) as Hm. split.
  - rewrite Z.land_lor_distr_l, Hm, Z.land_diag. done.
  - rewrite <- (Z.lxor_lor _ _ Hm). by rewrite Z.lxor_assoc, Z.lxor_nilpotent, Z.lxor_0_r.
Qed.

(** A registered schedulable denotes itself, a decorated one its entry of
    the model registry. *)
Lemma source_id_direct x ty r :
  0 <= x <= MAX_SOURCE_ID -> source_id (mkSchedulable x ty) r = Some (mkEventId x ty).
Proof.
  intros Hx. unfold source_id; cbn. rewrite mask_high_bit by (unfold MAX_SOURCE_ID in *; lia). done.
Qed.

Lemma source_id_decorated x ty r i :
  0 <= x < 2 ^ 63 -> r !! Z.to_nat x = Some i ->
  source_id (from_decorated x ty) r = Some (mkEventId i ty).
Proof.
  intros Hx Hi. unfold source_id, from_decorated; cbn [sid sid_type].
  destruct (decorated_bits x Hx) as [-> ->]. unfold registry_get. by rewrite Hi.
Qed.
End Facts.
End SchedulableId.

(** ** The public handles *)
Section Handles.
Context `{L : Lang} {T : Type} `{MT : MonoTime T}.
Context {SQ IQ : Type} `{SPQ : !StablePQ (T * Z) QueueItem SQ} `{IPQ : !StablePQ Z InjectorItem IQ}.
Notation Sched := (Eff (Shared T SQ IQ) SchedulingError).

(** [Scheduler]: the user's handle. *)
Definition schedule (deadline : Deadline.deadline T) (item : QueueItem) : Sched unit :=
  schedule_from deadline item GLOBAL_ORIGIN_ID.
Definition schedule_event (deadline : Deadline.deadline T) (id : EventId) (arg : Value) :
    Sched unit :=
  schedule_event_from deadline id arg GLOBAL_ORIGIN_ID.
Definition schedule_keyed_event (deadline : Deadline.deadline T) (id : EventId) (arg : Value) :
    Sched nat :=
  schedule_keyed_event_from deadline id arg GLOBAL_ORIGIN_ID.
Definition schedule_periodic_event (deadline : Deadline.deadline T) (period : Z) (id : EventId)
    (arg : Value) : Sched unit :=
  schedule_periodic_event_from deadline period id arg GLOBAL_ORIGIN_ID.
Definition schedule_keyed_periodic_event (deadline : Deadline.deadline T) (period : Z)
    (id : EventId) (arg : Value) : Sched nat :=
  schedule_keyed_periodic_event_from deadline period id arg GLOBAL_ORIGIN_ID.
Definition schedule_query (deadline : Deadline.deadline T) (id : QueryId) (arg : Value) :
    Sched ReplyReader :=
  schedule_query_from deadline id arg GLOBAL_ORIGIN_ID.

(** [Context]: a model's handle, with the model's own origin. *)
Record Context_ : Type := mkContext {
  cx_origin_id : Z; cx_registry : SchedulableId.ModelRegistry }.

Definition cx_source (cx : Context_) (id : SchedulableId.SchedulableId) : Sched EventId :=
  liftO (unwrap (SchedulableId.source_id id (cx_registry cx))).

Definition cx_schedule_event (cx : Context_) (deadline : Deadline.deadline T)
    (id : SchedulableId.SchedulableId) (arg : Value) : Sched unit :=
  src ← cx_source cx id;
  schedule_event_from deadline src arg (cx_origin_id cx).
Definition cx_schedule_keyed_event (cx : Context_) (deadline : Deadline.deadline T)
    (id : SchedulableId.SchedulableId) (arg : Value) : Sched nat :=
  src ← cx_source cx id;
  schedule_keyed_event_from deadline src arg (cx_origin_id cx).
Definition cx_schedule_periodic_event (cx : Context_) (deadline : Deadline.deadline T)
    (period : Z) (id : SchedulableId.SchedulableId) (arg : Value) : Sched unit :=
  src ← cx_source cx id;
  schedule_periodic_event_from deadline period src arg (cx_origin_id cx).
Definition cx_schedule_keyed_periodic_event (cx : Context_) (deadline : Deadline.deadline T)
    (period : Z) (id : SchedulableId.SchedulableId) (arg : Value) : Sched nat :=
  src ← cx_source cx id;
  schedule_keyed_periodic_event_from deadline period src arg (cx_origin_id cx).

(** Everything models and other threads can do to the shared state. *)
Inductive ApiCall : Type :=
  | CallSchedule (dl : Deadline.deadline T) (it : QueueItem) (origin : Z)
  | CallEvent (dl : Deadline.deadline T) (id : EventId) (arg : Value) (origin : Z)
  | CallKeyed (dl : Deadline.deadline T) (id : EventId) (arg : Value) (origin : Z)
  | CallPeriodic (dl : Deadline.deadline T) (p : Z) (id : EventId) (arg : Value) (origin : Z)
  | CallKeyedPeriodic (dl : Deadline.deadline T) (p : Z) (id : EventId) (arg : Value) (origin : Z)
  | CallQuery (dl : Deadline.deadline T) (id : QueryId) (arg : Value) (origin : Z)
  | CallCancel (k : nat)
  | CallInject (origin : Z) (it : InjectorItem)
  | CallHalt
  | CallTearDown.

Definition call (c : ApiCall) : Sched unit :=
  match c with
  | CallSchedule dl it o => schedule_from dl it o
  | CallEvent dl id arg o => schedule_event_from dl id arg o
  | CallKeyed dl id arg o => schedule_keyed_event_from dl id arg o;; mret tt
  | CallPeriodic dl p id arg o => schedule_periodic_event_from dl p id arg o
  | CallKeyedPeriodic dl p id arg o => schedule_keyed_periodic_event_from dl p id arg o;; mret tt
  | CallQuery dl id arg o => schedule_query_from dl id arg o;; mret tt
  | CallCancel k => cancel_event k
  | CallInject o it => injector_insert o it
  | CallHalt => halt
  | CallTearDown => tear_down
  end.

(** The state after a sequence of calls; the caller handles the errors. *)
Definition run_calls (cs : list ApiCall) (s : Shared T SQ IQ) : Shared T SQ IQ :=
  fold_left (fun s c => exec (call c) s) cs s.
End Handles.
Arguments ApiCall {_} T.
