(* ===== verification/SchedulerFacts.v ===== *)
(** * Properties of the scheduling operations

    [sched_ok] is the invariant of the shared state: both queues are
    well-formed, every scheduled item lies strictly in the future, periods are
    positive, keys point to existing flags and items have the type their
    source expects.  Every call preserves it. *)

From S2P Require Import Prelude Path Errors Time PriorityQueue QueueItems Effects Scheduler.
Import Items.
Local Open Scope Z_scope.

Section Invariant.
Context `{L : Lang} {T : Type} `{MT : MonoTime T}.
Context {SQ IQ : Type} `{SPQ : !StablePQ (T * Z) QueueItem SQ} `{IPQ : !StablePQ Z InjectorItem IQ}.
Notation Sh := (Shared T SQ IQ).
Implicit Types (s : Sh) (r : SchedulerRegistry) (q : list ((T * Z) * QueueItem)).

Definition item_key (it : QueueItem) : option nat :=
  match it with QEvent e => key e | QQuery _ => None end.
Definition item_period (it : QueueItem) : option Z :=
  match it with QEvent e => period e | QQuery _ => None end.

(** An item is fit for the queue. *)
Record queued_ok (r : SchedulerRegistry) (fl : list bool) (it : QueueItem) : Prop := {
  qo_typed : item_ok r it;
  qo_period : forall p, item_period it = Some p -> 0 < p;
  qo_key : forall k, item_key it = Some k -> EventKey.live fl k }.

Definition inj_item_ok (r : SchedulerRegistry) (it : InjectorItem) : Prop :=
  match it with
  | InjEvent e => event_ok r e
  | InjQuery q => query_ok r q
  | InjFuture _ => True
  end.

Definition view s : list ((T * Z) * QueueItem) := pq_view (scheduler_queue s).
Definition inj_view s : list (Z * InjectorItem) := pq_view (injector_queue s).

Record sched_ok (r : SchedulerRegistry) (s : Sh) : Prop := {
  so_queue : pq_ok (scheduler_queue s);
  so_injector : pq_ok (injector_queue s);
  so_future : Forall (fun x => kltb (time s) x.1.1 = true) (view s);
  so_items : Forall (fun x => queued_ok r (flags s) x.2) (view s);
  so_inj_items : Forall (fun x => inj_item_ok r x.2) (inj_view s) }.

(** What a caller must provide, as ensured by the static types of the API
    ([Duration]s are non-negative, identifiers are obtained from the
    registry) and by the checks of the server before [CallSchedule]. *)
Definition call_ok (r : SchedulerRegistry) (fl : list bool) (c : ApiCall T) : Prop :=
  match c with
  | CallSchedule _ it _ => queued_ok r fl it
  | CallEvent _ id _ _ | CallKeyed _ id _ _ => event_id_ok r id
  | CallPeriodic _ p id _ _ | CallKeyedPeriodic _ p id _ _ => 0 <= p /\ event_id_ok r id
  | CallQuery _ id _ _ => query_id_ok r id
  | CallCancel _ | CallHalt | CallTearDown => True
  | CallInject _ it => inj_item_ok r it
  end.

(** The effect of a call on the rest of the state: time stands still, flags
    are only added or raised. *)
Definition flags_grow (fl fl' : list bool) : Prop :=
  (length fl <= length fl')%nat /\
  forall k, EventKey.is_cancelled fl k = true -> EventKey.is_cancelled fl' k = true.

#[export] Instance flags_grow_preorder : PreOrder flags_grow.
Proof. split; [done|]. intros x y z [??] [??]. split; [lia|auto]. Qed.

Lemma flags_grow_new fl : flags_grow fl (fl ++ [false]).
Proof.
  split; [rewrite length_app; lia|]. unfold EventKey.is_cancelled. intros k.
  destruct (fl !! k) eqn:E; cbn; [|done]. by rewrite (lookup_app_l_Some _ _ _ _ E).
Qed.

Lemma flags_grow_cancel fl k : flags_grow fl (EventKey.cancel fl k).
Proof.
  split; [by rewrite EventKey.cancel_length|]. unfold EventKey.is_cancelled, EventKey.cancel.
  intros j. destruct (decide (j = k)) as [->|]; [|by rewrite list_lookup_insert_ne].
  destruct (fl !! k) eqn:E; cbn; [|done].
  rewrite list_lookup_insert_eq by (by eapply lookup_lt_Some). done.
Qed.

Lemma queued_ok_grow r fl fl' it : flags_grow fl fl' -> queued_ok r fl it -> queued_ok r fl' it.
Proof.
  intros [Hl _] [? ? Hk]. split; [done|done|]. intros k Hk'. specialize (Hk k Hk').
  unfold EventKey.live in *. lia.
Qed.

Lemma sched_ok_flags r s fl :
  flags_grow (flags s) fl -> sched_ok r s -> sched_ok r (with_flags fl s).
Proof.
  intros Hg [????]. split; cbn; try done. eapply Forall_impl; [done|].
  intros x. by apply queued_ok_grow.
Qed.

Lemma pq_insert_ok_forall {K V Q} `{OrdKey K} `{!StablePQ K V Q} (P : K * V -> Prop) k v (q q' : Q) :
  pq_ok q -> pq_insert k v q = Some q' -> Forall P (pq_view q) -> P (k, v) ->
  pq_ok q' /\ Forall P (pq_view q').
Proof.
  intros Hok Hi HP Hkv. destruct (pq_insert_ok k v q q' Hok Hi) as (Hok' & -> & _).
  split; [done|]. rewrite StableQueue.insert_Permutation. by constructor.
Qed.

Lemma queue_insert_ok {E} r s t o it res s' :
  sched_ok r s -> kltb (time s) t = true -> queued_ok r (flags s) it ->
  queue_insert (E := E) (t, o) it s = (res, s') -> sched_ok r s'.
Proof.
  intros [Hq Hi Hf Hit Hinj] Ht Hok. unfold queue_insert.
  destruct (pq_insert (t, o) it (scheduler_queue s)) as [q|] eqn:E'; intros; simplify_eq; [|done].
  destruct (pq_insert_ok_forall _ _ _ _ _ Hq E' Hf) as [Hq' Hf']; [done|].
  destruct (pq_insert_ok_forall _ _ _ _ _ Hq E' Hit) as [_ Hit']; [done|].
  by split.
Qed.

Lemma injector_insert_ok {E} r s o it res s' :
  sched_ok r s -> inj_item_ok r it ->
  injector_insert (E := E) o it s = (res, s') -> sched_ok r s'.
Proof.
  intros [Hq Hi Hf Hit Hinj] Hok. unfold injector_insert.
  destruct (pq_insert o it (injector_queue s)) as [q|] eqn:E'; intros; simplify_eq; [|done].
  destruct (pq_insert_ok_forall _ _ _ _ _ Hi E' Hinj) as [Hq' Hf']; [done|].
  by split.
Qed.

(** [checked_time] accepts exactly the deadlines in the strict future. *)
Lemma checked_time_inv dl s res s' :
  checked_time dl s = (res, s') -> s' = s /\
  match Deadline.into_time dl (time s) with
  | None => res = Panic
  | Some t => res = if kleb t (time s) then Fail InvalidScheduledTime else Val t
  end.
Proof.
  unfold checked_time, gets, liftO, throw. cbv [mbind eff_bind mret eff_ret].
  destruct (Deadline.into_time dl (time s)) as [t|]; cbn; [|naive_solver].
  destruct (kleb t (time s)); naive_solver.
Qed.

Lemma checked_time_ok dl s t s' :
  checked_time dl s = (Val t, s') -> s' = s /\ kltb (time s) t = true /\
  Deadline.into_time dl (time s) = Some t.
Proof.
  intros [-> H]%checked_time_inv. destruct (Deadline.into_time dl (time s)) as [t'|]; [|done].
  destruct (kleb t' (time s)) eqn:E; [done|]. simplify_eq. by rewrite kltb_spec.
Qed.

Lemma checked_insert_ok r dl s (f : T -> T * Z) it (res : Outcome SchedulingError unit) s' :
  sched_ok r s -> (forall t, (f t).1 = t) -> queued_ok r (flags s) it ->
  (t ← checked_time dl; queue_insert (f t) it) s = (res, s') -> sched_ok r s'.
Proof.
  intros Hs Hf Hit [(t & s1 & H1 & H2)|[(e & H1 & _)|[H1 _]]]%bind_inv.
  - apply checked_time_ok in H1 as (-> & Ht & _). destruct (f t) as [t' o] eqn:Eft.
    specialize (Hf t). rewrite Eft in Hf; cbn in Hf; subst. by eapply queue_insert_ok.
  - by apply checked_time_inv in H1 as [-> _].
  - by apply checked_time_inv in H1 as [-> _].
Qed.

Lemma checked_insert_exec r dl s o it :
  sched_ok r s -> queued_ok r (flags s) it ->
  sched_ok r (exec (t ← checked_time dl; queue_insert (t, o) it) s).
Proof.
  intros Hs Hit. unfold exec.
  destruct ((t ← checked_time dl; queue_insert (t, o) it) s) as [res s'] eqn:E; cbn.
  by eapply (checked_insert_ok r dl s (fun t => (t, o)) it res s').
Qed.

Lemma queued_event r fl id v : event_id_ok r id -> queued_ok r fl (QEvent (event_new id v)).
Proof. intros H. by split. Qed.

Lemma queued_with_period r fl e p :
  0 < p -> queued_ok r fl (QEvent e) -> queued_ok r fl (QEvent (with_period e p)).
Proof. intros Hp [? ? ?]. split; cbn; [done|naive_solver|done]. Qed.

Lemma queued_with_key r fl e k :
  EventKey.live fl k -> queued_ok r fl (QEvent e) -> queued_ok r fl (QEvent (with_key e k)).
Proof. intros Hk [? ? ?]. split; cbn; [done|done|naive_solver]. Qed.

Lemma new_key_exec s : with_flags (flags s ++ [false]) s = exec (new_key (E := SchedulingError)) s.
Proof. done. Qed.

(** Keyed scheduling: a fresh flag, then a checked insertion. *)
Lemma keyed_insert_exec r dl s o (mk : nat -> QueueItem) :
  sched_ok r s -> queued_ok r (flags s ++ [false]) (mk (length (flags s))) ->
  sched_ok r (exec (k ← new_key; t ← checked_time dl; queue_insert (t, o) (mk k);; mret k) s).
Proof.
  intros Hs Hit. set (s1 := with_flags (flags s ++ [false]) s).
  assert (sched_ok r s1) as Hs1 by (apply sched_ok_flags; [apply flags_grow_new|done]).
  change (exec _ s) with
    (exec (t ← checked_time dl; queue_insert (t, o) (mk (length (flags s)));;
           mret (M := Eff Sh SchedulingError) (length (flags s))) s1).
  pose proof (checked_insert_exec r dl s1 o _ Hs1 Hit) as H. unfold exec in *.
  cbv [mbind eff_bind] in *. destruct (checked_time dl s1) as [[t| |] s2]; cbn in *; try done.
  by destruct (queue_insert (t, o) _ s2) as [[[]| |] s3].
Qed.

Lemma query_insert_exec r dl s o id v :
  sched_ok r s -> query_id_ok r id -> sched_ok r (exec (schedule_query_from dl id v o) s).
Proof.
  intros Hs Hid. unfold exec, schedule_query_from. cbv [mbind eff_bind].
  destruct (checked_time dl s) as [[t| |] s1] eqn:E1; cbn.
  - apply checked_time_ok in E1 as (-> & Ht & _).
    destruct (queue_insert _ _ _) as [res s2] eqn:E2. cbn in E2.
    apply (queue_insert_ok r) in E2; [by destruct res| |done|].
    + destruct Hs; by split.
    + split; [by apply query_new_ok|done|done].
  - by apply checked_time_inv in E1 as [-> _].
  - by apply checked_time_inv in E1 as [-> _].
Qed.

Lemma exec_injector_insert {E} r s o it :
  sched_ok r s -> inj_item_ok r it -> sched_ok r (exec (injector_insert (E := E) o it) s).
Proof.
  intros Hs Hi. unfold exec. destruct (injector_insert o it s) as [res s'] eqn:E'.
  by eapply injector_insert_ok.
Qed.

(** Every call preserves the invariant. *)
Lemma call_preserves r s c :
  sched_ok r s -> call_ok r (flags s) c -> sched_ok r (exec (call c) s).
Proof.
  intros Hs. destruct c; cbn [call call_ok]; rewrite ?exec_bind_ret.
  - by apply checked_insert_exec.
  - intros Hid. apply checked_insert_exec; [done|]. by apply queued_event.
  - intros Hid. apply (keyed_insert_exec r dl s origin (fun k => QEvent (with_key (event_new id arg) k)));
      [done|]. apply queued_with_key; [|by apply queued_event].
    unfold EventKey.live. rewrite length_app; cbn; lia.
  - intros [Hp Hid]. unfold schedule_periodic_event_from. destruct (Z.eqb_spec p 0); [done|].
    apply checked_insert_exec; [done|]. apply queued_with_period; [lia|by apply queued_event].
  - intros [Hp Hid]. unfold schedule_keyed_periodic_event_from. destruct (Z.eqb_spec p 0); [done|].
    apply (keyed_insert_exec r dl s origin
             (fun k => QEvent (with_key (with_period (event_new id arg) p) k))); [done|].
    apply queued_with_key; [unfold EventKey.live; rewrite length_app; cbn; lia|].
    apply queued_with_period; [lia|by apply queued_event].
  - intros Hid. by apply query_insert_exec.
  - intros _. apply sched_ok_flags; [apply flags_grow_cancel|done].
  - by apply exec_injector_insert.
  - intros _. by destruct Hs.
  - intros _. by destruct Hs.
Qed.

(** What a call never does: move time, lower a cancellation flag, revive a
    terminated simulation, or remove a scheduled item. *)
Record frame s s' : Prop := {
  fr_time : time s' = time s;
  fr_flags : flags_grow (flags s) (flags s');
  fr_terminated : is_terminated s = true -> is_terminated s' = true;
  fr_queue : pq_ok (scheduler_queue s) ->
             pq_ok (scheduler_queue s') /\ exists l, view s' ≡ₚ l ++ view s }.

#[export] Instance frame_preorder : PreOrder frame.
Proof.
  split.
  - intros s. split; [done|done|done|]. intros; split; [done|by exists []].
  - intros x y z [? ? ? H1] [? ? ? H2]. split; [congruence|by etransitivity|auto|].
    intros Hx. destruct (H1 Hx) as [Hy [l1 Hl1]]. destruct (H2 Hy) as [Hz [l2 Hl2]].
    split; [done|]. exists (l2 ++ l1). by rewrite Hl2, Hl1, app_assoc.
Qed.

Lemma frame_queue_insert {E} k it : respects (E := E) frame (queue_insert k it).
Proof.
  intros s res s'. unfold queue_insert. destruct (pq_insert _ _ _) as [q|] eqn:E'; cbn;
    intros; simplify_eq; [|done]. split; cbn; [done|done|done|]. intros Hok.
  destruct (pq_insert_ok _ _ _ _ Hok E') as (Hok' & Hv & _). split; [done|].
  exists [(k, it)]. unfold view; cbn. rewrite Hv. apply StableQueue.insert_Permutation.
Qed.

Lemma frame_injector_insert {E} o it : respects (E := E) frame (injector_insert o it).
Proof.
  intros s res s'. unfold injector_insert. destruct (pq_insert _ _ _) as [q|] eqn:E'; cbn;
    intros; simplify_eq; [|done]. split; cbn; [done|done|done|]. intros Hok.
  split; [done|by exists []].
Qed.

Lemma frame_checked_time dl : respects frame (checked_time dl).
Proof. intros s res s' [-> _]%checked_time_inv. done. Qed.

Lemma frame_new_key {E} : respects (E := E) frame new_key.
Proof.
  intros s res s'. unfold new_key; cbn. intros; simplify_eq. split; cbn; [done| |done|].
  - apply flags_grow_new.
  - intros Hok. split; [done|by exists []].
Qed.

Lemma frame_new_channel {E} : respects (E := E) frame new_channel.
Proof.
  intros s res s'. unfold new_channel; cbn. intros; simplify_eq. split; cbn; [done|done|done|].
  intros Hok. split; [done|by exists []].
Qed.

Local Hint Resolve frame_queue_insert frame_injector_insert frame_checked_time frame_new_key
  frame_new_channel : eff.

Ltac frame_tac := repeat first
  [ solve [auto with eff typeclass_instances] | apply respects_bind; [apply _| |intros ?] ].

Lemma call_frame c s : frame s (exec (call c) s).
Proof.
  assert (respects frame (call c)) as H.
  { destruct c; cbn [call];
      unfold schedule_from, schedule_event_from, schedule_keyed_event_from,
        schedule_periodic_event_from, schedule_keyed_periodic_event_from, schedule_query_from;
      repeat case_match; frame_tac; apply respects_modify; intros s0; split; cbn; try done;
      try (intros Hok; split; [done|by exists []]). apply flags_grow_cancel. }
  unfold exec. destruct (call c s) as [res s'] eqn:E. by eapply H.
Qed.

Lemma run_calls_frame cs s : frame s (run_calls cs s).
Proof.
  unfold run_calls. revert s; induction cs as [|c cs IH]; intros s; cbn; [done|].
  etransitivity; [apply call_frame|apply IH].
Qed.

Lemma call_ok_grow r fl fl' c : flags_grow fl fl' -> call_ok r fl c -> call_ok r fl' c.
Proof. intros Hg. destruct c; cbn; try done. by apply queued_ok_grow. Qed.

Lemma run_calls_preserves r cs s :
  sched_ok r s -> Forall (call_ok r (flags s)) cs -> sched_ok r (run_calls cs s).
Proof.
  unfold run_calls. revert s; induction cs as [|c cs IH]; intros s Hs Hcs; cbn; [done|].
  apply Forall_cons in Hcs as [Hc Hcs]. apply IH; [by apply call_preserves|].
  eapply Forall_impl; [done|]. intros c'. apply call_ok_grow. apply (call_frame c s).
Qed.
(** Whatever is called, and with whatever arguments: the items that calls add to
    the queue are later than the time at which they are made. *)
Record adds s s' : Prop := {
  ad_time : time s' = time s;
  ad_queue : pq_ok (scheduler_queue s) -> pq_ok (scheduler_queue s') /\
    exists l, view s' ≡ₚ l ++ view s /\ Forall (fun e => kltb (time s) e.1.1 = true) l }.

#[export] Instance adds_preorder : PreOrder adds.
Proof.
  split.
  - intros s. split; [done|]. intros; split; [done|by exists []].
  - intros x y z [Ht1 H1] [Ht2 H2]. split; [congruence|]. intros Hx.
    destruct (H1 Hx) as (Hy & l1 & Hl1 & F1). destruct (H2 Hy) as (Hz & l2 & Hl2 & F2). split; [done|].
    exists (l2 ++ l1). split; [by rewrite Hl2, Hl1, app_assoc|]. rewrite Ht1 in F2. by apply Forall_app.
Qed.

Lemma adds_same s s' : scheduler_queue s' = scheduler_queue s -> time s' = time s -> adds s s'.
Proof. intros Hq Ht. split; [done|]. unfold view. rewrite Hq. intros; split; [done|by exists []]. Qed.

Lemma adds_queue_insert {E} k it s res s' :
  kltb (time s) k.1 = true -> queue_insert (E := E) k it s = (res, s') -> adds s s'.
Proof.
  intros Hk. unfold queue_insert. destruct (pq_insert _ _ _) as [q|] eqn:E'; cbn; intros; simplify_eq; [|done].
  split; [done|]. intros Hok. destruct (pq_insert_ok _ _ _ _ Hok E') as (Hok' & Hv & _). split; [done|].
  exists [(k, it)]. split; [|by constructor]. unfold view; cbn. rewrite Hv. apply StableQueue.insert_Permutation.
Qed.

(** A computation that starts with a checked deadline. *)
Lemma adds_checked {A} dl (f : T -> Eff Sh SchedulingError A) :
  (forall t s res s', kltb (time s) t = true -> f t s = (res, s') -> adds s s') ->
  respects adds (t ← checked_time dl; f t).
Proof.
  intros Hf s res s' [(t & s1 & H1 & H2)|[(e & H1 & _)|[H1 _]]]%bind_inv.
  - apply checked_time_ok in H1 as (-> & Ht & _). by eapply Hf.
  - by apply checked_time_inv in H1 as [-> _].
  - by apply checked_time_inv in H1 as [-> _].
Qed.

Lemma adds_insert_then {A} k it (f : Eff Sh SchedulingError A) s res s' :
  respects adds f -> kltb (time s) k.1 = true -> (queue_insert k it;; f) s = (res, s') -> adds s s'.
Proof.
  intros Hf Hk [([] & s1 & H1 & H2)|[(e & H1 & _)|[H1 _]]]%bind_inv; apply adds_queue_insert in H1; try done.
  etransitivity; [exact H1|by eapply Hf].
Qed.

Lemma adds_schedule_from dl it o : respects adds (schedule_from dl it o).
Proof. apply adds_checked. intros t s res s' Ht. by apply adds_queue_insert. Qed.

Lemma adds_keyed dl o (mk : nat -> QueueItem) :
  respects adds (k ← new_key; t ← checked_time dl; queue_insert (t, o) (mk k);; mret k).
Proof.
  apply respects_bind; [apply _| |].
  - intros s res s' H. unfold new_key in H. cbn in H. simplify_eq. by apply adds_same.
  - intros k. apply adds_checked. intros t s res s' Ht. apply adds_insert_then; [apply respects_ret; apply _|done].
Qed.

Lemma adds_query dl id v o : respects adds (schedule_query_from dl id v o).
Proof.
  unfold schedule_query_from. apply adds_checked. intros t s res s' Ht H.
  apply bind_inv in H as [(n & s1 & H1 & H2)|[(e & H1 & _)|[H1 _]]]; unfold new_channel in H1; cbn in H1; simplify_eq.
  etransitivity; [|eapply adds_insert_then; [apply respects_ret; apply _| |exact H2]; done]. by apply adds_same.
Qed.

Lemma respects_then_ret {A} (f : Eff Sh SchedulingError A) : respects adds f -> respects adds (f;; mret tt).
Proof. intros H. apply respects_bind; [apply _|done|]. intros _. apply respects_ret; apply _. Qed.

Lemma call_adds c s : adds s (exec (call c) s).
Proof.
  assert (respects adds (call c)) as H.
  { destruct c; cbn [call].
    - apply adds_schedule_from.
    - apply adds_schedule_from.
    - apply respects_then_ret, (adds_keyed dl origin (fun k => QEvent (with_key (event_new id arg) k))).
    - unfold schedule_periodic_event_from. case_match; [apply respects_throw; apply _|]. apply adds_schedule_from.
    - apply respects_then_ret. unfold schedule_keyed_periodic_event_from. case_match; [apply respects_throw; apply _|].
      apply (adds_keyed dl origin (fun k => QEvent (with_key (with_period (event_new id arg) p) k))).
    - apply respects_then_ret, adds_query.
    - apply respects_modify. intros s0. by apply adds_same.
    - intros s0 res s'. unfold injector_insert. destruct (pq_insert _ _ _); cbn; intros; simplify_eq; by apply adds_same.
    - apply respects_modify. intros s0. by apply adds_same.
    - apply respects_modify. intros s0. by apply adds_same. }
  unfold exec. destruct (call c s) as [res s'] eqn:E. by eapply H.
Qed.

Lemma run_calls_adds cs s : adds s (run_calls cs s).
Proof.
  unfold run_calls. revert s; induction cs as [|c cs IH]; intros s; cbn; [done|].
  etransitivity; [apply call_adds|apply IH].
Qed.
End Invariant.
