(* ===== verification/Simulation.v ===== *)
(** * The simulation kernel: [simulation.rs]

    The state of [Simulation] is a record whose part shared with schedulers and
    injectors is [Shared].  The executor together with the models it runs, the
    clock and the ticker are seen through the interface [Host]: running the
    executor (or blocking on the clock) changes the shared state only through
    the calls of the scheduling API made by models and other threads meanwhile.

    [step_to_next] peeks, advances time and spawns the due items while it holds
    the mutex of the scheduler queue, so this part is one atomic transition. *)

From S2P Require Import Prelude Path Errors Time PriorityQueue QueueItems Effects Scheduler.
From S2P Require Import SchedulerFacts.
Import Items.
Local Open Scope Z_scope.

(** What is handed over to the executor: a [SeqFuture] merging the futures of
    one origin, or a single future. *)
Inductive Task `{Lang} : Type :=
  | SeqTask (futures : list Fut)
  | OneTask (fut : Fut).

(** [RegisteredModel]: the path and the address of a model; its two closures
    send requests to that address. *)
Record RegisteredModel : Type := mkRegistered { rm_path : Path.Path; rm_address : nat }.

Class Host `{L : Lang} (T SQ IQ X C Tk : Type) := {
  ex_spawn : X -> Task -> X;
  (** [Executor::run] from a given shared state, with the calls made meanwhile. *)
  ex_run : X -> Shared T SQ IQ -> Z -> X * list (ApiCall T) * Result unit ExecutorError;
  (** [ChannelObserver::len]. *)
  ex_mailbox_len : X -> nat -> Z;
  (** The replies received on a reply channel. *)
  ex_reply : X -> nat -> option (list Value);
  (** [Clock::synchronize], with the calls made by other threads while it blocks. *)
  clock_synchronize : C -> Shared T SQ IQ -> T -> C * list (ApiCall T) * Clock.SyncStatus;
  (** [Ticker::next_tick]; [None] is a panic. *)
  tick_next : Tk -> T -> option (T * Tk);
  (** The calls other threads make after [step_to_next] has released the mutex
      of the scheduler queue without finding any item, and before
      [step_until_unchecked] moves time to its target. *)
  ex_window : X -> Shared T SQ IQ -> list (ApiCall T) }.

Section Simulation.
Context `{L : Lang} {T : Type} `{MT : MonoTime T}.
Context {SQ IQ : Type} `{SPQ : !StablePQ (T * Z) QueueItem SQ} `{IPQ : !StablePQ Z InjectorItem IQ}.
Context {X C Tk : Type} `{HO : !Host T SQ IQ X C Tk}.

Record Simulation : Type := mkSim {
  executor : X;
  shared : Shared T SQ IQ;
  scheduler_registry : SchedulerRegistry;
  clock : C;
  clock_tolerance : option Z;
  ticker : option Tk;
  timeout : Z;
  observers : list (Path.Path * nat);
  registered_models : list RegisteredModel }.

Notation Sim := (Eff Simulation (ExecutionError T)).

Definition with_shared (s : Shared T SQ IQ) (m : Simulation) : Simulation :=
  mkSim (executor m) s (scheduler_registry m) (clock m) (clock_tolerance m) (ticker m)
    (timeout m) (observers m) (registered_models m).
Definition with_executor (x : X) (m : Simulation) : Simulation :=
  mkSim x (shared m) (scheduler_registry m) (clock m) (clock_tolerance m) (ticker m)
    (timeout m) (observers m) (registered_models m).
Definition set_clock (c : C) (m : Simulation) : Simulation :=
  mkSim (executor m) (shared m) (scheduler_registry m) c (clock_tolerance m) (ticker m)
    (timeout m) (observers m) (registered_models m).
Definition set_ticker (k : option Tk) (m : Simulation) : Simulation :=
  mkSim (executor m) (shared m) (scheduler_registry m) (clock m) (clock_tolerance m) k
    (timeout m) (observers m) (registered_models m).

(** Computations on the shared part. *)
Definition on_shared {A} (e : Eff (Shared T SQ IQ) (ExecutionError T) A) : Sim A := fun m =>
  let '(r, s) := e (shared m) in (r, with_shared s m).

Definition modify_shared (f : Shared T SQ IQ -> Shared T SQ IQ) : Sim unit :=
  modify (fun m => with_shared (f (shared m)) m).

Definition spawn_and_forget (t : Task) : Sim unit :=
  modify (fun m => with_executor (ex_spawn (executor m) t) m).

(** [with_clock], [with_tickless_clock], [with_timeout], [time]. *)
Definition with_clock (c : C) (k : Tk) (m : Simulation) : Simulation :=
  set_ticker (Some k) (set_clock c m).
Definition with_tickless_clock (c : C) (m : Simulation) : Simulation :=
  set_ticker None (set_clock c m).
Definition with_timeout (d : Z) (m : Simulation) : Simulation :=
  mkSim (executor m) (shared m) (scheduler_registry m) (clock m) (clock_tolerance m) (ticker m)
    d (observers m) (registered_models m).
Definition sim_time (m : Simulation) : T := time (shared m).

(** *** The halt flag *)
Definition take_halt_flag : Sim unit :=
  halted ← gets (fun m => is_halted (shared m));
  if (halted : bool) then modify_shared (with_halted false);; throw Halted else mret tt.

(** *** Running the executor *)
Definition deadlock_info (m : Simulation) : list DeadlockInfo :=
  foldr (fun o acc =>
           let mailbox_size := ex_mailbox_len (executor m) o.2 in
           if mailbox_size =? 0 then acc else mkDeadlockInfo o.1 mailbox_size :: acc)
    [] (observers m).

Definition execution_error (m : Simulation) (e : ExecutorError) : Outcome (ExecutionError T) unit :=
  match e with
  | UnprocessedMessages msg_count =>
      match deadlock_info m with
      | [] => Fail (MessageLoss msg_count)
      | info => Fail (Deadlock info)
      end
  | ExecTimeout => Fail Timeout
  | ExecPanic model_id payload =>
      model ← match ModelId.get model_id with
              | None => Val None
              | Some id => p ← unwrap (registered_models m !! Z.to_nat id); Val (Some (rm_path p))
              end;
      if decide (any_type payload = send_error_type) then Fail (NoRecipient model)
      else match model with
           | Some model => Fail (ModelPanic model payload)
           | None => Panic
           end
  end.

Definition run_executor : Sim unit := fun m =>
  if is_terminated (shared m) then (Fail Terminated, m)
  else
    let '(x, calls, res) := ex_run (executor m) (shared m) (timeout m) in
    let m1 := with_executor x (with_shared (run_calls calls (shared m)) m) in
    match res with
    | Ok _ => (Val tt, m1)
    | Err e =>
        let m2 := with_shared (with_terminated true (shared m1)) m1 in
        (execution_error m2 e, m2)
    end.

(** *** Clock synchronization *)
Definition synchronize (deadline : T) : Sim unit := fun m =>
  let '(c, calls, status) := clock_synchronize (clock m) (shared m) deadline in
  let m1 := set_clock c (with_shared (run_calls calls (shared m)) m) in
  match status, clock_tolerance m with
  | Clock.OutOfSync lag, Some tolerance =>
      if tolerance <? lag
      then (Fail (OutOfSyncError lag), with_shared (with_terminated true (shared m1)) m1)
      else (Val tt, m1)
  | _, _ => (Val tt, m1)
  end.

(** *** Processing a future, an event or a query at the current time *)
Definition process_future (fut : Fut) : Sim unit :=
  take_halt_flag;;
  spawn_and_forget (OneTask fut);;
  run_executor.

(** [process_event_erased] takes an argument that is already boxed. *)
Definition process_event_erased (id : Z) (arg : Any) : Sim unit :=
  r ← gets scheduler_registry;
  source ← liftO (ok_or (InvalidEventId id) (get_event_source r id));
  fut ← liftO (future_owned source arg None);
  process_future fut.

Definition process_event (id : EventId) (arg : Value) : Sim unit :=
  r ← gets scheduler_registry;
  source ← liftO (ok_or (InvalidEventId (eid id)) (get_event_source r (eid id)));
  fut ← liftO (future_owned source (mkAny (eid_type id) arg) None);
  process_future fut.

Definition process_query (id : QueryId) (arg : Value) : Sim Value :=
  chan ← on_shared new_channel;
  r ← gets scheduler_registry;
  source ← liftO (ok_or (InvalidQueryId (qid id)) (get_query_source r (qid id)));
  fut ← liftO (query_future source (mkAny (qid_type id) arg) (Some (mkWriter (qid_reply id) chan)));
  process_future fut;;
  x ← gets executor;
  replies ← liftO (unwrap (ex_reply x chan));
  liftO (unwrap (head replies)).

Definition process_query_erased (id : QueryId) (arg : Any) : Sim ReplyReader :=
  r ← gets scheduler_registry;
  source ← liftO (ok_or (InvalidQueryId (qid id)) (get_query_source r (qid id)));
  chan ← on_shared new_channel;
  fut ← liftO (query_future source arg (Some (mkWriter (qid_reply id) chan)));
  process_future fut;;
  mret chan.

(** *** The scheduler queue *)

(** [peek_next_key] discards the cancelled events it meets; each iteration
    but the last removes an item, so the length of the queue bounds them. *)
Fixpoint peek_next_key_loop (fuel : nat) (upper_time_bound : T) (fl : list bool) (q : SQ) :
    option (T * Z) * SQ :=
  match pq_peek q with
  | Some (key, item) =>
      if kleb key.1 upper_time_bound then
        match item with
        | QEvent event =>
            if event_is_cancelled fl event then
              match fuel, pq_pull q with
              | S fuel, Some (_, q') => peek_next_key_loop fuel upper_time_bound fl q'
              | _, _ => (None, q)
              end
            else (Some key, q)
        | QQuery _ => (Some key, q)
        end
      else (None, q)
  | None => (None, q)
  end.
Definition peek_next_key (upper_time_bound : T) : Sim (option (T * Z)) := fun m =>
  let s := shared m in
  let '(k, q) := peek_next_key_loop (length (view s)) upper_time_bound (flags s) (scheduler_queue s) in
  (Val k, with_shared (with_scheduler_queue q s) m).

(** [scheduler_queue.pull().unwrap()] and [scheduler_queue.insert]. *)
Definition queue_pull_unwrap : Sim ((T * Z) * QueueItem) := fun m =>
  match pq_pull (scheduler_queue (shared m)) with
  | Some (x, q) => (Val x, with_shared (with_scheduler_queue q (shared m)) m)
  | None => (Panic, m)
  end.

(** The future of the item pulled with key [(time, origin_id)]; a periodic
    event is put back in the queue. *)
Definition take_item (time : T) (origin_id : Z) (item : QueueItem) : Sim Fut :=
  r ← gets scheduler_registry;
  match item with
  | QEvent event =>
      source ← liftO (ok_or (InvalidEventId (event_id event)) (get_event_source r (event_id event)));
      match period event with
      | Some period =>
          fut ← liftO (future_borrowed source (event_arg event) (key event));
          t ← liftO (unwrap (mt_add time period));
          on_shared (queue_insert (t, origin_id) (QEvent event));;
          mret fut
      | None => liftO (future_owned source (event_arg event) (key event))
      end
  | QQuery query =>
      source ← liftO (ok_or (InvalidQueryId (query_id query)) (get_query_source r (query_id query)));
      liftO (query_future source (query_arg query) (replier query))
  end.

(** The inner loop of [handle_scheduler_step]: all items with the same key
    are merged. *)
Fixpoint merge_loop (fuel : nat) (next_key : option (T * Z)) (event_seq : list Fut) :
    Sim (list Fut * option (T * Z)) :=
  match fuel with
  | O => panic
  | S fuel =>
      '(time, origin_id, item) ← queue_pull_unwrap;
      fut ← take_item time origin_id item;
      let event_seq := event_seq ++ [fut] in
      key ← peek_next_key time;
      if decide (key = next_key) then merge_loop fuel next_key event_seq
      else mret (event_seq, key)
  end.

Fixpoint spawn_loop (fuel : nat) (next_key : option (T * Z)) : Sim unit :=
  match next_key with
  | None => mret tt
  | Some _ =>
      match fuel with
      | O => panic
      | S fuel =>
          n ← gets (fun m => length (view (shared m)));
          '(event_seq, key) ← merge_loop n next_key [];
          spawn_and_forget (SeqTask event_seq);;
          spawn_loop fuel key
      end
  end.

Definition handle_scheduler_step (next_key : option (T * Z)) (time : T) : Sim bool :=
  match next_key with
  | Some (t, _) =>
      if keqb t time then
        n ← gets (fun m => length (view (shared m)));
        spawn_loop n next_key;;
        mret true
      else mret false
  | None => mret false
  end.

(** *** The injector queue *)
Definition injector_pull : Sim (option (Z * InjectorItem)) := fun m =>
  match pq_pull (injector_queue (shared m)) with
  | Some (x, q) => (Val (Some x), with_shared (with_injector_queue q (shared m)) m)
  | None => (Val None, m)
  end.

Definition injector_future (item : InjectorItem) : Sim Fut :=
  r ← gets scheduler_registry;
  match item with
  | InjEvent event =>
      source ← liftO (ok_or (InvalidEventId (event_id event)) (get_event_source r (event_id event)));
      liftO (future_owned source (event_arg event) (key event))
  | InjQuery query =>
      source ← liftO (ok_or (InvalidQueryId (query_id query)) (get_query_source r (query_id query)));
      liftO (query_future source (query_arg query) (replier query))
  | InjFuture fut => mret fut
  end.

Fixpoint injector_loop (fuel : nat) (origin_id : Z) (event_seq : list Fut) : Sim (list Fut) :=
  match fuel with
  | O => panic
  | S fuel =>
      o ← injector_pull;
      match o with
      | None => mret event_seq
      | Some (id, item) =>
          fut ← injector_future item;
          if id =? origin_id then injector_loop fuel origin_id (event_seq ++ [fut])
          else
            spawn_and_forget (SeqTask event_seq);;
            injector_loop fuel id [fut]
      end
  end.

Definition handle_injector_step : Sim bool :=
  q ← gets (fun m => injector_queue (shared m));
  match pq_peek q with
  | None => mret false
  | Some (origin_id, _) =>
      event_seq ← injector_loop (S (length (pq_view q))) origin_id [];
      spawn_and_forget (SeqTask event_seq);;
      mret true
  end.

(** *** Stepping *)
(** The next tick, if it does not exceed the bound; the ticker is updated in
    any case. *)
Definition next_tick (upper_time_bound : T) : Sim (option T) := fun m =>
  match ticker m with
  | None => (Val None, m)
  | Some k =>
      match tick_next k (time (shared m)) with
      | None => (Panic, m)
      | Some (tick, k') =>
          (Val (if kleb tick upper_time_bound then Some tick else None), set_ticker (Some k') m)
      end
  end.

Definition next_time (next_key : option (T * Z)) (next_tick : option T) : option T :=
  match next_key, next_tick with
  | Some key, Some tick => Some (if kleb tick key.1 then tick else key.1)
  | Some key, None => Some key.1
  | None, Some tick => Some tick
  | None, None => None
  end.

Definition step_to_next (upper_time_bound : option T) : Sim (option T) :=
  take_halt_flag;;
  terminated ← gets (fun m => is_terminated (shared m));
  if (terminated : bool) then throw Terminated else
  let upper_time_bound := default mt_max upper_time_bound in
  tick ← next_tick upper_time_bound;
  next_key ← peek_next_key upper_time_bound;
  match next_time next_key tick with
  | None => mret None
  | Some time =>
      modify_shared (with_time time);;
      has_events ← handle_scheduler_step next_key time;
      has_injected ← handle_injector_step;
      synchronize time;;
      (if (has_events : bool) || (has_injected : bool) then run_executor else mret tt);;
      mret (Some time)
  end.

Definition step : Sim unit := step_to_next None;; mret tt.

(** [step_until_unchecked] loops; [None] means that the fuel is exhausted. *)
Fixpoint step_until_unchecked (fuel : nat) (target_time : option T) (m : Simulation) :
    option (Outcome (ExecutionError T) unit * Simulation) :=
  match fuel with
  | O => None
  | S fuel =>
      match step_to_next target_time m with
      | (Val time, m1) =>
          if decide (time = target_time) then Some (Val tt, m1)
          else match time with
               | None =>
                   match target_time with
                   | Some target_time =>
                       let window := ex_window (executor m1) (shared m1) in
                       Some ((modify_shared (run_calls window);;
                              modify_shared (with_time target_time);;
                              synchronize target_time) m1)
                   | None => Some (Val tt, m1)
                   end
               | Some _ => step_until_unchecked fuel target_time m1
               end
      | (Fail e, m1) => Some (Fail e, m1)
      | (Panic, m1) => Some (Panic, m1)
      end
  end.

Definition step_until (fuel : nat) (deadline : Deadline.deadline T) (m : Simulation) :
    option (Outcome (ExecutionError T) unit * Simulation) :=
  let now := time (shared m) in
  match Deadline.into_time deadline now with
  | None => Some (Panic, m)
  | Some target_time =>
      if kltb target_time now then Some (Fail (InvalidDeadline target_time), m)
      else step_until_unchecked fuel (Some target_time) m
  end.

Definition run (fuel : nat) (m : Simulation) :
    option (Outcome (ExecutionError T) unit * Simulation) :=
  step_until_unchecked fuel None m.
End Simulation.
Arguments Simulation {_} T SQ IQ X C Tk.
