(* ===== verification/StepFacts.v ===== *)
(** * One simulation step: which items are spawned, in which order

    [peek_next_key], [merge_loop] and [spawn_loop] are related with pure
    functions on the sorted view of the scheduler queue: the due items that are
    not cancelled are handed over to the executor, one task per origin, and the
    periodic ones are re-inserted one period later. *)

From S2P Require Import Prelude Path Errors Time PriorityQueue QueueItems Effects Scheduler.
From S2P Require Import SchedulerFacts Simulation.
Import Items.
Local Open Scope Z_scope.

(** ** Grouping

    Items by key, for a list in which equal keys are adjacent. *)
Section Group.
Context {K V : Type} `{EqDecision K}.
Implicit Types (k : K) (v : V) (l : list (K * V)).

Fixpoint group l : list (K * list V) :=
  match l with
  | [] => []
  | (k, v) :: l' =>
      match group l' with
      | (k', vs) :: gs =>
          if decide (k = k') then (k, v :: vs) :: gs else (k, [v]) :: (k', vs) :: gs
      | [] => [(k, [v])]
      end
  end.

Fixpoint take_key k l : list V :=
  match l with
  | (k', v) :: l' => if decide (k' = k) then v :: take_key k l' else []
  | [] => []
  end.
Fixpoint drop_key k l : list (K * V) :=
  match l with
  | (k', v) :: l' => if decide (k' = k) then drop_key k l' else l
  | [] => []
  end.

Lemma group_cons k v l : group ((k, v) :: l) = (k, v :: take_key k l) :: group (drop_key k l).
Proof.
  revert k v; induction l as [|[k' v'] l IH]; intros k v; [done|].
  change (group ((k, v) :: (k', v') :: l)) with
    (match group ((k', v') :: l) with
     | (k2, vs) :: gs => if decide (k = k2) then (k, v :: vs) :: gs
                          else (k, [v]) :: (k2, vs) :: gs
     | [] => [(k, [v])] end).
  cbn [take_key drop_key]. rewrite (IH k' v').
  destruct (decide (k = k')) as [->|Hne].
  - by rewrite !decide_True by done.
  - rewrite !decide_False by done. by rewrite IH.
Qed.

(** Nothing is lost or reordered. *)
Lemma group_concat l : mjoin ((fun g : K * list V => (fun v => (g.1, v)) <$> g.2) <$> group l) = l.
Proof.
  induction l as [|[k v] l IH]; [done|]. cbn [group].
  destruct (group l) as [|[k' vs] gs]; [by rewrite <- IH|].
  destruct (decide (k = k')) as [->|]; rewrite <- IH; done.
Qed.

(** Adjacent groups have different keys. *)
Lemma group_keys_cons k v l : exists vs gs, group ((k, v) :: l) = (k, v :: vs) :: gs.
Proof. rewrite group_cons. eauto. Qed.
End Group.

(** In a list sorted by key each key has a single group. *)
Lemma group_sorted_NoDup {K V} `{OrdKey K} (l : list (K * V)) :
  StronglySorted (fun p q => kleb p.1 q.1 = true) l ->
  StronglySorted (fun k k' => kltb k k' = true) (group l).*1 /\
  Forall (fun g => exists v, (g.1, v) ∈ l) (group l).
Proof.
  induction 1 as [|[k v] l Hs [IH Hin] Hall]; [by split; constructor|]. cbn [group].
  destruct (group l) as [|[k' vs] gs] eqn:E.
  { split; [by repeat constructor|]. constructor; [exists v; by left|done]. }
  cbn in IH. apply StronglySorted_inv in IH as [IH Hlt].
  apply Forall_cons in Hin as [[v' Hv'] Hin]. cbn in Hv'.
  assert (Forall (fun g : K * list V => exists w, (g.1, w) ∈ (k, v) :: l) gs) as Hin'.
  { eapply Forall_impl; [exact Hin|]. intros g [w ?]. exists w. by right. }
  destruct (decide (k = k')) as [->|Hne]; cbn.
  - split; [by constructor|]. constructor; [exists v; by left|done].
  - assert (kltb k k' = true) as Hk.
    { rewrite Forall_forall in Hall. specialize (Hall _ Hv'). cbn in Hall.
      rewrite kltb_spec. destruct (kleb k' k) eqn:E2; [|done]. by destruct Hne; apply kleb_antisym. }
    split.
    + constructor; [by constructor|]. constructor; [done|].
      eapply Forall_impl; [exact Hlt|]. intros k2. by apply kltb_trans.
    + constructor; [exists v; by left|]. constructor; [exists v'; by right|done].
Qed.

(** ** The specification, on views *)
Section Spec.
Context `{L : Lang} {T : Type} `{MT : MonoTime T}.
Notation entry := ((T * Z) * QueueItem)%type.
Implicit Types (l due rest : list entry) (fl : list bool) (it : QueueItem).

Definition cancelled fl it : bool :=
  match it with QEvent e => event_is_cancelled fl e | QQuery _ => false end.

Fixpoint drop_cancelled (ub : T) fl l : list entry :=
  match l with
  | (k, it) :: l' => if kleb k.1 ub && cancelled fl it then drop_cancelled ub fl l' else l
  | [] => []
  end.

Definition head_key (ub : T) l : option (T * Z) :=
  match l with (k, _) :: _ => if kleb k.1 ub then Some k else None | [] => None end.

Definition live fl l : list entry := filter (fun x => cancelled fl x.2 = false) l.

(** A periodic event goes back one period later. *)
Definition reinsert l (x : entry) : list entry :=
  match item_period x.2 with
  | Some p => match mt_add x.1.1 p with
              | Some t => StableQueue.insert (t, x.1.2) x.2 l
              | None => l
              end
  | None => l
  end.

Lemma insert_later (k : T * Z) it due rest :
  Forall (fun x => kltb x.1.1 k.1 = true) due ->
  StableQueue.insert k it (due ++ rest) = due ++ StableQueue.insert k it rest.
Proof.
  induction 1 as [|[k' it'] due Hk _ IH]; [done|]. cbn in *.
  replace (pair_leb k' k) with true; [by rewrite IH|].
  symmetry. apply pair_leb_spec. by left.
Qed.

Lemma reinsert_later k it due rest :
  (forall p, item_period it = Some p -> 0 < p) -> Forall (fun x => x.1.1 = k.1) due ->
  reinsert (due ++ rest) (k, it) = due ++ reinsert rest (k, it).
Proof.
  intros Hp Hdue. unfold reinsert; cbn. destruct (item_period it) as [p|] eqn:E; [|done].
  destruct (mt_add k.1 p) as [t'|] eqn:Ht; [|done]. apply insert_later; cbn.
  eapply Forall_impl; [exact Hdue|]. intros x ->. by apply (mt_add_later _ p); [apply Hp|].
Qed.

(** Re-inserted items stay strictly later than the current time. *)
Lemma reinsert_future t k it rest :
  k.1 = t -> (forall p, item_period it = Some p -> 0 < p) ->
  Forall (fun x => kltb t x.1.1 = true) rest ->
  Forall (fun x => kltb t x.1.1 = true) (reinsert rest (k, it)).
Proof.
  intros <- Hp Hr. unfold reinsert; cbn. destruct (item_period it) as [p|] eqn:E; [|done].
  destruct (mt_add k.1 p) as [t'|] eqn:Ht; [|done].
  rewrite StableQueue.insert_Permutation. constructor; [|done]. cbn.
  by apply (mt_add_later _ p); [apply Hp|].
Qed.

Lemma drop_cancelled_due t fl due rest :
  Forall (fun x => x.1.1 = t) due -> Forall (fun x => kltb t x.1.1 = true) rest ->
  exists due', drop_cancelled t fl (due ++ rest) = due' ++ rest /\ live fl due' = live fl due /\
    due' `suffix_of` due /\ (forall x, head due' = Some x -> cancelled fl x.2 = false) /\
    head_key t (due' ++ rest) = fst <$> head due'.
Proof.
  intros Hdue Hrest. induction Hdue as [|[k it] due Hk Hdue IH].
  - exists []. split_and!; [|done|done|done|].
    + destruct rest as [|[k it] rest]; [done|]. cbn.
      apply Forall_cons in Hrest as [Hk _]. cbn in Hk. rewrite kltb_spec in Hk. by rewrite Hk.
    + destruct rest as [|[k it] rest]; [done|]. cbn.
      apply Forall_cons in Hrest as [Hk _]. cbn in Hk. rewrite kltb_spec in Hk. by rewrite Hk.
  - cbn in Hk; subst. cbn [app drop_cancelled]. rewrite kleb_refl. cbn [andb].
    destruct (cancelled fl it) eqn:Hc.
    + destruct IH as (due' & -> & Hl & Hs & Hh & Hk). exists due'.
      split_and!; [done| |by apply suffix_cons_r|done|done].
      unfold live. rewrite filter_cons_False by (cbn; congruence). exact Hl.
    + exists ((k, it) :: due). split_and!; [done|done|done| |].
      * intros x; cbn; intros; by simplify_eq.
      * cbn. by rewrite kleb_refl.
Qed.
End Spec.

(** ** The loops implement the specification *)
Section Loops.
Context `{L : Lang} {T : Type} `{MT : MonoTime T}.
Context {SQ IQ : Type} `{SPQ : !StablePQ (T * Z) QueueItem SQ} `{IPQ : !StablePQ Z InjectorItem IQ}.
Context {X C Tk : Type} `{HO : !Host T SQ IQ X C Tk}.
Notation Sm := (Simulation T SQ IQ X C Tk).
Implicit Types (m : Sm) (q : SQ) (x : X).

Lemma peek_loop_spec fuel ub fl q :
  pq_ok q -> (length (pq_view q) <= fuel)%nat ->
  exists q', peek_next_key_loop fuel ub fl q = (head_key ub (drop_cancelled ub fl (pq_view q)), q') /\
    pq_ok q' /\ pq_view q' = drop_cancelled ub fl (pq_view q) /\ pq_epoch q' = pq_epoch q.
Proof.
  revert q; induction fuel as [|fuel IH]; intros q Hok Hlen; cbn [peek_next_key_loop];
    rewrite pq_peek_ok by done; pose proof (pq_pull_ok q Hok) as Hp.
  { destruct (pq_view q) as [|? ?] eqn:E; cbn in Hlen; [|lia]. cbn. by exists q. }
  destruct (pq_view q) as [|[k it] l] eqn:E; cbn [head drop_cancelled head_key].
  { by exists q. }
  destruct Hp as (q' & Hp & Hok' & Hv & He). cbn in Hlen.
  destruct (kleb k.1 ub) eqn:Hk; cbn [andb head_key]; rewrite ?Hk.
  - destruct it as [e|qu]; cbn [cancelled head_key]; [|rewrite Hk; by exists q].
    destruct (event_is_cancelled fl e) eqn:Hc; [|cbn [head_key]; rewrite Hk; by exists q].
    rewrite Hp. destruct (IH q' Hok' ltac:(rewrite Hv; lia)) as (q'' & -> & Hok'' & Hv'' & He'').
    exists q''. rewrite Hv in *. split_and!; [done|done|done|congruence].
  - by exists q.
Qed.

(** The parts of the state the loops change. *)
Definition upd m q x : Sm := with_executor x (with_shared (with_scheduler_queue q (shared m)) m).

(** What is required of the items due at time [t]. *)
Record due_ok (r : SchedulerRegistry) (fl : list bool) (t : T) (e : (T * Z) * QueueItem) : Prop := {
  du_time : e.1.1 = t;
  du_ok : queued_ok r fl e.2;
  du_add : forall p, item_period e.2 = Some p -> is_Some (mt_add t p) }.

Lemma queue_insert_spec {E} q k it s :
  scheduler_queue s = q -> pq_ok q -> pq_epoch q < u64_max ->
  exists q', queue_insert (IQ := IQ) (E := E) k it s = (Val tt, with_scheduler_queue q' s) /\
    pq_ok q' /\ pq_view q' = StableQueue.insert k it (pq_view q) /\ pq_epoch q' = pq_epoch q + 1.
Proof.
  intros Hq Hok He. unfold queue_insert. rewrite Hq.
  destruct (pq_insert k it q) as [q'|] eqn:Hi.
  - exists q'. split; [done|]. by apply pq_insert_ok.
  - apply pq_insert_panic in Hi; [lia|done].
Qed.

Lemma take_item_spec m q x k it :
  due_ok (scheduler_registry m) (flags (shared m)) k.1 (k, it) -> pq_ok q -> pq_epoch q < u64_max ->
  exists f q', item_future (T := T) (scheduler_registry m) it = Val f /\
    take_item k.1 k.2 it (upd m q x) = (Val f, upd m q' x) /\
    pq_ok q' /\ pq_view q' = reinsert (pq_view q) (k, it) /\ pq_epoch q' <= pq_epoch q + 1.
Proof.
  intros [_ [Hty Hper Hkey] Hadd] Hok He. cbn [fst snd] in *.
  destruct (item_future_ok (T := T) _ _ Hty) as [f Hf]. exists f.
  unfold take_item, reinsert; cbn [fst snd]. cbv [mbind eff_bind gets liftO].
  change (scheduler_registry (upd m q x)) with (scheduler_registry m).
  destruct it as [e|qu]; cbn [item_future item_period] in *; destruct Hty as (s & Hs & Ht);
    rewrite Hs in *; cbn [ok_or mbind outcome_bind] in *.
  - destruct (period e) as [p|] eqn:Hp.
    + assert (future_borrowed (T := T) s (event_arg e) (key e) = Val f) as Hfb by exact Hf.
      destruct (Hadd p eq_refl) as [t' Ht']. rewrite Ht'. cbn [unwrap].
      destruct (queue_insert_spec (E := ExecutionError T) q (t', k.2) (QEvent e)
                  (with_scheduler_queue q (shared m)) eq_refl Hok He)
        as (q' & Hq' & Hok' & Hv & Hep).
      exists q'. split_and!; [done| |done|done|lia].
      unfold on_shared. change (shared (upd m q x)) with (with_scheduler_queue q (shared m)).
      by rewrite Hq', Hfb.
    + rewrite Hf. exists q. split_and!; try done. lia.
  - rewrite Hf. exists q. split_and!; try done. lia.
Qed.

Lemma peek_next_key_spec m q x ub :
  pq_ok q ->
  exists q', peek_next_key ub (upd m q x) =
      (Val (head_key ub (drop_cancelled ub (flags (shared m)) (pq_view q))), upd m q' x) /\
    pq_ok q' /\ pq_view q' = drop_cancelled ub (flags (shared m)) (pq_view q) /\
    pq_epoch q' = pq_epoch q.
Proof.
  intros Hok. unfold peek_next_key. cbn.
  destruct (peek_loop_spec (length (pq_view q)) ub (flags (shared m)) q Hok (le_n _))
    as (q' & Hq & ? & ? & ?). unfold view; cbn. rewrite Hq. by exists q'.
Qed.

Lemma pull_spec m q x e l :
  pq_ok q -> pq_view q = e :: l ->
  exists q', queue_pull_unwrap (upd m q x) = (Val e, upd m q' x) /\ pq_ok q' /\ pq_view q' = l /\
    pq_epoch q' = pq_epoch q.
Proof.
  intros Hok Hv. pose proof (pq_pull_ok q Hok) as Hp. rewrite Hv in Hp.
  destruct Hp as (q' & Hp & ? & ? & ?). exists q'. unfold queue_pull_unwrap; cbn. by rewrite Hp.
Qed.

(** One iteration of the inner loop. *)
Lemma merge_iteration m q x t k it due rest :
  let r := scheduler_registry m in let fl := flags (shared m) in
  pq_ok q -> pq_view q = (k, it) :: due ++ rest ->
  Forall (due_ok r fl t) ((k, it) :: due) -> Forall (fun e => kltb t e.1.1 = true) rest ->
  pq_epoch q < u64_max ->
  exists f q' due', item_future (T := T) r it = Val f /\
    (forall fuel next seq, merge_loop (S fuel) next seq (upd m q x) =
       (if decide (fst <$> head due' = next) then merge_loop fuel next (seq ++ [f])
        else mret (seq ++ [f], fst <$> head due')) (upd m q' x)) /\
    pq_ok q' /\ pq_view q' = due' ++ reinsert rest (k, it) /\ pq_epoch q' <= pq_epoch q + 1 /\
    live fl due' = live fl due /\ due' `suffix_of` due /\
    (forall e, head due' = Some e -> cancelled fl e.2 = false).
Proof.
  intros r fl Hok Hv Hdue Hrest He. subst r fl. apply Forall_cons in Hdue as [Hk Hdue].
  pose proof (du_time _ _ _ _ Hk) as Ht. cbn in Ht. subst t.
  destruct (pull_spec m q x _ _ Hok Hv) as (q1 & Hpull & Hok1 & Hv1 & He1).
  destruct (take_item_spec m q1 x k it Hk Hok1 ltac:(lia)) as (f & q2 & Hf & Htake & Hok2 & Hv2 & He2).
  destruct (peek_next_key_spec m q2 x k.1 Hok2) as (q3 & Hpeek & Hok3 & Hv3 & He3).
  assert (Forall (fun e => e.1.1 = k.1) due) as Hdt.
  { eapply Forall_impl; [exact Hdue|]. by intros e []. }
  assert (forall p, item_period it = Some p -> 0 < p) as Hper by apply (qo_period _ _ _ (du_ok _ _ _ _ Hk)).
  rewrite Hv1, reinsert_later in Hv2 by done.
  destruct (drop_cancelled_due k.1 (flags (shared m)) due (reinsert rest (k, it)) Hdt) as (due' & Hd & Hl & Hs & Hh & Hhk).
  { by apply reinsert_future. }
  rewrite Hv2, Hd in Hv3, Hpeek. rewrite Hhk in Hpeek.
  exists f, q3, due'. split_and!; try done; [|lia].
  intros fuel next seq. cbn [merge_loop]. destruct k as [t o].
  rewrite (bind_val _ _ _ _ _ Hpull). rewrite (bind_val _ _ _ _ _ Htake).
  rewrite (bind_val _ _ _ _ _ Hpeek). by destruct (decide _).
Qed.

Lemma live_cons fl (e : (T * Z) * QueueItem) l :
  live fl (e :: l) = if cancelled fl e.2 then live fl l else e :: live fl l.
Proof. unfold live. rewrite filter_cons. destruct (cancelled fl e.2); by case_decide. Qed.

Lemma live_head fl (due : list ((T * Z) * QueueItem)) :
  (forall e, head due = Some e -> cancelled fl e.2 = false) ->
  live fl due = match due with [] => [] | e :: l => e :: live fl l end.
Proof. destruct due as [|e l]; [done|]. intros H. rewrite live_cons. by rewrite (H e eq_refl). Qed.

(** The inner loop merges the live items that have the key [k] and stops at
    the next live due item. *)
Lemma merge_loop_spec m x t k due : forall fuel q it seq rest,
  let r := scheduler_registry m in let fl := flags (shared m) in
  (length due < fuel)%nat ->
  pq_ok q -> pq_view q = (k, it) :: due ++ rest ->
  Forall (due_ok r fl t) ((k, it) :: due) -> Forall (fun e => kltb t e.1.1 = true) rest ->
  pq_epoch q + Z.of_nat (S (length due)) <= u64_max -> cancelled fl it = false ->
  exists q' due' fs, 
    Forall2 (fun i f => item_future (T := T) r i = Val f) (it :: take_key k (live fl due)) fs /\
    merge_loop fuel (Some k) seq (upd m q x) = (Val (seq ++ fs, fst <$> head due'), upd m q' x) /\
    pq_ok q' /\ live fl due' = drop_key k (live fl due) /\ due' `suffix_of` due /\
    (forall e, head due' = Some e -> cancelled fl e.2 = false) /\
    pq_view q' = due' ++ fold_left reinsert
      ((k, it) :: ((fun i => (k, i)) <$> take_key k (live fl due))) rest /\
    pq_epoch q' + Z.of_nat (length due') <= pq_epoch q + Z.of_nat (S (length due)).
Proof.
  induction due as [due IH] using (induction_ltof1 _ (@length _)). unfold ltof in IH.
  intros fuel q it seq rest r fl Hfuel Hok Hv Hdue Hrest He Hc.
  destruct (merge_iteration m q x t k it due rest Hok Hv Hdue Hrest ltac:(lia))
    as (f & q1 & due1 & Hf & Hloop & Hok1 & Hv1 & He1 & Hl1 & Hs1 & Hh1).
  destruct fuel as [|fuel]; [lia|]. rewrite Hloop.
  fold fl in Hl1, Hh1. rewrite <- Hl1. rewrite (live_head fl due1 Hh1).
  pose proof (suffix_length _ _ Hs1) as Hlen.
  assert (Forall2 (fun i f => item_future (T := T) r i = Val f) [it] [f]) as Hf1
    by (constructor; [exact Hf|constructor]).
  apply Forall_cons in Hdue as [Hk Hdue].
  destruct due1 as [|[k1 it1] due2]; cbn [head fmap option_fmap option_map].
  { rewrite decide_False by done. exists q1, [], [f]. cbn. split_and!; try done. lia. }
  cbn [take_key drop_key]. cbn [length] in Hlen. destruct (decide (k1 = k)) as [->|Hne].
  - rewrite decide_True by done.
    assert (Forall (due_ok r fl t) ((k, it1) :: due2)) as Hdue1 by (by eapply Forall_suffix).
    destruct (IH due2 ltac:(lia) fuel q1 it1 (seq ++ [f]) (reinsert rest (k, it)))
      as (q' & due' & fs & Hfs & Hm & Hok' & Hl' & Hs' & Hh' & Hv' & He'); try done; try lia.
    { apply reinsert_future; [apply (du_time _ _ _ _ Hk)| |done].
      apply (qo_period _ _ _ (du_ok _ _ _ _ Hk)). }
    { by apply (Hh1 (k, it1)). }
    exists q', due', (f :: fs). rewrite Hm, <- app_assoc. cbn.
    split_and!; try done; [by constructor| |lia].
    transitivity due2; [done|]. transitivity ((k, it1) :: due2); [by apply suffix_cons_r|done].
  - rewrite decide_False by (intros ?; by simplify_eq). exists q1, ((k1, it1) :: due2), [f].
    split_and!; try done; [by rewrite (live_head fl (_ :: _) Hh1)|cbn [length]; lia].
Qed.

Lemma reinsert_all_future t r fl l rest :
  Forall (fun e => kltb t e.1.1 = true) rest -> Forall (due_ok r fl t) l ->
  Forall (fun e => kltb t e.1.1 = true) (fold_left reinsert l rest).
Proof.
  intros Hrest Hl. revert rest Hrest. induction Hl as [|[k it] l Hk _ IH]; intros rest Hrest; cbn; [done|].
  apply IH, reinsert_future; [apply (du_time _ _ _ _ Hk)| |done].
  apply (qo_period _ _ _ (du_ok _ _ _ _ Hk)).
Qed.

Lemma take_key_live_in k fl (due : list ((T * Z) * QueueItem)) it :
  it ∈ take_key k (live fl due) -> (k, it) ∈ due.
Proof.
  induction due as [|[k' it'] due IH]; [by intros ?%elem_of_nil|].
  rewrite live_cons; cbn [snd]. destruct (cancelled fl it'); [intros; right; auto|].
  cbn [take_key]. destruct (decide (k' = k)) as [->|]; [|by intros ?%elem_of_nil].
  rewrite !elem_of_cons. intros [->|]; [by left|right; auto].
Qed.

Lemma due_ok_key_group t r fl k it due :
  Forall (due_ok r fl t) ((k, it) :: due) ->
  Forall (due_ok r fl t) ((k, it) :: ((fun i => (k, i)) <$> take_key k (live fl due))).
Proof.
  intros [Hk Hdue]%Forall_cons. constructor; [done|]. apply Forall_fmap, Forall_forall.
  intros i Hi%take_key_live_in. rewrite Forall_forall in Hdue. by apply Hdue.
Qed.

Lemma take_drop_key (k : T * Z) (l : list ((T * Z) * QueueItem)) :
  l = ((fun i => (k, i)) <$> take_key k l) ++ drop_key k l.
Proof.
  induction l as [|[k' it] l IH]; cbn; [done|].
  destruct (decide (k' = k)) as [->|]; cbn; [by rewrite <- IH|done].
Qed.

(** The futures of a group of items. *)
Definition futures_of (r : SchedulerRegistry) (its : list QueueItem) (fs : list Fut) : Prop :=
  Forall2 (fun i f => item_future (T := T) r i = Val f) its fs.

Lemma spawn_loop_spec m t due : forall fuel q x rest,
  let r := scheduler_registry m in let fl := flags (shared m) in
  (length due <= fuel)%nat ->
  pq_ok q -> pq_view q = due ++ rest ->
  Forall (due_ok r fl t) due -> Forall (fun e => kltb t e.1.1 = true) rest ->
  pq_epoch q + Z.of_nat (length due) <= u64_max ->
  (forall e, head due = Some e -> cancelled fl e.2 = false) ->
  exists q' tasks,
    spawn_loop fuel (fst <$> head due) (upd m q x) =
      (Val tt, upd m q' (fold_left ex_spawn (SeqTask <$> tasks) x)) /\
    Forall2 (fun g fs => futures_of r g.2 fs) (group (live fl due)) tasks /\
    pq_ok q' /\ pq_view q' = fold_left reinsert (live fl due) rest /\
    pq_epoch q' <= pq_epoch q + Z.of_nat (length due).
Proof.
  induction due as [due IH] using (induction_ltof1 _ (@length _)). unfold ltof in IH.
  intros fuel q x rest r fl Hfuel Hok Hv Hdue Hrest He Hh.
  destruct due as [|[k it] due].
  { exists q, []. cbn. split_and!; try done; [by destruct fuel|lia]. }
  destruct fuel as [|fuel]; [cbn in Hfuel; lia|]. cbn [length] in *.
  destruct (merge_loop_spec m x t k due (length (view (shared (upd m q x)))) q it [] rest)
    as (q1 & due1 & fs & Hfs & Hm & Hok1 & Hl1 & Hs1 & Hh1 & Hv1 & He1); try done.
  { change (view (shared (upd m q x))) with (pq_view q). rewrite Hv. cbn. rewrite length_app. lia. }
  { by apply (Hh (k, it)). }
  pose proof (suffix_length _ _ Hs1) as Hlen. fold r fl in Hl1, Hh1, Hv1, Hfs.
  destruct (IH due1 ltac:(lia) fuel q1 (ex_spawn x (SeqTask fs)) (fold_left reinsert
      ((k, it) :: ((fun i => (k, i)) <$> take_key k (live fl due))) rest))
    as (q2 & tasks & Hsp & Htasks & Hok2 & Hv2 & He2); try done; try lia.
  { apply Forall_cons in Hdue as [_ Hdue]. by eapply Forall_suffix. }
  { apply (reinsert_all_future t r fl); [done|].
    by apply due_ok_key_group. }
  rewrite live_cons, (Hh (k, it) eq_refl). rewrite group_cons.
  exists q2, (fs :: tasks). split_and!; [| | done | |lia].
  - cbn [spawn_loop head fmap option_fmap option_map]. cbn [fst].
    rewrite (bind_val (gets _) _ _ _ _ eq_refl). rewrite (bind_val _ _ _ _ _ Hm).
    exact Hsp.
  - fold r fl in Htasks. rewrite Hl1 in Htasks. by constructor.
  - fold fl in Hv2. rewrite Hv2, Hl1. rewrite (take_drop_key k (live fl due)) at 3.
    change ((k, it) :: ?a ++ ?b) with (((k, it) :: a) ++ b). by rewrite fold_left_app.
Qed.

(** *** Splitting the view at the current time *)
Definition due_at (t : T) (l : list ((T * Z) * QueueItem)) := filter (fun e => e.1.1 = t) l.
Definition later (t : T) (l : list ((T * Z) * QueueItem)) := filter (fun e => kltb t e.1.1 = true) l.
Definition key_sorted (l : list ((T * Z) * QueueItem)) : Prop :=
  StronglySorted (fun p p' => kleb p.1 p'.1 = true) l.

Lemma key_leb_time (k k' : T * Z) : kleb k k' = true -> kleb k.1 k'.1 = true.
Proof. intros [H|[-> _]]%pair_leb_spec; [by apply kltb_le|apply kleb_refl]. Qed.

Lemma sorted_times t (l : list ((T * Z) * QueueItem)) :
  key_sorted l -> (forall e, head l = Some e -> kleb t e.1.1 = true) ->
  Forall (fun e => kleb t e.1.1 = true) l.
Proof.
  intros Hs Hh. destruct Hs as [|e l _ Hall]; [done|]. specialize (Hh e eq_refl).
  constructor; [done|]. eapply Forall_impl; [exact Hall|]. intros e' He'%key_leb_time.
  by eapply kleb_trans.
Qed.

Lemma sorted_times_lt t (l : list ((T * Z) * QueueItem)) :
  key_sorted l -> (forall e, head l = Some e -> kltb t e.1.1 = true) ->
  Forall (fun e => kltb t e.1.1 = true) l.
Proof.
  intros Hs Hh. destruct Hs as [|e l _ Hall]; [done|]. specialize (Hh e eq_refl).
  constructor; [done|]. eapply Forall_impl; [exact Hall|]. intros e' He'%key_leb_time.
  rewrite mt_lt, mt_le in *. lia.
Qed.

Lemma due_later_split t l :
  key_sorted l -> Forall (fun e => kleb t e.1.1 = true) l -> l = due_at t l ++ later t l.
Proof.
  intros Hs. induction Hs as [|e l Hs IH Hall]; intros Hl; [done|].
  apply Forall_cons in Hl as [He Hl]. unfold due_at, later. rewrite !filter_cons.
  destruct (decide (e.1.1 = t)) as [Heq|Hne].
  - rewrite decide_False by (rewrite Heq, kltb_irrefl; done). cbn. f_equal. by apply IH.
  - assert (kltb t e.1.1 = true) as Hlt.
    { rewrite mt_lt. apply mt_le in He. destruct (decide (mt_nanos e.1.1 = mt_nanos t)) as [E|];
        [by apply mt_nanos_inj in E|lia]. }
    rewrite decide_True by done.
    assert (Forall (fun e' => kltb t e'.1.1 = true) l) as Hlater.
    { eapply Forall_impl; [exact Hall|]. intros e' He'%key_leb_time. rewrite mt_lt, mt_le in *. lia. }
    assert (filter (fun e' => e'.1.1 = t) l = []) as ->.
    { apply elem_of_nil_inv. intros e' [Ht Hin]%list_elem_of_filter.
      rewrite Forall_forall in Hlater. specialize (Hlater e' Hin). by rewrite Ht, kltb_irrefl in Hlater. }
    cbn. f_equal. symmetry. by apply filter_Forall.
Qed.

Lemma upd_self m : upd m (scheduler_queue (shared m)) (executor m) = m.
Proof. by destruct m as [? [] ? ? ? ? ? ? ?]. Qed.

(** [handle_scheduler_step] spawns exactly the due items that are not
    cancelled, in queue order and grouped by origin, and leaves the later
    items together with the re-inserted periodic events. *)
Lemma handle_scheduler_step_spec m t o it l :
  let r := scheduler_registry m in let fl := flags (shared m) in
  pq_ok (scheduler_queue (shared m)) -> view (shared m) = ((t, o), it) :: l ->
  cancelled fl it = false ->
  Forall (fun e => queued_ok r fl e.2) (view (shared m)) ->
  Forall (fun e => forall p, item_period e.2 = Some p -> is_Some (mt_add t p)) (due_at t (view (shared m))) ->
  pq_epoch (scheduler_queue (shared m)) + Z.of_nat (length (view (shared m))) <= u64_max ->
  exists q' tasks,
    handle_scheduler_step (Some (t, o)) t m =
      (Val true, upd m q' (fold_left ex_spawn (SeqTask <$> tasks) (executor m))) /\
    Forall2 (fun g fs => futures_of r g.2 fs) (group (live fl (due_at t (view (shared m))))) tasks /\
    pq_ok q' /\
    pq_view q' = fold_left reinsert (live fl (due_at t (view (shared m)))) (later t (view (shared m))).
Proof.
  intros r fl Hok Hv Hc Hitems Hadd He.
  assert (key_sorted (view (shared m))) as Hs by (by apply pq_sorted).
  assert (Forall (fun e => kleb t e.1.1 = true) (view (shared m))) as Ht.
  { apply sorted_times; [done|]. rewrite Hv. cbn. intros; simplify_eq. apply kleb_refl. }
  pose proof (due_later_split t _ Hs Ht) as Hsplit.
  assert (exists due, due_at t (view (shared m)) = ((t, o), it) :: due) as [due Hdue].
  { rewrite Hv. unfold due_at. rewrite filter_cons_True by done. eauto. }
  destruct (spawn_loop_spec m t (due_at t (view (shared m))) (length (view (shared m)))
      (scheduler_queue (shared m)) (executor m) (later t (view (shared m))))
    as (q' & tasks & Hsp & Htasks & Hok' & Hv' & _); try done.
  - unfold due_at. apply length_filter.
  - apply Forall_forall. intros e Hin. pose proof Hin as [Hte Hin']%list_elem_of_filter.
    rewrite Forall_forall in Hitems, Hadd.
    split; [done|apply (Hitems _ Hin')|apply (Hadd _ Hin)].
  - apply Forall_forall. by intros e [? _]%list_elem_of_filter.
  - pose proof (length_filter (fun e : (T * Z) * QueueItem => e.1.1 = t) (view (shared m))) as Hlen.
    unfold due_at. lia.
  - rewrite Hdue. cbn. intros; by simplify_eq.
  - exists q', tasks. split_and!; try done. unfold handle_scheduler_step.
    rewrite (proj2 (keqb_spec t t) eq_refl). rewrite Hdue, upd_self in Hsp. cbn in Hsp.
    rewrite (bind_val (gets _) _ m _ m eq_refl). by rewrite (bind_val _ _ _ _ _ Hsp).
Qed.
End Loops.
