(* ===== verification/InjectorFacts.v ===== *)
(** * The injector queue: what [handle_injector_step] spawns

    All injected items are spawned, one task per origin, in injection order
    within an origin, and the queue is left empty. *)

From S2P Require Import Prelude Path Errors Time PriorityQueue QueueItems Effects Scheduler.
From S2P Require Import SchedulerFacts Simulation StepFacts.
Import Items.
Local Open Scope Z_scope.

Section Injector.
Context `{L : Lang} {T : Type} `{MT : MonoTime T}.
Context {SQ IQ : Type} `{SPQ : !StablePQ (T * Z) QueueItem SQ} `{IPQ : !StablePQ Z InjectorItem IQ}.
Context {X C Tk : Type} `{HO : !Host T SQ IQ X C Tk}.
Notation Sm := (Simulation T SQ IQ X C Tk).
Implicit Types (m : Sm) (q : IQ) (x : X).

Definition inj_upd m q x : Sm :=
  with_executor x (with_shared (with_injector_queue q (shared m)) m).

(** The future made from an injected item. *)
Definition inj_future (r : SchedulerRegistry) (it : InjectorItem) : Outcome (ExecutionError T) Fut :=
  match it with
  | InjEvent e => item_future r (QEvent e)
  | InjQuery qu => item_future r (QQuery qu)
  | InjFuture f => Val f
  end.

Lemma inj_future_ok r it : inj_item_ok r it -> exists f, inj_future r it = Val f.
Proof.
  destruct it as [e|qu|f]; cbn [inj_item_ok inj_future]; [| |eauto]; intros H.
  - by apply (item_future_ok (T := T) r (QEvent e)).
  - by apply (item_future_ok (T := T) r (QQuery qu)).
Qed.

Lemma injector_future_spec m q x it :
  injector_future it (inj_upd m q x) = (inj_future (scheduler_registry m) it, inj_upd m q x).
Proof.
  unfold injector_future. rewrite (bind_val (gets _) _ (inj_upd m q x) (scheduler_registry m) (inj_upd m q x) eq_refl).
  destruct it as [e|qu|f]; cbn [inj_future item_future]; [| |done];
    cbv [mbind eff_bind outcome_bind liftO].
  - by destruct (get_event_source _ _).
  - by destruct (get_query_source _ _).
Qed.

(** The group in progress, continued by the remaining groups. *)
Definition front (o : Z) (seq : list Fut) (gs : list (Z * list Fut)) : list (Z * list Fut) :=
  match gs with
  | (k, fs) :: gs' => if decide (k = o) then (o, seq ++ fs) :: gs' else (o, seq) :: gs
  | [] => [(o, seq)]
  end.

Lemma front_snoc o seq f l : front o (seq ++ [f]) (group l) = front o seq (group ((o, f) :: l)).
Proof.
  cbn [group]. destruct (group l) as [|[k fs] gs]; cbn; [by rewrite decide_True by done|].
  destruct (decide (k = o)) as [->|].
  - rewrite !decide_True by done. cbn. rewrite decide_True by done. by rewrite <- app_assoc.
  - rewrite (decide_False (P := o = k)) by congruence. cbn. by rewrite decide_True by done.
Qed.

Lemma front_other o o' seq f l :
  o' <> o -> front o seq (group ((o', f) :: l)) = (o, seq) :: front o' [f] (group l).
Proof.
  intros Hne. cbn [group]. destruct (group l) as [|[k fs] gs]; cbn; [by rewrite decide_False|].
  destruct (decide (o' = k)) as [<-|]; cbn.
  - by rewrite !decide_False, decide_True by done.
  - rewrite (decide_False (P := k = o')) by congruence. by rewrite decide_False by done.
Qed.

Lemma injector_pull_spec m q x :
  pq_ok q ->
  match pq_view q with
  | [] => injector_pull (inj_upd m q x) = (Val None, inj_upd m q x)
  | e :: l => exists q', injector_pull (inj_upd m q x) = (Val (Some e), inj_upd m q' x) /\
                         pq_ok q' /\ pq_view q' = l
  end.
Proof.
  intros Hok. pose proof (pq_pull_ok q Hok) as Hp. unfold injector_pull; cbn.
  destruct (pq_view q) as [|e l]; [by rewrite Hp|]. destruct Hp as (q' & Hp & ? & ? & _).
  exists q'. by rewrite Hp.
Qed.

Lemma injector_loop_spec m l : forall fuel q x o seq fl,
  (length l < fuel)%nat -> pq_ok q -> pq_view q = l ->
  Forall2 (fun e kf => kf.1 = e.1 /\ inj_future (scheduler_registry m) e.2 = Val kf.2) l fl ->
  exists q' init last,
    injector_loop fuel o seq (inj_upd m q x) =
      (Val last, inj_upd m q' (fold_left ex_spawn (SeqTask <$> init) x)) /\
    pq_ok q' /\ pq_view q' = [] /\ init ++ [last] = (front o seq (group fl)).*2.
Proof.
  induction l as [|[id it] l IH]; intros fuel q x o seq fl Hfuel Hok Hv Hfl;
    (destruct fuel as [|fuel]; [lia|]); cbn [injector_loop];
    pose proof (injector_pull_spec m q x Hok) as Hp; rewrite Hv in Hp.
  { apply Forall2_nil_inv_l in Hfl as ->. rewrite (bind_val _ _ _ _ _ Hp). by exists q, [], seq. }
  destruct Hp as (q1 & Hp & Hok1 & Hv1). rewrite (bind_val _ _ _ _ _ Hp).
  apply Forall2_cons_inv_l in Hfl as ([k f] & fl' & [Hk Hf] & Hfl & ->). cbn in Hk, Hf; subst k.
  pose proof (injector_future_spec m q1 x it) as Hfut. rewrite Hf in Hfut.
  rewrite (bind_val _ _ _ _ _ Hfut). cbn [length] in Hfuel.
  destruct (Z.eqb_spec id o) as [->|Hne].
  - destruct (IH fuel q1 x o (seq ++ [f]) fl' ltac:(lia) Hok1 Hv1 Hfl) as (q' & init & last & -> & ? & ? & Hg).
    exists q', init, last. by rewrite <- front_snoc.
  - destruct (IH fuel q1 (ex_spawn x (SeqTask seq)) id [f] fl' ltac:(lia) Hok1 Hv1 Hfl)
      as (q' & init & last & Hl & ? & ? & Hg).
    exists q', (seq :: init), last. split; [exact Hl|]. split_and!; [done|done|].
    rewrite front_other by done. cbn. by rewrite Hg.
Qed.

Lemma inj_upd_self m : inj_upd m (injector_queue (shared m)) (executor m) = m.
Proof. by destruct m as [? [] ? ? ? ? ? ? ?]. Qed.

Lemma handle_injector_step_spec m :
  pq_ok (injector_queue (shared m)) ->
  Forall (fun e => inj_item_ok (scheduler_registry m) e.2) (inj_view (shared m)) ->
  exists q' fl,
    Forall2 (fun e kf => kf.1 = e.1 /\ inj_future (scheduler_registry m) e.2 = Val kf.2)
      (inj_view (shared m)) fl /\
    handle_injector_step m =
      (Val (negb (bool_decide (inj_view (shared m) = []))),
       inj_upd m q' (fold_left ex_spawn (SeqTask <$> (group fl).*2) (executor m))) /\
    pq_ok q' /\ pq_view q' = [].
Proof.
  intros Hok Hitems. unfold handle_injector_step.
  rewrite (bind_val (gets _) _ m _ m eq_refl). rewrite (pq_peek_ok _ Hok).
  change (pq_view (injector_queue (shared m))) with (inj_view (shared m)).
  assert (exists fl, Forall2 (fun e kf => kf.1 = e.1 /\ inj_future (scheduler_registry m) e.2 = Val kf.2)
    (inj_view (shared m)) fl) as [fl Hfl].
  { induction Hitems as [|e l He _ [fl IH]]; [by exists []|].
    destruct (inj_future_ok _ _ He) as [f Hf]. exists ((e.1, f) :: fl). by constructor. }
  destruct (inj_view (shared m)) as [|[o it] l] eqn:Hv; cbn [head].
  { apply Forall2_nil_inv_l in Hfl as ->. exists (injector_queue (shared m)), []. cbn.
    by rewrite inj_upd_self. }
  destruct (injector_loop_spec m ((o, it) :: l) (S (length ((o, it) :: l))) (injector_queue (shared m))
    (executor m) o [] fl ltac:(lia) Hok Hv Hfl) as (q' & init & last & Hloop & Hok' & Hv' & Hg).
  rewrite inj_upd_self in Hloop. rewrite (bind_val _ _ _ _ _ Hloop).
  exists q', fl. split_and!; [done| |done|done]. rewrite bool_decide_false by done.
  apply Forall2_cons_inv_l in Hfl as ([k f] & fl' & [Hk _] & _ & ->). cbn in Hk; subst k.
  destruct (group_keys_cons o f fl') as (vs & gs & Hgr).
  assert ((group ((o, f) :: fl')).*2 = init ++ [last]) as ->.
  { rewrite Hg, Hgr. cbn. by rewrite decide_True by done. }
  rewrite fmap_app, fold_left_app. done.
Qed.
End Injector.
