(* ===== verification/StepInvariant.v ===== *)
(** * Invariants of simulation steps

    Between steps every scheduled item lies strictly in the future
    ([sched_ok]); while the due items are being spawned, and after a step that
    failed, no item lies in the past ([sched_weak]).  Stepping moves time
    strictly forward and never past its bound, and [step_until] terminates at
    its target. *)

From S2P Require Import Prelude Path Errors Time PriorityQueue QueueItems Effects Scheduler.
From S2P Require Import SchedulerFacts Simulation StepFacts.
Import Items.
Local Open Scope Z_scope.

(** What the simulation relies on: callers respect the static types of the API
    and ticks are strictly in the future (documentation of [Ticker]). *)
Class HostLaws `{L : Lang} {T SQ IQ X C Tk : Type} `{MT : MonoTime T}
    `{HO : !Host T SQ IQ X C Tk} (r : SchedulerRegistry) : Prop := {
  hl_run : forall x s d x' cs res, ex_run x s d = (x', cs, res) -> Forall (call_ok r (flags s)) cs;
  hl_sync : forall c s t c' cs st,
    clock_synchronize c s t = (c', cs, st) -> Forall (call_ok r (flags s)) cs;
  hl_tick : forall k t t' k', tick_next k t = Some (t', k') -> kltb t t' = true }.

Section Invariant.
Context `{L : Lang} {T : Type} `{MT : MonoTime T}.
Context {SQ IQ : Type} `{SPQ : !StablePQ (T * Z) QueueItem SQ} `{IPQ : !StablePQ Z InjectorItem IQ}.
Context {X C Tk : Type} `{HO : !Host T SQ IQ X C Tk} (r : SchedulerRegistry) `{HL : !HostLaws r}.
Notation Sm := (Simulation T SQ IQ X C Tk).
Notation Sim := (Eff Sm (ExecutionError T)).
Implicit Types (m : Sm) (s : Shared T SQ IQ) (q : SQ).

Record sched_weak s : Prop := {
  sw_queue : pq_ok (scheduler_queue s);
  sw_injector : pq_ok (injector_queue s);
  sw_times : Forall (fun e => kleb (time s) e.1.1 = true) (view s);
  sw_items : Forall (fun e => queued_ok r (flags s) e.2) (view s);
  sw_inj_items : Forall (fun e => inj_item_ok r e.2) (inj_view s) }.

Lemma sched_ok_weak s : sched_ok r s -> sched_weak s.
Proof.
  intros [? ? Hf ? ?]. split; try done. eapply Forall_impl; [exact Hf|]. intros e. apply kltb_le.
Qed.

(** The simulation at time [t0], between steps and in general. *)
Definition strong (t0 : T) m : Prop :=
  scheduler_registry m = r /\ sched_ok r (shared m) /\ time (shared m) = t0.
Definition weak (t0 : T) m : Prop :=
  scheduler_registry m = r /\ sched_weak (shared m) /\ time (shared m) = t0.

Lemma strong_weak t0 m : strong t0 m -> weak t0 m.
Proof. intros (? & ? & ?). split_and!; [done|by apply sched_ok_weak|done]. Qed.

(** Replacing the scheduler queue. *)
Lemma weak_queue t0 m q :
  weak t0 m -> pq_ok q -> Forall (fun e => kleb (time (shared m)) e.1.1 = true) (pq_view q) ->
  Forall (fun e => queued_ok r (flags (shared m)) e.2) (pq_view q) ->
  weak t0 (with_shared (with_scheduler_queue q (shared m)) m).
Proof. intros (? & [] & ?) ???. split_and!; [done|by split|done]. Qed.

Lemma drop_cancelled_suffix ub fl (l : list ((T * Z) * QueueItem)) :
  drop_cancelled ub fl l `suffix_of` l.
Proof.
  induction l as [|[k it] l IH]; cbn; [done|]. destruct (_ && _); [by apply suffix_cons_r|done].
Qed.

Lemma drop_cancelled_head ub fl (l : list ((T * Z) * QueueItem)) e :
  head (drop_cancelled ub fl l) = Some e -> kleb e.1.1 ub = true -> cancelled fl e.2 = false.
Proof.
  induction l as [|[k it] l IH]; cbn; [done|]. destruct (kleb k.1 ub && cancelled fl it) eqn:E; [done|].
  cbn. intros; simplify_eq; cbn in *. by destruct (kleb k.1 ub), (cancelled fl it).
Qed.

Lemma peek_exact m ub :
  pq_ok (scheduler_queue (shared m)) ->
  exists q, peek_next_key ub m =
      (Val (head_key ub (drop_cancelled ub (flags (shared m)) (view (shared m)))),
       with_shared (with_scheduler_queue q (shared m)) m) /\
    pq_ok q /\ pq_view q = drop_cancelled ub (flags (shared m)) (view (shared m)).
Proof.
  intros Hok. destruct (peek_loop_spec (length (view (shared m))) ub (flags (shared m))
    (scheduler_queue (shared m)) Hok (le_n _)) as (q & Hq & ? & ? & _).
  exists q. unfold peek_next_key. by rewrite Hq.
Qed.

(** [peek_next_key] returns the head of what it leaves in the queue. *)
Definition peeked (ub : T) (k : option (T * Z)) m : Prop :=
  k = head_key ub (view (shared m)) /\
  forall e, head (view (shared m)) = Some e -> kleb e.1.1 ub = true ->
    cancelled (flags (shared m)) e.2 = false.

Lemma peek_weak t0 ub :
  triple (weak t0) (peek_next_key ub) (fun k m => weak t0 m /\ peeked ub k m) (weak t0).
Proof.
  intros m Hm. pose proof Hm as (_ & Hw & _). destruct (peek_exact m ub (sw_queue _ Hw)) as (q & -> & Hok & Hv).
  pose proof (drop_cancelled_suffix ub (flags (shared m)) (view (shared m))) as Hs. split.
  - apply weak_queue; [done|done|rewrite Hv|rewrite Hv]; (eapply Forall_suffix; [done|]); apply Hw.
  - split; cbn; unfold view; cbn; [by rewrite Hv|]. intros e. rewrite Hv. apply drop_cancelled_head.
Qed.

Lemma peek_strong t0 ub :
  triple (strong t0) (peek_next_key ub) (fun k m => strong t0 m /\ peeked ub k m) (weak t0).
Proof.
  intros m Hm. pose proof (peek_weak t0 ub m (strong_weak _ _ Hm)) as Hp.
  destruct Hm as (Hr & Hs & Hle). destruct (peek_exact m ub (so_queue _ _ Hs)) as (q & E & Hok & Hv).
  rewrite E in *. destruct Hp as [_ Hp]. split; [|done]. split_and!; [done| |done].
  pose proof (drop_cancelled_suffix ub (flags (shared m)) (view (shared m))) as Hsuf.
  split; cbn; try apply Hs; try done; unfold view; cbn; rewrite Hv; (eapply Forall_suffix; [done|]);
    apply Hs.
Qed.

Lemma pull_weak t0 :
  triple (weak t0) queue_pull_unwrap
    (fun e m => weak t0 m /\ kleb (time (shared m)) e.1.1 = true /\
                queued_ok r (flags (shared m)) e.2) (weak t0).
Proof.
  intros m Hm. pose proof Hm as (_ & Hw & _). unfold queue_pull_unwrap.
  pose proof (pq_pull_ok _ (sw_queue _ Hw)) as Hp. fold (view (shared m)) in Hp.
  pose proof (sw_times _ Hw) as Ht. pose proof (sw_items _ Hw) as Hi.
  destruct (view (shared m)) as [|e l]; [by rewrite Hp|].
  destruct Hp as (q & -> & Hok & Hv & _). apply Forall_cons in Ht as [??], Hi as [??].
  split; [|done]. apply weak_queue; [done|done|by rewrite Hv|by rewrite Hv].
Qed.

Lemma insert_weak t0 k it :
  triple (fun m => weak t0 m /\ kleb (time (shared m)) k.1 = true /\ queued_ok r (flags (shared m)) it)
    (on_shared (queue_insert k it)) (fun _ m => weak t0 m) (weak t0).
Proof.
  intros m (Hm & Hk & Hit). pose proof Hm as (_ & Hw & _). unfold on_shared, queue_insert.
  destruct (pq_insert k it (scheduler_queue (shared m))) as [q|] eqn:E.
  - destruct (pq_insert_ok_forall _ _ _ _ _ (sw_queue _ Hw) E (sw_times _ Hw)) as [Hok Ht]; [done|].
    destruct (pq_insert_ok_forall _ _ _ _ _ (sw_queue _ Hw) E (sw_items _ Hw)) as [_ Hi]; [done|].
    by apply weak_queue.
  - by replace (with_shared (shared m) m) with m by (by destruct m).
Qed.

Lemma weak_time t0 m : weak t0 m -> time (shared m) = t0.
Proof. by intros (_ & _ & ?). Qed.

Ltac conj_tac := cbn beta; intros; tauto.

Lemma take_item_weak t0 t o it :
  triple (fun m => weak t0 m /\ kleb t0 t = true /\ queued_ok r (flags (shared m)) it)
    (take_item t o it) (fun _ m => weak t0 m) (weak t0).
Proof.
  unfold take_item. apply triple_bind_gets. intros r'. destruct it as [e|qu].
  - eapply triple_bind; [apply triple_liftO; conj_tac|]. intros src.
    destruct (period e) as [p|] eqn:Hp.
    + eapply triple_bind; [apply triple_liftO; conj_tac|]. intros f.
      eapply triple_bind; [apply triple_liftO; conj_tac|]. intros t'.
      eapply triple_bind with (R := fun _ => weak t0); [|intros []; by apply triple_ret].
      eapply triple_weaken; [apply (insert_weak t0)| |done|done].
      intros m [[[[(Hw & Ht & Hq) _] _] _] Hadd]. split_and!; [done| |done]. cbn.
      rewrite (weak_time _ _ Hw). destruct (mt_add t p) as [t2|] eqn:Et; cbn in Hadd; [|done].
      simplify_eq. apply mt_add_later in Et; [|by apply (qo_period _ _ _ Hq)].
      rewrite mt_le, mt_lt in *. lia.
    + eapply triple_weaken; [apply triple_liftO with (P := weak t0); done|conj_tac|conj_tac|done].
  - eapply triple_bind; [apply triple_liftO; conj_tac|]. intros src.
    eapply triple_weaken; [apply triple_liftO with (P := weak t0); done|conj_tac|conj_tac|done].
Qed.

Definition head_at (t0 : T) m : Prop := forall e, head (view (shared m)) = Some e -> e.1.1 = t0.

Lemma peeked_head_at t0 k m : weak t0 m -> peeked t0 (Some k) m -> head_at t0 m.
Proof.
  intros (_ & Hw & Ht) [Hk _] e He. pose proof (sw_times _ Hw) as Htimes.
  destruct (view (shared m)) as [|[k' it] l]; [done|]. cbn in *. simplify_eq. cbn.
  apply Forall_cons in Htimes as [Hle _]. cbn in Hle.
  destruct (kleb k'.1 (time (shared m))) eqn:E; [|done]. by apply kleb_antisym.
Qed.

Lemma peeked_none_future t0 m :
  weak t0 m -> peeked t0 None m -> strong t0 m.
Proof.
  intros (Hr & [] & Ht) [Hk _]. split_and!; [done| |done]. split; try done.
  rewrite Ht. apply sorted_times_lt; [by apply pq_sorted|]. intros e He.
  destruct (view (shared m)) as [|[k' it] l]; [done|]. cbn in *. simplify_eq. cbn.
  destruct (kleb k'.1 _) eqn:E; [done|]. by rewrite kltb_spec.
Qed.

Lemma pull_head_at t0 :
  triple (fun m => weak t0 m /\ head_at t0 m) queue_pull_unwrap
    (fun e m => weak t0 m /\ e.1.1 = t0 /\ queued_ok r (flags (shared m)) e.2) (weak t0).
Proof.
  intros m [Hm Hh]. pose proof (pull_weak t0 m Hm) as Hp. destruct Hm as (_ & Hw & _).
  unfold queue_pull_unwrap in *. pose proof (pq_pull_ok _ (sw_queue _ Hw)) as Hq.
  unfold head_at in Hh. fold (view (shared m)) in Hq.
  destruct (view (shared m)) as [|e l]; [by rewrite Hq in *|].
  destruct Hq as (q & Hq & _). rewrite Hq in *. destruct Hp as (? & _ & ?).
  split_and!; [done| |done]. by apply Hh.
Qed.

Lemma merge_loop_weak t0 fuel next seq :
  is_Some next ->
  triple (fun m => weak t0 m /\ head_at t0 m) (merge_loop fuel next seq)
    (fun res m => weak t0 m /\ peeked t0 res.2 m) (weak t0).
Proof.
  intros [k ->]. revert seq; induction fuel as [|fuel IH]; intros seq; cbn [merge_loop].
  { apply triple_panic. conj_tac. }
  eapply triple_bind; [apply pull_head_at|]. intros [[t o] it]. cbn.
  apply triple_pure with (phi := t = t0); [conj_tac|]. intros ->.
  eapply triple_bind.
  { eapply triple_weaken; [apply (take_item_weak t0)| |intros ? ? H; exact H|done].
    intros m (? & _ & ?). split_and!; [done|apply kleb_refl|done]. }
  intros f. eapply triple_bind; [apply peek_weak|]. intros key.
  destruct (decide (key = Some k)) as [->|].
  - eapply triple_weaken; [apply IH| |done|done]. intros m [? ?]. split; [done|].
    by eapply peeked_head_at.
  - by apply triple_ret.
Qed.

Lemma spawn_weak t0 (P : Sm -> Prop) task :
  (forall m x, P m -> P (with_executor x m)) -> triple P (spawn_and_forget task) (fun _ => P) (weak t0).
Proof. intros H. apply triple_modify. auto. Qed.

(** The loops end when no live item is due any more: what remains lies
    strictly in the future. *)
Lemma spawn_loop_strong t0 fuel next :
  triple (fun m => weak t0 m /\ peeked t0 next m) (spawn_loop fuel next)
    (fun _ m => strong t0 m) (weak t0).
Proof.
  revert next; induction fuel as [|fuel IH]; intros [k|]; cbn [spawn_loop].
  - apply triple_panic. conj_tac.
  - apply triple_ret. intros m []. by apply peeked_none_future.
  - apply triple_bind_gets. intros n. eapply triple_bind.
    { eapply triple_weaken; [apply (merge_loop_weak t0 n (Some k) []); done| |intros ? ? H; exact H|done].
      intros m [[? ?] _]. split; [done|by eapply peeked_head_at]. }
    intros [seq key]. eapply triple_bind; [apply spawn_weak; by intros|]. intros []. apply IH.
  - apply triple_ret. intros m []. by apply peeked_none_future.
Qed.

(** *** Advancing time *)
Lemma next_time_bounds t0 ub k tick t m :
  strong t0 m -> peeked ub k m ->
  (forall tk, tick = Some tk -> kltb t0 tk = true /\ kleb tk ub = true) ->
  next_time k tick = Some t ->
  kltb t0 t = true /\ kleb t ub = true /\
  Forall (fun e => kleb t e.1.1 = true) (view (shared m)).
Proof.
  intros (_ & Hs & Ht0) [Hk _] Htick Hnext.
  pose proof (pq_sorted _ (so_queue _ _ Hs)) as Hsort. fold (view (shared m)) in Hsort.
  pose proof (so_future _ _ Hs) as Hfut. rewrite Ht0 in Hfut.
  assert (forall tk, tick = Some tk -> k = None -> Forall (fun e => kleb tk e.1.1 = true) (view (shared m)))
    as Hnone.
  { intros tk Htk ->. apply sorted_times; [done|]. intros e He.
    destruct (Htick tk Htk) as [_ Hle]. clear Hnext Htick Htk.
    destruct (view (shared m)) as [|[k' it] l]; [done|]. cbn in *. simplify_eq. cbn.
    destruct (kleb k'.1 ub) eqn:E; [done|].
    apply kleb_false in E. by eapply kleb_trans. }
  destruct k as [key|]; cycle 1.
  { destruct tick as [tk|]; [|done]. cbn in Hnext. simplify_eq. destruct (Htick t eq_refl). auto. }
  destruct (view (shared m)) as [|[k' it] l] eqn:Hv; [done|]. cbn in Hk.
  destruct (kleb k'.1 ub) eqn:E; [|done]. simplify_eq.
  apply Forall_cons in Hfut as [Hf _]. cbn in Hf.
  assert (forall t', kleb t' k'.1 = true ->
    Forall (fun e => kleb t' e.1.1 = true) ((k', it) :: l)) as Hall.
  { intros t' Hle. apply sorted_times; [done|]. intros e He. cbn in He. by simplify_eq. }
  destruct tick as [tk|]; cbn in Hnext; apply (inj Some) in Hnext as <-; [|auto using kleb_refl].
  destruct (Htick tk eq_refl). destruct (kleb tk k'.1) eqn:E2; auto using kleb_refl.
Qed.

Definition ready (k : option (T * Z)) (t : T) m : Prop :=
  match k with
  | Some (tk, _) => if keqb tk t then weak t m /\ peeked t k m else strong t m
  | None => strong t m
  end.

Lemma set_time_ready t0 ub k tick t m :
  strong t0 m -> peeked ub k m ->
  (forall tk, tick = Some tk -> kltb t0 tk = true /\ kleb tk ub = true) ->
  next_time k tick = Some t -> ready k t (with_shared (with_time t (shared m)) m).
Proof.
  intros Hm Hp Htick Hnext.
  destruct (next_time_bounds t0 ub k tick t m Hm Hp Htick Hnext) as (Hlt & Hub & Hall).
  destruct Hm as (Hr & Hs & Ht0). destruct Hp as [Hk Hc]. pose proof Hs as [? ? ? ? ?].
  assert (weak t (with_shared (with_time t (shared m)) m)) as Hw by (split_and!; [done|by split|done]).
  assert ((forall e, head (view (shared m)) = Some e -> kltb t e.1.1 = true) ->
    strong t (with_shared (with_time t (shared m)) m)) as Hstrong.
  { intros Hh. split_and!; [done| |done]. split; try done. cbn.
    apply sorted_times_lt; [by apply pq_sorted|done]. }
  assert (forall e, head (view (shared m)) = Some e -> e.1.1 <> t -> kltb t e.1.1 = true) as Hne.
  { intros e He Hne. destruct (view (shared m)) as [|e' l]; [done|]. cbn in He; simplify_eq.
    apply Forall_cons in Hall as [Hle _]. apply mt_le in Hle. apply mt_lt.
    destruct (decide (mt_nanos e.1.1 = mt_nanos t)) as [E|]; [by apply mt_nanos_inj in E|lia]. }
  destruct k as [[tk o]|]; cbn [ready].
  - destruct (keqb tk t) eqn:E.
    + apply keqb_spec in E as ->. split; [done|].
      destruct (view (shared m)) as [|[k' it] l] eqn:Hv; [done|]. cbn in Hk.
      destruct (kleb k'.1 ub) eqn:E; [|done]. simplify_eq.
      split; change (view (shared (with_shared (with_time t (shared m)) m))) with (view (shared m));
        rewrite Hv; cbn.
      * by rewrite kleb_refl.
      * intros e He _. simplify_eq. by apply (Hc _ eq_refl).
    + apply Hstrong. intros e He. apply Hne; [done|]. intros Heq.
      destruct (view (shared m)) as [|[k' it] l] eqn:Hv; [done|]. cbn in *.
      destruct (kleb k'.1 ub) eqn:E2; [|done]. simplify_eq. cbn in E.
      by rewrite (proj2 (keqb_spec tk tk) eq_refl) in E.
  - apply Hstrong. intros e He. apply Hne; [done|]. intros Heq.
    destruct (view (shared m)) as [|[k' it] l] eqn:Hv; [done|]. cbn in *. simplify_eq. cbn in *.
    by rewrite Hub in Hk.
Qed.

Lemma handle_scheduler_step_strong k t :
  triple (ready k t) (handle_scheduler_step k t) (fun _ m => strong t m) (weak t).
Proof.
  unfold handle_scheduler_step, ready. destruct k as [[tk o]|]; [|by apply triple_ret].
  destruct (keqb tk t) eqn:E; [|by apply triple_ret].
  apply triple_bind_gets. intros n.
  eapply triple_bind with (R := fun _ m => strong t m); [|intros []; by apply triple_ret].
  eapply triple_weaken; [apply (spawn_loop_strong t)|by intros m [? _]|done|done].
Qed.

(** *** Injection, synchronization and execution *)
Lemma injector_pull_strong t :
  triple (strong t) injector_pull (fun _ m => strong t m) (weak t).
Proof.
  intros m (Hr & [? ? ? ? Hi] & Ht). unfold injector_pull.
  pose proof (pq_pull_ok (injector_queue (shared m)) ltac:(done)) as Hp.
  unfold inj_view in Hi. destruct (pq_view (injector_queue (shared m))) as [|e l] eqn:Hv.
  { rewrite Hp. split_and!; [done|split; try done|done]. unfold inj_view; by rewrite Hv. }
  destruct Hp as (q & -> & Hok & Hq & _). apply Forall_cons in Hi as [_ Hi].
  split_and!; [done| |done]. split; try done. unfold inj_view; cbn. by rewrite Hq.
Qed.

Lemma strong_liftO {A} t (o : Outcome (ExecutionError T) A) :
  triple (strong t) (liftO o) (fun _ m => strong t m) (weak t).
Proof.
  eapply triple_weaken; [apply (triple_liftO (strong t) o (weak t)), strong_weak|done| |done].
  by intros ? ? [].
Qed.

Lemma injector_future_strong t it :
  triple (strong t) (injector_future it) (fun _ m => strong t m) (weak t).
Proof.
  unfold injector_future. apply triple_bind_gets. intros r'.
  apply triple_weaken with (P' := strong t) (Q' := fun _ m => strong t m) (X' := weak t);
    [|by intros ? []|done|done].
  destruct it; [| |by apply triple_ret];
    (eapply triple_bind; [apply strong_liftO|intros ?; apply strong_liftO]).
Qed.

Lemma injector_loop_strong t fuel o seq :
  triple (strong t) (injector_loop fuel o seq) (fun _ m => strong t m) (weak t).
Proof.
  revert o seq; induction fuel as [|fuel IH]; intros o seq; cbn [injector_loop].
  { apply triple_panic, strong_weak. }
  eapply triple_bind; [apply injector_pull_strong|]. intros [[id it]|]; [|by apply triple_ret].
  eapply triple_bind; [apply injector_future_strong|]. intros f. cbn beta.
  destruct (id =? o); [apply IH|].
  eapply triple_bind; [apply spawn_weak; by intros|]. intros []. apply IH.
Qed.

Lemma handle_injector_step_strong t :
  triple (strong t) handle_injector_step (fun _ m => strong t m) (weak t).
Proof.
  unfold handle_injector_step. apply triple_bind_gets. intros q.
  apply triple_weaken with (P' := strong t) (Q' := fun _ m => strong t m) (X' := weak t);
    [|by intros ? []|done|done].
  destruct (pq_peek q) as [[o it]|]; [|by apply triple_ret].
  eapply triple_bind; [apply injector_loop_strong|]. intros seq.
  eapply triple_bind; [apply spawn_weak; by intros|]. intros []. by apply triple_ret.
Qed.

Lemma strong_calls t m cs :
  strong t m -> Forall (call_ok r (flags (shared m))) cs ->
  strong t (with_shared (run_calls cs (shared m)) m).
Proof.
  intros (Hr & Hs & Ht) Hcs. split_and!; [done|by apply run_calls_preserves|].
  cbn. by rewrite (fr_time _ _ (run_calls_frame cs (shared m))).
Qed.

Lemma strong_terminated t m :
  strong t m -> strong t (with_shared (with_terminated true (shared m)) m).
Proof. intros (Hr & [] & Ht). split_and!; [done|by split|done]. Qed.

Lemma synchronize_strong t d :
  triple (strong t) (synchronize d) (fun _ m => strong t m) (strong t).
Proof.
  intros m Hm. unfold synchronize.
  destruct (clock_synchronize (clock m) (shared m) d) as [[c cs] st] eqn:E.
  pose proof (strong_calls t m cs Hm (hl_sync _ _ _ _ _ _ E)) as Hm1.
  destruct st as [|lag], (clock_tolerance m) as [tol|]; try done.
  destruct (tol <? lag); [|done].
  by apply (strong_terminated t (set_clock c (with_shared (run_calls cs (shared m)) m))).
Qed.

Lemma run_executor_strong t : triple (strong t) run_executor (fun _ m => strong t m) (strong t).
Proof.
  intros m Hm. unfold run_executor. destruct (is_terminated (shared m)); [done|].
  destruct (ex_run (executor m) (shared m) (timeout m)) as [[x cs] res] eqn:E.
  pose proof (strong_calls t m cs Hm (hl_run _ _ _ _ _ _ E)) as Hm1.
  destruct res as [u|e]; [done|].
  pose proof (strong_terminated t _ Hm1) as Hm2.
  destruct (execution_error _ e); exact Hm2.
Qed.

Lemma take_halt_flag_strong t : triple (strong t) take_halt_flag (fun _ m => strong t m) (weak t).
Proof.
  intros m (Hr & [] & Ht). unfold take_halt_flag. cbv [mbind eff_bind gets].
  destruct (is_halted (shared m)); cbn.
  - split_and!; [done| |done]. apply sched_ok_weak. by split.
  - split_and!; [done|by split|done].
Qed.

Lemma next_tick_strong t0 ub :
  triple (strong t0) (next_tick ub)
    (fun o m => strong t0 m /\ forall tk, o = Some tk -> kltb t0 tk = true /\ kleb tk ub = true) (weak t0).
Proof.
  intros m Hm. unfold next_tick. destruct (ticker m) as [k|]; [|done].
  destruct (tick_next k (time (shared m))) as [[tick k']|] eqn:E; [|by apply strong_weak].
  split; [by destruct Hm|]. intros tk Htk. destruct (kleb tick ub) eqn:Eub; [|done]. simplify_eq.
  split; [|done]. destruct Hm as (_ & _ & <-). by eapply hl_tick.
Qed.

(** The state after a step that failed: time did not go back. *)
Definition failed (t0 : T) m : Prop := exists t, kleb t0 t = true /\ weak t m.

Definition stepped (t0 ub : T) (o : option T) m : Prop :=
  match o with
  | None => strong t0 m /\ Forall (fun e => kltb ub e.1.1 = true) (view (shared m))
  | Some t => strong t m /\ kltb t0 t = true /\ kleb t ub = true
  end.

Lemma no_next_time t0 ub k tick m :
  strong t0 m -> peeked ub k m -> next_time k tick = None ->
  Forall (fun e => kltb ub e.1.1 = true) (view (shared m)).
Proof.
  intros (_ & Hs & _) [Hk _] Hn. destruct k; [by destruct tick|].
  apply sorted_times_lt; [apply pq_sorted, Hs|]. intros e He.
  destruct (view (shared m)) as [|[k' it] l]; [done|]. cbn in *. simplify_eq. cbn.
  destruct (kleb k'.1 ub) eqn:E; [done|]. by rewrite kltb_spec.
Qed.

Lemma weak_failed t0 t m : kleb t0 t = true -> weak t m -> failed t0 m.
Proof. intros; by exists t. Qed.

(** The part of a step that follows the choice of the new time. *)
Lemma step_at t k :
  triple (ready k t)
    (has_events ← handle_scheduler_step k t;
     has_injected ← handle_injector_step;
     synchronize t;;
     (if (has_events : bool) || (has_injected : bool) then run_executor else mret tt);;
     mret (Some t)) (fun o m => o = Some t /\ strong t m) (weak t).
Proof.
  eapply triple_bind; [apply handle_scheduler_step_strong|]. intros b1.
  eapply triple_bind; [apply handle_injector_step_strong|]. intros b2.
  eapply triple_bind.
  { eapply triple_weaken; [apply (synchronize_strong t)|done|intros ? ? H; exact H|apply strong_weak]. }
  intros []. eapply triple_bind with (R := fun _ m => strong t m); [|intros []; by apply triple_ret].
  destruct (_ || _); [|by apply triple_ret].
  eapply triple_weaken; [apply (run_executor_strong t)|done|done|apply strong_weak].
Qed.

Lemma step_to_next_triple t0 (ub : option T) :
  triple (strong t0) (step_to_next ub) (stepped t0 (default mt_max ub)) (failed t0).
Proof.
  set (b := default mt_max ub).
  assert (forall m, weak t0 m -> failed t0 m) as Hwf by (intros; apply (weak_failed t0 t0); [apply kleb_refl|done]).
  unfold step_to_next. fold b.
  eapply triple_bind; [eapply triple_weaken; [apply take_halt_flag_strong|done|intros ? ? H; exact H|done]|].
  intros []. apply triple_bind_gets. intros [].
  { apply triple_throw. intros m [? _]. by apply Hwf, strong_weak. }
  eapply triple_bind.
  { eapply triple_weaken; [apply (next_tick_strong t0)|by intros ? []|intros ? ? H; exact H|done]. }
  intros tick. cbn beta.
  apply triple_pure with (phi := forall tk, tick = Some tk -> kltb t0 tk = true /\ kleb tk b = true);
    [by intros ? []|]. intros Htick.
  eapply triple_bind.
  { eapply triple_weaken; [apply (peek_strong t0)|by intros ? []|intros ? ? H; exact H|done]. }
  intros k. cbn beta. destruct (next_time k tick) as [t|] eqn:Hn; cycle 1.
  { apply triple_ret. intros m []. split; [done|by eapply no_next_time]. }
  apply triple_pure with (phi := kltb t0 t = true /\ kleb t b = true).
  { intros m [Hm Hp]. destruct (next_time_bounds t0 b k tick t m Hm Hp Htick Hn) as (? & ? & _). done. }
  intros [Hlt Hub]. eapply triple_bind with (R := fun _ => ready k t).
  { apply triple_modify. intros m [Hm Hp]. by eapply set_time_ready. }
  intros []. eapply triple_weaken; [apply (step_at t k)|done| |].
  - by intros o m [-> ?].
  - intros m. apply weak_failed. by apply kltb_le.
Qed.
End Invariant.
