(* ===== verification/SimulationTheorems.v ===== *)
(** * The simulation kernel: main theorems

    The functional behaviour of a step, the progress of time, termination of
    [step_until], the halt and termination flags and the mapping of executor
    errors.  [Demo] is a complete concrete simulation on which the statements
    are evaluated. *)

From S2P Require Import Prelude Path Errors Time PriorityQueue QueueItems Effects Scheduler.
From S2P Require Import SchedulerFacts Simulation StepFacts InjectorFacts StepInvariant.
From stdpp Require Import strings.
Import Items.
Local Open Scope Z_scope.

Section Lemmas.
Context `{L : Lang} {T : Type} `{MT : MonoTime T}.
Context {SQ IQ : Type} `{SPQ : !StablePQ (T * Z) QueueItem SQ} `{IPQ : !StablePQ Z InjectorItem IQ}.
Context {X C Tk : Type} `{HO : !Host T SQ IQ X C Tk} (r : SchedulerRegistry) `{HL : !HostLaws r}.
Notation Sm := (Simulation T SQ IQ X C Tk).
Implicit Types (m : Sm).

Lemma set_time_strong t0 t m :
  strong r t0 m -> Forall (fun e => kltb t e.1.1 = true) (view (shared m)) ->
  strong r t (with_shared (with_time t (shared m)) m).
Proof. intros (? & [] & ?) Hv. split_and!; [done|by split|done]. Qed.

(** The end of [step_until] when nothing is left before the target. *)
Lemma finish_until t0 t m :
  ex_window (executor m) (shared m) = [] ->
  strong r t0 m -> Forall (fun e => kltb t e.1.1 = true) (view (shared m)) ->
  exists res m', (modify_shared (run_calls (ex_window (executor m) (shared m)));;
                  modify_shared (with_time t);; synchronize t) m = (res, m') /\ strong r t m'.
Proof.
  intros Hw Hm Hv. rewrite Hw. unfold modify_shared.
  rewrite (bind_val (modify _) _ m tt m) by (by destruct m).
  rewrite (bind_val (modify _) _ m tt (with_shared (with_time t (shared m)) m)) by done.
  pose proof (synchronize_strong r t t _ (set_time_strong t0 t m Hm Hv)) as Hs.
  destruct (synchronize t _) as [[?| |] m']; by eexists _, _.
Qed.

Lemma failed_trans t0 t m : kltb t0 t = true -> failed r t m -> failed r t0 m.
Proof.
  intros Hlt (t' & Hle & Hw). exists t'. split; [|done].
  apply mt_lt in Hlt. apply mt_le in Hle. apply mt_le. lia.
Qed.

Lemma strong_failed t m : strong r t m -> failed r t m.
Proof. intros Hm. exists t. split; [apply kleb_refl|by apply strong_weak]. Qed.

Lemma step_until_unchecked_ok fuel t0 target m :
  (forall x s, ex_window x s = []) ->
  strong r t0 m -> kleb t0 target = true ->
  (Z.to_nat (mt_nanos target - mt_nanos t0) < fuel)%nat ->
  exists res m', step_until_unchecked fuel (Some target) m = Some (res, m') /\
    match res with Val _ => strong r target m' | _ => failed r t0 m' end.
Proof.
  intros Hwin. revert t0 m; induction fuel as [|fuel IH]; intros t0 m Hm Hle Hfuel; [lia|].
  cbn [step_until_unchecked]. pose proof (step_to_next_triple r t0 (Some target) m Hm) as Hs.
  change (default mt_max (Some target)) with target in Hs.
  destruct (step_to_next (Some target) m) as [[o| |] m1];
    [|by eexists _, _..].
  destruct o as [t|]; cbn [stepped] in Hs.
  - destruct Hs as (Hm1 & Hlt & Hub). destruct (decide (Some t = Some target)) as [E|Hne].
    { simplify_eq. by eexists _, _. }
    assert (mt_nanos t0 < mt_nanos t <= mt_nanos target) as Hb
      by (apply mt_lt in Hlt; apply mt_le in Hub; lia).
    destruct (IH t m1 Hm1 Hub) as (res & m' & -> & Hres); [lia|].
    exists res, m'. split; [done|]. destruct res; [done|by eapply failed_trans..].
  - destruct Hs as [Hm1 Hv]. rewrite decide_False by done.
    destruct (finish_until t0 target m1 (Hwin _ _) Hm1 Hv) as (res & m' & -> & Hf).
    exists res, m'. split; [done|].
    destruct res; [done|..]; (eapply (weak_failed r t0 target); [done|by apply strong_weak]).
Qed.

(** The state in which [step_until] returns from a start at [t0]: the target is
    reached and all that is left is later, save for what other threads scheduled
    ([late]) after the last step had looked at the queue, at some time [time s] up to
    the target, and before the target was written to the simulation time. *)
Definition reached (t0 target : T) m : Prop :=
  time (shared m) = target /\
  exists late rest, view (shared m) ≡ₚ late ++ rest /\
    Forall (fun e => kltb target e.1.1 = true) rest /\
    (late = [] \/
     exists x s, kleb t0 (time s) = true /\ kleb (time s) target = true /\
       Forall (fun e => kltb target e.1.1 = true) (view s) /\
       view (run_calls (ex_window x s) s) ≡ₚ late ++ view s /\
       Forall (fun e => kltb (time s) e.1.1 = true) late).

Lemma strong_reached t0 t m : strong r t m -> reached t0 t m.
Proof.
  intros (_ & Hs & Ht). split; [done|]. exists [], (view (shared m)). split_and!; [done| |by left].
  rewrite <- Ht. apply Hs.
Qed.

Lemma synchronize_adds t m res m' : synchronize t m = (res, m') -> adds (shared m) (shared m').
Proof.
  unfold synchronize. destruct (clock_synchronize _ _ _) as [[c cs] st]. intros H.
  pose proof (run_calls_adds cs (shared m)) as Ha.
  assert (adds (run_calls cs (shared m)) (shared m')) as Hb.
  { repeat case_match; simplify_eq; try done. by apply adds_same. }
  by etransitivity.
Qed.

(** The end of [step_until], whatever other threads do in the window. *)
Lemma finish_reached t0 t1 t m :
  kleb t0 t1 = true -> kleb t1 t = true ->
  strong r t1 m -> Forall (fun e => kltb t e.1.1 = true) (view (shared m)) ->
  exists res m', (modify_shared (run_calls (ex_window (executor m) (shared m)));;
                  modify_shared (with_time t);; synchronize t) m = (res, m') /\ reached t0 t m'.
Proof.
  intros H0 H1 (_ & Hs & Ht) Hv. unfold modify_shared.
  set (s := shared m) in *. set (w := run_calls (ex_window (executor m) s) s). set (m2 := with_shared (with_time t w) m).
  change (exists res m', synchronize t m2 = (res, m') /\ reached t0 t m').
  destruct (synchronize t m2) as [res m'] eqn:E. exists res, m'. split; [done|].
  destruct (run_calls_adds (ex_window (executor m) s) s) as [_ Hw].
  destruct (Hw (so_queue _ _ Hs)) as (Hok & late & Hl & Fl). fold w in Hl, Hok.
  apply synchronize_adds in E as [Et Hq]. destruct (Hq Hok) as (_ & l & Hl' & Fl'). split; [done|].
  exists late, (l ++ view s). split_and!.
  - rewrite Hl'. change (view (shared m2)) with (view w). rewrite Hl. solve_Permutation.
  - by apply Forall_app.
  - right. exists (executor m), s. rewrite Ht. split_and!; try done. by rewrite <- Ht.
Qed.

Lemma step_until_unchecked_reached fuel t0 t1 target m :
  strong r t1 m -> kleb t0 t1 = true -> kleb t1 target = true ->
  (Z.to_nat (mt_nanos target - mt_nanos t1) < fuel)%nat ->
  exists res m', step_until_unchecked fuel (Some target) m = Some (res, m') /\
    match res with Val _ => reached t0 target m' | _ => kleb t0 (time (shared m')) = true end.
Proof.
  revert t1 m; induction fuel as [|fuel IH]; intros t1 m Hm H0 Hle Hfuel; [lia|].
  cbn [step_until_unchecked]. pose proof (step_to_next_triple r t1 (Some target) m Hm) as Hs.
  change (default mt_max (Some target)) with target in Hs.
  assert (forall m, failed r t1 m -> kleb t0 (time (shared m)) = true) as Hfail.
  { intros m' (t & Htt & (_ & _ & ->)). by eapply kleb_trans. }
  destruct (step_to_next (Some target) m) as [[o| |] m1]; [|eexists _, _; split; [done|]; by apply Hfail..].
  destruct o as [t|]; cbn [stepped] in Hs.
  - destruct Hs as (Hm1 & Hlt & Hub). destruct (decide (Some t = Some target)) as [E|Hne].
    { simplify_eq. eexists _, _. split; [done|]. by apply strong_reached. }
    apply (IH t m1 Hm1); [|done|].
    + eapply kleb_trans; [exact H0|by apply kltb_le].
    + apply mt_lt in Hlt; apply mt_le in Hub; lia.
  - destruct Hs as [Hm1 Hv]. rewrite decide_False by done.
    destruct (finish_reached t0 t1 target m1 H0 Hle Hm1 Hv) as (res & m' & -> & Hf).
    exists res, m'. split; [done|]. destruct Hf as [Ht Hf].
    destruct res; [done|..]; rewrite Ht; by eapply kleb_trans.
Qed.

(** [run] terminates, and returns normally only when nothing is left to do. *)
Lemma run_ok fuel t0 m :
  strong r t0 m -> (Z.to_nat (mt_nanos mt_max - mt_nanos t0) < fuel)%nat ->
  exists res m', step_until_unchecked fuel None m = Some (res, m') /\
    match res with
    | Val _ => exists t, strong r t m' /\ kleb t0 t = true /\ view (shared m') = []
    | _ => failed r t0 m'
    end.
Proof.
  revert t0 m; induction fuel as [|fuel IH]; intros t0 m Hm Hfuel; [lia|].
  cbn [step_until_unchecked]. pose proof (step_to_next_triple r t0 None m Hm) as Hs.
  change (default mt_max None) with (mt_max (T := T)) in Hs.
  destruct (step_to_next None m) as [[o| |] m1]; [|by eexists _, _..].
  destruct o as [t|]; cbn [stepped] in Hs.
  - destruct Hs as (Hm1 & Hlt & Hub). rewrite decide_False by done.
    assert (mt_nanos t0 < mt_nanos t <= mt_nanos mt_max) as Hb
      by (apply mt_lt in Hlt; apply mt_le in Hub; lia).
    destruct (IH t m1 Hm1) as (res & m' & -> & Hres); [lia|].
    exists res, m'. split; [done|]. destruct res; [|by eapply failed_trans..].
    destruct Hres as (t' & ? & Ht' & ?). exists t'. split_and!; [done| |done].
    apply mt_le in Ht'. apply mt_le. lia.
  - rewrite decide_True by done. destruct Hs as [Hm1 Hv]. eexists _, _. split; [done|].
    exists t0. split_and!; [done|apply kleb_refl|].
    destruct (view (shared m1)) as [|e l]; [done|]. apply Forall_cons in Hv as [Hmax _].
    apply mt_lt in Hmax. pose proof (mt_max_spec e.1.1). lia.
Qed.
End Lemmas.

(** ** A concrete simulation

    The executor records the tasks it receives.  When it runs, the function
    with index 1 of a model schedules the event source 0 again after the delay
    it receives, the function with index 2 panics; the others do nothing. *)
Module Demo.
#[export] Existing Instance demo_lang.

Notation T := Nano.time (only parsing).
Notation SQ := (PriorityQueue.PriorityQueue (T * Z) QueueItem) (only parsing).
Notation IQ := (PriorityQueue.PriorityQueue Z InjectorItem) (only parsing).

Record X : Type := mkX { log : list Task; pending : list Fut }.
Notation C := Z (only parsing).
Notation Tk := (Ticker.PeriodicTicker T) (only parsing).

Definition registry : SchedulerRegistry :=
  mkRegistry [InputSource 0 0 0%nat; InputSource 0 1 0%nat; InputSource 1 2 0%nat; EventSource 0 1%nat]
             [QuerySource 0 0%nat 1%nat].
Definition id (n : Z) : EventId := mkEventId n 0%nat.

Definition task_futures (t : Task) : list Fut := match t with SeqTask fs => fs | OneTask f => [f] end.

Definition fut_calls (fl : list bool) (f : Fut) : list (ApiCall T) :=
  match input_message fl f with
  | Some (mailbox, 1%nat, delay) => [CallEvent (Deadline.Relative delay) (id 0) delay (Z.of_nat mailbox)]
  | _ => []
  end.
Definition fut_panics (fl : list bool) (f : Fut) : option Z :=
  match input_message fl f with
  | Some (mailbox, 2%nat, _) => Some (Z.of_nat mailbox)
  | _ => None
  end.

Definition run_models (x : X) (s : Shared T SQ IQ) : X * list (ApiCall T) * Result unit ExecutorError :=
  (mkX (log x) [], mbind (fut_calls (flags s)) (pending x),
   match head (omap (fut_panics (flags s)) (pending x)) with
   | Some mailbox => Err (ExecPanic mailbox (mkAny 0%nat 0))
   | None => Ok tt
   end).

Definition tick (k : Tk) (t : T) : option (T * Tk) :=
  if (0 <? Ticker.period k) && (Ticker.period k <=? duration_max) then Ticker.next_tick k t else None.

(** [window]: the calls of another thread, see [Host]. *)
Definition host (window : list (ApiCall T)) : Host T SQ IQ X C Tk :=
  {| ex_spawn x t := mkX (log x ++ [t]) (pending x ++ task_futures t);
     ex_run x s _ := run_models x s;
     ex_mailbox_len _ i := Z.of_nat i;
     ex_reply _ _ := None;
     clock_synchronize c _ _ := (c, [], if c =? 0 then Clock.Synchronized else Clock.OutOfSync c);
     tick_next := tick;
     ex_window _ _ := window |}.

Lemma registry_id0 : event_id_ok registry (id 0).
Proof. by eexists. Qed.

Lemma fut_calls_ok fl f : Forall (call_ok registry fl) (fut_calls fl f).
Proof.
  unfold fut_calls. destruct (input_message fl f) as [[[mb fn] v]|]; [|constructor].
  destruct fn as [|[|?]]; repeat constructor; apply registry_id0.
Qed.

#[export] Instance host_laws window : HostLaws (HO := host window) registry.
Proof.
  split.
  - intros x s d x' cs res H. cbn in H. unfold run_models in H. simplify_eq.
    apply Forall_bind, Forall_forall. intros f _. apply fut_calls_ok.
  - intros c s t c' cs st H. cbn in H. simplify_eq. constructor.
  - intros k t t' k' H. cbn in H. unfold tick in H.
    destruct ((0 <? Ticker.period k) && (Ticker.period k <=? duration_max)) eqn:E; [|done].
    assert (Ticker.wf k) as Hwf by (unfold Ticker.wf; lia).
    apply (Ticker.next_tick_nanos k t t' k' Hwf) in H as [Ht _].
    apply mt_lt. rewrite Ht. apply Ticker.next_nanos_spec. apply Hwf.
Qed.

Definition at_ (ns : Z) : T := Nano.at_ns ns.

Definition shared0 : Shared T SQ IQ :=
  mkShared PriorityQueue.new PriorityQueue.new (at_ 0) [] 0 false false.
Definition sim0 : Simulation T SQ IQ X C Tk :=
  mkSim (mkX [] []) shared0 registry 0 None None 0
    [(["a"]%string, 0%nat); (["b"]%string, 2%nat)] [mkRegistered ["a"]%string 0; mkRegistered ["b"]%string 1].

(** The state after a sequence of calls. *)
Definition sim (calls : list (ApiCall T)) : Simulation T SQ IQ X C Tk :=
  with_shared (run_calls calls shared0) sim0.

Lemma sim_strong calls : Forall (call_ok registry []) calls -> strong registry (at_ 0) (sim calls).
Proof.
  intros Hc. assert (sched_ok registry shared0) as H0.
  { split; [apply PriorityQueue.new_wf|apply PriorityQueue.new_wf|constructor..]. }
  split_and!; [done|by apply run_calls_preserves|]. apply (fr_time _ _ (run_calls_frame calls shared0)).
Qed.

Definition event (t : Z) (n : Z) (v : Z) (origin : Z) : ApiCall T :=
  CallEvent (Deadline.Absolute (at_ t)) (id n) v origin.
Definition periodic (t p : Z) (n : Z) (v : Z) (origin : Z) : ApiCall T :=
  CallPeriodic (Deadline.Absolute (at_ t)) p (id n) v origin.

Lemma event_call_ok fl t n v o : 0 <= n < 3 -> call_ok registry fl (event t n v o).
Proof.
  intros Hn. assert (n = 0 \/ n = 1 \/ n = 2) as Hc by lia.
  destruct Hc as [->|Hc]; [|destruct Hc as [-> | ->]]; by eexists.
Qed.

Lemma periodic_call_ok fl t p n v o : 0 <= p -> 0 <= n < 3 -> call_ok registry fl (periodic t p n v o).
Proof.
  intros Hp Hn. split; [done|]. apply (event_call_ok fl t n v o Hn).
Qed.

(** Two origins with two events each, a periodic event and a later event; the
    function 1 reschedules. *)
Definition scenario : list (ApiCall T) :=
  [event 5 0 10 1; event 5 1 3 0; event 5 0 11 1; periodic 5 7 0 12 0; event 9 0 13 1].

Lemma scenario_ok : Forall (call_ok registry []) scenario.
Proof.
  unfold scenario. repeat constructor; try (apply event_call_ok; lia). 1: done.
  apply registry_id0.
Qed.

Example scenario_step :
  let m := exec (step (HO := host [])) (sim scenario) in
  log (executor m) =
    [SeqTask [FutInput 0 1 3 None; FutInput 0 0 12 None];
     SeqTask [FutInput 0 0 10 None; FutInput 0 0 11 None]] /\
  map (fun e : (T * Z) * QueueItem => (mt_nanos e.1.1, e.1.2)) (view (shared m)) = [(8, 0); (9, 1); (12, 0)].
Proof. vm_compute. split; reflexivity. Qed.
End Demo.

(** ** Claims *)
Section Claims.
Context `{L : Lang} {T : Type} `{MT : MonoTime T}.
Context {SQ IQ : Type} `{SPQ : !StablePQ (T * Z) QueueItem SQ} `{IPQ : !StablePQ Z InjectorItem IQ}.
Context {X C Tk : Type} `{HO : !Host T SQ IQ X C Tk}.
Notation Sm := (Simulation T SQ IQ X C Tk).
Implicit Types (m : Sm).

Lemma step_until_target (r : SchedulerRegistry) `{!HostLaws r} m t0 dl target fuel :
  (forall x s, ex_window x s = []) ->
  strong r t0 m -> Deadline.into_time dl t0 = Some target -> kleb t0 target = true ->
  (Z.to_nat (mt_nanos target - mt_nanos t0) < fuel)%nat ->
  exists res m', step_until fuel dl m = Some (res, m') /\
    match res with Val _ => strong r target m' | _ => failed r t0 m' end.
Proof.
  intros Hw Hm Hdl Hle Hfuel. unfold step_until. pose proof Hm as (_ & _ & ->). rewrite Hdl.
  unfold kltb. rewrite Hle. cbn [negb]. by apply step_until_unchecked_ok.
Qed.

(** What [step_until] ends with, whatever other threads do. *)
Lemma step_until_ends (r : SchedulerRegistry) `{!HostLaws r} m t0 dl target fuel :
  strong r t0 m -> Deadline.into_time dl t0 = Some target -> kleb t0 target = true ->
  (Z.to_nat (mt_nanos target - mt_nanos t0) < fuel)%nat ->
  exists res m', step_until fuel dl m = Some (res, m') /\
    match res with Val _ => reached t0 target m' | _ => kleb t0 (time (shared m')) = true end.
Proof.
  intros Hm Hdl Hle Hfuel. unfold step_until. pose proof Hm as (_ & _ & ->). rewrite Hdl.
  unfold kltb. rewrite Hle. cbn [negb]. apply (step_until_unchecked_reached r fuel t0 t0); try done. apply kleb_refl.
Qed.

(** C1: from a state in which every scheduled item lies in the future,
    [step_until] terminates for every deadline that is not in the past (one
    iteration per nanosecond up to the target suffices), whatever other threads
    schedule meanwhile.  When it returns normally the simulation time is exactly the
    target, and every item still in the queue is strictly later, except for what other
    threads scheduled between the last look at the queue and the update of the time
    (the window of [step_until_window_race]); if nothing is scheduled in this window then every
    item is strictly later and the invariant holds again.  When it fails time has not
    gone back. *)
Theorem step_until_reaches_target (r : SchedulerRegistry) `{!HostLaws r} m t0 dl target fuel :
  scheduler_registry m = r -> sched_ok r (shared m) -> time (shared m) = t0 ->
  Deadline.into_time dl t0 = Some target -> kleb t0 target = true ->
  (Z.to_nat (mt_nanos target - mt_nanos t0) < fuel)%nat ->
  exists res m', step_until fuel dl m = Some (res, m') /\
    match res with
    | Val _ => reached t0 target m' /\
        ((forall x s, ex_window x s = []) ->
         sched_ok r (shared m') /\ Forall (fun e => kltb target e.1.1 = true) (view (shared m')))
    | _ => kleb t0 (time (shared m')) = true
    end.
Proof.
  intros Hr Hs Ht Hdl Hle Hfuel. assert (strong r t0 m) as Hm by done.
  destruct (step_until_ends r m t0 dl target fuel Hm Hdl Hle Hfuel) as (res & m' & E & Hres).
  exists res, m'. split; [done|]. destruct res; [|done..]. split; [done|]. intros Hw.
  destruct (step_until_target r m t0 dl target fuel Hw Hm Hdl Hle Hfuel) as (res2 & m2 & E2 & H2).
  rewrite E in E2. simplify_eq. destruct H2 as (_ & Hs' & Ht'). split; [done|]. rewrite <- Ht'. apply Hs'.
Qed.

(** C3: one step, from a state in which every scheduled item lies strictly in the
    future (all operations preserve this, except for the window at the end of [step_until],
    see [step_until_window_race]).  If it returns a time, this is the new simulation time, it
    is strictly later than the previous one and within the bound; if it
    returns none, time has not moved and nothing is scheduled up to the
    bound.  In both cases everything left in the queue is strictly in the
    future.  A step that fails never moves time backwards and leaves nothing
    in the past. *)
Theorem step_to_next_sound (r : SchedulerRegistry) `{!HostLaws r} m t0 ub :
  scheduler_registry m = r -> sched_ok r (shared m) -> time (shared m) = t0 ->
  match step_to_next ub m with
  | (Val (Some t), m') =>
      time (shared m') = t /\ kltb t0 t = true /\ kleb t (default mt_max ub) = true /\
      sched_ok r (shared m')
  | (Val None, m') =>
      time (shared m') = t0 /\ sched_ok r (shared m') /\
      Forall (fun e => kltb (default mt_max ub) e.1.1 = true) (view (shared m'))
  | (_, m') =>
      kleb t0 (time (shared m')) = true /\
      Forall (fun e => kleb (time (shared m')) e.1.1 = true) (view (shared m'))
  end.
Proof.
  intros Hr Hs Ht. assert (strong r t0 m) as Hm by done.
  pose proof (step_to_next_triple r t0 ub m Hm) as H.
  destruct (step_to_next ub m) as [[[t|]|e|] m']; cbn in H.
  - by destruct H as ((_ & ? & ?) & ? & ?).
  - by destruct H as ((_ & ? & ?) & ?).
  - destruct H as (t & Hle & (_ & Hw & Ht')). split; [by rewrite Ht'|apply Hw].
  - destruct H as (t & Hle & (_ & Hw & Ht')). split; [by rewrite Ht'|apply Hw].
Qed.

(** [run] terminates (each iteration advances time by at least one
    nanosecond, so the number of nanoseconds left on the timeline bounds the
    iterations), and it returns normally only once no item is left in the
    scheduler queue; time never goes back. *)
Theorem run_exhausts_queue (r : SchedulerRegistry) `{!HostLaws r} m t0 fuel :
  scheduler_registry m = r -> sched_ok r (shared m) -> time (shared m) = t0 ->
  (Z.to_nat (mt_nanos mt_max - mt_nanos t0) < fuel)%nat ->
  exists res m', run fuel m = Some (res, m') /\ kleb t0 (time (shared m')) = true /\
    match res with Val _ => view (shared m') = [] | _ => True end.
Proof.
  intros Hr Hs Ht Hfuel. assert (strong r t0 m) as Hm by done.
  destruct (run_ok r fuel t0 m Hm Hfuel) as (res & m' & E & H). exists res, m'. split; [done|].
  destruct res.
  - destruct H as (t & (_ & _ & ->) & ? & ?). done.
  - destruct H as (t & ? & (_ & _ & ->)). done.
  - destruct H as (t & ? & (_ & _ & ->)). done.
Qed.

(** What is due: the items at time [t] that are not cancelled. *)
Definition due (t : T) m : list ((T * Z) * QueueItem) :=
  live (flags (shared m)) (due_at t (view (shared m))).

(** The cancelled items before the first live one have been discarded. *)
Lemma due_drop_cancelled t ub fl (l : list ((T * Z) * QueueItem)) :
  live fl (due_at t (drop_cancelled ub fl l)) = live fl (due_at t l) .
Proof.
  induction l as [|[k it] l IH]; [done|]. cbn [drop_cancelled].
  destruct (kleb k.1 ub && cancelled fl it) eqn:E; [|done]. rewrite IH.
  apply andb_true_iff in E as [_ Hc]. unfold due_at at 2. rewrite filter_cons.
  case_decide; [|done]. rewrite live_cons. cbn. by rewrite Hc.
Qed.

Lemma later_drop_cancelled ub fl (l l' : list ((T * Z) * QueueItem)) t o it :
  key_sorted l -> drop_cancelled ub fl l = ((t, o), it) :: l' ->
  later t (drop_cancelled ub fl l) = later t l.
Proof.
  intros Hs Hd. destruct (drop_cancelled_suffix ub fl l) as [pre Hpre].
  rewrite Hd in *. rewrite Hpre in Hs |- *. unfold later at 2. rewrite filter_app.
  assert (filter (fun e => kltb t e.1.1 = true) pre = []) as ->; [|done].
  apply elem_of_nil_inv. intros e [Hlt Hin]%list_elem_of_filter.
  assert (kleb e.1 (t, o) = true) as Hle
    by (apply (StronglySorted_app_1_elem_of _ _ _ _ ((t, o), it) Hs Hin); by left).
  apply key_leb_time in Hle. apply mt_le in Hle. apply mt_lt in Hlt. cbn in Hle. lia.
Qed.

Lemma due_sorted t m :
  pq_ok (scheduler_queue (shared m)) -> key_sorted (due t m).
Proof. intros Hok. do 2 apply StronglySorted_filter. by apply pq_sorted. Qed.

(** The state in which [handle_scheduler_step] starts. *)
Lemma peek_some m ub t o m1 :
  pq_ok (scheduler_queue (shared m)) -> peek_next_key ub m = (Val (Some (t, o)), m1) ->
  exists q it l, m1 = upd m q (executor m) /\ pq_ok q /\
    pq_epoch q = pq_epoch (scheduler_queue (shared m)) /\
    pq_view q = drop_cancelled ub (flags (shared m)) (view (shared m)) /\
    pq_view q = ((t, o), it) :: l /\ cancelled (flags (shared m)) it = false.
Proof.
  intros Hok Hpeek. rewrite <- (upd_self m) in Hpeek.
  destruct (peek_next_key_spec m (scheduler_queue (shared m)) (executor m) ub Hok)
    as (q & E & Hq & Hv & He). rewrite E in Hpeek. clear E. fold (view (shared m)) in Hv, Hpeek.
  apply (inj2 pair) in Hpeek as [Hk <-]. injection Hk as Hk.
  exists q. pose proof (drop_cancelled_head ub (flags (shared m)) (view (shared m))) as Hc.
  rewrite <- Hv in Hk, Hc. destruct (pq_view q) as [|[k it] l]; [done|]. cbn in Hk.
  destruct (kleb k.1 ub) eqn:Eu; [|done]. simplify_eq. exists it, l. split_and!; try done.
  by apply (Hc ((t, o), it)).
Qed.

(** C2: when the next key is at time [t], the atomic part of a step hands over
    to the executor exactly the items due at [t] that are not cancelled: one
    task per origin, the origins in increasing order, each task holding the
    futures of all the items of its origin in queue order; the queue keeps the
    later items, to which each periodic event is added again one period
    later. *)
Theorem scheduler_step_spawns m ub t o q m1 :
  let r := scheduler_registry m in
  sched_ok r (shared m) ->
  peek_next_key ub m = (Val (Some (t, o)), m1) ->
  q = scheduler_queue (shared m) ->
  Forall (fun e => forall p, item_period e.2 = Some p -> is_Some (mt_add t p)) (view (shared m)) ->
  pq_epoch q + Z.of_nat (length (pq_view q)) <= u64_max ->
  exists q' tasks,
    handle_scheduler_step (Some (t, o)) t m1 =
      (Val true, upd m q' (fold_left ex_spawn (SeqTask <$> tasks) (executor m))) /\
    Forall2 (fun g fs => futures_of (T := T) r g.2 fs) (group (due t m)) tasks /\
    StronglySorted (fun k k' => kltb k k' = true) (group (due t m)).*1 /\
    mjoin ((fun g => (fun it => (g.1, it)) <$> g.2) <$> group (due t m)) = due t m /\
    pq_ok q' /\
    pq_view q' = fold_left reinsert (due t m) (later t (view (shared m))).
Proof.
  intros r Hs Hpeek -> Hadd He. pose proof Hs as [Hok _ _ Hitems _].
  destruct (peek_some m ub t o m1 Hok Hpeek) as (q & it & l & -> & Hq & Heq & Hv & Hvl & Hc).
  pose proof (drop_cancelled_suffix ub (flags (shared m)) (view (shared m))) as Hsuf.
  pose proof (suffix_length _ _ Hsuf) as Hlen. rewrite <- Hv in Hsuf, Hlen.
  destruct (handle_scheduler_step_spec (upd m q (executor m)) t o it l)
    as (q' & tasks & Hstep & Htasks & Hok' & Hv'); try done.
  - by eapply Forall_suffix.
  - apply Forall_forall. intros e [_ Hin]%list_elem_of_filter.
    pose proof (Forall_suffix _ _ _ Hsuf Hadd) as Hadd'. rewrite Forall_forall in Hadd'. by apply Hadd'.
  - change (pq_epoch q + Z.of_nat (length (pq_view q)) <= u64_max). unfold view in Hlen. lia.
  - change (view (shared (upd m q (executor m)))) with (pq_view q) in *.
    change (flags (shared (upd m q (executor m)))) with (flags (shared m)) in *.
    assert (live (flags (shared m)) (due_at t (pq_view q)) = due t m) as Hdue
      by (rewrite Hv; apply due_drop_cancelled).
    assert (later t (pq_view q) = later t (view (shared m))) as Hlat.
    { rewrite Hv. rewrite Hvl in Hv. eapply later_drop_cancelled; [by apply pq_sorted|by rewrite <- Hv]. }
    rewrite Hdue in Htasks, Hv'. rewrite Hlat in Hv'.
    exists q', tasks. split_and!; [exact Hstep|exact Htasks| | |done|done].
    + apply group_sorted_NoDup. by apply due_sorted.
    + apply group_concat.
Qed.

(** The injector step hands over every injected item, one task per
    origin, in injection order within an origin, and empties the injector
    queue; it reports whether there was anything to run. *)
Theorem injector_step_spawns m :
  pq_ok (injector_queue (shared m)) ->
  Forall (fun e => inj_item_ok (scheduler_registry m) e.2) (inj_view (shared m)) ->
  exists q' fl,
    Forall2 (fun e kf => kf.1 = e.1 /\ inj_future (T := T) (scheduler_registry m) e.2 = Val kf.2)
      (inj_view (shared m)) fl /\
    handle_injector_step m =
      (Val (negb (bool_decide (inj_view (shared m) = []))),
       inj_upd m q' (fold_left ex_spawn (SeqTask <$> (group fl).*2) (executor m))) /\
    mjoin ((fun g => (fun f => (g.1, f)) <$> g.2) <$> group fl) = fl /\
    pq_view q' = [].
Proof.
  intros Hok Hi. destruct (handle_injector_step_spec m Hok Hi) as (q' & fl & ? & ? & _ & ?).
  exists q', fl. split_and!; [done|done|apply group_concat|done].
Qed.

(** A terminated simulation stays so: neither steps nor events nor
    queries are processed any more, and time, queues and flags do not change
    (only a pending halt request is consumed first). *)
Theorem terminated_is_final m fuel tgt ub f :
  is_terminated (shared m) = true ->
  let m1 := with_shared (with_halted false (shared m)) m in
  let err := if is_halted (shared m) then Halted else Terminated in
  step_to_next ub m = (Fail err, m1) /\
  step_until_unchecked (S fuel) tgt m = Some (Fail err, m1) /\
  process_future f m =
    (Fail err, if is_halted (shared m) then m1 else with_executor (ex_spawn (executor m) (OneTask f)) m) /\
  run_executor m = (Fail Terminated, m) /\
  is_terminated (shared m1) = true.
Proof.
  intros Ht. cbn zeta.
  assert (is_halted (shared m) = false -> with_shared (with_halted false (shared m)) m = m) as Hsame.
  { destruct m as [? [] ? ? ? ? ? ? ?]. cbn. by intros ->. }
  assert (step_to_next ub m = (Fail (if is_halted (shared m) then Halted else Terminated),
    with_shared (with_halted false (shared m)) m)) as Hstep.
  { unfold step_to_next, take_halt_flag. cbv [mbind eff_bind gets mret eff_ret].
    destruct (is_halted (shared m)) eqn:Hh; [done|]. rewrite Ht. by rewrite Hsame. }
  assert (step_to_next tgt m = (Fail (if is_halted (shared m) then Halted else Terminated),
    with_shared (with_halted false (shared m)) m)) as Hstep'.
  { revert Hstep. unfold step_to_next, take_halt_flag. cbv [mbind eff_bind gets mret eff_ret].
    destruct (is_halted (shared m)) eqn:Hh; [done|]. by rewrite Ht. }
  split_and!; [done| | | |done].
  - cbn [step_until_unchecked]. by rewrite Hstep'.
  - unfold process_future, take_halt_flag, run_executor, spawn_and_forget, modify.
    cbv [mbind eff_bind gets mret eff_ret]. destruct (is_halted (shared m)) eqn:Hh; [done|].
    cbn. by rewrite Ht.
  - unfold run_executor. by rewrite Ht.
Qed.

(** Whenever running the executor does not succeed, whatever the reason
    (including an internal panic), the simulation is terminated afterwards;
    likewise when the clock is out of sync beyond the tolerance. *)
Theorem failure_terminates m d :
  (outcome run_executor m <> Val tt -> is_terminated (shared (exec run_executor m)) = true) /\
  (outcome (synchronize d) m <> Val tt -> is_terminated (shared (exec (synchronize d) m)) = true).
Proof.
  unfold exec, outcome. split.
  - unfold run_executor. destruct (is_terminated (shared m)) eqn:E; [done|].
    by destruct (ex_run (executor m) (shared m) (timeout m)) as [[x cs] [[]|e]].
  - unfold synchronize. destruct (clock_synchronize (clock m) (shared m) d) as [[c cs] st].
    destruct st as [|lag], (clock_tolerance m) as [tol|]; try done. by destruct (tol <? lag).
Qed.

(** The mailboxes that still hold messages. *)
Definition stuck_mailboxes (x : X) (obs : list (Path.Path * nat)) : list DeadlockInfo :=
  (fun o => mkDeadlockInfo o.1 (ex_mailbox_len x o.2)) <$>
    filter (fun o => ex_mailbox_len x o.2 <> 0) obs.

Lemma deadlock_info_spec m : deadlock_info m = stuck_mailboxes (executor m) (observers m).
Proof.
  unfold deadlock_info, stuck_mailboxes. induction (observers m) as [|o l IH]; [done|].
  cbn [foldr]. rewrite filter_cons. destruct (Z.eqb_spec (ex_mailbox_len (executor m) o.2) 0).
  - rewrite decide_False by lia. exact IH.
  - rewrite decide_True by done. rewrite IH. done.
Qed.

(** The reports of a failed run.  Unprocessed messages are a deadlock
    reporting exactly the observed mailboxes that are not empty, in
    registration order, or a message loss when all are empty; a panic raised
    by a send error is a missing recipient, any other panic is attributed to
    the model with the identifier of the panic. *)
Theorem run_executor_reports m x cs e :
  is_terminated (shared m) = false ->
  ex_run (executor m) (shared m) (timeout m) = (x, cs, Err e) ->
  outcome run_executor m =
    match e with
    | UnprocessedMessages n =>
        match stuck_mailboxes x (observers m) with
        | [] => Fail (MessageLoss n)
        | info => Fail (Deadlock info)
        end
    | ExecTimeout => Fail Timeout
    | ExecPanic id payload =>
        if decide (id = usize_max) then
          if decide (any_type payload = send_error_type) then Fail (NoRecipient None) else Panic
        else match registered_models m !! Z.to_nat id with
             | None => Panic
             | Some p => if decide (any_type payload = send_error_type)
                         then Fail (NoRecipient (Some (rm_path p))) else Fail (ModelPanic (rm_path p) payload)
             end
    end.
Proof.
  intros Ht Hrun. unfold outcome, run_executor. rewrite Ht, Hrun. cbn [fst].
  destruct e as [n| |id payload]; cbn [execution_error].
  - by rewrite deadlock_info_spec.
  - done.
  - unfold ModelId.get. destruct (Z.eqb_spec id usize_max).
    + rewrite decide_True by done. cbn. by case_decide.
    + rewrite decide_False by done. cbn. by destruct (registered_models m !! Z.to_nat id).
Qed.

(** A halt request makes the next step return [Halted] without touching
    time, queues or executor, and is consumed by it: the following step
    behaves as if there had been no request. *)
Theorem halt_is_consumed m ub :
  is_halted (shared m) = false ->
  let m1 := with_shared (with_halted true (shared m)) m in
  step_to_next ub m1 = (Fail Halted, m) /\
  step_to_next ub (exec (step_to_next ub) m1) = step_to_next ub m.
Proof.
  intros Hh. cbn zeta. set (m1 := with_shared _ m).
  assert (step_to_next ub m1 = (Fail Halted, m)) as E.
  { unfold step_to_next, take_halt_flag. cbv [mbind eff_bind gets]. cbn.
    f_equal. destruct m as [? [] ? ? ? ? ? ? ?]. cbn in *. by rewrite Hh. }
  split; [done|]. unfold exec. by rewrite E.
Qed.
End Claims.

Section ApiClaims.
Context `{L : Lang} {T : Type} `{MT : MonoTime T}.
Context {SQ IQ : Type} `{SPQ : !StablePQ (T * Z) QueueItem SQ} `{IPQ : !StablePQ Z InjectorItem IQ}.
Notation Sh := (Shared T SQ IQ).
Implicit Types (s : Sh).

(** Any sequence of calls of the scheduling API, by any number of
    threads and models, keeps the invariant of the shared state (queues
    well-formed, every item strictly in the future, positive periods,
    existing keys, well-typed items), does not move time and removes nothing
    from the scheduler queue. *)
Theorem api_calls_preserve (r : SchedulerRegistry) s (cs : list (ApiCall T)) :
  sched_ok r s -> Forall (call_ok r (flags s)) cs ->
  sched_ok r (run_calls cs s) /\ time (run_calls cs s) = time s /\
  exists l, view (run_calls cs s) ≡ₚ l ++ view s.
Proof.
  intros Hs Hcs. pose proof (run_calls_frame cs s) as Hf. split_and!.
  - by apply run_calls_preserves.
  - apply Hf.
  - apply (fr_queue _ _ Hf), (so_queue _ _ Hs).
Qed.

(** C33: scheduling an event, on every branch: a deadline that overflows the
    timeline panics, one that is not strictly in the future is rejected and
    changes nothing, any other is accepted and the event is placed after all
    the events of the same time and origin and nowhere else. *)
Theorem schedule_event_from_spec s dl (id : EventId) arg o :
  pq_ok (scheduler_queue s) -> pq_epoch (scheduler_queue s) < u64_max ->
  match Deadline.into_time dl (time s) with
  | None => schedule_event_from dl id arg o s = (Panic, s)
  | Some t =>
      if kleb t (time s) then schedule_event_from dl id arg o s = (Fail InvalidScheduledTime, s)
      else exists s', schedule_event_from dl id arg o s = (Val tt, s') /\
        StableQueue.with_key (t, o) (view s') =
          StableQueue.with_key (t, o) (view s) ++ [QEvent (event_new id arg)] /\
        (forall k, k <> (t, o) -> StableQueue.with_key k (view s') = StableQueue.with_key k (view s)) /\
        time s' = time s /\ flags s' = flags s /\ is_terminated s' = is_terminated s
  end.
Proof.
  intros Hok He. unfold schedule_event_from.
  destruct (checked_time dl s) as [res s1] eqn:Hc.
  pose proof (checked_time_inv dl s res s1 Hc) as [-> Hres].
  destruct (Deadline.into_time dl (time s)) as [t|].
  - destruct (kleb t (time s)) eqn:El; subst res; cbv [mbind eff_bind]; rewrite Hc; [done|].
    destruct (queue_insert_spec (E := SchedulingError) (scheduler_queue s) (t, o)
      (QEvent (event_new id arg)) s eq_refl Hok He) as (q' & -> & _ & Hv & _).
    eexists. split; [done|]. unfold view. cbn [scheduler_queue with_scheduler_queue]. rewrite Hv.
    split_and!; [|intros k Hk; by apply StableQueue.insert_with_key_ne|done|done|done].
    apply StableQueue.insert_with_key_eq. apply StronglySorted_Sorted. by apply pq_sorted.
  - subst res. cbv [mbind eff_bind]. by rewrite Hc.
Qed.

(** Cancelling is permanent and exact: after [cancel] the key and its
    clones are cancelled, no other key is, and no later call makes a cancelled
    key valid again; the message of a cancelled input event has no effect even
    if it was already sent. *)
Theorem cancel_is_permanent s k (cs : list (ApiCall T)) :
  EventKey.live (flags s) k ->
  let s1 := exec (cancel_event (E := SchedulingError) k) s in
  (forall k', EventKey.is_cancelled (flags s1) k' =
              EventKey.eq k k' || EventKey.is_cancelled (flags s) k') /\
  EventKey.is_cancelled (flags (run_calls cs s1)) k = true /\
  (forall mb fn v, input_message (flags (run_calls cs s1)) (FutInput mb fn v (Some k)) = None).
Proof.
  intros Hk. cbn zeta. set (s1 := exec _ s).
  assert (EventKey.is_cancelled (flags (run_calls cs s1)) k = true) as Hc.
  { apply (fr_flags _ _ (run_calls_frame cs s1)). cbn. rewrite EventKey.cancel_spec by done.
    unfold EventKey.eq. by rewrite Nat.eqb_refl. }
  split_and!; [intros k'; by apply EventKey.cancel_spec|done|]. intros. unfold input_message. by rewrite Hc.
Qed.
End ApiClaims.

(** ** Witnesses, on the concrete simulation *)
Section Witnesses.
Import Demo.
#[local] Existing Instance demo_lang.
#[local] Instance quiet : Host T SQ IQ X C Tk := host [].
#[local] Instance quiet_laws : HostLaws registry := host_laws [].

Lemma scenario_sched_ok : sched_ok registry (shared (sim scenario)).
Proof. apply (sim_strong scenario scenario_ok). Qed.

Definition period_fits (t : T) (e : (T * Z) * QueueItem) : bool :=
  match item_period e.2 with
  | Some p => match mt_add t p with Some _ => true | None => false end
  | None => true
  end.

Lemma period_fits_all t l :
  forallb (period_fits t) l = true ->
  Forall (fun e : (T * Z) * QueueItem =>
            forall p, item_period e.2 = Some p -> is_Some (mt_add t p)) l.
Proof.
  intros H. apply Forall_forall. intros e He p Hp. rewrite forallb_forall in H.
  apply list_elem_of_In in He. specialize (H e He). unfold period_fits in H. rewrite Hp in H.
  by destruct (mt_add t p).
Qed.

(** Another thread schedules an event at the target while the target is being
    reached. *)
Lemma step_until_reaches_target_witness :
  exists m', step_until (HO := host [event 100 0 7 0]) 101 (Deadline.Absolute (at_ 100)) (sim scenario) = Some (Val tt, m') /\
    time (shared m') = at_ 100 /\
    exists late rest, view (shared m') ≡ₚ late ++ rest /\ late <> [] /\
      Forall (fun e => kltb (at_ 100) e.1.1 = true) rest.
Proof.
  destruct (step_until_reaches_target (HO := host [event 100 0 7 0]) registry (HostLaws0 := host_laws _)
    (sim scenario) (at_ 0) (Deadline.Absolute (at_ 100)) (at_ 100) 101) as (res & m' & E & H).
  - reflexivity.
  - apply scenario_sched_ok.
  - vm_compute; reflexivity.
  - reflexivity.
  - vm_compute; reflexivity.
  - vm_compute; lia.
  - set (run := step_until (HO := host [event 100 0 7 0]) 101 (Deadline.Absolute (at_ 100)) (sim scenario)) in *.
    assert (fst <$> run = Some (Val tt)) as E1 by (vm_compute; reflexivity).
    assert ((fun p => head (mt_nanos ∘ fst ∘ fst <$> view (shared p.2))) <$> run = Some (Some 100)) as E2 by (vm_compute; reflexivity).
    rewrite E in E1, E2. apply (inj Some) in E1. apply (inj Some) in E2. cbn [fst snd] in E1, E2. subst res.
    destruct H as [(Ht & late & rest & Hp & Hf & _) _]. exists m'. split; [exact E|]. split; [exact Ht|].
    exists late, rest. split; [exact Hp|]. split; [|exact Hf]. intros ->.
    cbn [app] in Hp. rewrite <- Hp in Hf. clear -E2 Hf. revert E2 Hf. generalize (view (shared m')). intros [|e l] E2 Hf; [done|].
    apply Forall_cons in Hf as [Hf _]. apply mt_lt in Hf. apply (inj Some) in E2. cbn [compose] in E2. rewrite E2 in Hf. by vm_compute in Hf.
Defined.

Lemma step_to_next_sound_witness :
  exists m', step_to_next None (sim scenario) = (Val (Some (at_ 5)), m') /\
    time (shared m') = at_ 5 /\ kltb (at_ 0) (at_ 5) = true /\ kleb (at_ 5) mt_max = true /\
    sched_ok registry (shared m').
Proof.
  pose proof (step_to_next_sound registry (sim scenario) (at_ 0) None eq_refl scenario_sched_ok
    ltac:(vm_compute; reflexivity)) as H.
  assert (exists m', step_to_next None (sim scenario) = (Val (Some (at_ 5)), m')) as [m' E].
  { eexists. vm_compute. reflexivity. }
  rewrite E in H. exists m'. split; [exact E|exact H].
Defined.

Lemma run_exhausts_queue_witness :
  (exists m', run 3 (sim [event 4 0 1 0; event 6 0 2 0]) = Some (Val tt, m')) /\
  exists res m', run (S (Z.to_nat (mt_nanos (mt_max (T := Nano.time)) - 0))) (sim [event 4 0 1 0; event 6 0 2 0]) = Some (res, m') /\
    kleb (at_ 0) (time (shared m')) = true /\
    match res with Val _ => view (shared m') = [] | _ => True end.
Proof.
  split; [eexists; vm_compute; reflexivity|].
  apply (run_exhausts_queue registry (sim [event 4 0 1 0; event 6 0 2 0]) (at_ 0)).
  - reflexivity.
  - apply sim_strong. repeat constructor; apply event_call_ok; lia.
  - vm_compute; reflexivity.
  - apply Nat.lt_succ_diag_r.
Defined.

Lemma scheduler_step_spawns_witness :
  exists m1 q' tasks,
    peek_next_key mt_max (sim scenario) = (Val (Some (at_ 5, 0)), m1) /\
    handle_scheduler_step (Some (at_ 5, 0)) (at_ 5) m1 =
      (Val true, upd (sim scenario) q' (fold_left ex_spawn (SeqTask <$> tasks) (executor (sim scenario)))) /\
    pq_view q' = fold_left reinsert (due (at_ 5) (sim scenario)) (later (at_ 5) (view (shared (sim scenario)))).
Proof.
  assert (exists m1, peek_next_key mt_max (sim scenario) = (Val (Some (at_ 5, 0)), m1)) as [m1 E].
  { eexists. vm_compute. reflexivity. }
  destruct (scheduler_step_spawns (sim scenario) mt_max (at_ 5) 0 (scheduler_queue (shared (sim scenario))) m1)
    as (q' & tasks & H1 & _ & _ & _ & _ & H2).
  - apply scenario_sched_ok.
  - exact E.
  - reflexivity.
  - apply period_fits_all. vm_compute. reflexivity.
  - vm_compute. discriminate.
  - exists m1, q', tasks. split; [exact E|]. split; [exact H1|exact H2].
Defined.

Definition injections : list (ApiCall T) :=
  [CallInject 2 (InjFuture (FutUser 1)); CallInject 1 (InjFuture (FutUser 2));
   CallInject 2 (InjFuture (FutUser 3))].

Lemma injector_step_spawns_witness :
  exists q' (fl : list (Z * Fut)), handle_injector_step (sim injections) =
    (Val true, inj_upd (sim injections) q' (fold_left ex_spawn (SeqTask <$> (group fl).*2)
                                              (executor (sim injections)))) /\
    pq_view q' = [] /\ fl.*2 = [FutUser 2; FutUser 1; FutUser 3].
Proof.
  destruct (injector_step_spawns (sim injections)) as (q' & fl & H1 & H2 & _ & H3).
  - apply (sim_strong injections). repeat constructor.
  - apply (sim_strong injections). repeat constructor.
  - exists q', fl. split_and!; [exact H2|exact H3|].
    vm_compute in H1. repeat (inversion H1 as [|? [? ?] ? ? [? Hf] ?]; clear H1; subst; cbn in *;
      injection Hf as <-; match goal with H : Forall2 _ _ _ |- _ => rename H into H1 end).
    by inversion H1.
Defined.

Lemma terminated_is_final_witness :
  let m := with_shared (with_terminated true shared0) sim0 in
  step_to_next None m = (Fail Terminated, with_shared (with_halted false (shared m)) m).
Proof.
  apply (terminated_is_final (with_shared (with_terminated true shared0) sim0) 0 None None (FutUser 0)).
  reflexivity.
Defined.

(** The clock lags by 3 with a tolerance of 2. *)
Lemma failure_terminates_witness :
  let m := mkSim (mkX [] []) shared0 registry 3 (Some 2) None 0 [] [] in
  is_terminated (shared (exec (synchronize (at_ 1)) m)) = true.
Proof.
  apply (failure_terminates (mkSim (mkX [] []) shared0 registry 3 (Some 2) None 0 [] []) (at_ 1)).
  vm_compute. discriminate.
Defined.

Definition panicking : Simulation T SQ IQ X C Tk :=
  with_executor (mkX [] [FutInput 1 2 0 None]) sim0.

Lemma run_executor_reports_witness :
  outcome run_executor panicking = Fail (ModelPanic ["b"]%string (@mkAny demo_lang 0%nat 0)).
Proof.
  apply (run_executor_reports panicking (mkX [] []) [] (ExecPanic 1 (@mkAny demo_lang 0%nat 0))).
  - reflexivity.
  - reflexivity.
Defined.

Lemma halt_is_consumed_witness :
  step_to_next None (with_shared (with_halted true (shared (sim scenario))) (sim scenario)) =
  (Fail Halted, sim scenario).
Proof. apply (halt_is_consumed (sim scenario) None). vm_compute. reflexivity. Defined.

Lemma api_calls_preserve_witness :
  sched_ok registry (run_calls scenario shared0) /\ time (run_calls scenario shared0) = at_ 0.
Proof.
  destruct (api_calls_preserve registry shared0 scenario) as (H1 & H2 & _).
  - apply (sim_strong []). constructor.
  - apply scenario_ok.
  - split; [exact H1|exact H2].
Defined.

Lemma schedule_event_from_spec_witness :
  exists s', schedule_event_from (Deadline.Relative 5) (id 0) 42 7 shared0 = (Val tt, s') /\
    StableQueue.with_key (at_ 5, 7) (view s') = [QEvent (event_new (id 0) 42)].
Proof.
  destruct (schedule_event_from_spec shared0 (Deadline.Absolute (at_ 5)) (id 0) 42 7) as (s' & H1 & H2 & _).
  - apply PriorityQueue.new_wf.
  - vm_compute. reflexivity.
  - exists s'. split; [|exact H2]. rewrite <- H1. vm_compute. reflexivity.
Defined.

Lemma cancel_is_permanent_witness :
  let s := with_flags [false; false] shared0 in
  EventKey.is_cancelled (flags (run_calls scenario (exec (cancel_event (E := SchedulingError) 1) s))) 1 = true.
Proof.
  apply (cancel_is_permanent (with_flags [false; false] shared0) 1 scenario).
  vm_compute. lia.
Defined.
End Witnesses.

(** ** A race

    [GlobalScheduler] reads the time under the mutex of the scheduler queue so
    that time cannot advance before the item is inserted, but
    [step_until_unchecked] writes the target time after the mutex was
    released. *)
Section Race.
Import Demo.
#[local] Existing Instance demo_lang.
#[local] Instance racy : Host T SQ IQ X C Tk := host [event 3 0 7 0].

Definition until_10 := step_until 2 (Deadline.Absolute (at_ 10)) sim0.

(** An event scheduled by another thread within this window for a time
    before the target is accepted, is still in the queue after [step_until] has
    moved time past it, and the next step moves the simulation time
    backwards. *)
Theorem step_until_window_race :
  exists m1 m2,
    until_10 = Some (Val tt, m1) /\ time (shared m1) = at_ 10 /\
    fst <$> head (view (shared m1)) = Some (at_ 3, 0) /\
    step m1 = (Val tt, m2) /\ time (shared m2) = at_ 3 /\ kltb (at_ 3) (at_ 10) = true.
Proof.
  assert (exists m1, until_10 = Some (Val tt, m1)) as [m1 E1] by (eexists; vm_compute; reflexivity).
  exists m1, (exec step m1). split; [exact E1|].
  vm_compute in E1. injection E1 as <-. vm_compute. split_and!; reflexivity.
Qed.
End Race.
