(* ===== verification/Assembly.v ===== *)
(** * Assembling a bench: [simulation/sim_init.rs], [simulation.rs]
    ([add_model]) and [model/context.rs] ([BuildContext])

    A model prototype is described by what its registration and its [build]
    method do to the bench: the decorated inputs it registers, then, in order,
    the schedulable inputs it registers by hand and the submodels it adds. *)

From S2P Require Import Prelude Path Errors Time PriorityQueue QueueItems Effects Scheduler.
From S2P Require Import SchedulerFacts Simulation SimulationTheorems.
From stdpp Require Import strings.
Import Items.
Local Open Scope Z_scope.

Module Assembly.
Section Defs.
Context `{L : Lang}.

(** A step of [ProtoModel::build] is either [register_schedulable] (function
    and argument type) or [add_submodel] (name, mailbox and prototype). *)
Inductive Proto : Type :=
  | mkProto (decorated : list (nat * TypeId)) (build : list BuildStep)
with BuildStep : Type :=
  | RegisterSchedulable (func : nat) (ty : TypeId)
  | AddSubmodel (name : string) (mailbox : nat) (sub : Proto).

(** The future spawned for a model: its identifier, path and mailbox. *)
Record ModelFuture : Type := mkModelFuture { mf_id : Z; mf_path : Path.Path; mf_mailbox : nat }.

Record Bench : Type := mkBench {
  b_registry : SchedulerRegistry;
  b_models : list RegisteredModel;
  b_observers : list (Path.Path * nat);
  b_spawned : list ModelFuture }.

Definition set_registry (r : SchedulerRegistry) (b : Bench) : Bench :=
  mkBench r (b_models b) (b_observers b) (b_spawned b).

(** [register_schedulables]: the decorated inputs, in order, and the
    resulting model registry. *)
Fixpoint register_decorated (mailbox : nat) (inputs : list (nat * TypeId))
    (reg : SchedulableId.ModelRegistry) (r : SchedulerRegistry) :
    option (SchedulableId.ModelRegistry * SchedulerRegistry) :=
  match inputs with
  | [] => Some (reg, r)
  | (func, ty) :: inputs =>
      '(id, r) ← SchedulableId.register_schedulable r (InputSource mailbox func ty);
      register_decorated mailbox inputs (SchedulableId.registry_add reg id) r
  end.

(** The last part of [add_model]: the model is registered and its future
    spawned with the identifier computed at the beginning. *)
Definition finish_model (model_id : Z) (path : Path.Path) (mailbox : nat) (b : Bench) : Bench :=
  mkBench (b_registry b) (b_models b ++ [mkRegistered path mailbox]) (b_observers b)
    (b_spawned b ++ [mkModelFuture model_id path mailbox]).

(** [simulation::add_model]; [None] is a panic. *)
Fixpoint add_model (p : Proto) (mailbox : nat) (path : Path.Path) (b : Bench) {struct p} :
    option Bench :=
  match p with
  | mkProto decorated build =>
      model_id ← ModelId.new (Z.of_nat (length (b_models b)));
      '(_, r) ← register_decorated mailbox decorated [] (b_registry b);
      b ← (fix run_build (acts : list BuildStep) (b : Bench) :=
             match acts with
             | [] => Some b
             | RegisterSchedulable func ty :: acts =>
                 '(_, r) ← SchedulableId.register_schedulable (b_registry b) (InputSource mailbox func ty);
                 run_build acts (set_registry r b)
             | AddSubmodel name sub_mailbox sub :: acts =>
                 b ← add_model sub sub_mailbox (Path.join path [name]) b;
                 run_build acts b
             end) build (set_registry r b);
      Some (finish_model model_id path mailbox b)
  end.

(** [SimInit::add_model]. *)
Definition bench_add_model (p : Proto) (mailbox : nat) (name : string) (b : Bench) : option Bench :=
  let path := [name] in
  add_model p mailbox path
    (mkBench (b_registry b) (b_models b) (b_observers b ++ [(path, mailbox)]) (b_spawned b)).

Definition empty_bench : Bench := mkBench (mkRegistry [] []) [] [] [].

Fixpoint add_models (ps : list (Proto * nat * string)) (b : Bench) : option Bench :=
  match ps with
  | [] => Some b
  | (p, mailbox, name) :: ps => b ← bench_add_model p mailbox name b; add_models ps b
  end.

(** A prototype without submodels. *)
Definition is_leaf (p : Proto) : bool :=
  match p with
  | mkProto _ build => forallb (fun a => match a with RegisterSchedulable _ _ => true | AddSubmodel _ _ _ => false end) build
  end.

(** The identifier of a model future denotes that model. *)
Definition id_denotes (b : Bench) (f : ModelFuture) : Prop :=
  b_models b !! Z.to_nat (mf_id f) = Some (mkRegistered (mf_path f) (mf_mailbox f)).
End Defs.

Section Facts.
Context `{L : Lang}.

Lemma leaf_add_model p mailbox path b b' :
  is_leaf p = true -> add_model p mailbox path b = Some b' ->
  b_models b' = b_models b ++ [mkRegistered path mailbox] /\
  b_observers b' = b_observers b /\
  b_spawned b' = b_spawned b ++ [mkModelFuture (Z.of_nat (length (b_models b))) path mailbox].
Proof.
  destruct p as [decorated build]. cbn [is_leaf add_model]. intros Hleaf.
  destruct (ModelId.new _) as [id|] eqn:Hid; cbn; [|done].
  assert (id = Z.of_nat (length (b_models b))) as ->
    by (unfold ModelId.new in Hid; by destruct (Z.eqb _ _); simplify_eq).
  destruct (register_decorated _ _ _ _) as [[mr r]|]; cbn; [|done].
  set (b0 := set_registry r b). assert (b_models b0 = b_models b /\ b_observers b0 = b_observers b /\
    b_spawned b0 = b_spawned b) as H0 by done. revert H0. generalize b0. clear b0.
  induction build as [|[func ty|] build IH]; intros b0 (Hm & Ho & Hs); [|cbn in Hleaf|done].
  - cbn. intros; simplify_eq. cbn. by rewrite Hm, Ho, Hs.
  - destruct (SchedulableId.register_schedulable _ _) as [[? r']|]; cbn; [|done]. by apply IH.
Qed.

(** Benches made of models without submodels. *)
Lemma flat_bench ps b b' :
  Forall (fun p => is_leaf p.1.1 = true) ps -> add_models ps b = Some b' ->
  Forall (id_denotes b) (b_spawned b) ->
  Forall (id_denotes b') (b_spawned b') /\
  b_observers b' = b_observers b ++ ((fun p => ([p.2], p.1.2)) <$> ps) /\
  b_models b' = b_models b ++ ((fun p => mkRegistered [p.2] p.1.2) <$> ps).
Proof.
  revert b; induction ps as [|[[p mb] name] ps IH]; intros b Hps; cbn [add_models].
  { intros; simplify_eq. cbn. by rewrite !app_nil_r. }
  apply Forall_cons in Hps as [Hp Hps]. cbn in Hp.
  destruct (bench_add_model p mb name b) as [b1|] eqn:E; cbn; [|done]. intros Hadd Hb.
  apply leaf_add_model in E as (Hm & Ho & Hs); [|done]. cbn in Hm, Ho, Hs.
  destruct (IH b1 Hps Hadd) as (H1 & H2 & H3).
  - rewrite Hs. apply Forall_app. split.
    + eapply Forall_impl; [exact Hb|]. intros f Hf. unfold id_denotes in *. rewrite Hm.
      by apply lookup_app_l_Some.
    + constructor; [|constructor]. unfold id_denotes. cbn. by rewrite Hm, Nat2Z.id, list_lookup_middle.
  - split_and!; [done|by rewrite H2, Ho, <- app_assoc|by rewrite H3, Hm, <- app_assoc].
Qed.

(** On a bench whose models have no submodels, the identifier of every
    model future is the index of that model in the list of registered models,
    so that panics are attributed to the right model, and every model is
    observed for the detection of deadlocks. *)
Theorem flat_bench_attribution (ps : list (Proto * nat * string)) b :
  Forall (fun p => is_leaf p.1.1 = true) ps -> add_models ps empty_bench = Some b ->
  Forall (id_denotes b) (b_spawned b) /\
  b_observers b = (fun m => (rm_path m, rm_address m)) <$> b_models b.
Proof.
  intros Hps Hb. destruct (flat_bench ps empty_bench b Hps Hb) as (H1 & H2 & H3); [constructor|].
  split; [done|]. cbn in H2, H3. rewrite H2, H3. clear. induction ps as [|p ps IH]; cbn; [done|].
  by rewrite IH.
Qed.
End Facts.

(** A model with one submodel. *)
Definition parent : Proto (L := demo_lang) :=
  mkProto (L := demo_lang) [] [AddSubmodel "child" 1 (mkProto [] [])].
Definition leaf : Proto (L := demo_lang) :=
  mkProto (L := demo_lang) [(0%nat, 0%nat)] [RegisterSchedulable (L := demo_lang) 1 0%nat].

Lemma flat_bench_attribution_witness :
  exists b, add_models [(leaf, 0%nat, "a"%string); (leaf, 1%nat, "b"%string)] empty_bench = Some b /\
    Forall (id_denotes b) (b_spawned b) /\
    mf_id <$> b_spawned b = [0; 1].
Proof.
  assert (exists b, add_models [(leaf, 0%nat, "a"%string); (leaf, 1%nat, "b"%string)] empty_bench = Some b)
    as [b E] by (eexists; vm_compute; reflexivity).
  exists b. split; [exact E|]. split.
  - apply (flat_bench_attribution [(leaf, 0%nat, "a"%string); (leaf, 1%nat, "b"%string)] b);
      [repeat constructor|exact E].
  - vm_compute in E. injection E as <-. reflexivity.
Defined.

(** The simulation built from a bench, in which the model polled last is the
    one with mailbox [mb]. *)
Definition bench_sim (b : Bench (L := demo_lang)) (id : Z) :
    Simulation Nano.time (PriorityQueue.PriorityQueue (Nano.time * Z) QueueItem)
      (PriorityQueue.PriorityQueue Z InjectorItem) Demo.X Z (Ticker.PeriodicTicker Nano.time) :=
  mkSim (Demo.mkX [] [FutInput (L := demo_lang) (Z.to_nat id) 2 0 None]) Demo.shared0 (b_registry b) 0 None None 0
    (b_observers b) (b_models b).

(** With submodels this fails: the identifier of a model is read before its
    submodels are registered, so it denotes its first submodel.  A panic of the
    model at path [parent] is reported as a panic of [parent/child], and the
    submodel is not among the observed mailboxes. *)
Theorem submodel_misattribution :
  exists b, bench_add_model parent 0 "parent" empty_bench = Some b /\
    (exists f, f ∈ b_spawned b /\ mf_path f = ["parent"]%string /\ mf_id f = 0 /\
       outcome (run_executor (HO := Demo.host [])) (bench_sim b (mf_id f)) =
         Fail (ModelPanic ["parent"; "child"]%string (@mkAny demo_lang 0%nat 0))) /\
    b_observers b = [(["parent"]%string, 0%nat)].
Proof.
  eexists. split; [vm_compute; reflexivity|]. split; [|reflexivity].
  exists (mkModelFuture 0 ["parent"]%string 0). split_and!; try reflexivity. right. left.
Qed.
End Assembly.
