(* ===== verification/DemoCodec.v ===== *)
(** * A concrete encoder

    A small self-delimiting binary format, used to instantiate the interfaces
    [Bincode] and [BincodeState] and to evaluate the save and restore
    operations. *)

From S2P Require Import Prelude Path Errors Time QueueItems.
From stdpp Require Import strings.
Import Items.

Class Codec (A : Type) := {
  cput : A -> bytes;
  cget : bytes -> option (A * bytes);
  cget_cput : forall a rest, cget (cput a ++ rest) = Some (a, rest) }.

(** Unary numbers. *)
Fixpoint put_nat (n : nat) : bytes := match n with O => [Byte.x00] | S n => Byte.x01 :: put_nat n end.
Fixpoint get_nat (b : bytes) : option (nat * bytes) :=
  match b with
  | Byte.x00 :: b => Some (0, b)
  | Byte.x01 :: b => '(n, rest) ← get_nat b; Some (S n, rest)
  | _ => None
  end.
#[export] Program Instance codec_nat : Codec nat := {| cput := put_nat; cget := get_nat |}.
Next Obligation. induction a as [|n IH]; intros rest; cbn; [done|]. by rewrite IH. Qed.

#[export] Program Instance codec_byte : Codec Byte.byte :=
  {| cput b := [b]; cget l := match l with b :: l => Some (b, l) | [] => None end |}.
Next Obligation. done. Qed.

#[export] Program Instance codec_bool : Codec bool :=
  {| cput b := cput (if b : bool then 1 else 0);
     cget l := '(n, l) ← cget l; Some (negb (Nat.eqb n 0), l) |}.
Next Obligation. intros [] rest; cbn [negb]; by rewrite cget_cput. Qed.

#[export] Program Instance codec_prod {A B} `{Codec A} `{Codec B} : Codec (A * B) :=
  {| cput p := cput p.1 ++ cput p.2;
     cget l := '(a, l) ← cget l; '(b, l) ← cget l; Some ((a, b), l) |}.
Next Obligation. intros A B ? ? [a b] rest; cbn. rewrite <- app_assoc, cget_cput. cbn. by rewrite cget_cput. Qed.

Definition put_option {A} `{Codec A} (o : option A) : bytes :=
  match o with Some a => cput true ++ cput a | None => cput false end.
Definition get_option {A} `{Codec A} (l : bytes) : option (option A * bytes) :=
  '(b, l) ← cget l;
  if (b : bool) then '(a, l) ← cget l; Some (Some a, l) else Some (None, l).
#[export] Program Instance codec_option {A} `{Codec A} : Codec (option A) :=
  {| cput := put_option; cget := get_option |}.
Next Obligation.
  intros A ? [a|] rest; unfold put_option, get_option.
  - rewrite <- app_assoc, cget_cput. cbn [mbind option_bind]. by rewrite cget_cput.
  - by rewrite cget_cput.
Qed.

Definition put_list {A} `{Codec A} (l : list A) : bytes := cput (length l) ++ mbind cput l.
Fixpoint get_n {A} `{Codec A} (n : nat) (b : bytes) : option (list A * bytes) :=
  match n with
  | O => Some ([], b)
  | S n => '(a, b) ← cget b; '(l, b) ← get_n n b; Some (a :: l, b)
  end.
#[export] Program Instance codec_list {A} `{Codec A} : Codec (list A) :=
  {| cput := put_list; cget b := '(n, b) ← cget b; get_n n b |}.
Next Obligation.
  intros A ? l rest. unfold put_list. rewrite <- app_assoc, cget_cput. cbn.
  induction l as [|a l IH]; cbn; [done|]. rewrite <- app_assoc, cget_cput. cbn. by rewrite IH.
Qed.

(** An isomorphic type. *)
Definition codec_iso {A B} `{Codec A} (f : B -> A) (g : A -> B) (Hfg : forall b, g (f b) = b) : Codec B.
Proof.
  refine {| cput b := cput (f b); cget l := '(a, l) ← cget l; Some (g a, l) |}.
  intros b rest. rewrite cget_cput. cbn. by rewrite Hfg.
Defined.

#[export] Program Instance codec_Z : Codec Z :=
  codec_iso (fun z => ((z <? 0)%Z, Z.abs_nat z))
    (fun p => if (p.1 : bool) then - Z.of_nat p.2 else Z.of_nat p.2)%Z _.
Next Obligation. intros z. cbn. destruct (Z.ltb_spec z 0); lia. Qed.

Definition of_ser (i : SerializableQueueItem) : bool * (Z * bytes * option Z * option (bool * nat)) :=
  match i with
  | SerEvent e => (true, (se_event_id e, se_arg e, se_period e, se_key e))
  | SerQuery q => (false, (sq_query_id q, sq_arg q, None, None))
  end.
Definition to_ser (p : bool * (Z * bytes * option Z * option (bool * nat))) : SerializableQueueItem :=
  let '(b, (id, arg, period, key)) := p in
  if (b : bool) then SerEvent (mkSerEvent id arg period key) else SerQuery (mkSerQuery id arg).
#[export] Program Instance codec_item : Codec SerializableQueueItem := codec_iso of_ser to_ser _.
Next Obligation. by intros [[]|[]]. Qed.

#[export] Program Instance codec_time : Codec Nano.time :=
  codec_iso Nano.ns (fun z => default Nano.max (Nano.of_Z z)) _.
Next Obligation.
  intros t. destruct (Nano.of_Z_range (Nano.ns t) (Nano.ns_ok t)) as [t' Ht]. rewrite Ht. cbn.
  apply Nano.time_eq. by apply Nano.of_Z_Some in Ht.
Qed.

(** Decoding a whole slice, ignoring what follows. *)
Definition decode {A} `{Codec A} (b : bytes) : Result A Cause :=
  match cget b with Some (a, _) => Ok a | None => Err "unexpected end"%string end.

Lemma decode_put {A} `{Codec A} (a : A) : decode (cput a) = Ok a.
Proof. unfold decode. rewrite <- (app_nil_r (cput a)). by rewrite cget_cput. Qed.

#[export] Instance codec_value : Codec (@Value demo_lang) := codec_Z.

#[export] Instance demo_bincode : @Bincode demo_lang :=
  {| enc_val _ v := Ok (cput v); dec_val _ := decode; enc_item i := Ok (cput i); dec_item := decode |}.
#[export] Instance demo_bincode_laws : @BincodeLaws demo_lang demo_bincode.
Proof.
  split.
  - intros ty v b Hb. apply Ok_inj in Hb as <-. apply (decode_put (A := @Value demo_lang) v).
  - intros i b Hb. apply Ok_inj in Hb as <-. apply (decode_put i).
Qed.
