(* ===== verification/SaveRestore.v ===== *)
(** * Saving and restoring a simulation: [simulation.rs] ([save], [restore]
    and their helpers)

    The scheduler queue is saved in the order of [PriorityQueue::iter] and
    re-inserted in that order.  The closures of a registered model, which
    serialize and deserialize the model by running the executor, are the
    parameters [serialize] and [deserialize]. *)

From S2P Require Import Prelude Path Errors Time StableSort PriorityQueue QueueItems Effects.
From S2P Require Import Scheduler SchedulerFacts Simulation StepFacts SimulationTheorems.
From S2P Require Import DemoCodec.
From stdpp Require Import strings.
Import Items.
Local Open Scope Z_scope.

(** The encodings of the queue and of the whole state. *)
Record SimulationState (T : Type) : Type := mkState {
  st_models : list bytes; st_scheduler_queue : bytes; st_time : T }.
Arguments mkState {T} _ _ _.
Arguments st_models {T} _.
Arguments st_scheduler_queue {T} _.
Arguments st_time {T} _.

Class BincodeState (T : Type) := {
  enc_queue : list ((T * Z) * bytes) -> Result bytes Cause;
  dec_queue : bytes -> Result (list ((T * Z) * bytes)) Cause;
  enc_state : SimulationState T -> Result bytes Cause;
  dec_state : bytes -> Result (SimulationState T) Cause }.

Class BincodeStateLaws (T : Type) `{BincodeState T} : Prop := {
  dec_enc_queue : forall q b, enc_queue q = Ok b -> dec_queue b = Ok q;
  dec_enc_state : forall s b, enc_state s = Ok b -> dec_state b = Ok s }.

Module SaveRestore.
Section Queue.
Context `{L : Lang} {B : Bincode} {T : Type} `{MT : MonoTime T} `{BS : !BincodeState T}.
Notation SQ := (PriorityQueue.PriorityQueue (T * Z) QueueItem).
Notation Exec := (Outcome (ExecutionError T)).

(** [.map(..).collect::<Result<Vec<_>, _>>()]: the first error wins. *)
Fixpoint collect {A E} (l : list (Outcome E A)) : Outcome E (list A) :=
  match l with
  | [] => Val []
  | o :: l => a ← o; r ← collect l; Val (a :: r)
  end.

Definition save_queue (fl : list bool) (r : SchedulerRegistry) (q : SQ) : Exec bytes :=
  queue ← collect ((fun kv => v ← item_serialize fl r kv.2; Val (kv.1, v)) <$> PriorityQueue.iter q);
  map_err (fun e => ExecSaveError (SchedulerQueueSerializationError e)) (enc_queue queue).

(** The state restored so far: the queue, the key registry and the flags. *)
Definition QState : Type := SQ * option (gmap nat nat) * list bool.

Fixpoint restore_entries (r : SchedulerRegistry) (entries : list ((T * Z) * bytes)) :
    Eff QState (ExecutionError T) unit :=
  match entries with
  | [] => mret tt
  | entry :: entries =>
      (fun '(q, kr, fl) =>
         match item_deserialize kr fl r entry.2 with
         | Val (it, kr', fl') =>
             match PriorityQueue.insert entry.1 it q with
             | Some q' => restore_entries r entries (q', kr', fl')
             | None => (Panic, (q, kr', fl'))
             end
         | Fail e => (Fail e, (q, kr, fl))
         | Panic => (Panic, (q, kr, fl))
         end)
  end.

Definition restore_queue (r : SchedulerRegistry) (state : bytes) :
    Eff QState (ExecutionError T) unit := fun '(q, kr, fl) =>
  match dec_queue state with
  | Err e => (Fail (ExecRestoreError (SchedulerQueueDeserializationError e)), (q, kr, fl))
  | Ok entries => restore_entries r entries (PriorityQueue.clear q, kr, fl)
  end.
End Queue.

(** *** Models and the whole state *)
Section Models.
Context `{L : Lang} {B : Bincode} {T : Type} `{MT : MonoTime T} `{BS : !BincodeState T}.
Notation SQ := (PriorityQueue.PriorityQueue (T * Z) QueueItem).
Context {IQ : Type} `{IPQ : !StablePQ Z InjectorItem IQ}.
Context {X C Tk : Type} `{HO : !Host T SQ IQ X C Tk}.
Notation Sm := (Simulation T SQ IQ X C Tk).
Notation Sim := (Eff Sm (ExecutionError T)).
Notation KSim := (Eff (Sm * option (gmap nat nat)) (ExecutionError T)).

Context (serialize : RegisteredModel -> Sim bytes)
        (deserialize : RegisteredModel -> bytes -> KSim unit).

Definition set_models (l : list RegisteredModel) (m : Sm) : Sm :=
  mkSim (executor m) (shared m) (scheduler_registry m) (clock m) (clock_tolerance m) (ticker m)
    (timeout m) (observers m) l.

Fixpoint save_each (models : list RegisteredModel) : Sim (list bytes) :=
  match models with
  | [] => mret []
  | model :: models =>
      v ← serialize model;
      vs ← save_each models;
      mret (v :: vs)
  end.

(** [std::mem::take] moves the models out for the duration of the loop. *)
Definition save_models : Sim (list bytes) :=
  models ← gets registered_models;
  modify (set_models []);;
  values ← save_each models;
  modify (set_models models);;
  mret values.

Fixpoint restore_each (models : list RegisteredModel) (states : list bytes) : KSim unit :=
  match models, states with
  | model :: models, state :: states =>
      deserialize model state;;
      restore_each models states
  | _, _ => mret tt
  end.

Definition on_sim {A} (e : Sim A) : KSim A := fun '(m, kr) =>
  let '(res, m') := e m in (res, (m', kr)).

Definition restore_models (model_state : list bytes) : KSim unit :=
  models ← on_sim (gets registered_models);
  on_sim (modify (set_models []));;
  restore_each models model_state;;
  on_sim (modify (set_models models)).

Definition save : Sim bytes :=
  models ← save_models;
  m ← get;
  queue ← liftO (save_queue (flags (shared m)) (scheduler_registry m) (scheduler_queue (shared m)));
  t ← gets sim_time;
  liftO (map_err (fun e => ExecSaveError (SimulationStateSerializationError e))
           (enc_state (mkState models queue t))).

Definition restore_queue_in (state : bytes) : KSim unit := fun '(m, kr) =>
  let '(res, (q, kr', fl)) :=
    restore_queue (scheduler_registry m) state (scheduler_queue (shared m), kr, flags (shared m)) in
  (res, (with_shared (with_flags fl (with_scheduler_queue q (shared m))) m, kr')).

(** The key registry is created for the duration of the call. *)
Definition restore (state : bytes) : Sim T := fun m =>
  let '(res, (m', _)) :=
    (st ← liftO (map_err (fun e => ExecRestoreError (SimulationStateDeserializationError e))
                   (dec_state state));
     restore_models (st_models st);;
     restore_queue_in (st_scheduler_queue st);;
     mret (st_time st)) (m, Some ∅) in
  (res, m').
End Models.

(** ** Properties *)
Section Facts.
Context `{L : Lang} {B : Bincode} {BL : BincodeLaws} {T : Type} `{MT : MonoTime T}.
Context `{BS : !BincodeState T} {BSL : BincodeStateLaws T}.
Notation SQ := (PriorityQueue.PriorityQueue (T * Z) QueueItem).
Notation entry := ((T * Z) * QueueItem)%type.
Implicit Types (q : SQ) (r : SchedulerRegistry) (fl old : list bool).

(** An entry of the queue and its restored version. *)
Definition entry_restored (reg : gmap nat nat) (e e' : entry) : Prop :=
  e'.1 = e.1 /\ restored_as (Some reg) e.2 e'.2.

Lemma restored_as_mono (reg reg' : gmap nat nat) it it' :
  reg ⊆ reg' -> restored_as (Some reg) it it' -> restored_as (Some reg') it it'.
Proof.
  intros Hsub. destruct it as [e|qu], it' as [e'|qu']; cbn; try done.
  intros (? & ? & ? & Hk). split_and!; try done.
  destruct (key e), (key e'); try done. by eapply lookup_weaken.
Qed.

Lemma entry_restored_mono (reg reg' : gmap nat nat) e e' :
  reg ⊆ reg' -> entry_restored reg e e' -> entry_restored reg' e e'.
Proof. intros Hs [? ?]. split; [done|by eapply restored_as_mono]. Qed.

Lemma collect_spec {A E} (l : list (Outcome E A)) (res : list A) :
  collect l = Val res <-> Forall2 (fun o a => o = Val a) l res.
Proof.
  revert res; induction l as [|o l IH]; intros res; cbn.
  { split; [intros; simplify_eq; constructor|by intros ->%Forall2_nil_inv_l]. }
  split.
  - destruct o as [a|e|]; cbn; [|done..]. destruct (collect l) as [r'|e|]; cbn; [|done..].
    intros; simplify_eq. constructor; [done|]. by apply IH.
  - intros (a & r' & -> & Hr & ->)%Forall2_cons_inv_l. cbn.
    by rewrite (proj2 (IH r') Hr).
Qed.

Lemma restore_entries_ok r old l : forall bs q reg fl,
  Forall2 (fun (e : entry) eb => eb.1 = e.1 /\ item_serialize (T := T) old r e.2 = Val eb.2) l bs ->
  PriorityQueue.wf q -> EventKey.reg_ok old reg fl ->
  PriorityQueue.next_epoch q + Z.of_nat (length l) <= u64_max ->
  exists q' reg' fl' l',
    restore_entries r bs (q, Some reg, fl) = (Val tt, (q', Some reg', fl')) /\
    PriorityQueue.wf q' /\ EventKey.reg_ok old reg' fl' /\ reg ⊆ reg' /\
    Forall2 (entry_restored reg') l l' /\
    PriorityQueue.view q' =
      fold_left (fun acc kv => StableQueue.insert kv.1 kv.2 acc) l' (PriorityQueue.view q).
Proof.
  induction l as [|e l IH]; intros bs q reg fl Hl Hwf Hreg He.
  { apply Forall2_nil_inv_l in Hl as ->. by exists q, reg, fl, []. }
  apply Forall2_cons_inv_l in Hl as (eb & bs' & [Hk Hb] & Hl & ->). cbn [length] in He.
  cbn [restore_entries].
  destruct (item_roundtrip (T := T) old reg fl r e.2 eb.2 Hreg Hb)
    as (it' & reg1 & fl1 & -> & Hit & Hreg1 & Hsub1).
  destruct (PriorityQueue.insert eb.1 it' q) as [q1|] eqn:Hi.
  2:{ apply PriorityQueue.insert_panics in Hi. lia. }
  destruct (PriorityQueue.insert_wf _ _ _ _ Hwf Hi) as (Hwf1 & Hv1 & He1).
  destruct (IH bs' q1 reg1 fl1 Hl Hwf1 Hreg1 ltac:(lia))
    as (q' & reg' & fl' & l' & -> & Hwf' & Hreg' & Hsub & Hall & Hv).
  exists q', reg', fl', ((eb.1, it') :: l'). split_and!; try done.
  - by etransitivity.
  - constructor; [|done]. split; [done|]. by eapply restored_as_mono.
  - cbn. by rewrite Hv, Hv1.
Qed.

Lemma restore_queue_ok r old q0 q reg fl b :
  save_queue old r q0 = Val b -> Z.of_nat (length (PriorityQueue.iter q0)) <= u64_max -> EventKey.reg_ok old reg fl ->
  exists q' reg' fl' l',
    restore_queue r b (q, Some reg, fl) = (Val tt, (q', Some reg', fl')) /\
    PriorityQueue.wf q' /\ EventKey.reg_ok old reg' fl' /\ reg ⊆ reg' /\
    Forall2 (entry_restored reg') (PriorityQueue.iter q0) l' /\
    PriorityQueue.view q' = fold_left (fun acc kv => StableQueue.insert kv.1 kv.2 acc) l' [].
Proof.
  unfold save_queue. destruct (collect _) as [bs|e|] eqn:Hc; cbn; [|done..].
  destruct (enc_queue bs) as [b'|] eqn:Hb; cbn; [|done]. intros Hbb Hlen Hreg; simplify_eq.
  unfold restore_queue. rewrite (dec_enc_queue _ _ Hb).
  destruct (restore_entries_ok r old (PriorityQueue.iter q0) bs (PriorityQueue.clear q) reg fl)
    as (q' & reg' & fl' & l' & -> & ? & ? & ? & ? & Hv); try done.
  - apply collect_spec, Forall2_fmap_l in Hc. eapply Forall2_impl; [exact Hc|].
    intros e eb. cbn. destruct (item_serialize old r e.2) eqn:E; cbn; [|done..].
    intros; by simplify_eq.
  - apply PriorityQueue.new_wf.
  - exists q', reg', fl', l'. split_and!; try done.
Qed.

(** C39: restoring a saved queue, the key registry being already filled with the keys
    of the models restored before: it succeeds whatever the queue held, and the restored
    queue holds the saved entries, each once, in an order that is only that of their time
    and origin (entries of equal time and origin can be exchanged, see
    [restore_reorders_events]).  A restored entry has the time, the origin, the argument
    and the period of the saved one; its cancellation key is the one that the registry
    associates with the saved key, which is shared with the models and the other entries
    exactly as before and is cancelled exactly if it was; keys that were already
    registered are unchanged.  A query comes back without its replier. *)
Theorem queue_roundtrip r old q0 q reg fl b :
  PriorityQueue.wf q0 -> save_queue old r q0 = Val b ->
  Z.of_nat (length (PriorityQueue.view q0)) <= u64_max -> EventKey.reg_ok old reg fl ->
  exists q' reg' fl' l',
    restore_queue r b (q, Some reg, fl) = (Val tt, (q', Some reg', fl')) /\
    PriorityQueue.wf q' /\ EventKey.reg_ok old reg' fl' /\ reg ⊆ reg' /\
    Forall2 (entry_restored reg') (PriorityQueue.view q0) l' /\ PriorityQueue.view q' ≡ₚ l'.
Proof.
  intros Hwf Hb Hlen Hreg0. pose proof (PriorityQueue.iter_view q0) as HP.
  destruct (restore_queue_ok r old q0 q reg fl b Hb) as (q' & reg' & fl' & l' & E & Hwf' & Hreg & Hsub & Hall & Hv);
    [by rewrite HP|done|].
  destruct (Permutation_Forall2 HP Hall) as (l2 & HP2 & Hall2).
  exists q', reg', fl', l2. split_and!; try done.
  rewrite Hv, insert_fold_Permutation, app_nil_r. done.
Qed.

Lemma restored_keys reg (l l' : list entry) :
  Forall2 (entry_restored reg) l l' -> l'.*1 = l.*1.
Proof. induction 1 as [|e e' l l' [He _] _ IH]; cbn; [done|]. by rewrite He, IH. Qed.

Lemma fst_sorted (l l' : list entry) :
  l'.*1 = l.*1 -> StronglySorted (fun p p' => kleb p.1 p'.1 = true) l ->
  StronglySorted (fun p p' => kleb p.1 p'.1 = true) l'.
Proof.
  intros Hk Hs. revert l' Hk. induction Hs as [|e l Hs IH Hall]; intros [|e' l'] Hk; try done.
  - constructor.
  - cbn in Hk. injection Hk as He Hk. constructor; [by apply IH|].
    apply Forall_forall. intros x Hx. apply (list_elem_of_fmap_2 fst) in Hx. rewrite Hk in Hx.
    apply list_elem_of_fmap in Hx as (y & Hy & Hin). rewrite Forall_forall in Hall.
    rewrite He, Hy. by apply Hall.
Qed.

(** When no two saved entries have the same time and origin, the restored
    queue is in the same order as the saved one. *)
Theorem queue_roundtrip_order r old q0 q fl b :
  PriorityQueue.wf q0 -> save_queue old r q0 = Val b ->
  Z.of_nat (length (PriorityQueue.view q0)) <= u64_max ->
  NoDup (PriorityQueue.view q0).*1 ->
  exists q' reg' fl',
    restore_queue r b (q, Some ∅, fl) = (Val tt, (q', Some reg', fl')) /\
    Forall2 (entry_restored reg') (PriorityQueue.view q0) (PriorityQueue.view q').
Proof.
  intros Hwf Hb Hlen Hnd. pose proof (PriorityQueue.iter_view q0) as HP.
  destruct (restore_queue_ok r old q0 q ∅ fl b Hb) as (q' & reg' & fl' & l1 & E & Hwf' & Hreg & _ & Hall1 & Hv);
    [by rewrite HP|apply EventKey.reg_ok_empty|].
  destruct (Permutation_Forall2 HP Hall1) as (l' & HP1 & Hall).
  assert (PriorityQueue.view q' ≡ₚ l') as HP'
    by (rewrite Hv, insert_fold_Permutation, app_nil_r; done).
  exists q', reg', fl'. split; [done|].
  pose proof (restored_keys _ _ _ Hall) as Hk.
  assert (PriorityQueue.view q' = l') as ->; [|done].
  apply (StronglySorted_unique_strong (fun p p' : entry => kleb p.1 p'.1 = true)); [| | |done].
  - intros x1 x2 H1 H2 Hle Hge. rewrite HP' in H1. pose proof (kleb_antisym _ _ Hle Hge) as Heq.
    apply list_elem_of_lookup in H1 as [i Hi], H2 as [j Hj].
    assert (i = j) as ->; [|congruence].
    rewrite <- Hk in Hnd. apply (NoDup_lookup _ _ _ x1.1 Hnd); rewrite list_lookup_fmap;
      [by rewrite Hi|rewrite Hj; cbn; by rewrite Heq].
  - by apply (pq_sorted (StablePQ := PriorityQueue.stable_pq)).
  - eapply fst_sorted; [exact Hk|]. by apply (pq_sorted (StablePQ := PriorityQueue.stable_pq)).
Qed.
End Facts.

(** *** The registered models *)
Section ModelFacts.
Context `{L : Lang} {T : Type} `{MT : MonoTime T}.
Notation SQ := (PriorityQueue.PriorityQueue (T * Z) QueueItem).
Context {IQ : Type} `{IPQ : !StablePQ Z InjectorItem IQ}.
Context {X C Tk : Type} `{HO : !Host T SQ IQ X C Tk}.
Notation Sm := (Simulation T SQ IQ X C Tk).
Context (serialize : RegisteredModel -> Eff Sm (ExecutionError T) bytes).

(** Serializing a model does not change the list of models (it only spawns a
    request and runs the executor). *)
Definition keeps_models : Prop :=
  forall rm m res m', serialize rm m = (res, m') -> registered_models m' = registered_models m.

Lemma save_each_models l m res m' :
  keeps_models -> save_each serialize l m = (res, m') -> registered_models m' = registered_models m.
Proof.
  intros Hk. revert m res m'; induction l as [|rm l IH]; intros m res m'; cbn [save_each].
  { by intros [= _ <-]. }
  intros [(v & m1 & H1 & H2)|[(e & H1 & _)|[H1 _]]]%bind_inv; [|by eapply Hk..].
  apply bind_inv in H2 as [(vs & m2 & H2 & H3)|[(e & H2 & _)|[H2 _]]];
    [|by rewrite (IH _ _ _ H2), (Hk _ _ _ _ H1)..].
  injection H3 as _ <-. by rewrite (IH _ _ _ H2), (Hk _ _ _ _ H1).
Qed.

(** [save_models] puts the registered models back exactly when it
    succeeds.  When serializing one of the models fails, the simulation is
    left without any registered model. *)
Theorem save_models_on_error (m : Sm) :
  keeps_models ->
  match save_models serialize m with
  | (Val _, m') => registered_models m' = registered_models m
  | (_, m') => registered_models m' = []
  end.
Proof.
  intros Hk. unfold save_models.
  rewrite (bind_val (gets _) _ m _ m eq_refl).
  rewrite (bind_val (modify _) _ m tt (set_models [] m) eq_refl).
  destruct (save_each serialize (registered_models m) (set_models [] m)) as [res m'] eqn:E.
  pose proof (save_each_models _ _ _ _ Hk E) as Hm. cbv [mbind eff_bind]. rewrite E.
  by destruct res.
Qed.
End ModelFacts.

(** ** Examples *)
Section Examples.
#[local] Existing Instance demo_lang.
Notation time := Nano.time.

Definition state_pair (s : SimulationState time) := (st_models s, st_scheduler_queue s, st_time s).
Program Definition codec_state : Codec (SimulationState time) :=
  codec_iso state_pair (fun p => let '(m, q, t) := p in mkState m q t) _.
Next Obligation. by intros []. Qed.
#[local] Existing Instance codec_state.

#[local] Instance demo_state : BincodeState time :=
  {| enc_queue q := Ok (cput q); dec_queue := decode; enc_state s := Ok (cput s); dec_state := decode |}.
#[local] Instance demo_state_laws : BincodeStateLaws time.
Proof.
  split.
  - intros q b Hb. apply Ok_inj in Hb as <-. apply (decode_put q).
  - intros s b Hb. apply Ok_inj in Hb as <-. apply (decode_put s).
Qed.

Notation queue := (PriorityQueue.PriorityQueue (time * Z) QueueItem).

Definition ev (v : Z) (k : option nat) : QueueItem := QEvent (mkEvent 0 (@mkAny demo_lang 0%nat v) None k).

(** One event at time 1, then three events with the same time and origin; the
    first is pulled. *)
Definition saved_queue : queue :=
  match insert_all [((Demo.at_ 1, 0), ev 0 None); ((Demo.at_ 2, 0), ev 1 None);
                    ((Demo.at_ 2, 0), ev 2 None); ((Demo.at_ 2, 0), ev 3 None)] PriorityQueue.new with
  | Some q => match PriorityQueue.pull q with Some (_, q) => q | None => q end
  | None => PriorityQueue.new
  end.

Definition restored (b : bytes) : queue :=
  (exec (restore_queue Demo.registry b) (PriorityQueue.new, Some ∅, [])).1.1.

(** Saving and restoring does not maintain the order of events with the
    same time and origin: three events scheduled in the order 1, 2, 3 come back
    in the order 1, 3, 2. *)
Theorem restore_reorders_events :
  exists b, save_queue [] Demo.registry saved_queue = Val b /\
    StableQueue.with_key (Demo.at_ 2, 0) (PriorityQueue.view saved_queue) = [ev 1 None; ev 2 None; ev 3 None] /\
    StableQueue.with_key (Demo.at_ 2, 0) (PriorityQueue.view (restored b)) = [ev 1 None; ev 3 None; ev 2 None].
Proof. eexists. split; [vm_compute; reflexivity|]. split; vm_compute; reflexivity. Qed.

(** Two events with distinct keys that share a cancelled key. *)
Definition keyed_queue : queue :=
  default PriorityQueue.new
    (insert_all [((Demo.at_ 4, 0), ev 7 (Some 1%nat)); ((Demo.at_ 3, 1), ev 8 (Some 1%nat))] PriorityQueue.new).

Lemma keyed_queue_wf : PriorityQueue.wf keyed_queue.
Proof.
  destruct (insert_all_ok [((Demo.at_ 4, 0), ev 7 (Some 1%nat)); ((Demo.at_ 3, 1), ev 8 (Some 1%nat))]
    (Q := queue) PriorityQueue.new) as (q & E & Hq & _).
  - apply PriorityQueue.new_wf.
  - vm_compute. discriminate.
  - unfold keyed_queue. rewrite E. exact Hq.
Qed.

(** The key of both events is also held by a model, which was restored first and has
    it as key 0. *)
Lemma filled_registry_ok : EventKey.reg_ok [false; true] {[1%nat := 0%nat]} [true].
Proof.
  split.
  - intros a k [<- <-]%lookup_singleton_Some. vm_compute. lia.
  - by intros a b k [<- _]%lookup_singleton_Some [<- _]%lookup_singleton_Some.
  - by intros a k [<- <-]%lookup_singleton_Some.
Qed.

Lemma queue_roundtrip_witness :
  exists q' reg' l' b,
    save_queue [false; true] Demo.registry keyed_queue = Val b /\
    restore_queue Demo.registry b (PriorityQueue.new, Some {[1%nat := 0%nat]}, [true]) = (Val tt, (q', Some reg', [true])) /\
    Forall2 (entry_restored reg') (PriorityQueue.view keyed_queue) l' /\ PriorityQueue.view q' ≡ₚ l' /\
    PriorityQueue.view q' = [((Demo.at_ 3, 1), ev 8 (Some 0%nat)); ((Demo.at_ 4, 0), ev 7 (Some 0%nat))].
Proof.
  assert (exists b, save_queue [false; true] Demo.registry keyed_queue = Val b) as [b E]
    by (eexists; vm_compute; reflexivity).
  destruct (queue_roundtrip Demo.registry [false; true] keyed_queue PriorityQueue.new {[1%nat := 0%nat]} [true] b)
    as (q' & reg' & fl' & l' & H1 & _ & _ & _ & H2 & H3).
  - apply keyed_queue_wf.
  - exact E.
  - vm_compute. discriminate.
  - exact filled_registry_ok.
  - exists q', reg', l', b. split; [exact E|].
    assert (fl' = [true] /\ PriorityQueue.view q' = [((Demo.at_ 3, 1), ev 8 (Some 0%nat)); ((Demo.at_ 4, 0), ev 7 (Some 0%nat))]) as [-> Hv].
    { vm_compute in E. injection E as <-. vm_compute in H1. injection H1 as <- <- <-. split; reflexivity. }
    split; [exact H1|]. split; [exact H2|]. split; [exact H3|exact Hv].
Defined.

Lemma queue_roundtrip_order_witness :
  exists q' reg' fl' b,
    restore_queue Demo.registry b (PriorityQueue.new, Some ∅, []) = (Val tt, (q', Some reg', fl')) /\
    Forall2 (entry_restored reg') (PriorityQueue.view keyed_queue) (PriorityQueue.view q') /\
    fl' = [true].
Proof.
  assert (exists b, save_queue [false; true] Demo.registry keyed_queue = Val b) as [b E]
    by (eexists; vm_compute; reflexivity).
  destruct (queue_roundtrip_order Demo.registry [false; true] keyed_queue PriorityQueue.new [] b)
    as (q' & reg' & fl' & H1 & H2).
  - apply keyed_queue_wf.
  - exact E.
  - vm_compute. discriminate.
  - apply (bool_decide_unpack _). vm_compute. exact I.
  - exists q', reg', fl', b. split; [exact H1|]. split; [exact H2|].
    vm_compute in E. injection E as <-. vm_compute in H1. by injection H1 as <- <- <-.
Defined.

Lemma save_models_on_error_witness :
  match save_models (fun _ => throw Timeout) Demo.sim0 with
  | (Val _, m') => registered_models m' = registered_models Demo.sim0
  | (_, m') => registered_models m' = []
  end.
Proof.
  apply (save_models_on_error (fun _ => throw Timeout) Demo.sim0).
  intros rm m res m' H. by injection H as _ <-.
Defined.
End Examples.
End SaveRestore.
