(* ===== verification/Protocol.v ===== *)
(** * Protocol messages: the conversions and error codes of [server/services.rs]

    The types of the protocol ([prost_types], generated code) are records of
    machine integers: a [Timestamp] and a protobuf [Duration] have an [i64] number
    of seconds and an [i32] number of nanoseconds, of any sign.  The text of the
    error messages is left out: an [Error] is its code. *)

From S2P Require Import Prelude Errors Time SyncCell Scheduler Path Endpoints.
From stdpp Require Import strings.
Local Open Scope Z_scope.

(** [MonotonicTime] both as a number of nanoseconds and by its parts. *)
Class ProtoTime (T : Type) := {
  pt_mono :: MonoTime T;
  pt_parts :: TimeParts T;
  pt_nanos : forall t, mt_nanos t = as_secs t * nanos_per_sec + subsec_nanos t;
  pt_new_None : forall s n, - 2 ^ 63 <= s < 2 ^ 63 -> nanos_per_sec <= n -> tp_new s n = None }.

Module Protocol.

Record Timestamp : Type := mkTimestamp { seconds : Z; nanos : Z }.
Record PDuration : Type := mkPDuration { d_seconds : Z; d_nanos : Z }.

Definition i64 (z : Z) : Prop := - 2 ^ 63 <= z < 2 ^ 63.
Definition i32 (z : Z) : Prop := - 2 ^ 31 <= z < 2 ^ 31.
Definition timestamp_ok (t : Timestamp) : Prop := i64 (seconds t) /\ i32 (nanos t).
Definition duration_ok (d : PDuration) : Prop := i64 (d_seconds d) /\ i32 (d_nanos d).

(** ** Times *)
Definition MIN_SECS : Z := -62135596800.
Definition MAX_SECS : Z := 253402300799.

Section Defs.
Context {T : Type} `{ProtoTime T}.

Definition monotonic_to_timestamp (monotonic_time : T) : option Timestamp :=
  let secs := as_secs monotonic_time in
  if (MIN_SECS <=? secs) && (secs <=? MAX_SECS)
  then Some (mkTimestamp secs (subsec_nanos monotonic_time)) else None.

(** [i32] to [u32] conversion, then [MonotonicTime::new]. *)
Definition timestamp_to_monotonic (timestamp : Timestamp) : option T :=
  if nanos timestamp <? 0 then None else tp_new (seconds timestamp) (nanos timestamp).
End Defs.

(** [Duration::new]: nanoseconds are carried over to seconds, with a panic on
    overflow. *)
Definition duration_new (secs nanos : Z) : option Z :=
  let secs' := secs + nanos / nanos_per_sec in
  if secs' <=? u64_max then Some (secs' * nanos_per_sec + nanos mod nanos_per_sec) else None.

(** The outer option is the panic of [Duration::new]. *)
Definition to_positive_duration (duration : PDuration) : option (option Z) :=
  if (d_seconds duration <? 0) || (d_nanos duration <? 0) then Some None
  else d ← duration_new (d_seconds duration) (d_nanos duration); Some (Some d).

Definition to_strictly_positive_duration (duration : PDuration) : option (option Z) :=
  if (d_seconds duration <? 0) || (d_nanos duration <? 0)
     || ((d_seconds duration =? 0) && (d_nanos duration =? 0)) then Some None
  else d ← duration_new (d_seconds duration) (d_nanos duration); Some (Some d).

(** ** Errors *)
Inductive ErrorCode : Type :=
  | InternalError | MissingArgument | InvalidTime | InvalidPeriod | InvalidDeadline | InvalidMessage | InvalidKey
  | InvalidTimeout
  | BenchPanic | BenchError | BenchNotBuilt | DuplicateEventSource | DuplicateQuerySource | DuplicateEventSink
  | InvalidBenchConfig | BenchAlreadyBuilt
  | SimulationPanic | SimulationNotStarted | SimulationTerminated | SimulationDeadlock | SimulationMessageLoss
  | SimulationNoRecipient | SimulationTimeout | SimulationOutOfSync | SimulationBadQuery | SimulationTimeOutOfRange
  | EventSourceNotFound | QuerySourceNotFound | SinkNotFound | SinkTerminated | SinkReadRace | SinkReadTimeout
  | InvalidEventType | InvalidQueryType
  | SaveError | RestoreError.

Definition as_i32 (c : ErrorCode) : Z :=
  match c with
  | InternalError => 0 | MissingArgument => 1 | InvalidTime => 2 | InvalidPeriod => 3 | InvalidDeadline => 4
  | InvalidMessage => 5 | InvalidKey => 6 | InvalidTimeout => 7
  | BenchPanic => 20 | BenchError => 21 | BenchNotBuilt => 22 | DuplicateEventSource => 23
  | DuplicateQuerySource => 24 | DuplicateEventSink => 25 | InvalidBenchConfig => 26 | BenchAlreadyBuilt => 27
  | SimulationPanic => 40 | SimulationNotStarted => 42 | SimulationTerminated => 43 | SimulationDeadlock => 44
  | SimulationMessageLoss => 45 | SimulationNoRecipient => 46 | SimulationTimeout => 47 | SimulationOutOfSync => 48
  | SimulationBadQuery => 49 | SimulationTimeOutOfRange => 50
  | EventSourceNotFound => 60 | QuerySourceNotFound => 61 | SinkNotFound => 62 | SinkTerminated => 63
  | SinkReadRace => 64 | SinkReadTimeout => 65 | InvalidEventType => 66 | InvalidQueryType => 67
  | SaveError => 80 | RestoreError => 81
  end.

Definition as_str_name (c : ErrorCode) : string :=
  match c with
  | InternalError => "INTERNAL_ERROR" | MissingArgument => "MISSING_ARGUMENT" | InvalidTime => "INVALID_TIME"
  | InvalidPeriod => "INVALID_PERIOD" | InvalidDeadline => "INVALID_DEADLINE" | InvalidMessage => "INVALID_MESSAGE"
  | InvalidKey => "INVALID_KEY" | InvalidTimeout => "INVALID_TIMEOUT" | BenchPanic => "BENCH_PANIC"
  | BenchError => "BENCH_ERROR" | BenchNotBuilt => "BENCH_NOT_BUILT" | DuplicateEventSource => "DUPLICATE_EVENT_SOURCE"
  | DuplicateQuerySource => "DUPLICATE_QUERY_SOURCE" | DuplicateEventSink => "DUPLICATE_EVENT_SINK" | InvalidBenchConfig => "INVALID_BENCH_CONFIG"
  | BenchAlreadyBuilt => "BENCH_ALREADY_BUILT" | SimulationPanic => "SIMULATION_PANIC" | SimulationNotStarted => "SIMULATION_NOT_STARTED"
  | SimulationTerminated => "SIMULATION_TERMINATED" | SimulationDeadlock => "SIMULATION_DEADLOCK" | SimulationMessageLoss => "SIMULATION_MESSAGE_LOSS"
  | SimulationNoRecipient => "SIMULATION_NO_RECIPIENT" | SimulationTimeout => "SIMULATION_TIMEOUT" | SimulationOutOfSync => "SIMULATION_OUT_OF_SYNC"
  | SimulationBadQuery => "SIMULATION_BAD_QUERY" | SimulationTimeOutOfRange => "SIMULATION_TIME_OUT_OF_RANGE" | EventSourceNotFound => "EVENT_SOURCE_NOT_FOUND"
  | QuerySourceNotFound => "QUERY_SOURCE_NOT_FOUND" | SinkNotFound => "SINK_NOT_FOUND" | SinkTerminated => "SINK_TERMINATED"
  | SinkReadRace => "SINK_READ_RACE" | SinkReadTimeout => "SINK_READ_TIMEOUT" | InvalidEventType => "INVALID_EVENT_TYPE"
  | InvalidQueryType => "INVALID_QUERY_TYPE" | SaveError => "SAVE_ERROR" | RestoreError => "RESTORE_ERROR"
  end%string.

Definition from_str_name (value : string) : option ErrorCode :=
  match value with
  | "INTERNAL_ERROR" => Some InternalError | "MISSING_ARGUMENT" => Some MissingArgument | "INVALID_TIME" => Some InvalidTime
  | "INVALID_PERIOD" => Some InvalidPeriod | "INVALID_DEADLINE" => Some InvalidDeadline | "INVALID_MESSAGE" => Some InvalidMessage
  | "INVALID_KEY" => Some InvalidKey | "INVALID_TIMEOUT" => Some InvalidTimeout | "BENCH_PANIC" => Some BenchPanic
  | "BENCH_ERROR" => Some BenchError | "BENCH_NOT_BUILT" => Some BenchNotBuilt | "DUPLICATE_EVENT_SOURCE" => Some DuplicateEventSource
  | "DUPLICATE_QUERY_SOURCE" => Some DuplicateQuerySource | "DUPLICATE_EVENT_SINK" => Some DuplicateEventSink | "INVALID_BENCH_CONFIG" => Some InvalidBenchConfig
  | "BENCH_ALREADY_BUILT" => Some BenchAlreadyBuilt | "SIMULATION_PANIC" => Some SimulationPanic | "SIMULATION_NOT_STARTED" => Some SimulationNotStarted
  | "SIMULATION_TERMINATED" => Some SimulationTerminated | "SIMULATION_DEADLOCK" => Some SimulationDeadlock | "SIMULATION_MESSAGE_LOSS" => Some SimulationMessageLoss
  | "SIMULATION_NO_RECIPIENT" => Some SimulationNoRecipient | "SIMULATION_TIMEOUT" => Some SimulationTimeout | "SIMULATION_OUT_OF_SYNC" => Some SimulationOutOfSync
  | "SIMULATION_BAD_QUERY" => Some SimulationBadQuery | "SIMULATION_TIME_OUT_OF_RANGE" => Some SimulationTimeOutOfRange | "EVENT_SOURCE_NOT_FOUND" => Some EventSourceNotFound
  | "QUERY_SOURCE_NOT_FOUND" => Some QuerySourceNotFound | "SINK_NOT_FOUND" => Some SinkNotFound | "SINK_TERMINATED" => Some SinkTerminated
  | "SINK_READ_RACE" => Some SinkReadRace | "SINK_READ_TIMEOUT" => Some SinkReadTimeout | "INVALID_EVENT_TYPE" => Some InvalidEventType
  | "INVALID_QUERY_TYPE" => Some InvalidQueryType | "SAVE_ERROR" => Some SaveError | "RESTORE_ERROR" => Some RestoreError
  | _ => None
  end%string.

(** [to_error] *)
Record Error : Type := to_error { code : ErrorCode }.

Definition bench_not_built_error : Error := to_error BenchNotBuilt.
Definition simulation_not_started_error : Error := to_error SimulationNotStarted.

Definition from_execution_error `{L : Lang} {T} (e : ExecutionError T) : Error :=
  to_error match e with
  | Errors.Deadlock _ => SimulationDeadlock
  | Errors.MessageLoss _ => SimulationMessageLoss
  | Errors.NoRecipient _ => SimulationNoRecipient
  | Errors.ModelPanic _ _ => SimulationPanic
  | Errors.Timeout => SimulationTimeout
  | Errors.OutOfSyncError _ => SimulationOutOfSync
  | Errors.BadQuery => SimulationBadQuery
  | Errors.Halted => SimulationNotStarted
  | Errors.Terminated => SimulationTerminated
  | Errors.InvalidDeadline _ => InvalidDeadline
  | Errors.InvalidEventId _ => EventSourceNotFound
  | Errors.InvalidQueryId _ => QuerySourceNotFound
  | Errors.InvalidEventType _ => InvalidEventType
  | Errors.InvalidQueryType _ _ => InvalidQueryType
  | Errors.ExecSaveError _ => SaveError
  | Errors.ExecRestoreError _ => RestoreError
  end.

Definition from_scheduling_error (e : SchedulingError) : Error :=
  to_error match e with
  | InvalidScheduledTime => InvalidDeadline
  | NullRepetitionPeriod => InvalidPeriod
  end.

Definition from_bench_error (e : Endpoints.BenchError) : Error :=
  to_error match e with
  | Endpoints.DuplicateEventSource _ => DuplicateEventSource
  | Endpoints.DuplicateQuerySource _ => DuplicateQuerySource
  | Endpoints.DuplicateEventSink _ => DuplicateEventSink
  end.

(** [SimulationError] *)
Inductive SimulationError `{L : Lang} (T : Type) : Type :=
  | ExecutionErr (e : ExecutionError T)
  | SchedulingErr (e : SchedulingError)
  | BenchErr (e : Endpoints.BenchError).
#[global] Arguments ExecutionErr {_ _} e.
#[global] Arguments SchedulingErr {_ _} e.
#[global] Arguments BenchErr {_ _} e.

Definition from_simulation_error `{L : Lang} {T} (e : SimulationError T) : Error :=
  match e with
  | ExecutionErr e => from_execution_error e
  | SchedulingErr e => from_scheduling_error e
  | BenchErr e => from_bench_error e
  end.

Definition from_endpoint_error (e : Endpoints.EndpointError) : Error :=
  to_error match e with
  | Endpoints.EventSourceNotFound _ => EventSourceNotFound
  | Endpoints.QuerySourceNotFound _ => QuerySourceNotFound
  | Endpoints.EventSinkNotFound _ => SinkNotFound
  | Endpoints.InvalidEventSourceType _ _ _ => InvalidEventType
  | Endpoints.InvalidQuerySourceType _ _ _ _ _ => InvalidQueryType
  | Endpoints.InvalidEventSinkType _ _ _ => InvalidEventType
  end.

(** ** Properties *)
Section Facts.
Context {T : Type} `{ProtoTime T}.

(** A time in the range of the protocol is sent and read back unchanged, and only
    such times are sent. *)
Theorem timestamp_roundtrip (t : T) ts : monotonic_to_timestamp t = Some ts ->
  timestamp_to_monotonic ts = Some t /\ timestamp_ok ts /\ MIN_SECS <= seconds ts <= MAX_SECS.
Proof.
  unfold monotonic_to_timestamp, timestamp_to_monotonic. destruct (_ && _) eqn:E; [|done]. intros [= <-]. cbn.
  pose proof (tp_nanos_range t) as Hn. pose proof (tp_secs_range t) as Hs.
  destruct (Z.ltb_spec (subsec_nanos t) 0); [lia|].
  destruct (tp_new_spec (T := T) (as_secs t) (subsec_nanos t) Hs Hn) as (t' & -> & Es & En).
  split; [f_equal; by apply tp_inj|]. unfold timestamp_ok, i64, i32; cbn. split; [lia|]. lia.
Qed.

(** A timestamp is read exactly if its number of nanoseconds is less than a
    billion and not negative, as the documentation says, and it is read
    exactly. *)
Lemma timestamp_to_monotonic_spec (ts : Timestamp) : timestamp_ok ts ->
  match timestamp_to_monotonic ts with
  | Some t => 0 <= nanos ts < nanos_per_sec /\ mt_nanos (T := T) t = seconds ts * nanos_per_sec + nanos ts
  | None => nanos ts < 0 \/ nanos_per_sec <= nanos ts
  end.
Proof.
  intros [Hs Hn]. unfold timestamp_to_monotonic. destruct (Z.ltb_spec (nanos ts) 0); [by left|].
  destruct (Z.lt_ge_cases (nanos ts) nanos_per_sec) as [Hlt|Hge].
  - destruct (tp_new_spec (T := T) (seconds ts) (nanos ts) Hs ltac:(unfold nanos_per_sec in *; lia)) as (t & -> & Es & En).
    split; [lia|]. by rewrite pt_nanos, Es, En.
  - rewrite pt_new_None by done. by right.
Qed.

(** The conversions of durations never panic, and are exact. *)
Lemma to_positive_duration_spec (d : PDuration) : duration_ok d ->
  to_positive_duration d =
    Some (if decide (0 <= d_seconds d /\ 0 <= d_nanos d) then Some (d_seconds d * nanos_per_sec + d_nanos d) else None) /\
  to_strictly_positive_duration d =
    Some (if decide (0 <= d_seconds d /\ 0 <= d_nanos d /\ 0 < d_seconds d * nanos_per_sec + d_nanos d)
          then Some (d_seconds d * nanos_per_sec + d_nanos d) else None).
Proof.
  intros [Hs Hn]. unfold to_positive_duration, to_strictly_positive_duration.
  assert (0 <= d_seconds d -> 0 <= d_nanos d ->
    duration_new (d_seconds d) (d_nanos d) = Some (d_seconds d * nanos_per_sec + d_nanos d)) as Hnew.
  { intros Hs0 Hn0. unfold duration_new. pose proof (Z.div_mod (d_nanos d) nanos_per_sec ltac:(done)) as Hd.
    assert (d_nanos d / nanos_per_sec < 3) by (apply Z.div_lt_upper_bound; [done|]; unfold i32, nanos_per_sec in *; lia).
    destruct (Z.leb_spec (d_seconds d + d_nanos d / nanos_per_sec) u64_max); [f_equal; lia|]. unfold i64, u64_max in *. lia. }
  destruct (Z.ltb_spec (d_seconds d) 0); [rewrite !decide_False by lia; done|].
  destruct (Z.ltb_spec (d_nanos d) 0); [rewrite !decide_False by lia; done|]. cbn [orb]. rewrite Hnew by done.
  rewrite decide_True by done. split; [done|].
  destruct (Z.eqb_spec (d_seconds d) 0), (Z.eqb_spec (d_nanos d) 0); cbn [andb orb mbind option_bind];
    case_decide; try done; unfold nanos_per_sec in *; lia.
Qed.

(** C30: the conversions between times and messages, at the limits of the machine
    integers: a time is sent if and only if it is between the years 1 and 9999, as the
    message that denotes exactly this time, to the nanosecond, and is read back as it; a
    message with any [i64] seconds and [i32] nanoseconds is read as a time if and only
    if the nanoseconds are less than a billion and not negative, and then denotes
    exactly this time; it is read as a duration without panic and without overflow if
    and only if no part is negative, with surplus nanoseconds carried over, and as a
    strictly positive duration if and only if this duration is not null. *)
Theorem conversions_bounded (t : T) (ts : Timestamp) (d : PDuration) : timestamp_ok ts -> duration_ok d ->
  let total := d_seconds d * nanos_per_sec + d_nanos d in
  match monotonic_to_timestamp t with
  | Some s => MIN_SECS <= seconds s <= MAX_SECS /\ 0 <= nanos s < nanos_per_sec /\
      mt_nanos t = seconds s * nanos_per_sec + nanos s /\ timestamp_to_monotonic s = Some t
  | None => mt_nanos t < MIN_SECS * nanos_per_sec \/ (MAX_SECS + 1) * nanos_per_sec <= mt_nanos t
  end /\
  match timestamp_to_monotonic ts with
  | Some t => 0 <= nanos ts < nanos_per_sec /\ mt_nanos (T := T) t = seconds ts * nanos_per_sec + nanos ts
  | None => nanos ts < 0 \/ nanos_per_sec <= nanos ts
  end /\
  match to_positive_duration d with
  | Some (Some x) => 0 <= d_seconds d /\ 0 <= d_nanos d /\ x = total /\ 0 <= x < 2 ^ 64 * nanos_per_sec
  | Some None => d_seconds d < 0 \/ d_nanos d < 0
  | None => False
  end /\
  to_strictly_positive_duration d = (if total =? 0 then Some None else to_positive_duration d).
Proof.
  intros Hts Hd total. split_and!.
  - pose proof (tp_nanos_range t) as Hn. destruct (monotonic_to_timestamp t) as [s|] eqn:E.
    + pose proof (timestamp_roundtrip t s E) as (Hrt & _ & Hr). split; [done|]. unfold monotonic_to_timestamp in E.
      destruct (_ && _); [|done]. injection E as <-. cbn in *. by rewrite pt_nanos.
    + unfold monotonic_to_timestamp in E. rewrite pt_nanos.
      destruct (Z.leb_spec MIN_SECS (as_secs t)), (Z.leb_spec (as_secs t) MAX_SECS); try done; unfold nanos_per_sec in *; lia.
  - by apply timestamp_to_monotonic_spec.
  - destruct (to_positive_duration_spec d Hd) as [-> _]. destruct Hd as [Hs Hn]. unfold i64, i32, nanos_per_sec in *.
    case_decide; [split_and!|]; subst total; lia.
  - destruct (to_positive_duration_spec d Hd) as [-> ->]. subst total. unfold nanos_per_sec.
    destruct (Z.eqb_spec (d_seconds d * 1000000000 + d_nanos d) 0); repeat case_decide; try done; lia.
Qed.

(** Different codes have different numbers on the wire. *)
Lemma as_i32_inj : Inj eq eq as_i32.
Proof. intros c1 c2 E. destruct c1; cbn in E; destruct c2; first [reflexivity | discriminate E]. Qed.

(** The names of the codes in the protocol. *)
Lemma str_name_roundtrip c : from_str_name (as_str_name c) = Some c.
Proof. by destruct c. Qed.
Lemma from_str_name_inv value c : from_str_name value = Some c -> value = as_str_name c.
Proof. unfold from_str_name. repeat (case_match; try discriminate). all: by intros [= <-]. Qed.
End Facts.
End Protocol.

(** ** [Nano] by its parts *)
Module NanoParts.
Import Nano Protocol.

#[global] Program Instance nano_parts : TimeParts time := {|
  tp_new s n := if (0 <=? n) && (n <? nanos_per_sec) then of_Z (s * nanos_per_sec + n) else None;
  as_secs t := ns t / nanos_per_sec;
  subsec_nanos t := ns t mod nanos_per_sec |}.
Next Obligation.
  intros t. pose proof (range_of t) as Hr. unfold nano_min, nano_max in Hr. cbv beta.
  split; [apply Z.div_le_lower_bound; [done|]|apply Z.div_lt_upper_bound; [done|]]; unfold nanos_per_sec in *; lia.
Qed.
Next Obligation. intros t. by apply Z.mod_pos_bound. Qed.
Next Obligation.
  intros s n Hs Hn. cbv beta. destruct (of_Z_range (s * nanos_per_sec + n)) as [t Ht].
  { apply in_range_spec. unfold nano_min, nano_max, nanos_per_sec. lia. }
  exists t. rewrite (proj2 (Z.leb_le 0 n)), (proj2 (Z.ltb_lt n nanos_per_sec)) by (unfold nanos_per_sec; lia). split; [done|].
  apply of_Z_Some in Ht. rewrite Ht. unfold nanos_per_sec in *. split.
  - rewrite Z.add_comm, Z.div_add, Z.div_small by lia. done.
  - rewrite Z.add_comm, Z.mod_add, Z.mod_small by lia. done.
Qed.
Next Obligation.
  intros t t' Hd Hm. apply time_eq. rewrite (Z.div_mod (ns t) nanos_per_sec), (Z.div_mod (ns t') nanos_per_sec) by done.
  cbv beta in *. by rewrite Hd, Hm.
Qed.

#[global] Program Instance nano_proto : ProtoTime time := {| pt_mono := mono_time; pt_parts := nano_parts |}.
Next Obligation. intros t. cbn. rewrite (Z.div_mod (ns t) nanos_per_sec) at 1 by done. lia. Qed.
Next Obligation. intros s n Hs Hn. cbn. destruct (Z.ltb_spec n nanos_per_sec); [lia|]. by rewrite andb_false_r. Qed.

Lemma conversions_bounded_witness :
  (exists s, monotonic_to_timestamp (at_ns 1234567890) = Some s /\ 1234567890 = seconds s * nanos_per_sec + nanos s) /\
  to_strictly_positive_duration (mkPDuration (2 ^ 63 - 1) (2 ^ 31 - 1)) = to_positive_duration (mkPDuration (2 ^ 63 - 1) (2 ^ 31 - 1)).
Proof.
  destruct (conversions_bounded (T := time) (at_ns 1234567890) (mkTimestamp (- 2 ^ 63) (- 2 ^ 31)) (mkPDuration (2 ^ 63 - 1) (2 ^ 31 - 1)))
    as (Ht & _ & _ & H); [vm_compute; intuition congruence|vm_compute; intuition congruence|].
  split; [|exact H]. destruct (monotonic_to_timestamp (at_ns 1234567890)) as [s|] eqn:E; [|vm_compute in E; discriminate E].
  exists s. split; [reflexivity|]. exact (proj1 (proj2 (proj2 Ht))).
Defined.
End NanoParts.
