(* ===== verification/Cbor.v ===== *)
(** * Entries of the registries, as used by the server:
      [endpoints/event_source_registry.rs], [endpoints/query_source_registry.rs]

    The methods of the entries that read arguments from, and write replies to,
    their CBOR form.  The codec is the [ciborium] crate: an interface. *)

From S2P Require Import Prelude Path Errors Time PriorityQueue QueueItems Endpoints Effects Scheduler.

Class Ciborium `{L : Lang} := {
  from_reader : TypeId -> bytes -> option Value;     (** [None]: [DeserializationError] *)
  into_writer : TypeId -> Value -> option bytes }.   (** [None]: [SerializationError] *)

Module Cbor.
Import Items Endpoints.

(** The error type of a computation is changed by [map_err]. *)
Definition map_err {S E E' A} (f : E -> E') (m : Eff S E A) : Eff S E' A := fun s =>
  match m s with
  | (Val a, s) => (Val a, s)
  | (Fail e, s) => (Fail (f e), s)
  | (Panic, s) => (Panic, s)
  end.

Section Defs.
Context `{CB : Ciborium} {T SQ IQ : Type}.
Notation Sh := (Shared T SQ IQ).

(** ** Event sources *)
Definition event_deserialize_arg (self : EventSourceEntry) (serialized_arg : bytes) : option Any :=
  arg ← from_reader (eid_type (ev_inner self)) serialized_arg; Some (mkAny (eid_type (ev_inner self)) arg).

Definition event (self : EventSourceEntry) (serialized_arg : bytes) : option Event :=
  arg ← from_reader (eid_type (ev_inner self)) serialized_arg; Some (event_new (ev_inner self) arg).

Definition periodic_event (self : EventSourceEntry) (period : Z) (serialized_arg : bytes) : option Event :=
  arg ← from_reader (eid_type (ev_inner self)) serialized_arg; Some (with_period (event_new (ev_inner self) arg) period).

(** The key is created first; the error is [tt]. *)
Definition keyed_event (self : EventSourceEntry) (serialized_arg : bytes) : Eff Sh unit (Event * nat) :=
  key ← new_key;
  arg ← liftO (ok_or tt (from_reader (eid_type (ev_inner self)) serialized_arg));
  mret (with_key (event_new (ev_inner self) arg) key, key).

Definition keyed_periodic_event (self : EventSourceEntry) (period : Z) (serialized_arg : bytes) : Eff Sh unit (Event * nat) :=
  key ← new_key;
  arg ← liftO (ok_or tt (from_reader (eid_type (ev_inner self)) serialized_arg));
  mret (with_key (with_period (event_new (ev_inner self) arg) period) key, key).

(** ** Query sources *)
Definition query_deserialize_arg (self : QuerySourceEntry) (serialized_arg : bytes) : option Any :=
  arg ← from_reader (qid_type (qu_inner self)) serialized_arg; Some (mkAny (qid_type (qu_inner self)) arg).

Definition query (self : QuerySourceEntry) (serialized_arg : bytes) : Eff Sh unit (Query * ReplyReader) :=
  arg ← liftO (ok_or tt (from_reader (qid_type (qu_inner self)) serialized_arg));
  chan ← new_channel;
  mret (query_new chan (qu_inner self) arg).

(** [take_collect] and [take_collect_fut]: [None] if there are no replies,
    otherwise their CBOR forms, unless one of them cannot be serialized. *)
Fixpoint encode_replies (R : TypeId) (replies : list Value) : Result (list bytes) unit :=
  match replies with
  | [] => Ok []
  | reply :: replies =>
      match into_writer R reply with
      | None => Err tt
      | Some encoded =>
          match encode_replies R replies with Ok l => Ok (encoded :: l) | Err e => Err e end
      end
  end.
Definition take_collect (R : TypeId) (replies : option (list Value)) : option (Result (list bytes) unit) :=
  replies ← replies; Some (encode_replies R replies).
End Defs.

(** The replies are encoded one by one, in order. *)
Lemma encode_replies_ok `{Ciborium} R replies l : encode_replies R replies = Ok l <->
  Forall2 (fun v b => into_writer R v = Some b) replies l.
Proof.
  revert l. induction replies as [|v vs IH]; intros l; cbn.
  - split; [intros [= <-]; constructor|]. by intros ->%Forall2_nil_inv_l.
  - destruct (into_writer R v) as [b|] eqn:E.
    + destruct (encode_replies R vs) as [l'|] eqn:E'.
      * split; [intros [= <-]; constructor; [done|by apply IH]|].
        intros (b' & l'' & Hb & Hl & ->)%Forall2_cons_inv_l. apply IH in Hl. congruence.
      * split; [done|]. intros (b' & l'' & Hb & Hl & ->)%Forall2_cons_inv_l. apply IH in Hl. congruence.
    + split; [done|]. intros (b' & l'' & Hb & _)%Forall2_cons_inv_l. congruence.
Qed.
End Cbor.
