(* ===== verification/SchedulerService.v ===== *)
(** * The scheduler service: [server/services/scheduler_service.rs]

    Requests of remote clients to schedule and to cancel events and queries.  The
    service is under a mutex, but the simulation runs meanwhile: the state shared
    with it changes, between any two accesses, by what the parameter [others]
    says.  A panic leaves the mutex poisoned. *)

From S2P Require Import Prelude StableSort Path Errors Time SyncCell PriorityQueue QueueItems IndexedPriorityQueue IpqRefinement.
From S2P Require Import KeyRegistry Endpoints Effects Scheduler SchedulerFacts Protocol Cbor.
From stdpp Require Import strings.
Local Open Scope Z_scope.

Module SchedulerService.
Import Items Endpoints KeyRegistry Protocol Cbor.

(** ** Requests *)
Inductive RequestDeadline : Type :=
  | RTime (time : Timestamp)
  | RDuration (duration : PDuration).

Record ScheduleEventRequest : Type := mkScheduleEvent {
  se_source : option Path.Path;
  se_event : bytes;
  se_with_key : bool;
  se_period : option PDuration;
  se_deadline : option RequestDeadline }.
Record ScheduleQueryRequest : Type := mkScheduleQuery {
  sq_source : option Path.Path;
  sq_request : bytes;
  sq_deadline : option RequestDeadline }.
(** The two halves of the key identifier. *)
Record CancelEventRequest : Type := mkCancelEvent { ce_key : option (nat * Z) }.

Section Service.
Context `{CB : Ciborium} {T : Type} `{PT : ProtoTime T}.
Context {SQ IQ : Type} `{SPQ : !StablePQ (T * Z) QueueItem SQ} `{IPQ : !StablePQ Z InjectorItem IQ}.
Notation Sh := (Shared T SQ IQ).

(** The scheduler itself is a handle on the shared state. *)
Record Resources : Type := mkResources {
  event_sources : gmap Path.Path EventSourceEntry;
  query_sources : gmap Path.Path QuerySourceEntry;
  key_registry : @KeyRegistry T }.

Inductive SchedulerService : Type :=
  | Halted
  | Started (r : Resources).

Record State : Type := mkState { service : SchedulerService; sh : Sh }.
Notation Srv := (Eff State Error).

Definition on_shared {E A} (m : Eff Sh E A) : Eff State E A := fun s =>
  let '(r, x) := m (sh s) in (r, mkState (service s) x).

Definition fail {A} (c : ErrorCode) : Srv A := throw (to_error c).
Definition require {A} (c : ErrorCode) (o : option A) : Srv A := liftO (ok_or (to_error c) o).
Definition endpoint {A} (r : Result A EndpointError) : Srv A := map_err from_endpoint_error (liftO (of_result r)).

(** [let Self::Started { .. } = self else { return Err(..) }] *)
Definition started : Srv Resources := fun s =>
  match service s with Halted => (Fail simulation_not_started_error, s) | Started r => (Val r, s) end.

(** A method of the key registry; [None] is its panic. *)
Definition on_keys {A} (f : @KeyRegistry T -> option (A * @KeyRegistry T)) : Srv A := fun s =>
  match service s with
  | Halted => (Panic, s)
  | Started r =>
      match f (key_registry r) with
      | None => (Panic, s)
      | Some (a, k) => (Val a, mkState (Started (mkResources (event_sources r) (query_sources r) k)) (sh s))
      end
  end.

(** What other threads do to the shared state before the access number [i]. *)
Context (others : nat -> Sh -> Sh).
Definition interfere (i : nat) : Srv unit := modify (fun s => mkState (service s) (others i (sh s))).
Definition scheduler_time (i : nat) : Srv T := interfere i;; gets (fun s => time (sh s)).

(** [time] and [halt] *)
Definition srv_time : Srv Timestamp :=
  started;;
  now ← scheduler_time 0;
  require SimulationTimeOutOfRange (monotonic_to_timestamp now).
Definition srv_halt : Srv unit := started;; interfere 0;; on_shared halt.

(** The macro [match_deadline]; adding the duration may panic. *)
Definition match_deadline (deadline : RequestDeadline) : Srv T :=
  match deadline with
  | RTime time => require InvalidTime (timestamp_to_monotonic time)
  | RDuration duration =>
      d ← liftO (unwrap (to_strictly_positive_duration duration));
      d ← require InvalidDeadline d;
      now ← scheduler_time 0;
      liftO (unwrap (mt_add now d))
  end.

Definition parse_period (period : option PDuration) : Srv (option Z) :=
  match period with
  | None => mret None
  | Some period =>
      d ← liftO (unwrap (to_strictly_positive_duration period));
      d ← require InvalidPeriod d;
      mret (Some d)
  end.

Definition make_event (source : EventSourceEntry) (with_key : bool) (period : option Z) (arg : bytes)
    : Srv (Event * option nat) :=
  match with_key, period with
  | false, None => e ← require InvalidMessage (event source arg); mret (e, None)
  | false, Some period => e ← require InvalidMessage (periodic_event source period arg); mret (e, None)
  | true, None =>
      '(e, key) ← map_err (fun _ => to_error InvalidMessage) (on_shared (keyed_event source arg)); mret (e, Some key)
  | true, Some period =>
      '(e, key) ← map_err (fun _ => to_error InvalidMessage) (on_shared (keyed_periodic_event source period arg));
      mret (e, Some key)
  end.

Definition register_key (event_key : nat) (period : option Z) (deadline : T) : Srv KeyRegistryId :=
  now ← scheduler_time 1;
  on_keys (fun r => r ← remove_expired_keys now r; Some (tt, r));;
  match period with
  | Some _ => on_keys (insert_eternal_key event_key)
  | None => on_keys (insert_key event_key deadline)
  end.

Definition srv_schedule_event (request : ScheduleEventRequest) : Srv (option KeyRegistryId) :=
  r ← started;
  source_path ← require MissingArgument (se_source request);
  period ← parse_period (se_period request);
  source ← endpoint (get_event (event_sources r) source_path);
  '(event, event_key) ← make_event source (se_with_key request) period (se_event request);
  deadline ← require MissingArgument (se_deadline request);
  deadline ← match_deadline deadline;
  key_id ← match event_key with
           | None => mret None
           | Some event_key => id ← register_key event_key period deadline; mret (Some id)
           end;
  interfere 2;;
  map_err from_scheduling_error (on_shared (schedule (Deadline.Absolute deadline) (QEvent event)));;
  mret key_id.

Definition srv_cancel_event (request : CancelEventRequest) : Srv unit :=
  started;;
  '(subkey1, subkey2) ← require MissingArgument (ce_key request);
  let key_id := Ipq.from_raw_parts subkey1 subkey2 in
  now ← scheduler_time 0;
  on_keys (fun r => r ← remove_expired_keys now r; Some (tt, r));;
  key ← on_keys (extract_key key_id);
  key ← require InvalidKey key;
  interfere 1;;
  on_shared (cancel_event key).

(** The result is the reader of the replies and their type, used by
    [schedule_query_reply] when the future that is returned is awaited. *)
Definition srv_schedule_query (request : ScheduleQueryRequest) : Srv (ReplyReader * TypeId) :=
  r ← started;
  source_path ← require MissingArgument (sq_source request);
  source ← endpoint (get_query (query_sources r) source_path);
  '(query, rx) ← map_err (fun _ => to_error InvalidMessage) (on_shared (Cbor.query source (sq_request request)));
  deadline ← require MissingArgument (sq_deadline request);
  deadline ← match_deadline deadline;
  interfere 2;;
  map_err from_scheduling_error (on_shared (schedule (Deadline.Absolute deadline) (QQuery query)));;
  mret (rx, qid_reply (qu_inner source)).

Definition schedule_query_reply (R : TypeId) (replies : option (list Value)) : Outcome Error (list bytes) :=
  replies ← ok_or (to_error SimulationBadQuery) (take_collect R replies);
  match replies with Ok l => Val l | Err _ => Fail (to_error InvalidMessage) end.
End Service.

(** ** Properties *)
Section Facts.
Context `{CB : Ciborium} {T : Type} `{PT : ProtoTime T}.
Context {SQ IQ : Type} `{SPQ : !StablePQ (T * Z) QueueItem SQ} `{IPQ : !StablePQ Z InjectorItem IQ}.
Notation Sh := (Shared T SQ IQ).
Notation St := (@State _ T SQ IQ).
Implicit Types (s : St) (others : nat -> Sh -> Sh).

Lemma started_val s r s' : started s = (Val r, s') -> service s = Started r /\ s' = s.
Proof. unfold started. destruct (service s) eqn:E; [done|]. by intros [= <- <-]. Qed.

Lemma require_val {A} c (o : option A) s a s' : require c o s = (Val a, s') -> o = Some a /\ s' = s.
Proof. unfold require. intros [H ->]%liftO_val. by destruct o; simplify_eq/=. Qed.

Lemma unwrap_val {A} (o : option A) s a s' : liftO (E := Error) (unwrap o) s = (Val a, s') -> o = Some a /\ s' = s.
Proof. intros [H ->]%liftO_val. by destruct o; simplify_eq/=. Qed.

Lemma endpoint_val {A} (r : Result A EndpointError) s a s' : endpoint r s = (Val a, s') -> r = Ok a /\ s' = s.
Proof. unfold endpoint, map_err, liftO. destruct r; cbn; [by intros [= <- <-]|done]. Qed.

Lemma on_keys_val {A} (f : @KeyRegistry T -> option (A * @KeyRegistry T)) s a s' : on_keys f s = (Val a, s') ->
  exists r k, service s = Started r /\ f (key_registry r) = Some (a, k) /\
    s' = mkState (Started (mkResources (event_sources r) (query_sources r) k)) (sh s).
Proof.
  unfold on_keys. destruct (service s) as [|r] eqn:E; [done|]. destruct (f (key_registry r)) as [[a' k]|] eqn:Ef; [|done].
  intros [= <- <-]. by exists r, k.
Qed.

(** The period of an event as requested. *)
Lemma parse_period_val p s d s' : parse_period p s = (Val d, s') ->
  s' = s /\ match p with None => d = None | Some p => exists d', to_strictly_positive_duration p = Some (Some d') /\ d = Some d' end.
Proof.
  unfold parse_period. destruct p as [p|]; [|by intros [= <- <-]].
  intros (o & s1 & [Ho ->]%unwrap_val & H)%bind_val_inv. apply bind_val_inv in H as (d' & s1 & [-> ->]%require_val & H).
  injection H as <- <-. split; [done|]. by exists d'.
Qed.

(** The event is that of the request, and its key is fresh. *)
Lemma make_event_val source wk period arg s e k s' : make_event source wk period arg s = (Val (e, k), s') ->
  service s' = service s /\ Items.period e = period /\ key e = k /\ event_id e = eid (ev_inner source) /\
  (exists v, from_reader (eid_type (ev_inner source)) arg = Some v /\ event_arg e = mkAny (eid_type (ev_inner source)) v) /\
  k = (if wk then Some (length (flags (sh s))) else None) /\
  sh s' = (if wk then with_flags (flags (sh s) ++ [false]) (sh s) else sh s).
Proof.
  destruct s as [srv x]. unfold make_event, map_err, on_shared, keyed_event, keyed_periodic_event, event, periodic_event, new_key, require, liftO.
  destruct wk, period as [p|]; cbv [mbind eff_bind option_bind mret eff_ret]; cbn;
    (destruct (from_reader _ arg) as [v|] eqn:E; cbn; [|done]); intros [= <- <- <-]; cbn; split_and!; try done; by exists v.
Qed.

Lemma scheduler_time_val others i s now s' : scheduler_time others i s = (Val now, s') ->
  now = time (others i (sh s)) /\ s' = mkState (service s) (others i (sh s)).
Proof. by intros [= <- <-]. Qed.

Lemma match_deadline_val others dl s t s' : match_deadline others dl s = (Val t, s') ->
  service s' = service s /\ (sh s' = sh s \/ sh s' = others 0%nat (sh s)).
Proof.
  unfold match_deadline. destruct dl as [ts|d]; [intros [_ ->]%require_val; by split; [|left]|].
  intros (o & s1 & [_ ->]%unwrap_val & H)%bind_val_inv. apply bind_val_inv in H as (d' & s1 & [_ ->]%require_val & H).
  apply bind_val_inv in H as (now & s1 & [-> ->]%scheduler_time_val & [_ ->]%unwrap_val). by split; [|right].
Qed.

(** The key registry is a map from the identifiers handed out so far. *)
Definition keys_ok (r : Resources) ids (m : gmap nat (T * nat)) (n : nat) : Prop :=
  reg_rel (key_registry r) ids m n /\ length ids = n /\ Z.of_nat n < u64_max.

Lemma register_key_val others k period dl s id s' r ids m n :
  service s = Started r -> keys_ok r ids m n -> register_key others k period dl s = (Val id, s') ->
  sh s' = others 1%nat (sh s) /\ exists r' m', service s' = Started r' /\ event_sources r' = event_sources r /\
    reg_rel (key_registry r') (ids ++ [id]) m' (S n) /\
    m' !! n = Some (match period with Some _ => mt_max | None => dl end, k).
Proof.
  intros Hr (Hrel & _ & Hb). unfold register_key.
  intros (now & s1 & [-> ->]%scheduler_time_val & H)%bind_val_inv.
  apply bind_val_inv in H as ([] & s2 & (r1 & k1 & Hr1 & Hp & ->)%on_keys_val & H). cbn [service sh] in *.
  rewrite Hr in Hr1. injection Hr1 as <-.
  destruct (purge_rel _ _ _ _ (time (others 1%nat (sh s))) Hrel) as (r2 & Hp2 & Hrel2). rewrite Hp2 in Hp. injection Hp as <-.
  set (e := match period with Some _ => mt_max | None => dl end).
  destruct (insert_rel _ _ _ _ k e Hrel2 Hb) as (id' & r3 & Hi & Hrel3).
  assert (exists r3', insert_key k e r2 = Some (id, r3') /\
    s' = mkState (Started (mkResources (event_sources r) (query_sources r) r3')) (others 1%nat (sh s))) as (r3' & Hi' & ->).
  { unfold e. destruct period; apply on_keys_val in H as (r4 & k4 & Hr4 & Hk & ->); cbn in Hr4; injection Hr4 as <-; by exists k4. }
  rewrite Hi in Hi'. injection Hi' as <- <-. split; [done|]. eexists _, _. split_and!; [done|done|exact Hrel3|apply lookup_insert_eq].
Qed.

(** The item is put into the queue, for a time in the future. *)
Definition enqueued (it : QueueItem) (t : T) (x x' : Sh) : Prop :=
  kltb (time x) t = true /\ exists q, pq_insert (t, GLOBAL_ORIGIN_ID) it (scheduler_queue x) = Some q /\
    x' = with_scheduler_queue q x.

Lemma schedule_val t it s a s' :
  map_err from_scheduling_error (on_shared (schedule (Deadline.Absolute t) it)) s = (Val a, s') ->
  service s' = service s /\ enqueued it t (sh s) (sh s').
Proof.
  unfold map_err, on_shared. destruct (schedule (Deadline.Absolute t) it (sh s)) as [[[]|e|] x] eqn:E; [|done|done].
  intros [= <- <-]. cbn. split; [done|]. unfold schedule, schedule_from in E. apply bind_val_inv in E as (t' & x1 & (-> & Ht & Hd)%checked_time_ok & H).
  cbn in Hd. injection Hd as <-. split; [done|]. unfold queue_insert in H.
  destruct (pq_insert _ _ _) as [q|]; [|done]. injection H as <-. by exists q.
Qed.

(** The key of a keyed event is registered, until the event is due or, for a
    periodic event, for good. *)
Definition registered (r : Resources) ids (n : nat) (e : Event) (t : T) (id : KeyRegistryId) : Prop :=
  exists m k, reg_rel (key_registry r) (ids ++ [id]) m (S n) /\ key e = Some k /\
    m !! n = Some (match Items.period e with Some _ => mt_max | None => t end, k).

(** What an accepted request does: the event of the request, from the source
    bound to the path, is put into the queue for the requested time, after the
    key was registered. *)
Lemma schedule_event_val others req s r ids m n key_id s' :
  service s = Started r -> keys_ok r ids m n -> srv_schedule_event others req s = (Val key_id, s') ->
  exists path source v e t x r',
    se_source req = Some path /\ event_sources r !! path = Some source /\
    from_reader (eid_type (ev_inner source)) (se_event req) = Some v /\
    event_id e = eid (ev_inner source) /\ event_arg e = mkAny (eid_type (ev_inner source)) v /\
    Some (Items.period e) = match se_period req with
                            | None => Some None
                            | Some p => to_strictly_positive_duration p
                            end /\
    enqueued (QEvent e) t x (sh s') /\ service s' = Started r' /\
    match key_id with
    | None => se_with_key req = false /\ key e = None /\ r' = r
    | Some id => se_with_key req = true /\ key e = Some (length (flags (sh s))) /\ registered r' ids n e t id
    end /\
    exists x0 x1, x0 = (if se_with_key req then with_flags (flags (sh s) ++ [false]) (sh s) else sh s) /\
      (x1 = x0 \/ x1 = others 0%nat x0) /\ (x = others 2%nat (if se_with_key req then others 1%nat x1 else x1)).
Proof.
  intros Hr Hk. unfold srv_schedule_event.
  intros (r0 & s1 & [Hr0 ->]%started_val & H)%bind_val_inv. rewrite Hr in Hr0. injection Hr0 as <-.
  apply bind_val_inv in H as (path & s1 & [Hpath ->]%require_val & H).
  apply bind_val_inv in H as (period & s1 & [-> Hper]%parse_period_val & H).
  apply bind_val_inv in H as (source & s1 & [Hsrc ->]%endpoint_val & H).
  apply bind_val_inv in H as ([e k] & s1 & (Hs1 & Hpe & Hke & Hid & (v & Hv & Harg) & Hkey & Hx1)%make_event_val & H).
  apply bind_val_inv in H as (dl & s2 & [Hdl ->]%require_val & H).
  apply bind_val_inv in H as (t & s2 & [Hs2 Hx2]%match_deadline_val & H).
  apply bind_val_inv in H as (kid & s3 & Hreg & H).
  apply bind_val_inv in H as ([] & s4 & H4 & H). injection H4 as <-.
  apply bind_val_inv in H as ([] & s5 & [Hs5 Hq]%schedule_val & H). injection H as <- <-. cbn [service sh] in *.
  unfold get_event, get_or in Hsrc. destruct (event_sources r !! path) as [source'|] eqn:Es; [|done]. injection Hsrc as ->.
  assert (Some (Items.period e) = match se_period req with None => Some None | Some p => to_strictly_positive_duration p end) as Hp.
  { rewrite Hpe. destruct (se_period req); [|by subst]. destruct Hper as (d & -> & ->). done. }
  rewrite Hx1 in Hx2. destruct (se_with_key req) eqn:Ew; rewrite Hkey in Hreg, Hke.
  - apply bind_val_inv in Hreg as (id & s6 & Hreg & H6). injection H6 as <- <-.
    apply (register_key_val _ _ _ _ _ _ _ r ids m n) in Hreg as (Hx3 & r' & m' & Hr' & _ & Hrel & Hm); [|congruence|done].
    eexists path, source, v, e, t, _, r'. split_and!; try done; [congruence| |].
    + eexists m', _. split_and!; [done|done|]. by rewrite Hpe.
    + eexists _, (sh s2). split; [reflexivity|]. split; [exact Hx2|]. by rewrite Hx3.
  - injection Hreg as <- <-. eexists path, source, v, e, t, _, r. split_and!; try done; [congruence|].
    eexists _, (sh s2). split; [reflexivity|]. by split; [exact Hx2|].
Qed.

(** ** Cancellation *)
Lemma cancel_event_found others s r ids m n i id t k :
  service s = Started r -> reg_rel (key_registry r) ids m n -> ids !! i = Some id -> m !! i = Some (t, k) ->
  kleb (time (others 0%nat (sh s))) t = true ->
  exists r' m', reg_rel r' ids m' n /\ m' !! i = None /\
    srv_cancel_event others (mkCancelEvent (Some (Ipq.into_raw_parts id))) s =
      (Val tt, mkState (Started (mkResources (event_sources r) (query_sources r) r'))
                 (exec (E := Error) (cancel_event k) (others 1%nat (others 0%nat (sh s))))).
Proof.
  intros Hr Hrel Hid Hm Hle. destruct (purge_rel _ _ _ _ (time (others 0%nat (sh s))) Hrel) as (r1 & Hp & Hrel1).
  destruct (extract_rel _ _ _ _ i Hrel1) as (r2 & He & Hrel2). rewrite Hid in He.
  assert (filter (fun p : nat * (T * nat) => kleb (time (others 0%nat (sh s))) p.2.1 = true) m !! i = Some (t, k)) as Hf
    by (by apply map_lookup_filter_Some).
  rewrite Hf in He. eexists r2, _. split; [exact Hrel2|]. split; [apply lookup_delete_eq|].
  destruct s as [srv x]. cbn [service sh] in *. subst srv. destruct id as [a b].
  unfold srv_cancel_event, started, require, scheduler_time, interfere, on_keys.
  cbv [mbind eff_bind liftO ok_or modify gets]. cbn -[remove_expired_keys extract_key]. rewrite Hp.
  cbn -[extract_key]. unfold Ipq.from_raw_parts. by rewrite He.
Qed.

Lemma cancel_event_unknown others s r ids m n i id :
  service s = Started r -> reg_rel (key_registry r) ids m n -> ids !! i = Some id -> m !! i = None ->
  outcome (srv_cancel_event others (mkCancelEvent (Some (Ipq.into_raw_parts id)))) s = Fail (to_error InvalidKey).
Proof.
  intros Hr Hrel Hid Hm. destruct (purge_rel _ _ _ _ (time (others 0%nat (sh s))) Hrel) as (r1 & Hp & Hrel1).
  destruct (extract_rel _ _ _ _ i Hrel1) as (r2 & He & Hrel2). rewrite Hid in He.
  assert (filter (fun p : nat * (T * nat) => kleb (time (others 0%nat (sh s))) p.2.1 = true) m !! i = None) as Hf
    by (by apply map_lookup_filter_None; left).
  rewrite Hf in He. destruct s as [srv x]. cbn [service sh] in *. subst srv. destruct id as [a b].
  unfold outcome, srv_cancel_event, started, require, scheduler_time, interfere, on_keys.
  cbv [mbind eff_bind liftO ok_or modify gets]. cbn -[remove_expired_keys extract_key]. rewrite Hp.
  cbn -[extract_key]. unfold Ipq.from_raw_parts. by rewrite He.
Qed.

(** ** Other clients *)

(** What the other threads may do to the shared state: create and cancel keys, and move time forward. *)
Record meanwhile others : Prop := {
  mw_flags i x : flags_grow (flags x) (flags (others i x));
  mw_time i x : kleb (time x) (time (others i x)) = true }.

Inductive Client : Type :=
  | ClScheduleEvent (others : nat -> Sh -> Sh) (request : ScheduleEventRequest)
  | ClScheduleQuery (others : nat -> Sh -> Sh) (request : ScheduleQueryRequest)
  | ClCancelEvent (others : nat -> Sh -> Sh) (request : CancelEventRequest)
  | ClTime (others : nat -> Sh -> Sh)
  | ClHalt (others : nat -> Sh -> Sh)
  | ClNone (others : nat -> Sh -> Sh).
Definition client (c : Client) : Eff St Error unit :=
  match c with
  | ClScheduleEvent others request => srv_schedule_event others request;; mret tt
  | ClScheduleQuery others request => srv_schedule_query others request;; mret tt
  | ClCancelEvent others request => srv_cancel_event others request
  | ClTime others => srv_time others;; mret tt
  | ClHalt others => srv_halt others
  | ClNone others => interfere others 0
  end.
Definition client_others (c : Client) : nat -> Sh -> Sh :=
  match c with
  | ClScheduleEvent others _ | ClScheduleQuery others _ | ClCancelEvent others _ | ClTime others | ClHalt others | ClNone others => others
  end.

(** One after the other, since the service is locked; a panic poisons the mutex. *)
Fixpoint clients (cs : list Client) s : option St :=
  match cs with
  | [] => Some s
  | c :: cs => match client c s with (Panic, _) => None | (_, s) => clients cs s end
  end.

(** A client that does not use the identifier [id]. *)
Definition stranger (id : KeyRegistryId) (c : Client) : Prop :=
  meanwhile (client_others c) /\
  match c with ClCancelEvent _ request => ce_key request <> Some (Ipq.into_raw_parts id) | _ => True end.

Section Clients.
Context (id : KeyRegistryId) (tt_ : T) (k : nat) (fl : list bool) (gone : bool).

(** The key registered under [id] until [tt_] is still there, unless this time has passed, or it is [gone] for good;
    [b] bounds the number of insertions. *)
Definition held (b : nat) s : Prop :=
  flags_grow fl (flags (sh s)) /\
  exists r ids m n i, service s = Started r /\ reg_rel (key_registry r) ids m n /\ (n <= b)%nat /\ ids !! i = Some id /\
    if gone then m !! i = None else m !! i = Some (tt_, k) \/ kltb tt_ (time (sh s)) = true.

Notation keeps b m := (triple (E := Error) (held b) m (fun _ => held b) (held b)).

Lemma held_mono b b' s : (b <= b')%nat -> held b s -> held b' s.
Proof. intros Hb (? & r & ids & m & n & i & ? & ? & ? & ? & ?). split; [done|]. exists r, ids, m, n, i. split_and!; [done|done|lia|done|done]. Qed.

Lemma held_shared b s x : flags_grow (flags (sh s)) (flags x) -> kleb (time (sh s)) (time x) = true ->
  held b s -> held b (mkState (service s) x).
Proof.
  intros Hf Ht (Hg & r & ids & m & n & i & ? & ? & ? & ? & Hm). split; [cbn; by etransitivity|].
  exists r, ids, m, n, i. split_and!; try done. destruct gone; [done|]. destruct Hm as [?|Hm]; [by left|right]. cbn.
  apply mt_lt in Hm. apply mt_le in Ht. apply mt_lt. lia.
Qed.

Lemma keeps_same {A} b (m : Eff St Error A) : (forall s, exec m s = s) -> keeps b m.
Proof. intros Hm s Hs. specialize (Hm s). unfold exec in Hm. destruct (m s) as [[a|e|] s']; cbn in Hm; by subst. Qed.
Lemma keeps_bind {A B} b (m : Eff St Error A) (f : A -> Eff St Error B) : keeps b m -> (forall a, keeps b (f a)) -> keeps b (m ≫= f).
Proof. intros Hm Hf. by eapply triple_bind. Qed.
Lemma keeps_grow {A} b (m : Eff St Error A) :
  (forall s, service (exec m s) = service s /\ flags_grow (flags (sh s)) (flags (sh (exec m s))) /\ kleb (time (sh s)) (time (sh (exec m s))) = true) ->
  keeps b m.
Proof.
  intros Hm s Hs. specialize (Hm s). unfold exec in Hm. destruct (m s) as [[a|e|] [srv x]]; cbn in Hm; destruct Hm as (-> & Hf & Ht);
    by apply held_shared.
Qed.

Lemma keeps_started b : keeps b started.
Proof. apply keeps_same. intros s. unfold exec, started. by destruct (service s). Qed.
Lemma keeps_liftO {A} b (o : Outcome Error A) : keeps b (liftO o).
Proof. by apply keeps_same. Qed.
Lemma keeps_endpoint {A} b (o : Result A EndpointError) : keeps b (endpoint o).
Proof. apply keeps_same. intros s. by destruct o. Qed.
Lemma keeps_ret {A} b (a : A) : keeps b (mret (M := Eff St Error) a).
Proof. by apply keeps_same. Qed.
Lemma keeps_interfere others b j : meanwhile others -> keeps b (interfere others j).
Proof. intros Hmw. apply keeps_grow. intros s. split; [done|]. split; apply Hmw. Qed.
Lemma keeps_period b p : keeps b (parse_period p).
Proof. destruct p; cbn [parse_period]; [|apply keeps_ret]. do 2 (apply keeps_bind; [apply keeps_liftO|intros ?]). apply keeps_ret. Qed.

(** The time that is read is that of the state that is left. *)
Lemma keeps_time others b j : meanwhile others ->
  triple (E := Error) (held b) (scheduler_time others j) (fun now s => held b s /\ time (sh s) = now) (held b).
Proof. intros Hmw s Hs. split; [|done]. apply (held_shared b s (others j (sh s))); [apply Hmw|apply Hmw|done]. Qed.
Lemma keeps_deadline others b dl : meanwhile others -> keeps b (match_deadline others dl).
Proof.
  intros Hmw. destruct dl; cbn [match_deadline]; [apply keeps_liftO|]. do 2 (apply keeps_bind; [apply keeps_liftO|intros ?]).
  eapply triple_bind; [by apply keeps_time|]. intros now. eapply triple_weaken; [apply (keeps_liftO b)|by intros ? []|done|done].
Qed.
Lemma keeps_event b source wk p arg : keeps b (make_event source wk p arg).
Proof.
  apply keeps_grow. intros [srv x]. unfold exec.
  unfold make_event, map_err, on_shared, keyed_event, keyed_periodic_event, event, periodic_event, new_key, require, liftO.
  destruct wk, p as [p|]; cbv [mbind eff_bind option_bind mret eff_ret]; cbn; destruct (from_reader _ arg) as [v|]; cbn;
    (split; [done|]); (split; [first [done|apply flags_grow_new]|apply kleb_refl]).
Qed.
Lemma keeps_query b source arg : keeps b (map_err (fun _ => to_error InvalidMessage) (on_shared (Cbor.query source arg))).
Proof.
  apply keeps_grow. intros [srv x]. unfold exec, map_err, on_shared, Cbor.query, new_channel, liftO. cbv [mbind eff_bind mret eff_ret]. cbn.
  destruct (from_reader _ arg) as [v|]; cbn; (split; [done|]); (split; [done|apply kleb_refl]).
Qed.
Lemma keeps_schedule b dl it : keeps b (map_err from_scheduling_error (on_shared (schedule dl it))).
Proof.
  apply keeps_grow. intros [srv x]. unfold exec, map_err, on_shared. cbn [service sh].
  destruct (schedule dl it x) as [res y] eqn:E. assert (frame x y) as Hfr.
  { assert (y = exec (call (CallSchedule dl it GLOBAL_ORIGIN_ID)) x) as ->; [|apply call_frame].
    unfold exec. cbn [call]. unfold schedule in E. by rewrite E. }
  assert (service (mkState srv y) = srv /\ flags_grow (flags x) (flags y) /\ kleb (time x) (time y) = true) as Hok.
  { split; [done|]. split; [apply Hfr|]. rewrite (fr_time _ _ Hfr). apply kleb_refl. }
  by destruct res.
Qed.

(** The purge at the current time, a registration, and the extraction of another key. *)
Lemma keeps_purge b now :
  triple (E := Error) (fun s => held b s /\ time (sh s) = now) (on_keys (fun r => r ← remove_expired_keys now r; Some (tt, r)))
    (fun _ => held b) (held b).
Proof.
  intros [srv x] [(Hg & r & ids & m & n & i & Hr & Hrel & Hn & Hi & Hm) <-]. cbn [service sh] in *. subst srv. unfold on_keys. cbn [service sh].
  destruct (purge_rel _ _ _ _ (time x) Hrel) as (r' & -> & Hrel'). cbn [mbind option_bind]. split; [done|]. eexists _, ids, _, n, i.
  split; [reflexivity|]. split; [exact Hrel'|]. split; [done|]. split; [done|]. destruct gone.
  - apply map_lookup_filter_None. by left.
  - cbn [sh]. destruct (kltb tt_ (time x)) eqn:Et; [by right|left]. destruct Hm as [Hm|?]; [|done].
    apply map_lookup_filter_Some. split; [done|]. cbn. unfold kltb in Et. by apply negb_false_iff in Et.
Qed.
Lemma keeps_insert b kk e : Z.of_nat b < u64_max ->
  triple (E := Error) (held b) (on_keys (insert_key kk e)) (fun _ => held (S b)) (held (S b)).
Proof.
  intros Hb [srv x] (Hg & r & ids & m & n & i & Hr & Hrel & Hn & Hi & Hm). cbn [service sh] in *. subst srv. unfold on_keys. cbn [service sh].
  destruct (insert_rel _ _ _ _ kk e Hrel) as (id' & r' & -> & Hrel'); [lia|]. split; [done|]. eexists _, _, _, (S n), i.
  split; [reflexivity|]. split; [exact Hrel'|]. split; [lia|]. split; [by apply lookup_app_l_Some|].
  apply lookup_lt_Some in Hi as Hlt. rewrite (reg_rel_len _ _ _ _ Hrel) in Hlt. rewrite lookup_insert_ne by lia. done.
Qed.
Lemma keeps_extract b id' : id' <> id -> keeps b (on_keys (extract_key id')).
Proof.
  intros Hne [srv x] (Hg & r & ids & m & n & i & Hr & Hrel & Hn & Hi & Hm). cbn [service sh] in *. subst srv. unfold on_keys. cbn [service sh].
  destruct (extract_any _ _ _ _ id' Hrel) as (o & r' & m' & -> & Hrel' & Hsame). split; [done|]. eexists _, ids, m', n, i.
  split; [reflexivity|]. split; [exact Hrel'|]. split; [done|]. split; [done|]. rewrite Hsame by congruence. done.
Qed.

Lemma keeps_register others b kk p t : meanwhile others -> Z.of_nat b < u64_max ->
  triple (E := Error) (held b) (register_key others kk p t) (fun _ => held (S b)) (held (S b)).
Proof.
  intros Hmw Hb. assert (forall s, held b s -> held (S b) s) as Hmono by (intros s; apply held_mono; lia).
  eapply triple_bind; [eapply triple_weaken; [by apply (keeps_time others b 1)|done|intros ? ? H; exact H|done]|]. intros now.
  eapply triple_bind; [eapply triple_weaken; [apply (keeps_purge b now)|done|intros ? ? H; exact H|done]|]. intros [].
  destruct p; [apply (keeps_insert b kk mt_max Hb)|by apply keeps_insert].
Qed.

Lemma keeps_weaken {A} b (m : Eff St Error A) :
  keeps b m -> triple (E := Error) (held b) m (fun _ => held b) (held (S b)).
Proof. intros H. eapply triple_weaken; [exact H|done|done|]. intros s. apply held_mono. lia. Qed.

Ltac keeps_step :=
  eapply triple_bind; [apply keeps_weaken; first [apply keeps_started|apply keeps_period|apply keeps_endpoint|apply keeps_event|apply keeps_query
    |by apply keeps_deadline|by apply keeps_interfere|apply keeps_schedule|apply keeps_liftO]|intros ?];
  repeat match goal with a : _ * _ |- _ => destruct a end.

Lemma client_keeps b c : stranger id c -> Z.of_nat b < u64_max ->
  triple (E := Error) (held b) (client c) (fun _ => held (S b)) (held (S b)).
Proof.
  intros [Hmw Hc] Hb. assert (forall s, held b s -> held (S b) s) as Hmono by (intros s; apply held_mono; lia).
  destruct c as [others req|others req|others req|others|others|others]; cbn [client client_others] in *.
  - eapply triple_bind with (R := fun _ => held (S b)); [|intros ?; by apply triple_ret]. unfold srv_schedule_event.
    do 7 keeps_step. eapply triple_bind with (R := fun _ => held (S b)).
    + destruct o; [|by apply triple_ret]. eapply triple_bind; [by apply keeps_register|]. intros ?. by apply triple_ret.
    + intros ?. apply (keeps_bind (S b)); [by apply keeps_interfere|intros ?]. apply keeps_bind; [apply keeps_schedule|intros ?; apply keeps_ret].
  - eapply triple_bind with (R := fun _ => held (S b)); [|intros ?; by apply triple_ret]. unfold srv_schedule_query.
    do 8 keeps_step. by apply triple_ret.
  - unfold srv_cancel_event. keeps_step. destruct (ce_key req) as [key|] eqn:Ek; [|by apply (triple_throw (held b))].
    change (require MissingArgument (Some key)) with (mret (M := Eff St Error) key).
    eapply triple_bind with (R := fun a s => held b s /\ a = key); [by apply triple_ret|]. intros [k1 k2].
    apply triple_pure with (phi := (k1, k2) = key); [by intros ? []|]. intros <-.
    apply triple_weaken with (P' := held b) (Q' := fun _ => held b) (X' := held b); [|by intros ? []|auto|done].
    eapply triple_bind; [by apply keeps_time|]. intros now. eapply triple_bind; [apply keeps_purge|]. intros [].
    apply keeps_bind; [apply keeps_extract|intros ?].
    { intros Heq. apply Hc. by rewrite <- Heq. }
    apply keeps_bind; [apply keeps_liftO|intros ?]. apply keeps_bind; [by apply keeps_interfere|intros ?].
    apply keeps_grow. intros [srv x]. split; [done|]. split; [apply flags_grow_cancel|apply kleb_refl].
  - eapply triple_bind with (R := fun _ => held (S b)); [|intros ?; by apply triple_ret]. unfold srv_time. keeps_step.
    eapply triple_bind; [eapply triple_weaken; [by apply (keeps_time others b 0)|done|intros ? ? H; exact H|done]|]. intros now.
    eapply triple_weaken; [apply (keeps_liftO b)|by intros ? []|auto|auto].
  - unfold srv_halt. do 2 keeps_step. eapply triple_weaken; [apply (keeps_grow b)|done|auto|auto].
    intros s. split; [done|]. split; [done|apply kleb_refl].
  - eapply triple_weaken; [by apply (keeps_interfere others b 0)|done|auto|auto].
Qed.

Lemma clients_keep cs : forall b s s1, Forall (stranger id) cs -> Z.of_nat (b + length cs) <= u64_max -> held b s ->
  clients cs s = Some s1 -> held (b + length cs) s1.
Proof.
  induction cs as [|c cs IH]; intros b s s1 Hcs Hb Hs H; cbn in H.
  - simplify_eq. cbn. by rewrite Nat.add_0_r.
  - apply Forall_cons in Hcs as [Hc Hcs]. cbn [length] in *. pose proof (client_keeps b c Hc ltac:(lia) s Hs) as Hk.
    rewrite Nat.add_succ_r. change (S (b + length cs)) with (S b + length cs)%nat.
    destruct (client c s) as [[a|e|] s']; [|by eapply IH; [..|exact H]; [done|lia|]|done]. eapply IH; [done| |exact Hk|exact H]. lia.
Qed.
End Clients.

(** C26: the identifier returned to a client that schedules a keyed event cancels
    this event and no other.  A later [cancel_event] with this identifier succeeds, whatever the
    simulation has done in the meantime (moved time forward, created and cancelled keys) and
    whatever other clients have requested without using this identifier (scheduled events and queries, cancelled other events,
    also with identifiers that were never handed out), without a panic that poisons the service,
    provided the time of a one-shot event has not passed; it raises the flag of
    the event that was put into the queue and of no other event.  A second attempt is rejected as an
    invalid key, again whatever the others have done. *)
Theorem scheduled_event_cancellable others others' others'' req s r ids m n id s' cs s1 :
  service s = Started r -> keys_ok r ids m n -> meanwhile others -> meanwhile others' ->
  srv_schedule_event others req s = (Val (Some id), s') ->
  Forall (stranger id) cs -> Z.of_nat (S n + length cs) <= u64_max -> clients cs s' = Some s1 ->
  exists e t x, enqueued (QEvent e) t x (sh s') /\
    (is_Some (Items.period e) \/ kleb (time (others' 0%nat (sh s1))) t = true ->
     exists s2, srv_cancel_event others' (mkCancelEvent (Some (Ipq.into_raw_parts id))) s1 = (Val tt, s2) /\
       event_is_cancelled (flags (sh s2)) e = true /\
       (forall k, key e <> Some k ->
          EventKey.is_cancelled (flags (sh s2)) k = EventKey.is_cancelled (flags (others' 1%nat (others' 0%nat (sh s1)))) k) /\
       forall cs' s3, Forall (stranger id) cs' -> Z.of_nat (S n + length cs + length cs') <= u64_max -> clients cs' s2 = Some s3 ->
         outcome (srv_cancel_event others'' (mkCancelEvent (Some (Ipq.into_raw_parts id)))) s3 = Fail (to_error InvalidKey)).
Proof.
  intros Hr Hk Hg Hg' H Hcs Hb Hs1.
  destruct (schedule_event_val _ _ _ _ _ _ _ _ _ Hr Hk H)
    as (path & source & v & e & t & x & r' & _ & _ & _ & _ & _ & _ & Hq & Hr' & (Hw & Hke & m' & k & Hrel & Hk' & Hm) & x0 & x1 & Hx0 & Hx1 & Hx).
  rewrite Hke in Hk'. injection Hk' as <-. rewrite Hw in Hx0, Hx. exists e, t, x. split; [done|]. intros Hdue.
  assert ((ids ++ [id]) !! n = Some id) as Hid by (destruct Hk as (_ & <- & _); by rewrite list_lookup_middle).
  set (until := match Items.period e with Some _ => mt_max | None => t end) in *.
  assert (held id until (length (flags (sh s))) (flags x0) false (S n) s') as Hh.
  { split; [|exists r', (ids ++ [id]), m', (S n), n; split_and!; try done; by left].
    destruct Hq as (_ & q & _ & ->). cbn. rewrite Hx. do 2 (etransitivity; [|apply Hg]). destruct Hx1 as [-> | ->]; [done|apply Hg]. }
  apply (clients_keep id until _ _ false cs (S n) s' s1 Hcs Hb) in Hh as (Hf1 & r1 & ids1 & m1 & n1 & i & Hr1 & Hrel1 & Hn1 & Hi & Hm1); [|done].
  assert (kleb (time (others' 0%nat (sh s1))) until = true) as Hle.
  { unfold until. destruct (Items.period e); [apply mt_le, mt_max_spec|]. destruct Hdue as [[d Hd]|Hd]; done. }
  destruct Hm1 as [Hm1|Hlt].
  2:{ exfalso. pose proof (mw_time _ Hg' 0%nat (sh s1)) as Ht. apply mt_lt in Hlt. apply mt_le in Ht, Hle. lia. }
  destruct (cancel_event_found others' s1 r1 ids1 m1 n1 i id _ _ Hr1 Hrel1 Hi Hm1 Hle) as (r2 & m2 & Hrel2 & Hm2 & Hc).
  eexists. split; [exact Hc|].
  assert (EventKey.live (flags (others' 1%nat (others' 0%nat (sh s1)))) (length (flags (sh s)))) as Hlive.
  { assert (flags_grow (flags x0) (flags (others' 1%nat (others' 0%nat (sh s1))))) as [Hlen _] by (do 2 (etransitivity; [|apply Hg']); done).
    unfold EventKey.live. rewrite Hx0 in Hlen. cbn in Hlen. rewrite length_app in Hlen. cbn in Hlen. lia. }
  split_and!.
  - unfold event_is_cancelled, exec. rewrite Hke. cbn. rewrite EventKey.cancel_spec by done. by rewrite (proj2 (Nat.eqb_eq _ _) eq_refl).
  - intros k Hkk. unfold exec. cbn. rewrite EventKey.cancel_spec by done. unfold EventKey.eq.
    rewrite (proj2 (Nat.eqb_neq _ _)); [done|]. congruence.
  - intros cs' s3 Hcs' Hb' Hs3.
    assert (held id until (length (flags (sh s))) [] true (S n + length cs) (mkState (Started (mkResources (event_sources r1) (query_sources r1) r2))
       (exec (E := Error) (cancel_event (length (flags (sh s)))) (others' 1%nat (others' 0%nat (sh s1)))))) as Hh2.
    { split; [split; [cbn; lia|done]|]. eexists _, ids1, m2, n1, i. split_and!; [done|exact Hrel2|lia|done|done]. }
    apply (clients_keep id until _ _ true cs' (S n + length cs)) with (s1 := s3) in Hh2 as (_ & r3 & ids3 & m3 & n3 & j & Hr3 & Hrel3 & _ & Hj & Hm3);
      [|done|lia|done].
    by eapply (cancel_event_unknown _ s3).
Qed.

(** ** Rejected requests *)

(** Everything but an accepted scheduling leaves the shared state alone, up to
    what the other threads do and to the creation of keys and reply channels. *)
Section Rejected.
Context (others : nat -> Sh -> Sh) (R : Sh -> Sh -> Prop) `{!PreOrder R}.
Hypothesis R_others : forall i x, R x (others i x).
Hypothesis R_key : forall x, R x (with_flags (flags x ++ [false]) x).
Hypothesis R_channel : forall x, R x (with_channels (S (channels x)) x).

Definition since (x : Sh) : St -> Prop := fun s => R x (sh s).
Notation kept x m := (triple (E := Error) (since x) m (fun _ => since x) (since x)).

Lemma kept_same {A} x (m : Eff St Error A) : (forall s, sh (exec m s) = sh s) -> kept x m.
Proof. intros Hm s Hs. specialize (Hm s). unfold exec in Hm. unfold since in *. destruct (m s) as [[a|e|] s']; cbn in Hm; by rewrite Hm. Qed.

Lemma kept_bind {A B} x (m : Eff St Error A) (f : A -> Eff St Error B) : kept x m -> (forall a, kept x (f a)) -> kept x (m ≫= f).
Proof. intros Hm Hf. by eapply triple_bind. Qed.

Lemma kept_interfere x i : kept x (interfere others i).
Proof. intros s Hs. change (R x (others i (sh s))). etransitivity; [exact Hs|apply R_others]. Qed.

Lemma kept_time x i : kept x (scheduler_time others i).
Proof. intros s Hs. change (R x (others i (sh s))). etransitivity; [exact Hs|apply R_others]. Qed.

Lemma kept_started x : kept x started.
Proof. apply kept_same. intros s. unfold exec, started. by destruct (service s). Qed.
Lemma kept_require {A} x c (o : option A) : kept x (require c o).
Proof. by apply kept_same. Qed.
Lemma kept_liftO {A} x (o : Outcome Error A) : kept x (liftO o).
Proof. by apply kept_same. Qed.
Lemma kept_ret {A} x (a : A) : kept x (mret (M := Eff St Error) a).
Proof. by apply kept_same. Qed.
Lemma kept_endpoint {A} x (r : Result A EndpointError) : kept x (endpoint r).
Proof. apply kept_same. intros s. by destruct r. Qed.
Lemma kept_keys {A} x (f : @KeyRegistry T -> option (A * @KeyRegistry T)) : kept x (on_keys f).
Proof.
  apply kept_same. intros s. unfold exec, on_keys. destruct (service s) as [|r]; [done|]. by destruct (f (key_registry r)) as [[a k]|].
Qed.

Lemma kept_period x p : kept x (parse_period p).
Proof. destruct p; cbn [parse_period]; [|apply kept_ret]. do 2 (apply kept_bind; [apply kept_liftO|intros ?]). apply kept_ret. Qed.

Lemma kept_deadline x dl : kept x (match_deadline others dl).
Proof.
  destruct dl; cbn [match_deadline]; [apply kept_require|]. do 2 (apply kept_bind; [apply kept_liftO|intros ?]).
  apply kept_bind; [apply kept_time|intros ?]. apply kept_liftO.
Qed.

Lemma kept_register x k p t : kept x (register_key others k p t).
Proof. apply kept_bind; [apply kept_time|intros ?]. apply kept_bind; [apply kept_keys|intros ?]. destruct p; apply kept_keys. Qed.

Lemma kept_event x source wk p arg : kept x (make_event source wk p arg).
Proof.
  intros s Hs. destruct s as [srv y]. assert (R x (with_flags (flags y ++ [false]) y)) as Hy by (etransitivity; [exact Hs|apply R_key]).
  unfold make_event, map_err, on_shared, keyed_event, keyed_periodic_event, event, periodic_event, new_key, require, liftO, since.
  destruct wk, p as [p|]; cbv [mbind eff_bind option_bind mret eff_ret]; cbn; by destruct (from_reader _ arg) as [v|]; cbn.
Qed.

Lemma kept_query x source arg : kept x (map_err (fun _ => to_error InvalidMessage) (on_shared (Cbor.query source arg))).
Proof.
  intros s Hs. unfold since in *. unfold map_err, on_shared, Cbor.query, new_channel, liftO. cbv [mbind eff_bind mret eff_ret]. cbn.
  destruct (from_reader _ arg) as [v|]; cbn; [|done]. etransitivity; [exact Hs|apply R_channel].
Qed.

Lemma triple_schedule x dl it :
  triple (since x) (map_err from_scheduling_error (on_shared (schedule dl it))) (fun _ _ => True) (since x).
Proof.
  intros s Hs. unfold map_err, on_shared. destruct (schedule dl it (sh s)) as [[[]|e|] y] eqn:E; [done|..]; cbn.
  all: enough (y = sh s) as -> by done; unfold schedule, schedule_from in E; apply bind_inv in E as [(t & y1 & H1 & H2)|[(e' & H1 & _)|[H1 _]]].
  all: try (by apply checked_time_inv in H1 as [-> _]).
  all: apply checked_time_inv in H1 as [-> _]; unfold queue_insert in H2; destruct (pq_insert _ _ _); by simplify_eq.
Qed.

Ltac kept_step :=
  eapply triple_bind; [first [apply kept_started|apply kept_require|apply kept_period|apply kept_endpoint
    |apply kept_event|apply kept_query|apply kept_deadline|apply kept_interfere]|intros ?].

(** A rejected request to schedule an event or a query puts nothing into the
    queues: any relation that is respected by the other threads, by the creation of
    a key and by that of a reply channel relates the shared states before and after
    the request. *)
Theorem rejected_request_frame ereq qreq s :
  ((forall a, outcome (srv_schedule_event others ereq) s <> Val a) -> R (sh s) (sh (exec (srv_schedule_event others ereq) s))) /\
  ((forall a, outcome (srv_schedule_query others qreq) s <> Val a) -> R (sh s) (sh (exec (srv_schedule_query others qreq) s))).
Proof.
  assert (forall A (m : Eff St Error A), triple (since (sh s)) m (fun _ _ => True) (since (sh s)) ->
    (forall a, outcome m s <> Val a) -> R (sh s) (sh (exec m s))) as Hrej.
  { intros A m Hm Hne. specialize (Hm s (reflexivity _)). unfold outcome, exec in *. destruct (m s) as [[a|e|] s']; [by destruct (Hne a)|done|done]. }
  split; apply Hrej.
  - repeat (first [kept_step | match goal with a : _ * _ |- _ => destruct a end]).
    eapply triple_bind; [|intros key_id; kept_step; eapply triple_bind; [apply triple_schedule|by intros []]].
    destruct o; [|apply kept_ret]. apply kept_bind; [apply kept_register|intros ?; apply kept_ret].
  - repeat (first [kept_step | match goal with a : _ * _ |- _ => destruct a end]).
    eapply triple_bind; [apply triple_schedule|by intros []].
Qed.
End Rejected.
End Facts.

(** ** A concrete service

    Two sources, [["go"]] and [["stop"]]; an argument is one byte. *)
Module Demo.
#[local] Existing Instance demo_lang.
#[local] Instance demo_cbor : @Ciborium demo_lang := {|
  from_reader _ b := match b with [x] => Some (Z.of_N (Byte.to_N x)) | _ => None end;
  into_writer _ v := match Byte.of_N (Z.to_N v) with Some x => Some [x] | None => None end |}.

Notation Tm := Nano.time (only parsing).
Notation PQ := (PriorityQueue.PriorityQueue (Nano.time * Z) QueueItem) (only parsing).
Notation JQ := (PriorityQueue.PriorityQueue Z InjectorItem) (only parsing).

Definition resources : Resources (T := Nano.time) :=
  mkResources (<[["go"%string] := mkEventEntry (mkEventId 0 0%nat) EmptyString]>
               (<[["stop"%string] := mkEventEntry (mkEventId 1 0%nat) EmptyString]> ∅)) ∅ default_registry.

Definition at_time (ns : Z) : State (SQ := PQ) (IQ := JQ) :=
  mkState (Started resources) (mkShared pq_new pq_new (Nano.at_ns ns) [] 0 false false).

Definition quiet : nat -> Shared Nano.time PQ JQ -> Shared Nano.time PQ JQ := fun _ x => x.

Definition request (with_key : bool) (period : option PDuration) (dl : RequestDeadline) : ScheduleEventRequest :=
  mkScheduleEvent (Some ["go"%string]) [Byte.x07] with_key period (Some dl).

(** The keyed event of the request, ten nanoseconds ahead. *)
Definition ten : ScheduleEventRequest := request true None (RDuration (mkPDuration 0 10)).

Lemma quiet_meanwhile : meanwhile quiet.
Proof. split; [done|]. intros i x. apply kleb_refl. Qed.

Lemma resources_ok : keys_ok resources [] ∅ 0.
Proof.
  split; [|by split]. exists []. split; [apply IpqRefinement.rel_new|]. intros i e k. rewrite lookup_empty, elem_of_nil. naive_solver.
Qed.

(** Other clients schedule two keyed events, cancel one of them, and try an identifier that does not exist. *)
Definition crowd : list (Client (SQ := PQ) (IQ := JQ)) :=
  [ClScheduleEvent quiet ten; ClScheduleEvent quiet ten; ClCancelEvent quiet (mkCancelEvent (Some (1%nat, 1)));
   ClCancelEvent quiet (mkCancelEvent (Some (7%nat, 0))); ClTime quiet].

Lemma scheduled_event_cancellable_witness :
  exists id s' s1, srv_schedule_event quiet ten (at_time 5) = (Val (Some id), s') /\ clients crowd s' = Some s1 /\
  exists s2, srv_cancel_event quiet (mkCancelEvent (Some (Ipq.into_raw_parts id))) s1 = (Val tt, s2) /\
    flags (sh s2) = [true; true; false].
Proof.
  destruct (srv_schedule_event quiet ten (at_time 5)) as [r s'] eqn:E.
  assert (r = Val (Some (Ipq.from_raw_parts 0 0))) as ->.
  { apply (f_equal fst) in E. vm_compute in E. by subst r. }
  set (id := Ipq.from_raw_parts 0 0) in *.
  destruct (clients crowd s') as [s1|] eqn:E1.
  2:{ apply (f_equal snd) in E. cbn [snd] in E. subst s'. vm_compute in E1. discriminate E1. }
  exists id, s', s1. split; [done|]. split; [done|].
  destruct (scheduled_event_cancellable quiet quiet quiet ten (at_time 5) resources [] ∅ 0 id s' crowd s1)
    as (e & t & x & Hq & Hc); [done|exact resources_ok|exact quiet_meanwhile|exact quiet_meanwhile|exact E| |by vm_compute|exact E1|].
  - assert (forall c, c ∈ crowd -> client_others c = quiet) as Hq.
    { intros c. unfold crowd. rewrite !elem_of_cons, elem_of_nil. naive_solver. }
    unfold stranger. apply Forall_forall. intros c Hc. rewrite (Hq c Hc). split; [exact quiet_meanwhile|].
    unfold crowd in Hc. rewrite !elem_of_cons, elem_of_nil in Hc. naive_solver.
  - destruct Hc as (s2 & H2 & _).
    + right. assert (time (sh s1) = time (sh s')) as Ht.
      { apply (f_equal snd) in E. cbn [snd] in E. subst s'. apply (f_equal (fmap (fun s => time (sh s)))) in E1. vm_compute in E1.
        injection E1 as E1. vm_compute. congruence. }
      unfold quiet. rewrite Ht. destruct Hq as (Htx & q & _ & Hs'). rewrite Hs'. by apply kltb_le.
    + exists s2. split; [exact H2|]. apply (f_equal snd) in H2. cbn [snd] in H2. subst s2.
      apply (f_equal snd) in E. cbn [snd] in E. subst s'. 
      assert ((fun s1 => flags (sh (srv_cancel_event quiet (mkCancelEvent (Some (Ipq.into_raw_parts id))) s1).2)) <$>
        clients crowd (srv_schedule_event quiet ten (at_time 5)).2 = Some [true; true; false]) as Hf by (vm_compute; reflexivity).
      rewrite E1 in Hf. by apply (inj Some) in Hf.
Defined.

Definition registered_keys (s : State (T := Nano.time) (SQ := PQ) (IQ := JQ)) : nat :=
  match service s with Started r => Ipq.len (keys (key_registry r)) | Halted => 0%nat end.

(** A rejected request to schedule a keyed periodic event leaves its key in the
    registry, where it never expires and from where no client can remove it. *)
Example rejected_key_leaks :
  let (r, s) := srv_schedule_event quiet (request true (Some (mkPDuration 1 0)) (RTime (mkTimestamp 0 3))) (at_time 5) in
  r = Fail (to_error InvalidDeadline) /\ registered_keys s = 1%nat /\
  registered_keys (exec (srv_schedule_event quiet (request true (Some (mkPDuration 1 0)) (RTime (mkTimestamp 0 3)))) s) = 2%nat.
Proof. vm_compute. done. Qed.

(** A duration that takes the deadline beyond the last timestamp makes the service
    panic, although it is a valid message; within the range of the protocol
    (315576000000 seconds) it is accepted. *)
Example huge_duration_panics :
  outcome (srv_schedule_event quiet (request false None (RDuration (mkPDuration (2 ^ 63 - 1) 999999999)))) (at_time 5) = Panic /\
  outcome (srv_schedule_event quiet (request false None (RDuration (mkPDuration 315576000000 0)))) (at_time 5) = Val None.
Proof. vm_compute. done. Qed.
End Demo.
End SchedulerService.
