(* ===== verification/SimInit.v ===== *)
(** * Initialization of a simulation: [simulation/sim_init.rs]

    The builder of a simulation: its configuration methods, [init] and
    [restore].  The construction of executors and of the default clock is a
    parameter; the four registries of endpoints are those of [Endpoints], and the
    addition of models is in [Assembly]. *)

From S2P Require Import Prelude Path Errors Time PriorityQueue QueueItems Endpoints Effects Scheduler SchedulerFacts.
From S2P Require Import Simulation StepFacts StepInvariant SimulationTheorems DemoCodec SaveRestore Protocol Cbor.
From stdpp Require Import strings.
Local Open Scope Z_scope.

Module SimInit.
Import Items Protocol Cbor.

Section Defs.
Context `{L : Lang} {T : Type} `{MT : MonoTime T}.
Context {SQ IQ : Type} `{SPQ : !StablePQ (T * Z) QueueItem SQ} `{IPQ : !StablePQ Z InjectorItem IQ}.
Context {X C Tk : Type} `{HO : !Host T SQ IQ X C Tk}.
Notation Sm := (Simulation T SQ IQ X C Tk).

(** [FnOnce(&mut Simulation) -> Result<(), SimulationError>] *)
Definition PostCallback : Type := Eff Sm (SimulationError T) unit.

Record SimInit : Type := mkInit {
  executor : X;
  shared : Shared T SQ IQ;               (** queues, time, [is_halted], [is_terminated] *)
  endpoints : Endpoints.Bench;           (** the registries, that of the scheduler included *)
  is_resumed : bool;
  clock : C;
  clock_tolerance : option Z;
  ticker : option Tk;
  timeout : Z;
  observers : list (Path.Path * nat);
  registered_models : list RegisteredModel;
  post_init_callback : option PostCallback;
  post_restore_callback : option PostCallback }.

(** [Executor::new_single_threaded], [Executor::new_multi_threaded],
    [NoClock::new], [MonotonicTime::EPOCH] *)
Context (new_single_threaded : X) (new_multi_threaded : Z -> X) (no_clock : C) (epoch : T).

Definition usize_bits : Z := 64.

Definition with_num_threads (num_threads : Z) : SimInit :=
  let num_threads := Z.max 1 (Z.min num_threads usize_bits) in
  let executor := if num_threads =? 1 then new_single_threaded else new_multi_threaded num_threads in
  mkInit executor (mkShared pq_new pq_new epoch [] 0 false false) Endpoints.empty_bench false no_clock None None 0 [] []
    None None.

(** *** Configuration *)
Definition with_clock (c : C) (k : Tk) (b : SimInit) : SimInit :=
  mkInit (executor b) (shared b) (endpoints b) (is_resumed b) c (clock_tolerance b) (Some k) (timeout b) (observers b)
    (registered_models b) (post_init_callback b) (post_restore_callback b).
Definition with_tickless_clock (c : C) (b : SimInit) : SimInit :=
  mkInit (executor b) (shared b) (endpoints b) (is_resumed b) c (clock_tolerance b) None (timeout b) (observers b)
    (registered_models b) (post_init_callback b) (post_restore_callback b).
Definition with_clock_tolerance (tolerance : Z) (b : SimInit) : SimInit :=
  mkInit (executor b) (shared b) (endpoints b) (is_resumed b) (clock b) (Some tolerance) (ticker b) (timeout b) (observers b)
    (registered_models b) (post_init_callback b) (post_restore_callback b).
Definition with_timeout (d : Z) (b : SimInit) : SimInit :=
  mkInit (executor b) (shared b) (endpoints b) (is_resumed b) (clock b) (clock_tolerance b) (ticker b) d (observers b)
    (registered_models b) (post_init_callback b) (post_restore_callback b).
Definition with_post_init (callback : PostCallback) (b : SimInit) : SimInit :=
  mkInit (executor b) (shared b) (endpoints b) (is_resumed b) (clock b) (clock_tolerance b) (ticker b) (timeout b) (observers b)
    (registered_models b) (Some callback) (post_restore_callback b).
Definition with_post_restore (callback : PostCallback) (b : SimInit) : SimInit :=
  mkInit (executor b) (shared b) (endpoints b) (is_resumed b) (clock b) (clock_tolerance b) (ticker b) (timeout b) (observers b)
    (registered_models b) (post_init_callback b) (Some callback).
Definition set_resumed (b : SimInit) : SimInit :=
  mkInit (executor b) (shared b) (endpoints b) true (clock b) (clock_tolerance b) (ticker b) (timeout b) (observers b)
    (registered_models b) (post_init_callback b) (post_restore_callback b).

(** [build] *)
Definition build (b : SimInit) : Sm :=
  mkSim (executor b) (shared b) (Endpoints.scheduler_registry b.(endpoints)) (clock b) (clock_tolerance b) (ticker b)
    (timeout b) (observers b) (registered_models b).

(** The synchronization at the start time, with the calls made by other threads
    meanwhile; unlike that of a step it does not mark the simulation as
    terminated. *)
Definition synchronize_start (t : T) : Eff Sm (SimulationError T) unit := fun m =>
  let '(c, calls, status) := clock_synchronize (Simulation.clock m) (Simulation.shared m) t in
  let m := set_clock c (with_shared (run_calls calls (Simulation.shared m)) m) in
  match status, Simulation.clock_tolerance m with
  | Clock.OutOfSync lag, Some tolerance =>
      if tolerance <? lag then (Fail (ExecutionErr (OutOfSyncError lag)), m) else (Val tt, m)
  | _, _ => (Val tt, m)
  end.

Definition run_callback (callback : option PostCallback) : Eff Sm (SimulationError T) unit :=
  match callback with Some callback => callback | None => mret tt end.

(** [init], which moves the fields of the builder to the simulation: the clock is
    synchronized before or after this move. *)
Definition write_time (t : T) : Eff Sm (SimulationError T) unit :=
  modify (fun m => with_shared (with_time t (Simulation.shared m)) m).

Definition init_sequence (start_time : T) (callback : option PostCallback) : Eff Sm (SimulationError T) unit :=
  write_time start_time;;
  synchronize_start start_time;;
  run_callback callback;;
  map_err ExecutionErr run_executor.

(** The simulation, if the sequence succeeds. *)
Definition started (res : Outcome (SimulationError T) unit * Sm) : Outcome (SimulationError T) Sm :=
  match res with (Val _, m) => Val m | (Fail e, _) => Fail e | (Panic, _) => Panic end.

Definition init (start_time : T) (b : SimInit) : Outcome (SimulationError T) Sm :=
  started (init_sequence start_time (post_init_callback b) (build b)).
End Defs.

(** ** Callbacks

    What a callback can do with the simulation that it is given: use the scheduler, whose errors it handles as it
    likes, and step, run or process events and queries, whose errors it returns ([?]).  What follows may depend on the
    simulation. *)
Section Callbacks.
Context `{L : Lang} {T : Type} `{MT : MonoTime T}.
Context {SQ IQ : Type} `{SPQ : !StablePQ (T * Z) QueueItem SQ} `{IPQ : !StablePQ Z InjectorItem IQ}.
Context {X C Tk : Type} `{HO : !Host T SQ IQ X C Tk}.
Notation Sm := (Simulation T SQ IQ X C Tk).

Inductive UserCode : Type :=
  | UReturn (res : Outcome (SimulationError T) unit)
  | UCall (c : ApiCall T) (next : Outcome SchedulingError unit -> Sm -> UserCode)
  | UStep (next : Sm -> UserCode)
  | UStepUntil (fuel : nat) (deadline : Deadline.deadline T) (next : Sm -> UserCode)
  | URun (fuel : nat) (next : Sm -> UserCode)
  | UProcessEvent (id : EventId) (arg : Value) (next : Sm -> UserCode)
  | UProcessQuery (id : QueryId) (arg : Value) (next : Value -> Sm -> UserCode).

(** A loop that needs more fuel does not return. *)
Definition loops (r : option (Outcome (ExecutionError T) unit * Sm)) (m : Sm) : Outcome (ExecutionError T) unit * Sm :=
  default (Panic, m) r.
Definition at_state (f : Sm -> Eff Sm (SimulationError T) unit) : Eff Sm (SimulationError T) unit := fun m => f m m.
Definition then_ {A} (op : Eff Sm (ExecutionError T) A) (next : A -> Sm -> Eff Sm (SimulationError T) unit) : Eff Sm (SimulationError T) unit :=
  a ← map_err (ExecutionErr (T := T)) op; at_state (next a).

Fixpoint callback (u : UserCode) : Eff Sm (SimulationError T) unit :=
  match u with
  | UReturn res => liftO res
  | UCall c next => fun m =>
      let '(res, s) := call c (Simulation.shared m) in
      let m := with_shared s m in callback (next res m) m
  | UStep next => then_ step (fun _ m => callback (next m))
  | UStepUntil fuel deadline next => then_ (fun m => loops (step_until fuel deadline m) m) (fun _ m => callback (next m))
  | URun fuel next => then_ (fun m => loops (run fuel m) m) (fun _ m => callback (next m))
  | UProcessEvent id arg next => then_ (process_event id arg) (fun _ m => callback (next m))
  | UProcessQuery id arg next => then_ (process_query id arg) (fun reply m => callback (next reply m))
  end.
End Callbacks.
Arguments UserCode {_} T SQ IQ X C Tk.

(** ** Restoring a saved state *)
Section Restore.
Context `{L : Lang} {B : Bincode} {T : Type} `{MT : MonoTime T} `{BS : !BincodeState T}.
Notation SQ := (PriorityQueue.PriorityQueue (T * Z) QueueItem).
Context {IQ : Type} `{IPQ : !StablePQ Z InjectorItem IQ}.
Context {X C Tk : Type} `{HO : !Host T SQ IQ X C Tk}.
Notation Sm := (Simulation T SQ IQ X C Tk).
(** The deserialization of a model, see [SaveRestore]. *)
Context (deserialize : RegisteredModel -> bytes -> Eff (Sm * option (gmap nat nat)) (ExecutionError T) unit).

Definition restore_sequence (state : bytes) (callback : option PostCallback) : Eff Sm (SimulationError T) unit :=
  restored_time ← map_err ExecutionErr (SaveRestore.restore deserialize state);
  write_time restored_time;;
  synchronize_start restored_time;;
  run_callback callback.

Definition restore (state : bytes) (b : @SimInit _ T SQ IQ X C Tk) : Outcome (SimulationError T) Sm :=
  let b := set_resumed b in
  started (restore_sequence state (post_restore_callback b) (build b)).
End Restore.

(** ** Properties *)
Section Facts.
Context `{L : Lang} {T : Type} `{MT : MonoTime T}.
Context {SQ IQ : Type} `{SPQ : !StablePQ (T * Z) QueueItem SQ} `{IPQ : !StablePQ Z InjectorItem IQ}.
Context {X C Tk : Type} `{HO : !Host T SQ IQ X C Tk} (r : SchedulerRegistry) `{HL : !HostLaws r}.
Notation Sm := (Simulation T SQ IQ X C Tk).

(** A bench to which models were added and events injected, and whose sources were
    registered: nothing is scheduled yet. *)
Definition bench_ok (b : @SimInit _ T SQ IQ X C Tk) : Prop :=
  Endpoints.scheduler_registry (endpoints b) = r /\ sched_ok r (shared b) /\ view (shared b) = [].

(** What is guaranteed by the static types of the API and, if the code uses [step_until], the absence of
    other threads that schedule something in its window. *)
Fixpoint code_ok (u : UserCode T SQ IQ X C Tk) : Prop :=
  match u with
  | UReturn _ => True
  | UCall c next => (forall fl, call_ok r fl c) /\ forall res m, code_ok (next res m)
  | UStepUntil _ _ next => (forall x s, ex_window x s = []) /\ forall m, code_ok (next m)
  | UStep next | URun _ next | UProcessEvent _ _ next => forall m, code_ok (next m)
  | UProcessQuery _ _ next => forall reply m, code_ok (next reply m)
  end.

(** The invariant at some time from [t] on. *)
Definition from (t : T) (m : Sm) : Prop := exists t', kleb t t' = true /\ strong r t' m.

Lemma from_strong t m : strong r t m -> from t m.
Proof. intros H. exists t. split; [apply kleb_refl|done]. Qed.
Lemma from_trans t t' m : kleb t t' = true -> from t' m -> from t m.
Proof. intros H (t2 & ? & ?). exists t2. split; [by eapply kleb_trans|done]. Qed.

Lemma then_from {A} t (op : Eff Sm (ExecutionError T) A) next :
  (forall t', triple (strong r t') op (fun _ => from t') (fun _ => True)) ->
  (forall a m t', triple (strong r t') (next a m) (fun _ => from t') (fun _ => True)) ->
  triple (strong r t) (then_ op next) (fun _ => from t) (fun _ => True).
Proof.
  intros Hop Hnext m Hm. unfold then_, map_err, at_state. cbv [mbind eff_bind]. specialize (Hop t m Hm).
  destruct (op m) as [[a|e|] m1]; [|done|done]. destruct Hop as (t' & Hle & Hm1). specialize (Hnext a m1 t' m1 Hm1).
  destruct (next a m1 m1) as [[[]|e|] m2]; [|done|done]. by eapply from_trans.
Qed.

Lemma step_from t : triple (strong r t) step (fun _ => from t) (fun _ => True).
Proof.
  intros m Hm. unfold step. cbv [mbind eff_bind]. pose proof (step_to_next_triple r t None m Hm) as H.
  destruct (step_to_next None m) as [[[t'|]|e|] m1]; [|by apply from_strong, H|done|done].
  destruct H as (Hs & Hlt & _). exists t'. split; [by apply kltb_le|done].
Qed.
Lemma step_until_from fuel dl t : (forall x s, ex_window x s = []) ->
  triple (strong r t) (fun m => loops (step_until fuel dl m) m) (fun _ => from t) (fun _ => True).
Proof.
  intros Hw m Hm. unfold loops. destruct (step_until fuel dl m) as [[[[]|e|] m1]|] eqn:E; cbn; try done.
  unfold step_until in E. pose proof Hm as (_ & _ & Ht). rewrite Ht in E.
  destruct (Deadline.into_time dl t) as [target|]; [|done]. destruct (kltb target t) eqn:El; [done|].
  assert (kleb t target = true) as Hle by (unfold kltb in El; by apply negb_false_iff in El). clear El Ht dl.
  revert t m Hm Hle E. induction fuel as [|fuel IH]; intros t m Hm Hle E; [done|]. cbn [step_until_unchecked] in E.
  pose proof (step_to_next_triple r t (Some target) m Hm) as Hs. change (default mt_max (Some target)) with target in Hs.
  destruct (step_to_next (Some target) m) as [[[t'|]|e|] m2]; cbn [stepped] in Hs; [| |done|done].
  - destruct Hs as (Hs & Hlt & Hub). destruct (decide (Some t' = Some target)) as [Eq|Hne].
    + simplify_eq. exists target. by split.
    + apply (IH t') in E; [|done|done]. eapply from_trans; [by apply kltb_le|done].
  - rewrite decide_False in E by done. destruct Hs as [Hs Hv].
    destruct (finish_until r t target m2 (Hw _ _) Hs Hv) as (res & m' & Ef & Hf). rewrite Ef in E. simplify_eq.
    exists target. by split.
Qed.
Lemma run_from fuel t : triple (strong r t) (fun m => loops (run fuel m) m) (fun _ => from t) (fun _ => True).
Proof.
  intros m Hm. unfold loops, run. destruct (step_until_unchecked fuel None m) as [[[[]|e|] m1]|] eqn:E; cbn; try done.
  revert t m Hm E. induction fuel as [|fuel IH]; intros t m Hm E; [done|]. cbn [step_until_unchecked] in E.
  pose proof (step_to_next_triple r t None m Hm) as Hs.
  destruct (step_to_next None m) as [[[t'|]|e|] m2]; cbn [stepped] in Hs; [| |done|done].
  - rewrite decide_False in E by done. destruct Hs as (Hs & Hlt & _). apply (IH t') in E; [|done]. eapply from_trans; [by apply kltb_le|done].
  - rewrite decide_True in E by done. simplify_eq. apply from_strong, Hs.
Qed.
Lemma process_future_from fut t : triple (strong r t) (process_future fut) (fun _ => strong r t) (fun _ => True).
Proof.
  unfold process_future. eapply triple_bind; [eapply triple_weaken; [apply (take_halt_flag_strong r t)|done|intros ? ? H; exact H|done]|].
  intros []. eapply triple_bind with (R := fun _ => strong r t); [by apply triple_modify|]. intros [].
  eapply triple_weaken; [apply (run_executor_strong r t)|done|done|done].
Qed.
Lemma process_event_from id arg t : triple (strong r t) (process_event id arg) (fun _ => from t) (fun _ => True).
Proof.
  unfold process_event. apply triple_bind_gets. intros r'. do 2 (eapply triple_bind; [by apply triple_liftO|intros ?]).
  eapply triple_weaken; [apply process_future_from|by intros ? [[[? _] _] _]|intros ? ?; apply from_strong|done].
Qed.

Lemma process_query_from id arg t : triple (strong r t) (process_query id arg) (fun _ => from t) (fun _ => True).
Proof.
  unfold process_query. eapply triple_bind with (R := fun _ => strong r t).
  { intros m (Hr & [] & Ht). unfold on_shared, new_channel. cbn. split_and!; [done|by split|done]. }
  intros chan. apply triple_bind_gets. intros r'. do 2 (eapply triple_bind; [by apply triple_liftO|intros ?]).
  eapply triple_bind; [eapply triple_weaken; [apply (process_future_from _ t)|by intros ? [[[? _] _] _]|intros ? ? H; exact H|done]|].
  intros []. apply triple_bind_gets. intros x. eapply triple_bind; [by apply triple_liftO|]. intros replies.
  eapply triple_weaken; [by apply (triple_liftO (strong r t) _ (fun _ => True))|by intros ? [[? _] _]| |done].
  intros ? m [? _]. by apply from_strong.
Qed.

Lemma callback_from u : code_ok u -> forall t, triple (strong r t) (callback u) (fun _ => from t) (fun _ => True).
Proof.
  induction u as [res|c next IH|next IH|fuel dl next IH|fuel next IH|id arg next IH|id arg next IH]; cbn [code_ok callback]; intros Hu t.
  - eapply triple_weaken; [by apply (triple_liftO (strong r t) res (fun _ => True))|done| |done]. intros ? m [? _]. by apply from_strong.
  - intros m Hm. destruct Hu as [Hc Hu]. destruct (call c (Simulation.shared m)) as [res s] eqn:E.
    apply (IH res _ (Hu _ _) t). pose proof (strong_calls r t m [c] Hm) as H. unfold run_calls, exec in H. cbn [fold_left] in H.
    rewrite E in H. apply H. constructor; [apply Hc|constructor].
  - apply then_from; [apply step_from|]. intros _ m t'. apply IH, Hu.
  - destruct Hu as [Hw Hu]. apply then_from; [intros t'; by apply step_until_from|]. intros _ m t'. apply IH, Hu.
  - apply then_from; [apply run_from|]. intros _ m t'. apply IH, Hu.
  - apply then_from; [apply process_event_from|]. intros _ m t'. apply IH, Hu.
  - apply then_from; [apply process_query_from|]. intros a m t'. apply IH, Hu.
Qed.

Lemma synchronize_start_strong t d :
  triple (strong r t) (synchronize_start d) (fun _ => strong r t) (fun _ => True).
Proof.
  intros m Hm. unfold synchronize_start. destruct (clock_synchronize _ _ d) as [[c cs] st] eqn:E.
  pose proof (strong_calls r t m cs Hm (hl_sync _ _ _ _ _ _ E)) as Hm1. cbn.
  destruct st as [|lag], (Simulation.clock_tolerance m) as [tol|]; try done. by destruct (tol <? lag).
Qed.

Lemma start_strong b t : bench_ok b ->
  strong r t (with_shared (with_time t (Simulation.shared (build b))) (build b)).
Proof.
  intros (Hr & [Hq Hi Hf Hit Hinj] & Hv). split_and!; [done| |done]. unfold view in *. split; cbn; try done; unfold view; cbn; rewrite Hv; constructor.
Qed.

Lemma run_executor_mapped t :
  triple (strong r t) (map_err (ExecutionErr (T := T)) run_executor) (fun _ => strong r t) (fun _ => True).
Proof.
  intros m Hm. pose proof (run_executor_strong r t m Hm) as H. unfold map_err. by destruct (run_executor m) as [[[]|e|] m'].
Qed.

(** C28: a simulation returned by [init] satisfies the invariant of the kernel:
    everything its models and its callback have scheduled lies in the future and is
    well typed, both queues are well formed, and time is the start time, unless the
    callback has moved it forward.  The bench is one to which models were added and events injected, with
    nothing scheduled yet ([bench_ok]); the callback is any code that uses the scheduler, steps, runs and
    processes events and queries ([UserCode]), with arguments of the types of the API and returning the
    errors of the simulation, such that no other thread schedules in the window of its calls to [step_until] ([code_ok]). *)
Theorem init_establishes_invariant b (cb : option (UserCode T SQ IQ X C Tk)) start_time m :
  bench_ok b -> post_init_callback b = callback <$> cb -> from_option code_ok True cb ->
  init start_time b = Val m ->
  scheduler_registry m = r /\ sched_ok r (Simulation.shared m) /\ kleb start_time (time (Simulation.shared m)) = true /\
  (post_init_callback b = None -> time (Simulation.shared m) = start_time).
Proof.
  intros Hb Hcb Hok H. set (reached := fun m : Sm => exists t, kleb start_time t = true /\ strong r t m /\
    (post_init_callback b = None -> t = start_time)).
  assert (triple (fun m => m = build b) (init_sequence start_time (post_init_callback b)) (fun _ => reached) (fun _ => True)) as Ht.
  { unfold init_sequence. eapply triple_bind with (R := fun _ => strong r start_time).
    { apply triple_modify. intros m' ->. by apply start_strong. }
    intros _. eapply triple_bind with (R := fun _ => strong r start_time); [apply synchronize_start_strong|]. intros _.
    eapply triple_bind with (R := fun _ => reached).
    - unfold reached. rewrite Hcb. destruct cb as [u|]; cbn [run_callback fmap option_fmap option_map].
      + eapply triple_weaken; [apply (callback_from u Hok)|done| |done]. intros _ m' (t & Hle & Ht). by exists t.
      + apply triple_ret. intros m' Hm'. exists start_time. split_and!; [apply kleb_refl|done|done].
    - intros _ m' (t & Hle & Hm' & Ht). pose proof (run_executor_mapped t m' Hm') as He.
      destruct (map_err _ run_executor m') as [[[]|e|] m'']; [|done|done]. by exists t. }
  specialize (Ht (build b) eq_refl). unfold init, started in H.
  destruct (init_sequence _ _ (build b)) as [[[]|e|] m']; [|done|done]. injection H as <-.
  destruct Ht as (t & Hle & (Hr & Hs & <-) & Ht). by split_and!.
Qed.
End Facts.

(** Restoring: the time of the simulation is the saved time, whatever other threads
    do during the synchronization. *)
Theorem restore_restores_time `{L : Lang} {B : Bincode} {T : Type} `{MT : MonoTime T} `{BS : !BincodeState T}
    {IQ : Type} `{IPQ : !StablePQ Z InjectorItem IQ}
    {X C Tk : Type} `{HO : !Host T (PriorityQueue.PriorityQueue (T * Z) QueueItem) IQ X C Tk} deserialize state b m :
  restore deserialize state b = Val m -> post_restore_callback b = None ->
  exists st, dec_state state = Ok st /\ time (Simulation.shared m) = st_time st.
Proof.
  intros H Hcb. unfold restore, started in H. cbn in H. rewrite Hcb in H.
  destruct (restore_sequence _ _ _ _) as [[[]|e|] m'] eqn:E; [|done|done]. injection H as <-. unfold restore_sequence in E.
  apply bind_val_inv in E as (t & m1 & H1 & E). apply bind_val_inv in E as ([] & m2 & H2 & E). injection H2 as <-.
  apply bind_val_inv in E as ([] & m3 & H3 & E). injection E as <-.
  assert (exists st, dec_state state = Ok st /\ st_time st = t) as (st & Hst & <-).
  { unfold map_err, SaveRestore.restore in H1. 
    match type of H1 with context [@mbind ?M ?I ?A ?B' ?f ?x ?s] => destruct (@mbind M I A B' f x s) as [r1 [m4 kr]] eqn:E1 end.
    destruct r1 as [t'|e|]; [|done|done]. injection H1 as -> ->.
    apply bind_val_inv in E1 as (st & s1 & [Hd _]%liftO_val & E1). exists st. split.
    - unfold QueueItems.Items.map_err in Hd. by destruct (dec_state state); simplify_eq/=.
    - apply bind_val_inv in E1 as (? & s2 & _ & E1). apply bind_val_inv in E1 as (? & s3 & _ & E1). by injection E1 as <-. }
  exists st. split; [done|]. unfold synchronize_start in H3. destruct (clock_synchronize _ _ _) as [[c cs] status].
  assert (forall m5 : Simulation T _ IQ X C Tk, m5 = set_clock c (with_shared (run_calls cs (with_time (st_time st) (Simulation.shared m1)))
    (with_shared (with_time (st_time st) (Simulation.shared m1)) m1)) -> time (Simulation.shared m5) = st_time st) as Htime.
  { intros m5 ->. cbn. rewrite (fr_time _ _ (run_calls_frame _ _)). done. }
  apply Htime. cbn in H3. destruct status as [|lag], (Simulation.clock_tolerance m1) as [tol|]; try (destruct (tol <? lag)); by simplify_eq/=.
Qed.

(** ** A concrete bench: the registry and the host of [SimulationTheorems.Demo] *)
Module Demo.
Import SimulationTheorems.Demo.
#[local] Instance quiet : Host T SQ IQ SimulationTheorems.Demo.X C Tk := host [].
#[local] Instance quiet_laws : HostLaws SimulationTheorems.Demo.registry := host_laws [].

Definition bench : SimInit (T := T) (SQ := SQ) (IQ := IQ) (X := SimulationTheorems.Demo.X) (C := C) (Tk := Tk) :=
  mkInit (mkX [] []) shared0 (Endpoints.mkBench ∅ ∅ ∅ ∅ SimulationTheorems.Demo.registry) false 0 None None 0 [] [] None None.

Lemma bench_is_ok : bench_ok SimulationTheorems.Demo.registry bench.
Proof. split_and!; [done| |done]. split; [apply PriorityQueue.new_wf|apply PriorityQueue.new_wf|constructor..]. Qed.

(** Two models, and a callback that schedules two events, the second one being for the function that reschedules, steps, and
    schedules a third event if the time has come that it expects. *)
Definition code : UserCode T SQ IQ SimulationTheorems.Demo.X C Tk :=
  UCall (event 9 0 4 1) (fun _ _ => UCall (event 12 1 30 0) (fun _ _ => UStep (fun m =>
    if decide (time (Simulation.shared m) = at_ 9) then UStepUntil 20 (Deadline.Relative 6) (fun _ => UCall (event 50 2 1 0) (fun res _ => UReturn (Val tt)))
    else UReturn Panic))).
Definition busy_bench : SimInit (T := T) (SQ := SQ) (IQ := IQ) (X := SimulationTheorems.Demo.X) (C := C) (Tk := Tk) :=
  mkInit (mkX [] []) shared0 (Endpoints.mkBench ∅ ∅ ∅ ∅ SimulationTheorems.Demo.registry) false 0 None None 0
    [(["a"]%string, 0%nat); (["b"]%string, 2%nat)] [mkRegistered ["a"]%string 0; mkRegistered ["b"]%string 1] (Some (callback code)) None.

Lemma code_is_ok : code_ok SimulationTheorems.Demo.registry code.
Proof.
  split; [intros fl; apply event_call_ok; lia|]. intros _ _. split; [intros fl; apply event_call_ok; lia|]. intros _ _ m. case_decide; [|done].
  split; [done|]. intros _. split; [intros fl; apply event_call_ok; lia|done].
Qed.

Lemma init_establishes_invariant_witness :
  exists m, init (at_ 7) busy_bench = Val m /\ sched_ok SimulationTheorems.Demo.registry (Simulation.shared m) /\
    (fun e => mt_nanos e.1.1) <$> view (Simulation.shared m) = [42; 50].
Proof.
  destruct (init (at_ 7) busy_bench) as [m| |] eqn:E; [|exfalso; vm_compute in E; discriminate E..].
  exists m. split; [done|].
  destruct (init_establishes_invariant SimulationTheorems.Demo.registry busy_bench (Some code) (at_ 7) m) as (_ & Hs & _);
    [exact bench_is_ok|done|exact code_is_ok|done|].
  split; [done|].
  assert (match init (at_ 7) busy_bench with Val m => (fun e => mt_nanos e.1.1) <$> view (Simulation.shared m) = [42; 50] | _ => False end) as Hv
    by (vm_compute; reflexivity).
  rewrite E in Hv. exact Hv.
Defined.
End Demo.
End SimInit.
