(* ===== verification/ControllerService.v ===== *)
(** * The controller service: [server/services/controller_service.rs]

    Requests of remote clients that block until the simulation has executed them.
    The service owns the simulation and is under a mutex.  The requests that loop
    take a fuel, [None] being its exhaustion. *)

From S2P Require Import Prelude Path Errors Time SyncCell PriorityQueue QueueItems Endpoints Effects Scheduler SchedulerFacts.
From S2P Require Import Simulation StepFacts StepInvariant SimulationTheorems Protocol Cbor SchedulerService.
From stdpp Require Import strings.
Local Open Scope Z_scope.

Module ControllerService.
Import Items Endpoints Protocol Cbor SchedulerService.

Section Service.
Context `{CB : Ciborium} {T : Type} `{PT : ProtoTime T}.
Context {SQ IQ : Type} `{SPQ : !StablePQ (T * Z) QueueItem SQ} `{IPQ : !StablePQ Z InjectorItem IQ}.
Context {X C Tk : Type} `{HO : !Host T SQ IQ X C Tk}.
Notation Sm := (Simulation T SQ IQ X C Tk).

Inductive ControllerService : Type :=
  | Halted
  | Started (simulation : Sm) (event_source_registry : gmap Path.Path EventSourceEntry)
      (query_source_registry : gmap Path.Path QuerySourceEntry).

Notation Ctl := (Eff ControllerService Error).

(** A call of the simulation, its error being translated. *)
Definition on_simulation {A} (m : Eff Sm (ExecutionError T) A) : Ctl A := fun c =>
  match c with
  | Halted => (Fail simulation_not_started_error, c)
  | Started sim es qs => let '(r, sim) := map_err from_execution_error m sim in (r, Started sim es qs)
  end.

Definition controller_registries : Ctl (gmap Path.Path EventSourceEntry * gmap Path.Path QuerySourceEntry) := fun c =>
  match c with
  | Halted => (Fail simulation_not_started_error, c)
  | Started _ es qs => (Val (es, qs), c)
  end.

Definition require_ {A} (c : ErrorCode) (o : option A) : Ctl A := liftO (ok_or (to_error c) o).

(** [monotonic_to_timestamp(simulation.time()).ok_or_else(final_simulation_time_error)] *)
Definition final_time : Ctl Timestamp :=
  t ← on_simulation (gets sim_time);
  require_ SimulationTimeOutOfRange (monotonic_to_timestamp t).

Definition ctl_step : Ctl Timestamp := on_simulation step;; final_time.

(** The loops of the kernel. *)
Definition looping (f : Sm -> option (Outcome (ExecutionError T) unit * Sm)) (c : ControllerService)
    : option (Outcome Error Timestamp * ControllerService) :=
  match c with
  | Halted => Some (Fail simulation_not_started_error, c)
  | Started sim _ _ =>
      '(r, sim') ← f sim;
      Some ((on_simulation (fun _ => (r, sim'));; final_time) c)
  end.

(** The deadline of a [StepUntilRequest], checked in this order. *)
Definition parse_deadline (deadline : option RequestDeadline) : Outcome Error (Deadline.deadline T) :=
  deadline ← ok_or (to_error MissingArgument) deadline;
  match deadline with
  | RTime time =>
      t ← ok_or (to_error InvalidTime) (timestamp_to_monotonic time); Val (Deadline.Absolute t)
  | RDuration duration =>
      d ← unwrap (to_positive_duration duration);
      d ← ok_or (to_error InvalidDeadline) d; Val (Deadline.Relative d)
  end.

Definition ctl_step_until (fuel : nat) (deadline : option RequestDeadline) (c : ControllerService)
    : option (Outcome Error Timestamp * ControllerService) :=
  match c with
  | Halted => Some (Fail simulation_not_started_error, c)
  | Started _ _ _ =>
      match parse_deadline deadline with
      | Val dl => looping (step_until fuel dl) c
      | Fail e => Some (Fail e, c)
      | Panic => Some (Panic, c)
      end
  end.

Definition ctl_run (fuel : nat) : ControllerService -> option (Outcome Error Timestamp * ControllerService) :=
  looping (run fuel).

(** [ProcessEventRequest], [ProcessQueryRequest]: the path and the argument. *)
Definition ctl_process_event (source_path : option Path.Path) (event : bytes) : Ctl unit :=
  '(es, _) ← controller_registries;
  source_path ← require_ MissingArgument source_path;
  source ← map_err from_endpoint_error (liftO (of_result (get_event es source_path)));
  arg ← require_ InvalidMessage (event_deserialize_arg source event);
  on_simulation (process_event_erased (eid (ev_inner source)) arg).

Definition collect_replies (source : QuerySourceEntry) (rx : ReplyReader) : Ctl (list bytes) :=
  replies ← on_simulation (gets (fun sim => ex_reply (executor sim) rx));
  replies ← require_ SimulationBadQuery (take_collect (qid_reply (qu_inner source)) replies);
  match replies with Ok l => mret l | Err _ => throw (to_error InvalidMessage) end.

Definition ctl_process_query (source_path : option Path.Path) (request : bytes) : Ctl (list bytes) :=
  '(_, qs) ← controller_registries;
  source_path ← require_ MissingArgument source_path;
  source ← map_err from_endpoint_error (liftO (of_result (get_query qs source_path)));
  arg ← require_ InvalidMessage (query_deserialize_arg source request);
  rx ← on_simulation (process_query_erased (qu_inner source) arg);
  collect_replies source rx.

(** [Simulation::save] is in [SaveRestore]. *)
Definition ctl_save (save : Eff Sm (ExecutionError T) bytes) : Ctl bytes := on_simulation save.
End Service.

(** ** Properties *)
Section Facts.
Context `{CB : Ciborium} {T : Type} `{PT : ProtoTime T}.
Context {SQ IQ : Type} `{SPQ : !StablePQ (T * Z) QueueItem SQ} `{IPQ : !StablePQ Z InjectorItem IQ}.
Context {X C Tk : Type} `{HO : !Host T SQ IQ X C Tk}.
Notation Sm := (Simulation T SQ IQ X C Tk).
Notation Ctl := (@ControllerService _ T SQ IQ X C Tk).

(** The reply after a call that succeeded. *)
Lemma final_time_spec (sim sim' : Sm) es qs :
  (on_simulation (fun _ => (Val tt, sim'));; final_time) (Started sim es qs) =
    (ok_or (to_error SimulationTimeOutOfRange) (monotonic_to_timestamp (time (shared sim'))), Started sim' es qs).
Proof. done. Qed.

(** A request to step until a deadline, given as a time or as a duration, ends
    for every deadline that is not in the past: if a timestamp is returned then it
    denotes exactly the requested time, the simulation is at this time and only
    later items are left; an error leaves the simulation at some time that is not
    before the one it started from, and it is past the range of the protocol only if
    the deadline is.  A deadline in the past is rejected and changes nothing. *)
Theorem ctl_step_until_reaches (r : SchedulerRegistry) `{!HostLaws r} (sim : Sm) es qs t0 req dl target fuel :
  (forall x s, ex_window x s = []) ->
  Simulation.scheduler_registry sim = r -> sched_ok r (shared sim) -> time (shared sim) = t0 ->
  parse_deadline (Some req) = Val dl -> Deadline.into_time dl t0 = Some target ->
  (Z.to_nat (mt_nanos target - mt_nanos t0) < fuel)%nat ->
  exists res sim', ctl_step_until fuel (Some req) (Started sim es qs) = Some (res, Started sim' es qs) /\
    (kltb target t0 = true -> res = Fail (to_error InvalidDeadline) /\ sim' = sim) /\
    (kleb t0 target = true ->
     match res with
     | Val ts => timestamp_to_monotonic ts = Some target /\ time (shared sim') = target /\ sched_ok r (shared sim') /\
         Forall (fun e => kltb target e.1.1 = true) (view (shared sim'))
     | Fail e => kleb t0 (time (shared sim')) = true /\
         (code e = SimulationTimeOutOfRange -> time (shared sim') = target /\ monotonic_to_timestamp target = None)
     | Panic => kleb t0 (time (shared sim')) = true
     end).
Proof.
  intros Hw Hr Hs Ht Hdl Hto Hfuel. unfold ctl_step_until. rewrite Hdl. unfold looping.
  destruct (kleb t0 target) eqn:Ele.
  - destruct (step_until_target r sim t0 dl target fuel) as (res & sim' & -> & Hres); try done. cbn [mbind option_bind].
    destruct res as [[]|e|].
    + rewrite final_time_spec. destruct Hres as (Hr' & Hs' & Ht'). rewrite Ht'.
      destruct (monotonic_to_timestamp target) as [ts|] eqn:Ets; cbn [ok_or]; eexists _, sim'; (split; [done|]).
      all: split; [unfold kltb; by rewrite Ele|]; intros _.
      * apply timestamp_roundtrip in Ets as [Ets _]. split_and!; [done|done|done|]. rewrite <- Ht'. apply Hs'.
      * rewrite Ht'. split; [done|]. by intros _.
    + destruct Hres as (t & Htt & _ & _ & Hte). eexists _, sim'. split; [done|]. split; [unfold kltb; by rewrite Ele|]. intros _.
      rewrite Hte. split; [done|]. by destruct e.
    + destruct Hres as (t & Htt & _ & _ & Hte). eexists _, sim'. split; [done|]. split; [unfold kltb; by rewrite Ele|]. intros _.
      by rewrite Hte.
  - assert (step_until fuel dl sim = Some (Fail (Errors.InvalidDeadline target), sim)) as ->.
    { unfold step_until. rewrite Ht, Hto. unfold kltb. by rewrite Ele. }
    eexists _, sim. split; [done|]. split; [done|]. done.
Qed.

(** C29: a request to process an event or a query, on a bench that was built by any
    sequence of bindings: if no source was bound under its path it is rejected; otherwise
    the argument is decoded as the type of the source that was bound there first, and is
    rejected only if it is not a representation of this type; the future of this source,
    with the decoded argument, is then processed, for a query with a new reply channel of
    the type of its replies, from which the replies are collected.  It is never rejected
    because of its type or for lack of a source in the scheduler registry. *)
Theorem process_request_well_typed schema ops b (sim : Sm) path bs :
  bind_ops schema ops empty_bench = Some b ->
  reg_extends (Endpoints.scheduler_registry b) (Simulation.scheduler_registry sim) ->
  let service sim := Started sim (event_source_registry b) (query_source_registry b) in
  ctl_process_event (Some path) bs (service sim) =
    match bound_event path ops with
    | None => (Fail (to_error EventSourceNotFound), service sim)
    | Some source =>
        match from_reader (event_type source) bs with
        | None => (Fail (to_error InvalidMessage), service sim)
        | Some v => on_simulation (process_future (event_fut source v None)) (service sim)
        end
    end /\
  match bound_query path ops with
  | None => ctl_process_query (Some path) bs (service sim) = (Fail (to_error QuerySourceNotFound), service sim)
  | Some source => exists entry, query_source_registry b !! path = Some entry /\ qid_reply (qu_inner entry) = qs_reply source /\
      let rx := channels (shared sim) in
      ctl_process_query (Some path) bs (service sim) =
        match from_reader (qs_type source) bs with
        | None => (Fail (to_error InvalidMessage), service sim)
        | Some v =>
            (on_simulation (process_future (FutQuery (qs_port source) v (Some (mkWriter (qs_reply source) rx))));;
             collect_replies entry rx) (service (with_shared (with_channels (S rx) (shared sim)) sim))
        end
  end.
Proof.
  intros Hops Hext service. split.
  - pose proof (bind_ops_events schema ops path empty_bench b Hops (lookup_empty _)) as He.
    unfold ctl_process_event, get_event, get_or, event_deserialize_arg. cbv [mbind eff_bind]. cbn.
    destruct (bound_event path ops) as [source|]; [|by rewrite He].
    destruct He as (id & sc & -> & Hty & Hget). cbn. rewrite Hty. destruct (from_reader (event_type source) bs) as [v|]; [|done]. cbn.
    apply (get_event_extends _ _ _ _ Hext) in Hget. unfold process_event_erased, map_err. cbv [mbind eff_bind gets liftO].
    rewrite Hget. cbn. by rewrite future_owned_ok.
  - pose proof (bind_ops_queries schema ops path empty_bench b Hops (lookup_empty _)) as Hq.
    unfold ctl_process_query, get_query, get_or, query_deserialize_arg. cbv [mbind eff_bind]. cbn.
    destruct (bound_query path ops) as [source|]; [|by rewrite Hq].
    destruct Hq as (id & sc & -> & Hty & Hre & Hget). eexists. split; [done|]. cbn. split; [done|]. rewrite Hty.
    destruct (from_reader (qs_type source) bs) as [v|]; [|done]. cbn.
    apply (get_query_extends _ _ _ _ Hext) in Hget. unfold process_query_erased, map_err. cbv [mbind eff_bind gets liftO].
    rewrite Hget. cbn -[query_future]. rewrite query_future_ok by (cbn; congruence || (intros ? [= <-]; done)). cbn. rewrite Hre.
    by destruct (process_future _ _) as [[[]|e|] m'].
Qed.
End Facts.

(** ** A concrete service, on the simulation of [SimulationTheorems.Demo] *)
Module Demo.
Import SimulationTheorems.Demo.
#[local] Existing Instance demo_lang.
#[local] Instance demo_cbor : @Ciborium demo_lang := {|
  from_reader _ b := match b with [x] => Some (Z.of_N (Byte.to_N x)) | _ => None end;
  into_writer _ v := match Byte.of_N (Z.to_N v) with Some x => Some [x] | None => None end |}.
#[local] Instance quiet : Host T SQ IQ SimulationTheorems.Demo.X C Tk := host [].
#[local] Instance quiet_laws : HostLaws registry := host_laws [].

Definition events : gmap Path.Path EventSourceEntry := <[ ["go"%string] := mkEventEntry (@mkEventId demo_lang 0 0%nat) EmptyString ]> ∅.
Definition queries : gmap Path.Path QuerySourceEntry := <[ ["ask"%string] := mkQueryEntry (@mkQueryId demo_lang 0 0%nat 1%nat) (EmptyString, EmptyString) ]> ∅.

Lemma ctl_step_until_reaches_witness :
  exists res sim', ctl_step_until 101 (Some (RDuration (mkPDuration 0 100))) (Started (sim scenario) events queries)
      = Some (res, Started sim' events queries) /\
    match res with Val ts => timestamp_to_monotonic ts = Some (at_ 100) | Fail e => True | Panic => True end.
Proof.
  destruct (ctl_step_until_reaches registry (sim scenario) events queries (at_ 0) (RDuration (mkPDuration 0 100))
    (Deadline.Relative 100) (at_ 100) 101) as (res & sim' & Hres & _ & Hok).
  - intros x s. reflexivity.
  - reflexivity.
  - apply sim_strong, scenario_ok.
  - apply sim_strong, scenario_ok.
  - vm_compute. reflexivity.
  - vm_compute. reflexivity.
  - vm_compute. lia.
  - exists res, sim'. split; [exact Hres|]. assert (kleb (at_ 0) (at_ 100) = true) as E by (vm_compute; reflexivity).
    specialize (Hok E). destruct res as [ts|e|]; [exact (proj1 Hok)|exact I|exact I].
Defined.

(** A bench with an event source and a query source, and a second source that is
    rejected because its path is taken. *)
Definition demo_ops : list (@BindOp demo_lang) :=
  [OpSource false (@InputSource demo_lang 0 0 0%nat) ["go"%string];
   OpQuery false (@QuerySource demo_lang 5 0%nat 1%nat) ["ask"%string];
   OpSource true (@EventSource demo_lang 9 1%nat) ["go"%string]].
Definition built : @Bench demo_lang := Eval vm_compute in default empty_bench (bind_ops demo_schema demo_ops empty_bench).

Definition built_sim : Simulation T SQ IQ SimulationTheorems.Demo.X C Tk :=
  mkSim (executor sim0) (shared sim0) (Endpoints.scheduler_registry built) (clock sim0) None None 0 [] [].

Lemma process_request_well_typed_witness :
  let service sim := Started sim (event_source_registry built) (query_source_registry built) in
  let sim1 := built_sim in
  ctl_process_event (Some ["go"%string]) [Byte.x03] (service sim1)
    = on_simulation (process_future (MT := pt_mono) (FutInput 0 0 3 None)) (service sim1) /\
  ctl_process_event (Some ["ask"%string]) [Byte.x03] (service sim1) = (Fail (to_error EventSourceNotFound), service sim1) /\
  exists entry, ctl_process_query (Some ["ask"%string]) [Byte.x04] (service sim1) =
    (on_simulation (process_future (MT := pt_mono) (FutQuery 5 4 (Some (@mkWriter demo_lang 1%nat 0%nat))));; collect_replies entry 0%nat)
      (service (with_shared (with_channels 1%nat (shared sim1)) sim1)).
Proof.
  cbn zeta. set (sim1 := built_sim).
  assert (bind_ops demo_schema demo_ops empty_bench = Some built) as Hb by (vm_compute; reflexivity).
  pose proof (reg_extends_same (Endpoints.scheduler_registry built) : reg_extends _ (Simulation.scheduler_registry sim1)) as Hr.
  split; [|split].
  - exact (proj1 (process_request_well_typed demo_schema demo_ops built sim1 ["go"%string] [Byte.x03] Hb Hr)).
  - exact (proj1 (process_request_well_typed demo_schema demo_ops built sim1 ["ask"%string] [Byte.x03] Hb Hr)).
  - destruct (proj2 (process_request_well_typed demo_schema demo_ops built sim1 ["ask"%string] [Byte.x04] Hb Hr)) as (entry & _ & _ & H).
    exists entry. exact H.
Defined.
End Demo.
End ControllerService.
