(* ===== verification/MonitorService.v ===== *)
(** * The monitor service: [server/services/monitor_service.rs]

    Requests of remote clients to read event sinks.  All of them take the mutex of
    the service for their whole duration but [read_event], which takes it twice: to
    rent the sink, and to put it back once an event was received, the wait timed
    out or the client has gone.  Any other request, among them those that stop and
    restart the simulation, may come in between.

    What the sinks do is left to the environment: a request says which events are
    available, and how a wait ends.  [None] is a panic, which poisons the mutex. *)

From S2P Require Import Prelude Path Errors Time QueueItems Endpoints Effects Scheduler Protocol Cbor.
From stdpp Require Import strings.

Module MonitorService.
Import Endpoints Protocol Cbor.

Section Service.
Context `{CB : Ciborium}.
Notation Sinks := (gmap Path.Path (option SinkEntry)).

Inductive MonitorService : Type :=
  | Halted
  | Started (event_sink_registry : Sinks).

(** What a request does to the sinks. *)
Inductive SinkEffect : Type :=
  | Enable (sink : nat)
  | Disable (sink : nat)
  | Consume (sink : nat) (events : nat).

(** A sink that cannot be accessed: rented, or unknown. *)
Definition access_error (reg : Sinks) (path : Path.Path) : Error :=
  to_error (if has_sink reg path then SinkReadRace else SinkNotFound).

Definition with_sink {A} (sink_path : option Path.Path) (service : MonitorService) (f : SinkEntry -> Result A Error * list SinkEffect)
    : Result A Error * list SinkEffect :=
  match service with
  | Halted => (Err simulation_not_started_error, [])
  | Started reg =>
      match sink_path with
      | None => (Err (to_error MissingArgument), [])
      | Some path =>
          match get_entry_mut reg path with
          | Ok sink => f sink
          | Err _ => (Err (access_error reg path), [])
          end
      end
  end.

(** The [while let] loop of [try_read_events]: the encoded events, and how many were
    taken out of the sink. *)
Fixpoint drain (R : TypeId) (available : list Value) : Result (list bytes) Error * nat :=
  match available with
  | [] => (Ok [], 0)
  | v :: available =>
      match into_writer R v with
      | None => (Err (to_error InvalidMessage), 1)
      | Some encoded =>
          match drain R available with
          | (Ok l, n) => (Ok (encoded :: l), S n)
          | (Err e, n) => (Err e, S n)
          end
      end
  end.

Definition try_read_events (available : list Value) (sink_path : option Path.Path) (service : MonitorService)
    : Result (list bytes) Error * list SinkEffect :=
  with_sink sink_path service (fun s =>
    let '(r, n) := drain (sink_type s) available in (r, [Consume (sink s) n])).

Definition enable_sink (sink_path : option Path.Path) (service : MonitorService) : Result unit Error * list SinkEffect :=
  with_sink sink_path service (fun s => (Ok tt, [Enable (sink s)])).
Definition disable_sink (sink_path : option Path.Path) (service : MonitorService) : Result unit Error * list SinkEffect :=
  with_sink sink_path service (fun s => (Ok tt, [Disable (sink s)])).

(** *** [SinkGuard] *)
Record SinkGuard : Type := mkGuard { sink_path : Path.Path; rented : SinkEntry }.

Definition try_new (path : Path.Path) (service : MonitorService) : Result SinkGuard Error * MonitorService :=
  match service with
  | Halted => (Err simulation_not_started_error, Halted)
  | Started reg =>
      match rent_entry reg path with
      | (Ok s, reg) => (Ok (mkGuard path s), Started reg)
      | (Err _, reg) => (Err (access_error reg path), Started reg)
      end
  end.

(** [_try_return], called by [try_return] and by the drop handler; [None] is the
    panic of [unwrap]. *)
Definition try_return (g : SinkGuard) (service : MonitorService) : option (Result unit Error * MonitorService) :=
  match service with
  | Halted => Some (Err simulation_not_started_error, Halted)
  | Started reg =>
      match replace_entry reg (sink_path g) (rented g) with
      | (Ok _, reg) => Some (Ok tt, Started reg)
      | (Err _, _) => None
      end
  end.

(** *** [monitor_service_read_event] *)

(** Up to the wait: a guard, if there is something to wait for.  A negative timeout
    is noticed when the sink has already been rented. *)
Definition read_begin (sink_path : option Path.Path) (timeout : option PDuration) (service : MonitorService)
    : option (Result SinkGuard Error * MonitorService) :=
  match sink_path with
  | None => Some (Err (to_error MissingArgument), service)
  | Some path =>
      match try_new path service with
      | (Err e, service) => Some (Err e, service)
      | (Ok g, service) =>
          match timeout with
          | None => Some (Ok g, service)
          | Some timeout =>
              d ← to_positive_duration timeout;
              match d with
              | Some _ => Some (Ok g, service)
              | None => '(_, service) ← try_return g service; Some (Err (to_error InvalidTimeout), service)
              end
          end
      end
  end.

(** The end of the wait: an event or the end of the stream, the timeout, or the
    cancellation of the request. *)
Inductive WaitEnd : Type :=
  | Received (event : option Value)
  | TimedOut
  | Cancelled.

(** The reply, unless the client has gone. *)
Definition read_end (w : WaitEnd) (g : SinkGuard) (service : MonitorService)
    : option (option (Result bytes Error) * MonitorService) :=
  '(r, service) ← try_return g service;
  Some (match w with
        | Received event =>
            Some match r with
            | Err e => Err e
            | Ok _ =>
                match event with
                | None => Err (to_error SinkTerminated)
                | Some v => match into_writer (sink_type (rented g)) v with
                            | Some b => Ok b
                            | None => Err (to_error InvalidMessage)
                            end
                end
            end
        | TimedOut => Some (Err (to_error SinkReadTimeout))
        | Cancelled => None
        end, service).

(** *** Interleaved requests *)
Record State : Type := mkState {
  service : MonitorService;
  waiting : list (option SinkGuard) }.     (** the calls of [read_event] under way *)

Inductive Request : Type :=
  | RTryRead (available : list Value) (path : option Path.Path)
  | REnable (path : option Path.Path)
  | RDisable (path : option Path.Path)
  | RReadBegin (path : option Path.Path) (timeout : option PDuration)
  | RReadEnd (i : nat) (w : WaitEnd)
  | RTearDown
  | RInit (registry : Sinks).

Definition step (a : Request) (s : State) : option State :=
  match a with
  | RTryRead _ _ | REnable _ | RDisable _ => Some s
  | RReadBegin path timeout =>
      '(r, srv) ← read_begin path timeout (service s);
      Some (mkState srv (match r with Ok g => waiting s ++ [Some g] | Err _ => waiting s end))
  | RReadEnd i w =>
      match waiting s !! i with
      | Some (Some g) => '(_, srv) ← read_end w g (service s); Some (mkState srv (<[i := None]> (waiting s)))
      | _ => Some s
      end
  | RTearDown => Some (mkState Halted (waiting s))
  | RInit registry => Some (mkState (Started registry) (waiting s))
  end.

Fixpoint run (l : list Request) (s : State) : option State :=
  match l with [] => Some s | a :: l => s ← step a s; run l s end.
End Service.

(** ** Properties *)
Section Facts.
Context `{CB : Ciborium}.
Notation Sinks := (gmap Path.Path (option SinkEntry)).
Implicit Types (reg : Sinks) (s : State).

Definition lifecycle (a : Request) : bool := match a with RTearDown | RInit _ => true | _ => false end.
Definition duration_sound (a : Request) : Prop :=
  match a with RReadBegin _ (Some d) => duration_ok d | _ => True end.

(** The sink of a path is in the registry, or rented by exactly one reader. *)
Definition in_place s reg reg0 (path : Path.Path) : Prop :=
  reg !! path = reg0 !! path /\ forall i g, waiting s !! i = Some (Some g) -> sink_path g <> path.
Definition rented_once s reg reg0 (path : Path.Path) : Prop := exists e i,
  reg0 !! path = Some (Some e) /\ reg !! path = Some None /\ waiting s !! i = Some (Some (mkGuard path e)) /\
  forall j g, waiting s !! j = Some (Some g) -> sink_path g = path -> j = i.

Definition inv reg0 s : Prop := exists reg, service s = Started reg /\ forall path, in_place s reg reg0 path \/ rented_once s reg reg0 path.

Definition populated reg0 : Prop := forall path o, reg0 !! path = Some o -> is_Some o.

Lemma try_new_ok reg0 s path g srv : populated reg0 -> inv reg0 s -> try_new path (service s) = (Ok g, srv) ->
  inv reg0 (mkState srv (waiting s ++ [Some g])).
Proof.
  intros Hpop (reg & Hs & Hp) H. unfold try_new, rent_entry in H. rewrite Hs in H.
  destruct (reg !! path) as [[e|]|] eqn:Er; [|done|done]. injection H as <- <-. eexists. split; [done|]. intros q. cbn [waiting].
  assert (forall i x, (waiting s ++ [Some (mkGuard path e)]) !! i = Some (Some x) ->
    waiting s !! i = Some (Some x) \/ i = length (waiting s) /\ x = mkGuard path e) as Hlk.
  { intros i x [Hx|[Hi [Hz [= <-]]%list_lookup_singleton_Some]]%lookup_app_Some; [by left|]. right. split; [lia|done]. }
  destruct (decide (q = path)) as [->|Hne].
  - right. destruct (Hp path) as [[Heq Hno]|(e' & i & _ & Hreg & _)]; [|congruence]. exists e, (length (waiting s)).
    split_and!; [congruence|apply lookup_insert_eq|by apply list_lookup_middle|].
    intros j x [Hx|[-> _]]%Hlk Hpx; [|done]. by destruct (Hno _ _ Hx).
  - destruct (Hp q) as [[Heq Hno]|(e' & i & H0 & Hreg & Hi & Hun)].
    + left. split; [by rewrite lookup_insert_ne|]. intros i x [Hx|[-> ->]]%Hlk; [by eapply Hno|]. cbn. congruence.
    + right. exists e', i. split_and!; [done|by rewrite lookup_insert_ne|by apply lookup_app_l_Some|].
      intros j x [Hx|[-> ->]]%Hlk Hpx; [by eapply Hun|]. cbn in Hpx. congruence.
Qed.

Lemma try_new_err reg0 s path e srv : inv reg0 s -> try_new path (service s) = (Err e, srv) -> srv = service s.
Proof.
  intros (reg & Hs & Hp) H. unfold try_new, rent_entry in H. rewrite Hs in H.
  by destruct (reg !! path) as [[e'|]|]; simplify_eq.
Qed.

(** The return of a rented sink. *)
Lemma try_return_ok reg0 s i g : inv reg0 s -> waiting s !! i = Some (Some g) ->
  exists srv, try_return g (service s) = Some (Ok tt, srv) /\ inv reg0 (mkState srv (<[i := None]> (waiting s))).
Proof.
  intros (reg & Hs & Hp) Hi. unfold try_return, replace_entry. rewrite Hs.
  destruct (Hp (sink_path g)) as [[_ Hno]|(e & i' & H0 & Hreg & Hi' & Hun)]; [by destruct (Hno _ _ Hi)|].
  assert (i = i') as <- by (by eapply Hun). rewrite Hi in Hi'. injection Hi' as Hg. rewrite Hreg.
  assert (rented g = e) as <- by (by rewrite Hg).
  eexists. split; [done|]. eexists. split; [done|]. intros q. cbn [waiting].
  assert (forall j x, <[i := None]> (waiting s) !! j = Some (Some x) -> j <> i /\ waiting s !! j = Some (Some x)) as Hlk.
  { intros j x [(_ & [=] & _)|[Hne Hx]]%list_lookup_insert_Some. split; congruence. }
  destruct (Hp q) as [[Heq Hno]|(e' & i' & H0' & Hreg' & Hi' & Hun')].
  - left. destruct (decide (q = sink_path g)) as [->|Hne]; [by destruct (Hno _ _ Hi)|]. split; [by rewrite lookup_insert_ne|].
    intros j x [_ Hx]%Hlk. by eapply Hno.
  - destruct (decide (q = sink_path g)) as [->|Hne].
    + left. split; [rewrite lookup_insert_eq; congruence|]. intros j x [Hji Hx]%Hlk Hpx. by destruct (Hji (Hun _ _ Hx Hpx)).
    + right. exists e', i'. assert (i' <> i) by (intros ->; rewrite Hi in Hi'; injection Hi' as ->; done).
      split_and!; [done|by rewrite lookup_insert_ne|by cbn; rewrite list_lookup_insert_ne|]. intros j x [_ Hx]%Hlk. by eapply Hun'.
Qed.

Lemma read_begin_inv reg0 s path d : populated reg0 -> inv reg0 s -> match d with Some d => duration_ok d | None => True end ->
  exists r srv, read_begin path d (service s) = Some (r, srv) /\
    inv reg0 (mkState srv (match r with Ok g => waiting s ++ [Some g] | Err _ => waiting s end)).
Proof.
  intros Hpop Hi Hd. assert (inv reg0 (mkState (service s) (waiting s))) as Hsame by (by destruct s).
  unfold read_begin. destruct path as [path|]; [|eexists _, _; split; [done|]; exact Hsame].
  destruct (try_new path (service s)) as [[g|e] srv] eqn:En; [|apply (try_new_err reg0) in En as ->; [|done]; eexists _, _; split; [done|]; exact Hsame].
  apply (try_new_ok reg0) in En as Hg; [|done|done]. destruct d as [d|]; [|by eexists _, _].
  destruct (to_positive_duration_spec d Hd) as [-> _]. cbn [mbind option_bind]. case_decide; [by eexists _, _|].
  destruct (try_return_ok reg0 _ (length (waiting s)) g Hg) as (srv' & Hr & Hinv).
  { by apply list_lookup_middle. }
  cbn [service] in Hr. rewrite Hr. cbn [mbind option_bind]. eexists _, _. split; [done|]. cbn [waiting] in *.
  destruct Hinv as (reg & Hs & Hp). exists reg. split; [done|]. intros q.
  assert (<[length (waiting s) := None]> (waiting s ++ [Some g]) = waiting s ++ [None]) as El.
  { rewrite insert_app_r_alt by lia. by rewrite Nat.sub_diag. }
  destruct (Hp q) as [[Heq Hno]|(e & i & H0 & Hreg & Hi' & Hun)]; cbn [waiting] in *; rewrite El in *.
  - left. split; [done|]. cbn [waiting]. intros i x Hx. apply (Hno i). by apply lookup_app_l_Some.
  - right. exists e, i. apply lookup_app_Some in Hi' as [Hi'|[_ [_ [=]]%list_lookup_singleton_Some]].
    split_and!; [done|done|done|]. cbn [waiting]. intros j x Hx. apply Hun. by apply lookup_app_l_Some.
Qed.

Lemma monitor_step_inv reg0 s a : populated reg0 -> lifecycle a = false -> duration_sound a -> inv reg0 s ->
  exists s', step a s = Some s' /\ inv reg0 s'.
Proof.
  intros Hpop Hl Hd Hi. destruct a as [av path|path|path|path d|i w| |reg]; try done; cbn [step]; try by eexists.
  - destruct (read_begin_inv reg0 s path d Hpop Hi Hd) as (r & srv & -> & Hinv). by eexists.
  - destruct (waiting s !! i) as [[g|]|] eqn:Ew; [|by eexists..].
    destruct (try_return_ok reg0 s i g Hi Ew) as (srv & Hr & Hinv). unfold read_end. rewrite Hr. by eexists.
Qed.

Lemma monitor_run_inv reg0 l s : populated reg0 -> Forall (fun a => lifecycle a = false /\ duration_sound a) l -> inv reg0 s ->
  exists s', run l s = Some s' /\ inv reg0 s'.
Proof.
  intros Hpop Hl. revert s. induction Hl as [|a l [Ha Hd] _ IH]; intros s Hi; [by eexists|]. cbn [run].
  destruct (monitor_step_inv reg0 s a Hpop Ha Hd Hi) as (s1 & -> & Hi1). by apply IH.
Qed.
End Facts.

(** C27: while the simulation is not stopped, no interleaving of requests loses or
    exchanges an event sink, and none panics: every sink is at its path, unless
    exactly one [read_event] is waiting for it, in which case other requests for
    this sink are rejected as a race; once no reader is waiting, the registry is the
    one the simulation was started with.  Only a path that was never bound is
    reported as not found. *)
Theorem monitor_keeps_sinks `{CB : Ciborium} (reg0 : gmap Path.Path (option SinkEntry)) (l : list Request) :
  populated reg0 -> Forall (fun a => lifecycle a = false /\ duration_sound a) l ->
  exists s reg, run l (mkState (Started reg0) []) = Some s /\ service s = Started reg /\
    ((forall i g, waiting s !! i <> Some (Some g)) -> reg = reg0) /\
    (forall path e, reg0 !! path = Some (Some e) ->
       (reg !! path = Some (Some e) /\ enable_sink (Some path) (service s) = (Ok tt, [Enable (sink e)])) \/
       (reg !! path = Some None /\ enable_sink (Some path) (service s) = (Err (to_error SinkReadRace), []))) /\
    (forall path e, reg0 !! path = Some (Some e) -> reg !! path <> Some (Some e) ->
       exists i, forall j g, waiting s !! j = Some (Some g) /\ sink_path g = path <-> j = i /\ g = mkGuard path e) /\
    (forall path, reg0 !! path = None -> enable_sink (Some path) (service s) = (Err (to_error SinkNotFound), [])).
Proof.
  intros Hpop Hl. destruct (monitor_run_inv reg0 l (mkState (Started reg0) []) Hpop Hl) as (s & Hrun & reg & Hs & Hp).
  { exists reg0. split; [done|]. intros q. by left. }
  exists s, reg. rewrite Hs. split_and!; [done|done|..].
  - intros Hno. apply map_eq. intros q. destruct (Hp q) as [[Heq _]|(e & i & _ & _ & Hi & _)]; [done|]. by destruct (Hno _ _ Hi).
  - intros q e He. unfold enable_sink, with_sink, get_entry_mut, access_error, has_sink.
    destruct (Hp q) as [[Heq _]|(e' & i & _ & Hreg & _)].
    + left. by rewrite Heq, He.
    + right. by rewrite Hreg.
  - intros q e He Hne. destruct (Hp q) as [[Heq _]|(e' & i & H0 & Hreg & Hi & Hun)]; [congruence|].
    assert (e' = e) as -> by congruence. exists i. intros j g. split.
    + intros [Hj Hq]. assert (j = i) as -> by (by eapply Hun). split; congruence.
    + intros [-> ->]. done.
  - intros q Hq. unfold enable_sink, with_sink, get_entry_mut, access_error, has_sink.
    destruct (Hp q) as [[-> _]|(e' & i & H0 & _)]; [|congruence]. by rewrite Hq.
Qed.

(** ** A concrete service with one sink *)
Module Demo.
#[local] Existing Instance demo_lang.
#[local] Instance demo_cbor : @Ciborium demo_lang := {|
  from_reader _ b := match b with [x] => Some (Z.of_N (Byte.to_N x)) | _ => None end;
  into_writer _ v := match Byte.of_N (Z.to_N v) with Some x => Some [x] | None => None end |}.

Definition out : Path.Path := ["out"%string].
Definition old : SinkEntry := @mkSink demo_lang 1 0.
Definition sinks (e : SinkEntry) : gmap Path.Path (option SinkEntry) := <[out := Some e]> ∅.

(** A second reader is turned away while the first one waits. *)
Definition requests : list Request :=
  [RReadBegin (Some out) None; RReadBegin (Some out) (Some (mkPDuration 1 0)); REnable (Some out)].

Lemma populated_sinks e : populated (sinks e).
Proof.
  intros path o H. destruct (decide (path = out)) as [->|Hne].
  - unfold sinks in H. rewrite lookup_insert_eq in H. injection H as <-. by eexists.
  - unfold sinks in H. by rewrite lookup_insert_ne, lookup_empty in H.
Qed.

Lemma monitor_keeps_sinks_witness :
  exists s, run requests (mkState (Started (sinks old)) []) = Some s /\ length (waiting s) = 1 /\
    enable_sink (Some out) (service s) = (Err (to_error SinkReadRace), []).
Proof.
  destruct (monitor_keeps_sinks (sinks old) requests) as (s & reg & Hrun & Hs & _ & Hen & _).
  - apply populated_sinks.
  - repeat constructor; cbv; done.
  - exists s. split; [exact Hrun|]. vm_compute in Hrun. injection Hrun as <-. injection Hs as <-.
    destruct (Hen out old) as [[H _]|[_ H]]; [vm_compute; reflexivity|vm_compute in H; discriminate H|].
    split; [reflexivity|exact H].
Defined.

(** A reader that is still waiting when the simulation is stopped and another one is
    started replaces the sink of the new simulation by that of the old one; if the
    new one has no sink with this path, its return panics with the mutex of the
    service locked. *)
Definition new_sink : SinkEntry := @mkSink demo_lang 2 0.

Example stale_sink_replaces_new_one :
  run [RReadBegin (Some out) None; RTearDown; RInit (sinks new_sink); RReadEnd 0 (Received None)]
    (mkState (Started (sinks old)) []) = Some (mkState (Started (sinks old)) [None]).
Proof. vm_compute. reflexivity. Qed.

Example stale_return_panics :
  run [RReadBegin (Some out) None; RTearDown; RInit ∅; RReadEnd 0 Cancelled] (mkState (Started (sinks old)) []) = None.
Proof. vm_compute. reflexivity. Qed.
End Demo.
End MonitorService.
