(* ===== verification/BenchService.v ===== *)
(** * The bench service: [server/services/bench_service.rs]

    Requests that are available as soon as the bench is built: the lists and schemas
    of the endpoints, and the injection of events.  Registries are hash maps, whose
    order of iteration is not specified: [map_to_list] stands for it. *)

From S2P Require Import Prelude Path Errors Time PriorityQueue QueueItems Endpoints Effects Scheduler SchedulerFacts Protocol Cbor.
From stdpp Require Import strings.

Module BenchService.
Import Items Endpoints Protocol Cbor.

Section Service.
Context `{CB : Ciborium} {T : Type} `{MT : MonoTime T}.
Context {SQ IQ : Type} `{SPQ : !StablePQ (T * Z) QueueItem SQ} `{IPQ : !StablePQ Z InjectorItem IQ}.

(** The injector is a handle on the injector queue. *)
Record Registries : Type := mkRegistries {
  sink_infos : gmap Path.Path string;
  event_sources : gmap Path.Path EventSourceEntry;
  query_sources : gmap Path.Path QuerySourceEntry }.

Inductive BenchService : Type :=
  | Halted
  | Started (r : Registries).

Definition bench {A} (service : BenchService) (f : Registries -> Result A Error) : Result A Error :=
  match service with Halted => Err bench_not_built_error | Started r => f r end.

(** *** Lists *)
Definition bs_list_event_sources (service : BenchService) : Result (list Path.Path) Error :=
  bench service (fun r => Ok (map_to_list (event_sources r)).*1).
Definition bs_list_query_sources (service : BenchService) : Result (list Path.Path) Error :=
  bench service (fun r => Ok (map_to_list (query_sources r)).*1).
Definition bs_list_event_sinks (service : BenchService) : Result (list Path.Path) Error :=
  bench service (fun r => Ok (map_to_list (sink_infos r)).*1).

(** *** Schemas

    The requested paths are looked up in order; the first one that is not found is
    the error.  A request without paths is for all of them. *)
Fixpoint collect_schemas {A} (get : Path.Path -> Result A EndpointError) (paths : list Path.Path)
    : Result (list (Path.Path * A)) EndpointError :=
  match paths with
  | [] => Ok []
  | path :: paths =>
      match get path with
      | Err e => Err e
      | Ok a => match collect_schemas get paths with Ok l => Ok ((path, a) :: l) | Err e => Err e end
      end
  end.

Definition schemas {A} (get : Path.Path -> Result A EndpointError) (all : list (Path.Path * A)) (paths : list Path.Path)
    : Result (list (Path.Path * A)) Error :=
  match (match paths with [] => Ok all | _ => collect_schemas get paths end) with
  | Ok l => Ok l
  | Err e => Err (from_endpoint_error e)
  end.

Definition get_event_source_schemas (paths : list Path.Path) (service : BenchService) : Result (list (Path.Path * string)) Error :=
  bench service (fun r =>
    schemas (get_event_source_schema (event_sources r)) (prod_map id ev_schema <$> map_to_list (event_sources r)) paths).
Definition get_query_source_schemas (paths : list Path.Path) (service : BenchService)
    : Result (list (Path.Path * (string * string))) Error :=
  bench service (fun r =>
    schemas (get_query_source_schema (query_sources r)) (prod_map id qu_schema <$> map_to_list (query_sources r)) paths).
Definition get_event_sink_schemas (paths : list Path.Path) (service : BenchService) : Result (list (Path.Path * string)) Error :=
  bench service (fun r => schemas (get_event_sink_schema (sink_infos r)) (map_to_list (sink_infos r)) paths).

(** *** Injection *)
Definition bs_inject_event (source_path : option Path.Path) (event : bytes) (service : BenchService)
    : Eff (Shared T SQ IQ) Error unit :=
  match service with
  | Halted => throw bench_not_built_error
  | Started r =>
      source_path ← liftO (ok_or (to_error MissingArgument) source_path);
      source ← map_err from_endpoint_error (liftO (of_result (get_event (event_sources r) source_path)));
      event ← liftO (ok_or (to_error InvalidMessage) (Cbor.event source event));
      inject_built_event event
  end.
End Service.

(** ** Properties *)
Section Facts.
Context `{CB : Ciborium} {T : Type} `{MT : MonoTime T}.
Context {SQ IQ : Type} `{SPQ : !StablePQ (T * Z) QueueItem SQ} `{IPQ : !StablePQ Z InjectorItem IQ}.

Lemma collect_schemas_spec {A} (get : Path.Path -> Result A EndpointError) paths :
  match collect_schemas get paths with
  | Ok l => l.*1 = paths /\ Forall (fun p => get p.1 = Ok p.2) l
  | Err e => exists done path rest, paths = done ++ path :: rest /\ get path = Err e /\ Forall (fun p => exists a, get p = Ok a) done
  end.
Proof.
  induction paths as [|path paths IH]; cbn; [done|]. destruct (get path) as [a|e] eqn:E.
  - destruct (collect_schemas get paths) as [l|e].
    + destruct IH as [<- Hl]. split; [done|]. by constructor.
    + destruct IH as (done_ & p & rest & -> & Hp & Hd). exists (path :: done_), p, rest. split_and!; [done|done|]. constructor; [by exists a|done].
  - by exists [], path, paths.
Qed.

(** The schemas of sources that are requested by their paths come in the order of
    the request, or the first path that is unknown is the reason of the error; a
    request for all of them returns every source exactly once. *)
Theorem event_schemas_spec (r : Registries) paths :
  match get_event_source_schemas paths (Started r) with
  | Ok l => Forall (fun p => exists e, event_sources r !! p.1 = Some e /\ p.2 = ev_schema e) l /\
      (paths <> [] -> l.*1 = paths) /\ (paths = [] -> NoDup l.*1 /\ forall p, p ∈ l.*1 <-> is_Some (event_sources r !! p))
  | Err e => code e = EventSourceNotFound /\ exists done path rest, paths = done ++ path :: rest /\
      event_sources r !! path = None /\ Forall (fun p => is_Some (event_sources r !! p)) done
  end.
Proof.
  assert (forall p s, get_event_source_schema (event_sources r) p = Ok s <-> exists e, event_sources r !! p = Some e /\ s = ev_schema e) as Hget.
  { intros p s. unfold get_event_source_schema, get_event, get_or. destruct (event_sources r !! p); cbn; naive_solver. }
  assert (forall p e, get_event_source_schema (event_sources r) p = Err e -> event_sources r !! p = None /\ e = Endpoints.EventSourceNotFound p) as Herr.
  { intros p e. unfold get_event_source_schema, get_event, get_or. destruct (event_sources r !! p); cbn; naive_solver. }
  unfold get_event_source_schemas, bench, schemas. destruct paths as [|path paths].
  - split_and!; [|done|]. 
    + apply Forall_fmap, Forall_forall. intros [p e] Hp. apply elem_of_map_to_list in Hp. cbn. by exists e.
    + intros _. rewrite <- list_fmap_compose. split; [apply NoDup_fst_map_to_list|]. intros p. rewrite list_elem_of_fmap. split.
      * intros ([q e] & -> & Hq%elem_of_map_to_list). by exists e.
      * intros [e He]. exists (p, e). split; [done|]. by apply elem_of_map_to_list.
  - pose proof (collect_schemas_spec (get_event_source_schema (event_sources r)) (path :: paths)) as H.
    destruct (collect_schemas _ (path :: paths)) as [l|e].
    + destruct H as [Hl Hf]. split_and!; [|done|done]. eapply Forall_impl; [exact Hf|]. intros [p s] Hp. by apply Hget.
    + destruct H as (done_ & p & rest & Heq & [Hn ->]%Herr & Hd). split; [done|]. exists done_, p, rest. split_and!; [done|done|].
      eapply Forall_impl; [exact Hd|]. intros q [a (e & He & _)%Hget]. by exists e.
Qed.

(** Injection: the event of the request joins the injector queue with the origin of
    user events, and nothing else changes; a rejected request changes nothing. *)
Theorem inject_event_spec (r : Registries) path event (s : Shared T SQ IQ) : pq_ok (injector_queue s) ->
  match bs_inject_event path event (Started r) s with
  | (Val _, s') => exists p source v q, path = Some p /\ event_sources r !! p = Some source /\
      from_reader (eid_type (ev_inner source)) event = Some v /\ s' = with_injector_queue q s /\
      pq_view q = StableQueue.insert GLOBAL_ORIGIN_ID (InjEvent (event_new (ev_inner source) v)) (pq_view (injector_queue s))
  | (_, s') => s' = s
  end.
Proof.
  intros Hok. unfold bs_inject_event, liftO, map_err, get_event, get_or, Cbor.event. cbv [mbind eff_bind].
  destruct path as [p|]; cbn; [|done]. destruct (event_sources r !! p) as [source|] eqn:Es; cbn; [|done].
  destruct (from_reader _ event) as [v|] eqn:Ev; cbn; [|done]. unfold inject_built_event, injector_insert.
  destruct (pq_insert _ _ (injector_queue s)) as [q|] eqn:Eq; [|done].
  apply pq_insert_ok in Eq as (_ & Hv & _); [|done]. by exists p, source, v, q.
Qed.
End Facts.
End BenchService.
