(* ===== verification/BuildService.v ===== *)
(** * The build service: [server/services/build_service.rs]

    Creates a bench from a serialized configuration, then a simulation from the
    bench.  The user's generator of benches is a parameter that may depend on the
    number of its earlier calls. *)

From S2P Require Import Prelude Path Errors Time SyncCell PriorityQueue QueueItems Endpoints Effects Scheduler SchedulerFacts.
From S2P Require Import Simulation Protocol Cbor SimInit.
From stdpp Require Import strings.

Module BuildService.
Import Items Endpoints Protocol.

Section Service.
Context `{L : Lang} {T : Type} `{PT : ProtoTime T}.
Context {SQ IQ : Type} `{SPQ : !StablePQ (T * Z) QueueItem SQ} `{IPQ : !StablePQ Z InjectorItem IQ}.
Context {X C Tk : Type} `{HO : !Host T SQ IQ X C Tk}.
Notation Sm := (Simulation T SQ IQ X C Tk).
Notation Bn := (@SimInit.SimInit _ T SQ IQ X C Tk).

(** The call of the generator: it may panic, the configuration may not be readable,
    and it may return an error, which is or is not a [BenchError]. *)
Inductive GenResult : Type :=
  | GenPanic
  | GenConfig
  | GenError (e : option Endpoints.BenchError)
  | GenBench (b : Bn).

Inductive BuildState : Type :=
  | NoBench
  | Built (b : Bn) (sinks : gmap Path.Path (option SinkEntry)) (es : gmap Path.Path EventSourceEntry)
      (qs : gmap Path.Path QuerySourceEntry)
  | Initialized.

Record BuildService : Type := mkBuild { calls : nat; state : BuildState }.

Context (sim_gen : nat -> bytes -> GenResult).

Definition new : BuildService := mkBuild 0 NoBench.

Definition from_general_bench_error (e : option Endpoints.BenchError) : Error :=
  match e with Some e => from_bench_error e | None => to_error BenchError end.
Definition from_panic : Error := to_error BenchPanic.
Definition from_config_deserialization_error : Error := to_error InvalidMessage.

(** Without its endpoints. *)
Definition without_endpoints (b : Bn) : Bn :=
  let '(_, e) := take_endpoints (SimInit.endpoints b) in
  SimInit.mkInit (SimInit.executor b) (SimInit.shared b) e (SimInit.is_resumed b) (SimInit.clock b)
    (SimInit.clock_tolerance b) (SimInit.ticker b) (SimInit.timeout b) (SimInit.observers b) (SimInit.registered_models b)
    (SimInit.post_init_callback b) (SimInit.post_restore_callback b).

(** The result holds the registries for the bench service. *)
Definition build (cfg : bytes) (self : BuildService)
    : Result (gmap Path.Path string * gmap Path.Path EventSourceEntry * gmap Path.Path QuerySourceEntry) Error * BuildService :=
  match state self with
  | NoBench =>
      let called := mkBuild (S (calls self)) NoBench in
      match sim_gen (calls self) cfg with
      | GenPanic => (Err from_panic, called)
      | GenConfig => (Err from_config_deserialization_error, called)
      | GenError e => (Err (from_general_bench_error e), called)
      | GenBench b =>
          let '(sinks, infos, es, qs, _) := take_endpoints (SimInit.endpoints b) in
          (Ok (infos, es, qs), mkBuild (S (calls self)) (Built (without_endpoints b) sinks es qs))
      end
  | _ => (Err (to_error BenchAlreadyBuilt), self)
  end.

(** The common part of [init] and [restore]: the bench is taken out first. *)
Definition start (make : Bn -> Outcome (SimulationError T) Sm) (self : BuildService)
    : Outcome Error (Sm * gmap Path.Path (option SinkEntry) * gmap Path.Path EventSourceEntry * gmap Path.Path QuerySourceEntry)
      * BuildService :=
  match state self with
  | Built b sinks es qs =>
      (match make b with
       | Val sim => Val (sim, sinks, es, qs)
       | Fail e => Fail (from_simulation_error e)
       | Panic => Panic
       end, mkBuild (calls self) Initialized)
  | _ => (Fail bench_not_built_error, self)
  end.

Definition bld_init (time : option Timestamp) (self : BuildService) :=
  match (t ← time; timestamp_to_monotonic t) with
  | None => (Fail (to_error MissingArgument), self)
  | Some start_time => start (SimInit.init start_time) self
  end.

(** [SimInit::restore] is in [SimInit], for the queues of the implementation. *)
Definition bld_restore (bench_restore : bytes -> Bn -> Outcome (SimulationError T) Sm) (st : bytes) (self : BuildService) :=
  start (bench_restore st) self.

Definition reset_state (self : BuildService) : BuildService := mkBuild (calls self) NoBench.

(** ** Sequences of requests *)
Inductive Request : Type :=
  | QBuild (cfg : bytes)
  | QInit (time : option Timestamp)
  | QRestore (st : bytes)
  | QReset.

(** What a request achieved. *)
Inductive Milestone : Type :=
  | MBuilt
  | MTaken          (** a bench was consumed by [init] or [restore] *)
  | MReset
  | MNothing.

Context (bench_restore : bytes -> Bn -> Outcome (SimulationError T) Sm).

Definition step (q : Request) (self : BuildService) : Milestone * BuildService :=
  match q with
  | QBuild cfg => match build cfg self with (Ok _, self) => (MBuilt, self) | (Err _, self) => (MNothing, self) end
  | QInit t =>
      match bld_init t self with
      | (_, self') => (match state self, state self' with Built _ _ _ _, Initialized => MTaken | _, _ => MNothing end, self')
      end
  | QRestore st =>
      match bld_restore bench_restore st self with
      | (_, self') => (match state self, state self' with Built _ _ _ _, Initialized => MTaken | _, _ => MNothing end, self')
      end
  | QReset => (MReset, reset_state self)
  end.

Fixpoint run (qs : list Request) (self : BuildService) : list Milestone * BuildService :=
  match qs with
  | [] => ([], self)
  | q :: qs => let '(m, self) := step q self in let '(ms, self) := run qs self in (m :: ms, self)
  end.

(** The protocol: the last milestone decides. *)
Inductive Phase : Type := PNone | PBuilt | PInitialized.
Definition phase (self : BuildService) : Phase :=
  match state self with NoBench => PNone | Built _ _ _ _ => PBuilt | Initialized => PInitialized end.

Fixpoint accepts (p : Phase) (ms : list Milestone) : option Phase :=
  match ms with
  | [] => Some p
  | MNothing :: ms => accepts p ms
  | MReset :: ms => accepts PNone ms
  | MBuilt :: ms => match p with PNone => accepts PBuilt ms | _ => None end
  | MTaken :: ms => match p with PBuilt => accepts PInitialized ms | _ => None end
  end.

(** The requests of clients follow a protocol, whatever they ask for: a bench is
    built only if there is none, it is initialized or restored only once, and a new
    one can be built only after a reset. *)
Theorem build_protocol (qs : list Request) self : let '(ms, self') := run qs self in accepts (phase self) ms = Some (phase self').
Proof.
  revert self. induction qs as [|q qs IH]; intros self; [done|]. cbn [run].
  destruct (step q self) as [m self1] eqn:Es. specialize (IH self1). destruct (run qs self1) as [ms self2].
  enough (accepts (phase self) (m :: ms) = accepts (phase self1) ms) as -> by done.
  destruct q as [cfg|t|st|]; cbn [step] in Es.
  - unfold build in Es. destruct self as [n [|b si es qs'|]]; cbn in Es; [|by simplify_eq..].
    destruct (sim_gen n cfg); by simplify_eq.
  - unfold bld_init, start in Es. destruct self as [n [|b si es qs'|]]; cbn in Es;
      destruct (_ ≫= _) in Es; cbn in Es; by simplify_eq.
  - unfold bld_restore, start in Es. destruct self as [n [|b si es qs'|]]; cbn in Es; by simplify_eq.
  - by injection Es as <- <-.
Qed.
End Service.
End BuildService.
