(* ===== verification/Grpc.v ===== *)
(** * The life cycle of a server: [server/services.rs]

    The five services of [GrpcSimulationService] are under locks of their own, and
    the requests that build, start, run and tear down a simulation take several of
    these locks in turn.  Here a simulation is the number of its bench, a service
    knows which simulation it serves, and every request is a thread that performs
    one critical section at a time.  The build service stays locked while a bench or
    a simulation is handed over to the other services, and the controller while it
    executes a request; all other critical sections are single steps.  Panics, which
    poison the locks, are left out. *)

From S2P Require Import Prelude.

Module Grpc.

Inductive BuildState : Type := NoBench | Built (g : nat) | Initialized.

(** Program points; [run] says whether the request runs the simulation after
    having initialized it, [valid] whether its start time is valid (always so for
    [restore]). *)
Inductive Pc : Type :=
  | Idle
  | TdScheduler | TdSignal (g : option nat) | TdController | TdBench | TdMonitor | TdBuild
  | BuildCheck | BuildStart (g : nat)
  | InitCheck (valid run : bool) | InitController (g : nat) (run : bool) | InitMonitor (g : nat) (run : bool)
  | InitScheduler (g : nat) (run : bool)
  | CtlLock | CtlExec (g : nat).

Record Sys : Type := mkSys {
  build : BuildState;
  controller : option nat;
  scheduler : option nat;
  monitor : option nat;
  bench : option nat;
  torn_down : list nat;            (** simulations whose termination flag is set *)
  next : nat;
  build_owner : option nat;        (** the threads that hold the two locks *)
  ctl_owner : option nat;
  threads : list Pc }.

Definition initial (n : nat) : Sys :=
  mkSys NoBench None None None None [] 0 None None (replicate n Idle).

Definition set_pc (t : nat) (p : Pc) (s : Sys) : Sys :=
  mkSys (build s) (controller s) (scheduler s) (monitor s) (bench s) (torn_down s) (next s) (build_owner s) (ctl_owner s)
    (<[t := p]> (threads s)).
Definition set_build (b : BuildState) (n : nat) (o : option nat) (s : Sys) : Sys :=
  mkSys b (controller s) (scheduler s) (monitor s) (bench s) (torn_down s) n o (ctl_owner s) (threads s).
Definition set_controller (c : option nat) (s : Sys) : Sys :=
  mkSys (build s) c (scheduler s) (monitor s) (bench s) (torn_down s) (next s) (build_owner s) (ctl_owner s) (threads s).
Definition set_ctl_owner (o : option nat) (s : Sys) : Sys :=
  mkSys (build s) (controller s) (scheduler s) (monitor s) (bench s) (torn_down s) (next s) (build_owner s) o (threads s).
Definition set_scheduler (c : option nat) (s : Sys) : Sys :=
  mkSys (build s) (controller s) c (monitor s) (bench s) (torn_down s) (next s) (build_owner s) (ctl_owner s) (threads s).
Definition set_monitor (c : option nat) (s : Sys) : Sys :=
  mkSys (build s) (controller s) (scheduler s) c (bench s) (torn_down s) (next s) (build_owner s) (ctl_owner s) (threads s).
Definition set_bench (c : option nat) (s : Sys) : Sys :=
  mkSys (build s) (controller s) (scheduler s) (monitor s) c (torn_down s) (next s) (build_owner s) (ctl_owner s) (threads s).
Definition signal (g : option nat) (s : Sys) : Sys :=
  mkSys (build s) (controller s) (scheduler s) (monitor s) (bench s)
    (match g with Some g => g :: torn_down s | None => torn_down s end) (next s) (build_owner s) (ctl_owner s) (threads s).

(** [tear_down]: the scheduler is stopped and its simulation signalled, then the
    other services are halted one after the other. *)
Definition tear_down_step (t : nat) (p : Pc) (s : Sys) : Sys :=
  match p with
  | TdScheduler => set_pc t (TdSignal (scheduler s)) (set_scheduler None s)
  | TdSignal g => set_pc t TdController (signal g s)
  | TdController =>
      match ctl_owner s with Some _ => s | None => set_pc t TdBench (set_controller None s) end
  | TdBench => set_pc t TdMonitor (set_bench None s)
  | TdMonitor => set_pc t TdBuild (set_monitor None s)
  | TdBuild =>
      match build_owner s with Some _ => s | None => set_pc t Idle (set_build NoBench (next s) None s) end
  | _ => s
  end.

(** [build], with [start_init_services]; [ok]: the bench could be built. *)
Definition build_step (t : nat) (p : Pc) (ok : bool) (s : Sys) : Sys :=
  match p with
  | BuildCheck =>
      match build_owner s with
      | Some _ => s
      | None =>
          match build s with
          | NoBench =>
              if ok then set_pc t (BuildStart (next s)) (set_build (Built (next s)) (S (next s)) (Some t) s)
              else set_pc t Idle s
          | _ => set_pc t Idle s
          end
      end
  | BuildStart g => set_pc t Idle (set_build (build s) (next s) None (set_bench (Some g) s))
  | _ => s
  end.

(** [init] and [restore], with [start_simulation_services], and [init_and_run] and
    [restore_and_run]; [ok]: the simulation could be initialized. *)
Definition init_step (t : nat) (p : Pc) (ok : bool) (s : Sys) : Sys :=
  match p with
  | InitCheck valid run =>
      match build_owner s with
      | Some _ => s
      | None =>
          if negb valid then set_pc t Idle s else
          match build s with
          | Built g =>
              if ok then set_pc t (InitController g run) (set_build Initialized (next s) (Some t) s)
              else set_pc t Idle (set_build Initialized (next s) None s)
          | _ => set_pc t Idle s
          end
      end
  | InitController g run =>
      match ctl_owner s with Some _ => s | None => set_pc t (InitMonitor g run) (set_controller (Some g) s) end
  | InitMonitor g run => set_pc t (InitScheduler g run) (set_monitor (Some g) s)
  | InitScheduler g run =>
      set_pc t (if run then CtlLock else Idle) (set_build (build s) (next s) None (set_scheduler (Some g) s))
  | _ => s
  end.

(** [execute_controller_fn]; [ok]: the request is finished, which is the case in any
    event once the simulation was told to terminate. *)
Definition controller_step (t : nat) (p : Pc) (ok : bool) (s : Sys) : Sys :=
  match p with
  | CtlLock =>
      match ctl_owner s with
      | Some _ => s
      | None =>
          match controller s with
          | Some g => set_pc t (CtlExec g) (set_ctl_owner (Some t) s)
          | None => set_pc t Idle s
          end
      end
  | CtlExec g => if ok || bool_decide (g ∈ torn_down s) then set_pc t Idle (set_ctl_owner None s) else s
  | _ => s
  end.

Definition thread_step (t : nat) (ok : bool) (s : Sys) : Sys :=
  match threads s !! t with
  | None | Some Idle => s
  | Some p =>
      match p with
      | TdScheduler | TdSignal _ | TdController | TdBench | TdMonitor | TdBuild => tear_down_step t p s
      | BuildCheck | BuildStart _ => build_step t p ok s
      | InitCheck _ _ | InitController _ _ | InitMonitor _ _ | InitScheduler _ _ => init_step t p ok s
      | _ => controller_step t p ok s
      end
  end.

(** Requests *)
Inductive Request : Type := QTearDown | QBuild | QInit (valid run : bool) | QControl.
Definition entry (q : Request) : Pc :=
  match q with QTearDown => TdScheduler | QBuild => BuildCheck | QInit valid run => InitCheck valid run | QControl => CtlLock end.

Inductive Action : Type :=
  | AStart (t : nat) (q : Request)
  | AStep (t : nat) (ok : bool).

Definition step (a : Action) (s : Sys) : Sys :=
  match a with
  | AStart t q => match threads s !! t with Some Idle => set_pc t (entry q) s | _ => s end
  | AStep t ok => thread_step t ok s
  end.

Fixpoint run (l : list Action) (s : Sys) : Sys := match l with [] => s | a :: l => run l (step a s) end.

(** ** Progress *)
Definition holds_build (p : Pc) : bool :=
  match p with BuildStart _ | InitController _ _ | InitMonitor _ _ | InitScheduler _ _ => true | _ => false end.
Definition holds_ctl (p : Pc) : bool := match p with CtlExec _ => true | _ => false end.

(** The owner of a lock is the thread in the critical section. *)
Record inv (s : Sys) : Prop := {
  iv_build t : build_owner s = Some t <-> exists p, threads s !! t = Some p /\ holds_build p = true;
  iv_ctl t : ctl_owner s = Some t <-> exists p, threads s !! t = Some p /\ holds_ctl p = true }.

(** The critical sections a request still has to perform, at most. *)
Definition weight (p : Pc) : nat :=
  match p with
  | Idle => 0
  | TdScheduler => 6 | TdSignal _ => 5 | TdController => 4 | TdBench => 3 | TdMonitor => 2 | TdBuild => 1
  | BuildCheck => 2 | BuildStart _ => 1
  | InitCheck _ _ => 6 | InitController _ _ => 5 | InitMonitor _ _ => 4 | InitScheduler _ _ => 3
  | CtlLock => 2 | CtlExec _ => 1
  end.
Definition work (s : Sys) : nat := sum_list_with weight (threads s).

(** A thread moves to [p'], possibly acquiring or releasing the locks. *)
Lemma inv_move s s' t p p' :
  inv s -> threads s !! t = Some p -> threads s' = <[t := p']> (threads s) ->
  (build_owner s' = if holds_build p' then Some t else if holds_build p then None else build_owner s) ->
  (ctl_owner s' = if holds_ctl p' then Some t else if holds_ctl p then None else ctl_owner s) ->
  (holds_build p' = true -> holds_build p = false -> build_owner s = None) ->
  (holds_ctl p' = true -> holds_ctl p = false -> ctl_owner s = None) -> inv s'.
Proof.
  intros [Hb Hc] Ht Hth Ebo Eco Hab Hac.
  assert (forall (h : Pc -> bool) (o o' : option nat), (forall u, o = Some u <-> exists q, threads s !! u = Some q /\ h q = true) ->
    (o' = if h p' then Some t else if h p then None else o) -> (h p' = true -> h p = false -> o = None) ->
    forall u, o' = Some u <-> exists q, threads s' !! u = Some q /\ h q = true) as Hgen.
  { intros h o o' Ho Eo Hacq u. rewrite Hth.
    assert ((exists q, <[t := p']> (threads s) !! u = Some q /\ h q = true) <->
      (u = t /\ h p' = true) \/ (u <> t /\ exists q, threads s !! u = Some q /\ h q = true)) as ->.
    { destruct (decide (u = t)) as [->|Hne].
      - rewrite list_lookup_insert_eq by (by eapply lookup_lt_Some). naive_solver.
      - rewrite list_lookup_insert_ne by done. naive_solver. }
    rewrite <- (Ho u). assert (h p = true -> o = Some t) as Hpt by (intros Hp; apply Ho; eauto).
    destruct (h p') eqn:E', (h p) eqn:E; subst o'.
    - rewrite (Hpt eq_refl). destruct (decide (u = t)); naive_solver.
    - rewrite (Hacq eq_refl eq_refl). destruct (decide (u = t)); naive_solver.
    - rewrite (Hpt eq_refl). naive_solver.
    - split; [|naive_solver]. intros Hu. right. split; [|done]. intros ->. apply Ho in Hu as (q & Hq & Hhq). congruence. }
  split; [by apply (Hgen holds_build (build_owner s))|by apply (Hgen holds_ctl (ctl_owner s))].
Qed.

Lemma work_move s s' t p p' : threads s !! t = Some p -> threads s' = <[t := p']> (threads s) -> weight p' < weight p ->
  work s' < work s.
Proof.
  intros Ht Hth Hw. unfold work. rewrite Hth. clear Hth. revert t Ht.
  induction (threads s) as [|q l IH]; intros [|t] Ht; [done|done|injection Ht as ->; cbn; lia|].
  specialize (IH t Ht). change (<[S t := p']> (q :: l)) with (q :: <[t := p']> l). cbn [sum_list_with] in *. lia.
Qed.

(** The next critical section, by a lemma on moves. *)
Ltac forward Hmove := right; eapply Hmove; [cbn; reflexivity|cbn; lia|cbn; by auto..].
Ltac try_lock :=
  match goal with
  | |- context [match ctl_owner ?x with Some _ => _ | None => _ end] =>
      let Eo := fresh "Eo" in destruct (ctl_owner x) eqn:Eo; [left; split; [done|cbn; rewrite Eo; by eexists]|]
  | |- context [match build_owner ?x with Some _ => _ | None => _ end] =>
      let Eo := fresh "Eo" in destruct (build_owner x) eqn:Eo; [left; split; [done|cbn; rewrite Eo; by eexists]|]
  end.

(** A step of a thread moves it forward, or it is blocked on a lock. *)
Definition blocked (s : Sys) (ok : bool) (p : Pc) : Prop :=
  match p with
  | Idle => True
  | TdController | InitController _ _ | CtlLock => is_Some (ctl_owner s)
  | TdBuild | BuildCheck | InitCheck _ _ => is_Some (build_owner s)
  | CtlExec g => ok = false /\ g ∉ torn_down s
  | _ => False
  end.

Lemma thread_step_cases s t ok p : inv s -> threads s !! t = Some p ->
  (thread_step t ok s = s /\ blocked s ok p) \/ (inv (thread_step t ok s) /\ work (thread_step t ok s) < work s).
Proof.
  intros Hi Ht. assert (forall s' p', threads s' = <[t := p']> (threads s) -> weight p' < weight p ->
    (build_owner s' = if holds_build p' then Some t else if holds_build p then None else build_owner s) ->
    (ctl_owner s' = if holds_ctl p' then Some t else if holds_ctl p then None else ctl_owner s) ->
    (holds_build p' = true -> holds_build p = false -> build_owner s = None) ->
    (holds_ctl p' = true -> holds_ctl p = false -> ctl_owner s = None) -> inv s' /\ work s' < work s) as Hmove.
  { intros s' p' Hth Hw Hb Hc Hb' Hc'. split; [by eapply inv_move|by eapply work_move]. }
  assert (holds_build p = true -> build_owner s = Some t) as Hob by (intros Hp; apply (iv_build _ Hi); eauto).
  assert (holds_ctl p = true -> ctl_owner s = Some t) as Hoc by (intros Hp; apply (iv_ctl _ Hi); eauto).
  unfold thread_step. rewrite Ht. destruct p; cbn [tear_down_step build_step init_step controller_step].
  all: try (left; split; [done|exact I]).
  all: try try_lock.
  all: try (destruct (build s)); try (destruct (controller s)); try (destruct valid); try (destruct run0).
  all: try (forward Hmove). all: try (destruct ok; forward Hmove).
  all: destruct (ok || bool_decide (g ∈ torn_down s)) eqn:Eg; [forward Hmove|]; left; split; [done|].
  all: apply orb_false_iff in Eg as [-> Eg]; by apply bool_decide_eq_false in Eg.
Qed.

Lemma grpc_start_inv s t q : inv s -> threads s !! t = Some Idle -> inv (set_pc t (entry q) s).
Proof. intros Hi Ht. eapply (inv_move s _ t Idle (entry q)); [done|done|done|..]; by destruct q. Qed.

Lemma grpc_step_inv a s : inv s -> inv (step a s).
Proof.
  intros Hi. destruct a as [t q|t ok]; cbn [step].
  - destruct (threads s !! t) as [[]|] eqn:Et; try done. by apply grpc_start_inv.
  - destruct (threads s !! t) as [p|] eqn:Et; [|unfold thread_step; by rewrite Et].
    destruct (thread_step_cases s t ok p Hi Et) as [[-> _]|[Hi' _]]; done.
Qed.

Lemma grpc_run_inv l s : inv s -> inv (run l s).
Proof. revert s. induction l as [|a l IH]; intros s Hi; [done|]. by apply IH, grpc_step_inv. Qed.

Lemma grpc_initial_inv n : inv (initial n).
Proof.
  assert (forall (h : Pc -> bool) t, h Idle = false -> ~ exists p, replicate n Idle !! t = Some p /\ h p = true) as H.
  { intros h t Hh (p & [-> _]%lookup_replicate & Hp). congruence. }
  split; intros t; cbn; (split; [done|]); intros Hx; by destruct (H _ t eq_refl Hx).
Qed.

(** Some thread can move if one is not idle. *)
Lemma no_deadlock s t p : inv s -> threads s !! t = Some p -> p <> Idle ->
  exists u, work (step (AStep u true) s) < work s.
Proof.
  intros Hi Ht Hp. destruct (thread_step_cases s t true p Hi Ht) as [[_ Hb]|[_ Hw]]; [|by exists t].
  assert (forall u, ctl_owner s = Some u -> exists u, work (step (AStep u true) s) < work s) as Hctl.
  { intros u Hu. apply (iv_ctl _ Hi) in Hu as (q & Hq & Hh). destruct (thread_step_cases s u true q Hi Hq) as [[_ Hbu]|[_ Hw]]; [|by exists u].
    destruct q; try done. by destruct Hbu. }
  assert (forall u, build_owner s = Some u -> exists u, work (step (AStep u true) s) < work s) as Hbuild.
  { intros u Hu. apply (iv_build _ Hi) in Hu as (q & Hq & Hh). destruct (thread_step_cases s u true q Hi Hq) as [[_ Hbu]|[_ Hw]]; [|by exists u].
    destruct q; try done. destruct Hbu as [v Hv]. by eapply Hctl. }
  destruct p; try done; cbn in Hb; try (by destruct Hb as [u Hu]; eauto).
Qed.

(** C25: the locks of the server cannot be deadlocked by requests: however the
    requests to build, start, run and tear down simulations are interleaved, as long
    as one of them is not finished some thread can perform its next critical section
    (a simulation that is running being allowed to end), every critical section
    performed brings all of them closer to their end, and a request is kept waiting
    only by a lock that another thread holds or by a simulation that was not told to
    terminate. *)
Theorem server_no_deadlock n l : let s := run l (initial n) in
  (forall t p, threads s !! t = Some p -> p <> Idle -> exists u, work (step (AStep u true) s) < work s) /\
  (forall t p ok, threads s !! t = Some p -> p <> Idle ->
     work (step (AStep t ok) s) < work s \/ (step (AStep t ok) s = s /\ blocked s ok p)).
Proof.
  intros s. assert (inv s) as Hi by (apply grpc_run_inv, grpc_initial_inv). split.
  - intros t p. by apply no_deadlock.
  - intros t p ok Ht _. destruct (thread_step_cases s t ok p Hi Ht) as [H|[_ H]]; [by right|by left].
Qed.

(** ** Requests that do not overlap *)

(** One request, from its start to its end: whether it succeeds, and at most seven
    critical sections. *)
Definition serve (t : nat) (q : Request) (ok : bool) (s : Sys) : Sys :=
  run (AStart t q :: AStep t ok :: replicate 7 (AStep t true)) s.

(** The services agree on the state of the server. *)
Record consistent (s : Sys) : Prop := {
  co_idle t p : threads s !! t = Some p -> p = Idle;
  co_owners : build_owner s = None /\ ctl_owner s = None;
  co_old g : g ∈ torn_down s -> g < next s;
  co_state :
    match build s with
    | NoBench => bench s = None /\ controller s = None /\ monitor s = None /\ scheduler s = None
    | Built g => bench s = Some g /\ controller s = None /\ monitor s = None /\ scheduler s = None /\ g < next s /\ g ∉ torn_down s
    | Initialized => exists g, bench s = Some g /\ g < next s /\
        ((controller s = Some g /\ monitor s = Some g /\ scheduler s = Some g /\ g ∉ torn_down s) \/
         (controller s = None /\ monitor s = None /\ scheduler s = None))
    end }.

Lemma run_cons a l s : run (a :: l) s = run l (step a s).
Proof. done. Qed.

Lemma grpc_step_at t ok b c sc m be td n bo co th p : t < length th ->
  step (AStep t ok) (mkSys b c sc m be td n bo co (<[t := p]> th)) =
  let s := mkSys b c sc m be td n bo co (<[t := p]> th) in
  match p with
  | Idle => s
  | TdScheduler | TdSignal _ | TdController | TdBench | TdMonitor | TdBuild => tear_down_step t p s
  | BuildCheck | BuildStart _ => build_step t p ok s
  | InitCheck _ _ | InitController _ _ | InitMonitor _ _ | InitScheduler _ _ => init_step t p ok s
  | _ => controller_step t p ok s
  end.
Proof. intros Ht. cbn [step]. unfold thread_step. cbn [threads]. rewrite list_lookup_insert_eq by done. by destruct p. Qed.

(** One critical section of the request that is served. *)
Ltac section :=
  rewrite ?list_insert_insert_eq; rewrite run_cons; rewrite grpc_step_at by done;
  cbn [tear_down_step build_step init_step controller_step build controller scheduler monitor bench torn_down next build_owner ctl_owner threads orb negb];
  unfold set_pc, set_build, set_controller, set_ctl_owner, set_scheduler, set_monitor, set_bench, signal;
  cbn [build controller scheduler monitor bench torn_down next build_owner ctl_owner threads];
  rewrite ?list_insert_insert_eq.

(** What a request that is not disturbed does. *)
Definition served (q : Request) (ok : bool) (s : Sys) : Sys :=
  match q with
  | QTearDown => set_build NoBench (next s) None (set_monitor None (set_bench None (set_controller None
                   (signal (scheduler s) (set_scheduler None s)))))
  | QBuild =>
      match build s with
      | NoBench => if ok then set_build (Built (next s)) (S (next s)) None (set_bench (Some (next s)) s) else s
      | _ => s
      end
  | QInit valid _ =>
      match build s with
      | Built g =>
          if negb valid then s else
          let s := set_build Initialized (next s) None s in
          if ok then set_scheduler (Some g) (set_monitor (Some g) (set_controller (Some g) s)) else s
      | _ => s
      end
  | QControl => s
  end.

Lemma serve_served t q ok s : consistent s -> t < length (threads s) -> serve t q ok s = served q ok s.
Proof.
  intros [Hid [Hbo Hco] Hold Hst] Ht. destruct s as [b c sc m be td n bo co th]. cbn in Hid, Hbo, Hco, Ht. subst bo co. clear Hold Hst.
  assert (th !! t = Some Idle) as Et by (apply lookup_lt_is_Some in Ht as [p Ep]; by rewrite (Hid t p Ep) in Ep).
  assert (<[t := Idle]> th = th) as Hth by (by apply list_insert_id).
  unfold serve. cbn [replicate]. rewrite run_cons. cbn [step threads]. rewrite Et. unfold set_pc.
  cbn [build controller scheduler monitor bench torn_down next build_owner ctl_owner threads].
  destruct q as [| |valid r|]; cbn [entry]; section.
  - repeat section. by rewrite Hth.
  - destruct b; [destruct ok|..]; repeat section; by rewrite Hth.
  - destruct valid; cbn [negb]; [|repeat section; rewrite Hth; by destruct b].
    destruct b; [|destruct ok, r|]; repeat section; by rewrite Hth.
  - destruct c; repeat section; by rewrite Hth.
Qed.

(** As long as clients wait for the end of a request before making the next one,
    whichever these are and whether or not they succeed, the services agree with each
    other: none is started without a bench, they all serve the bench that was built
    last, and they never serve a simulation that was torn down. *)
Theorem serve_consistent t q ok s : consistent s -> consistent (serve t q ok s).
Proof.
  intros Hc. destruct (decide (t < length (threads s))) as [Ht|Ht].
  - rewrite serve_served by done. destruct Hc as [Hid [Hbo Hco] Hold Hst]. destruct s as [b c sc m be td n bo co th].
    cbn in Hid, Hbo, Hco, Hold, Hst. subst bo co. destruct q as [| |valid r|]; cbn.
    + split; cbn; [done|done| |done]. intros g'. destruct sc as [g|]; [|apply Hold].
      set_unfold. intros [->|]; [|by auto]. destruct b; naive_solver.
    + destruct b; [destruct ok|..]; try done. split; cbn; try done; [|naive_solver lia]. intros g Hg. apply Hold in Hg. lia.
    + destruct b as [|g|], valid; cbn; try done. destruct Hst as (-> & -> & -> & -> & Hg & Hn).
      destruct ok; (split; cbn; [done..|]); exists g; repeat split; auto 6.
    + done.
  - assert (forall ok s, ~ t < length (threads s) -> step (AStep t ok) s = s) as Hn.
    { intros ok' s' E. cbn [step]. unfold thread_step. by rewrite lookup_ge_None_2 by lia. }
    unfold serve. cbn [replicate]. rewrite run_cons. cbn [step]. rewrite lookup_ge_None_2 by lia.
    by do 8 rewrite run_cons, Hn by done.
Qed.

(** ** Requests that overlap *)

(** The initialization of a simulation and the end of the previous one: the scheduler is
    stopped and the controller halted before they are started, the bench, the monitor
    and the build service after, so that a simulation stays that can be run although
    the server reports that there is none. *)
Example tear_down_races_init :
  let s := run ([AStart 0 QBuild; AStep 0 true; AStep 0 true; AStart 1 QTearDown; AStep 1 true; AStep 1 true; AStep 1 true;
                 AStart 0 (QInit true false)] ++ replicate 4 (AStep 0 true) ++ replicate 3 (AStep 1 true)) (initial 2) in
  threads s = [Idle; Idle] /\ build s = NoBench /\ bench s = None /\ monitor s = None /\
  controller s = Some 0 /\ scheduler s = Some 0.
Proof. by vm_compute. Qed.

(** A simulation that is started and run between the first two critical sections of
    [tear_down] is not told to terminate: the request waits for the end of its run. *)
Example tear_down_waits_for_run :
  let s := run ([AStart 0 QBuild; AStep 0 true; AStep 0 true; AStart 1 QTearDown; AStep 1 true;
                 AStart 0 (QInit true true)] ++ replicate 5 (AStep 0 true) ++ [AStep 1 true]) (initial 2) in
  threads s = [CtlExec 0; TdController] /\ torn_down s = [] /\
  step (AStep 0 false) s = s /\ step (AStep 1 false) s = s.
Proof. by vm_compute. Qed.
End Grpc.
