(* ===== verification/Handlers.v ===== *)
(** * The requests of the server: [server/services.rs]

    [GrpcSimulationService] with its five services as they are modelled in
    [BuildService], [ControllerService], [SchedulerService], [MonitorService] and
    [BenchService], and the handler of each request: the calls made to the services
    and the reply made of their results.  A handler is given a state that no other
    request changes before it ends, apart from what the simulation does to the state
    it shares with the scheduler; interleaved handlers are the subject of [Grpc], of
    which the handlers here are shown to be a refinement.

    The simulation and the handles on its state are separate objects of the
    code.  Here the state they share is in the simulation, in the bench before there is
    a simulation, and in the field [detached] when neither is left. *)

From S2P Require Import Prelude Path Errors Time SyncCell PriorityQueue QueueItems IndexedPriorityQueue KeyRegistry Endpoints Effects.
From S2P Require Import Scheduler SchedulerFacts Simulation SimulationTheorems Protocol Cbor SimInit SchedulerService ControllerService MonitorService.
From S2P Require Import BenchService BuildService Grpc.
From stdpp Require Import strings.

Module Handlers.
Import Items Endpoints Protocol.

(** ** Replies *)

(** Those with a list next to the result. *)
Record ListReply (A : Type) : Type := mkListReply { items : list A; result : Result unit Error }.
Arguments mkListReply {A}. Arguments items {A}. Arguments result {A}.
Definition list_reply {A} (r : Result (list A) Error) : ListReply A :=
  match r with Ok l => mkListReply l (Ok tt) | Err e => mkListReply [] (Err e) end.

Record EventKey : Type := mkEventKey { subkey1 : nat; subkey2 : Z }.
Inductive ScheduleEventReply : Type :=
  | KeyReply (k : EventKey)
  | EmptyReply
  | ErrorReply (e : Error).
Definition schedule_event_reply (r : Result (option KeyRegistry.KeyRegistryId) Error) : ScheduleEventReply :=
  match r with
  | Ok (Some key_id) => let '(k1, k2) := Ipq.into_raw_parts key_id in KeyReply (mkEventKey k1 k2)
  | Ok None => EmptyReply
  | Err e => ErrorReply e
  end.

Section Server.
Context `{CB : Ciborium} {T : Type} `{PT : ProtoTime T}.
Context {SQ IQ : Type} `{SPQ : !StablePQ (T * Z) QueueItem SQ} `{IPQ : !StablePQ Z InjectorItem IQ}.
Context {X C Tk : Type} `{HO : !Host T SQ IQ X C Tk}.
Notation Sm := (Simulation T SQ IQ X C Tk).
Notation Sh := (Shared T SQ IQ).
Notation Bn := (@SimInit.SimInit _ T SQ IQ X C Tk).
Notation Build := (@BuildService.BuildService _ T SQ IQ X C Tk).
Notation Controller := (@ControllerService.ControllerService _ T SQ IQ X C Tk).
Notation Sched := (@SchedulerService.SchedulerService _ T).
Notation Sinks := (gmap Path.Path (option SinkEntry)).

Record GrpcSimulationService : Type := mkGrpc {
  build_service : Build;
  controller_service : Controller;
  scheduler_service : Sched;
  monitor_service : MonitorService.MonitorService;
  bench_service : BenchService.BenchService;
  detached : Sh }.

(** The user's generator of benches, [SimInit::restore], [Simulation::save], and
    what happens to the shared state while a request is served. *)
Context (sim_gen : nat -> bytes -> @BuildService.GenResult _ T SQ IQ X C Tk).
Context (bench_restore : bytes -> Bn -> Outcome (SimulationError T) Sm).
Context (sim_save : Eff Sm (ExecutionError T) bytes).
Context (others : nat -> Sh -> Sh).

Definition new (none : Sh) : GrpcSimulationService :=
  mkGrpc BuildService.new ControllerService.Halted SchedulerService.Halted MonitorService.Halted BenchService.Halted none.

Definition set_build (b : Build) (s : GrpcSimulationService) : GrpcSimulationService :=
  mkGrpc b (controller_service s) (scheduler_service s) (monitor_service s) (bench_service s) (detached s).
Definition set_controller (c : Controller) (s : GrpcSimulationService) : GrpcSimulationService :=
  mkGrpc (build_service s) c (scheduler_service s) (monitor_service s) (bench_service s) (detached s).
Definition set_scheduler (c : Sched) (s : GrpcSimulationService) : GrpcSimulationService :=
  mkGrpc (build_service s) (controller_service s) c (monitor_service s) (bench_service s) (detached s).
Definition set_monitor (m : MonitorService.MonitorService) (s : GrpcSimulationService) : GrpcSimulationService :=
  mkGrpc (build_service s) (controller_service s) (scheduler_service s) m (bench_service s) (detached s).
Definition set_bench (b : BenchService.BenchService) (s : GrpcSimulationService) : GrpcSimulationService :=
  mkGrpc (build_service s) (controller_service s) (scheduler_service s) (monitor_service s) b (detached s).
Definition set_detached (x : Sh) (s : GrpcSimulationService) : GrpcSimulationService :=
  mkGrpc (build_service s) (controller_service s) (scheduler_service s) (monitor_service s) (bench_service s) x.

(** The state that the scheduler and the injector refer to. *)
Definition current_shared (s : GrpcSimulationService) : Sh :=
  match controller_service s with
  | ControllerService.Started sim _ _ => Simulation.shared sim
  | ControllerService.Halted =>
      match BuildService.state (build_service s) with
      | BuildService.Built b _ _ _ => SimInit.shared b
      | _ => detached s
      end
  end.
Definition bench_with_shared (x : Sh) (b : Bn) : Bn :=
  SimInit.mkInit (SimInit.executor b) x (SimInit.endpoints b) (SimInit.is_resumed b) (SimInit.clock b)
    (SimInit.clock_tolerance b) (SimInit.ticker b) (SimInit.timeout b) (SimInit.observers b) (SimInit.registered_models b)
    (SimInit.post_init_callback b) (SimInit.post_restore_callback b).
Definition with_current (x : Sh) (s : GrpcSimulationService) : GrpcSimulationService :=
  match controller_service s with
  | ControllerService.Started sim es qs => set_controller (ControllerService.Started (with_shared x sim) es qs) s
  | ControllerService.Halted =>
      match BuildService.state (build_service s) with
      | BuildService.Built b sinks es qs =>
          set_build (BuildService.mkBuild (BuildService.calls (build_service s)) (BuildService.Built (bench_with_shared x b) sinks es qs)) s
      | _ => set_detached x s
      end
  end.

(** The end of a handler: the reply and the state of the server; a panic, which
    poisons the mutex of the service; a loop of the simulation that needs more fuel. *)
Inductive Served (A : Type) : Type :=
  | Reply (a : A) (s : GrpcSimulationService)
  | Crashed
  | Running.
Arguments Reply {A}. Arguments Crashed {A}. Arguments Running {A}.

Definition answer {A} (r : Outcome Error A) (s : GrpcSimulationService) : Served (Result A Error) :=
  match r with Val a => Reply (Ok a) s | Fail e => Reply (Err e) s | Panic => Crashed end.
Definition reply_map {A B} (f : A -> B) (r : Served A) : Served B :=
  match r with Reply a s => Reply (f a) s | Crashed => Crashed | Running => Running end.
Definition and_then {A B} (r : Served (Result A Error)) (f : A -> GrpcSimulationService -> Served (Result B Error))
    : Served (Result B Error) :=
  match r with
  | Reply (Ok a) s => f a s
  | Reply (Err e) s => Reply (Err e) s
  | Crashed => Crashed
  | Running => Running
  end.

(** ** Life cycle *)
Definition execute_controller_fn {A} (f : Controller -> option (Outcome Error A * Controller)) (s : GrpcSimulationService)
    : Served (Result A Error) :=
  match f (controller_service s) with
  | None => Running
  | Some (r, c) => answer r (set_controller c s)
  end.

Definition start_init_services (infos : gmap Path.Path string) (es : gmap Path.Path EventSourceEntry)
    (qs : gmap Path.Path QuerySourceEntry) (s : GrpcSimulationService) : GrpcSimulationService :=
  set_bench (BenchService.Started (BenchService.mkRegistries infos es qs)) s.

Definition start_simulation_services (sim : Sm) (sinks : Sinks) (es : gmap Path.Path EventSourceEntry)
    (qs : gmap Path.Path QuerySourceEntry) (s : GrpcSimulationService) : GrpcSimulationService :=
  let s := set_controller (ControllerService.Started sim es qs) s in
  let s := set_monitor (MonitorService.Started sinks) s in
  set_scheduler (SchedulerService.Started (SchedulerService.mkResources es qs KeyRegistry.default_registry)) s.

Definition tear_down (s : GrpcSimulationService) : Served (Result unit Error) :=
  let scheduler := scheduler_service s in
  let s := set_scheduler SchedulerService.Halted s in
  let s := match scheduler with
           | SchedulerService.Started _ => with_current (exec (E := Error) Scheduler.tear_down (current_shared s)) s
           | SchedulerService.Halted => s
           end in
  let s := set_detached (current_shared s) s in
  let s := set_controller ControllerService.Halted s in
  let s := set_bench BenchService.Halted s in
  let s := set_monitor MonitorService.Halted s in
  Reply (Ok tt) (set_build (BuildService.reset_state (build_service s)) s).

Definition build (cfg : bytes) (s : GrpcSimulationService) : Served (Result unit Error) :=
  let '(r, b) := BuildService.build sim_gen cfg (build_service s) in
  let s := set_build b s in
  match r with
  | Ok (infos, es, qs) => Reply (Ok tt) (start_init_services infos es qs s)
  | Err e => Reply (Err e) s
  end.

(** The common part of [init] and [restore]: the simulation that is made, if any, is
    handed over to the services. *)
Definition hand_over (made : Outcome Error (Sm * Sinks * gmap Path.Path EventSourceEntry * gmap Path.Path QuerySourceEntry) * Build)
    (s : GrpcSimulationService) : Served (Result unit Error) :=
  let '(r, b) := made in
  let s := set_build b (match BuildService.state (build_service s) with
                        | BuildService.Built b _ _ _ => set_detached (SimInit.shared b) s
                        | _ => s
                        end) in
  match r with
  | Val (sim, sinks, es, qs) => Reply (Ok tt) (start_simulation_services sim sinks es qs s)
  | Fail e => Reply (Err e) s
  | Panic => Crashed
  end.

Definition init (time : option Timestamp) (s : GrpcSimulationService) : Served (Result unit Error) :=
  hand_over (BuildService.bld_init time (build_service s)) s.
Definition restore (st : bytes) (s : GrpcSimulationService) : Served (Result unit Error) :=
  hand_over (BuildService.bld_restore bench_restore st (build_service s)) s.

Definition init_and_run (fuel : nat) (time : option Timestamp) (s : GrpcSimulationService) : Served (Result Timestamp Error) :=
  and_then (init time s) (fun _ => execute_controller_fn (ControllerService.ctl_run fuel)).
Definition restore_and_run (fuel : nat) (st : bytes) (s : GrpcSimulationService) : Served (Result Timestamp Error) :=
  and_then (restore st s) (fun _ => execute_controller_fn (ControllerService.ctl_run fuel)).

(** ** Bench service *)
Definition list_event_sources (s : GrpcSimulationService) : ListReply Path.Path :=
  list_reply (BenchService.bs_list_event_sources (bench_service s)).
Definition get_event_source_schemas (paths : list Path.Path) (s : GrpcSimulationService) : ListReply (Path.Path * string) :=
  list_reply (BenchService.get_event_source_schemas paths (bench_service s)).
Definition list_query_sources (s : GrpcSimulationService) : ListReply Path.Path :=
  list_reply (BenchService.bs_list_query_sources (bench_service s)).
Definition get_query_source_schemas (paths : list Path.Path) (s : GrpcSimulationService) : ListReply (Path.Path * (string * string)) :=
  list_reply (BenchService.get_query_source_schemas paths (bench_service s)).
Definition list_event_sinks (s : GrpcSimulationService) : ListReply Path.Path :=
  list_reply (BenchService.bs_list_event_sinks (bench_service s)).
Definition get_event_sink_schemas (paths : list Path.Path) (s : GrpcSimulationService) : ListReply (Path.Path * string) :=
  list_reply (BenchService.get_event_sink_schemas paths (bench_service s)).
Definition inject_event (source_path : option Path.Path) (event : bytes) (s : GrpcSimulationService) : Served (Result unit Error) :=
  let '(r, x) := BenchService.bs_inject_event source_path event (bench_service s) (current_shared s) in
  answer r (with_current x s).

(** ** Controller service *)
Definition save (s : GrpcSimulationService) : Served (Result bytes Error) :=
  execute_controller_fn (fun c => Some (ControllerService.ctl_save sim_save c)) s.
Definition step (s : GrpcSimulationService) : Served (Result Timestamp Error) :=
  execute_controller_fn (fun c => Some (ControllerService.ctl_step c)) s.
Definition step_until (fuel : nat) (deadline : option SchedulerService.RequestDeadline) (s : GrpcSimulationService)
    : Served (Result Timestamp Error) :=
  execute_controller_fn (ControllerService.ctl_step_until fuel deadline) s.
Definition run (fuel : nat) (s : GrpcSimulationService) : Served (Result Timestamp Error) :=
  execute_controller_fn (ControllerService.ctl_run fuel) s.
Definition process_event (source_path : option Path.Path) (event : bytes) (s : GrpcSimulationService) : Served (Result unit Error) :=
  execute_controller_fn (fun c => Some (ControllerService.ctl_process_event source_path event c)) s.
Definition process_query (source_path : option Path.Path) (request : bytes) (s : GrpcSimulationService) : Served (ListReply bytes) :=
  reply_map list_reply (execute_controller_fn (fun c => Some (ControllerService.ctl_process_query source_path request c)) s).

(** ** Scheduler service *)
Definition on_scheduler {A} (m : Eff (@SchedulerService.State _ T SQ IQ) Error A) (s : GrpcSimulationService) : Served (Result A Error) :=
  let '(r, st) := m (SchedulerService.mkState (scheduler_service s) (current_shared s)) in
  answer r (with_current (SchedulerService.sh st) (set_scheduler (SchedulerService.service st) s)).

Definition time (s : GrpcSimulationService) : Served (Result Timestamp Error) :=
  on_scheduler (SchedulerService.srv_time others) s.
Definition halt (s : GrpcSimulationService) : Served (Result unit Error) :=
  on_scheduler (SchedulerService.srv_halt others) s.
Definition schedule_event (request : SchedulerService.ScheduleEventRequest) (s : GrpcSimulationService) : Served ScheduleEventReply :=
  reply_map schedule_event_reply (on_scheduler (SchedulerService.srv_schedule_event others request) s).
Definition cancel_event (key : option EventKey) (s : GrpcSimulationService) : Served (Result unit Error) :=
  on_scheduler (SchedulerService.srv_cancel_event others
    (SchedulerService.mkCancelEvent ((fun k => (subkey1 k, subkey2 k)) <$> key))) s.
(** The reply is made when the replies have come in; the scheduler is not locked
    any more. *)
Definition schedule_query (replies : ReplyReader -> option (list Value)) (request : SchedulerService.ScheduleQueryRequest)
    (s : GrpcSimulationService) : Served (ListReply bytes) :=
  reply_map list_reply (and_then (on_scheduler (SchedulerService.srv_schedule_query others request) s)
    (fun '(rx, R) => answer (SchedulerService.schedule_query_reply R (replies rx)))).

(** ** Monitor service *)
Definition try_read_events (available : list Value) (path : option Path.Path) (s : GrpcSimulationService) : ListReply bytes :=
  list_reply (MonitorService.try_read_events available path (monitor_service s)).1.
Definition enable_sink (path : option Path.Path) (s : GrpcSimulationService) : Result unit Error :=
  (MonitorService.enable_sink path (monitor_service s)).1.
Definition disable_sink (path : option Path.Path) (s : GrpcSimulationService) : Result unit Error :=
  (MonitorService.disable_sink path (monitor_service s)).1.
(** The wait ends as [w] says, the client does not go away. *)
Definition read_event (path : option Path.Path) (timeout : option PDuration) (w : MonitorService.WaitEnd) (s : GrpcSimulationService)
    : Served (option (Result bytes Error)) :=
  match MonitorService.read_begin path timeout (monitor_service s) with
  | None => Crashed
  | Some (Err e, m) => Reply (Some (Err e)) (set_monitor m s)
  | Some (Ok g, m) =>
      match MonitorService.read_end w g m with
      | None => Crashed
      | Some (r, m) => Reply r (set_monitor m s)
      end
  end.

(** ** All requests *)
Inductive Request : Type :=
  | RTearDown | RBuild (cfg : bytes)
  | RInit (time : option Timestamp) | RInitAndRun (fuel : nat) (time : option Timestamp)
  | RRestore (st : bytes) | RRestoreAndRun (fuel : nat) (st : bytes)
  | RListEventSources | RGetEventSourceSchemas (paths : list Path.Path)
  | RListQuerySources | RGetQuerySourceSchemas (paths : list Path.Path)
  | RListEventSinks | RGetEventSinkSchemas (paths : list Path.Path)
  | RInjectEvent (source_path : option Path.Path) (event : bytes)
  | RSave | RStep | RStepUntil (fuel : nat) (deadline : option SchedulerService.RequestDeadline) | RRun (fuel : nat)
  | RProcessEvent (source_path : option Path.Path) (event : bytes)
  | RProcessQuery (source_path : option Path.Path) (request : bytes)
  | RTime | RHalt
  | RScheduleEvent (request : SchedulerService.ScheduleEventRequest) | RCancelEvent (key : option EventKey)
  | RScheduleQuery (replies : ReplyReader -> option (list Value)) (request : SchedulerService.ScheduleQueryRequest)
  | RTryReadEvents (available : list Value) (path : option Path.Path)
  | RReadEvent (path : option Path.Path) (timeout : option PDuration) (w : MonitorService.WaitEnd)
  | REnableSink (path : option Path.Path) | RDisableSink (path : option Path.Path).

Definition error_of {A} (r : Result A Error) : option Error := match r with Ok _ => None | Err e => Some e end.
Definition list_error {A} (r : ListReply A) : option Error := error_of (result r).
Definition schedule_error (r : ScheduleEventReply) : option Error := match r with ErrorReply e => Some e | _ => None end.

(** The state after a request and the error of its reply. *)
Definition handle (q : Request) (s : GrpcSimulationService) : Served (option Error) :=
  match q with
  | RTearDown => reply_map error_of (tear_down s)
  | RBuild cfg => reply_map error_of (build cfg s)
  | RInit time => reply_map error_of (init time s)
  | RInitAndRun fuel time => reply_map error_of (init_and_run fuel time s)
  | RRestore st => reply_map error_of (restore st s)
  | RRestoreAndRun fuel st => reply_map error_of (restore_and_run fuel st s)
  | RListEventSources => Reply (list_error (list_event_sources s)) s
  | RGetEventSourceSchemas paths => Reply (list_error (get_event_source_schemas paths s)) s
  | RListQuerySources => Reply (list_error (list_query_sources s)) s
  | RGetQuerySourceSchemas paths => Reply (list_error (get_query_source_schemas paths s)) s
  | RListEventSinks => Reply (list_error (list_event_sinks s)) s
  | RGetEventSinkSchemas paths => Reply (list_error (get_event_sink_schemas paths s)) s
  | RInjectEvent path event => reply_map error_of (inject_event path event s)
  | RSave => reply_map error_of (save s)
  | RStep => reply_map error_of (step s)
  | RStepUntil fuel deadline => reply_map error_of (step_until fuel deadline s)
  | RRun fuel => reply_map error_of (run fuel s)
  | RProcessEvent path event => reply_map error_of (process_event path event s)
  | RProcessQuery path request => reply_map list_error (process_query path request s)
  | RTime => reply_map error_of (time s)
  | RHalt => reply_map error_of (halt s)
  | RScheduleEvent request => reply_map schedule_error (schedule_event request s)
  | RCancelEvent key => reply_map error_of (cancel_event key s)
  | RScheduleQuery replies request => reply_map list_error (schedule_query replies request s)
  | RTryReadEvents available path => Reply (list_error (try_read_events available path s)) s
  | RReadEvent path timeout w => reply_map (mbind error_of) (read_event path timeout w s)
  | REnableSink path => Reply (error_of (enable_sink path s)) s
  | RDisableSink path => Reply (error_of (disable_sink path s)) s
  end.

(** One after the other; the errors of the replies. *)
Fixpoint handle_all (qs : list Request) (s : GrpcSimulationService) : Served (list (option Error)) :=
  match qs with
  | [] => Reply [] s
  | q :: qs =>
      match handle q s with
      | Reply e s => reply_map (cons e) (handle_all qs s)
      | Crashed => Crashed
      | Running => Running
      end
  end.

(** The requests that are replied to, up to the first one that panics or needs more fuel: the errors of the replies
    and the state after them. *)
Fixpoint handle_prefix (qs : list Request) (s : GrpcSimulationService) : list (option Error) * GrpcSimulationService :=
  match qs with
  | [] => ([], s)
  | q :: qs =>
      match handle q s with
      | Reply e s => let '(es, s) := handle_prefix qs s in (e :: es, s)
      | _ => ([], s)
      end
  end.
End Server.
Arguments Reply {_ _ _ _ _ _ _ _}. Arguments Crashed {_ _ _ _ _ _ _ _}. Arguments Running {_ _ _ _ _ _ _ _}.

(** ** Refinement of the life cycle *)
Section Refinement.
Context `{CB : Ciborium} {T : Type} `{PT : ProtoTime T}.
Context {SQ IQ : Type} `{SPQ : !StablePQ (T * Z) QueueItem SQ} `{IPQ : !StablePQ Z InjectorItem IQ}.
Context {X C Tk : Type} `{HO : !Host T SQ IQ X C Tk}.
Notation Server := (@GrpcSimulationService _ T SQ IQ X C Tk).
Context (sim_gen : nat -> bytes -> @BuildService.GenResult _ T SQ IQ X C Tk).
Context (bench_restore : bytes -> @SimInit.SimInit _ T SQ IQ X C Tk -> Outcome (SimulationError T) (Simulation T SQ IQ X C Tk)).
Context (sim_save : Eff (Simulation T SQ IQ X C Tk) (ExecutionError T) bytes).
Context (others : nat -> Shared T SQ IQ -> Shared T SQ IQ).
Notation handle := (handle sim_gen bench_restore sim_save others).
Notation handle_all := (handle_all sim_gen bench_restore sim_save others).
Notation handle_prefix := (handle_prefix sim_gen bench_restore sim_save others).

Definition controller_up (s : Server) : bool :=
  match controller_service s with ControllerService.Started _ _ _ => true | ControllerService.Halted => false end.
Definition scheduler_up (s : Server) : bool :=
  match scheduler_service s with SchedulerService.Started _ => true | SchedulerService.Halted => false end.
Definition monitor_up (s : Server) : bool :=
  match monitor_service s with MonitorService.Started _ => true | MonitorService.Halted => false end.
Definition bench_up (s : Server) : bool :=
  match bench_service s with BenchService.Started _ => true | BenchService.Halted => false end.
Definition up (o : option nat) : bool := match o with Some _ => true | None => false end.

(** The phase of the build service and the services that are started. *)
Definition build_phase (s : Server) : nat :=
  match BuildService.state (build_service s) with BuildService.NoBench => 0 | BuildService.Built _ _ _ _ => 1 | BuildService.Initialized => 2 end.
Definition abstract_phase (a : Grpc.Sys) : nat :=
  match Grpc.build a with Grpc.NoBench => 0 | Grpc.Built _ => 1 | Grpc.Initialized => 2 end.
Definition phases (s : Server) : nat * bool * bool * bool * bool :=
  (build_phase s, bench_up s, controller_up s, monitor_up s, scheduler_up s).
Definition abstract_phases (a : Grpc.Sys) : nat * bool * bool * bool * bool :=
  (abstract_phase a, up (Grpc.bench a), up (Grpc.controller a), up (Grpc.monitor a), up (Grpc.scheduler a)).

(** The requests of [Grpc]; the others do not concern the life cycle. *)
Definition time_valid (time : option Timestamp) : bool :=
  match (t ← time; timestamp_to_monotonic (T := T) t) with Some _ => true | None => false end.
Definition abstract_request (q : Request) : option Grpc.Request :=
  match q with
  | RTearDown => Some Grpc.QTearDown
  | RBuild _ => Some Grpc.QBuild
  | RInit time => Some (Grpc.QInit (time_valid time) false)
  | RInitAndRun _ time => Some (Grpc.QInit (time_valid time) true)
  | RRestore _ => Some (Grpc.QInit true false)
  | RRestoreAndRun _ _ => Some (Grpc.QInit true true)
  | RSave | RStep | RStepUntil _ _ | RRun _ | RProcessEvent _ _ | RProcessQuery _ _ => Some Grpc.QControl
  | _ => None
  end.
Definition abstract_serve (q : Request) (ok : bool) (a : Grpc.Sys) : Grpc.Sys :=
  match abstract_request q with Some r => Grpc.serve 0 r ok a | None => a end.

(** No request to a service starts or halts it. *)
Definition same_up (s s' : @SchedulerService.State _ T SQ IQ) : Prop :=
  match SchedulerService.service s, SchedulerService.service s' with
  | SchedulerService.Halted, SchedulerService.Halted | SchedulerService.Started _, SchedulerService.Started _ => True
  | _, _ => False
  end.
Definition same_ctl (c c' : @ControllerService.ControllerService _ T SQ IQ X C Tk) : Prop :=
  match c, c' with
  | ControllerService.Halted, ControllerService.Halted | ControllerService.Started _ _ _, ControllerService.Started _ _ _ => True
  | _, _ => False
  end.
#[local] Instance same_up_refl : Reflexive same_up.
Proof. intros [[|r] x]; done. Qed.
#[local] Instance same_up_trans : Transitive same_up.
Proof. by intros [[|r] x] [[|r'] x'] [[|r''] x'']. Qed.
#[local] Instance same_ctl_refl : Reflexive same_ctl.
Proof. intros [|sim es qs]; done. Qed.
#[local] Instance same_ctl_trans : Transitive same_ctl.
Proof. by intros [|sim es qs] [|sim' es' qs'] [|sim'' es'' qs'']. Qed.

Lemma respects_map_err {S E E' A} (R : S -> S -> Prop) (f : E -> E') (m : Eff S E A) : respects R m -> respects R (Cbor.map_err f m).
Proof. intros H s r s'. unfold Cbor.map_err. destruct (m s) as [[a|e|] s1] eqn:Em; intros [= _ <-]; by eapply H. Qed.

Lemma up_started : respects same_up SchedulerService.started.
Proof. intros [[|r] x] r' s'; by intros [= _ <-]. Qed.
Lemma up_keys {A} (f : @KeyRegistry.KeyRegistry T -> option (A * @KeyRegistry.KeyRegistry T)) : respects same_up (SchedulerService.on_keys f).
Proof.
  intros [[|r] x] r' s'; unfold SchedulerService.on_keys; cbn; [by intros [= _ <-]|].
  destruct (f _) as [[a k]|]; by intros [= _ <-].
Qed.
Lemma up_shared {E A} (m : Eff (Shared T SQ IQ) E A) : respects same_up (SchedulerService.on_shared m).
Proof. intros [[|r] x] r' s'; unfold SchedulerService.on_shared; cbn; destruct (m x); by intros [= _ <-]. Qed.
Lemma up_interfere i : respects same_up (SchedulerService.interfere others i).
Proof. intros [[|r] x] r' s'; by intros [= _ <-]. Qed.
Lemma ctl_sim {A} (m : Eff (Simulation T SQ IQ X C Tk) (ExecutionError T) A) : respects same_ctl (ControllerService.on_simulation m).
Proof.
  intros [|sim es qs] r c'; unfold ControllerService.on_simulation; [by intros [= _ <-]|].
  destruct (Cbor.map_err _ m sim); by intros [= _ <-].
Qed.
Lemma ctl_regs : respects same_ctl ControllerService.controller_registries.
Proof. intros [|sim es qs] r c'; by intros [= _ <-]. Qed.

(** A computation made of these. *)
Ltac keeps :=
  repeat match goal with
  | |- respects _ (_ ≫= _) => apply respects_bind; [apply _| |intros ?]
  | |- respects _ (Cbor.map_err _ _) => apply respects_map_err
  | |- respects _ (match ?x with _ => _ end) => destruct x
  | |- respects _ (let '(_, _) := ?x in _) => destruct x
  | |- respects _ (liftO _) => apply respects_liftO, _
  | |- respects _ (mret _) => apply respects_ret, _
  | |- respects _ (throw _) => apply respects_throw, _
  | |- respects _ (gets _) => apply respects_gets, _
  | |- respects _ (SchedulerService.started) => apply up_started
  | |- respects _ (SchedulerService.on_keys _) => apply up_keys
  | |- respects _ (SchedulerService.on_shared _) => apply up_shared
  | |- respects _ (SchedulerService.interfere _ _) => apply up_interfere
  | |- respects _ (ControllerService.on_simulation _) => apply ctl_sim
  | |- respects _ (ControllerService.controller_registries) => apply ctl_regs
  | |- respects _ ?m => progress unfold SchedulerService.require, SchedulerService.endpoint, SchedulerService.fail,
      SchedulerService.scheduler_time, SchedulerService.match_deadline, SchedulerService.parse_period, SchedulerService.make_event,
      SchedulerService.register_key, ControllerService.final_time, ControllerService.require_, ControllerService.collect_replies
  end.

Lemma up_requests :
  respects same_up (SchedulerService.srv_time others) /\ respects same_up (SchedulerService.srv_halt others) /\
  (forall r, respects same_up (SchedulerService.srv_schedule_event others r)) /\
  (forall r, respects same_up (SchedulerService.srv_cancel_event others r)) /\
  (forall r, respects same_up (SchedulerService.srv_schedule_query others r)).
Proof.
  split_and!; intros; unfold SchedulerService.srv_time, SchedulerService.srv_halt, SchedulerService.srv_schedule_event,
    SchedulerService.srv_cancel_event, SchedulerService.srv_schedule_query; keeps.
Qed.

Lemma ctl_requests :
  respects same_ctl (ControllerService.ctl_save sim_save) /\ respects same_ctl ControllerService.ctl_step /\
  (forall p b, respects same_ctl (ControllerService.ctl_process_event p b)) /\
  (forall p b, respects same_ctl (ControllerService.ctl_process_query p b)) /\
  (forall f c r c', ControllerService.looping f c = Some (r, c') -> same_ctl c c').
Proof.
  split_and!; intros; unfold ControllerService.ctl_save, ControllerService.ctl_step, ControllerService.ctl_process_event,
    ControllerService.ctl_process_query; try (by keeps).
  destruct c as [|sim es qs]; cbn in *; [by simplify_eq|]. destruct (f sim) as [[r' sim']|]; [|done].
  cbn -[mbind] in H. injection H as H. revert H.
  assert (respects same_ctl (ControllerService.on_simulation (fun _ => (r', sim'));; ControllerService.final_time)) as Hr by keeps.
  apply Hr.
Qed.

Lemma with_current_phases x s : phases (with_current x s) = phases s.
Proof.
  destruct s as [[n st] [|sim es qs] sc m b d]; unfold with_current; cbn; [|done]. by destruct st.
Qed.

Lemma on_scheduler_phases {A} (m : Eff _ Error A) s r s' : respects same_up m -> on_scheduler m s = Reply r s' -> phases s' = phases s.
Proof.
  intros Hm. unfold on_scheduler. destruct (m _) as [o st] eqn:E. apply Hm in E. unfold same_up in E. cbn in E.
  destruct o; cbn; intros [= _ <-]; rewrite with_current_phases; unfold phases, scheduler_up; cbn;
    destruct (scheduler_service s), (SchedulerService.service st); done.
Qed.

Lemma controller_phases {A} f s (r : Result A Error) s' : (forall c o c', f c = Some (o, c') -> same_ctl c c') ->
  execute_controller_fn f s = Reply r s' -> phases s' = phases s.
Proof.
  intros Hf. unfold execute_controller_fn. destruct (f _) as [[o c]|] eqn:E; [|done]. apply Hf in E. unfold same_ctl in E.
  destruct o; cbn; intros [= _ <-]; unfold phases, controller_up; cbn; destruct (controller_service s), c; done.
Qed.

Lemma step_until_ctl fuel dl c o c' : ControllerService.ctl_step_until fuel dl c = Some (o, c') -> same_ctl c c'.
Proof.
  unfold ControllerService.ctl_step_until. destruct c as [|sim es qs]; [by intros [= _ <-]|].
  destruct (ControllerService.parse_deadline dl); [apply ctl_requests|by intros [= _ <-]..].
Qed.

Lemma read_event_phases path d w s r s' : read_event path d w s = Reply r s' -> phases s' = phases s.
Proof.
  assert (forall g m r m', MonitorService.try_return g m = Some (r, m') ->
    match m, m' with MonitorService.Halted, MonitorService.Halted | MonitorService.Started _, MonitorService.Started _ => True | _, _ => False end) as Hret.
  { intros g [|reg] r0 m'; cbn; [by intros [= _ <-]|]. destruct (replace_entry _ _ _) as [[u|u] reg']; by intros [= _ <-]. }
  unfold read_event, MonitorService.read_begin. unfold phases at 2. unfold monitor_up.
  destruct path as [path|]; [|by intros [= _ <-]]. unfold MonitorService.try_new. destruct (monitor_service s) as [|reg] eqn:Em.
  { intros [= _ <-]. by unfold phases, monitor_up. }
  destruct (rent_entry reg path) as [[e|e] reg']; [|intros [= _ <-]; by unfold phases, monitor_up].
  assert (forall w g m' r m'', MonitorService.read_end w g (MonitorService.Started m') = Some (r, m'') ->
    match m'' with MonitorService.Started _ => True | _ => False end) as Hend.
  { intros w0 g m' r0 m''. unfold MonitorService.read_end. destruct (MonitorService.try_return _ _) as [[r1 m1]|] eqn:E; [|done].
    apply Hret in E. cbn. by intros [= _ <-]. }
  destruct d as [d|]; [destruct (to_positive_duration d) as [[d'|]|]; [| |done]|]; cbn [mbind option_bind].
  - destruct (MonitorService.read_end _ _ _) as [[r1 m1]|] eqn:E; [|done]. intros [= _ <-]. apply Hend in E. unfold phases, monitor_up; cbn. by destruct m1.
  - destruct (MonitorService.try_return _ _) as [[r1 m1]|] eqn:E; [|done]. intros [= _ <-]. apply Hret in E. unfold phases, monitor_up; cbn. by destruct m1.
  - destruct (MonitorService.read_end _ _ _) as [[r1 m1]|] eqn:E; [|done]. intros [= _ <-]. apply Hend in E. unfold phases, monitor_up; cbn. by destruct m1.
Qed.

Lemma reply_map_inv {A B} (f : A -> B) (r : @Served _ T SQ IQ X C Tk A) b s : reply_map f r = Reply b s -> exists a, r = Reply a s /\ b = f a.
Proof. destruct r; intros [= <- <-]; eauto. Qed.

(** Requests outside the life cycle. *)
Lemma handle_phases q s e s' : abstract_request q = None \/ abstract_request q = Some Grpc.QControl ->
  handle q s = Reply e s' -> phases s' = phases s.
Proof.
  destruct up_requests as (U1 & U2 & U3 & U4 & U5). destruct ctl_requests as (V1 & V2 & V3 & V4 & V5).
  intros Hq. destruct q; cbn [handle]; try (destruct Hq; discriminate); intros H.
  all: try (by injection H as _ <-).
  all: apply reply_map_inv in H as (r & H & _).
  all: try (by eapply read_event_phases).
  all: try (by eapply on_scheduler_phases; [|exact H]).
  all: try (by eapply controller_phases; [|exact H]; intros c o c'; first [apply V5|apply step_until_ctl|intros [= Hc]; first [exact (V1 _ _ _ Hc)|exact (V2 _ _ _ Hc)|exact (V3 _ _ _ _ _ Hc)]]).
  - unfold inject_event in H. destruct (BenchService.bs_inject_event _ _ _ _) as [[a|e'|] x]; cbn in H; simplify_eq;
      apply with_current_phases.
  - apply reply_map_inv in H as (r' & H & _). eapply controller_phases; [|exact H]. intros c o c' [= Hc]. exact (V4 _ _ _ _ _ Hc).
  - apply reply_map_inv in H as (r' & H & _). by eapply on_scheduler_phases; [|exact H].
  - apply reply_map_inv in H as (r' & H & _). unfold and_then in H. destruct (on_scheduler _ s) as [[[rx R]|e'] s1| |] eqn:E; try done.
    + destruct (SchedulerService.schedule_query_reply _ _); cbn in H; simplify_eq; by eapply on_scheduler_phases; [|exact E].
    + simplify_eq. by eapply on_scheduler_phases; [|exact E].
Qed.

(** ** Requests without a simulation *)
Definition needs_simulation (q : Request) : bool :=
  match q with
  | RSave | RStep | RStepUntil _ _ | RRun _ | RProcessEvent _ _ | RProcessQuery _ _ | RTime | RHalt | RScheduleEvent _
  | RCancelEvent _ | RScheduleQuery _ _ | RTryReadEvents _ _ | RReadEvent (Some _) _ _ | REnableSink _ | RDisableSink _ => true
  | _ => false
  end.
Definition needs_bench (q : Request) : bool :=
  match q with
  | RListEventSources | RGetEventSourceSchemas _ | RListQuerySources | RGetQuerySourceSchemas _ | RListEventSinks
  | RGetEventSinkSchemas _ | RInjectEvent _ _ | RRestore _ | RRestoreAndRun _ _ => true
  | RInit t | RInitAndRun _ t => time_valid t
  | _ => false
  end.

Lemma with_current_id (s : Server) : with_current (current_shared s) s = s.
Proof.
  destruct s as [[n st] [|[] es qs] sc m b d]; unfold with_current, current_shared; cbn; [|done]. destruct st as [|[] si es qs|]; done.
Qed.

Lemma on_scheduler_refused {A} (m : Eff (@SchedulerService.State _ T SQ IQ) Error A) (s : Server) e :
  scheduler_service s = SchedulerService.Halted ->
  (forall x, m (SchedulerService.mkState SchedulerService.Halted x) = (Fail e, SchedulerService.mkState SchedulerService.Halted x)) ->
  on_scheduler m s = Reply (Err e) s.
Proof.
  intros Hs Hm. unfold on_scheduler. rewrite Hs, Hm. cbn -[with_current current_shared]. f_equal.
  etransitivity; [|apply with_current_id]. f_equal. destruct s; cbn in *. by subst.
Qed.

(** As long as there is no simulation, every request that needs one is refused
    with [SIMULATION_NOT_STARTED] and leaves the server alone; as long as there is no
    bench, every request that needs one, among them those to start a simulation, is
    refused with [BENCH_NOT_BUILT] and leaves the server alone. *)
Theorem unavailable_refused q s :
  (needs_simulation q = true -> controller_up s = false -> scheduler_up s = false -> monitor_up s = false ->
   handle q s = Reply (Some simulation_not_started_error) s) /\
  (needs_bench q = true -> bench_up s = false -> build_phase s = 0 -> handle q s = Reply (Some bench_not_built_error) s).
Proof.
  split.
  - intros Hq Hc Hs Hm. destruct s as [bd [|] [|] [|] be d]; try done.
    destruct q; try done; cbn [Handlers.handle]; try (destruct path; done).
    all: unfold time, halt, schedule_event, cancel_event, schedule_query; by rewrite (on_scheduler_refused _ _ simulation_not_started_error).
  - intros Hq Hb Hp. destruct s as [[n [| |]] c sc m [|] d]; try done.
    pose proof (with_current_id (mkGrpc (BuildService.mkBuild n BuildService.NoBench) c sc m BenchService.Halted d)) as Hw.
    destruct q; try done; cbn [Handlers.handle].
    + unfold needs_bench, time_valid in Hq. unfold init, BuildService.bld_init. by destruct (_ ≫= _).
    + unfold needs_bench, time_valid in Hq. unfold init_and_run, init, BuildService.bld_init. by destruct (_ ≫= _).
    + unfold inject_event. cbn -[with_current current_shared]. by rewrite Hw.
Qed.
(** ** Life cycle *)

(** What [init] and [restore] do to the phases; [exact]: the reply says whether they have succeeded. *)
Definition inited (exact valid : bool) (e : option Error) (s s' : Server) : Prop :=
  match build_phase s, valid with
  | 1, true => exists ok, phases s' =
           (if ok : bool then (2, bench_up s, true, true, true) else (2, bench_up s, controller_up s, monitor_up s, scheduler_up s)) /\
           (e = None -> ok = true) /\ (exact = true -> ok = true -> e = None)
  | _, _ => phases s' = phases s /\ e <> None
  end.

Lemma hand_over_phases make s r s' : hand_over (BuildService.start make (build_service s)) s = Reply r s' -> inited true true (error_of r) s s'.
Proof.
  destruct s as [[n st] c sc m be d]. unfold hand_over, BuildService.start, inited, build_phase. cbn.
  destruct st as [|b sinks es qs|]; cbn; [by intros [= <- <-]| |by intros [= <- <-]].
  destruct (make b) as [sim|e|]; cbn; intros [= <- <-]; [exists true|exists false]; done.
Qed.

Lemma init_phases time s r s' : init time s = Reply r s' -> inited true (time_valid time) (error_of r) s s'.
Proof.
  unfold init, BuildService.bld_init, time_valid. destruct (_ ≫= _); [apply hand_over_phases|]. unfold inited.
  intros [= <- <-]. destruct s as [[n [| |]] c sc m be d]; done.
Qed.

Lemma build_phases cfg s r s' : build sim_gen cfg s = Reply r s' ->
  match build_phase s with
  | 0 => exists ok, phases s' = (if ok : bool then (1, true, controller_up s, monitor_up s, scheduler_up s) else phases s) /\
                    (error_of r = None <-> ok = true)
  | _ => phases s' = phases s /\ error_of r <> None
  end.
Proof.
  destruct s as [[n st] c sc m be d]. unfold build, BuildService.build, build_phase. cbn.
  destruct st as [|b sinks es qs|]; cbn; [|by intros [= <- <-]..].
  destruct (sim_gen n cfg) as [| |ge|b]; cbn; intros [= <- <-]; [exists false; done..|exists true; done].
Qed.

Lemma and_run_phases valid fuel s (x : Served (Result unit Error)) r s' :
  (forall r s', x = Reply r s' -> inited true valid (error_of r) s s') ->
  and_then x (fun _ => execute_controller_fn (ControllerService.ctl_run fuel)) = Reply r s' -> inited false valid (error_of r) s s'.
Proof.
  intros Hx H. destruct x as [[u|e] s1| |]; cbn in H; [| |done|done].
  - apply controller_phases in H; [|apply ctl_requests]. specialize (Hx _ _ eq_refl). unfold inited in *. rewrite H.
    destruct (build_phase s) as [|[|]], valid; try (by destruct Hx). destruct Hx as (ok & ? & Hok & _). exists ok. split; [done|].
    split; [|done]. intros _. by apply Hok.
  - simplify_eq. specialize (Hx _ _ eq_refl). unfold inited in *. destruct (build_phase s) as [|[|]], valid; try done.
    destruct Hx as (ok & ? & ? & _). by exists ok.
Qed.

(** The reply to a request made to the abstract server in state [a], [ok] saying whether what the request sets out to build succeeds:
    requests that need a simulation or a bench that is not there are refused, a request to tear down succeeds, and a
    request to build or to start a simulation (without running it) succeeds exactly if the server is in the right phase, the
    start time is valid, and the construction succeeds. *)
Definition replied (q : Request) (ok : bool) (a : Grpc.Sys) (e : option Error) : Prop :=
  (needs_simulation q = true -> Grpc.controller a = None -> e = Some simulation_not_started_error) /\
  (needs_bench q = true -> Grpc.bench a = None -> e = Some bench_not_built_error) /\
  match abstract_request q with
  | Some Grpc.QTearDown => e = None
  | Some Grpc.QBuild => e = None <-> Grpc.build a = Grpc.NoBench /\ ok = true
  | Some (Grpc.QInit valid run) =>
      (e = None -> valid = true /\ ok = true /\ exists g, Grpc.build a = Grpc.Built g) /\
      (run = false -> valid = true /\ ok = true -> (exists g, Grpc.build a = Grpc.Built g) -> e = None)
  | _ => True
  end.

Inductive abstract_exec : Grpc.Sys -> list (Request * option Error) -> Grpc.Sys -> Prop :=
  | exec_nil a : abstract_exec a [] a
  | exec_cons a q e ok l a' : replied q ok a e -> abstract_exec (abstract_serve q ok a) l a' -> abstract_exec a ((q, e) :: l) a'.

Lemma inited_refines exact valid r e s s' a : Grpc.consistent a -> phases s = abstract_phases a -> inited exact valid e s s' ->
  exists ok, phases s' = abstract_phases (Grpc.served (Grpc.QInit valid r) ok a) /\
    (e = None -> valid = true /\ ok = true /\ exists g, Grpc.build a = Grpc.Built g) /\
    (exact = true -> valid = true /\ ok = true -> (exists g, Grpc.build a = Grpc.Built g) -> e = None).
Proof.
  intros [_ _ _ Hst] Hp Hi. unfold phases, abstract_phases in Hp. injection Hp as Hb Hbe Hc Hm Hs. unfold inited in Hi. rewrite Hb in Hi.
  unfold abstract_phase in *. cbn [Grpc.served].
  destruct (Grpc.build a) as [|g|] eqn:Ea; cbn in Hi.
  - destruct Hi as [Hi He]. exists true. rewrite Hi. split; [unfold abstract_phases, abstract_phase, phases; rewrite Ea; congruence|].
    split; [done|]. by intros _ _ [? ?].
  - destruct valid; cbn.
    + destruct Hi as (ok & -> & H1 & H2). exists ok. split; [destruct ok; unfold abstract_phases, abstract_phase; cbn; congruence|].
      split; [intros He; split_and!; auto; by exists g|]. intros Hex [_ Hok] _. auto.
    + destruct Hi as [Hi He]. exists true. rewrite Hi. split; [unfold abstract_phases, abstract_phase, phases; rewrite Ea; congruence|].
      split; [done|]. by intros _ [? _].
  - destruct Hi as [Hi He]. exists true. rewrite Hi. split; [unfold abstract_phases, abstract_phase, phases; rewrite Ea; congruence|].
    split; [done|]. by intros _ _ [? ?].
Qed.

Lemma up_none o : up o = false <-> o = None.
Proof. by destruct o. Qed.

(** What is refused. *)
Lemma handle_refused q s e s' a : Grpc.consistent a -> phases s = abstract_phases a -> handle q s = Reply e s' ->
  (needs_simulation q = true -> Grpc.controller a = None -> e = Some simulation_not_started_error) /\
  (needs_bench q = true -> Grpc.bench a = None -> e = Some bench_not_built_error).
Proof.
  intros [_ _ _ Hst] Hp H. unfold phases, abstract_phases in Hp. injection Hp as Hb Hbe Hc Hm Hs.
  destruct (unavailable_refused q s) as [H1 H2]. split.
  - intros Hq Hn. rewrite Hn in Hc. rewrite H1 in H; [by injection H as <- _|done|done|rewrite Hs|rewrite Hm]; apply up_none;
      destruct (Grpc.build a); naive_solver.
  - intros Hq Hn. rewrite Hn in Hbe. rewrite H2 in H; [by injection H as <- _|done|done|]. rewrite Hb. unfold abstract_phase.
    destruct (Grpc.build a); [done|naive_solver..].
Qed.

Lemma handle_refines q s e s' a : Grpc.consistent a -> 0 < length (Grpc.threads a) -> phases s = abstract_phases a ->
  handle q s = Reply e s' -> exists ok, phases s' = abstract_phases (abstract_serve q ok a) /\ replied q ok a e.
Proof.
  intros Ha Ht Hp H. destruct (handle_refused q s e s' a Ha Hp H) as [R1 R2].
  assert (exists ok, phases s' = abstract_phases (abstract_serve q ok a) /\
    match abstract_request q with
    | Some Grpc.QTearDown => e = None
    | Some Grpc.QBuild => e = None <-> Grpc.build a = Grpc.NoBench /\ ok = true
    | Some (Grpc.QInit valid run) =>
        (e = None -> valid = true /\ ok = true /\ exists g, Grpc.build a = Grpc.Built g) /\
        (run = false -> valid = true /\ ok = true -> (exists g, Grpc.build a = Grpc.Built g) -> e = None)
    | _ => True
    end) as (ok & Hok & Hr); [|by exists ok].
  clear R1 R2. unfold abstract_serve.
  destruct (abstract_request q) as [r|] eqn:Eq.
  2: { exists true. split; [|done]. rewrite <- Hp. eapply handle_phases; [by left|done]. }
  assert (r = Grpc.QControl \/ r <> Grpc.QControl) as [->|Hr] by (destruct r; auto).
  { exists true. rewrite Grpc.serve_served by done. cbn. split; [|done]. rewrite <- Hp. eapply handle_phases; [by right|done]. }
  setoid_rewrite Grpc.serve_served; [|done..].
  destruct q; cbn [abstract_request] in Eq; simplify_eq; cbn [Handlers.handle] in H; apply reply_map_inv in H as (o & H & ->).
  - exists true. unfold tear_down in H. injection H as <- <-. split; [|done]. clear. destruct s as [[n [| |]] [|] [|] m be d]; done.
  - apply build_phases in H. unfold phases, abstract_phases in Hp. injection Hp as Hb Hbe Hc Hm Hs. rewrite Hb in H.
    unfold abstract_phase in *. cbn [Grpc.served]. unfold abstract_phases, abstract_phase, phases.
    destruct (Grpc.build a) eqn:Ea; cbn in H.
    + destruct H as [ok [H He]]. exists ok. split; [|rewrite He; tauto].
      destruct ok; unfold phases in H; rewrite H; cbn; try rewrite Ea; congruence.
    + destruct H as [H He]. exists true. split; [|tauto || (split; [done|by intros []])].
      unfold phases in H; rewrite H; cbn; try rewrite Ea; congruence.
    + destruct H as [H He]. exists true. split; [|split; [done|by intros []]].
      unfold phases in H; rewrite H; cbn; try rewrite Ea; congruence.
  - destruct (inited_refines true (time_valid time0) false (error_of o) s s' a Ha Hp) as (ok & ? & ? & ?); [by eapply init_phases|].
    exists ok. auto.
  - destruct (inited_refines false (time_valid time0) true (error_of o) s s' a Ha Hp) as (ok & ? & ? & _); [|by exists ok].
    eapply and_run_phases; [|exact H]. intros. by eapply init_phases.
  - destruct (inited_refines true true false (error_of o) s s' a Ha Hp) as (ok & ? & ? & ?); [by eapply hand_over_phases|].
    exists ok. auto.
  - destruct (inited_refines false true true (error_of o) s s' a Ha Hp) as (ok & ? & ? & _); [|by exists ok].
    eapply and_run_phases; [|exact H]. intros. by eapply hand_over_phases.
Qed.

Lemma abstract_serve_ok q ok a : Grpc.consistent a -> 0 < length (Grpc.threads a) ->
  Grpc.consistent (abstract_serve q ok a) /\ length (Grpc.threads (abstract_serve q ok a)) = length (Grpc.threads a).
Proof.
  intros Ha Ht. unfold abstract_serve. destruct (abstract_request q) as [r|]; [|done]. split; [by apply Grpc.serve_consistent|].
  rewrite Grpc.serve_served by done. destruct r; cbn; [done| | |done]; repeat case_match; done.
Qed.

Lemma handle_prefix_refines qs s es s' a : Grpc.consistent a -> 0 < length (Grpc.threads a) -> phases s = abstract_phases a ->
  handle_prefix qs s = (es, s') ->
  (length es = length qs \/ exists q, qs !! length es = Some q /\ (handle q s' = Crashed \/ handle q s' = Running)) /\
  exists a', abstract_exec a (zip qs es) a' /\ Grpc.consistent a' /\ phases s' = abstract_phases a'.
Proof.
  revert s es a. induction qs as [|q qs IH]; intros s es a Ha Ht Hp H; cbn in H.
  - simplify_eq. split; [by left|]. exists a. split; [constructor|done].
  - destruct (handle q s) as [e s1| |] eqn:E.
    + destruct (handle_prefix qs s1) as [es1 s2] eqn:E1. simplify_eq.
      destruct (handle_refines q s e s1 a Ha Ht Hp E) as (ok & Hok & Hr). destruct (abstract_serve_ok q ok a Ha Ht) as [Ha1 Ht1].
      destruct (IH s1 es1 _ Ha1 ltac:(lia) Hok E1) as (Hend & a' & Hx & ?). split; [|exists a'; split; [by econstructor|done]].
      cbn. destruct Hend as [->|]; [by left|by right].
    + simplify_eq. split; [right; exists q; split; [done|by left]|]. exists a. split; [constructor|done].
    + simplify_eq. split; [right; exists q; split; [done|by right]|]. exists a. split; [constructor|done].
Qed.

(** C24: the handlers of the server implement the life cycle specified in [Grpc].  Any sequence of requests of all
    kinds, made one after the other to a new server, is served up to its end or to the first request whose handler panics or needs more
    fuel for the loop of the simulation.  There is an execution of the abstract server that serves the same
    requests from first to last with the same success ([replied]: the requests for which a simulation or a bench is missing
    are refused with the error that says so, requests to build, and to start without running, succeed exactly if the phase and the
    start time are right and the construction succeeds), after which its services are
    consistent and the server is in the same phase, with the same services started.  In
    particular no request outside the life cycle starts or halts a service. *)
Theorem server_refines_lifecycle (qs : list Request) none :
  let '(es, s') := handle_prefix qs (new none) in
  (length es = length qs \/ exists q, qs !! length es = Some q /\ (handle q s' = Crashed \/ handle q s' = Running)) /\
  exists a, abstract_exec (Grpc.initial 1) (zip qs es) a /\ Grpc.consistent a /\ phases s' = abstract_phases a.
Proof.
  destruct (handle_prefix qs (new none)) as [es s'] eqn:E.
  apply (handle_prefix_refines qs (new none) es s' (Grpc.initial 1)); [|cbn; lia|done|done].
  split; cbn; [|done|set_solver|done]. by intros [|[|t]] p [= <-].
Qed.
End Refinement.

Module Demo.
Import SimulationTheorems.Demo.
#[local] Existing Instance demo_lang.
#[local] Instance demo_cbor : @Ciborium demo_lang := {|
  from_reader _ b := match b with [x] => Some (Z.of_N (Byte.to_N x)) | _ => None end;
  into_writer _ v := match Byte.of_N (Z.to_N v) with Some x => Some [x] | None => None end |}.
#[local] Instance quiet : Host SimulationTheorems.Demo.T SQ IQ SimulationTheorems.Demo.X C Tk := host [].

Definition gen (calls : nat) (cfg : bytes) : @BuildService.GenResult demo_lang SimulationTheorems.Demo.T SQ IQ SimulationTheorems.Demo.X C Tk :=
  match cfg with [] => BuildService.GenPanic | _ => BuildService.GenBench SimInit.Demo.bench end.
Definition no_restore (st : bytes) (b : @SimInit.SimInit demo_lang SimulationTheorems.Demo.T SQ IQ SimulationTheorems.Demo.X C Tk)
    : Outcome (SimulationError SimulationTheorems.Demo.T) (Simulation SimulationTheorems.Demo.T SQ IQ SimulationTheorems.Demo.X C Tk) := Panic.
Definition no_save : Eff (Simulation SimulationTheorems.Demo.T SQ IQ SimulationTheorems.Demo.X C Tk) (ExecutionError SimulationTheorems.Demo.T) bytes :=
  fun m => (Val [], m).
Definition alone (i : nat) (x : Shared SimulationTheorems.Demo.T SQ IQ) : Shared SimulationTheorems.Demo.T SQ IQ := x.
Definition requests : list Request :=
  [RStep; RBuild []; RListEventSources; RBuild [Byte.x00]; RListEventSources; RBuild [Byte.x00]; RInit None;
   RInit (Some (mkTimestamp 0 7)); RStep; RTime; RInit (Some (mkTimestamp 0 7)); RTearDown; RTime; RBuild [Byte.x00]].
Definition server : @GrpcSimulationService demo_lang SimulationTheorems.Demo.T SQ IQ SimulationTheorems.Demo.X C Tk := new shared0.

(** The errors of the replies. *)
Example demo_replies :
  match handle_all gen no_restore no_save alone requests (new shared0) with
  | Reply es _ => es = [Some simulation_not_started_error; Some (to_error BenchPanic); Some bench_not_built_error; None; None;
                        Some (to_error BenchAlreadyBuilt); Some (to_error MissingArgument);
                        None; None; None; Some bench_not_built_error; None; Some simulation_not_started_error; None]
  | _ => False
  end.
Proof. vm_compute. reflexivity. Qed.

(** All of them are replied to, and the last one is not if it crashes. *)
Example demo_prefix :
  length (handle_prefix gen no_restore no_save alone requests (new shared0)).1 = length requests /\
  length (handle_prefix gen no_restore no_save alone (requests ++ [RRestore []; RStep]) (new shared0)).1 = length requests.
Proof. vm_compute. auto. Qed.

Lemma unavailable_refused_witness :
  handle gen no_restore no_save alone RStep server = Reply (Some simulation_not_started_error) server /\
  handle gen no_restore no_save alone (RInit (Some (mkTimestamp 0 7))) server = Reply (Some bench_not_built_error) server.
Proof.
  split.
  - apply (proj1 (unavailable_refused gen no_restore no_save alone RStep server)); reflexivity.
  - apply (proj2 (unavailable_refused gen no_restore no_save alone (RInit (Some (mkTimestamp 0 7))) server)); reflexivity.
Defined.
End Demo.
End Handlers.
