(* ===== verification/Sources.v ===== *)
(** * Sources: [ports/source.rs]

    The ports of a bench: event and query sources, connected to any number of
    inputs and repliers, the futures they make, and the channel through which the
    replies to a query are read.  The channel is a one-shot channel of the
    [futures_channel] crate, seen through its documented behaviour. *)

From S2P Require Import Prelude TaskSet Broadcaster BroadcasterFacts Senders SendersFacts Path Errors QueueItems Endpoints.
From stdpp Require Import strings.

(** One-shot channels: sending, the drop of the sender, reception. *)
Class Oneshot (Ch : Type -> Type) := {
  os_channel {V} : Ch V;
  os_send {V} : V -> Ch V -> Ch V;
  os_drop_sender {V} : Ch V -> Ch V;
  (** [Err]: canceled *)
  os_try_recv {V} : Ch V -> Result (option V) unit * Ch V }.

Class OneshotLaws (Ch : Type -> Type) `{Oneshot Ch} := {
  os_empty {V} : os_try_recv (os_channel : Ch V) = (Ok None, os_channel);
  os_sent {V} (v : V) : exists c, os_try_recv (os_send v os_channel) = (Ok (Some v), c) /\ (os_try_recv c).1 = Err tt;
  os_dropped {V} : (os_try_recv (os_drop_sender (os_channel : Ch V))).1 = Err tt }.

Module Sources.
Import Futures Senders SendersFacts.

Section Defs.
Context {Addr : Type} {Msg Writer : Type -> Type} {Ch : Type -> Type} `{OS : Oneshot Ch}.
Notation Sender := (@Sender Addr Msg Writer).
Notation SenderFuture := (@SenderFuture Addr Msg Writer).

(** ** Event and query sources

    Their broadcasters are lists of senders; a source without replies is an event
    source. *)
Record Source (T R : Type) : Type := mkSource { source_senders : list (Sender T R) }.
#[global] Arguments mkSource {_ _} _.
#[global] Arguments source_senders {_ _} _.
Definition EventSource (T : Type) : Type := Source T unit.
Definition QuerySource (T R : Type) : Type := Source T R.

Definition event_source_new {T} : EventSource T := mkSource [].
Definition query_source_new {T R} : QuerySource T R := mkSource [].

(** [BroadcasterInner::add] *)
Definition add {T R} (sender : Sender T R) (s : Source T R) : option (Source T R) :=
  if (Z.of_nat (length (source_senders s)) <? u32_max - 2)%Z then Some (mkSource (source_senders s ++ [sender])) else None.
Definition len {T R} (s : Source T R) : nat := length (source_senders s).

Definition event_connect {T} (input : T -> Msg unit) (address : Addr) : EventSource T -> option (EventSource T) :=
  add (InputSender T input address).
Definition event_map_connect {T U} (map : T -> U) (input : U -> Msg unit) (address : Addr) : EventSource T -> option (EventSource T) :=
  add (MapInputSender T U map input address).
Definition event_filter_map_connect {T U} (map : T -> option U) (input : U -> Msg unit) (address : Addr)
    : EventSource T -> option (EventSource T) :=
  add (FilterMapInputSender T U map input address).
Definition query_connect {T R} (replier : T -> Msg R) (address : Addr) : QuerySource T R -> option (QuerySource T R) :=
  add (ReplierSender T R replier address).
Definition query_map_connect {T R U Q} (query_map : T -> U) (reply_map : Q -> R) (replier : U -> Msg Q) (address : Addr)
    : QuerySource T R -> option (QuerySource T R) :=
  add (MapReplierSender T R U Q query_map reply_map replier address).
Definition query_filter_map_connect {T R U Q} (query_filter_map : T -> option U) (reply_map : Q -> R) (replier : U -> Msg Q)
    (address : Addr) : QuerySource T R -> option (QuerySource T R) :=
  add (FilterMapReplierSender T R U Q query_filter_map reply_map replier address).

(** ** Futures

    A future that is polled: it is done, still pending, or has thrown the error of a
    sender as a panic ([unwrap_or_throw]).  The outer option is any other panic. *)
Inductive Progress : Type :=
  | Done
  | Waiting
  | Thrown (e : SendError).

(** [EventBroadcaster::broadcast], polled until its result is there: as for a query, but the replies are not
    kept. *)
Definition event_result {A} (p : Futures.Poll (Result A SendError)) : Futures.Poll (Result unit SendError) :=
  match p with Ready (Ok _) => Ready (Ok tt) | Ready (Err e) => Ready (Err e) | Pending => Pending end.
Definition await_event (polls : list (list (list nat))) (a : Awaiting unit) : option (Futures.Poll (Result unit SendError)) :=
  match a with
  | Immediate _ => Some (match polls with [] => Pending | _ => Ready (Ok tt) end)
  | Single _ f => p ← await_single (length polls) f; Some (event_result p)
  | Multiple _ bf => '(p, _) ← SourceBroadcaster.drive polls bf; Some (event_result p)
  end.

Definition event_future {T} (start_of : nat -> SenderFuture unit -> Fut unit) (polls : list (list (list nat))) (arg : T)
    (s : EventSource T) : option Progress :=
  a ← source_broadcast start_of (source_senders s) arg;
  p ← await_event polls a;
  Some (match p with Ready (Ok _) => Done | Ready (Err e) => Thrown e | Pending => Waiting end).

(** *** Replies *)
Definition ReplyWriter (R : Type) : Type := Ch (list R).
Definition reply_send {R} (reply : list R) (c : Ch (list R)) : Ch (list R) := os_send reply c.
Definition query_replier {R} : Ch (list R) := os_channel.

(** [ReplyReader::try_read] *)
Definition try_read {R} (c : Ch (list R)) : option (list R) * Ch (list R) :=
  let '(r, c) := os_try_recv c in
  (match r with Ok o => o | Err _ => None end, c).
(** [Future::poll] of the reader, to which [read] blocks: [Some None] once there is
    no reply to wait for. *)
Definition poll {R} (c : Ch (list R)) : Poll (option (list R)) * Ch (list R) :=
  let '(r, c) := os_try_recv c in
  (match r with Ok (Some l) => Ready (Some l) | Ok None => Pending | Err _ => Ready None end, c).

(** The replier is moved into the future: it is dropped when the future is done, or
    when the error of a sender is thrown, but kept while the future waits. *)
Definition query_future {T R} (start_of : nat -> SenderFuture R -> Fut R) (polls : list (list (list nat))) (arg : T)
    (replier : option (Ch (list R))) (s : QuerySource T R) : option (Progress * option (Ch (list R))) :=
  a ← source_broadcast start_of (source_senders s) arg;
  p ← await polls a;
  Some (match p with
        | Ready (Ok replies) => (Done, reply_send replies <$> replier)
        | Ready (Err e) => (Thrown e, os_drop_sender <$> replier)
        | Pending => (Waiting, replier)
        end).
End Defs.

(** ** Registration with a bench

    [port] is the place of the source in memory, [ty] and [r] the types of its
    arguments and replies. *)
Section Bench.
Context `{L : Lang}.
Import Items Endpoints.
Context (schema : TypeId -> string).

Definition event_register (port : nat) (ty : TypeId) (b : Bench) : option (EventId * Bench) :=
  link_event_source (Items.EventSource port ty) b.
Definition query_register (port : nat) (ty r : TypeId) (b : Bench) : option (QueryId * Bench) :=
  link_query_source (Items.QuerySource port ty r) b.
Definition event_bind_endpoint (port : nat) (ty : TypeId) (path : Path.Path) (b : Bench) :=
  bind_event_source schema (Items.EventSource port ty) path b.
Definition event_bind_endpoint_raw (port : nat) (ty : TypeId) (path : Path.Path) (b : Bench) :=
  bind_event_source_raw (Items.EventSource port ty) path b.
Definition query_bind_endpoint (port : nat) (ty r : TypeId) (path : Path.Path) (b : Bench) :=
  bind_query_source schema (Items.QuerySource port ty r) path b.
Definition query_bind_endpoint_raw (port : nat) (ty r : TypeId) (path : Path.Path) (b : Bench) :=
  bind_query_source_raw (Items.QuerySource port ty r) path b.
End Bench.

(** ** Properties *)
Section Facts.
Context {Addr : Type} {Msg Writer : Type -> Type} {Ch : Type -> Type} {OS : Oneshot Ch} {OL : OneshotLaws Ch}.
Notation Sender := (@Sender Addr Msg Writer).
Notation Source := (@Source Addr Msg Writer).

(** A source connected to some senders, one after the other. *)
Fixpoint connect_all {T R} (ss : list (Sender T R)) (s : Source T R) : option (Source T R) :=
  match ss with [] => Some s | sender :: ss => s ← add sender s; connect_all ss s end.

Lemma connect_all_spec {T R} (ss : list (Sender T R)) (s s' : Source T R) : connect_all ss s = Some s' ->
  (Z.of_nat (len s) <= u32_max - 2)%Z -> source_senders s' = source_senders s ++ ss /\ (Z.of_nat (len s') <= u32_max - 2)%Z.
Proof.
  revert s. induction ss as [|sender ss IH]; intros s H Hl; cbn in H.
  - injection H as <-. by rewrite app_nil_r.
  - unfold add in H. destruct (Z.ltb_spec (Z.of_nat (length (source_senders s))) (u32_max - 2)); [|done]. cbn in H.
    apply IH in H as [-> Hl']; [|unfold len; cbn; rewrite length_app; cbn; lia]. cbn. by rewrite <- app_assoc.
Qed.

Lemma try_read_sent {R} (rs : list R) : exists c, try_read (reply_send rs (query_replier : Ch _)) = (Some rs, c) /\ (try_read c).1 = None.
Proof.
  unfold try_read, reply_send, query_replier. destruct (os_sent rs) as (c & -> & Hc). exists c. split; [done|].
  by destruct (os_try_recv c) as [[o|[]] c'].
Qed.

(** C21: a query from a source never panics whatever its connections, and the future
    that it makes delivers the replies of all repliers that do not filter it out, in
    the order of connection, through its channel: once the future is done the reader
    gets exactly these replies, once; as long as the future waits for one of the
    repliers there is nothing to read; if a replier is gone its error is thrown, and
    the reader is told that there is nothing to wait for. *)
Theorem query_replies_delivered {T R} (ss : list (Sender T R)) (s : Source T R) arg ess polls :
  connect_all ss query_source_new = Some s -> polls <> [] ->
  Forall (Forall (Forall (fun i => i < length (omap (fun s => send s arg) ss)))) polls ->
  exists prog c, query_future (start_in ess) polls arg (Some query_replier) s = Some (prog, Some c) /\
    match prog with
    | Done => exists rs c', try_read c = (Some rs, c') /\ (try_read c').1 = None /\
        length rs = length (omap (fun s => send s arg) ss) /\
        forall i f r, omap (fun s => send s arg) ss !! i = Some f -> rs !! i = Some r ->
          exists k, delivered (ess i) k f r /\ effects (ess i) f (S k) = effect_of f
    | Thrown _ => (try_read c).1 = None /\ (poll c).1 = Ready None /\
        exists i f k, omap (fun s => send s arg) ss !! i = Some f /\ ready_at (outcomes (ess i) f) k (Err sendError)
    | Waiting => try_read c = (None, c) /\ poll c = (Pending, c) /\
        exists i f, omap (fun s => send s arg) ss !! i = Some f /\
          forall j, j < polled polls (length (omap (fun s => send s arg) ss)) i -> outcomes (ess i) f j = Pending
    end.
Proof.
  intros Hc Hne Hf. apply connect_all_spec in Hc as [Hs Hl]; [|unfold len; cbn; unfold u32_max; lia]. cbn in Hs. unfold len in Hl.
  rewrite <- futures_omap in *. rewrite Hs in Hl.
  destruct (broadcast_any ess polls ss arg) as (p & Hp & Hr); [unfold TaskSet.EMPTY; lia|done|done|].
  unfold query_future. rewrite Hs. destruct (source_broadcast _ ss arg) as [a|]; [|done]. cbn [mbind option_bind] in *. rewrite Hp.
  cbn [mbind option_bind]. destruct p as [[rs|e]|]; eexists _, _; (split; [done|]).
  - destruct (try_read_sent rs) as (c' & Hrd & Hrd'). exists rs, c'. destruct Hr as [Hrl Hr]. split_and!; [done..|].
    intros i f r Hi Hri. destruct (Hr i f r Hi Hri) as [k Hk]. exists k. apply future_ready; [|done].
    rewrite futures_omap in Hi. apply list_elem_of_lookup_2 in Hi. apply list_elem_of_omap in Hi as (sd & _ & Hsd). by eapply send_fresh.
  - unfold try_read, poll, query_replier. pose proof (os_dropped (Ch := Ch) (V := list R)) as Hd.
    destruct (os_try_recv _) as [[o|[]] c']; [done|]. by split_and!.
  - unfold try_read, poll, query_replier. rewrite os_empty. by split_and!.
Qed.

Lemma await_event_await polls (a : Awaiting unit) p : await polls a = Some p -> await_event polls a = Some (event_result p).
Proof.
  destruct a as [|f|bf]; cbn.
  - intros [= <-]. by destruct polls.
  - intros ->. done.
  - destruct (SourceBroadcaster.drive polls bf) as [[[[l|e]|] bf']|]; cbn; [|by intros [= <-]..|done].
    destruct (SourceBroadcaster.replies l); cbn; [|done]. by intros [= <-].
Qed.

(** An event from a source never panics whatever its connections; once its future is done the event was sent, once,
    to all recipients that do not filter it out; it fails only if a recipient is gone, and waits only for one of them. *)
Theorem event_delivered {T} (ss : list (Sender T unit)) (s : EventSource T) arg ess polls :
  connect_all ss event_source_new = Some s -> polls <> [] ->
  Forall (Forall (Forall (fun i => i < length (omap (fun s => send s arg) ss)))) polls ->
  exists prog, event_future (start_in ess) polls arg s = Some prog /\
    match prog with
    | Done => forall i f, omap (fun s => send s arg) ss !! i = Some f -> exists k, effects (ess i) f (S k) = effect_of f
    | Thrown _ => exists i f k, omap (fun s => send s arg) ss !! i = Some f /\ ready_at (outcomes (ess i) f) k (Err sendError)
    | Waiting => exists i f, omap (fun s => send s arg) ss !! i = Some f /\
        forall j, j < polled polls (length (omap (fun s => send s arg) ss)) i -> outcomes (ess i) f j = Pending
    end.
Proof.
  intros Hc Hne Hf. apply connect_all_spec in Hc as [Hs Hl]; [|unfold len; cbn; unfold u32_max; lia]. cbn in Hs. unfold len in Hl.
  rewrite <- futures_omap in *. rewrite Hs in Hl.
  destruct (broadcast_any ess polls ss arg) as (p & Hp & Hr); [unfold TaskSet.EMPTY; lia|done|done|].
  unfold event_future. rewrite Hs. destruct (source_broadcast _ ss arg) as [a|]; [|done]. cbn [mbind option_bind] in *.
  rewrite (await_event_await _ _ _ Hp). cbn [mbind option_bind]. destruct p as [[rs|e]|]; eexists; (split; [done|]); [|done|done].
  destruct Hr as [Hrl Hr]. intros i f Hi. destruct (lookup_lt_is_Some_2 rs i) as [r Hri]; [rewrite Hrl; by eapply lookup_lt_Some|].
  destruct (Hr i f r Hi Hri) as [k Hk]. exists k. eapply future_ready; [|exact Hk].
  rewrite futures_omap in Hi. apply list_elem_of_lookup_2 in Hi. apply list_elem_of_omap in Hi as (sd & _ & Hsd). by eapply send_fresh.
Qed.
End Facts.

(** ** A concrete channel and source *)
Module Demo.
Inductive Chan (V : Type) : Type := Empty | Full (v : V) | Closed.
Arguments Empty {V}. Arguments Full {V}. Arguments Closed {V}.
#[local] Instance chan : Oneshot Chan := {|
  os_channel _ := Empty;
  os_send _ v _ := Full v;
  os_drop_sender _ _ := Closed;
  os_try_recv _ c := match c with Empty => (Ok None, c) | Full v => (Ok (Some v), Closed) | Closed => (Err tt, c) end |}.
#[local] Instance chan_laws : OneshotLaws Chan.
Proof. split; [done|intros V v; by exists Closed|done]. Qed.

Lemma query_replies_delivered_witness :
  exists s c, connect_all SendersFacts.demo_senders query_source_new = Some s /\
    query_future (start_in SendersFacts.echo_env) [[]; [[1]]] 7 (Some query_replier) s = Some (Done, Some c) /\
    (try_read (Ch := Chan) c).1 = Some [7; 114].
Proof.
  exists (mkSource SendersFacts.demo_senders), (Full [7; 114]). split; [reflexivity|].
  destruct (query_replies_delivered (Ch := Chan) SendersFacts.demo_senders (mkSource SendersFacts.demo_senders) 7 SendersFacts.echo_env [[]; [[1]]])
    as (prog & c & Hq & Hr); [reflexivity|discriminate|repeat constructor|].
  assert (prog = Done) as -> by (vm_compute in Hq; congruence).
  destruct Hr as (rs & c' & Hrd & _). split; [|reflexivity]. rewrite Hq. vm_compute in Hq. congruence.
Defined.
End Demo.
End Sources.
