(* ===== verification/Models.v ===== *)
(** * Saving and restoring a model: [model.rs]

    A model is serialized field by field.  Besides plain data, its fields may be
    cancellation keys, which share flags with the queue and with other models, and
    ports, whose connections are not saved: when a model is restored, its ports are
    taken over from the model it replaces, through a registry that the serialization
    of the latter fills and the deserialization of the former empties.

    The derived serializers visit the fields in the order of their declaration;
    the encoding of the fields is abstract.  A failed decoding aborts the restoration as
    a whole, the keys that it may have created are left out. *)

From S2P Require Import Prelude Path Errors Time PriorityQueue QueueItems Effects Scheduler SchedulerFacts Simulation Ports DemoCodec.
From stdpp Require Import strings.

Module Models.
Import Items EventKey.

Section Defs.
Context `{L : Lang} {T : Type}.
(** Ports, their types, and [clone] and [default]. *)
Context {PType H : Type} `{EqDecision PType} (type_of : H -> PType) (clone : H -> H) (default : PType -> H).

Inductive FieldType : Type :=
  | TVal (t : TypeId)
  | TKey
  | TAutoKey
  | TPort (t : PType).
Inductive Field : Type :=
  | FVal (t : TypeId) (v : Value)
  | FKey (k : nat)
  | FAutoKey (k : nat)
  | FPort (h : H).
Definition Model : Type := list Field.

Definition field_type (f : Field) : FieldType :=
  match f with FVal t _ => TVal t | FKey _ => TKey | FAutoKey _ => TAutoKey | FPort h => TPort (type_of h) end.

(** What is written for a field. *)
Inductive Wire : Type :=
  | WVal (v : Value)
  | WKey (w : bool * nat)
  | WUnit.

Context (encode_to_vec : list FieldType -> list Wire -> Result bytes Cause)
        (borrow_decode_from_slice : list FieldType -> bytes -> Result (list Wire) Cause).

(** ** Fields

    Serializing a port pushes a clone of it onto [PORT_REG], if it is set. *)
Definition serialize_field (fl : list bool) (f : Field) (reg : option (list H)) : Wire * option (list H) :=
  match f with
  | FVal _ v => (WVal v, reg)
  | FKey k => (WKey (EventKey.serialize fl k), reg)
  | FAutoKey k => (WKey (EventKey.serialize_auto fl k), reg)
  | FPort h => (WUnit, Ports.Registry.serialize clone h reg)
  end.
Fixpoint serialize_fields (fl : list bool) (fs : Model) (reg : option (list H)) : list Wire * option (list H) :=
  match fs with
  | [] => ([], reg)
  | f :: fs =>
      let '(w, reg) := serialize_field fl f reg in
      let '(ws, reg) := serialize_fields fl fs reg in (w :: ws, reg)
  end.

(** The registries of ports and keys, and the flags. *)
Definition Regs : Type := option (list H) * option (gmap nat nat) * list bool.

(** [None] is a panic, or a wire that does not match the type. *)
Definition deserialize_field (t : FieldType) (w : Wire) (s : Regs) : option (Field * Regs) :=
  let '(reg, kr, fl) := s in
  match t, w with
  | TVal t, WVal v => Some (FVal t v, s)
  | TKey, WKey w => let '(k, kr, fl) := EventKey.deserialize kr fl w in Some (FKey k, (reg, kr, fl))
  | TAutoKey, WKey w => let '(k, kr, fl) := EventKey.deserialize kr fl w in Some (FAutoKey (into_auto k), (reg, kr, fl))
  | TPort t, WUnit => '(h, reg) ← Ports.Registry.deserialize type_of default t reg; Some (FPort h, (reg, kr, fl))
  | _, _ => None
  end.
Fixpoint deserialize_fields (ts : list FieldType) (ws : list Wire) (s : Regs) : option (Model * Regs) :=
  match ts, ws with
  | [], [] => Some ([], s)
  | t :: ts, w :: ws =>
      '(f, s) ← deserialize_field t w s;
      '(fs, s) ← deserialize_fields ts ws s;
      Some (f :: fs, s)
  | _, _ => None
  end.

(** ** Models *)
Definition serialize_model (path : Path.Path) (ty : string) (fl : list bool) (model : Model) : Outcome (ExecutionError T) bytes :=
  map_err (fun e => ExecSaveError (ModelSerializationError path ty e))
    (encode_to_vec (field_type <$> model) (serialize_fields fl model None).1).

(** The old model is dropped, which cancels its automatic keys. *)
Definition drop_model (fl : list bool) (model : Model) : list bool :=
  fold_left (fun fl f => match f with FAutoKey k => drop_auto fl k | _ => fl end) model fl.

Definition deserialize_model (path : Path.Path) (ty : string) (state : bytes)
    : Eff (Model * option (gmap nat nat) * list bool) (ExecutionError T) unit := fun '(model, kr, fl) =>
  let types := field_type <$> model in
  let '(ws, reg) := serialize_fields fl model (Some []) in
  match encode_to_vec types ws with
  | Err e => (Fail (ExecRestoreError (RestoreModelSerializationError path ty e)), (model, kr, fl))
  | Ok _ =>
      match borrow_decode_from_slice types state with
      | Err e => (Fail (ExecRestoreError (ModelDeserializationError path ty e)), (model, kr, fl))
      | Ok ws =>
          match deserialize_fields types ws (reg, kr, fl) with
          | None => (Panic, (model, kr, fl))
          | Some (restored, (_, kr, fl)) => (Val tt, (restored, kr, drop_model fl model))
          end
      end
  end.
End Defs.
Arguments FKey {_ _} _. Arguments FAutoKey {_ _} _. Arguments FPort {_ _} _. Arguments FVal {_ _} _ _.

(** ** Requests to a model that is owned by the executor

    [fut] is the request sent to the address of the model, [try_read] the slot to
    which its reply is written. *)
Section Closures.
Context `{L : Lang} {T : Type} `{MT : MonoTime T}.
Context {SQ IQ : Type} `{SPQ : !StablePQ (T * Z) QueueItem SQ} `{IPQ : !StablePQ Z InjectorItem IQ}.
Context {X C Tk : Type} `{HO : !Host T SQ IQ X C Tk}.
Notation Sim := (Eff (Simulation T SQ IQ X C Tk) (ExecutionError T)).

Definition process_replier_fn {R} (fut : Fut) (try_read : X -> option R) : Sim R :=
  spawn_and_forget (OneTask fut);;
  run_executor;;
  r ← gets (fun m => try_read (executor m));
  liftO (ok_or BadQuery r).

(** The two closures of a [RegisteredModel]: both layers of errors are reported. *)
Definition registered_serialize (fut : Fut) (try_read : X -> option (Outcome (ExecutionError T) bytes)) : Sim bytes :=
  r ← process_replier_fn fut try_read; liftO r.
Definition registered_deserialize (fut : Fut) (try_read : X -> option (Outcome (ExecutionError T) unit)) : Sim unit :=
  r ← process_replier_fn fut try_read; liftO r.
End Closures.

(** ** Properties *)
Section Facts.
Context `{L : Lang} {T : Type}.
Context {PType H : Type} `{EqDecision PType} (type_of : H -> PType) (clone : H -> H) (default : PType -> H).
Hypothesis clone_type : forall h, type_of (clone h) = type_of h.
Notation FieldType := (@FieldType _ PType).
Context (encode_to_vec : list FieldType -> list Wire -> Result bytes Cause)
        (borrow_decode_from_slice : list FieldType -> bytes -> Result (list Wire) Cause).
Hypothesis decode_encode : forall ts ws b, encode_to_vec ts ws = Ok b -> borrow_decode_from_slice ts b = Ok ws.
Notation Field := (@Field _ H). Notation Model := (@Model _ H).
Notation field_type := (field_type type_of).

Definition port_of (f : Field) : option H := match f with FPort h => Some h | _ => None end.
Definition auto_of (f : Field) : option nat := match f with FAutoKey k => Some k | _ => None end.
Definition wire (fl : list bool) (f : Field) : Wire := (serialize_field clone fl f None).1.

Lemma serialize_fields_spec fl (m : Model) reg : serialize_fields clone fl m reg =
  (wire fl <$> m, match reg with Some r => Some (r ++ (clone <$> omap port_of m)) | None => None end).
Proof.
  revert reg. induction m as [|f m IH]; intros reg; cbn.
  - destruct reg; [by rewrite app_nil_r|done].
  - destruct f as [t v|k|k|h]; cbn; rewrite IH; cbn; try done. destruct reg; cbn; [|done]. by rewrite <- app_assoc.
Qed.

(** A field of the restored model, given those of the saved and of the replaced
    one. *)
Inductive restored_field (reg : gmap nat nat) : Field -> Field -> Field -> Prop :=
  | RVal t v v' : restored_field reg (FVal t v) (FVal t v') (FVal t v)
  | RKey a k k' : reg !! a = Some k -> restored_field reg (FKey a) (FKey k') (FKey k)
  | RAutoKey a k k' : reg !! a = Some k -> restored_field reg (FAutoKey a) (FAutoKey k') (FAutoKey k)
  | RPort h h' : restored_field reg (FPort h) (FPort h') (FPort (clone h')).

Lemma restored_field_mono reg reg' f f' f'' : reg ⊆ reg' -> restored_field reg f f' f'' -> restored_field reg' f f' f''.
Proof. intros Hs. destruct 1; constructor; by eapply lookup_weaken. Qed.

Lemma deserialize_grows old reg fl a k reg' fl' : EventKey.deserialize (Some reg) fl (EventKey.serialize old a) = (k, Some reg', fl') ->
  fl `prefix_of` fl' /\ forall b k', reg' !! b = Some k' -> reg !! b = Some k' \/ length fl <= k'.
Proof.
  unfold EventKey.deserialize, EventKey.serialize. destruct (reg !! a); intros [= <- <- <-]; [by auto|]. split; [by eexists|].
  intros b k'. rewrite lookup_insert_Some. intros [[_ <-]|[_ ?]]; auto.
Qed.

Lemma deserialize_fields_ok old (m m2 : Model) r reg fl : field_type <$> m = field_type <$> m2 -> reg_ok old reg fl ->
  exists m' reg' fl',
    deserialize_fields type_of default (field_type <$> m2) (wire old <$> m) (Some ((clone <$> omap port_of m2) ++ r), Some reg, fl)
      = Some (m', (Some r, Some reg', fl')) /\
    reg_ok old reg' fl' /\ reg ⊆ reg' /\ fl `prefix_of` fl' /\
    (forall a k, reg' !! a = Some k -> reg !! a = Some k \/ length fl <= k) /\ Forall3 (restored_field reg') m m2 m'.
Proof.
  revert m2 reg fl. induction m as [|f m IH]; intros [|f2 m2] reg fl Ht Hok; try done.
  { exists [], reg, fl. split_and!; [done..|by auto|constructor]. }
  cbn in Ht. injection Ht as Hf Ht.
  assert (exists f' reg1 fl1, deserialize_field type_of default (field_type f2) (wire old f) (Some ((clone <$> omap port_of (f2 :: m2)) ++ r), Some reg, fl)
      = Some (f', (Some ((clone <$> omap port_of m2) ++ r), Some reg1, fl1)) /\ reg_ok old reg1 fl1 /\ reg ⊆ reg1 /\ fl `prefix_of` fl1 /\
      (forall a k, reg1 !! a = Some k -> reg !! a = Some k \/ length fl <= k) /\ restored_field reg1 f f2 f')
    as (f' & reg1 & fl1 & Hd & Hok1 & Hsub1 & Hl1 & Hn1 & Hr1).
  { destruct f as [t v|a|a|h], f2 as [t' v'|k2|k2|h2]; cbn in Hf; simplify_eq; cbn -[EventKey.deserialize EventKey.serialize].
    - exists (FVal t' v), reg, fl. split_and!; [done..|by auto|constructor].
    - destruct (deserialize_ok old reg fl a Hok) as (k & reg' & fl' & Hd & Hok' & Hk & Hsub). rewrite Hd.
      destruct (deserialize_grows _ _ _ _ _ _ _ Hd). exists (FKey k), reg', fl'. split_and!; [done..|by constructor].
    - unfold serialize_auto. destruct (deserialize_ok old reg fl a Hok) as (k & reg' & fl' & Hd & Hok' & Hk & Hsub). rewrite Hd.
      destruct (deserialize_grows _ _ _ _ _ _ _ Hd). exists (FAutoKey k), reg', fl'. split_and!; [done..|by constructor].
    - rewrite decide_True by done. exists (FPort (clone h2)), reg, fl. split_and!; [done..|by auto|constructor]. }
  destruct (IH m2 reg1 fl1 Ht Hok1) as (m' & reg' & fl' & Hds & Hok' & Hsub & Hl & Hn & Hr).
  exists (f' :: m'), reg', fl'. cbn [fmap list_fmap deserialize_fields]. rewrite Hd. cbn [mbind option_bind]. rewrite Hds.
  split_and!; [done|done|by transitivity reg1|by transitivity fl1| |].
  - intros a k [Hk|Hk]%Hn; [by apply Hn1|]. right. apply prefix_length in Hl1. lia.
  - constructor; [by eapply restored_field_mono|done].
Qed.

Lemma drop_model_other (m : Model) fl k : k ∉ omap auto_of m -> is_cancelled (drop_model fl m) k = is_cancelled fl k.
Proof.
  revert fl. induction m as [|f m IH]; intros fl Hk; [done|]. unfold drop_model in *. cbn [fold_left].
  destruct f as [t v|a|a|h]; cbn in Hk; try (by apply IH). apply not_elem_of_cons in Hk as [Hne Hk]. rewrite IH by done.
  unfold drop_auto, is_cancelled. by rewrite list_lookup_insert_ne.
Qed.
Lemma drop_model_length (m : Model) fl : length (drop_model fl m) = length fl.
Proof.
  revert fl. induction m as [|f m IH]; intros fl; [done|]. unfold drop_model in *. cbn [fold_left]. rewrite IH.
  destruct f; [done|done|apply length_insert|done].
Qed.

(** Dropping a model cancels its automatic keys. *)
Lemma drop_model_cancels (m : Model) fl k : k ∈ omap auto_of m -> live fl k -> is_cancelled (drop_model fl m) k = true.
Proof.
  revert fl. induction m as [|f m IH]; intros fl Hk Hl; [by apply elem_of_nil in Hk|]. unfold drop_model in *. cbn [fold_left].
  destruct f as [t v|a|a|h]; cbn in Hk; try (by apply IH).
  destruct (decide (k ∈ omap auto_of m)) as [Hin|Hout].
  - apply IH; [done|]. unfold live, drop_auto. by rewrite length_insert.
  - apply elem_of_cons in Hk as [->|?]; [|done]. fold (drop_model (drop_auto fl a) m). rewrite drop_model_other by done.
    unfold drop_auto, is_cancelled. by rewrite list_lookup_insert_eq.
Qed.

Lemma is_cancelled_prefix fl fl' k : fl `prefix_of` fl' -> live fl k -> is_cancelled fl' k = is_cancelled fl k.
Proof. intros [l ->] Hk. unfold is_cancelled. by rewrite lookup_app_l. Qed.

(** C40: restoring a saved model into a model of the same type, for instance one of a
    newly built bench, never panics and succeeds if both can be encoded: plain fields get
    their saved values; the ports are those of the replaced model, in their order and
    with their connections; a key becomes the flag that the key registry associates
    with the saved key, so that keys saved in different models or in the queue are
    shared as before and are cancelled exactly if they were when they were saved.  The
    replaced model is dropped: its automatic keys, which must not be among the keys that
    were already restored, are cancelled, and no other key that existed before changes. *)
Theorem model_roundtrip path path' ty (m m2 : Model) old state kr fl b2 :
  field_type <$> m = field_type <$> m2 ->
  serialize_model (T := T) type_of clone encode_to_vec path ty old m = Val state ->
  encode_to_vec (field_type <$> m2) (wire fl <$> m2) = Ok b2 ->
  reg_ok old kr fl -> Forall (fun k => live fl k /\ forall a, kr !! a <> Some k) (omap auto_of m2) ->
  exists m' kr' fl',
    deserialize_model (T := T) type_of clone default encode_to_vec borrow_decode_from_slice path' ty state (m2, Some kr, fl)
      = (Val tt, (m', Some kr', fl')) /\
    Forall3 (restored_field kr') m m2 m' /\ kr ⊆ kr' /\ reg_ok old kr' fl' /\
    forall k, live fl k -> is_cancelled fl' k = bool_decide (k ∈ omap auto_of m2) || is_cancelled fl k.
Proof.
  intros Ht Hs Hb2 Hok Hauto. unfold serialize_model in Hs. rewrite serialize_fields_spec in Hs. cbn in Hs.
  destruct (encode_to_vec (field_type <$> m) _) as [b|e] eqn:Eb; [|done]. injection Hs as ->. apply decode_encode in Eb.
  unfold deserialize_model. rewrite serialize_fields_spec. cbn [app]. rewrite Hb2, <- Ht, Eb, Ht.
  destruct (deserialize_fields_ok old m m2 [] kr fl Ht Hok) as (m' & kr' & fl' & Hd & Hok' & Hsub & Hl & Hn & Hr).
  rewrite app_nil_r in Hd. rewrite Hd. exists m', kr', (drop_model fl' m2). split_and!; [done..| |].
  - destruct Hok' as [Hlive Hinj Hval]. split; [|done|].
    + intros a k Hk. unfold live. rewrite drop_model_length. by eapply Hlive.
    + intros a k Hk. rewrite drop_model_other; [by apply Hval|]. intros Hin. rewrite Forall_forall in Hauto.
      destruct (Hauto k Hin) as [Hlk Hno]. unfold live in Hlk. apply Hn in Hk as [Hk|Hk]; [by eapply Hno|lia].
  - intros k Hk. case_bool_decide as Hin; cbn [orb].
    + apply drop_model_cancels; [done|]. unfold live in *. apply prefix_length in Hl. lia.
    + rewrite drop_model_other by done. by apply is_cancelled_prefix.
Qed.
End Facts.

(** ** A concrete model: a number, a key that is also held by another model, an
    automatic key and two ports *)
Module Demo.
#[local] Existing Instance demo_lang.
Definition to_pair (w : @Wire demo_lang) : option Z * option (bool * nat) :=
  match w with WVal v => (Some v, None) | WKey k => (None, Some k) | WUnit => (None, None) end.
Definition of_pair (p : option Z * option (bool * nat)) : @Wire demo_lang :=
  match p with (Some v, _) => WVal v | (None, Some k) => WKey k | (None, None) => WUnit end.
Notation Shape := (@FieldType demo_lang nat).
Definition encode (_ : list Shape) (ws : list (@Wire demo_lang)) : Result bytes Cause := Ok (cput (to_pair <$> ws)).
Definition decode (_ : list Shape) (b : bytes) : Result (list (@Wire demo_lang)) Cause :=
  match DemoCodec.decode b with Ok l => Ok (of_pair <$> l) | Err e => Err e end.
Lemma demo_decode_encode ts ws b : encode ts ws = Ok b -> decode ts b = Ok ws.
Proof.
  intros Hb. apply Ok_inj in Hb as <-. unfold decode. rewrite (decode_put (to_pair <$> ws)). f_equal. rewrite <- list_fmap_compose.
  etransitivity; [|apply list_fmap_id]. apply list_fmap_ext. intros i w _. by destruct w.
Qed.

(** Ports: a type and a connection; a clone is marked. *)
Definition port_type (h : nat * nat) : nat := h.1.
Definition port_clone (h : nat * nat) : nat * nat := (h.1, h.2 + 100).
Definition saved : @Model demo_lang (nat * nat) := [FVal 0 42%Z; FKey 2; FPort (1, 7); FAutoKey 1; FPort (2, 8)].
Definition current : @Model demo_lang (nat * nat) := [FVal 0 0%Z; FKey 0; FPort (1, 3); FAutoKey 1; FPort (2, 4)].
Definition old_flags : list bool := [false; false; true].
(** Key 2 was already restored, as key 2 of the new simulation. *)
Definition new_flags : list bool := [false; false; true].
Definition registry : gmap nat nat := {[2 := 2]}.

Lemma registry_ok : reg_ok old_flags registry new_flags.
Proof.
  unfold registry. split.
  - intros a k [<- <-]%lookup_singleton_Some. vm_compute. lia.
  - by intros a b k [<- _]%lookup_singleton_Some [<- _]%lookup_singleton_Some.
  - by intros a k [<- <-]%lookup_singleton_Some.
Qed.

Lemma model_roundtrip_witness : exists state kr' fl',
  serialize_model (T := nat) port_type port_clone encode [] EmptyString old_flags saved = Val state /\
  deserialize_model (T := nat) port_type port_clone (fun t => (t, 0)) encode decode [] EmptyString state (current, Some registry, new_flags)
    = (Val tt, ([FVal 0 42%Z; FKey 2; FPort (1, 103); FAutoKey 3; FPort (2, 104)], Some kr', fl')) /\
  reg_ok old_flags kr' fl' /\ is_cancelled fl' 1 = true /\ is_cancelled fl' 0 = false.
Proof.
  exists (cput (to_pair <$> (wire port_clone old_flags <$> saved))).
  destruct (model_roundtrip (T := nat) port_type port_clone (fun t => (t, 0)) (fun h => eq_refl) encode decode demo_decode_encode
    [] [] EmptyString saved current old_flags (cput (to_pair <$> (wire port_clone old_flags <$> saved))) registry new_flags
    (cput (to_pair <$> (wire port_clone new_flags <$> current)))) as (m' & kr' & fl' & Hd & _ & _ & Hok & Hdrop).
  - reflexivity.
  - reflexivity.
  - reflexivity.
  - exact registry_ok.
  - cbn. constructor; [|constructor]. split; [vm_compute; lia|]. unfold registry. intros a [_ E]%lookup_singleton_Some. discriminate E.
  - exists kr', fl'. split; [reflexivity|]. split; [|split; [exact Hok|split; [rewrite (Hdrop 1) by (vm_compute; lia)|rewrite (Hdrop 0) by (vm_compute; lia)]; reflexivity]].
    rewrite Hd. vm_compute in Hd. injection Hd as <- _ _. reflexivity.
Defined.
End Demo.
End Models.
