(* ===== verification/EventQueue.v ===== *)
(** * Event queues: [ports/sink/event_queue.rs]

    The writers and the reader of an event queue, on top of an unbounded channel of
    the [futures_channel] crate, which is seen through its documented behaviour.  A
    call of [write] is two steps, so that the reader may be enabled or disabled in
    between, and the writers are interleaved in any way.  Two logs record what the
    writers do: the events found the sink enabled, in the order of these checks, and
    the events sent. *)

From S2P Require Import Prelude Path Errors QueueItems Endpoints.
From stdpp Require Import strings.

(** Unbounded channels, by what they contain; [uq_recv] is told whether a sender is
    left. *)
Inductive Received (V : Type) : Type := RItem (v : V) | RPending | REnd.
Arguments RItem {V}. Arguments RPending {V}. Arguments REnd {V}.

Class Unbounded (Q : Type -> Type) := {
  uq_new {V} : Q V;
  uq_send {V} : V -> Q V -> Q V;
  uq_recv {V} : bool -> Q V -> Received V * Q V;
  uq_contents {V} : Q V -> list V }.
Class UnboundedLaws (Q : Type -> Type) `{Unbounded Q} := {
  uq_new_contents {V} : uq_contents (uq_new : Q V) = [];
  uq_send_contents {V} (v : V) q : uq_contents (uq_send v q) = uq_contents q ++ [v];
  uq_recv_contents {V} (connected : bool) (q : Q V) :
    match uq_recv connected q with
    | (RItem v, q') => uq_contents q = v :: uq_contents q'
    | (RPending, q') => uq_contents q = [] /\ q' = q /\ connected = true
    | (REnd, q') => uq_contents q = [] /\ q' = q /\ connected = false
    end }.

Module EventQueue.

Inductive SinkState : Type := Enabled | Disabled.

(** A writer: between two calls, after a check that found the sink enabled, dropped. *)
Inductive WPhase (V : Type) : Type :=
  | WReady
  | WSend (v : V)
  | WGone.
Arguments WReady {V}. Arguments WSend {V}. Arguments WGone {V}.

Section Defs.
Context {Q : Type -> Type} {UQ : Unbounded Q} {V : Type}.

Record Queue : Type := mkQueue {
  channel : Q V;
  is_enabled : bool;
  writers : list (WPhase V);
  accepted : list (nat * V);
  sent : list (nat * V);
  delivered : list V }.

Definition event_queue (state : SinkState) : Queue :=
  mkQueue uq_new (match state with Enabled => true | Disabled => false end) [WReady] [] [] [].

Definition set_writer (t : nat) (w : WPhase V) (q : Queue) : Queue :=
  mkQueue (channel q) (is_enabled q) (<[t := w]> (writers q)) (accepted q) (sent q) (delivered q).

(** [EventQueueWriter::write]: the check, then the transmission. *)
Definition write_check (t : nat) (v : V) (q : Queue) : Queue :=
  match writers q !! t with
  | Some WReady =>
      if is_enabled q
      then set_writer t (WSend v)
             (mkQueue (channel q) (is_enabled q) (writers q) (accepted q ++ [(t, v)]) (sent q) (delivered q))
      else q
  | _ => q
  end.
Definition write_send (t : nat) (q : Queue) : Queue :=
  match writers q !! t with
  | Some (WSend v) =>
      set_writer t WReady
        (mkQueue (uq_send v (channel q)) (is_enabled q) (writers q) (accepted q) (sent q ++ [(t, v)]) (delivered q))
  | _ => q
  end.
Definition clone_writer (t : nat) (q : Queue) : Queue :=
  match writers q !! t with
  | Some WReady => mkQueue (channel q) (is_enabled q) (writers q ++ [WReady]) (accepted q) (sent q) (delivered q)
  | _ => q
  end.
Definition drop_writer (t : nat) (q : Queue) : Queue :=
  match writers q !! t with Some WReady => set_writer t WGone q | _ => q end.

(** *** The reader *)
Definition enable (q : Queue) : Queue := mkQueue (channel q) true (writers q) (accepted q) (sent q) (delivered q).
Definition disable (q : Queue) : Queue := mkQueue (channel q) false (writers q) (accepted q) (sent q) (delivered q).

Definition gone (w : WPhase V) : bool := match w with WGone => true | _ => false end.
Definition connected (q : Queue) : bool := negb (forallb gone (writers q)).

(** [poll_next]; [read] blocks until it is ready. *)
Definition poll_next (q : Queue) : Received V * Queue :=
  let '(r, c) := uq_recv (connected q) (channel q) in
  (r, mkQueue c (is_enabled q) (writers q) (accepted q) (sent q)
        (match r with RItem v => delivered q ++ [v] | _ => delivered q end)).
Definition try_read (q : Queue) : option V * Queue :=
  let '(r, q) := poll_next q in (match r with RItem v => Some v | _ => None end, q).

(** ** Schedules *)
Inductive Action : Type :=
  | AWrite (t : nat) (v : V) | ASend (t : nat) | AClone (t : nat) | ADrop (t : nat)
  | AEnable | ADisable | APoll | ATryRead.
Definition step (a : Action) (q : Queue) : Queue :=
  match a with
  | AWrite t v => write_check t v q
  | ASend t => write_send t q
  | AClone t => clone_writer t q
  | ADrop t => drop_writer t q
  | AEnable => enable q
  | ADisable => disable q
  | APoll => (poll_next q).2
  | ATryRead => (try_read q).2
  end.
Fixpoint run (l : list Action) (q : Queue) : Queue := match l with [] => q | a :: l => run l (step a q) end.
End Defs.
Arguments Queue Q V : clear implicits.

(** ** Registration with a bench *)
Section Bench.
Context `{L : Lang} (schema : TypeId -> string).
Import Endpoints.
Definition event_queue_endpoint (sink : nat) (ty : TypeId) (path : Path.Path) (b : Bench) : Result unit BenchError * Bench :=
  bind_event_sink schema (mkSink sink ty) path b.
Definition event_queue_endpoint_raw (sink : nat) (ty : TypeId) (path : Path.Path) (b : Bench) : Result unit BenchError * Bench :=
  bind_event_sink_raw (mkSink sink ty) path b.
End Bench.

(** ** Properties *)
Section Facts.
Context {Q : Type -> Type} {UQ : Unbounded Q} {UL : UnboundedLaws Q} {V : Type}.
Notation Queue := (Queue Q V).

(** The events of one writer in a log. *)
Definition of_writer (t : nat) (log : list (nat * V)) : list V := (filter (fun e => e.1 = t) log).*2.
(** What a writer has checked but not yet sent. *)
Definition in_flight (w : option (WPhase V)) : list V := match w with Some (WSend v) => [v] | _ => [] end.

Record inv (q : Queue) : Prop := {
  iv_fifo : (sent q).*2 = delivered q ++ uq_contents (channel q);
  iv_writer t : of_writer t (accepted q) = of_writer t (sent q) ++ in_flight (writers q !! t) }.

Lemma of_writer_snoc t log u v : of_writer t (log ++ [(u, v)]) = of_writer t log ++ (if decide (u = t) then [v] else []).
Proof. unfold of_writer. rewrite filter_app, fmap_app. f_equal. rewrite filter_cons. cbn. by case_decide. Qed.

Lemma in_flight_insert t u w (l : list (WPhase V)) : t < length l ->
  in_flight (<[t := w]> l !! u) = if decide (t = u) then in_flight (Some w) else in_flight (l !! u).
Proof. intros Ht. case_decide; subst; [by rewrite list_lookup_insert_eq|by rewrite list_lookup_insert_ne]. Qed.

Ltac fields := unfold set_writer; cbn [accepted sent writers channel delivered is_enabled snd].

Lemma event_queue_step_inv a q : inv q -> inv (step a q).
Proof.
  intros [Hf Hw]. destruct a as [t v|t|t|t| | | |]; cbn [step].
  - unfold write_check. destruct (writers q !! t) as [[|v'|]|] eqn:Et; try done. destruct (is_enabled q); [|done].
    apply lookup_lt_Some in Et as Hl. split; fields; [done|]. intros u. rewrite of_writer_snoc, in_flight_insert by done. rewrite Hw.
    case_decide; subst; [rewrite Et; cbn [in_flight]; by rewrite app_nil_r|by rewrite app_nil_r].
  - unfold write_send. destruct (writers q !! t) as [[|v'|]|] eqn:Et; try done. apply lookup_lt_Some in Et as Hl.
    split; fields; [by rewrite fmap_app, uq_send_contents, Hf, app_assoc|]. intros u.
    rewrite of_writer_snoc, in_flight_insert by done. rewrite Hw. case_decide; subst; [rewrite Et; cbn [in_flight]; by rewrite app_nil_r|by rewrite app_nil_r].
  - unfold clone_writer. destruct (writers q !! t) as [[|v'|]|] eqn:Et; try done. split; fields; [done|]. intros u. rewrite Hw. f_equal.
    destruct (decide (u < length (writers q))); [by rewrite lookup_app_l|].
    rewrite (lookup_ge_None_2 (writers q)) by lia. rewrite lookup_app_r by lia. by destruct (u - _) as [|[]].
  - unfold drop_writer. destruct (writers q !! t) as [[|v'|]|] eqn:Et; try done. apply lookup_lt_Some in Et as Hl.
    split; fields; [done|]. intros u. rewrite in_flight_insert by done. rewrite Hw. case_decide; subst; [by rewrite Et|done].
  - by split.
  - by split.
  - unfold poll_next. pose proof (uq_recv_contents (connected q) (channel q)) as Hr. destruct (uq_recv _ _) as [[v| |] c];
      (split; fields; [|done]); rewrite Hf; [by rewrite Hr, <- app_assoc|by destruct Hr as (_ & -> & _)..].
  - unfold try_read, poll_next. pose proof (uq_recv_contents (connected q) (channel q)) as Hr. destruct (uq_recv _ _) as [[v| |] c];
      (split; fields; [|done]); rewrite Hf; [by rewrite Hr, <- app_assoc|by destruct Hr as (_ & -> & _)..].
Qed.

(** For every schedule, an event queue delivers the events that were sent, in the order
    in which they were sent and without loss or duplication; the events sent by a
    writer are those for which it found the sink enabled, in the order of its calls,
    apart from the one of a call under way; the reader sees the end of the stream only if
    there is no writer left and everything that was accepted has been delivered. *)
Theorem event_queue_fifo state l : let q := run l (event_queue state : Queue) in
  (sent q).*2 = delivered q ++ uq_contents (channel q) /\
  (forall t, of_writer t (accepted q) = of_writer t (sent q) ++ in_flight (writers q !! t)) /\
  ((poll_next q).1 = REnd -> forall t, of_writer t (accepted q) = of_writer t (sent q) /\ (sent q).*2 = delivered q).
Proof.
  intros q. assert (inv q) as [Hf Hw].
  { unfold q. clear q. assert (inv (event_queue state : Queue)) as Hi by (split; cbn; [by rewrite uq_new_contents|by intros [|t]]).
    revert Hi. generalize (event_queue state : Queue). induction l as [|a l IH]; intros q Hi; [done|]. by apply IH, event_queue_step_inv. }
  split; [done|]. split; [done|]. unfold poll_next. pose proof (uq_recv_contents (connected q) (channel q)) as Hr.
  destruct (uq_recv _ _) as [[v| |] c]; try done. destruct Hr as (Hc & _ & Hn). intros _ t. split; [|by rewrite Hf, Hc, app_nil_r].
  rewrite Hw. unfold connected in Hn. apply negb_false_iff in Hn. rewrite forallb_forall in Hn.
  destruct (writers q !! t) as [w|] eqn:Et; cbn; [|by rewrite app_nil_r].
  specialize (Hn w). rewrite <- list_elem_of_In in Hn. apply list_elem_of_lookup_2 in Et. specialize (Hn Et).
  destruct w; cbn in *; try done. by rewrite app_nil_r.
Qed.
End Facts.

(** ** Channels as lists *)
Module Demo.
#[local] Instance list_channel : Unbounded list := {|
  uq_new _ := [];
  uq_send _ v q := q ++ [v];
  uq_recv _ connected q := match q with v :: q => (RItem v, q) | [] => (if connected : bool then RPending else REnd, []) end;
  uq_contents _ q := q |}.
#[local] Instance list_channel_laws : UnboundedLaws list.
Proof. split; [done..|]. intros V c [|v q]; cbn; [by destruct c|done]. Qed.

(** An event that was accepted before the sink is disabled is still delivered. *)
Example disabled_in_between :
  delivered (run [AWrite 0 1; ADisable; ASend 0; AWrite 0 2; ASend 0; APoll; APoll] (event_queue Enabled)) = [1].
Proof. reflexivity. Qed.
End Demo.
End EventQueue.
