(* ===== verification/MtShutdown.v ===== *)
(** * Panics, timeouts and the drop of the multi-threaded executor:
      [executor/mt_executor.rs], [executor/mt_executor/pool_manager.rs]

    How the threads of the executor are stopped: when a task panics, when a run
    lasts too long, and when the executor is dropped.  The main thread and the
    workers are step machines over the abort signal, the set of active workers, the
    tokens of the parkers and the slot of the registered panic.

    The tasks, which are the subject of [MtExecutor], are left to the schedule here:
    it decides whether a search for tasks is successful, whether the injector is
    empty, whether messages are left, whether a task ends or panics, and which idle worker it activates.  The word
    of active workers is the list of its bits.  [None] is a failed assertion. *)

From S2P Require Import Prelude.

Module MtShutdown.

(** Program points of [run_local_worker]. *)
Inductive WorkerPc : Type :=
  | WTry                       (** [try_set_worker_inactive] *)
  | WLast                      (** [injector.is_empty()] *)
  | WSetAll                    (** [set_all_workers_inactive] *)
  | WUnparkMain
  | WPark
  | WBegin                     (** [begin_worker_search] *)
  | WCheck                     (** [abort_signal.is_set()] *)
  | WSearch
  | WGot                       (** a task was popped: [abort_signal.is_set()] *)
  | WRun
  | WActivate (j : nat)        (** [schedule_task]: the unpark of an activated worker *)
  | WRegister                  (** a panic was caught: [register_panic] *)
  | WAbort                     (** [abort_signal.set()] *)
  | WAllActive                 (** [set_all_workers_active] *)
  | WUnparkAll (k : nat)
  | WReport                    (** [executor_unparker.unpark()] *)
  | WDone                      (** the thread has ended *)
  | WFailed.                   (** it has panicked when its [Worker] was dropped *)

Inductive RunResult : Type := ROk | RUnprocessed | RPanic | RTimeout.

(** The main thread: between two calls, [run], the end of a run that timed out, and
    the drop handler. *)
Inductive MainPc : Type :=
  | MReturned (r : RunResult)
  | MActivate
  | MUnpark (j : nat)
  | MTake                      (** [take_panic()] *)
  | MIdle                      (** [pool_is_idle()] *)
  | MPark
  | MTimeoutAbort | MTimeoutAll | MTimeoutUnpark (k : nat)
  | MDropAbort | MDropAll | MDropUnpark (k : nat)
  | MJoin (k : nat)
  | MDropped
  | MJoinPanic (k : nat).      (** [join().unwrap()] on a thread that has panicked *)

Record Sys : Type := mkSys {
  abort : bool;
  active : list bool;
  tokens : list bool;
  pcs : list WorkerPc;
  main : MainPc;
  main_token : bool;
  panic : bool;                (** the slot of the registered panic *)
  panicked : bool }.           (** history: a task has panicked *)

(** After [Executor::new]: all workers are parked. *)
Definition initial (n : nat) : Sys :=
  mkSys false (replicate n false) (replicate n false) (replicate n WPark) (MReturned ROk) false false false.

Definition set_abort (s : Sys) : Sys := mkSys true (active s) (tokens s) (pcs s) (main s) (main_token s) (panic s) (panicked s).
Definition set_active (a : list bool) (s : Sys) : Sys :=
  mkSys (abort s) a (tokens s) (pcs s) (main s) (main_token s) (panic s) (panicked s).
Definition set_token (i : nat) (b : bool) (s : Sys) : Sys :=
  mkSys (abort s) (active s) (<[i := b]> (tokens s)) (pcs s) (main s) (main_token s) (panic s) (panicked s).
Definition set_pc (i : nat) (p : WorkerPc) (s : Sys) : Sys :=
  mkSys (abort s) (active s) (tokens s) (<[i := p]> (pcs s)) (main s) (main_token s) (panic s) (panicked s).
Definition set_main (m : MainPc) (s : Sys) : Sys :=
  mkSys (abort s) (active s) (tokens s) (pcs s) m (main_token s) (panic s) (panicked s).
Definition set_main_token (b : bool) (s : Sys) : Sys :=
  mkSys (abort s) (active s) (tokens s) (pcs s) (main s) b (panic s) (panicked s).
Definition set_panic (b : bool) (s : Sys) : Sys :=
  mkSys (abort s) (active s) (tokens s) (pcs s) (main s) (main_token s) b (panicked s).
Definition set_panicked (s : Sys) : Sys :=
  mkSys (abort s) (active s) (tokens s) (pcs s) (main s) (main_token s) (panic s) true.

Definition pool_size (s : Sys) : nat := length (pcs s).
Definition only (i : nat) (s : Sys) : list bool := <[i := true]> (replicate (length (active s)) false).
Definition all (b : bool) (s : Sys) : list bool := replicate (length (active s)) b.

(** What the schedule decides. *)
Inductive Choice : Type :=
  | CYes | CNo
  | CPanic                     (** the task that is running panics *)
  | CActivate (j : nat).       (** it schedules a task and activates worker [j] *)

(** The end of a thread.  Tasks that were scheduled by the last task that the worker has run, or by the
    drop of a task that it has popped, may be left in the fast slot of the [Worker]: they
    are dropped with it, out of the scope of [LOCAL_WORKER], and scheduling a task
    is then a panic ([worker_end_panics] of [MtDrop]).  A worker that was parked or has found
    nothing holds no task. *)
Definition ended_by (c : Choice) : WorkerPc := match c with CPanic => WFailed | _ => WDone end.

Definition worker_step (i : nat) (p : WorkerPc) (c : Choice) (s : Sys) : option Sys :=
  match p with
  | WTry =>
      match active s !! i with
      | Some true =>
          if bool_decide (active s = only i s) then Some (set_pc i WLast s)
          else Some (set_pc i WPark (set_active (<[i := false]> (active s)) s))
      | _ => None
      end
  | WLast => Some (set_pc i (match c with CYes => WSetAll | _ => WBegin end) s)
  | WSetAll => Some (set_pc i WUnparkMain (set_active (all false s) s))
  | WUnparkMain => Some (set_pc i WPark (set_main_token true s))
  | WPark =>
      match tokens s !! i with
      | Some true => Some (set_pc i WCheck (set_token i false s))
      | _ => Some s
      end
  | WBegin => Some (set_pc i WCheck s)
  | WCheck => Some (set_pc i (if abort s then WDone else WSearch) s)
  | WSearch => Some (set_pc i (match c with CYes => WGot | _ => WTry end) s)
  | WGot => Some (set_pc i (if abort s then ended_by c else WRun) s)
  | WRun =>
      match c with
      | CYes => Some (set_pc i WGot s)                      (** the task ends, another one is popped *)
      | CNo => Some (set_pc i WSearch s)                    (** the task ends, none is left *)
      | CPanic => Some (set_pc i WRegister (set_panicked s))
      | CActivate j =>
          match active s !! j with
          | Some false => Some (set_pc i (WActivate j) (set_active (<[j := true]> (active s)) s))
          | _ => Some s
          end
      end
  | WActivate j => Some (set_pc i WRun (set_token j true s))
  | WRegister => Some (set_pc i WAbort (set_panic true s))
  | WAbort => Some (set_pc i WAllActive (set_abort s))
  | WAllActive => Some (set_pc i (WUnparkAll 0) (set_active (all true s) s))
  | WUnparkAll k =>
      if decide (k < pool_size s) then Some (set_pc i (WUnparkAll (S k)) (set_token k true s)) else Some (set_pc i WReport s)
  | WReport => Some (set_pc i (ended_by c) (set_main_token true s))
  | WDone | WFailed => Some s
  end.

Definition main_step (c : Choice) (s : Sys) : Sys :=
  match main s with
  | MReturned _ | MDropped | MJoinPanic _ => s
  | MActivate =>
      match c with
      | CActivate j =>
          match active s !! j with
          | Some false => set_main (MUnpark j) (set_active (<[j := true]> (active s)) s)
          | _ => s
          end
      | _ => s
      end
  | MUnpark j => set_main MTake (set_token j true s)
  | MTake => if panic s then set_main (MReturned RPanic) (set_panic false s) else set_main MIdle s
  | MIdle =>
      set_main (if bool_decide (active s = all false s) then MReturned (match c with CNo => RUnprocessed | _ => ROk end) else MPark) s
  | MPark =>
      if main_token s then set_main MTake (set_main_token false s)
      else match c with CNo => set_main MTimeoutAbort s | _ => s end
  | MTimeoutAbort => set_main MTimeoutAll (set_abort s)
  | MTimeoutAll => set_main (MTimeoutUnpark 0) (set_active (all true s) s)
  | MTimeoutUnpark k =>
      if decide (k < pool_size s) then set_main (MTimeoutUnpark (S k)) (set_token k true s) else set_main (MReturned RTimeout) s
  | MDropAbort => set_main MDropAll (set_abort s)
  | MDropAll => set_main (MDropUnpark 0) (set_active (all true s) s)
  | MDropUnpark k =>
      if decide (k < pool_size s) then set_main (MDropUnpark (S k)) (set_token k true s) else set_main (MJoin 0) s
  | MJoin k =>
      match pcs s !! k with
      | Some WDone => set_main (MJoin (S k)) s
      | Some WFailed => set_main (MJoinPanic k) s
      | Some _ => s
      | None => set_main MDropped s
      end
  end.

Inductive Action : Type :=
  | ARun                       (** [run], unless an earlier run has failed *)
  | ADrop
  | AMain (c : Choice)
  | AWorker (i : nat) (c : Choice).

Definition step (a : Action) (s : Sys) : option Sys :=
  match a with
  | ARun => Some (match main s with MReturned ROk => set_main MActivate s | _ => s end)
  | ADrop => Some (match main s with MReturned _ => set_main MDropAbort s | _ => s end)
  | AMain c => Some (main_step c s)
  | AWorker i c => match pcs s !! i with Some p => worker_step i p c s | None => Some s end
  end.

Fixpoint run (l : list Action) (s : Sys) : option Sys :=
  match l with [] => Some s | a :: l => s ← step a s; run l s end.

(** ** Views of the state *)
Definition pc (s : Sys) (i : nat) : WorkerPc := default WPark (pcs s !! i).
Definition bit (s : Sys) (i : nat) : bool := default false (active s !! i).
Definition tok (s : Sys) (i : nat) : bool := default false (tokens s !! i).

(** Program points at which the worker must be marked as active. *)
Definition panicking (p : WorkerPc) : bool :=
  match p with WRegister | WAbort | WAllActive | WUnparkAll _ | WReport => true | _ => false end.
Definition working (p : WorkerPc) : bool :=
  match p with WTry | WSearch | WGot | WRun | WActivate _ => true | p => panicking p end.
(** Program points at which it must be, unless the threads were asked to return. *)
Definition between (p : WorkerPc) : bool :=
  match p with WLast | WSetAll | WBegin | WCheck => true | _ => false end.
Definition lastp (p : WorkerPc) : bool := match p with WLast | WSetAll => true | _ => false end.
Definition parking (p : WorkerPc) : bool := match p with WPark | WUnparkMain => true | _ => false end.
Definition late (p : WorkerPc) : bool :=
  match p with WAllActive | WUnparkAll _ | WReport | WDone | WFailed => true | _ => false end.
(** The panic is registered and the main thread will be notified. *)
Definition reporting (p : WorkerPc) : bool :=
  match p with WAbort | WAllActive | WUnparkAll _ | WReport => true | _ => false end.
Definition ended (p : WorkerPc) : bool := match p with WDone | WFailed => true | _ => false end.
Definition leaving (p : WorkerPc) : bool := match p with WCheck | WDone | WFailed => true | _ => false end.

Definition mlate (m : MainPc) : bool :=
  match m with
  | MTimeoutAll | MTimeoutUnpark _ | MReturned RTimeout | MDropAll | MDropUnpark _ | MJoin _ | MDropped | MJoinPanic _ => true
  | _ => false
  end.
(** No run has failed and the executor is not being dropped. *)
Definition running (m : MainPc) : bool :=
  match m with MReturned ROk | MReturned RUnprocessed | MActivate | MUnpark _ | MTake | MIdle | MPark => true | _ => false end.
Definition resting (m : MainPc) : bool := match m with MReturned ROk | MReturned RUnprocessed | MActivate => true | _ => false end.
Definition waiting (m : MainPc) : bool := match m with MIdle | MPark => true | _ => false end.
Definition unparked (m : MainPc) (n : nat) : nat :=
  match m with MDropUnpark k => k | MJoin _ | MDropped | MJoinPanic _ => n | _ => 0 end.

Record Inv (s : Sys) : Prop := mkInv {
  i_len : length (active s) = length (pcs s);
  i_len_t : length (tokens s) = length (pcs s);
  i_working : forall i, working (pc s i) = true -> bit s i = true;
  i_between : forall i, between (pc s i) = true -> abort s = false -> bit s i = true;
  i_late : forall i, late (pc s i) = true -> abort s = true;
  i_mlate : mlate (main s) = true -> abort s = true;
  i_last : forall i j, lastp (pc s i) = true -> i <> j -> working (pc s j) = false;
  i_last_bit : forall i j, lastp (pc s i) = true -> i <> j -> abort s = false \/ running (main s) = true -> bit s j = false;
  i_tok : forall j, abort s = false -> tok s j = true -> bit s j = true /\ parking (pc s j) = true;
  i_pend : forall i j, abort s = false -> pc s i = WActivate j -> bit s j = true /\ parking (pc s j) = true /\ tok s j = false;
  i_mpend : forall j, abort s = false -> main s = MUnpark j -> bit s j = true /\ parking (pc s j) = true /\ tok s j = false;
  i_pend_one : forall i i' j, abort s = false -> pc s i = WActivate j -> pc s i' = WActivate j -> i = i';
  i_mpend_one : forall i j, abort s = false -> pc s i = WActivate j -> main s <> MUnpark j;
  i_rest : resting (main s) = true -> forall i, bit s i = false;
  i_panicked : panicked s = true -> running (main s) = true ->
    exists i, bit s i = true /\ (panicking (pc s i) = true \/ ended (pc s i) = true);
  i_abort : abort s = true -> running (main s) = true -> panicked s = true;
  i_panicking : forall i, panicking (pc s i) = true -> panicked s = true;
  i_panic : panic s = true -> panicked s = true;
  i_reported : panic s = true -> waiting (main s) = true -> main_token s = true \/ exists i, reporting (pc s i) = true;
  i_drop : forall i, i < unparked (main s) (length (pcs s)) -> tok s i = true \/ leaving (pc s i) = true;
  i_returned : main s = MReturned RPanic -> panicked s = true }.

(** ** How the views change *)
Section Views.
Context (s : Sys).

Lemma pc_set_pc i p : i < length (pcs s) -> forall j, pc (set_pc i p s) j = if decide (i = j) then p else pc s j.
Proof.
  intros Hi j. unfold pc, set_pc. cbn. destruct (decide (i = j)) as [<-|Hne].
  - by rewrite list_lookup_insert_eq.
  - by rewrite list_lookup_insert_ne.
Qed.
Lemma tok_set_token i b : i < length (tokens s) -> forall j, tok (set_token i b s) j = if decide (i = j) then b else tok s j.
Proof.
  intros Hi j. unfold tok, set_token. cbn. destruct (decide (i = j)) as [<-|Hne].
  - by rewrite list_lookup_insert_eq.
  - by rewrite list_lookup_insert_ne.
Qed.
Lemma bit_insert i b : i < length (active s) -> forall j, bit (set_active (<[i := b]> (active s)) s) j = if decide (i = j) then b else bit s j.
Proof.
  intros Hi j. unfold bit, set_active. cbn. destruct (decide (i = j)) as [<-|Hne].
  - by rewrite list_lookup_insert_eq.
  - by rewrite list_lookup_insert_ne.
Qed.
Lemma bit_all_false j : bit (set_active (all false s) s) j = false.
Proof. unfold bit, set_active, all. cbn. destruct (_ !! j) eqn:E; [apply lookup_replicate in E as [-> _]|]; done. Qed.
Lemma bit_all_true j : j < length (active s) -> bit (set_active (all true s) s) j = true.
Proof. intros Hj. unfold bit, set_active, all. cbn. by rewrite lookup_replicate_2. Qed.

Lemma pc_bound j : pc s j <> WPark -> j < length (pcs s).
Proof. unfold pc. intros H. apply lookup_lt_is_Some. destruct (pcs s !! j); [by eexists|done]. Qed.
Lemma bit_bound j : bit s j = true -> j < length (active s).
Proof. unfold bit. intros H. apply lookup_lt_is_Some. destruct (active s !! j); [by eexists|done]. Qed.
Lemma bit_lookup j b : active s !! j = Some b -> bit s j = b.
Proof. unfold bit. by intros ->. Qed.
Lemma pc_lookup j p : pcs s !! j = Some p -> pc s j = p.
Proof. unfold pc. by intros ->. Qed.
Lemma bit_only i j : active s = only i s -> i <> j -> bit s j = false.
Proof.
  intros E Hij. unfold bit. rewrite E. unfold only. rewrite list_lookup_insert_ne by done.
  destruct (_ !! j) eqn:El; [apply lookup_replicate in El as [-> _]|]; done.
Qed.
Lemma active_none j : active s = all false s -> bit s j = false.
Proof. intros E. unfold bit. rewrite E. unfold all. destruct (_ !! j) eqn:El; [apply lookup_replicate in El as [-> _]|]; done. Qed.
End Views.

Lemma inv_initial n : Inv (initial n).
Proof.
  assert (forall i, pc (initial n) i = WPark) as Hp.
  { intros i. unfold pc, initial. cbn. destruct (_ !! i) eqn:E; [apply lookup_replicate in E as [-> _]|]; done. }
  assert (forall i, bit (initial n) i = false) as Hb.
  { intros i. unfold bit, initial. cbn. destruct (_ !! i) eqn:E; [apply lookup_replicate in E as [-> _]|]; done. }
  assert (forall i, tok (initial n) i = false) as Ht.
  { intros i. unfold tok, initial. cbn. destruct (_ !! i) eqn:E; [apply lookup_replicate in E as [-> _]|]; done. }
  constructor; intros *; rewrite ?Hp, ?Hb, ?Ht; cbn; rewrite ?length_replicate; try done; lia.
Qed.

(** ** The invariant is preserved *)

(** No unpark of worker [j] is under way. *)
Definition unclaimed (s : Sys) (j : nat) : Prop :=
  tok s j = false /\ (forall i, pc s i <> WActivate j) /\ main s <> MUnpark j.

Lemma unclaimed_busy s j : Inv s -> abort s = false -> parking (pc s j) = false -> unclaimed s j.
Proof.
  intros I Ha Hp. split_and!.
  - destruct (tok s j) eqn:E; [|done]. destruct (i_tok _ I j Ha E). congruence.
  - intros i E. destruct (i_pend _ I i j Ha E) as (_ & ? & _). congruence.
  - intros E. destruct (i_mpend _ I j Ha E) as (_ & ? & _). congruence.
Qed.
Lemma unclaimed_inactive s j : Inv s -> abort s = false -> bit s j = false -> unclaimed s j.
Proof.
  intros I Ha Hp. split_and!.
  - destruct (tok s j) eqn:E; [|done]. destruct (i_tok _ I j Ha E). congruence.
  - intros i E. destruct (i_pend _ I i j Ha E) as (? & _). congruence.
  - intros E. destruct (i_mpend _ I j Ha E) as (? & _). congruence.
Qed.
Lemma inactive_parking s j : Inv s -> abort s = false -> bit s j = false -> parking (pc s j) = true.
Proof.
  intros I Ha Hb. destruct (working (pc s j)) eqn:Ew; [apply i_working in Ew; congruence|].
  destruct (between (pc s j)) eqn:Eb; [apply i_between in Eb; congruence|].
  destruct (late (pc s j)) eqn:El; [apply i_late in El; congruence|].
  by destruct (pc s j).
Qed.

Ltac fields :=
  cbn [abort main panic panicked main_token active tokens pcs set_pc set_active set_token set_main set_main_token set_panic set_abort set_panicked];
  rewrite ?length_insert, ?length_replicate;
  repeat match goal with
  | |- context [pc (set_active ?a ?s)] => change (pc (set_active a s)) with (pc s)
  | |- context [tok (set_active ?a ?s)] => change (tok (set_active a s)) with (tok s)
  | |- context [pc (set_token ?i ?b ?s)] => change (pc (set_token i b s)) with (pc s)
  | |- context [bit (set_token ?i ?b ?s)] => change (bit (set_token i b s)) with (bit s)
  | |- context [pc (set_main_token ?b ?s)] => change (pc (set_main_token b s)) with (pc s)
  | |- context [bit (set_main_token ?b ?s)] => change (bit (set_main_token b s)) with (bit s)
  | |- context [tok (set_main_token ?b ?s)] => change (tok (set_main_token b s)) with (tok s)
  | |- context [pc (set_abort ?s)] => change (pc (set_abort s)) with (pc s)
  | |- context [bit (set_abort ?s)] => change (bit (set_abort s)) with (bit s)
  | |- context [tok (set_abort ?s)] => change (tok (set_abort s)) with (tok s)
  | |- context [bit (set_pc ?i ?b ?s)] => change (bit (set_pc i b s)) with (bit s)
  | |- context [tok (set_pc ?i ?b ?s)] => change (tok (set_pc i b s)) with (tok s)
  end.
Ltac lift I := destruct I; constructor; fields; try assumption.

Lemma inv_main_token b s : Inv s -> b = true \/ waiting (main s) = false -> Inv (set_main_token b s).
Proof.
  intros I Hb. lift I. intros Hp Hw. destruct Hb as [->|Hb]; [by left|congruence].
Qed.

Lemma inv_abort s : Inv s -> (running (main s) = true -> panicked s = true) -> Inv (set_abort s).
Proof.
  intros I Hp. lift I; try done. intros i j Hl Hij [?|Hr]; [done|]. eapply i_last_bit0; eauto.
Qed.

(** Setting the token of worker [j]. *)
Lemma inv_token j s :
  Inv s -> (abort s = false -> bit s j = true /\ parking (pc s j) = true /\ unclaimed s j) -> Inv (set_token j true s).
Proof.
  intros I Hj. destruct (decide (j < length (tokens s))) as [Hl|Hl].
  2:{ replace (set_token j true s) with s; [done|]. destruct s. unfold set_token. cbn in *. f_equal. rewrite list_insert_ge by lia. done. }
  pose proof (tok_set_token s j true Hl) as Vt. unfold unclaimed in Hj.
  lift I.
  - intros k Ha Ht. rewrite Vt in Ht. case_decide; [subst; destruct (Hj Ha) as (? & ? & _); done|]. by apply i_tok0.
  - intros i k Ha Hp. rewrite Vt. case_decide; [subst; destruct (Hj Ha) as (_ & _ & _ & Hn & _); by destruct (Hn i)|]. by apply (i_pend0 i).
  - intros k Ha Hp. rewrite Vt. case_decide; [subst; destruct (Hj Ha) as (_ & _ & _ & _ & Hn); by destruct Hn|]. by apply i_mpend0.
  - intros i Hi. rewrite Vt. case_decide; [by left|]. by apply i_drop0.
Qed.

(** Marking worker [j] as active. *)
Lemma inv_activate j s :
  Inv s -> resting (main s) = false -> (forall i, lastp (pc s i) = true -> False) -> Inv (set_active (<[j := true]> (active s)) s).
Proof.
  intros I Hr Hl. destruct (decide (j < length (active s))) as [Hb|Hb].
  2:{ replace (set_active _ s) with s; [done|]. destruct s. unfold set_active. cbn in *. f_equal. rewrite list_insert_ge by lia. done. }
  pose proof (bit_insert s j true Hb) as Vb.
  assert (forall k, bit s k = true -> bit (set_active (<[j := true]> (active s)) s) k = true) as Hm by (intros k Hk; rewrite Vb; by case_decide).
  lift I; try (rewrite Hr; done).
  - intros i Hi. by apply Hm, i_working0.
  - intros i Hi Ha. by apply Hm, i_between0.
  - intros i k Hi. exfalso. by apply (Hl i).
  - intros k Ha Ht. destruct (i_tok0 k Ha Ht). auto.
  - intros i k Ha Ht. destruct (i_pend0 i k Ha Ht). auto.
  - intros k Ha Ht. destruct (i_mpend0 k Ha Ht). auto.
  - intros Hp Hrun. destruct (i_panicked0 Hp Hrun) as (i & ? & ?). eauto.
Qed.

(** Marking all workers as active. *)
Lemma inv_all_active s : Inv s -> abort s = true -> resting (main s) = false ->
  (running (main s) = true -> forall i, lastp (pc s i) = true -> False) -> Inv (set_active (all true s) s).
Proof.
  intros I Ha Hr Hl. pose proof (i_len _ I) as Hlen.
  assert (forall k, bit s k = true -> bit (set_active (all true s) s) k = true) as Hm.
  { intros k Hk. apply bit_all_true. by apply bit_bound. }
  lift I; try (rewrite Hr; done); try (intros; congruence); unfold all; rewrite ?length_replicate; try assumption.
  - intros i Hi. by apply Hm, i_working0.
  - intros i k Hi Hik [?|?]; [congruence|]. exfalso. by eapply Hl.
  - intros Hp Hrun. destruct (i_panicked0 Hp Hrun) as (i & ? & ?). eauto.
Qed.

(** Marking workers as inactive. *)
Lemma inv_inactive (bs : list bool) s :
  Inv s -> length bs = length (active s) ->
  (forall j, default false (bs !! j) = bit s j \/ (default false (bs !! j) = false /\ working (pc s j) = false /\
     (abort s = false -> between (pc s j) = false /\ unclaimed s j) /\
     (running (main s) = true -> bit s j = true -> ended (pc s j) = false))) ->
  Inv (set_active bs s).
Proof.
  intros I Hlen Hbs.
  assert (forall j, bit s j = true -> bit (set_active bs s) j = false ->
     working (pc s j) = false /\ (abort s = false -> between (pc s j) = false /\ unclaimed s j) /\
     (running (main s) = true -> bit s j = true -> ended (pc s j) = false)) as Hlost.
  { intros j Hb Hb'. change (default false (bs !! j) = false) in Hb'. destruct (Hbs j) as [E|(_ & E)]; [congruence|exact E]. }
  assert (forall j, bit s j = false -> bit (set_active bs s) j = false) as Hm.
  { intros j Hj. unfold bit. cbn. destruct (Hbs j) as [E|[E _]]; congruence. }
  lift I; try congruence.
  - intros i Hi. destruct (bit (set_active bs s) i) eqn:E; [done|]. destruct (Hlost i); eauto; congruence.
  - intros i Hi Ha. destruct (bit (set_active bs s) i) eqn:E; [done|]. destruct (Hlost i) as (_ & Hl & _); eauto. destruct (Hl Ha). congruence.
  - intros i j ? ? ?. eauto.
  - intros j Ha Ht. destruct (i_tok0 j Ha Ht) as [Hb Hp]. split; [|done].
    destruct (bit (set_active bs s) j) eqn:E; [done|]. destruct (Hlost j) as (_ & Hl & _); eauto. destruct (Hl Ha) as [_ (? & _)]. congruence.
  - intros i j Ha Ht. destruct (i_pend0 i j Ha Ht) as [Hb Hp]. split; [|done].
    destruct (bit (set_active bs s) j) eqn:E; [done|]. destruct (Hlost j) as (_ & Hl & _); eauto. destruct (Hl Ha) as [_ (_ & Hn & _)]. by destruct (Hn i).
  - intros j Ha Ht. destruct (i_mpend0 j Ha Ht) as [Hb Hp]. split; [|done].
    destruct (bit (set_active bs s) j) eqn:E; [done|]. destruct (Hlost j) as (_ & Hl & _); eauto. destruct (Hl Ha) as [_ (_ & _ & Hn)]. by destruct Hn.
  - intros Hr i. eauto.
  - intros Hp Hrun. destruct (i_panicked0 Hp Hrun) as (i & Hb & Hg). exists i. split; [|done].
    destruct (bit (set_active bs s) i) eqn:E; [done|]. destruct (Hlost i) as (Hw & _ & Hd); eauto.
    destruct Hg as [Hg|Hg]; [|by rewrite Hd in Hg]. destruct (pc s i); done.
Qed.

(** A worker moves to another program point, and nothing else changes. *)
Record Move (s : Sys) (i : nat) (q : WorkerPc) : Prop := mkMove {
  v_working : working q = true -> working (pc s i) = true \/ (between (pc s i) = true /\ abort s = false);
  v_between : between q = true -> abort s = false -> bit s i = true;
  v_late : late q = true -> abort s = true;
  v_last : lastp q = true -> forall j, i <> j ->
    working (pc s j) = false /\ (abort s = false \/ running (main s) = true -> bit s j = false);
  v_parking : parking (pc s i) = true -> abort s = false -> parking q = true;
  v_activate : forall j, q = WActivate j -> abort s = false -> i <> j /\ bit s j = true /\ parking (pc s j) = true /\ unclaimed s j;
  v_panicking : panicking q = true -> panicked s = true;
  v_gone : panicking (pc s i) = true \/ ended (pc s i) = true -> panicking q = true \/ ended q = true;
  v_reporting : reporting (pc s i) = true -> reporting q = true \/ main_token s = true;
  v_leaving : leaving (pc s i) = true -> leaving q = true \/ abort s = false }.

Lemma working_bit s i q : Inv s -> Move s i q -> working q = true -> bit s i = true.
Proof. intros I V H. destruct (v_working _ _ _ V H) as [Hw|[Hb Ha]]; [by apply i_working|by apply i_between]. Qed.

Lemma inv_moves i q s : Inv s -> i < length (pcs s) -> Move s i q -> Inv (set_pc i q s).
Proof.
  intros I Hi V. pose proof (pc_set_pc s i q Hi) as Vp. pose proof (working_bit s i q I V) as Hwb.
  pose proof (v_working _ _ _ V) as Hw. pose proof (v_activate _ _ _ V) as Hact.
  pose proof (v_last _ _ _ V) as Hlast. pose proof (i_last _ I) as IL.
  lift I.
  - intros k. rewrite Vp. case_decide; subst; auto.
  - intros k. rewrite Vp. case_decide; subst; [apply V|eauto].
  - intros k. rewrite Vp. case_decide; subst; [apply V|eauto].
  - intros k j. rewrite Vp, Vp. case_decide as Hik; subst.
    + intros Hl Hij. rewrite decide_False by done. by apply (Hlast Hl j).
    + intros Hl Hij. case_decide; [|eauto]. subst. destruct (working q) eqn:E; [|done].
      destruct (Hw eq_refl) as [Hw'|[Hb' Ha]]; [specialize (IL _ _ Hl Hij); congruence|].
      specialize (i_last_bit0 _ _ Hl Hij (or_introl Ha)). specialize (i_between0 _ Hb' Ha). congruence.
  - intros k j. rewrite Vp. case_decide; subst; [|eauto]. intros Hl Hij. by apply (Hlast Hl j).
  - intros j Ha Ht. rewrite Vp. destruct (i_tok0 j Ha Ht) as [? Hk]. split; [done|]. case_decide; [subst; by apply V|done].
  - intros k j Ha. rewrite Vp. case_decide; subst; intros E.
    + destruct (Hact j E Ha) as (Hij & ? & ? & (? & _)). rewrite Vp, decide_False by done. done.
    + destruct (i_pend0 _ _ Ha E) as (? & Hk & ?). split_and!; [done| |done]. rewrite Vp. case_decide; [subst; by apply V|done].
  - intros j Ha E. destruct (i_mpend0 _ Ha E) as (? & Hk & ?). split_and!; [done| |done]. rewrite Vp. case_decide; [subst; by apply V|done].
  - intros k k' j Ha. rewrite !Vp. destruct (decide (i = k)) as [<-|Hk]; intros E; destruct (decide (i = k')) as [<-|Hk']; intros E'; try done.
    + destruct (Hact j E Ha) as (_ & _ & _ & (_ & Hn & _)). by destruct (Hn k').
    + destruct (Hact j E' Ha) as (_ & _ & _ & (_ & Hn & _)). by destruct (Hn k).
    + by eauto.
  - intros k j Ha. rewrite Vp. case_decide; subst; [|by eauto]. intros E. by destruct (Hact j E Ha) as (_ & _ & _ & (_ & _ & Hn)).
  - intros Hp Hr. destruct (i_panicked0 Hp Hr) as (k & Hb & Hg). exists k. split; [done|]. rewrite !Vp.
    case_decide; [subst; by apply V|done].
  - intros k. rewrite Vp. case_decide; [apply V|apply i_panicking0].
  - intros Hp Hr. destruct (i_reported0 Hp Hr) as [?|[k Hk]]; [by left|]. destruct (decide (i = k)) as [<-|Hne].
    + destruct (v_reporting _ _ _ V Hk) as [?|?]; [right; exists i; by rewrite Vp, decide_True|by left].
    + right. exists k. by rewrite Vp, decide_False.
  - intros k Hk. rewrite Vp. destruct (i_drop0 k Hk) as [?|Hl]; [by left|]. case_decide; [|by right]. subst.
    destruct (v_leaving _ _ _ V Hl) as [?|Ha]; [by right|]. exfalso.
    assert (mlate (main s) = true) as Hm by (unfold unparked in Hk; destruct (main s); try done; lia). specialize (i_mlate0 Hm). congruence.
Qed.

(** A parked worker is unparked. *)
Lemma inv_unpark i s : Inv s -> i < length (pcs s) -> pc s i = WPark -> tok s i = true -> Inv (set_pc i WCheck (set_token i false s)).
Proof.
  intros I Hi Hp Ht.
  assert (forall k, pc (set_pc i WCheck (set_token i false s)) k = if decide (i = k) then WCheck else pc s k) as Vp by exact (pc_set_pc (set_token i false s) i WCheck Hi).
  assert (forall k, tok (set_token i false s) k = if decide (i = k) then false else tok s k) as Vt.
  { assert (i < length (tokens s)) by (rewrite (i_len_t _ I); done). by apply (tok_set_token s i false). }
  assert (forall k, pc s k <> WActivate i \/ abort s = true) as Hno.
  { intros k. destruct (abort s) eqn:Ha; [by right|]. left. intros E. destruct (i_pend _ I k i Ha E) as (_ & _ & ?). congruence. }
  lift I.
  - intros k. rewrite Vp. case_decide; [done|auto].
  - intros k. rewrite Vp. case_decide; subst; [|auto]. intros _ Ha. by apply i_tok0.
  - intros k. rewrite Vp. case_decide; [done|eauto].
  - intros k j. rewrite !Vp. case_decide; [done|]. case_decide; [done|eauto].
  - intros k j. rewrite Vp. case_decide; [done|eauto].
  - intros j Ha. rewrite Vp, Vt. case_decide; [done|]. by apply i_tok0.
  - intros k j Ha. rewrite (Vp k). case_decide; [done|]. intros E. destruct (i_pend0 _ _ Ha E) as (? & ? & ?). rewrite Vp, Vt.
    case_decide; [subst; congruence|done].
  - intros j Ha E. destruct (i_mpend0 _ Ha E) as (? & ? & ?). rewrite Vp, Vt. case_decide; [subst; congruence|done].
  - intros k k' j Ha. rewrite !Vp. case_decide; [done|]. case_decide; [done|eauto].
  - intros k j Ha. rewrite !Vp. case_decide; [done|eauto].
  - intros Hpk Hr. destruct (i_panicked0 Hpk Hr) as (k & Hb & Hg). exists k. split; [done|]. rewrite !Vp.
    case_decide; [subst; rewrite Hp in Hg; by destruct Hg|done].
  - intros k. rewrite Vp. case_decide; [done|apply i_panicking0].
  - intros Hpk Hr. destruct (i_reported0 Hpk Hr) as [?|[k Hk]]; [by left|]. right. exists k. rewrite Vp.
    case_decide; [subst; rewrite Hp in Hk; done|done].
  - intros k Hk. rewrite Vp, Vt. case_decide; [by right|]. by apply i_drop0.
Qed.

(** The task that worker [i] runs panics. *)
Lemma inv_panics i s : Inv s -> pc s i = WRun -> Inv (set_pc i WRegister (set_panicked s)).
Proof.
  intros I Hp. assert (i < length (pcs s)) as Hi by (apply pc_bound; by rewrite Hp).
  assert (bit s i = true) as Hb by (apply i_working; [done|by rewrite Hp]).
  assert (forall k, pc (set_pc i WRegister (set_panicked s)) k = if decide (i = k) then WRegister else pc s k) as Vp by exact (pc_set_pc (set_panicked s) i WRegister Hi).
  lift I; change (bit (set_panicked s)) with (bit s); change (tok (set_panicked s)) with (tok s).
  - intros k. rewrite Vp. case_decide; subst; auto.
  - intros k. rewrite Vp. case_decide; [done|auto].
  - intros k. rewrite Vp. case_decide; [done|eauto].
  - intros k j. rewrite !Vp. case_decide; [done|]. intros Hl Hij. case_decide; [|eauto]. subst. specialize (i_last0 _ _ Hl Hij).
    by rewrite Hp in i_last0.
  - intros k j. rewrite Vp. case_decide; [done|eauto].
  - intros j Ha Ht. rewrite Vp. destruct (i_tok0 _ Ha Ht) as [? Hk]. case_decide; [subst; by rewrite Hp in Hk|done].
  - intros k j Ha. rewrite (Vp k). case_decide; [done|]. intros E. destruct (i_pend0 _ _ Ha E) as (? & Hk & ?). rewrite Vp.
    case_decide; [subst; by rewrite Hp in Hk|done].
  - intros j Ha E. destruct (i_mpend0 _ Ha E) as (? & Hk & ?). rewrite Vp. case_decide; [subst; by rewrite Hp in Hk|done].
  - intros k k' j Ha. rewrite !Vp. case_decide; [done|]. case_decide; [done|eauto].
  - intros k j Ha. rewrite !Vp. case_decide; [done|eauto].
  - intros _ Hr. exists i. rewrite Vp, decide_True by done. auto.
  - done.
  - done.
  - done.
  - intros Hpk Hr. destruct (i_reported0 Hpk Hr) as [?|[k Hk]]; [by left|]. right. exists k. rewrite Vp.
    case_decide; [subst; rewrite Hp in Hk; done|done].
  - intros k Hk. rewrite Vp. case_decide; [|by apply i_drop0]. subst. destruct (i_drop0 _ Hk) as [?|Hl]; [by left|]. by rewrite Hp in Hl.
  - done.
Qed.

(** The main thread moves. *)
Lemma inv_main m s : Inv s ->
  (mlate m = true -> abort s = true) ->
  (running m = true -> running (main s) = true) ->
  (forall j, m = MUnpark j -> abort s = false -> bit s j = true /\ parking (pc s j) = true /\ unclaimed s j) ->
  (resting m = true -> forall i, bit s i = false) ->
  (waiting m = true -> waiting (main s) = true \/ panic s = false) ->
  (forall i, i < unparked m (length (pcs s)) -> i < unparked (main s) (length (pcs s)) \/ tok s i = true \/ leaving (pc s i) = true) ->
  (m = MReturned RPanic -> panicked s = true) ->
  Inv (set_main m s).
Proof.
  intros I Hl Hr Hu Hre Hw Hun Hret. unfold unclaimed in Hu.
  lift I; auto.
  - intros i j ? ? [?|?]; eauto.
  - intros j Ha E. destruct (Hu j E Ha) as (? & ? & ? & _). done.
  - intros i j Ha E Em. destruct (Hu j Em Ha) as (_ & _ & _ & Hn & _). by destruct (Hn i).
  - intros Hp Hwm. destruct (Hw Hwm); [by apply i_reported0|congruence].
  - intros i Hi. destruct (Hun i Hi) as [?|?]; [by apply i_drop0|done].
Qed.

(** ** Every step preserves the invariant *)
Ltac moves Hpc :=
  apply inv_moves; [assumption|fields; assumption|constructor; fields; rewrite ?Hpc; cbn; intros; subst; auto; try done; try (intuition congruence)].

Section Worker.
Context (s : Sys) (i : nat) (I : Inv s) (Hi : i < length (pcs s)).

(** [try_set_worker_inactive] finds its own bit. *)
Lemma try_active : pc s i = WTry -> active s !! i = Some true.
Proof using I Hi.
  intros Hp. assert (bit s i = true) as Hb by (apply i_working; [done|by rewrite Hp]).
  unfold bit in Hb. destruct (active s !! i); cbn in Hb; congruence.
Qed.

Lemma inv_try_last : pc s i = WTry -> active s = only i s -> Inv (set_pc i WLast s).
Proof using I Hi.
  intros Hp Ho. assert (forall j, i <> j -> bit s j = false) as Hb by (intros; by apply (bit_only s i)).
  assert (bit s i = true) as Hbi by (apply i_working; [done|by rewrite Hp]).
  moves Hp. split; [|auto]. destruct (working (pc s j)) eqn:E; [|done]. apply i_working in E; [|done]. rewrite Hb in E; done.
Qed.

Lemma inv_try_park : pc s i = WTry -> Inv (set_pc i WPark (set_active (<[i := false]> (active s)) s)).
Proof using I Hi.
  intros Hp.
  assert (abort s = false -> unclaimed s i) as Hu by (intros Ha; apply unclaimed_busy; [done..|by rewrite Hp]).
  assert (Inv (set_pc i WPark s)) as I' by (moves Hp).
  pose proof (pc_set_pc s i WPark Hi) as Vp. assert (i < length (active s)) as Hia by (by rewrite (i_len _ I)).
  apply (inv_inactive (<[i := false]> (active s)) (set_pc i WPark s)); [done|by rewrite length_insert|].
  intros j. destruct (decide (i = j)) as [<-|Hij].
  - right. rewrite list_lookup_insert_eq by done. rewrite Vp, decide_True by done. split_and!; try done.
    intros Ha. split; [done|]. destruct (Hu Ha) as (? & Hn & ?). split_and!; [done| |done].
    intros k. rewrite Vp. case_decide; [done|apply Hn].
  - left. by rewrite list_lookup_insert_ne.
Qed.

Lemma inv_set_all : pc s i = WSetAll -> Inv (set_pc i WUnparkMain (set_active (all false s) s)).
Proof using I Hi.
  intros Hp.
  assert (forall j, i <> j -> working (pc s j) = false) as Hw by (intros; eapply i_last; eauto; by rewrite Hp).
  assert (forall j, i <> j -> abort s = false \/ running (main s) = true -> bit s j = false) as Hb by (intros; eapply i_last_bit; eauto; by rewrite Hp).
  assert (forall j, abort s = false -> unclaimed s j) as Hu.
  { intros j Ha. destruct (decide (i = j)) as [<-|Hij]; [apply unclaimed_busy; [done..|by rewrite Hp]|]. apply unclaimed_inactive; auto. }
  assert (forall j, i <> j -> abort s = false -> between (pc s j) = false) as Hbt.
  { intros j Hij Ha. pose proof (inactive_parking s j I Ha (Hb j Hij (or_introl Ha))) as Hk. by destruct (pc s j). }
  assert (Inv (set_pc i WUnparkMain s)) as I' by (moves Hp).
  pose proof (pc_set_pc s i WUnparkMain Hi) as Vp.
  apply (inv_inactive (all false s) (set_pc i WUnparkMain s)); [done|by unfold all; rewrite length_replicate|].
  intros j. right. change (bit (set_pc i WUnparkMain s)) with (bit s). rewrite Vp. split_and!.
  - apply (bit_all_false s j).
  - case_decide; auto.
  - intros Ha. split; [case_decide; auto|]. destruct (Hu j Ha) as (? & Hn & ?). split_and!; [done| |done].
    intros k. rewrite Vp. case_decide; [done|apply Hn].
  - intros Hr Hbj. case_decide as Hij; [done|]. by rewrite (Hb j Hij (or_intror Hr)) in Hbj.
Qed.

(** A running task activates another worker. *)
Lemma inv_run_activate j :
  pc s i = WRun -> active s !! j = Some false -> Inv (set_pc i (WActivate j) (set_active (<[j := true]> (active s)) s)).
Proof using I Hi.
  intros Hp Hj. assert (j < length (active s)) as Hja by (by eapply lookup_lt_Some). apply bit_lookup in Hj.
  assert (bit s i = true) as Hbi by (apply i_working; [done|by rewrite Hp]).
  assert (Inv (set_active (<[j := true]> (active s)) s)) as I'.
  { apply inv_activate; [done| |].
    - destruct (resting (main s)) eqn:E; [|done]. rewrite (i_rest _ I E i) in Hbi. done.
    - intros k Hk. assert (k <> i) by (intros ->; by rewrite Hp in Hk). pose proof (i_last _ I k i Hk ltac:(done)) as E. by rewrite Hp in E. }
  pose proof (bit_insert s j true Hja) as Vb.
  apply (inv_moves i (WActivate j) _ I'); [done|]. constructor; fields; rewrite ?Hp; cbn; try done; try (intros; intuition congruence); auto.
  intros k [= <-] Ha. split_and!.
  - intros ->. congruence.
  - rewrite Vb. by rewrite decide_True.
  - by apply inactive_parking.
  - destruct (unclaimed_inactive s j I Ha Hj) as (? & ? & ?). split_and!; done.
Qed.
End Worker.

Lemma inv_unpark_other i j s : Inv s -> i < length (pcs s) -> pc s i = WActivate j -> Inv (set_pc i WRun (set_token j true s)).
Proof.
  intros I Hi Hp. assert (Inv (set_pc i WRun s)) as I' by (moves Hp).
  apply (inv_token j (set_pc i WRun s) I'). intros Ha. destruct (i_pend _ I i j Ha Hp) as (? & Hk & ?).
  pose proof (pc_set_pc s i WRun Hi) as Vp. assert (i <> j) by (intros ->; by rewrite Hp in Hk).
  unfold unclaimed. split_and!; [done| |done| |exact (i_mpend_one _ I i j Ha Hp)].
  - by rewrite Vp, decide_False.
  - intros k. rewrite Vp. case_decide as Hik; [done|]. intros E. by destruct Hik; apply (i_pend_one _ I i k j).
Qed.

Lemma inv_register i s : Inv s -> reporting (pc s i) = true -> Inv (set_panic true s).
Proof.
  intros I Hr. assert (panicking (pc s i) = true) as Hp by (by destruct (pc s i)). apply i_panicking in Hp; [|done].
  lift I; [done|]. intros _ _. right. by exists i.
Qed.

Lemma worker_inv i p c s : Inv s -> pcs s !! i = Some p -> exists s', worker_step i p c s = Some s' /\ Inv s'.
Proof.
  intros I Hl. pose proof (lookup_lt_Some _ _ _ Hl) as Hi. apply pc_lookup in Hl as Hp. destruct p; cbn.
  - rewrite (try_active s i I Hi Hp). case_bool_decide; eexists; (split; [done|]); [by apply inv_try_last|by apply inv_try_park].
  - eexists. split; [done|]. pose proof (i_between _ I i) as Hb. rewrite Hp in Hb. pose proof (i_last _ I i) as Hw.
    pose proof (i_last_bit _ I i) as Hwb. rewrite Hp in Hw, Hwb. destruct c; moves Hp.
  - eexists. split; [done|]. by apply inv_set_all.
  - eexists. split; [done|]. apply inv_main_token with (b := true) in I; [|by left]. by moves Hp.
  - destruct (tokens s !! i) as [[]|] eqn:E; eexists; (split; [done|]); try done. apply inv_unpark; try done. unfold tok. by rewrite E.
  - eexists. split; [done|]. pose proof (i_between _ I i) as Hb. rewrite Hp in Hb. moves Hp.
  - eexists. split; [done|]. destruct (abort s) eqn:Ha; moves Hp.
  - eexists. split; [done|]. destruct c; moves Hp.
  - eexists. split; [done|]. destruct (abort s) eqn:Ha; [destruct c; cbn [ended_by]; moves Hp|moves Hp].
  - destruct c; cbn; try (eexists; split; [done|]; moves Hp).
    + eexists. split; [done|]. by apply inv_panics.
    + destruct (active s !! j) as [[]|] eqn:E; eexists; (split; [done|]); try done. by apply inv_run_activate.
  - eexists. split; [done|]. by apply inv_unpark_other.
  - eexists. split; [done|]. pose proof (i_panicking _ I i) as Hk. rewrite Hp in Hk. assert (Inv (set_pc i WAbort s)) as I' by (moves Hp).
    apply (inv_register i (set_pc i WAbort s) I'). by rewrite pc_set_pc, decide_True.
  - eexists. split; [done|]. pose proof (i_panicking _ I i) as Hk. rewrite Hp in Hk. apply inv_abort in I; [|by auto]. moves Hp.
  - eexists. split; [done|]. pose proof (i_panicking _ I i) as Hk. rewrite Hp in Hk. pose proof (i_late _ I i) as Ha. rewrite Hp in Ha.
    assert (Inv (set_active (all true s) s)) as I'.
    { apply inv_all_active; auto.
      - destruct (resting (main s)) eqn:E; [|done]. pose proof (i_working _ I i) as Hw. rewrite Hp in Hw. rewrite (i_rest _ I E i) in Hw. by specialize (Hw eq_refl).
      - intros _ k Hk'. assert (k <> i) by (intros ->; by rewrite Hp in Hk'). pose proof (i_last _ I k i Hk' ltac:(done)) as E. by rewrite Hp in E. }
    clear I. moves Hp.
  - pose proof (i_panicking _ I i) as Hk. rewrite Hp in Hk. pose proof (i_late _ I i) as Ha. rewrite Hp in Ha. specialize (Ha eq_refl).
    destruct (decide _); eexists; (split; [done|]); [|by moves Hp].
    apply inv_token with (j := k) in I; [|intros; congruence]. moves Hp.
  - eexists. split; [done|]. pose proof (i_late _ I i) as Ha. rewrite Hp in Ha. specialize (Ha eq_refl).
    apply inv_main_token with (b := true) in I; [|by left]. destruct c; cbn [ended_by]; moves Hp.
  - by eexists.
  - by eexists.
Qed.

(** Between two runs, every worker is parked, or about to be, and nothing has been
    asked of it. *)
Lemma inv_resting s : Inv s -> resting (main s) = true ->
  abort s = false /\ panicked s = false /\ forall i, bit s i = false /\ parking (pc s i) = true /\ unclaimed s i.
Proof.
  intros I Hr. assert (running (main s) = true) as Hrun by (by destruct (main s) as [[]| | | | | | | | | | | | | |]).
  assert (panicked s = false) as Hp.
  { destruct (panicked s) eqn:E; [|done]. destruct (i_panicked _ I E Hrun) as (i & Hb & _). by rewrite (i_rest _ I Hr i) in Hb. }
  assert (abort s = false) as Ha by (destruct (abort s) eqn:E; [rewrite (i_abort _ I E Hrun) in Hp; done|done]).
  split_and!; [done..|]. intros i. pose proof (i_rest _ I Hr i). split_and!; [done|by apply inactive_parking|by apply unclaimed_inactive].
Qed.

Lemma inv_take s : Inv s -> main s = MTake -> panic s = true -> Inv (set_main (MReturned RPanic) (set_panic false s)).
Proof.
  intros I Hm Hp. apply i_panic in Hp; [|done].
  assert (Inv (set_main (MReturned RPanic) s)) as I' by (apply inv_main; cbn; try done; intros; lia).
  lift I'; done.
Qed.

(** Every main thread step that only moves it, once its tokens and its bits are set. *)
Ltac mmoves Hm := apply inv_main; fields; rewrite ?Hm; cbn; intros; try done; try lia; auto.

Lemma main_inv c s : Inv s -> Inv (main_step c s).
Proof.
  intros I. unfold main_step. destruct (main s) eqn:Hm; try done.
  - destruct c as [| | |j]; try done. destruct (active s !! j) as [[]|] eqn:Ej; try done.
    destruct (inv_resting s I) as (Ha & _ & Hall); [by rewrite Hm|]. destruct (Hall j) as (_ & Hk & Hu).
    assert (Inv (set_main MTake s)) as I1 by (mmoves Hm).
    assert (Inv (set_main MTake (set_active (<[j := true]> (active s)) s))) as I2.
    { apply (inv_activate j (set_main MTake s)); [done..|]. intros k Hl. destruct (Hall k) as (_ & Hk' & _). change (lastp (pc s k) = true) in Hl. by destruct (pc s k). }
    assert (j < length (active s)) as Hj by (by eapply lookup_lt_Some).
    apply (inv_main (MUnpark j) (set_main MTake (set_active (<[j := true]> (active s)) s)) I2); cbn; try done; try (intros; lia).
    intros k [= <-] _. split_and!; [|done|by destruct Hu as (? & ? & _)].
    change (bit (set_active (<[j := true]> (active s)) s) j = true). by rewrite bit_insert, decide_True.
  - assert (Inv (set_main MTake s)) as I1 by (mmoves Hm).
    apply (inv_token j (set_main MTake s) I1). intros Ha. destruct (i_mpend _ I j Ha Hm) as (? & ? & ?).
    unfold unclaimed. split_and!; try done. intros k E. by apply (i_mpend_one _ I k j Ha E).
  - destruct (panic s) eqn:Ep; [by apply inv_take|]. mmoves Hm.
  - case_bool_decide as E; [destruct c|]; mmoves Hm; by apply active_none.
  - destruct (main_token s).
    + assert (Inv (set_main MTake s)) as I1 by (mmoves Hm). apply (inv_main_token false (set_main MTake s) I1). by right.
    + destruct c; try done. mmoves Hm.
  - apply inv_abort in I; [|by rewrite Hm]. mmoves Hm.
  - assert (abort s = true) as Ha by (apply i_mlate; [done|by rewrite Hm]).
    assert (Inv (set_active (all true s) s)) as I1 by (apply inv_all_active; rewrite ?Hm; done). mmoves Hm.
  - assert (abort s = true) as Ha by (apply i_mlate; [done|by rewrite Hm]). case_decide.
    + assert (Inv (set_token k true s)) as I1 by (apply inv_token; [done|congruence]). mmoves Hm.
    + mmoves Hm.
  - apply inv_abort in I; [|by rewrite Hm]. mmoves Hm.
  - assert (abort s = true) as Ha by (apply i_mlate; [done|by rewrite Hm]).
    assert (Inv (set_active (all true s) s)) as I1 by (apply inv_all_active; rewrite ?Hm; done). mmoves Hm.
  - assert (abort s = true) as Ha by (apply i_mlate; [done|by rewrite Hm]). unfold pool_size. case_decide as Hk.
    + assert (Inv (set_token k true s)) as I1 by (apply inv_token; [done|congruence]). mmoves Hm.
      rewrite <- (i_len_t _ I) in Hk. destruct (decide (i = k)) as [->|Hne]; [|left; lia]. right. left. by rewrite tok_set_token, decide_True.
    + mmoves Hm.
  - assert (abort s = true) as Ha by (apply i_mlate; [done|by rewrite Hm]). destruct (pcs s !! k) as [[]|]; try done; mmoves Hm.
Qed.

Lemma step_keeps a s : Inv s -> exists s', step a s = Some s' /\ Inv s'.
Proof.
  intros I. destruct a as [| |c|i c]; cbn.
  - eexists. split; [done|]. destruct (main s) as [[]| | | | | | | | | | | | | |] eqn:Hm; try done. mmoves Hm. apply i_rest; [done|by rewrite Hm].
  - eexists. split; [done|]. destruct (main s) eqn:Hm; try done. mmoves Hm.
  - eexists. split; [done|]. by apply main_inv.
  - destruct (pcs s !! i) eqn:E; [by eapply worker_inv|by eexists].
Qed.

Lemma run_keeps l : forall s, Inv s -> exists s', run l s = Some s' /\ Inv s'.
Proof.
  induction l as [|a l IH]; intros s I; cbn; [by exists s|].
  destruct (step_keeps a s I) as (s1 & -> & I1). cbn. by apply IH.
Qed.

(** ** Progress *)
Definition activation (c : Choice) : nat := match c with CActivate _ => 2 | _ => 0 end.

(** The steps that worker [i] takes in a schedule, and the price of those in which its
    task activates another worker. *)
Fixpoint steps (i : nat) (l : list Action) : nat :=
  match l with
  | AWorker j _ :: l => (if decide (i = j) then 1 else 0) + steps i l
  | _ :: l => steps i l
  | [] => 0
  end.
Fixpoint activations (i : nat) (l : list Action) : nat :=
  match l with
  | AWorker j c :: l => (if decide (i = j) then activation c else 0) + activations i l
  | _ :: l => activations i l
  | [] => 0
  end.

(** How far a worker is from its end, once it was asked to return. *)
Definition rank (n : nat) (p : WorkerPc) : nat :=
  match p with
  | WDone | WFailed => 0 | WCheck => 1 | WGot => 1 | WReport => 1 | WPark => 2 | WBegin => 2 | WUnparkMain => 3 | WSetAll => 4 | WLast => 5
  | WTry => 6 | WSearch => 7 | WUnparkAll k => (n - k) + 2 | WAllActive => n + 3 | WAbort => n + 4 | WRegister => n + 5
  | WRun => n + 8 | WActivate _ => n + 9
  end.

Lemma worker_same i p c s s' j : worker_step i p c s = Some s' -> i <> j -> pcs s' !! j = pcs s !! j.
Proof.
  intros H Hij. destruct p, c; cbn in H; repeat case_match; simplify_eq; cbn; rewrite ?list_lookup_insert_ne by done; done.
Qed.
Lemma worker_shape i p c s s' : worker_step i p c s = Some s' ->
  length (pcs s') = length (pcs s) /\ main s' = main s /\ (abort s = true -> abort s' = true) /\
  (main_token s = true -> main_token s' = true) /\ (panic s = true -> panic s' = true).
Proof. intros H. destruct p, c; cbn in H; repeat case_match; simplify_eq; cbn; rewrite ?length_insert; done. Qed.
Lemma main_same c s : pcs (main_step c s) = pcs s.
Proof. unfold main_step. repeat case_match; done. Qed.

Lemma step_length a s s' : step a s = Some s' -> length (pcs s') = length (pcs s).
Proof.
  destruct a as [| |c|i c]; cbn; intros H; simplify_eq.
  - by destruct (main s) as [[]| | | | | | | | | | | | | |].
  - by destruct (main s).
  - by rewrite main_same.
  - destruct (pcs s !! i); simplify_eq; [|done]. by eapply worker_shape.
Qed.
Lemma run_length l : forall s s', run l s = Some s' -> length (pcs s') = length (pcs s).
Proof.
  induction l as [|a l IH]; cbn; intros s s' H; [by simplify_eq|].
  apply bind_Some in H as (s1 & H1 & H). rewrite (IH _ _ H). by eapply step_length.
Qed.
Lemma run_then l l' s : run (l ++ l') s = s' ← run l s; run l' s'.
Proof. revert s. induction l as [|a l IH]; intros s; cbn; [done|]. destruct (step a s); cbn; [apply IH|done]. Qed.

(** Once the threads were asked to return, every step of a worker brings it nearer to
    its end, but the ones in which its task activates another worker. *)
Lemma worker_rank i p c s s' :
  pcs s !! i = Some p -> worker_step i p c s = Some s' -> abort s = true -> (p = WPark -> tok s i = true) ->
  rank (length (pcs s)) (pc s' i) <= pred (rank (length (pcs s)) p) + activation c.
Proof.
  intros Hp H Ha Ht. pose proof (lookup_lt_Some _ _ _ Hp) as Hi.
  assert (forall q t, pcs t = pcs s -> pc (set_pc i q t) i = q) as Hq.
  { intros q t E. unfold pc, set_pc. cbn. rewrite E. by rewrite list_lookup_insert_eq. }
  unfold pool_size in *.
  destruct p; cbn in H; rewrite ?Ha in H; repeat case_match; simplify_eq; rewrite ?Hq by done; cbn; unfold pool_size in *; try lia.
  all: try (rewrite (pc_lookup _ _ _ Hp); cbn; lia).
  all: try (destruct c; cbn; lia).
  all: specialize (Ht eq_refl); unfold tok in Ht; match goal with E : tokens _ !! _ = _ |- _ => rewrite E in Ht; done end.
Qed.

Definition joining (m : MainPc) : bool := match m with MJoin _ | MDropped | MJoinPanic _ => true | _ => false end.

Lemma joining_step a s s' : step a s = Some s' -> joining (main s) = true -> joining (main s') = true.
Proof.
  destruct a as [| |c|i c]; cbn; intros H Hj; simplify_eq.
  - by destruct (main s) as [[]| | | | | | | | | | | | | |] eqn:E; cbn; rewrite ?E.
  - by destruct (main s) eqn:E; cbn; rewrite ?E.
  - unfold main_step. destruct (main s) eqn:E; try done; repeat case_match; cbn; try done; by rewrite E.
  - destruct (pcs s !! i); simplify_eq; [|done]. by destruct (worker_shape _ _ _ _ _ H) as (_ & -> & _).
Qed.

(** A worker that is waited for has ended once it was given enough steps. *)
Lemma joined_worker i l : forall s s', Inv s -> joining (main s) = true -> i < length (pcs s) -> run l s = Some s' ->
  ended (pc s i) = true \/ rank (length (pcs s)) (pc s i) + activations i l <= steps i l -> ended (pc s' i) = true.
Proof.
  induction l as [|a l IH]; cbn; intros s s' I Hj Hi H Hr.
  { simplify_eq. destruct Hr as [?|Hr]; [done|]. destruct (pc s' i); cbn in Hr; try lia; done. }
  apply bind_Some in H as (s1 & H1 & H). destruct (step_keeps a s I) as (s1' & E & I1). rewrite E in H1. injection H1 as ->.
  pose proof (step_length _ _ _ E) as Hlen. pose proof (joining_step _ _ _ E Hj) as Hj1.
  apply (IH s1); try done; [lia|]. rewrite Hlen.
  destruct a as [| |c|j c]; cbn in E.
  1-3: assert (pcs s1 = pcs s) as Hs by (simplify_eq; rewrite ?main_same; by repeat case_match); unfold pc in *; rewrite Hs; exact Hr.
  case_decide as Hij; [subst j|].
  - destruct (lookup_lt_is_Some_2 _ _ Hi) as [p Hp]. rewrite Hp in E.
    assert (abort s = true) as Ha by (apply i_mlate; [done|]; by destruct (main s)).
    assert (p = WPark -> tok s i = true) as Ht.
    { intros ->. destruct (i_drop _ I i) as [?|Hl]; [|done|].
      - destruct (main s); done.
      - rewrite (pc_lookup _ _ _ Hp) in Hl. done. }
    pose proof (worker_rank _ _ _ _ _ Hp E Ha Ht) as Hd. rewrite (pc_lookup _ _ _ Hp) in Hr.
    destruct (decide (rank (length (pcs s)) p = 0)) as [Hz|Hne].
    + left. destruct p; cbn in Hz; try lia; cbn in E; simplify_eq; by rewrite (pc_lookup _ _ _ Hp).
    + right. destruct Hr as [Hr|Hr]; [by destruct p|lia].
  - assert (pc s1 i = pc s i) as ->; [|exact Hr]. unfold pc. destruct (pcs s !! j) as [p|] eqn:Hp; simplify_eq; [|done].
    by rewrite (worker_same _ _ _ _ _ i E).
Qed.

Definition no_main (a : Action) : bool := match a with AMain _ => false | _ => true end.

(** The worker that registered a panic unparks the main thread. *)
Lemma reporting_worker i l : forall s s', forallb no_main l = true -> waiting (main s) = true -> run l s = Some s' ->
  main_token s = true \/ (reporting (pc s i) = true /\ rank (length (pcs s)) (pc s i) <= steps i l) ->
  main_token s' = true /\ main s' = main s /\ (panic s = true -> panic s' = true).
Proof.
  induction l as [|a l IH]; cbn; intros s s' Hl Hw H Hr.
  { simplify_eq. split_and!; try done. destruct Hr as [?|[Hr Hk]]; [done|]. destruct (pc s' i); cbn in *; try lia; done. }
  apply andb_true_iff in Hl as [Ha Hl]. apply bind_Some in H as (s1 & H1 & H).
  destruct a as [| |c|j c]; cbn in H1; try done.
  1-2: assert (s1 = s) as -> by (injection H1 as <-; by destruct (main s) as [[]| | | | | | | | | | | | | |]); by apply IH.
  destruct (pcs s !! j) as [p|] eqn:Hp.
  2:{ simplify_eq. apply IH; try done. case_decide as Hij; [|done]. subst j. destruct Hr as [?|[Hr _]]; [by left|].
      unfold pc in Hr. by rewrite Hp in Hr. }
  destruct (worker_shape _ _ _ _ _ H1) as (Hlen & Hm & Hab & Htk & Hpn).
  destruct (IH s1 s' Hl) as (? & ? & ?); [congruence|done| |split_and!; [done|congruence|auto]].
  destruct Hr as [?|[Hr Hk]]; [by left; auto|]. rewrite Hlen. case_decide as Hij; [subst j|].
  - rewrite (pc_lookup _ _ _ Hp) in Hr, Hk. pose proof (lookup_lt_Some _ _ _ Hp) as Hi.
    assert (forall q t, pcs t = pcs s -> pc (set_pc i q t) i = q) as Hq.
    { intros q t E. unfold pc, set_pc. cbn. rewrite E. by rewrite list_lookup_insert_eq. }
    destruct p; try done; cbn in H1; repeat case_match; simplify_eq; try (by left); right; rewrite Hq by done;
      unfold pool_size in *; cbn in *; split; try done; lia.
  - right. unfold pc. rewrite (worker_same _ _ _ _ _ i H1) by done. split; [done|]. unfold pc in Hk. lia.
Qed.

(** ** The theorems *)

(** C10: whatever the order in which the threads run, whatever the tasks do, and
    whenever a run times out or the executor is dropped, a worker that tries to become inactive
    is always marked as active, so that the assertion of [try_set_worker_inactive]
    holds; a run succeeds, or reports unprocessed messages, only if no task has ever panicked, and then no thread was asked to
    return and every worker is inactive, parked or about to park, with no pending
    request to wake up; and a run reports a panic only if a task has panicked. *)
Theorem run_result_sound n l :
  exists s, run l (initial n) = Some s /\
    (main s = MReturned ROk \/ main s = MReturned RUnprocessed -> panicked s = false /\ abort s = false /\
       forall i, bit s i = false /\ parking (pc s i) = true /\ tok s i = false) /\
    (main s = MReturned RPanic -> panicked s = true).
Proof.
  destruct (run_keeps l (initial n) (inv_initial n)) as (s & Hs & I). exists s. split_and!; [done| |by apply i_returned].
  intros Hm. destruct (inv_resting s I) as (Ha & Hp & Hall); [by destruct Hm as [-> | ->]|]. split_and!; [done..|].
  intros i. destruct (Hall i) as (? & ? & (? & _)). done.
Qed.

(** C11: a panic is never missed.  When a panic is registered while the main thread
    is about to park or is parked, there is a worker such that, as soon as it has taken [n + 4]
    steps, whatever the other workers do, the run returns the panic in the next two steps of the main thread. *)
Theorem panic_reported n l0 s :
  run l0 (initial n) = Some s -> panic s = true -> main s = MPark ->
  exists i, forall l c c', forallb no_main l = true -> n + 4 <= steps i l ->
    exists s', run (l ++ [AMain c; AMain c']) s = Some s' /\ main s' = MReturned RPanic.
Proof.
  intros H0 Hp Hm. destruct (run_keeps l0 (initial n) (inv_initial n)) as (s0 & Hs & I). rewrite H0 in Hs. injection Hs as <-.
  pose proof (run_length _ _ _ H0) as Hlen. cbn in Hlen. rewrite length_replicate in Hlen.
  assert (exists i, main_token s = true \/ reporting (pc s i) = true) as [i Hi].
  { destruct (i_reported _ I Hp) as [?|[i ?]]; [by rewrite Hm|by exists 0; left|by exists i; right]. }
  exists i. intros l c c' Hl Hst. destruct (run_keeps l s I) as (s1 & H1 & I1).
  destruct (reporting_worker i l s s1 Hl) as (Ht & Hm1 & Hp1); [by rewrite Hm|done| |].
  { destruct Hi as [?|Hi]; [by left|right; split; [done|]]. rewrite Hlen. destruct (pc s i); cbn in *; try done; lia. }
  rewrite run_then, H1. cbn. eexists. split; [done|]. unfold main_step. rewrite Hm1, Hm, Ht. cbn. rewrite (Hp1 Hp). done.
Qed.

(** What the main thread has joined. *)
Definition joined (s : Sys) : Prop :=
  match main s with
  | MJoin k => forall i, i < k -> pc s i = WDone
  | MDropped => forall i, i < pool_size s -> pc s i = WDone
  | MJoinPanic k => k < pool_size s /\ pc s k = WFailed /\ forall i, i < k -> pc s i = WDone
  | _ => True
  end.

(** A thread that has ended stays so. *)
Lemma ended_stays a s s' i : step a s = Some s' -> ended (pc s i) = true -> pc s' i = pc s i.
Proof.
  destruct a as [| |c|j c]; cbn; intros H He.
  - simplify_eq. by destruct (main s) as [[]| | | | | | | | | | | | | |].
  - simplify_eq. by destruct (main s).
  - simplify_eq. unfold pc. by rewrite main_same.
  - destruct (pcs s !! j) as [p|] eqn:Hp; [|by simplify_eq]. destruct (decide (j = i)) as [->|Hij].
    + rewrite (pc_lookup _ _ _ Hp) in *. destruct p; try done; cbn in H; simplify_eq; by apply pc_lookup.
    + unfold pc. by rewrite (worker_same _ _ _ _ _ _ H Hij).
Qed.

Lemma step_joined a s s' : step a s = Some s' -> joined s -> joined s'.
Proof.
  intros H Hj. pose proof (step_length _ _ _ H) as Hlen. pose proof (fun i => ended_stays a s s' i H) as Hs.
  assert (forall i p, pc s i = p -> ended p = true -> pc s' i = p) as Hs' by (intros i p <-; apply Hs).
  assert (main s' = main s -> joined s') as Hsame.
  { intros Hm. unfold joined in *. rewrite Hm. unfold pool_size in *. rewrite Hlen. destruct (main s); try done; auto.
    destruct Hj as (? & ? & ?). auto. }
  destruct a as [| |c|i c]; cbn in H.
  - destruct (main s) as [[]| | | | | | | | | | | | | |] eqn:Hm; simplify_eq; auto. done.
  - destruct (main s) eqn:Hm; simplify_eq; auto; done.
  - simplify_eq. unfold main_step in *. destruct (main s) eqn:Hm; try (by apply Hsame); clear Hsame; unfold joined in Hj; rewrite Hm in Hj;
      repeat case_match; simplify_eq; try (unfold joined; cbn; rewrite ?Hm; done); unfold joined; cbn; unfold pool_size; cbn.
    all: change (pc (set_main ?m s)) with (pc s).
    + intros i Hi. lia.
    + intros i Hi. destruct (decide (i = k)) as [->|]; [by apply pc_lookup|apply Hj; lia].
    + split_and!; [by eapply lookup_lt_Some|by apply pc_lookup|done].
    + intros i Hi. apply Hj. match goal with E : pcs s !! _ = None |- _ => apply lookup_ge_None in E end. lia.
  - apply Hsame. destruct (pcs s !! i); simplify_eq; [|done]. by destruct (worker_shape _ _ _ _ _ H) as (_ & ? & _).
Qed.
Lemma run_joined l : forall s s', run l s = Some s' -> joined s -> joined s'.
Proof.
  induction l as [|a l IH]; cbn; intros s s' H Hj; [by simplify_eq|]. apply bind_Some in H as (s1 & H1 & H).
  eapply IH; [done|]. by eapply step_joined.
Qed.

(** The main thread leaves the joins, once the threads have ended. *)
Definition join_over (m : MainPc) : bool := match m with MDropped | MJoinPanic _ => true | _ => false end.

Lemma over_stays s m : join_over (main s) = true -> run (replicate m (AMain CYes)) s = Some s.
Proof. intros Hm. induction m as [|m IH]; cbn; [done|]. unfold main_step at 1. destruct (main s) eqn:E; try done; exact IH. Qed.

Lemma joins_end n s : (forall i, i < n -> ended (pc s i) = true) -> length (pcs s) = n ->
  forall d k, main s = MJoin k -> n - k <= d ->
  exists s', run (replicate (S d) (AMain CYes)) s = Some s' /\ join_over (main s') = true /\ pcs s' = pcs s.
Proof.
  intros Hall Hlen d. revert s Hall Hlen. induction d as [|d IH]; intros s Hall Hlen k Hm Hk.
  - cbn. eexists. split; [done|]. unfold main_step. rewrite Hm. rewrite lookup_ge_None_2 by lia. done.
  - cbn [replicate run step mbind option_bind]. destruct (decide (k < n)) as [Hkn|Hkn].
    + destruct (lookup_lt_is_Some_2 (pcs s) k) as [p Hp]; [lia|]. pose proof (Hall k Hkn) as He.
      rewrite (pc_lookup _ _ _ Hp) in He. destruct p; try done.
      * assert (main_step CYes s = set_main (MJoin (S k)) s) as -> by (unfold main_step; by rewrite Hm, Hp).
        destruct (IH (set_main (MJoin (S k)) s) Hall Hlen (S k) eq_refl) as (s' & ? & ? & ?); [lia|]. by exists s'.
      * assert (main_step CYes s = set_main (MJoinPanic k) s) as -> by (unfold main_step; by rewrite Hm, Hp).
        exists (set_main (MJoinPanic k) s). split_and!; [by apply (over_stays _ (S d))|done..].
    + assert (main_step CYes s = set_main MDropped s) as -> by (unfold main_step; rewrite Hm, lookup_ge_None_2 by lia; done).
      exists (set_main MDropped s). split_and!; [by apply (over_stays _ (S d))|done..].
Qed.

(** C12: the threads are joined when the executor is dropped.  Once the main thread waits for the
    worker threads, and whatever they were doing when they were asked to return, every worker
    thread ends after at most [n + 9] of its own steps, twice the number of activations of the task that it
    runs apart, in whatever order the threads are scheduled, either normally or by a panic when its [Worker]
    is dropped.  The main thread never blocks on them: it joins them all if each has ended
    normally; otherwise it has joined those before the first one that has panicked, and its
    [join().unwrap()] on this one is a panic. *)
Theorem drop_joins n l0 s k l :
  run l0 (initial n) = Some s -> main s = MJoin k ->
  (forall i, i < n -> n + 9 + activations i l <= steps i l) ->
  exists s', run (l ++ replicate (S n) (AMain CYes)) s = Some s' /\
    (forall i, i < n -> ended (pc s' i) = true) /\
    ((main s' = MDropped /\ forall i, i < n -> pc s' i = WDone) \/
     (exists j, j < n /\ main s' = MJoinPanic j /\ pc s' j = WFailed /\ forall i, i < j -> pc s' i = WDone)).
Proof.
  intros H0 Hm Hl. destruct (run_keeps l0 (initial n) (inv_initial n)) as (s0 & Hs & I). rewrite H0 in Hs. injection Hs as <-.
  pose proof (run_length _ _ _ H0) as Hlen. cbn in Hlen. rewrite length_replicate in Hlen.
  destruct (run_keeps l s I) as (s1 & H1 & I1). pose proof (run_length _ _ _ H1) as Hlen1.
  assert (forall i, i < n -> ended (pc s1 i) = true) as Hdone.
  { intros i Hi. apply (joined_worker i l s s1); try done; [by rewrite Hm|lia|right].
    specialize (Hl i Hi). rewrite Hlen. destruct (pc s i); cbn; lia. }
  assert (joining (main s1) = true) as Hj.
  { assert (joining (main s) = true) as Hj by (by rewrite Hm). clear - H1 Hj. revert s Hj H1. induction l as [|a l IH]; cbn; intros s Hj H; [by simplify_eq|].
    apply bind_Some in H as (s2 & H2 & H). eapply IH; [|done]. by eapply joining_step. }
  assert (exists s', run (replicate (S n) (AMain CYes)) s1 = Some s' /\ join_over (main s') = true /\ pcs s' = pcs s1) as (s' & E & Hlf & Hpcs).
  { destruct (main s1) eqn:Em; try done.
    - apply (joins_end n s1 Hdone ltac:(lia) n k0 Em). lia.
    - exists s1. split_and!; [by apply over_stays; rewrite Em|by rewrite Em|done].
    - exists s1. split_and!; [by apply over_stays; rewrite Em|by rewrite Em|done]. }
  exists s'. rewrite run_then, H1. split; [exact E|]. split; [unfold pc; rewrite Hpcs; exact Hdone|].
  assert (joined s') as Hjn.
  { eapply run_joined; [exact E|]. eapply run_joined; [exact H1|]. by apply (run_joined l0 (initial n)). }
  unfold joined, pool_size in Hjn. rewrite Hpcs, Hlen1, Hlen in Hjn. destruct (main s') eqn:Em; try done; [by left|right].
  destruct Hjn as (? & ? & ?). by exists k0.
Qed.

Module Demo.
(** The task of worker 0 panics while the main thread is parked. *)
Definition to_panic : list Action :=
  [ARun; AMain (CActivate 0); AMain CYes; AMain CYes; AMain CYes; AWorker 0 CYes; AWorker 0 CYes; AWorker 0 CYes; AWorker 0 CYes;
   AWorker 0 CPanic; AWorker 0 CYes].
Lemma panic_reported_witness :
  exists i, forall l c c', forallb no_main l = true -> 6 <= steps i l ->
    exists s', run (l ++ [AMain c; AMain c']) (default (initial 2) (run to_panic (initial 2))) = Some s' /\ main s' = MReturned RPanic.
Proof. apply (panic_reported 2 to_panic); vm_compute; reflexivity. Defined.

(** Worker 1 is parked when the executor is dropped; the task of worker 0 has panicked, and the
    thread panics again when its [Worker] is dropped. *)
Definition to_join : list Action :=
  to_panic ++ concat (replicate 5 [AWorker 0 CYes]) ++
  [AWorker 0 CPanic; AMain CYes; AMain CYes; ADrop; AMain CYes; AMain CYes; AMain CYes; AMain CYes; AMain CYes].
Lemma drop_joins_witness :
  exists s', run (concat (replicate 11 [AWorker 0 CYes; AWorker 1 CYes]) ++ replicate 3 (AMain CYes)) (default (initial 2) (run to_join (initial 2))) = Some s' /\
    main s' = MJoinPanic 0 /\ pc s' 1 = WDone.
Proof.
  destruct (drop_joins 2 to_join (default (initial 2) (run to_join (initial 2))) 0
    (concat (replicate 11 [AWorker 0 CYes; AWorker 1 CYes]))) as (s' & E & _).
  - vm_compute; reflexivity.
  - vm_compute; reflexivity.
  - intros i Hi. destruct i as [|[|i]]; [vm_compute; lia..|lia].
  - exists s'. split; [exact E|]. vm_compute in E. injection E as <-. split; reflexivity.
Defined.
(** A task that panics, a run that times out, and the drop. *)
Example shutdown_example :
  (fun s => (main s, pcs s)) <$>
    run [ARun; AMain (CActivate 0); AMain CYes; AWorker 0 CYes; AWorker 0 CYes; AWorker 0 CYes; AWorker 0 CYes; AWorker 0 CPanic;
         AWorker 0 CYes; AWorker 0 CYes; AWorker 0 CYes; AWorker 0 CYes; AWorker 0 CYes; AWorker 0 CYes; AWorker 0 CYes; AMain CYes;
         ADrop; AMain CYes; AMain CYes; AMain CYes; AMain CYes; AMain CYes; AWorker 1 CYes; AWorker 1 CYes; AMain CYes; AMain CYes; AMain CYes]
      (initial 2) = Some (MDropped, [WDone; WDone]).
Proof. vm_compute. reflexivity. Qed.
End Demo.
End MtShutdown.
