(* ===== verification/StSimulation.v ===== *)
(** * A simulation on the single-threaded executor

    The kernel ([Simulation]) sees the executor through the class [Host].  Here
    this class is implemented by the model of the single-threaded executor
    ([StExecutor]): a task that is spawned by the kernel becomes a task of the executor,
    the polls of its future see the state shared with the kernel, as the calls made by
    earlier polls have left it, and what they do to it is what the kernel sees
    after the run.

    What the tasks do when they are polled or dropped is a parameter, the class
    [Program]: the code of the models, the messages that they exchange, the clock and the
    ticker. *)

From S2P Require Import Prelude Path Errors Time PriorityQueue QueueItems Effects Scheduler SchedulerFacts Simulation.
From S2P Require Import StepInvariant SimulationTheorems StExecutor StExecutorFacts.
Local Open Scope Z_scope.

Module StSimulation.
Import Items.

Section Defs.
Context `{L : Lang} {T : Type} `{MT : MonoTime T}.
Context {SQ IQ : Type} `{SPQ : !StablePQ (T * Z) QueueItem SQ} `{IPQ : !StablePQ Z InjectorItem IQ}.
Context {U C Tk : Type}.
Notation Sh := (Shared T SQ IQ).

(** What the tasks act on: the models, the shared state, the calls made since the
    start of the run, and the tasks that were spawned. *)
Record World : Type := mkWorld {
  user : U;
  seen : Sh;
  made : list (ApiCall T);
  futures : list Task }.

Class Program := {
  p_poll : Task -> nat -> Sh -> U -> U * list nat * Z * StExecutor.PollOutcome * list (ApiCall T);
  p_drop : Task -> nat -> Sh -> U -> U * list nat * list (ApiCall T);
  (** [CURRENT_MODEL_ID] and the payload of the panic of a task. *)
  p_panic : U -> Z * Any;
  (** Whether a run with a timeout ends in time; the calls of one that does not. *)
  p_in_time : World -> Z -> bool;
  p_late : World -> list (ApiCall T);
  (** What other threads call while [step_until] is about to set the time. *)
  p_window : option World -> Sh -> list (ApiCall T);
  p_key : gset nat -> nat;
  p_mailbox_len : U -> nat -> Z;
  p_reply : U -> nat -> option (list Value);
  p_synchronize : C -> Sh -> T -> C * list (ApiCall T) * Clock.SyncStatus;
  p_tick : Tk -> T -> option (T * Tk);
  (** The messages in flight, and a bound on the wake-ups to come. *)
  p_flight : U -> Z;
  p_budget : World -> nat }.

Context `{PG : !Program}.

Definition poll (t : nat) (w : World) : World * list nat * Z * StExecutor.PollOutcome :=
  match futures w !! t with
  | Some task =>
      let '(u, woken, d, o, cs) := p_poll task t (seen w) (user w) in
      (mkWorld u (run_calls cs (seen w)) (made w ++ cs) (futures w), woken, d, o)
  | None => (w, [], 0, StExecutor.PReady)
  end.
Definition on_drop (t : nat) (w : World) : World * list nat :=
  match futures w !! t with
  | Some task =>
      let '(u, woken, cs) := p_drop task t (seen w) (user w) in
      (mkWorld u (run_calls cs (seen w)) (made w ++ cs) (futures w), woken)
  | None => (w, [])
  end.
(** The abort signal is raised only after a run has timed out, when the executor is lost:
    a run whose result the kernel sees never finds it set. *)
Definition aborted (_ : World) : bool := false.

(** [None]: the executor was lost to a thread that runs late. *)
Definition StX : Type := option (StExecutor.Inner World).

Definition add_future (t : Task) (w : World) : World := mkWorld (user w) (seen w) (made w) (futures w ++ [t]).
Definition st_spawn (x : StX) (t : Task) : StX :=
  (fun s => StExecutor.spawn p_key (StExecutor.set_world (add_future t (StExecutor.world s)) s)) <$> x.

Definition start (s : Sh) (w : World) : World := mkWorld (user w) s [] (futures w).
Definition fuel (s : StExecutor.Inner World) : nat := S (Z.to_nat (StExecutorFacts.potential p_budget s)).

Definition error (e : StExecutor.ExecutorError) (w : World) : ExecutorError :=
  match e with
  | StExecutor.UnprocessedMessages n => UnprocessedMessages n
  | StExecutor.Timeout => ExecTimeout
  | StExecutor.Panic => let '(model, payload) := p_panic (user w) in ExecPanic model payload
  end.

(** The last case is a run that times out: [st_run_spec] shows that otherwise the run
    ends and does not panic. *)
Definition st_run (x : StX) (s : Sh) (d : Z) : StX * list (ApiCall T) * Result unit ExecutorError :=
  match x with
  | None => (None, [], Err ExecTimeout)
  | Some i =>
      let i := StExecutor.set_world (start s (StExecutor.world i)) i in
      match StExecutor.run poll on_drop aborted (d =? 0) (p_in_time (StExecutor.world i) d) (fuel (StExecutor.set_counts (StExecutor.msg_count i) 0 i)) (Some i) 0 with
      | Some (StExecutor.Returned r, Some i, _) =>
          (Some i, made (StExecutor.world i), match r with Ok u => Ok u | Err e => Err (error e (StExecutor.world i)) end)
      | _ => (None, p_late (StExecutor.world i), Err ExecTimeout)
      end
  end.

#[export] Instance st_host : Host T SQ IQ StX C Tk := {|
  ex_spawn := st_spawn;
  ex_run := st_run;
  ex_mailbox_len x i := match x with Some s => p_mailbox_len (user (StExecutor.world s)) i | None => 0 end;
  ex_reply x i := s ← x; p_reply (user (StExecutor.world s)) i;
  clock_synchronize := p_synchronize;
  tick_next := p_tick;
  ex_window x s := p_window (StExecutor.world <$> x) s |}.

(** The models keep to the API, count their messages, and do a finite amount of work at a
    time. *)
Class ProgramLaws (r : SchedulerRegistry) : Prop := {
  pl_poll w t task u woken d o cs : futures w !! t = Some task -> p_poll task t (seen w) (user w) = (u, woken, d, o, cs) ->
    (p_budget (mkWorld u (run_calls cs (seen w)) (made w ++ cs) (futures w)) + length woken <= p_budget w)%nat /\
    p_flight u = p_flight (user w) + d /\ (forall fl, Forall (call_ok r fl) cs);
  pl_drop w t task u woken cs : futures w !! t = Some task -> p_drop task t (seen w) (user w) = (u, woken, cs) ->
    (p_budget (mkWorld u (run_calls cs (seen w)) (made w ++ cs) (futures w)) + length woken <= p_budget w)%nat /\
    p_flight u = p_flight (user w) /\ (forall fl, Forall (call_ok r fl) cs);
  pl_late w fl : Forall (call_ok r fl) (p_late w);
  pl_flight u : 0 <= p_flight u < 2 ^ 63;
  pl_key keys : p_key keys ∉ keys;
  pl_sync c s t c' cs st : p_synchronize c s t = (c', cs, st) -> Forall (call_ok r (flags s)) cs;
  pl_tick k t t' k' : p_tick k t = Some (t', k') -> kltb t t' = true }.
End Defs.
#[global] Arguments World {_} T SQ IQ U.
#[global] Arguments Program {_} T SQ IQ U C Tk.
#[global] Arguments StX {_} T SQ IQ U.

(** ** What a run of the executor preserves *)
Section Worlds.
Import StExecutor.
Context {W : Type} (poll : nat -> W -> W * list nat * Z * PollOutcome) (on_drop : nat -> W -> W * list nat) (aborted : W -> bool).
(** A property of the world and of the messages in flight. *)
Context (P : W -> Z -> Prop).
Hypothesis poll_P : forall t w f w' woken d o, P w f -> poll t w = (w', woken, d, o) -> P w' (f + d).
Hypothesis drop_P : forall t w f w' woken, P w f -> on_drop t w = (w', woken) -> P w' f.
Implicit Types s : Inner W.

Definition holds (n : nat) s : Prop := P (world s) (in_flight s) /\ length (tasks s) = n.

Lemma holds_upd n f t s : holds n s -> holds n (upd f t s).
Proof. unfold holds, upd. cbn. by rewrite length_alter. Qed.
Lemma holds_wake_all n woken s : holds n s -> holds n (wake_all woken s).
Proof.
  unfold wake_all. revert s. induction woken as [|t woken IH]; intros s H; cbn; [done|]. apply IH.
  unfold wake. destruct (tasks s !! t); [|done]. case_match; by apply (holds_upd n add_wake t s).
Qed.
Lemma holds_drop_future n active t s : holds n s -> holds n (drop_future on_drop active t s).
Proof using drop_P.
  intros H. unfold drop_future. destruct (tasks s !! t) as [x|]; [|done]. set (s0 := if active then _ else s).
  assert (holds n s0) as [H0 Hn] by (unfold s0; by destruct active). destruct (on_drop t (world s0)) as [w woken] eqn:E.
  apply holds_wake_all. split; [|done]. cbn. by eapply drop_P.
Qed.
Lemma holds_run_task n fuel : forall t c s b s', holds n s -> run_task poll on_drop fuel t c s = Some (b, s') -> holds n s'.
Proof using drop_P poll_P.
  induction fuel as [|fuel IH]; intros t c s b s' H Hr; [done|]. cbn [run_task] in Hr. destruct (tasks s !! t) as [x|] eqn:Ex; [|by simplify_eq].
  destruct (closed x); [simplify_eq; by apply holds_upd, holds_drop_future|].
  destruct (poll t (world s)) as [[[w woken] d] o] eqn:E.
  assert (holds n (wake_all woken (add_messages d (set_world w s)))) as H1.
  { apply holds_wake_all. destruct H as [H Hn]. split; [|done]. cbn. by eapply poll_P. }
  destruct o; simplify_eq; try by apply holds_upd, holds_drop_future.
  set (s2 := upd _ _ _) in Hr. assert (holds n s2) as H2 by (by apply holds_upd).
  destruct (tasks s2 !! t) as [y|]; [|by simplify_eq]. destruct (_ && _); [by simplify_eq|]. by eapply IH.
Qed.
Lemma holds_run_loop n fuel : forall s b s', holds n s -> run_loop poll on_drop aborted fuel s = Some (b, s') -> holds n s'.
Proof using drop_P poll_P.
  induction fuel as [|fuel IH]; intros s b s' H Hr; [done|]. cbn [run_loop] in Hr. destruct (queue s) as [|t q]; [by simplify_eq|].
  apply bind_Some in Hr as ([p s1] & H1 & Hr). apply (holds_run_task n) in H1; [|done].
  destruct p; [by simplify_eq|]. destruct (aborted (world s1)); [by simplify_eq|]. by eapply IH.
Qed.
Lemma holds_run_inner n fuel s o s' : holds n s -> run_inner poll on_drop aborted fuel s = Some (o, s') -> holds n s'.
Proof using drop_P poll_P.
  intros H Hr. unfold run_inner in Hr. apply bind_Some in Hr as ([p s1] & H1 & Hr). apply (holds_run_loop n) in H1; [|done].
  destruct p; by simplify_eq.
Qed.
End Worlds.

(** ** The executor as the kernel sees it *)
Section Facts.
Context `{L : Lang} {T : Type} `{MT : MonoTime T}.
Context {SQ IQ : Type} `{SPQ : !StablePQ (T * Z) QueueItem SQ} `{IPQ : !StablePQ Z InjectorItem IQ}.
Context {U C Tk : Type} `{PG : !Program T SQ IQ U C Tk} (r : SchedulerRegistry) `{PL : !ProgramLaws r}.
Notation W := (World T SQ IQ U).
Notation Inner := (StExecutor.Inner W).

(** Each task of the executor is one that the kernel has spawned, and the count of
    messages is that of the models. *)
Record exec_ok (s : Inner) : Prop := {
  eo_inv : StExecutorFacts.inv s;
  eo_count : StExecutor.msg_count s = p_flight (user (StExecutor.world s));
  eo_tasks : length (StExecutor.tasks s) = length (futures (StExecutor.world s)) }.

(** After a run: no message is in flight, and no task has a wake-up that was not served. *)
Record exec_idle (s : Inner) : Prop := {
  ei_ok : exec_ok s;
  ei_flight : p_flight (user (StExecutor.world s)) = 0;
  ei_served : StExecutorFacts.served s }.

Definition ok (x : StX T SQ IQ U) : Prop := exists s, x = Some s /\ exec_ok s.
Definition idle (x : StX T SQ IQ U) : Prop := exists s, x = Some s /\ exec_idle s.
(** The tasks spawned so far start with [fs]. *)
Definition spawned (fs : list Task) (x : StX T SQ IQ U) : Prop :=
  forall s, x = Some s -> fs `prefix_of` futures (StExecutor.world s).

Lemma inv_set_world w (s : Inner) : StExecutorFacts.inv s -> StExecutorFacts.inv (StExecutor.set_world w s).
Proof. intros [[] ? [] ?]. split; [split|..|split|]; assumption. Qed.
Lemma inv_set_counts c (s : Inner) : StExecutorFacts.inv s -> StExecutorFacts.inv (StExecutor.set_counts (StExecutor.msg_count s) c s).
Proof. intros [[] ? [] ?]. split; [split|..|split|]; assumption. Qed.

Lemma spawn_ok x t : ok x -> ok (st_spawn x t).
Proof using PL.
  intros (s & -> & [Hi Hc Ht]). eexists. split; [done|]. split.
  - apply StExecutorFacts.st_spawn_inv; [apply pl_key|]. by apply inv_set_world.
  - done.
  - cbn. rewrite !length_app, Ht. done.
Qed.
Lemma spawn_spawned fs x t : spawned fs x -> spawned fs (st_spawn x t).
Proof.
  intros H s Hs. destruct x as [i|]; [|done]. cbn in Hs. simplify_eq. cbn.
  apply prefix_app_r. by apply H.
Qed.
(** What holds of the world during a run that starts with [f] messages in flight. *)
Definition coherent (s0 : Shared T SQ IQ) (fs : list Task) (f0 : Z) (w : W) (f : Z) : Prop :=
  seen w = run_calls (made w) s0 /\ (forall fl, Forall (call_ok r fl) (made w)) /\ futures w = fs /\ p_flight (user w) = f0 + f.

Lemma run_calls_app cs cs' (s : Shared T SQ IQ) : run_calls (cs ++ cs') s = run_calls cs' (run_calls cs s).
Proof. unfold run_calls. apply fold_left_app. Qed.

Lemma poll_coherent s0 fs f0 t w f w' woken d o :
  coherent s0 fs f0 w f -> poll t w = (w', woken, d, o) -> coherent s0 fs f0 w' (f + d).
Proof using PL.
  intros (Hs & Hc & Hf & Hm) H. unfold poll in H. destruct (futures w !! t) as [task|] eqn:Ht.
  - destruct (p_poll task t (seen w) (user w)) as [[[[u wk] dd] oo] cs] eqn:E. simplify_eq.
    destruct (pl_poll _ _ _ _ _ _ _ _ Ht E) as (_ & Hfl & Hok). unfold coherent. cbn [seen made futures user].
    split_and!; [by rewrite Hs, run_calls_app| |done|lia].
    intros fl. apply Forall_app. auto.
  - simplify_eq. split_and!; [done..|lia].
Qed.
Lemma drop_coherent s0 fs f0 t w f w' woken : coherent s0 fs f0 w f -> on_drop t w = (w', woken) -> coherent s0 fs f0 w' f.
Proof using PL.
  intros (Hs & Hc & Hf & Hm) H. unfold on_drop in H. destruct (futures w !! t) as [task|] eqn:Ht; [|by simplify_eq].
  destruct (p_drop task t (seen w) (user w)) as [[u wk] cs] eqn:E. simplify_eq.
  destruct (pl_drop _ _ _ _ _ _ Ht E) as (_ & Hfl & Hok). unfold coherent. cbn [seen made futures user].
  split_and!; [by rewrite Hs, run_calls_app| |done|lia].
  intros fl. apply Forall_app. auto.
Qed.
Lemma poll_budgeted t w w' woken d o : poll t w = (w', woken, d, o) -> (p_budget w' + length woken <= p_budget w)%nat.
Proof using PL.
  unfold poll. destruct (futures w !! t) as [task|] eqn:Ht; [|intros; simplify_eq; cbn; lia].
  destruct (p_poll task t (seen w) (user w)) as [[[[u wk] dd] oo] cs] eqn:E. intros. simplify_eq. by eapply pl_poll.
Qed.
Lemma drop_budgeted t w w' woken : on_drop t w = (w', woken) -> (p_budget w' + length woken <= p_budget w)%nat.
Proof using PL.
  unfold on_drop. destruct (futures w !! t) as [task|] eqn:Ht; [|intros; simplify_eq; cbn; lia].
  destruct (p_drop task t (seen w) (user w)) as [[u wk] cs] eqn:E. intros. simplify_eq. by eapply pl_drop.
Qed.

(** A run on the thread of the kernel, or on a thread of its own that is in time. *)
Lemma run_inner_ok (i : Inner) (s0 : Shared T SQ IQ) : exec_ok i ->
  let i0 := StExecutor.set_counts (StExecutor.msg_count i) 0 (StExecutor.set_world (start s0 (StExecutor.world i)) i) in
  exists res i', StExecutor.run_inner poll on_drop aborted (fuel i0) i0 = Some (StExecutor.Returned res, i') /\
    seen (StExecutor.world i') = run_calls (made (StExecutor.world i')) s0 /\
    (forall fl, Forall (call_ok r fl) (made (StExecutor.world i'))) /\
    futures (StExecutor.world i') = futures (StExecutor.world i) /\
    (res = Ok tt -> exec_idle i').
Proof using PL.
  intros [Hi Hc Ht] i0. assert (StExecutorFacts.inv i0) as Hi0 by (exact (inv_set_counts 0 _ (inv_set_world (start s0 (StExecutor.world i)) i Hi))).
  destruct (StExecutorFacts.run_inner_spec poll on_drop aborted p_budget poll_budgeted drop_budgeted (fuel i0) i0 Hi0)
    as (p & s1 & Hrun & Hq & Hu & Hl & Hmc & Htc & Hend); [unfold fuel; lia|].
  assert (holds (coherent s0 (futures (StExecutor.world i)) (p_flight (user (StExecutor.world i)) - StExecutor.in_flight i))
            (length (StExecutor.tasks i)) s1) as [(Hs & Hok & Hf & Hfl) Hlen].
  { eapply holds_run_loop; [apply poll_coherent|apply drop_coherent| |exact Hrun]. split; [|done]. split_and!; [done..|cbn; lia]. }
  pose proof (pl_flight (user (StExecutor.world s1))) as Hrange.
  assert (StExecutor.thread_count s1 = p_flight (user (StExecutor.world s1))) as Hcnt.
  { rewrite Htc. change (StExecutor.msg_count i0) with (StExecutor.msg_count i). change (StExecutor.in_flight i0) with (StExecutor.in_flight i).
    rewrite Hc, as_isize_wrap; lia. }
  unfold StExecutor.run_inner. rewrite Hrun. cbn [mbind option_bind]. destruct p; [by eexists _, _|].
  cbn [StExecutor.msg_count StExecutor.set_counts]. rewrite Hcnt. destruct (Z.eqb_spec (p_flight (user (StExecutor.world s1))) 0) as [Hz|Hz].
  - eexists _, _. do 4 (split; [done|]). intros _. split; [split| |]; cbn; try done; [|congruence|].
    + split; [by apply (StExecutorFacts.queued_ext _ s1)|done|by destruct Hl|cbn; lia].
    + destruct (Hend eq_refl) as [Ha|He]; [done|]. exact (StExecutorFacts.empty_served s1 Hq He).
  - destruct (Z.ltb_spec (p_flight (user (StExecutor.world s1))) 0); [lia|]. by eexists _, _.
Qed.

(** A run that succeeds leaves the executor idle, and hands over to the kernel the state
    that the tasks have seen at last; one that ends in time reports the failure of the
    executor. *)
Lemma st_run_spec x (s : Shared T SQ IQ) d x' cs res : ok x -> st_run x s d = (x', cs, res) ->
  (res = Ok tt -> idle x' /\ (forall fs, spawned fs x -> spawned fs x') /\
     exists i, x' = Some i /\ seen (StExecutor.world i) = run_calls cs s) /\
  (d = 0 -> x' <> None).
Proof using PL.
  intros (i & -> & Hi) H. unfold st_run in H. set (i1 := StExecutor.set_world _ i) in H.
  destruct (run_inner_ok i s Hi) as (rs & i' & Hr & Hs & _ & Hf & Hidle). fold i1 in Hr. unfold StExecutor.run in H.
  change (StExecutor.msg_count i) with (StExecutor.msg_count i1) in Hr.
  assert (rs = Ok tt -> idle (Some i') /\ (forall fs, spawned fs (Some i) -> spawned fs (Some i')) /\
    exists i2, Some i' = Some i2 /\ seen (StExecutor.world i2) = run_calls (made (StExecutor.world i')) s) as Hok.
  { intros E. split; [exists i'; split; [done|by apply Hidle]|]. split; [|by exists i'].
    intros fs Hfs s' [= <-]. rewrite Hf. by apply Hfs. }
  destruct (Z.eqb_spec d 0) as [Hd|Hd]; [|destruct (p_in_time (StExecutor.world i1) d)].
  - rewrite Hr in H. cbn in H. simplify_eq. split; [|done]. intros E. destruct rs as [[]|]; [by apply Hok|done].
  - rewrite Hr in H. cbn in H. simplify_eq. split; [|done]. intros E. destruct rs as [[]|]; [by apply Hok|done].
  - cbn in H. simplify_eq. done.
Qed.

Lemma st_run_calls x (s : Shared T SQ IQ) d x' cs res fl : st_run x s d = (x', cs, res) -> Forall (call_ok r fl) cs.
Proof using PL.
  intros H. unfold st_run in H. destruct x as [i|]; [|simplify_eq; constructor]. set (i1 := StExecutor.set_world _ i) in H.
  assert (forall i2 o i', StExecutor.world i2 = StExecutor.world i1 -> StExecutor.run_inner poll on_drop aborted (fuel (StExecutor.set_counts (StExecutor.msg_count i1) 0 i1)) i2 = Some (o, i') ->
    Forall (call_ok r fl) (made (StExecutor.world i'))) as Hok.
  { intros i2 o i' Hw Hr.
    eapply (holds_run_inner poll on_drop aborted (fun w _ => Forall (call_ok r fl) (made w))) in Hr as [Hr _]; [exact Hr|..|split; [|reflexivity]; rewrite Hw; constructor].
    - intros t w f w' woken dd oo Hm Hp. unfold poll in Hp. destruct (futures w !! t) eqn:E; [|by simplify_eq].
      destruct (p_poll _ _ _ _) as [[[[]]]] eqn:E'. simplify_eq. apply Forall_app. split; [done|]. by eapply pl_poll.
    - intros t w f w' woken Hm Hp. unfold on_drop in Hp. destruct (futures w !! t) eqn:E; [|by simplify_eq].
      destruct (p_drop _ _ _ _) as [[]] eqn:E'. simplify_eq. apply Forall_app. split; [done|]. by eapply pl_drop. }
  assert (Forall (call_ok r fl) (p_late (StExecutor.world i1))) as Hlate by apply pl_late.
  unfold StExecutor.run in H. destruct (d =? 0); [|destruct (p_in_time (StExecutor.world i1) d); [|by simplify_eq]].
  all: destruct (StExecutor.run_inner _ _ _ _ _) as [[o i']|] eqn:Er in H; cbn in H; [|by simplify_eq].
  all: apply Hok in Er; [|done]. all: by destruct o; simplify_eq.
Qed.

#[export] Instance st_host_laws : HostLaws (HO := st_host) r.
Proof using PL.
  split.
  - intros x s d x' cs res H. exact (st_run_calls x s d x' cs res (flags s) H).
  - intros c s t c' cs st H. exact (pl_sync c s t c' cs st H).
  - intros k t t' k' H. exact (pl_tick k t t' k' H).
Qed.
End Facts.

(** ** What the kernel does to an executor

    For any executor: the kernel changes it only by spawning tasks and by running it,
    and it does not return normally between the two. *)
Section Kernel.
Context `{L : Lang} {T : Type} `{MT : MonoTime T}.
Context {SQ IQ : Type} `{SPQ : !StablePQ (T * Z) QueueItem SQ} `{IPQ : !StablePQ Z InjectorItem IQ}.
Context {X C Tk : Type} `{HO : !Host T SQ IQ X C Tk} (P Q : X -> Prop).
Hypothesis spawn_P : forall x t, P x -> P (ex_spawn x t).
Hypothesis run_Q : forall x s d x' cs, P x -> ex_run x s d = (x', cs, Ok tt) -> Q x'.
Hypothesis Q_P : forall x, Q x -> P x.
Notation Sm := (Simulation T SQ IQ X C Tk).
Notation Sim := (Eff Sm (ExecutionError T)).

Definition untouched (m m' : Sm) : Prop := executor m' = executor m.
Definition keeping (m m' : Sm) : Prop := P (executor m) -> P (executor m').

#[local] Instance untouched_refl : Reflexive untouched.
Proof. intros m. exact eq_refl. Qed.
#[local] Instance untouched_trans : Transitive untouched.
Proof. unfold untouched. intros m1 m2 m3 H1 H2. congruence. Qed.
#[local] Instance keeping_refl : Reflexive keeping.
Proof. intros m H. exact H. Qed.
#[local] Instance keeping_trans : Transitive keeping.
Proof. unfold keeping. intros m1 m2 m3 H1 H2. auto. Qed.

Lemma untouched_keeping {A} (e : Sim A) : respects untouched e -> respects keeping e.
Proof. intros H s res s' E. unfold keeping. by rewrite (H _ _ _ E). Qed.

Ltac same_bind := apply respects_bind; [apply _| |intros].

Lemma untouched_on_shared {A} (e : Eff (Shared T SQ IQ) (ExecutionError T) A) : respects untouched (on_shared e).
Proof. intros m res m' H. unfold on_shared in H. destruct (e (shared m)). by simplify_eq. Qed.
Lemma untouched_modify f : respects untouched (modify_shared f).
Proof. by apply respects_modify. Qed.
Lemma untouched_halt : respects untouched take_halt_flag.
Proof.
  unfold take_halt_flag. same_bind; [apply respects_gets; apply _|]. case_match; [|apply respects_ret; apply _].
  same_bind; [apply untouched_modify|apply respects_throw; apply _].
Qed.
Lemma untouched_tick b : respects untouched (next_tick b).
Proof. intros m res m' H. unfold next_tick in H. repeat case_match; by simplify_eq. Qed.
Lemma untouched_peek b : respects untouched (peek_next_key b).
Proof. intros m res m' H. unfold peek_next_key in H. repeat case_match; by simplify_eq. Qed.
Lemma untouched_pull : respects untouched queue_pull_unwrap.
Proof. intros m res m' H. unfold queue_pull_unwrap in H. repeat case_match; by simplify_eq. Qed.
Lemma untouched_item t o i : respects untouched (take_item t o i).
Proof.
  unfold take_item. same_bind; [apply respects_gets; apply _|]. destruct i; (same_bind; [apply respects_liftO; apply _|]).
  - case_match; [|apply respects_liftO; apply _]. do 2 (same_bind; [apply respects_liftO; apply _|]).
    same_bind; [apply untouched_on_shared|apply respects_ret; apply _].
  - apply respects_liftO; apply _.
Qed.
Lemma untouched_merge fuel : forall k fs, respects untouched (merge_loop fuel k fs).
Proof.
  induction fuel as [|fuel IH]; intros k fs; cbn [merge_loop]; [intros m res m' H; cbv in H; by simplify_eq|].
  same_bind; [apply untouched_pull|]. destruct a as [[t o] i]. same_bind; [apply untouched_item|]. same_bind; [apply untouched_peek|].
  case_decide; [apply IH|apply respects_ret; apply _].
Qed.
Lemma untouched_sync t : respects untouched (synchronize t).
Proof. intros m res m' H. unfold synchronize in H. repeat case_match; by simplify_eq. Qed.
Lemma untouched_inj_pull : respects untouched injector_pull.
Proof. intros m res m' H. unfold injector_pull in H. repeat case_match; by simplify_eq. Qed.
Lemma untouched_inj_future i : respects untouched (injector_future i).
Proof.
  unfold injector_future. same_bind; [apply respects_gets; apply _|].
  destruct i; [same_bind; apply respects_liftO; apply _..|apply respects_ret; apply _].
Qed.

Lemma keeping_spawn t : respects keeping (spawn_and_forget t).
Proof using spawn_P. apply respects_modify. intros m H. by apply spawn_P. Qed.
Lemma keeping_spawn_loop fuel : forall k, respects keeping (spawn_loop fuel k).
Proof using spawn_P.
  induction fuel as [|fuel IH]; intros [k|]; cbn [spawn_loop]; try (apply respects_ret; apply _);
    [intros m res m' H; cbv in H; by simplify_eq|].
  same_bind; [apply untouched_keeping, respects_gets; apply _|]. same_bind; [apply untouched_keeping, untouched_merge|].
  destruct a0. same_bind; [apply keeping_spawn|apply IH].
Qed.
Lemma keeping_inj_loop fuel : forall o fs, respects keeping (injector_loop fuel o fs).
Proof using spawn_P.
  induction fuel as [|fuel IH]; intros o fs; cbn [injector_loop]; [intros m res m' H; cbv in H; by simplify_eq|].
  same_bind; [apply untouched_keeping, untouched_inj_pull|]. destruct a as [[o' i]|]; [|apply respects_ret; apply _].
  same_bind; [apply untouched_keeping, untouched_inj_future|]. case_match; [apply IH|]. same_bind; [apply keeping_spawn|apply IH].
Qed.

(** A part of a step that finds nothing to do leaves the executor alone. *)
Lemma scheduler_step_exec k t m b m' : handle_scheduler_step k t m = (Val b, m') ->
  keeping m m' /\ (b = false -> untouched m m').
Proof using spawn_P.
  unfold handle_scheduler_step. destruct k as [[t' o]|]; [|intros H; cbv in H; by simplify_eq].
  destruct (keqb t' t); [|intros H; cbv in H; by simplify_eq]. intros H.
  apply bind_val_inv in H as (n & m1 & H1 & H). cbv in H1. simplify_eq. apply bind_val_inv in H as ([] & m2 & H2 & H).
  cbv in H. simplify_eq. split; [|done]. by eapply keeping_spawn_loop.
Qed.
Lemma injector_step_exec m b m' : handle_injector_step m = (Val b, m') -> keeping m m' /\ (b = false -> untouched m m').
Proof using spawn_P.
  unfold handle_injector_step. intros H. apply bind_val_inv in H as (q & m1 & H1 & H). cbv in H1. simplify_eq.
  destruct (pq_peek _) as [[o i]|]; [|cbv in H; by simplify_eq].
  apply bind_val_inv in H as (fs & m2 & H2 & H). apply keeping_inj_loop in H2.
  apply bind_val_inv in H as ([] & m3 & H3 & H). apply keeping_spawn in H3. cbv in H. simplify_eq. split; [|done]. by etrans.
Qed.
Lemma run_executor_exec m m' : P (executor m) -> run_executor m = (Val tt, m') -> Q (executor m').
Proof using run_Q.
  intros HP. unfold run_executor. case_match; [done|]. destruct (ex_run _ _ _) as [[x cs] [u|e]] eqn:E.
  - destruct u. intros H1. simplify_eq. cbn. by eapply run_Q.
  - intros H1. unfold execution_error, mbind, outcome_bind in H1. repeat case_match; simplify_eq.
Qed.

Lemma step_to_next_exec b m o m' : Q (executor m) -> step_to_next b m = (Val o, m') -> Q (executor m').
Proof using spawn_P run_Q Q_P.
  intros HQ H. unfold step_to_next in H. apply bind_val_inv in H as ([] & m1 & H1 & H). apply untouched_halt in H1.
  apply bind_val_inv in H as (tm & m2 & H2 & H). injection H2 as Htm <-. destruct tm; [by cbv in H|].
  apply bind_val_inv in H as (tick & m3 & H3 & H). apply untouched_tick in H3.
  apply bind_val_inv in H as (k & m4 & H4 & H). apply untouched_peek in H4.
  assert (Q (executor m4)) as HQ4 by (unfold untouched in *; congruence).
  destruct (next_time k tick) as [t|]; [|cbv in H; by simplify_eq].
  apply bind_val_inv in H as ([] & m5 & H5 & H). apply untouched_modify in H5.
  apply bind_val_inv in H as (b1 & m6 & H6 & H). apply scheduler_step_exec in H6 as [K6 U6].
  apply bind_val_inv in H as (b2 & m7 & H7 & H). apply injector_step_exec in H7 as [K7 U7].
  apply bind_val_inv in H as ([] & m8 & H8 & H). apply untouched_sync in H8.
  apply bind_val_inv in H as ([] & m9 & H9 & H). cbv in H. simplify_eq. unfold untouched, keeping in *.
  destruct (b1 || b2) eqn:Eb.
  - eapply run_executor_exec; [|exact H9]. rewrite H8. apply K7, K6. rewrite H5. auto.
  - apply orb_false_iff in Eb as [-> ->]. cbv in H9. simplify_eq. rewrite H8, U7, U6, H5 by done. done.
Qed.

Lemma step_until_unchecked_exec fuel : forall b m m', Q (executor m) -> step_until_unchecked fuel b m = Some (Val tt, m') -> Q (executor m').
Proof using spawn_P run_Q Q_P.
  induction fuel as [|fuel IH]; intros b m m' HQ H; [done|]. cbn [step_until_unchecked] in H.
  destruct (step_to_next b m) as [[o| |] m1] eqn:E; [|done..]. apply step_to_next_exec in E; [|done].
  case_decide; [by simplify_eq|]. destruct o as [t|]; [by eapply IH|]. destruct b as [t|]; [|by simplify_eq].
  injection H as H. apply bind_val_inv in H as ([] & m2 & H2 & H). apply untouched_modify in H2.
  apply bind_val_inv in H as ([] & m3 & H3 & H). apply untouched_modify in H3. apply untouched_sync in H. unfold untouched in *. congruence.
Qed.
Lemma step_until_exec fuel dl m m' : Q (executor m) -> step_until fuel dl m = Some (Val tt, m') -> Q (executor m').
Proof using spawn_P run_Q Q_P.
  unfold step_until. intros HQ H. destruct (Deadline.into_time _ _); [|done]. case_match; [done|]. by eapply step_until_unchecked_exec.
Qed.
End Kernel.

(** ** The simulation *)
Section Composition.
Context `{L : Lang} {T : Type} `{MT : MonoTime T}.
Context {SQ IQ : Type} `{SPQ : !StablePQ (T * Z) QueueItem SQ} `{IPQ : !StablePQ Z InjectorItem IQ}.
Context {U C Tk : Type} `{PG : !Program T SQ IQ U C Tk} (r : SchedulerRegistry) `{PL : !ProgramLaws r}.
Notation Sm := (Simulation T SQ IQ (StX T SQ IQ U) C Tk).

(** C4: a simulation on the single-threaded executor, between two runs of the executor (it is
    [idle]) and with every scheduled item in the future.  If the models keep to the API,
    count their messages and do a finite amount of work at a time ([ProgramLaws]), stepping until a
    deadline that is not in the past ends, whatever other threads schedule meanwhile.  When it returns
    normally, the simulation time is the deadline, everything still scheduled is later save for
    what other threads scheduled in the window before the time was set ([reached]), and all that was due
    was done: no message is in flight, no task of the executor has a wake-up that was not served, and the
    executor is idle again; the tasks spawned before are still there in this order, followed by
    those spawned meanwhile, and the executor has exactly one task for each.  When it fails, time
    has not gone back. *)
Theorem st_step_until (m : Sm) i t0 dl target fuel :
  scheduler_registry m = r -> sched_ok r (shared m) -> time (shared m) = t0 ->
  executor m = Some i -> exec_idle i ->
  Deadline.into_time dl t0 = Some target -> kleb t0 target = true ->
  (Z.to_nat (mt_nanos target - mt_nanos t0) < fuel)%nat ->
  exists res m', step_until fuel dl m = Some (res, m') /\
    match res with
    | Val _ => reached t0 target m' /\
        exists s, executor m' = Some s /\ exec_idle s /\ p_flight (user (StExecutor.world s)) = 0 /\
          StExecutorFacts.served s /\
          (exists new, futures (StExecutor.world s) = futures (StExecutor.world i) ++ new) /\
          length (StExecutor.tasks s) = length (futures (StExecutor.world s))
    | _ => kleb t0 (time (shared m')) = true
    end.
Proof using PL.
  intros Hr Hs Ht Hx Hi Hdl Hle Hfuel.
  destruct (step_until_ends r m t0 dl target fuel) as (res & m' & E & Hres); try done.
  exists res, m'. split; [done|]. destruct res as [[]| |]; [|done..]. split; [done|].
  set (fs := futures (StExecutor.world i)).
  eapply (step_until_exec (fun x => ok x /\ spawned fs x) (fun x => idle x /\ spawned fs x)) in E as [(s & Hx' & Hid) Hsp].
  - exists s. pose proof Hid as [[? ? Hlen] ? ?]. split_and!; try done. by apply Hsp.
  - intros x t []. split; [by eapply spawn_ok|by apply spawn_spawned].
  - intros x s d x' cs [Hx0 Hf0] Hrun. destruct (st_run_spec r x s d x' cs (Ok tt) Hx0 Hrun) as [Hok _].
    destruct (Hok eq_refl) as (? & Hf & _). split; [done|by apply Hf].
  - intros x [(s & -> & []) ?]. split; [by exists s|done].
  - rewrite Hx. split; [by exists i|]. intros s [= <-]. done.
Qed.
End Composition.

(** ** A concrete program *)
Module StDemo.
Import SimulationTheorems.Demo.
#[local] Existing Instance demo_lang.
Notation T := Nano.time (only parsing).
Notation SQ := (PriorityQueue.PriorityQueue (T * Z) QueueItem) (only parsing).
Notation IQ := (PriorityQueue.PriorityQueue Z InjectorItem) (only parsing).

(** A task first wakes itself; at its second poll it makes the calls of its futures and ends.
    [polled] lists the polls. *)
Definition polls (t : nat) (polled : list nat) : nat := length (filter (fun u => u = t) polled).
Definition demo_calls (task : Task) (fl : list bool) : list (ApiCall T) := mbind (fut_calls fl) (task_futures task).
Definition unpolled (w : World T SQ IQ (list nat)) : nat :=
  length (filter (fun t => polls t (user w) = 0%nat) (seq 0 (length (futures w)))).

#[local] Instance demo_program : Program T SQ IQ (list nat) Z (Ticker.PeriodicTicker T) := {|
  p_poll task t s u :=
    if decide (polls t u = 0%nat) then (u ++ [t], [t], 0, StExecutor.PPending, [])
    else (u ++ [t], [], 0, StExecutor.PReady, demo_calls task (flags s));
  p_drop _ _ _ u := (u, [], []);
  p_panic _ := (0, mkAny 0%nat 0);
  p_in_time _ _ := true;
  p_late _ := [];
  p_window _ _ := [event 100 0 7 0];
  p_key keys := S (list_max (elements keys));
  p_mailbox_len _ _ := 0;
  p_reply _ _ := None;
  p_synchronize c _ _ := (c, [], Clock.Synchronized);
  p_tick := tick;
  p_flight _ := 0;
  p_budget := unpolled |}.

Lemma polls_snoc t u polled : polls t (polled ++ [u]) = (polls t polled + if decide (u = t) then 1 else 0)%nat.
Proof. unfold polls. rewrite filter_app, length_app, filter_cons, filter_nil. by case_decide. Qed.

Lemma unpolled_le (A B : nat -> Prop) `{!forall x, Decision (A x), !forall x, Decision (B x)} (l : list nat) :
  (forall x, A x -> B x) -> (length (filter A l) <= length (filter B l))%nat.
Proof.
  intros HAB. induction l as [|x l IH]; [done|]. rewrite !filter_cons.
  destruct (decide (A x)); [rewrite decide_True by auto; cbn; lia|]. case_decide; cbn; lia.
Qed.
Lemma unpolled_lt (A B : nat -> Prop) `{!forall x, Decision (A x), !forall x, Decision (B x)} (l : list nat) t :
  (forall x, A x -> B x) -> t ∈ l -> ~ A t -> B t -> (length (filter A l) < length (filter B l))%nat.
Proof.
  intros HAB Hin HA HB. induction Hin as [x l|x y l Hin IH]; rewrite !filter_cons.
  - rewrite decide_False, decide_True by done. cbn. pose proof (unpolled_le A B l HAB). lia.
  - specialize (IH HA HB). destruct (decide (A y)); [rewrite decide_True by auto; cbn; lia|]. case_decide; cbn; lia.
Qed.

#[local] Instance demo_laws : ProgramLaws registry.
Proof.
  split; cbn [p_poll p_drop p_late p_flight p_key p_synchronize p_tick p_budget demo_program].
  - intros w t task u woken d o cs Ht H. case_decide as Hp; injection H as <- <- <- <- <-.
    + split; [|split; [done|constructor]]. unfold unpolled. cbn [user futures].
      assert (t < length (futures w))%nat by (by eapply lookup_lt_Some).
      change (length [t]) with 1%nat. rewrite Nat.add_1_r.
      apply (unpolled_lt _ _ _ t); [intros x; rewrite polls_snoc; lia|apply elem_of_seq; lia| |done].
      rewrite polls_snoc, decide_True by done. lia.
    + split; [|split; [done|]].
      * unfold unpolled. cbn [user futures]. change (length (@nil nat)) with 0%nat. rewrite Nat.add_0_r. apply unpolled_le. intros x. rewrite polls_snoc. lia.
      * intros fl. unfold demo_calls. apply Forall_bind, Forall_forall. intros f _.
        change (Forall (call_ok registry fl) (fut_calls (flags (seen w)) f)). unfold fut_calls. repeat case_match; repeat constructor; apply registry_id0.
  - intros w t task u woken cs Ht H. injection H as <- <- <-. split; [|split; [done|constructor]].
    unfold unpolled. cbn [user futures]. change (length (@nil nat)) with 0%nat. lia.
  - intros _ fl. constructor.
  - intros _. lia.
  - intros keys Hin%elem_of_elements. apply list_elem_of_In in Hin.
    pose proof (proj1 (list_max_le (elements keys) _) (le_n _)) as Hf. apply Forall_forall with (x := S (list_max (elements keys))) in Hf; [lia|].
    by apply list_elem_of_In.
  - intros. simplify_eq. constructor.
  - intros k t t' k'. apply (hl_tick (HO := host []) (r := registry)).
Qed.

Definition st_sim : Simulation T SQ IQ (StX T SQ IQ (list nat)) Z (Ticker.PeriodicTicker T) :=
  mkSim (Some (StExecutor.new (mkWorld [] shared0 [] []) 0)) (shared (sim scenario)) registry 0 None None 0 [] [].

Lemma st_sim_idle : exec_idle (StExecutor.new (mkWorld [] shared0 [] [] : World T SQ IQ (list nat)) 0).
Proof.
  split; [split; [apply StExecutorFacts.st_new_inv|done|done]|done|]. intros t k c H. done.
Qed.

Lemma st_step_until_witness :
  exists m' s, step_until 101 (Deadline.Absolute (at_ 100)) st_sim = Some (Val tt, m') /\ time (shared m') = at_ 100 /\
    executor m' = Some s /\ StExecutorFacts.served s.
Proof.
  destruct (st_step_until registry st_sim (StExecutor.new (mkWorld [] shared0 [] []) 0) (at_ 0) (Deadline.Absolute (at_ 100)) (at_ 100) 101) as (res & m' & E & H).
  - reflexivity.
  - apply scenario_sched_ok.
  - vm_compute; reflexivity.
  - reflexivity.
  - apply st_sim_idle.
  - reflexivity.
  - vm_compute; reflexivity.
  - vm_compute; lia.
  - assert (fst <$> step_until 101 (Deadline.Absolute (at_ 100)) st_sim = Some (Val tt)) as E' by (vm_compute; reflexivity).
    rewrite E in E'. injection E' as ->.
    destruct H as ((Ht & _) & s & Hx & _ & _ & Hs & _). exists m', s. split_and!; [exact E|exact Ht|exact Hx|exact Hs].
Defined.
End StDemo.
End StSimulation.
