(* ===== verification/ScopedLocal.v ===== *)
(** * Scoped thread-local keys: [macros/scoped_thread_local.rs]

    A key gives access, for the duration of a closure, to a value that lives on the
    stack of the caller, through a raw pointer kept in a thread-local cell.  The
    programs that use a key are trees of nested calls; the memory holds the values that are
    alive, so that a dangling pointer can be told: a program that dereferences one has
    no result. *)

From S2P Require Import Prelude.

Module ScopedLocal.

Section Defs.
Context {V : Type}.

(** What a thread does with the key. *)
Inductive Prog : Type :=
  | Skip
  | Panics
  | Seq (p q : Prog)
  | Catch (p : Prog)                   (** [catch_unwind] *)
  | Set_ (v : V) (p : Prog)            (** a local variable [v], and [key.set(&v, || p)] *)
  | Unset (p : Prog)                   (** [key.unset(|| p)] *)
  | Map (p : Prog).                    (** [key.map(|v| ...)]: [v] is used, then [p] runs *)

Record Thread : Type := mkThread {
  inner : option nat;                  (** the cell: null or an address *)
  memory : gmap nat V;                 (** the values that are alive *)
  uses : list (option V) }.            (** what the closures of [map] got *)

(** [Cell::set] *)
Definition cell_set (c : option nat) (s : Thread) : Thread := mkThread c (memory s) (uses s).
Definition use (v : option V) (s : Thread) : Thread := mkThread (inner s) (memory s) (uses s ++ [v]).
Definition alloc (a : nat) (v : V) (s : Thread) : Thread := mkThread (inner s) (<[a := v]> (memory s)) (uses s).
Definition free (a : nat) (s : Thread) : Thread := mkThread (inner s) (delete a (memory s)) (uses s).

(** The drop handler of [Reset]: it runs when the closure returns and when it unwinds. *)
Definition reset (prev : option nat) (r : option (bool * Thread)) : option (bool * Thread) :=
  '(panicked, s) ← r; Some (panicked, cell_set prev s).

Definition set (t : nat) (f : Thread -> option (bool * Thread)) (s : Thread) : option (bool * Thread) :=
  let prev := inner s in
  let s := cell_set (Some t) s in
  reset prev (f s).
Definition unset (f : Thread -> option (bool * Thread)) (s : Thread) : option (bool * Thread) :=
  let prev := inner s in
  let s := cell_set None s in
  reset prev (f s).
Definition map (f : Thread -> option (bool * Thread)) (s : Thread) : option (bool * Thread) :=
  match inner s with
  | None => Some (false, use None s)
  | Some a => v ← memory s !! a; f (use (Some v) s)
  end.

(** [true]: the program unwinds. *)
Fixpoint run (p : Prog) (s : Thread) : option (bool * Thread) :=
  match p with
  | Skip => Some (false, s)
  | Panics => Some (true, s)
  | Seq p q => '(panicked, s) ← run p s; if panicked : bool then Some (true, s) else run q s
  | Catch p => '(_, s) ← run p s; Some (false, s)
  | Set_ v p =>
      let a := fresh (dom (memory s)) in
      '(panicked, s) ← set a (run p) (alloc a v s); Some (panicked, free a s)
  | Unset p => unset (run p) s
  | Map p => map (run p) s
  end.

(** ** Specification: lexical scoping

    What the closures of [map] get, and whether the program unwinds, given the value
    that is in scope. *)
Fixpoint scoped (p : Prog) (v : option V) : list (option V) * bool :=
  match p with
  | Skip => ([], false)
  | Panics => ([], true)
  | Seq p q =>
      let '(l, panicked) := scoped p v in
      if panicked : bool then (l, true) else let '(l', panicked) := scoped q v in (l ++ l', panicked)
  | Catch p => let '(l, _) := scoped p v in (l, false)
  | Set_ w p => scoped p (Some w)
  | Unset p => scoped p None
  | Map p => match v with None => ([None], false) | Some w => let '(l, panicked) := scoped p v in (Some w :: l, panicked) end
  end.

(** The cell holds the address of a value that is alive. *)
Definition in_scope (s : Thread) (v : option V) : Prop :=
  match inner s, v with
  | None, None => True
  | Some a, Some w => memory s !! a = Some w
  | _, _ => False
  end.

(** Scoped keys refine lexical scoping: whatever the nesting of [set], [unset] and
    [map], and even if a panic unwinds through it, the closures get the value of the innermost
    enclosing call, no dangling pointer is dereferenced, and the cell and the memory are
    at the end what they were at the beginning. *)
Theorem scoped_key_refines p s v :
  in_scope s v ->
  run p s = Some ((scoped p v).2, mkThread (inner s) (memory s) (uses s ++ (scoped p v).1)).
Proof.
  revert s v. induction p as [| |p IHp q IHq|p IH|w p IH|p IH|p IH]; intros s v Hs; cbn.
  - rewrite app_nil_r. by destruct s.
  - rewrite app_nil_r. by destruct s.
  - rewrite (IHp s v Hs). cbn. destruct (scoped p v) as [l []]; cbn; [done|]. rewrite (IHq _ v); [|exact Hs]. cbn.
    destruct (scoped q v) as [l' b]. cbn. by rewrite app_assoc.
  - rewrite (IH s v Hs). cbn. by destruct (scoped p v).
  - unfold set, reset. set (a := fresh (dom (memory s))).
    assert (memory s !! a = None) as Ha by (apply not_elem_of_dom, is_fresh).
    rewrite (IH _ (Some w)); [|cbn; by rewrite lookup_insert_eq]. cbn. unfold free, cell_set. cbn. by rewrite delete_insert_id.
  - unfold unset, reset. rewrite (IH _ None); [|done]. done.
  - unfold map. unfold in_scope in Hs. destruct (inner s) as [a|] eqn:Ei, v as [w|]; try done.
    + rewrite Hs. cbn. rewrite (IH (use (Some w) s) (Some w)); [|unfold in_scope; cbn; by rewrite Ei]. cbn. rewrite Ei.
      destruct (scoped p (Some w)) as [l b]. cbn. by rewrite <- app_assoc.
    + unfold use. by rewrite Ei.
Qed.
End Defs.

(** A key that is set twice, with a panic that unwinds through the inner call, then
    unset; [None]: there is no value in scope. *)
Example scoped_example :
  (fun r => (inner r.2, size (memory r.2), uses r.2)) <$>
    run (Seq (Set_ 1 (Seq (Catch (Set_ 2 (Seq (Map Skip) Panics))) (Seq (Map Skip) (Unset (Map Skip))))) (Map Skip)) (mkThread None ∅ [])
  = Some (None, 0, [Some 2; Some 1; None; None]).
Proof. vm_compute. reflexivity. Qed.
End ScopedLocal.
