(* ===== verification/EventInjectors.v ===== *)
(** * Event injectors: [simulation/injector.rs]

    An [EventInjector] is bound to an input of a model and to an origin.  It makes a
    future for each argument, with a generator that may convert the argument first
    ([into_mapped]), and puts it in the injector queue ([injector_inject] of
    [Scheduler]); injectors can be cloned, and all share the queue. *)

From S2P Require Import Prelude Errors Time PriorityQueue QueueItems Effects Scheduler SchedulerFacts.
Import Items.
Local Open Scope Z_scope.

Module EventInjectors.

Section Defs.
Context `{L : Lang}.

(** [InjectorFutGen]: [InjectorInner] and [MappedInjectorInner]. *)
Inductive InjectorFutGen : Type -> Type :=
  | InjectorInner {T : Type} (generator : T -> Fut) : InjectorFutGen T
  | MappedInjectorInner {T U : Type} (map_fn : U -> T) (inner : InjectorFutGen T) : InjectorFutGen U.

Fixpoint future {T : Type} (g : InjectorFutGen T) : T -> Fut :=
  match g in InjectorFutGen T return T -> Fut with
  | InjectorInner generator => generator
  | MappedInjectorInner map_fn inner => fun arg => future inner (map_fn arg)
  end.
Fixpoint clone {T : Type} (g : InjectorFutGen T) : InjectorFutGen T :=
  match g in InjectorFutGen T return InjectorFutGen T with
  | InjectorInner generator => InjectorInner generator
  | MappedInjectorInner map_fn inner => MappedInjectorInner map_fn (clone inner)
  end.

Record EventInjector (T : Type) : Type := mkEventInjector { origin_id : Z; inner : InjectorFutGen T }.
Arguments mkEventInjector {T}. Arguments origin_id {T}. Arguments inner {T}.

(** [new], where [send] makes the future that sends a message to the model. *)
Definition new {T : Type} (send : T -> Fut) (origin_id : Z) : EventInjector T := mkEventInjector origin_id (InjectorInner send).
Definition into_mapped {T U : Type} (map : U -> T) (i : EventInjector T) : EventInjector U :=
  mkEventInjector (origin_id i) (MappedInjectorInner map (inner i)).
Definition clone_injector {T : Type} (i : EventInjector T) : EventInjector T := mkEventInjector (origin_id i) (clone (inner i)).

Context {T : Type} `{MT : MonoTime T}.
Context {SQ IQ : Type} `{SPQ : !StablePQ (T * Z) QueueItem SQ} `{IPQ : !StablePQ Z InjectorItem IQ}.

Definition inject {E A} (i : EventInjector A) (arg : A) : Eff (Shared T SQ IQ) E unit :=
  injector_inject (origin_id i) (future (inner i) arg).

(** ** Handles derived from one injector

    The injectors obtained from [new] by any sequence of conversions and clones. *)
Inductive derived {A} (send : A -> Fut) (o : Z) : forall B, EventInjector B -> (B -> A) -> Prop :=
  | derived_new : derived send o A (new send o) (fun a => a)
  | derived_map B B' (i : EventInjector B) f (g : B' -> B) : derived send o B i f -> derived send o B' (into_mapped g i) (fun b => f (g b))
  | derived_clone B (i : EventInjector B) f : derived send o B i f -> derived send o B (clone_injector i) f.

Lemma future_clone {A} (g : InjectorFutGen A) a : future (clone g) a = future g a.
Proof. induction g as [A gen|A B f g IH]; cbn; [done|apply IH]. Qed.

Lemma derived_future {A} (send : A -> Fut) o B (i : EventInjector B) f : derived send o B i f ->
  origin_id i = o /\ forall b, future (inner i) b = send (f b).
Proof.
  induction 1 as [|B B' i f g H [IHo IH]|B i f H [IHo IH]]; [done|split; [done|]; intros b; apply IH|].
  split; [done|]. intros b. cbn. rewrite future_clone. apply IH.
Qed.

(** A sequence of injections, each with a handle and its argument. *)
Inductive Injection : Type :=
  | Inject {B : Type} (i : EventInjector B) (b : B).
Definition injection {E} (x : Injection) : Eff (Shared T SQ IQ) E unit := match x with Inject i b => inject i b end.
Fixpoint inject_all {E} (l : list Injection) : Eff (Shared T SQ IQ) E unit :=
  match l with [] => mret tt | x :: l => injection x;; inject_all l end.

Definition item_of (x : Injection) : Z * InjectorItem := match x with Inject i b => (origin_id i, InjFuture (future (inner i) b)) end.

(** Injecting a sequence of events through any handles, derived from any number of
    injectors, never fails as long as the insertion counter of the queue does not overflow; each event
    ends up in the queue once, after the items of its origin that were there and in the order of
    injection; [derived_future] tells which message it is, that of the original injector for the
    converted argument. *)
Theorem injections_in_order {E} (l : list Injection) (s : Shared T SQ IQ) :
  pq_ok (injector_queue s) -> pq_epoch (injector_queue s) + Z.of_nat (length l) <= u64_max ->
  exists q, inject_all (E := E) l s = (Val tt, with_injector_queue q s) /\ pq_ok q /\
    forall o, StableQueue.with_key o (pq_view q) =
      StableQueue.with_key o (inj_view s) ++ (filter (fun e => e.1 = o) (item_of <$> l)).*2.
Proof.
  revert s. induction l as [|x l IH]; intros s Hok He; cbn [inject_all].
  { exists (injector_queue s). split; [by destruct s|]. split; [done|]. intros o. by rewrite app_nil_r. }
  destruct x as [B i b]. cbn [length] in He. unfold injection, inject, injector_inject, injector_insert.
  destruct (pq_insert (origin_id i) (InjFuture (future (inner i) b)) (injector_queue s)) as [q|] eqn:Hi;
    [|apply pq_insert_panic in Hi; [lia|done]].
  pose proof (pq_insert_ok _ _ _ _ Hok Hi) as (Hq & Hv & Hep).
  destruct (IH (with_injector_queue q s)) as (q' & H & Hq' & Hview); [done|cbn; lia|].
  exists q'. split; [unfold mbind, eff_bind; rewrite Hi; exact H|]. split; [done|]. intros o. rewrite Hview.
  unfold inj_view. cbn [injector_queue with_injector_queue]. rewrite Hv. cbn [fmap list_fmap item_of]. rewrite filter_cons. cbn [fst].
  case_decide as Ho.
  - subst o. rewrite StableQueue.insert_with_key_eq; [by rewrite <- app_assoc|]. apply StronglySorted_Sorted. by apply pq_sorted.
  - by rewrite StableQueue.insert_with_key_ne.
Qed.
End Defs.
End EventInjectors.
