(* ===== verification/MtDrop.v ===== *)
(** * The tasks of the multi-threaded executor when it is dropped:
      [executor/mt_executor.rs]

    The list of active tasks, the end of the worker threads and the drop handler of
    the executor.  The tasks are those of [StExecutor], which are handled in the same way by
    both executors: a future that is dropped removes its key from the list of active
    tasks if this list is accessible ([ACTIVE_TASKS]), and may wake other tasks.
    The work queue of [StExecutor] holds all the tasks that are scheduled here, be they in the
    injector or in the local queue of a worker.

    Scheduling a task requires a local worker ([LOCAL_WORKER]): outside the scope of one,
    it is a panic, which is [None]. *)

From S2P Require Import Prelude StExecutor StExecutorFacts StExecutorDrop.

Module MtDrop.
Import StExecutor.

Section Defs.
Context {W : Type} (on_drop : nat -> W -> W * list nat).

(** [spawn] and [spawn_and_forget]: the list is locked from the booking of the key to the
    insertion of the token. *)
Definition spawn (vacant_key : gset nat -> nat) (s : Inner W) : Inner W :=
  let task_entry := vacant_key (active_tasks s) in
  let s := set_tasks (tasks s ++ [mkTask task_entry true false 1]) s in
  let s := set_active ({[task_entry]} ∪ active_tasks s) s in
  set_queue (pred (length (tasks s)) :: queue s) s.

(** [schedule_task] fails without a local worker. *)
Definition unscoped (f : Inner W -> Inner W) (s : Inner W) : option (Inner W) :=
  let s' := f s in
  if decide (queue s' = queue s) then Some s' else None.

Definition unqueue (t : nat) (s : Inner W) : Inner W := set_queue (filter (fun u => u <> t) (queue s)) s.

(** A [Runnable] that is dropped with the queue that holds it. *)
Definition drop_runnable (t : nat) (s : Inner W) : option (Inner W) :=
  unscoped (cancel_runnable on_drop false t) (unqueue t s).
Fixpoint drop_runnables (l : list nat) (s : Inner W) : option (Inner W) :=
  match l with [] => Some s | t :: l => s ← drop_runnable t s; drop_runnables l s end.

(** The end of the worker threads that were asked to return, or where a task has
    panicked.  A task that was popped before the abort signal was seen is dropped in the scope of
    the worker, where [ACTIVE_TASKS] is set; the tasks that are held by the [Worker], in its fast
    slot, are dropped with it, out of its scope, which is a panic of the thread ([None]) if this schedules
    a task.  The threads end concurrently: these steps happen in any order. *)
Inductive ending : Inner W -> option (Inner W) -> Prop :=
  | ending_popped t s : t ∈ queue s -> ending s (Some (cancel_runnable on_drop true t (unqueue t s)))
  | ending_held t s : t ∈ queue s -> ending s (drop_runnable t s).

(** [None]: a thread has panicked. *)
Inductive endings : Inner W -> option (Inner W) -> Prop :=
  | endings_all s : endings s (Some s)
  | endings_step s s1 r : ending s (Some s1) -> endings s1 r -> endings s r
  | endings_panic s : ending s None -> endings s None.

(** The drop handler once the threads are joined: the tasks whose token is in the list are
    cancelled in the scope of a temporary worker, with [ACTIVE_TASKS] unset; then the queues of
    this worker and the injector are dropped.  [keys] and [order]: the orders in which this
    happens. *)
Definition drop (keys : list nat) (order : list nat -> list nat) (s : Inner W) : option (Inner W) :=
  let s := set_active ∅ (foldl (cancel_key on_drop) s keys) in
  drop_runnables (order (queue s)) s.

(** The whole handler: [join().unwrap()] is a panic if a thread has panicked, and then no task is
    cancelled. *)
Definition drop_executor (keys : list nat) (order : list nat -> list nat) (r : option (Inner W)) : option (Inner W) :=
  s ← r; drop keys order s.
End Defs.

(** ** Invariant

    The queues hold the tasks that were woken, and the list of active tasks the keys of the
    tasks whose future exists (and possibly others: a future that is dropped with a
    worker does not remove its key). *)
Section Facts.
Import StExecutorFacts StExecutorDrop.
Context {W : Type} (on_drop : nat -> W -> W * list nat).
Implicit Types s : Inner W.

Record tracked s : Prop := {
  tr_cancelling : cancelling s;
  tr_listed t k c : view t s = Some (k, true, c) -> k ∈ active_tasks s }.

Lemma inv_tracked s : inv s -> tracked s.
Proof.
  intros [Hq Hu Hl _]. split; [split; [done|by apply uncancelled_wound|by apply listed_accounted]|].
  intros t k c Hv. apply (listed_active _ Hl). by exists t, c.
Qed.

(** The tasks that are spawned are tracked. *)
Lemma mt_spawn_inv vacant_key s : vacant_key (active_tasks s) ∉ active_tasks s -> inv s -> inv (spawn vacant_key s).
Proof.
  intros Hk Hi. replace (spawn vacant_key s) with (StExecutor.spawn vacant_key s); [by apply st_spawn_inv|].
  unfold spawn, StExecutor.spawn. destruct s. cbn. rewrite length_app, Nat.add_1_r. done.
Qed.

Lemma queue_unqueue t u s : u ∈ queue (unqueue t s) <-> u ∈ queue s /\ u <> t.
Proof. unfold unqueue. cbn. rewrite list_elem_of_filter. tauto. Qed.

Lemma unqueue_queued t s : queued None s -> t ∈ queue s -> queued (Some t) (unqueue t s).
Proof.
  intros [Hnd Hiff _] Hin. split.
  - by apply NoDup_filter.
  - intros u. rewrite queue_unqueue, Hiff. split; [intros ((_ & ?) & ?); split; [congruence|done]|].
    intros (Hu & ?). split; [by split|congruence].
  - intros u [= ->]. by apply Hiff.
Qed.

(** The future of a scheduled task is dropped with its [Runnable]. *)
Lemma cancel_tracked active t s : tracked s -> t ∈ queue s ->
  let s' := cancel_runnable on_drop active t (unqueue t s) in
  tracked s' /\ closes s s' /\ length (tasks s') = length (tasks s).
Proof.
  intros [[Hq Hw Ha] Hl] Hin s'. pose proof (proj1 (queued_iff _ _ Hq t) Hin) as (_ & (k & c & Hv) & _).
  assert (queued (Some t) (unqueue t s)) as Hq1 by (by apply unqueue_queued).
  assert (wound (unqueue t s)) as Hw1 by exact Hw.
  destruct (drop_future_spec on_drop active (Some t) t k true c (unqueue t s) Hv Hq1 Hw1) as [Hq2 [Av Aw Aa Ad _ _ _]].
  set (s1 := drop_future on_drop active t (unqueue t s)) in *.
  assert (view t s1 = Some (k, true, c)) as Hv1 by (by rewrite Av).
  destruct (view_end shut t k true c s1) as [[c' Ht] Ho]; [done..|].
  assert (s' = upd shut t s1) as -> by done.
  assert (forall u, u <> t -> view u (upd shut t s1) = view u s) as Ho' by (intros u Hu; by rewrite (Ho u Hu), Av).
  split; [split; [split|]|split].
  - apply (end_queued (Some t) shut t k true c); [done..| |by intros u [= ->]|done]. intros H. by apply (queued_iff _ _ Hq2) in H as [? _].
  - intros u ku. destruct (decide (u = t)) as [->|Hu]; [by rewrite Ht|]. rewrite (Ho u Hu), Av. intros Hv'. specialize (Hw1 _ _ Hv').
    specialize (Aw u). rewrite wakes_upd, decide_False by done. lia.
  - apply (accounted_drop t k c s); [done..| |done]. by exists c'.
  - intros u ku cu. destruct (decide (u = t)) as [->|Hu]; [by rewrite Ht|]. rewrite (Ho' u Hu). intros Hv'.
    change (active_tasks (upd shut t s1)) with (active_tasks s1). rewrite Aa. pose proof (Hl _ _ _ Hv') as Hk.
    destruct active; [|done]. apply elem_of_difference. split; [done|]. rewrite elem_of_singleton. intros ->.
    apply Hu. by eapply (acc_keys _ Ha).
  - eapply (closes_trans on_drop); [apply (closes_same s s1); intros u; by rewrite Av|by apply closes_upd].
  - assert (forall u, is_Some (view u (upd shut t s1)) <-> is_Some (view u s)) as Hsame.
    { intros u. destruct (decide (u = t)) as [->|Hu]; [rewrite Ht, Hv; split; by eexists|by rewrite Ho']. }
    apply Nat.le_antisymm; apply Nat.nlt_ge; intros Hlt.
    + apply (view_length _ (upd shut t s1)), Hsame, view_length in Hlt. lia.
    + apply (view_length _ s), Hsame, view_length in Hlt. lia.
Qed.

Lemma drop_runnable_tracked t s s' : tracked s -> t ∈ queue s -> drop_runnable on_drop t s = Some s' ->
  tracked s' /\ closes s s' /\ length (tasks s') = length (tasks s) /\ queue s' = filter (fun u => u <> t) (queue s).
Proof.
  intros Ht Hin H. unfold drop_runnable, unscoped in H. case_decide as Hq; [|done]. injection H as <-.
  destruct (cancel_tracked false t s Ht Hin) as (? & ? & ?). done.
Qed.

Lemma ending_tracked s s' : ending on_drop s (Some s') -> tracked s ->
  tracked s' /\ closes s s' /\ length (tasks s') = length (tasks s).
Proof.
  intros H Ht. remember (Some s') as r eqn:Er. destruct H as [t s0 Hin|t s0 Hin].
  - injection Er as <-. by apply cancel_tracked.
  - destruct (drop_runnable_tracked t s0 s' Ht Hin Er) as (? & ? & ? & _). done.
Qed.

Lemma endings_tracked s r : endings on_drop s r -> forall s', r = Some s' -> tracked s ->
  tracked s' /\ length (tasks s') = length (tasks s).
Proof.
  induction 1 as [|s s1 r H _ IH|]; intros s' Hr Ht; [by simplify_eq| |done].
  destruct (ending_tracked _ _ H Ht) as (Ht1 & _ & <-). by apply IH.
Qed.

(** The panic of a thread: a task that was held by its worker has scheduled another one when it was dropped. *)
Definition end_panic (s : Inner W) (t : nat) : Prop :=
  t ∈ queue s /\ exists u, u ∈ queue (cancel_runnable on_drop false t (unqueue t s)) /\ u ∉ queue (unqueue t s).

Lemma wake_queue_grows (s : Inner W) t : queue (wake s t) = queue s \/ queue (wake s t) = t :: queue s.
Proof. unfold wake. destruct (tasks s !! t); [|by left]. case_match; [by right|by left]. Qed.

Lemma wake_all_suffix woken : forall s : Inner W, queue s `suffix_of` queue (wake_all woken s).
Proof.
  unfold wake_all. induction woken as [|t woken IH]; intros s; cbn; [done|]. etrans; [|apply IH].
  destruct (wake_queue_grows s t) as [-> | ->]; [done|by apply suffix_cons_r].
Qed.

Lemma ending_panics s : tracked s -> ending on_drop s None -> exists t, end_panic s t.
Proof.
  intros Ht H. remember None as r eqn:Er. destruct H as [|t s Hin]; [done|]. exists t. split; [done|].
  unfold drop_runnable, unscoped in Er. case_decide as Hq; [done|].
  destruct (cancel_tracked false t s Ht Hin) as ([[[Hnd _ _] _ _] _] & _).
  set (s' := cancel_runnable on_drop false t (unqueue t s)) in *.
  assert (queue (unqueue t s) `suffix_of` queue s') as [l Hl].
  { unfold s', cancel_runnable. change (queue (upd ?f t ?x)) with (queue x). unfold drop_future.
    destruct (tasks (unqueue t s) !! t); [|done]. destruct (on_drop t _) as [w woken].
    exact (wake_all_suffix woken (set_world w (log_drop t (unqueue t s)))). }
  destruct l as [|u l]; [done|]. exists u. rewrite Hl in *. split; [by left|]. intros Hu.
  cbn in Hnd. apply NoDup_cons in Hnd as [Hnd _]. apply Hnd, elem_of_app. by right.
Qed.

Lemma endings_panics s r : endings on_drop s r -> tracked s -> r = None ->
  exists s1 t, endings on_drop s (Some s1) /\ end_panic s1 t.
Proof.
  induction 1 as [|s s1 r H _ IH|s H]; intros Ht Hr; [done| |].
  - destruct (ending_tracked _ _ H Ht) as (Ht1 & _ & _). destruct (IH Ht1 Hr) as (s2 & t & Hs & Hp).
    exists s2, t. split; [by eapply endings_step|done].
  - destruct (ending_panics s Ht H) as [t Hp]. exists s, t. split; [apply endings_all|done].
Qed.

Lemma ending_silent s : (forall t w, (on_drop t w).2 = []) -> tracked s -> ~ ending on_drop s None.
Proof.
  intros Hno Ht H. destruct (ending_panics s Ht H) as (t & _ & u & Hu & Hn). apply Hn. revert Hu.
  unfold cancel_runnable. change (queue (upd ?f t ?x)) with (queue x). unfold drop_future.
  destruct (tasks (unqueue t s) !! t); [|done]. specialize (Hno t (world (unqueue t s))). destruct (on_drop t _) as [w woken].
  cbn in Hno. by subst woken.
Qed.

(** Once all tasks are cancelled, none is scheduled when the queues are dropped. *)
Lemma drop_runnables_quiet l : forall s, NoDup l -> all_closed s -> accounted s ->
  (forall t, t ∈ l <-> exists k c, view t s = Some (k, true, c)) -> (forall t, t ∈ queue s -> t ∈ l) ->
  exists s', drop_runnables on_drop l s = Some s' /\ queue s' = [] /\ accounted s' /\ closes s s' /\
  forall t k c, view t s' <> Some (k, true, c).
Proof.
  induction l as [|t l IH]; intros s Hnd Hc Ha Hl Hq.
  - exists s. split; [done|]. split; [destruct (queue s) as [|u q]; [done|]; exfalso; eapply not_elem_of_nil, (Hq u); by left|].
    split; [done|]. split; [apply closes_refl|]. intros t k c Hv. eapply not_elem_of_nil, Hl. by eexists _, _.
  - apply NoDup_cons in Hnd as [Hnin Hnd]. destruct (proj1 (Hl t)) as (k & c & Hv); [by left|].
    destruct (cancel_runnable_quiet on_drop t k c (unqueue t s) Hc) as (H1 & H2 & H3 & H4 & [c' H5] & H6); [by destruct Ha|done|].
    cbn [drop_runnables]. unfold drop_runnable, unscoped. rewrite decide_True by exact H1. cbn [option_bind mbind].
    destruct (IH (cancel_runnable on_drop false t (unqueue t s))) as (s' & R1 & R2 & R3 & R4 & R5); try done.
    + intros u. destruct (decide (u = t)) as [->|Hne].
      * rewrite H5. split; [done|]. by intros (? & ? & ?).
      * rewrite H6 by done. change (view u (unqueue t s)) with (view u s). rewrite <- Hl, elem_of_cons. split; [by right|by intros [->|]].
    + intros u. rewrite H1, queue_unqueue. intros [Hu Hne]. apply Hq, elem_of_cons in Hu as [|]; [done|done].
    + exists s'. split; [done|]. split; [done|]. split; [done|]. split; [|done].
      eapply (closes_trans on_drop); [by apply (closes_same s (unqueue t s))|by eapply (closes_trans on_drop)].
Qed.

(** The handler once the threads have ended normally. *)
Lemma drop_all_tracked keys order s1 : tracked s1 -> (forall k, k ∈ active_tasks s1 -> k ∈ keys) ->
  (forall l, order l ≡ₚ l) ->
  exists s', drop on_drop keys order s1 = Some s' /\ queue s' = [] /\ NoDup (dropped s') /\
  forall t, t ∈ dropped s' <-> (t < length (tasks s1))%nat.
Proof.
  intros [Hc Hl] Hkeys Hord.
  unfold drop. destruct (cancel_keys_spec on_drop keys s1 Hc) as (H1 & H2 & H3).
  set (s2 := foldl (cancel_key on_drop) s1 keys) in *. destruct H1 as [Hq2 Hw2 Ha2].
  assert (all_closed s2) as Hc2.
  { intros t k c Hv. apply (H3 t k); [|done]. apply Hkeys.
    destruct (view t s1) as [[[k0 p0] c0]|] eqn:E0; [|by rewrite (closes_none _ _ H2 _ E0) in Hv].
    destruct (closes_view _ _ H2 _ _ _ _ E0) as (p1 & c1 & E1 & Hpp & _). rewrite Hv in E1. injection E1 as -> <- <-.
    rewrite (Hpp eq_refl) in E0. by eapply Hl. }
  destruct (drop_runnables_quiet (order (queue s2)) (set_active ∅ s2)) as (s' & R1 & R2 & R3 & R4 & R5).
  - rewrite Hord. apply Hq2.
  - done.
  - by destruct Ha2.
  - intros t. rewrite Hord, (queued_iff _ _ Hq2). split; [by intros (_ & ? & _)|]. intros (k & c & Hv). split; [done|].
    split; [by eauto|]. apply (Hw2 t k). rewrite (Hc2 t k c Hv) in Hv. exact Hv.
  - intros t. by rewrite Hord.
  - exists s'. split; [done|]. split; [done|]. split; [apply R3|]. intros t. rewrite (acc_dropped _ R3), <- (view_length t s1).
    assert (closes s1 s') as [Hcv Hcn] by (eapply (closes_trans on_drop); [exact H2|]; eapply (closes_trans on_drop); [|exact R4]; by apply closes_same). split.
    + intros (k & c & Hv). destruct (view t s1) eqn:E; [by eexists|]. by rewrite Hcn in Hv.
    + intros [[[k p] c] Hv]. destruct (Hcv _ _ _ _ Hv) as ([] & c' & Hv' & _); [|by exists k, c']. by apply R5 in Hv'.
Qed.

(** C14: the drop of the multi-threaded executor, from any state that its tasks may be in: the
    worker threads end in any order, some of them with tasks that are dropped with them, then the
    tasks that are left are cancelled in whatever order, and the queues dropped in whatever order.
    If no thread has panicked while ending then the drop handler returns (no task is scheduled without a local
    worker, whatever tasks the futures wake when they are dropped) and every task has been
    dropped exactly once.  A thread panics at its end only when a task held by its worker schedules
    another one when it is dropped, which is possible only if futures wake tasks when they are dropped; the drop
    handler is then a panic. *)
Theorem mt_drop_all s r : inv s -> endings on_drop s r ->
  match r with
  | Some s1 => forall keys order, (forall k, k ∈ active_tasks s1 -> k ∈ keys) -> (forall l, order l ≡ₚ l) ->
      exists s', drop_executor on_drop keys order r = Some s' /\ queue s' = [] /\ NoDup (dropped s') /\
      forall t, t ∈ dropped s' <-> (t < length (tasks s))%nat
  | None =>
      (exists s1 t, endings on_drop s (Some s1) /\ end_panic s1 t) /\ ~ (forall t w, (on_drop t w).2 = []) /\
      forall keys order, drop_executor on_drop keys order r = None
  end.
Proof.
  intros Hi Hr. pose proof (inv_tracked _ Hi) as Ht. destruct r as [s1|].
  - intros keys order Hkeys Hord. destruct (endings_tracked _ _ Hr _ eq_refl Ht) as [Ht1 <-]. by apply drop_all_tracked.
  - destruct (endings_panics _ _ Hr Ht eq_refl) as (s1 & t & Hs & Hp). split_and!; [by exists s1, t| |done].
    intros Hno. clear -Hr Ht Hno. remember None as r eqn:Er. induction Hr as [|s s1 r H _ IH|s H]; [done| |by eapply ending_silent].
    apply IH; try done. by eapply ending_tracked.
Qed.
End Facts.

(** ** Concrete executors *)
Section Examples.
Import StExecutorFacts StExecutorDrop.

(** Three tasks that wake one another when they are dropped: one of them was popped by a worker that ends,
    which drops it. *)
Definition demo_ended : Inner nat := cancel_runnable demo_drop true 2 (unqueue 2 (demo_inner 5)).

Lemma mt_drop_all_witness : exists s',
  drop_executor demo_drop (elements (active_tasks demo_ended)) (@rev nat) (Some demo_ended) = Some s' /\ queue s' = [] /\
  NoDup (dropped s') /\ forall t, t ∈ dropped s' <-> (t < length (tasks (demo_inner 5)))%nat.
Proof.
  refine (mt_drop_all demo_drop (demo_inner 5) (Some demo_ended) _ _ (elements (active_tasks demo_ended)) (@rev nat) _ _).
  - apply demo_inv.
  - eapply endings_step; [|apply endings_all]. apply ending_popped. vm_compute. apply list_elem_of_here.
  - intros k Hk. by apply elem_of_elements.
  - intros l. symmetry. apply Permutation_rev.
Defined.

(** A worker whose last task has woken another one and panicked: the task that was woken is in its fast
    slot. *)
Definition slot_poll (t : nat) (w : unit) : unit * list nat * Z * PollOutcome :=
  if (t =? 0)%nat then (w, [2%nat], 0%Z, PPanic) else (w, [], 0%Z, PPending).
Definition slot_drop (t : nat) (w : unit) : unit * list nat := (w, if (t =? 2)%nat then [1%nat] else []).
Definition slot_run : option (Outcome * Inner unit) :=
  run_inner slot_poll slot_drop (fun _ => false) 20 (spawn demo_key (spawn demo_key (spawn demo_key (new tt 0)))).

(** The thread panics when this task is dropped with the worker, if this wakes a task that
    is idle; the drop handler, which sets a local worker, would have dropped it. *)
Example worker_end_panics :
  (r ← slot_run; Some (r.1, queue r.2, dropped <$> drop_runnable slot_drop 2 r.2,
     (dropped <$> drop slot_drop (elements (active_tasks r.2)) (@rev nat) r.2)))
  = Some (Returned (Err Panic), [2%nat], None, Some [0%nat; 1%nat; 2%nat]).
Proof. vm_compute. reflexivity. Qed.
End Examples.
End MtDrop.
