(* ===== verification/Recycling.v ===== *)
(** * Storage recycled by the broadcasters of output ports:
      [ports/output/broadcaster.rs] and [ports/output/sender.rs]

    The futures of a broadcast are stored in boxes that belong to their senders
    and listed in a vector that belongs to the broadcaster; both are given back when
    the futures are dropped, be it because the broadcast is complete or because it
    is cancelled, so as to be used by the next broadcast.

    A box and a vector are seen through their capacity; the futures are numbered in the order
    of their creation.  What the senders make of an argument is the list of their
    responses: no future for a sender that filters the argument out, or a future of some
    size.  The counters of allocations and the list of dropped futures are there for the
    statements only. *)

From S2P Require Import Prelude.

Module Recycling.

(** A [RecycledFuture], in a box lent by a sender. *)
Record RecycledFuture := mkFuture {
  fut : nat;
  box : nat;
  lender : nat }.

Record Broadcaster := mkBroadcaster {
  fut_storage : list (option nat);
  storage : option nat;
  created : nat;
  dropped : list nat;
  box_allocs : nat;
  vec_allocs : nat }.

Definition set_fut_storage l b := mkBroadcaster l (storage b) (created b) (dropped b) (box_allocs b) (vec_allocs b).
Definition set_storage o b := mkBroadcaster (fut_storage b) o (created b) (dropped b) (box_allocs b) (vec_allocs b).
Definition add_created b := mkBroadcaster (fut_storage b) (storage b) (S (created b)) (dropped b) (box_allocs b) (vec_allocs b).
Definition log_drop i b := mkBroadcaster (fut_storage b) (storage b) (created b) (dropped b ++ [i]) (box_allocs b) (vec_allocs b).
Definition add_box_allocs n b := mkBroadcaster (fut_storage b) (storage b) (created b) (dropped b) (n + box_allocs b) (vec_allocs b).
Definition add_vec_allocs n b := mkBroadcaster (fut_storage b) (storage b) (created b) (dropped b) (box_allocs b) (n + vec_allocs b).

Section Defs.
(** The capacity of a box after [RecycleBox::recycle], from its capacity and the size of the
    object; the capacity of a vector that has to grow, from its capacity and what is needed. *)
Context (recycle grow : nat -> nat -> nat).

(** [RecycledFuture::new]. *)
Definition new (i size : nat) (b : Broadcaster) : RecycledFuture * Broadcaster :=
  let vacated_box := default 0 (mjoin (fut_storage b !! i)) in
  let f := mkFuture (created b) (recycle vacated_box size) i in
  let b := add_box_allocs (if vacated_box <? size then 1 else 0) b in
  (f, add_created (set_fut_storage (<[i := None]> (fut_storage b)) b)).

(** [RecycledFuture::drop]. *)
Definition drop_future (b : Broadcaster) (f : RecycledFuture) : Broadcaster :=
  log_drop (fut f) (set_fut_storage (<[lender f := Some (box f)]> (fut_storage b)) b).

(** [recycle_vec] drops the futures in order and keeps the capacity of the vector. *)
Definition recycle_vec (cap : nat) (l : list RecycledFuture) (b : Broadcaster) : nat * Broadcaster :=
  (cap, foldl drop_future b l).

(** [BroadcasterInner::default], [add], and [Shared::clone] with the [clone]s of the senders; an
    allocation that fails is not modelled. *)
Definition empty : Broadcaster := mkBroadcaster [] None 0 [] 0 0.
Definition add (b : Broadcaster) : Broadcaster :=
  let b := set_fut_storage (fut_storage b ++ [None]) b in
  match storage b with
  | Some cap =>
      let n := length (fut_storage b) in
      if cap <? n then add_vec_allocs 1 (set_storage (Some (grow cap n)) b) else b
  | None => b
  end.
Definition clone (b : Broadcaster) : Broadcaster :=
  mkBroadcaster (replicate (length (fut_storage b)) None) None 0 [] 0 0.

(** [Vec::push], on a vector of capacity [cap]. *)
Definition push (cap : nat) (l : list RecycledFuture) (f : RecycledFuture) (b : Broadcaster)
    : nat * list RecycledFuture * Broadcaster :=
  if length l <? cap then (cap, l ++ [f], b) else (grow cap (S (length l)), l ++ [f], add_vec_allocs 1 b).

(** The loop of [BroadcasterInner::futures], from the sender [i] on. *)
Fixpoint collect (i : nat) (responses : list (option nat)) (cap : nat) (l : list RecycledFuture) (b : Broadcaster)
    : nat * list RecycledFuture * Broadcaster :=
  match responses with
  | [] => (cap, l, b)
  | None :: responses => collect (S i) responses cap l b
  | Some size :: responses =>
      let '(f, b) := new i size b in
      let '(cap, l, b) := push cap l f b in
      collect (S i) responses cap l b
  end.
Definition futures (responses : list (option nat)) (b : Broadcaster) : nat * list RecycledFuture * Broadcaster :=
  let '(cap, b) := recycle_vec (default 0 (storage b)) [] b in
  collect 0 responses cap [] (set_storage None b).

(** A broadcast that is under way: the future of a unique sender, the vector of at most one future, which is
    awaited directly, or a [BroadcastFuture]. *)
Inductive InFlight :=
  | NoSender
  | Single (f : option RecycledFuture)
  | Direct (cap : nat) (l : list RecycledFuture)
  | Broadcast (cap : nat) (l : list RecycledFuture).

(** [EventBroadcaster::broadcast] and [QueryBroadcaster::broadcast] until the futures are awaited. *)
Definition begin (responses : list (option nat)) (b : Broadcaster) : InFlight * Broadcaster :=
  match responses with
  | [] => (NoSender, b)
  | [None] => (Single None, b)
  | [Some size] => let '(f, b) := new 0 size b in (Single (Some f), b)
  | _ =>
      let '(cap, l, b) := futures responses b in
      (match l with [] | [_] => Direct cap l | _ => Broadcast cap l end, b)
  end.

(** The end of the broadcast, complete, failed or cancelled: what is under way is dropped;
    [BroadcastFuture::drop] gives the vector back. *)
Definition finish (x : InFlight) (b : Broadcaster) : Broadcaster :=
  match x with
  | NoSender | Single None => b
  | Single (Some f) => drop_future b f
  | Direct _ l => foldl drop_future b l
  | Broadcast cap l => let '(cap, b) := recycle_vec cap l b in set_storage (Some cap) b
  end.
Definition broadcast (b : Broadcaster) (responses : list (option nat)) : Broadcaster :=
  let '(x, b) := begin responses b in finish x b.
End Defs.

(** The futures of a broadcast under way. *)
Definition in_flight (x : InFlight) : list RecycledFuture :=
  match x with NoSender => [] | Single o => option_list o | Direct _ l | Broadcast _ l => l end.

(** ** Facts *)
Section Facts.
Context (recycle grow : nat -> nat -> nat).
Implicit Types (b : Broadcaster) (l : list RecycledFuture).
Local Notation collect := (collect recycle grow).
Local Notation broadcast := (broadcast recycle grow).
Local Notation begin := (begin recycle grow).

(** The futures that were created are those that were dropped, once each, and those that are under way. *)
Definition accounted l b : Prop := dropped b ++ (fut <$> l) ≡ₚ seq 0 (created b).

Lemma accounted_new i size l b : accounted l b ->
  accounted (l ++ [(new recycle i size b).1]) (new recycle i size b).2.
Proof. unfold accounted. cbn. intros H. rewrite fmap_app, app_assoc, H. cbn. by rewrite <- seq_S. Qed.

Lemma accounted_drop_one f l b : accounted (f :: l) b -> accounted l (drop_future b f).
Proof. unfold accounted. cbn. intros <-. by rewrite <- app_assoc. Qed.

Lemma accounted_drops l b : accounted l b -> accounted [] (foldl drop_future b l).
Proof. revert b. induction l as [|f l IH]; intros b H; [done|]. cbn. by apply IH, accounted_drop_one. Qed.

Lemma accounted_collect rs : forall i cap l b, accounted l b ->
  accounted (collect i rs cap l b).1.2 (collect i rs cap l b).2.
Proof.
  induction rs as [|[size|] rs IH]; intros i cap l b H; [done| |by apply IH]. cbn [collect].
  pose proof (accounted_new i size l b H) as H'. destruct (new recycle i size b) as [f b1]. unfold push. cbn in H'.
  destruct (length l <? cap); by apply IH.
Qed.

Lemma accounted_begin rs b : accounted [] b -> accounted (in_flight (begin rs b).1) (begin rs b).2.
Proof.
  intros H. unfold begin, Recycling.begin.
  assert (let '(cap, l, b') := futures recycle grow rs b in
    accounted (in_flight (match l with [] | [_] => Direct cap l | _ => Broadcast cap l end)) b') as Hm.
  { pose proof (accounted_collect rs 0 (default 0 (storage b)) [] (set_storage None b) H) as Hc.
    unfold futures, recycle_vec. cbn [foldl]. destruct (collect _ _ _ _ _) as [[cap l] b']. cbn in Hc. by destruct l as [|? []]. }
  destruct rs as [|r [|r' rs]]; [done| |].
  - destruct r as [size|]; [|done]. exact (accounted_new 0 size [] b H).
  - destruct r; destruct (futures _ _ _ _) as [[cap l] b']; exact Hm.
Qed.

Lemma accounted_finish x b : accounted (in_flight x) b -> accounted [] (finish x b).
Proof.
  destruct x as [|[f|]|cap l|cap l]; cbn; intros H; [done|by apply accounted_drop_one|done|by apply accounted_drops|].
  exact (accounted_drops l b H).
Qed.

(** *** Boxes *)

(** The box of a sender, once the future that it stores is dropped. *)
Definition lent (o : option nat) (r : option nat) : option nat :=
  match r with Some size => Some (recycle (default 0 o) size) | None => o end.
Definition grown (o : option nat) (r : option nat) : nat :=
  match r with Some size => if default 0 o <? size then 1 else 0 | None => 0 end.

(** The futures that the senders make, from the sender [i] and the future [n] on. *)
Fixpoint made (i n : nat) (os rs : list (option nat)) : list RecycledFuture :=
  match os, rs with
  | o :: os, Some size :: rs => mkFuture n (recycle (default 0 o) size) i :: made (S i) (S n) os rs
  | _ :: os, None :: rs => made (S i) n os rs
  | _, _ => []
  end.
Definition emptied (o : option nat) (r : option nat) : option nat := match r with Some _ => None | None => o end.

Lemma collect_boxes rs : forall i cap l b pre os, fut_storage b = pre ++ os -> length pre = i -> length os = length rs ->
  let '(_, l', b') := collect i rs cap l b in
  l' = l ++ made i (created b) os rs /\ fut_storage b' = pre ++ zip_with emptied os rs /\ storage b' = storage b /\
  box_allocs b' = box_allocs b + sum_list (zip_with grown os rs).
Proof.
  induction rs as [|r rs IH]; intros i cap l b pre os Hf Hi Hlen; destruct os as [|o os]; try done; cbn [collect].
  - cbn. rewrite app_nil_r. auto.
  - assert (fut_storage b !! i = Some o) as Ho by (rewrite Hf, <- Hi; by apply list_lookup_middle).
    destruct r as [size|]; cbn [length] in Hlen.
    + unfold new, push. rewrite Ho. cbn [mjoin option_join default].
      set (f := mkFuture _ _ _). set (b1 := add_created _).
      assert (fut_storage b1 = (pre ++ [None]) ++ os) as Hf1.
      { cbn. rewrite Hf, <- Hi, insert_app_r_alt by lia. rewrite Nat.sub_diag. cbn. by rewrite <- app_assoc. }
      assert (forall cap' b2, fut_storage b2 = fut_storage b1 -> created b2 = created b1 -> storage b2 = storage b1 ->
        box_allocs b2 = box_allocs b1 -> let '(_, l', b') := collect (S i) rs cap' (l ++ [f]) b2 in
        l' = l ++ f :: made (S i) (S (created b)) os rs /\ fut_storage b' = pre ++ None :: zip_with emptied os rs /\
        storage b' = storage b /\ box_allocs b' = box_allocs b + sum_list (grown o (Some size) :: zip_with grown os rs)) as Hgo.
      { intros cap' b2 E1 E2 E3 E4. specialize (IH (S i) cap' (l ++ [f]) b2 (pre ++ [None]) os).
        destruct (collect _ _ _ _ _) as [[? ?] b']. destruct IH as (-> & -> & -> & ->); [congruence|rewrite length_app; cbn; lia|lia|].
        rewrite E2, E3, E4, <- !app_assoc. cbn. repeat split. lia. }
      destruct (length l <? cap); by apply Hgo.
    + specialize (IH (S i) cap l b (pre ++ [o]) os). destruct (collect _ _ _ _ _) as [[? ?] b'].
      destruct IH as (-> & -> & -> & ->); [rewrite <- app_assoc; done|rewrite length_app; cbn; lia|lia|].
      rewrite <- app_assoc. cbn. done.
Qed.

Lemma drops_spec os : forall rs i n pre b, length os = length rs -> length pre = i -> fut_storage b = pre ++ zip_with emptied os rs ->
  fut_storage (foldl drop_future b (made i n os rs)) = pre ++ zip_with lent os rs.
Proof.
  induction os as [|o os IH]; intros [|r rs] i n pre b Hlen Hi Hf; try done. cbn [zip_with made] in *. injection Hlen as Hlen.
  destruct r as [size|]; cbn [foldl].
  - rewrite (IH rs (S i) (S n) (pre ++ [Some (recycle (default 0 o) size)])); [by rewrite <- app_assoc|done|rewrite length_app; cbn; lia|].
    cbn. rewrite Hf, <- Hi, insert_app_r_alt by lia. rewrite Nat.sub_diag. cbn. by rewrite <- app_assoc.
  - rewrite (IH rs (S i) n (pre ++ [o])); [by rewrite <- app_assoc|done|rewrite length_app; cbn; lia|]. rewrite <- app_assoc. done.
Qed.

(** *** Vector *)
Definition count (rs : list (option nat)) : nat := length (filter is_Some rs).

Lemma made_length rs : forall i n os, length os = length rs -> length (made i n os rs) = count rs.
Proof.
  unfold count. induction rs as [|[size|] rs IH]; intros i n [|o os] Hlen; try done; injection Hlen as Hlen; cbn [made].
  - rewrite filter_cons_True by done. cbn. by rewrite IH.
  - rewrite filter_cons_False by (by intros [? ?]). by apply IH.
Qed.

Lemma collect_vec (Hgrow : forall cap n, n <= grow cap n) rs : forall i cap l b, length l <= cap ->
  let '(cap', l', b') := collect i rs cap l b in
  length l' = length l + count rs /\ length l' <= cap' /\ cap <= cap' /\
  (length l' <= cap -> cap' = cap /\ vec_allocs b' = vec_allocs b).
Proof.
  unfold count. induction rs as [|[size|] rs IH]; intros i cap l b Hl; cbn [collect].
  - cbn. repeat split; lia.
  - rewrite filter_cons_True by done. cbn [length]. destruct (new recycle i size b) as [f b1] eqn:En. unfold push.
    assert (vec_allocs b1 = vec_allocs b) as Ev by (by injection En as _ <-).
    destruct (Nat.ltb_spec (length l) cap) as [Hlt|Hge].
    + specialize (IH (S i) cap (l ++ [f]) b1). rewrite length_app in IH. cbn [length] in IH. rewrite Ev in IH.
      destruct (collect _ _ _ _ _) as [[cap' l'] b']. destruct IH as (? & ? & ? & ?); [lia|]. split; [lia|]. split; [lia|]. split; [lia|]. done.
    + pose proof (Hgrow cap (S (length l))) as Hg.
      specialize (IH (S i) (grow cap (S (length l))) (l ++ [f]) (add_vec_allocs 1 b1)). rewrite length_app in IH. cbn [length] in IH.
      destruct (collect _ _ _ _ _) as [[cap' l'] b']. destruct IH as (? & ? & ? & ?); [lia|]. repeat split; lia.
  - rewrite filter_cons_False by (by intros [? ?]). by apply IH.
Qed.

Lemma drops_vec l : forall b, storage (foldl drop_future b l) = storage b /\ vec_allocs (foldl drop_future b l) = vec_allocs b /\
  box_allocs (foldl drop_future b l) = box_allocs b.
Proof. induction l as [|f l IH]; intros b; [done|]. cbn [foldl]. by destruct (IH (drop_future b f)) as (-> & -> & ->). Qed.

(** What is left of the vector. *)
Record stored rs b b' : Prop := {
  stored_single : length rs <= 1 -> storage b' = storage b /\ vec_allocs b' = vec_allocs b;
  stored_lost : 2 <= length rs -> count rs <= 1 -> storage b' = None;
  stored_back : 2 <= count rs -> exists cap, storage b' = Some cap /\ count rs <= cap /\ default 0 (storage b) <= cap;
  stored_kept : count rs <= default 0 (storage b) -> vec_allocs b' = vec_allocs b }.

Lemma broadcast_many (Hgrow : forall cap n, n <= grow cap n) rs b : length rs = length (fut_storage b) -> 2 <= length rs ->
  let b' := broadcast b rs in
  fut_storage b' = zip_with lent (fut_storage b) rs /\
  box_allocs b' = box_allocs b + sum_list (zip_with grown (fut_storage b) rs) /\ stored rs b b'.
Proof.
  intros Hlen H2 b'.
  assert (b' = let '(cap, l, b1) := futures recycle grow rs b in
    finish (match l with [] | [_] => Direct cap l | _ => Broadcast cap l end) b1) as E.
  { unfold b', broadcast, Recycling.broadcast, Recycling.begin. destruct rs as [|[] [|r' rs]]; cbn in H2; try lia;
      by destruct (futures _ _ _ _) as [[? ?] ?]. }
  unfold futures, recycle_vec in E. cbn [foldl] in E.
  pose proof (collect_boxes rs 0 (default 0 (storage b)) [] (set_storage None b) [] (fut_storage b) eq_refl eq_refl (eq_sym Hlen)) as Hc.
  pose proof (collect_vec Hgrow rs 0 (default 0 (storage b)) [] (set_storage None b) (Nat.le_0_l _)) as Hv.
  destruct (collect _ _ _ _ _) as [[cap l] b1]. destruct Hc as (-> & Hf & Hs & Hb). destruct Hv as (Hcount & Hcap & Hle & Hkeep).
  cbn [app] in *. set (l := made _ _ _ _) in *. change (length []) with 0 in Hcount. rewrite Nat.add_0_l in Hcount.
  destruct (drops_vec l b1) as (D1 & D2 & D3).
  pose proof (drops_spec (fut_storage b) rs 0 (created (set_storage None b)) [] b1 (eq_sym Hlen) eq_refl Hf) as Df. fold l in Df.
  assert (fut_storage b' = fut_storage (foldl drop_future b1 l) /\ box_allocs b' = box_allocs b1 /\
    vec_allocs b' = vec_allocs b1 /\ storage b' = if 2 <=? count rs then Some cap else storage b1) as (-> & -> & Hva & Hst).
  { rewrite E, <- Hcount. clear Hcount Hcap Hkeep. by destruct l as [|f [|g l']]; cbn in *. }
  split; [done|]. split; [done|]. split.
  - lia.
  - intros _ Hc. rewrite Hst. destruct (Nat.leb_spec 2 (count rs)); [lia|done].
  - intros Hc. exists cap. rewrite Hst. destruct (Nat.leb_spec 2 (count rs)); [|lia]. split; [done|]. lia.
  - intros Hc. rewrite Hva. apply Hkeep. lia.
Qed.

(** The storage after a broadcast: the box of every sender is back in place, grown if need be. *)
Lemma broadcast_spec (Hgrow : forall cap n, n <= grow cap n) rs b : length rs = length (fut_storage b) ->
  let b' := broadcast b rs in
  fut_storage b' = zip_with lent (fut_storage b) rs /\
  box_allocs b' = box_allocs b + sum_list (zip_with grown (fut_storage b) rs) /\ stored rs b b'.
Proof.
  intros Hlen b'. destruct (decide (2 <= length rs)) as [H2|H2]; [by apply broadcast_many|].
  destruct (fut_storage b) as [|o [|? ?]] eqn:Ef, rs as [|r [|? ?]]; cbn in Hlen, H2; try lia.
  - split; [exact Ef|]. split; [cbn; lia|]. by split; cbn; try lia.
  - assert (count [r] <= 1) as Hc by (apply (length_filter _ [r])).
    destruct r as [size|].
    + unfold b', broadcast, Recycling.broadcast. cbn. rewrite Ef. cbn. split; [done|]. split; [lia|].
      by split; cbn [length]; try lia.
    + split; [exact Ef|]. split; [cbn; lia|]. by split; cbn [length]; try lia.
Qed.

(** ** Sequences of operations

    What the senders make of an argument: a function of the sender. *)
Inductive Op := Add | Send (r : nat -> option nat).
Definition responses (r : nat -> option nat) b : list (option nat) := r <$> seq 0 (length (fut_storage b)).
Definition apply b (op : Op) : Broadcaster :=
  match op with Add => add grow b | Send r => broadcast b (responses r b) end.

Lemma responses_length r b : length (responses r b) = length (fut_storage b).
Proof. unfold responses. by rewrite length_fmap, length_seq. Qed.

Lemma responses_lookup r b i x : responses r b !! i = Some x -> x = r i /\ i < length (fut_storage b).
Proof. unfold responses. rewrite list_lookup_fmap, fmap_Some. intros (j & [-> Hj]%lookup_seq & ->). done. Qed.

Lemma accounted_apply b op : accounted [] b -> accounted [] (apply b op).
Proof.
  intros H. destruct op as [|r]; cbn.
  - unfold add. cbn. destruct (storage b) as [cap|]; [|done]. by case_match.
  - unfold broadcast, Recycling.broadcast. pose proof (accounted_begin (responses r b) b H) as Hb.
    destruct (Recycling.begin _ _ _ _) as [x b1]. by apply accounted_finish.
Qed.

(** C38: every future that was ever created by a port is dropped exactly once, or is one of those of
    the broadcast under way, whatever senders are added, whatever arguments they filter out, and
    whether the broadcasts are complete or cancelled. *)
Theorem recycling_drops_once ops r : let b := foldl apply empty ops in
  dropped b ≡ₚ seq 0 (created b) /\
  let '(x, b1) := begin (responses r b) b in dropped b1 ++ (fut <$> in_flight x) ≡ₚ seq 0 (created b1).
Proof.
  intros b. assert (accounted [] b) as H.
  { assert (forall b0, accounted [] b0 -> accounted [] (foldl apply b0 ops)) as Hg; [|exact (Hg empty (Permutation_refl _))]. clear b.
    induction ops as [|op ops IH]; intros b0 H0; [done|]. cbn. by apply IH, accounted_apply. }
  split; [unfold accounted in H; by rewrite app_nil_r in H|].
  pose proof (accounted_begin (responses r b) b H) as Hb. destruct (Recycling.begin recycle grow (responses r b) b) as [x b1]. exact Hb.
Qed.

(** *** Allocations *)
Record warm (max_size : nat -> nat) b : Prop := {
  warm_box i o : fut_storage b !! i = Some o -> max_size i <= default 0 o;
  warm_vec : 2 <= length (fut_storage b) -> exists cap, storage b = Some cap /\ length (fut_storage b) <= cap }.

(** The futures fit in the boxes, and there are at least two of them if there are several senders. *)
Definition fits (max_size : nat -> nat) (n : nat) (r : nat -> option nat) : Prop :=
  (forall i size, i < n -> r i = Some size -> size <= max_size i) /\ (2 <= n -> 2 <= count (r <$> seq 0 n)).

Context (Hgrow : forall cap n, n <= grow cap n).
Context (Hkeep : forall cap size, size <= cap -> recycle cap size = cap).
Context (Hfit : forall cap size, size <= recycle cap size).

Lemma count_le rs : count rs <= length rs.
Proof. apply length_filter. Qed.

Lemma count_all rs : Forall is_Some rs -> count rs = length rs.
Proof. unfold count. induction 1 as [|r rs Hr _ IH]; [done|]. rewrite filter_cons_True by done. cbn. by rewrite IH. Qed.

Lemma sum_zero ns : Forall (fun n => n = 0) ns -> sum_list ns = 0.
Proof. induction 1 as [|n ns -> _ IH]; [done|exact IH]. Qed.

Lemma lent_lookup r b i o : zip_with lent (fut_storage b) (responses r b) !! i = Some o ->
  exists o0, fut_storage b !! i = Some o0 /\ o = lent o0 (r i).
Proof.
  rewrite lookup_zip_with_Some. intros (o0 & x & -> & Ho & [-> _]%responses_lookup). by exists o0.
Qed.

Lemma warm_broadcast max_size r b : warm max_size b -> fits max_size (length (fut_storage b)) r ->
  let b' := broadcast b (responses r b) in
  warm max_size b' /\ length (fut_storage b') = length (fut_storage b) /\
  box_allocs b' = box_allocs b /\ vec_allocs b' = vec_allocs b.
Proof.
  intros [Hb Hv] [Hs H2] b'. destruct (broadcast_spec Hgrow (responses r b) b (responses_length r b)) as (Ef & Eb & Es).
  fold b' in Ef, Eb, Es. assert (length (fut_storage b') = length (fut_storage b)) as El.
  { rewrite Ef, length_zip_with, responses_length. lia. }
  split; [split|].
  - intros i o. rewrite Ef. intros (o0 & Ho & ->)%lent_lookup. specialize (Hb _ _ Ho). apply lookup_lt_Some in Ho.
    unfold lent. destruct (r i) as [size|] eqn:Er; [|done]. cbn. specialize (Hs i size Ho Er). rewrite Hkeep; lia.
  - rewrite El. intros Hn. destruct (stored_back _ _ _ Es) as (cap & -> & _ & Hc); [by apply H2|].
    exists cap. split; [done|]. destruct (Hv Hn) as (cap0 & E0 & ?). rewrite E0 in Hc. cbn in Hc. lia.
  - split; [done|]. split.
    + rewrite Eb. enough (sum_list (zip_with grown (fut_storage b) (responses r b)) = 0) by lia.
      apply sum_zero, Forall_lookup. intros i g. rewrite lookup_zip_with_Some.
      intros (o & x & -> & Ho & [-> Hi]%responses_lookup). specialize (Hb _ _ Ho). unfold grown.
      destruct (r i) as [size|] eqn:Er; [|done]. specialize (Hs i size Hi Er). destruct (Nat.ltb_spec (default 0 o) size); [lia|done].
    + destruct (decide (2 <= length (fut_storage b))) as [Hn|Hn].
      * apply (stored_kept _ _ _ Es). destruct (Hv Hn) as (cap & -> & ?). cbn. pose proof (count_le (responses r b)).
        rewrite responses_length in *. lia.
      * apply (stored_single _ _ _ Es). rewrite responses_length. lia.
Qed.

(** A broadcast to all the senders makes room for the next ones. *)
Lemma full_broadcast_warm max_size b :
  let b' := broadcast b (responses (fun i => Some (max_size i)) b) in
  warm max_size b' /\ length (fut_storage b') = length (fut_storage b).
Proof.
  intros b'. set (r := fun i => Some (max_size i)) in *.
  destruct (broadcast_spec Hgrow (responses r b) b (responses_length r b)) as (Ef & _ & Es). fold b' in Ef, Es.
  assert (length (fut_storage b') = length (fut_storage b)) as El.
  { rewrite Ef, length_zip_with, responses_length. lia. }
  assert (count (responses r b) = length (fut_storage b)) as Ec.
  { rewrite <- (responses_length r b). apply count_all, Forall_lookup. intros i x [-> _]%responses_lookup. by eexists. }
  split; [split|done].
  - intros i o. rewrite Ef. intros (o0 & Ho & ->)%lent_lookup. apply Hfit.
  - rewrite El. intros Hn. destruct (stored_back _ _ _ Es) as (cap & -> & Hc & _); [lia|]. exists cap. split; [done|]. lia.
Qed.

(** C23: the storage is reused: once an argument was broadcast to all the senders of a port, a broadcast does
    not allocate memory, as long as the argument is sent to at least two recipients (or there is only one
    sender). *)
Theorem recycling_no_alloc max_size b rs :
  Forall (fits max_size (length (fut_storage b))) rs ->
  let b1 := apply b (Send (fun i => Some (max_size i))) in
  let b2 := foldl apply b1 (Send <$> rs) in
  box_allocs b2 = box_allocs b1 /\ vec_allocs b2 = vec_allocs b1.
Proof.
  intros Hrs b1. destruct (full_broadcast_warm max_size b) as [Hw El]. change (broadcast _ _) with b1 in Hw, El.
  rewrite <- El in Hrs. clearbody b1. revert b1 Hw El Hrs. induction rs as [|r rs IH]; intros b1 Hw El Hrs; [done|]. cbn [fmap list_fmap foldl].
  apply Forall_cons in Hrs as [Hr Hrs]. destruct (warm_broadcast max_size r b1 Hw Hr) as (Hw' & El' & Eb & Ev).
  change (broadcast _ _) with (apply b1 (Send r)) in *. rewrite <- Eb, <- Ev. apply IH; [done|congruence|by rewrite El'].
Qed.
End Facts.

(** ** Concrete ports

    Boxes and vectors with the capacity that is needed. *)
Definition demo_port : Broadcaster := add max (add max (add max empty)).

Lemma recycling_no_alloc_witness :
  let b1 := apply max max demo_port (Send (fun i => Some (i * 8))) in
  let b2 := foldl (apply max max) b1 (Send <$> [fun i => Some (i * 4); fun i => if i =? 1 then None else Some (i * 8)]) in
  box_allocs b2 = box_allocs b1 /\ vec_allocs b2 = vec_allocs b1.
Proof.
  apply (recycling_no_alloc max max).
  - lia.
  - lia.
  - lia.
  - repeat constructor.
    + intros i size _ [= <-]. lia.
    + intros i size _. destruct (i =? 1); [done|]. intros [= <-]. lia.
Defined.

(** The vector is lost by a broadcast that leaves a single recipient out of several senders, and the
    next one allocates again, although no sender was added meanwhile. *)
Example storage_lost :
  let full := Send (fun i => Some 8) in
  let narrow := Send (fun i => if i =? 0 then Some 8 else None) in
  let run ops := foldl (apply max max) demo_port ops in
  (vec_allocs (run [full; full]), storage (run [full; full])) = (3, Some 3) /\
  (vec_allocs (run [full; narrow]), storage (run [full; narrow])) = (3, None) /\
  vec_allocs (run [full; narrow; full]) = 6.
Proof. vm_compute. auto. Qed.
End Recycling.
