(* ===== verification/ModelLoop.v ===== *)
(** * The task of a model: [simulation.rs] ([add_model], [ModelFuture]), [channel.rs]
      ([Receiver::recv]) and the adapters of model methods, [ports/input/model_fn.rs]

    A model, its environment and its mailbox belong to one asynchronous task, which initializes the
    model and then executes the messages of the mailbox one by one.

    The methods of a model are given: a method has access to the model, possibly to its environment, and
    to the rest of the world through the context; an asynchronous method returns a
    future, which is given by its private state and what a poll does.  [None] and [PPanic] are
    panics.  A poll of the task is given the successive observations that its loop makes of
    the abort signal and of the queue of the mailbox (see [Channel] for the queue itself and its
    signals); past the last one, the signal is not set and the queue is empty. *)

From S2P Require Import Prelude Errors.

Module ModelLoop.

(** ** Futures *)
Inductive Polled (A B : Type) : Type := PReady (a : A) | PPending (b : B) | PPanic.
#[global] Arguments PReady {_ _} _.
#[global] Arguments PPending {_ _} _.
#[global] Arguments PPanic {_ _}.

Section Defs.
Context {W M Env Cx : Type}.

(** A future that borrows [X]. *)
Record Fut (X A : Type) : Type := mkFut {
  Priv : Type;
  priv : Priv;
  resume : W -> X -> Priv -> W * X * Polled A Priv }.
#[global] Arguments mkFut {_ _} _ _ _.
#[global] Arguments Priv {_ _} _.
#[global] Arguments priv {_ _} _.
#[global] Arguments resume {_ _} _ _ _ _.

Definition poll {X A} (w : W) (x : X) (f : Fut X A) : W * X * Polled A (Fut X A) :=
  let '(w, x, p) := resume f w x (priv f) in
  (w, x, match p with
         | PReady a => PReady a
         | PPending b => PPending (mkFut (Priv f) b (resume f))
         | PPanic => PPanic
         end).

(** [std::future::ready]. *)
Definition ready {X A} (a : A) : Fut X A := mkFut unit tt (fun w x _ => (w, x, PReady a)).

(** A future that borrows the model but not its environment. *)
Definition on_model {A} (f : Fut M A) : Fut (M * Env) A :=
  mkFut (Priv f) (priv f) (fun w x b => let '(w, m, p) := resume f w x.1 b in (w, (m, x.2), p)).

(** ** Adapters of model methods *)
Inductive InputFn : Type -> Type :=
  | WithoutArguments (f : M -> option M) : InputFn unit
  | WithoutContext T (f : M -> T -> option M) : InputFn T
  | WithContext T (f : M -> T -> Cx -> W -> option (W * M)) : InputFn T
  | WithContextAndEnv T (f : M -> T -> Cx -> Env -> W -> option (W * (M * Env))) : InputFn T
  | AsyncWithoutArguments (f : M -> option (M * Fut M unit)) : InputFn unit
  | AsyncWithoutContext T (f : M -> T -> option (M * Fut M unit)) : InputFn T
  | AsyncWithContext T (f : M -> T -> Cx -> W -> option (W * M * Fut M unit)) : InputFn T
  | AsyncWithContextAndEnv T (f : M -> T -> Cx -> Env -> W -> option (W * (M * Env) * Fut (M * Env) unit)) : InputFn T.

Definition call {T} (func : InputFn T) (x : M * Env) (cx : Cx) (w : W) : T -> option (W * (M * Env) * Fut (M * Env) unit) :=
  match func in InputFn T return T -> _ with
  | WithoutArguments f => fun _ => m ← f x.1; Some (w, (m, x.2), ready tt)
  | WithoutContext _ f => fun arg => m ← f x.1 arg; Some (w, (m, x.2), ready tt)
  | WithContext _ f => fun arg => '(w, m) ← f x.1 arg cx w; Some (w, (m, x.2), ready tt)
  | WithContextAndEnv _ f => fun arg => '(w, x) ← f x.1 arg cx x.2 w; Some (w, x, ready tt)
  | AsyncWithoutArguments f => fun _ => '(m, fut) ← f x.1; Some (w, (m, x.2), on_model fut)
  | AsyncWithoutContext _ f => fun arg => '(m, fut) ← f x.1 arg; Some (w, (m, x.2), on_model fut)
  | AsyncWithContext _ f => fun arg => '(w, m, fut) ← f x.1 arg cx w; Some (w, (m, x.2), on_model fut)
  | AsyncWithContextAndEnv _ f => fun arg => f x.1 arg cx x.2 w
  end.

Inductive ReplierFn (R : Type) : Type -> Type :=
  | RWithoutArguments (f : M -> option (M * Fut M R)) : ReplierFn R unit
  | RWithoutContext T (f : M -> T -> option (M * Fut M R)) : ReplierFn R T
  | RWithContext T (f : M -> T -> Cx -> W -> option (W * M * Fut M R)) : ReplierFn R T
  | RWithContextAndEnv T (f : M -> T -> Cx -> Env -> W -> option (W * (M * Env) * Fut (M * Env) R)) : ReplierFn R T.
#[global] Arguments RWithoutArguments {_} _.
#[global] Arguments RWithoutContext {_} _ _.
#[global] Arguments RWithContext {_} _ _.
#[global] Arguments RWithContextAndEnv {_} _ _.

Definition call_replier {R T} (func : ReplierFn R T) (x : M * Env) (cx : Cx) (w : W)
    : T -> option (W * (M * Env) * Fut (M * Env) R) :=
  match func in ReplierFn _ T return T -> _ with
  | RWithoutArguments f => fun _ => '(m, fut) ← f x.1; Some (w, (m, x.2), on_model fut)
  | RWithoutContext _ f => fun arg => '(m, fut) ← f x.1 arg; Some (w, (m, x.2), on_model fut)
  | RWithContext _ f => fun arg => '(w, m, fut) ← f x.1 arg cx w; Some (w, (m, x.2), on_model fut)
  | RWithContextAndEnv _ f => fun arg => f x.1 arg cx x.2 w
  end.

(** ** Messages

    The closures that the senders push to a mailbox and the futures that they return: for
    a query, the method is called when this future is first polled, and its reply is sent when its own
    future is ready. *)
Inductive Msg : Type :=
  | Event T (func : InputFn T) (arg : T)
  | Query R T (func : ReplierFn R T) (arg : T) (reply_sender : R -> W -> W).

Inductive MsgFuture : Type :=
  | FInput (f : Fut (M * Env) unit)
  | FReplyStart R T (func : ReplierFn R T) (arg : T) (reply_sender : R -> W -> W)
  | FReplyAwait R (f : Fut (M * Env) R) (reply_sender : R -> W -> W).

(** [MessageFn::call_once]. *)
Definition call_once (msg : Msg) (x : M * Env) (cx : Cx) (w : W) : option (W * (M * Env) * MsgFuture) :=
  match msg with
  | Event _ func arg => '(w, x, fut) ← call func x cx w arg; Some (w, x, FInput fut)
  | Query R T func arg reply_sender => Some (w, x, FReplyStart R T func arg reply_sender)
  end.

Definition poll_reply {R} (w : W) (x : M * Env) (f : Fut (M * Env) R) (reply_sender : R -> W -> W)
    : W * (M * Env) * Polled unit MsgFuture :=
  let '(w, x, p) := poll w x f in
  match p with
  | PReady reply => (reply_sender reply w, x, PReady tt)
  | PPending f => (w, x, PPending (FReplyAwait R f reply_sender))
  | PPanic => (w, x, PPanic)
  end.

Definition poll_msg (cx : Cx) (w : W) (x : M * Env) (f : MsgFuture) : W * (M * Env) * Polled unit MsgFuture :=
  match f with
  | FInput f =>
      let '(w, x, p) := poll w x f in
      (w, x, match p with PReady a => PReady a | PPending f => PPending (FInput f) | PPanic => PPanic end)
  | FReplyStart R T func arg reply_sender =>
      match call_replier func x cx w arg with
      | Some (w, x, f) => poll_reply w x f reply_sender
      | None => (w, x, PPanic)
      end
  | FReplyAwait R f reply_sender => poll_reply w x f reply_sender
  end.

(** ** The task

    [Model::init], by default. *)
Definition default_init (model : M) (_ : Cx) : Fut Env M := ready model.

Inductive Pop : Type := Got (id : nat) (msg : Msg) | Empty | Closed.
Record Obs : Type := mkObs { abort_signal : bool; pop : Pop }.

Inductive Phase : Type :=
  | Start (model : M)
  | Initializing (f : Fut Env M)
  | Receiving (model : M)
  | Handling (model : M) (id : nat) (f : MsgFuture)
  | Finished.

(** What has happened so far, for the statements: the steps of the task, and the messages that it has popped. *)
Inductive Step : Type := InitStart | InitEnd | MsgStart (id : nat) | MsgEnd (id : nat).
Record Task : Type := mkTask { phase : Phase; env : Env; log : list Step; taken : list nat }.

Definition set_phase (p : Phase) (t : Task) : Task := mkTask p (env t) (log t) (taken t).
Definition set_env (e : Env) (t : Task) : Task := mkTask (phase t) e (log t) (taken t).
Definition record (s : Step) (t : Task) : Task := mkTask (phase t) (env t) (log t ++ [s]) (taken t).
Definition take (id : nat) (t : Task) : Task := mkTask (phase t) (env t) (log t) (taken t ++ [id]).

Section Task.
Context (cx : Cx) (init : M -> Cx -> Fut Env M).

(** The future of a message is awaited; [true]: it is ready. *)
Definition await_msg (w : W) (model : M) (id : nat) (f : MsgFuture) (t : Task) : W * Task * Polled M unit :=
  let '(w, x, p) := poll_msg cx w (model, env t) f in
  let t := set_env x.2 t in
  match p with
  | PReady _ => (w, record (MsgEnd id) t, PReady x.1)
  | PPending f => (w, set_phase (Handling x.1 id f) t, PPending tt)
  | PPanic => (w, set_phase Finished t, PPanic)
  end.

(** The loop; [head]: at its head, where the abort signal is read, or within [recv]. *)
Fixpoint recv_loop (obs : list Obs) (head : bool) (w : W) (model : M) (t : Task) : W * Task * Polled unit unit :=
  match obs with
  | [] => (w, set_phase (Receiving model) t, PPending tt)
  | o :: obs =>
      if head && abort_signal o then (w, set_phase Finished t, PReady tt)
      else match pop o with
           | Empty => (w, set_phase (Receiving model) t, PPending tt)
           | Closed => (w, set_phase Finished t, PReady tt)
           | Got id msg =>
               let t := record (MsgStart id) (take id t) in
               match call_once msg (model, env t) cx w with
               | None => (w, set_phase Finished t, PPanic)
               | Some (w, x, fut) =>
                   let '(w, t, p) := await_msg w x.1 id fut (set_env x.2 t) in
                   match p with
                   | PReady model => recv_loop obs true w model t
                   | PPending b => (w, t, PPending b)
                   | PPanic => (w, t, PPanic)
                   end
               end
           end
  end.

(** The initialization is awaited. *)
Definition await_init (obs : list Obs) (w : W) (f : Fut Env M) (t : Task) : W * Task * Polled unit unit :=
  let '(w, e, p) := poll w (env t) f in
  let t := set_env e t in
  match p with
  | PReady model => recv_loop obs true w model (record InitEnd t)
  | PPending f => (w, set_phase (Initializing f) t, PPending tt)
  | PPanic => (w, set_phase Finished t, PPanic)
  end.

(** A poll of the future of [add_model]. *)
Definition poll_task (is_resumed : bool) (obs : list Obs) (w : W) (t : Task) : W * Task * Polled unit unit :=
  match phase t with
  | Start model =>
      if is_resumed then recv_loop obs true w model t
      else await_init obs w (init model cx) (record InitStart t)
  | Initializing f => await_init obs w f t
  | Receiving model => recv_loop obs false w model t
  | Handling model id f =>
      let '(w, t, p) := await_msg w model id f t in
      match p with
      | PReady model => recv_loop obs true w model t
      | PPending b => (w, t, PPending b)
      | PPanic => (w, t, PPanic)
      end
  | Finished => (w, t, PPanic)
  end.

(** [ModelFuture::poll], with the value of [CURRENT_MODEL_ID] that it leaves. *)
Definition poll_model (id : Z) (is_resumed : bool) (obs : list Obs) (w : W) (t : Task)
    : Z * (W * Task * Polled unit unit) :=
  let '(w, t, p) := poll_task is_resumed obs w t in
  (match p with PPanic => id | _ => ModelId.none end, (w, t, p)).
End Task.

(** ** The messages are executed one by one *)
Definition init_steps (is_resumed : bool) : list Step := if is_resumed then [] else [InitStart; InitEnd].
Definition msg_steps (ids : list nat) : list Step := flat_map (fun id => [MsgStart id; MsgEnd id]) ids.
Definition steps (is_resumed : bool) (ids : list nat) : list Step := init_steps is_resumed ++ msg_steps ids.

Lemma steps_snoc r ids id : steps r (ids ++ [id]) = steps r ids ++ [MsgStart id; MsgEnd id].
Proof. unfold steps, msg_steps. rewrite flat_map_app. cbn. by rewrite app_assoc. Qed.

Definition orderly (r : bool) (t : Task) : Prop :=
  match phase t with
  | Start _ => log t = [] /\ taken t = []
  | Initializing _ => r = false /\ log t = [InitStart] /\ taken t = []
  | Receiving _ => log t = steps r (taken t)
  | Handling _ id _ => exists ids, taken t = ids ++ [id] /\ log t = steps r ids ++ [MsgStart id]
  | Finished => log t `prefix_of` steps r (taken t)
  end.

Section Facts.
Context (cx : Cx) (init : M -> Cx -> Fut Env M) (r : bool).

Lemma await_msg_orderly w model id f t ids : taken t = ids ++ [id] -> log t = steps r ids ++ [MsgStart id] ->
  let '(_, t', p) := await_msg cx w model id f t in
  taken t' = taken t /\ match p with PReady _ => log t' = steps r (taken t') | _ => orderly r t' end.
Proof.
  intros Ht Hl. unfold await_msg. destruct (poll_msg _ _ _ _) as [[w' x] []]; cbn.
  - split; [done|]. by rewrite Ht, Hl, steps_snoc, <- app_assoc.
  - split; [done|]. by exists ids.
  - split; [done|]. unfold orderly. cbn. rewrite Ht, Hl, steps_snoc. exists [MsgEnd id]. by rewrite <- app_assoc.
Qed.

Definition ids_of (obs : list Obs) : list nat := obs ≫= fun o => match pop o with Got id _ => [id] | _ => [] end.

Lemma recv_loop_orderly obs : forall head w model t, log t = steps r (taken t) ->
  let '(_, t', _) := recv_loop cx obs head w model t in
  orderly r t' /\ exists l, taken t' = taken t ++ l /\ l `prefix_of` ids_of obs.
Proof.
  induction obs as [|o obs IH]; intros head w model t Hl; cbn [recv_loop].
  - split; [done|]. exists []. by rewrite app_nil_r.
  - assert (forall p, p = Finished \/ p = Receiving model -> orderly r (set_phase p t) /\
      exists l, taken (set_phase p t) = taken t ++ l /\ l `prefix_of` ids_of (o :: obs)) as Hend.
    { intros p Hp. split; [destruct Hp as [->| ->]; unfold orderly; cbn; [by rewrite Hl|done]|].
      exists []. rewrite app_nil_r. split; [done|apply prefix_nil]. }
    destruct (head && abort_signal o); [by apply Hend; left|]. destruct (pop o) as [id msg| |] eqn:Ep; [|by apply Hend; right|by apply Hend; left].
    assert (ids_of (o :: obs) = id :: ids_of obs) as Eids by (unfold ids_of; cbn; by rewrite Ep).
    assert (forall t', orderly r t' -> taken t' = taken t ++ [id] -> orderly r t' /\
      exists l, taken t' = taken t ++ l /\ l `prefix_of` ids_of (o :: obs)) as Hone.
    { intros t' Ho Ht'. split; [done|]. exists [id]. split; [done|]. rewrite Eids. apply prefix_cons, prefix_nil. }
    set (t1 := record (MsgStart id) (take id t)). destruct (call_once msg (model, env t1) cx w) as [[[w' x] fut]|].
    + pose proof (await_msg_orderly w' x.1 id fut (set_env x.2 t1) (taken t)) as Ha. cbn in Ha.
      destruct (await_msg cx w' x.1 id fut (set_env x.2 t1)) as [[w2 t2] p].
      destruct Ha as [Ht2 Ho2]; [done|by rewrite Hl|]. destruct p as [model'|[]|]; [|by apply Hone|by apply Hone].
      specialize (IH true w2 model' t2 Ho2). destruct (recv_loop cx obs true w2 model' t2) as [[w3 t3] p3].
      destruct IH as [Ho3 (l & Ht3 & Hp)]. split; [done|]. exists (id :: l). rewrite Ht3, Ht2, <- app_assoc, Eids.
      split; [done|]. by apply prefix_cons.
    + apply Hone; [|done]. unfold orderly. cbn. rewrite Hl, steps_snoc. exists [MsgEnd id]. by rewrite <- app_assoc.
Qed.

Lemma await_init_orderly obs w f t : r = false -> log t = [InitStart] -> taken t = [] ->
  let '(_, t', _) := await_init cx obs w f t in
  orderly r t' /\ exists l, taken t' = taken t ++ l /\ l `prefix_of` ids_of obs.
Proof.
  intros Hr Hl Ht. unfold await_init. destruct (poll w (env t) f) as [[w' e] [model|f'|]].
  - refine (recv_loop_orderly obs true w' model (record InitEnd (set_env e t)) _). cbn. rewrite Hl, Ht, Hr. done.
  - cbn. rewrite Ht. split; [done|]. exists []. split; [done|apply prefix_nil].
  - unfold orderly. cbn. rewrite Hl, Ht, Hr. split; [by exists [InitEnd]|]. exists []. split; [done|apply prefix_nil].
Qed.

Lemma poll_task_orderly obs w t : orderly r t ->
  let '(_, t', _) := poll_task cx init r obs w t in
  orderly r t' /\ exists l, taken t' = taken t ++ l /\ l `prefix_of` ids_of obs.
Proof.
  intros Ho. unfold poll_task. assert (orderly r t /\ exists l, taken t = taken t ++ l /\ l `prefix_of` ids_of obs) as Hsame.
  { split; [done|]. exists []. rewrite app_nil_r. split; [done|apply prefix_nil]. }
  unfold orderly in Ho. destruct (phase t) as [model|f|model|model id f|].
  - destruct Ho as [Hl Ht]. destruct r eqn:Er.
    + rewrite <- Er. apply recv_loop_orderly. rewrite Hl, Ht, Er. done.
    + rewrite <- Er. refine (await_init_orderly obs w (init model cx) (record InitStart t) Er _ Ht). cbn. by rewrite Hl.
  - destruct Ho as (Hr & Hl & Ht). by apply await_init_orderly.
  - by apply recv_loop_orderly.
  - destruct Ho as (ids & Ht & Hl). pose proof (await_msg_orderly w model id f t ids Ht Hl) as Ha.
    destruct (await_msg cx w model id f t) as [[w1 t1] p]. destruct Ha as [Ht1 Ho1].
    assert (orderly r t1 -> orderly r t1 /\ exists l, taken t1 = taken t ++ l /\ l `prefix_of` ids_of obs) as Hend.
    { intros Ho'. split; [done|]. exists []. rewrite Ht1, app_nil_r. split; [done|apply prefix_nil]. }
    destruct p as [model'|[]|]; [|by apply Hend|by apply Hend]. rewrite <- Ht1. by apply recv_loop_orderly.
  - exact Hsame.
Qed.

(** Successive polls; the world is whatever it has become meanwhile. *)
Definition run (polls : list (list Obs * W)) (t : Task) : Task :=
  foldl (fun t '(obs, w) => (poll_task cx init r obs w t).1.2) t polls.
Definition spawn (model : M) (e : Env) : Task := mkTask (Start model) e [] [].

(** C16: a model executes its messages one by one: whatever its methods do, and however its task is polled,
    it is first initialized (unless the simulation is resumed), then the messages that were popped
    are executed in this order, each one until it is complete before the next one is started; when the task
    waits for a message, all those that were popped are complete. *)
Theorem model_sequential polls model e : let t := run polls (spawn model e) in
  log t `prefix_of` steps r (taken t) /\ taken t `sublist_of` (polls ≫= fun p => ids_of p.1) /\
  (forall m, phase t = Receiving m -> log t = steps r (taken t)).
Proof.
  intros t.
  assert (orderly r t /\ exists l, taken t = taken (spawn model e) ++ l /\ l `sublist_of` (polls ≫= fun p => ids_of p.1)) as [Ho (l & Ht & Hl)].
  { assert (orderly r (spawn model e)) as H0 by done. unfold t. clear t. generalize dependent (spawn model e).
    induction polls as [|[obs w] polls IH]; intros t0 H0; [split; [done|]; exists []; by rewrite app_nil_r|].
    cbn [run foldl]. pose proof (poll_task_orderly obs w t0 H0) as Hp. destruct (poll_task cx init r obs w t0) as [[w1 t1] p].
    destruct Hp as [Ho1 (l1 & Ht1 & Hl1)]. cbn [fst snd]. destruct (IH t1 Ho1) as [Ho2 (l2 & Ht2 & Hl2)]. split; [exact Ho2|].
    exists (l1 ++ l2). split; [unfold run in Ht2; by rewrite Ht2, Ht1, app_assoc|]. rewrite bind_cons. cbn [fst]. apply sublist_app; [|done].
    destruct Hl1 as [k ->]. by apply sublist_inserts_r. }
  cbn in Ht. split; [|split; [by rewrite Ht|]].
  - unfold orderly in Ho. destruct (phase t) as [m|f|m|m id f|].
    + destruct Ho as [-> _]. apply prefix_nil.
    + destruct Ho as (-> & -> & _). apply (prefix_app_r [InitStart] [InitStart; InitEnd]). by exists [InitEnd].
    + by rewrite Ho.
    + destruct Ho as (ids & -> & ->). rewrite steps_snoc. exists [MsgEnd id]. by rewrite <- app_assoc.
    + done.
  - intros m Hm. unfold orderly in Ho. by rewrite Hm in Ho.
Qed.

(** The thread that catches a panic finds the identifier of the model that was polled, and none otherwise. *)
Lemma panic_identified id obs w t : let '(current, (_, _, p)) := poll_model cx init id r obs w t in
  match p with PPanic => current = id | _ => ModelId.get current = None end.
Proof.
  unfold poll_model. destruct (poll_task _ _ _ _ _ _) as [[? ?] []]; [|done|done]; unfold ModelId.get, ModelId.none; by rewrite Z.eqb_refl.
Qed.

(** *** Synchronous methods *)
Definition is_sync {T} (func : InputFn T) : bool :=
  match func with
  | WithoutArguments _ | WithoutContext _ _ | WithContext _ _ | WithContextAndEnv _ _ => true
  | _ => false
  end.
Definition sync_msg (msg : Msg) : bool := match msg with Event _ func _ => is_sync func | Query _ _ _ _ _ => false end.

Lemma call_sync {T} (func : InputFn T) x w arg w' x' f : is_sync func = true ->
  call func x cx w arg = Some (w', x', f) -> f = ready tt.
Proof.
  destruct func; cbn; intros Hs Hc; try done; repeat (apply bind_Some in Hc as (? & _ & Hc)); repeat case_match; by simplify_eq.
Qed.

(** The methods, one after the other. *)
Definition apply_msg (msg : Msg) (y : W * (M * Env)) : option (W * (M * Env)) :=
  match msg with
  | Event _ func arg => '(w, x, _) ← call func y.2 cx y.1 arg; Some (w, x)
  | Query _ _ _ _ _ => None
  end.
Definition apply_all (msgs : list (nat * Msg)) (y : W * (M * Env)) : option (W * (M * Env)) :=
  foldl (fun o msg => y ← o; apply_msg msg.2 y) (Some y) msgs.

Lemma apply_all_cons msg msgs y : apply_all (msg :: msgs) y = y ← apply_msg msg.2 y; apply_all msgs y.
Proof.
  unfold apply_all. cbn. destruct (apply_msg msg.2 y) as [y'|]; cbn; [done|]. by induction msgs.
Qed.

Definition observed (msgs : list (nat * Msg)) : list Obs := (fun msg => mkObs false (Got msg.1 msg.2)) <$> msgs.

Lemma recv_loop_sync msgs : forall head w model t w' m' e', Forall (fun msg => sync_msg msg.2 = true) msgs ->
  apply_all msgs (w, (model, env t)) = Some (w', (m', e')) ->
  recv_loop cx (observed msgs) head w model t =
  (w', mkTask (Receiving m') e' (log t ++ msg_steps msgs.*1) (taken t ++ msgs.*1), PPending tt).
Proof.
  induction msgs as [|[id msg] msgs IH]; intros head w model t w' m' e' Hs Ha.
  - injection Ha as <- <- <-. cbn. by rewrite !app_nil_r.
  - apply Forall_cons in Hs as [Hs Hss]. rewrite apply_all_cons in Ha. apply bind_Some in Ha as ([w1 [m1 e1]] & Ha1 & Ha).
    cbn [observed fmap list_fmap recv_loop abort_signal pop]. rewrite andb_false_r. cbn [fst snd] in *.
    destruct msg as [T func arg|]; [|done]. cbn [apply_msg] in Ha1. apply bind_Some in Ha1 as ([[w2 x2] f] & Hc & E). injection E as -> ->.
    rewrite (call_sync func _ _ _ _ _ _ Hs Hc) in Hc. cbn [call_once env record take snd fst] in *. rewrite Hc. cbn.
    erewrite (IH true w1 m1 _ w' m' e' Hss); [|exact Ha]. cbn. rewrite <- !app_assoc. done.
Qed.

(** A message that calls a synchronous method is executed within the poll where it is popped, and the
    messages of a mailbox act on the model as the sequence of the calls of its methods. *)
Theorem sync_messages_fold msgs w t model w' m' e' : phase t = Receiving model ->
  Forall (fun msg => sync_msg msg.2 = true) msgs -> apply_all msgs (w, (model, env t)) = Some (w', (m', e')) ->
  poll_task cx init r (observed msgs) w t =
  (w', mkTask (Receiving m') e' (log t ++ msg_steps msgs.*1) (taken t ++ msgs.*1), PPending tt).
Proof. intros Hp Hs Ha. unfold poll_task. rewrite Hp. by apply recv_loop_sync. Qed.
End Facts.

(** *** Elided arguments

    The methods without some of the arguments are those that ignore them. *)
Definition widen {T} (func : InputFn T) : InputFn T :=
  match func in InputFn T return InputFn T with
  | WithoutArguments f => WithContextAndEnv unit (fun m _ _ e w => m ← f m; Some (w, (m, e)))
  | WithoutContext T f => WithContextAndEnv T (fun m arg _ e w => m ← f m arg; Some (w, (m, e)))
  | WithContext T f => WithContextAndEnv T (fun m arg cx e w => '(w, m) ← f m arg cx w; Some (w, (m, e)))
  | AsyncWithoutArguments f => AsyncWithContextAndEnv unit (fun m _ _ e w => '(m, fut) ← f m; Some (w, (m, e), on_model fut))
  | AsyncWithoutContext T f => AsyncWithContextAndEnv T (fun m arg _ e w => '(m, fut) ← f m arg; Some (w, (m, e), on_model fut))
  | AsyncWithContext T f => AsyncWithContextAndEnv T (fun m arg cx e w => '(w, m, fut) ← f m arg cx w; Some (w, (m, e), on_model fut))
  | func => func
  end.

Lemma call_widen {T} (func : InputFn T) x cx w arg : call (widen func) x cx w arg = call func x cx w arg.
Proof.
  destruct func; cbn; try done; destruct (f _) as [y|] || destruct (f _ _) as [y|] || destruct (f _ _ _ _) as [y|];
    try done; repeat (destruct y as [y ?] || destruct y); done.
Qed.
End Defs.

(** ** A concrete model

    A counter, with a synchronous method that adds to it, and an asynchronous one that doubles it
    when it is resumed. *)
Definition demo_add : InputFn (W := unit) (Env := unit) (Cx := unit) nat := WithoutContext nat (fun m n => Some (m + n)).
Definition demo_double : InputFn (W := unit) (M := nat) (Env := unit) (Cx := unit) unit :=
  AsyncWithoutArguments (fun m => Some (m, mkFut bool false (fun w m b => (w, if b : bool then 2 * m else m, if b then PReady tt else PPending true)))).
Definition demo_waiting : Task (W := unit) (Cx := unit) := mkTask (Receiving 1) tt [] [].

Lemma sync_messages_fold_witness :
  poll_task tt default_init false (observed [(0, Event nat demo_add 2); (1, Event nat demo_add 3)]) tt demo_waiting =
  (tt, mkTask (Receiving 6) tt ([] ++ msg_steps [0; 1]) ([] ++ [0; 1]), PPending tt).
Proof.
  apply (sync_messages_fold tt default_init false [(0, Event nat demo_add 2); (1, Event nat demo_add 3)] tt demo_waiting 1); try reflexivity.
  repeat constructor.
Defined.

(** The addition waits for the end of the multiplication. *)
Example demo_sequential :
  let obs := [mkObs false (Got 0 (Event unit demo_double tt)); mkObs false (Got 1 (Event nat demo_add 3))] in
  let t1 := run tt default_init false [(obs, tt)] (spawn 5 tt) in
  let t2 := run tt default_init false [(obs, tt); (drop 1 obs, tt)] (spawn 5 tt) in
  log t1 = [InitStart; InitEnd; MsgStart 0] /\ phase t2 = Receiving 13 /\
  log t2 = [InitStart; InitEnd; MsgStart 0; MsgEnd 0; MsgStart 1; MsgEnd 1].
Proof. repeat split; reflexivity. Qed.
End ModelLoop.
