(* ===== verification/Observable.v ===== *)
(** * Observable states: [nexosim-util/src/observable.rs]

    A state whose changes are sent to an output port.  The port is known through an interface: what
    was sent on it is extended by each [send] ([None]: a panic). *)

From S2P Require Import Prelude.

Module Observable.

(** ** Interfaces *)
Class Observe (S T : Type) : Type := observe : S -> T.
#[global] Hint Mode Observe ! ! : typeclass_instances.
#[export] Instance observe_self {T} : Observe T T | 10 := fun x => x.

Class Output (O T : Type) : Type := mkOutput {
  send : T -> O -> option O;
  sent : O -> list T;
  send_sent v o o' : send v o = Some o' -> sent o' = sent o ++ [v] }.

Section Defs.
Context {S T O : Type} `{!Observe S T} `{!Output O T}.

Record Observable : Type := mkObservable { state : S; out : O }.

Definition new (out : O) (state : S) : Observable := mkObservable state out.
Definition with_default (default : S) (out : O) : Observable := mkObservable default out.
Definition get (self : Observable) : S := state self.

Definition propagate (self : Observable) : option Observable :=
  o ← send (observe (state self)) (out self); Some (mkObservable (state self) o).
Definition set (s : S) (self : Observable) : option Observable :=
  let self := mkObservable s (out self) in
  o ← send (observe (state self)) (out self); Some (mkObservable (state self) o).
Definition modify {R} (f : S -> S * R) (self : Observable) : option (R * Observable) :=
  let '(s, r) := f (state self) in
  let self := mkObservable s (out self) in
  o ← send (observe (state self)) (out self); Some (r, mkObservable (state self) o).

(** ** Sequences of operations *)
Inductive Op : Type := Set_ (s : S) | Modify (f : S -> S) | Propagate.
Definition apply (op : Op) (self : Observable) : option Observable :=
  match op with
  | Set_ s => set s self
  | Modify f => '(_, self) ← modify (fun s => (f s, tt)) self; Some self
  | Propagate => propagate self
  end.
Fixpoint run (ops : list Op) (self : Observable) : option Observable :=
  match ops with [] => Some self | op :: ops => self ← apply op self; run ops self end.

(** The states that the operations go through. *)
Definition next_state (s : S) (op : Op) : S := match op with Set_ s => s | Modify f => f s | Propagate => s end.
Fixpoint states (s : S) (ops : list Op) : list S :=
  match ops with [] => [] | op :: ops => let s := next_state s op in s :: states s ops end.

Lemma apply_spec op self self' : apply op self = Some self' ->
  state self' = next_state (state self) op /\ sent (out self') = sent (out self) ++ [observe (state self')].
Proof.
  destruct op as [s|f|]; cbn.
  - intros (o & Hs & [= <-])%bind_Some. apply send_sent in Hs. done.
  - intros ([[] x] & Hm & [= <-])%bind_Some. apply bind_Some in Hm as (o & Hs & [= <-]). apply send_sent in Hs. done.
  - intros (o & Hs & [= <-])%bind_Some. apply send_sent in Hs. done.
Qed.

(** What is sent on the port is the observation of every state that was set, in order. *)
Theorem observable_propagates ops : forall self self', run ops self = Some self' ->
  sent (out self') = sent (out self) ++ (observe <$> states (state self) ops) /\ state self' = foldl next_state (state self) ops.
Proof.
  induction ops as [|op ops IH]; cbn [run states foldl]; intros self self'; [intros [= <-]; by rewrite app_nil_r|].
  intros (self1 & Ha & Hr)%bind_Some. apply apply_spec in Ha as [Es Eo]. apply IH in Hr as [-> ->].
  rewrite Eo, Es, <- app_assoc. done.
Qed.

(** Hence the last value sent is that of the current state. *)
Corollary observable_current ops op self self' : run (ops ++ [op]) self = Some self' ->
  last (sent (out self')) = Some (observe (state self')).
Proof.
  revert self. induction ops as [|op' ops IH]; cbn [run app]; intros self.
  - intros (self1 & Ha & [= <-])%bind_Some. apply apply_spec in Ha as [_ ->]. apply last_snoc.
  - intros (self1 & _ & Hr)%bind_Some. by apply (IH self1).
Qed.
End Defs.
#[global] Arguments Observable : clear implicits.

(** A port that is connected to a sink. *)
#[export] Instance list_output {T} : Output (list T) T.
Proof. refine (mkOutput _ _ (fun v o => Some (o ++ [v])) (fun o => o) _). by intros v o o' [= <-]. Defined.

Example counter_observed :
  sent <$> (out <$> run [Propagate; Modify (fun x => x + 1); Set_ 7] (new [] 5)) = Some [5; 6; 7].
Proof. reflexivity. Qed.
End Observable.
